(* ===== verification/_CoqProject ===== *)
-Q . S2P
Prelude.v
Singleton.v
Util.v
Env.v
Config.v
LogFormatter.v
Log.v
LogConfig.v
Conc.v
ConcSum.v
LogConc.v
LogProtocol.v
LogThreads.v
ConfigConc.v
ConfigThreads.v
System.v
SystemThreads.v
Mutex.v
Thread.v
Fiber.v
Scheduler.v
SchedulerSteps.v
SchedulerJobs.v
SchedulerDrains.v
SchedulerFair.v
Schedulers.v
