(* ===== verification/Prelude.v ===== *)
(** * LioNet

    A verification of the C++ library LioNet (src/LioNet): a Linux server framework
    with loggers, configuration variables, threads, locks, and user-level fibers
    that a pool of threads schedules.  The C++ is translated by hand into
    executable Gallina, one definition per method, and theorems about these
    definitions say what the methods do.

    ** How the C++ is read

    - A method is a function from the state it reads to a [res] of its result and
      the state it leaves: [Ret], a thrown exception ([Throw]), a failed
      [LIONET_ASSERT] ([Abort]), or undefined behaviour ([UB]).  Null pointers,
      dangling pointers, iterators past the end, uninitialised fields and
      contexts that nothing prepared are cases of [UB], never of a default value.
    - Integers are [Z]; where the width matters (ids, counters, line numbers,
      size_t wrap-around) it is written out, or a bound is a hypothesis.
    - A string is the list of its characters; a [char *] ends at its first zero.
    - [shared_ptr] is an identity in a heap wherever two owners can see the
      changes of each other (fibers, loggers, appenders, threads); where nothing
      is shared it is a value.
    - Code outside the repository is an interface: [Posix] (Util.v) for the file
      system, the yaml-cpp nodes with [Load], [LoadFile] and the emitter
      (Config.v), the sinks of the loggers (Log.v), the lock classes (Mutex.v),
      [readlink], [strftime] and [abi::__cxa_demangle] as arguments.  Each class of laws
      states documented behaviour and has an instance, used by the witnesses.
      [strftime] may overflow the 64 characters it is given, and then the text is
      undefined; [StrftimeLaws] promises no more than that dates of the default format fit
      in the years 1970 to 9999, and the formats that a program sets are asked to fit
      where a theorem needs it ([pattern_fits]).
    - A member that no constructor assigns to has no value until it is assigned one:
      reading [m_stopping] or [m_autoStop] of a scheduler before is undefined.

    ** The files, and what they model

    - Prelude.v: text, [res] and the state monads, lists, tactics.
    - Singleton.v (singleton.h): the static variables behind [GetInstance].
    - Util.v (util.h, util.cc): [FSUtil] ([ListAllFile], [Mkdir], [Rm], [Dirname],
      [IsRunningPidfile], ...), the clocks, [Backtrace].
    - Env.v (env.h, env.cc): the command line, the help texts, the paths.
    - Config.v (config.h, config.cc): [ConfigVar] with its listeners, the registry,
      [LoadFromYaml], [LoadFromConfDir], the [LexicalCast]s of the containers.
    - LogFormatter.v (log.h, log.cc): levels, events, the format items and the
      pattern parser [LogFormatter::init].
    - Log.v (log.h, log.cc): [Logger], [LogAppender] and its two kinds,
      [LoggerManager], on a heap of both with a disk.
    - LogConfig.v (log.cc): [LogDefine], its casts, [toYamlString], and the
      listener that [LogIniter] installs on the variable "logs".
    - Conc.v: programs that take locks and access a shared state, the machine that
      interleaves any number of them, and a rely/guarantee logic for it.
    - ConcSum.v: two components that run over such programs, one calling the other.
    - LogConc.v (log.h, log.cc): the operations of Log.v again, each written as the
      program of its locked scopes and of the accesses between them.
    - LogProtocol.v: the order of these locks, what each protects, and that every
      operation obeys it.
    - LogThreads.v: any number of threads that run these programs at once.
    - ConfigConc.v (config.h, config.cc): the operations of Config.v as programs with
      their locks.
    - ConfigThreads.v: any number of threads that use the configuration.
    - System.v (config.h, config.cc, log.cc): configuration and loggers together: the
      listener of "logs" step by step inside [setValue], the lines that the
      configuration logs, and the static initializers.
    - SystemThreads.v: the static initializers, and then any number of threads that use
      both.
    - Mutex.v (mutex.h, mutex.cc): the three guards over any lock class,
      [CASLock] in all interleavings, [Semaphore], the classes over pthread from their
      constructors to their destructors.
    - Thread.v (thread.h, thread.cc): creating a thread, [run], the thread-local
      pointer and the destructor, in all interleavings of creator and thread.
    - Fiber.v (fiber.h, fiber.cc): fibers with their contexts; a context slot says
      which flow of control resuming it would continue.
    - Scheduler.v (scheduler.h, scheduler.cc): the scheduler and its threads.
      [thread_step i] executes the next portion of [Scheduler::run] (or of the
      code on a fiber) on thread [i]; every interleaving is a sequence of them.
    - SchedulerSteps.v: what each step of a thread does to heap, thread and
      scheduler, for pool threads and for the creator on its root fiber.
    - SchedulerJobs.v: the abstract specification of the scheduler, a bag of jobs,
      and the proof that the scheduler implements it.
    - SchedulerDrains.v: a stopping pool can always finish all its work.
    - SchedulerFair.v: it does, in every fair execution.
    - Schedulers.v (scheduler.h, scheduler.cc): several schedulers in one process, each
      operation in the view of its scheduler, and [SchedulerSwitcher].

    Calls go downwards in this list: the loggers use [FSUtil] and the formatter,
    the listener of "logs" uses the registry and the loggers, [Env] paths use the
    registry, the scheduler uses the fibers.  Loggers and configuration are modelled twice:
    in Log.v, LogConfig.v and Config.v each operation is one function, and the theorems
    say what it computes; in LogConc.v, ConfigConc.v and System.v it is the program of its
    locked scopes and single accesses, and the theorems say what threads do to each
    other.  The programs are proved against the class [Protocol] of Conc.v.  The guards of Mutex.v are proved
    against the class [Lockable]; the loggers against [SinkLaws] and
    [ReliableDisk]; [FSUtil] against [PosixLaws].

    ** What the theorems show

    - Scheduler.  The flags are assigned to after construction, as a derived class has to
      ([start_reads_unassigned]); [stop] is called in two steps, up to its tickles
      ([stop_flags]) and from there ([stop_call]), between which other threads run.  With
      any number of threads, with or without the creator, and with
      plain tasks (they yield, schedule functions, return or throw), no step of a
      launched pool is undefined or fails an assertion ([pool_never_goes_wrong]), unless
      its creator calls [stop] again after its own [run] has ended
      ([second_stop_aborts]); each
      execution is one of the bag of jobs ([pool_refines_jobs]), so that no effect
      is lost or repeated ([work_is_done_once]); a stopping pool can finish from
      every state it gets into ([stopping_pool_drains]), and does so in every execution
      in which each thread steps again and again ([fair_pool_finishes]).  The two counters that
      [stopping] reads are exact ([counters_exact]), also where several schedulers share
      a process ([schedulers_keep_apart]); the locked scan takes the first task the
      thread may run ([scan_takes_first_eligible]).  [SchedulerSwitcher] hands the fiber
      to its target ([switcher_spec]), which does not mean that the target, or only the
      target, goes on with it ([switcher_enters_twice]).  A task pinned to a thread that is
      not there is never run ([pinned_to_nobody_never_runs]).
    - Fibers.  A switch there and back restores the thread
      ([switch_roundtrip]); all reachable worlds are well formed.
    - Formatter.  The index loops compute exactly a declarative grammar; the
      constructor terminates normally on every pattern; patterns round-trip.
    - Loggers.  Nothing goes wrong on existing objects, when dates fit and no appender is
      left with a null formatter ([null_formatter_is_dereferenced]); an event reaches
      exactly the appenders of the first logger towards the root that has any; setting
      "logs" produces exactly the loggers it describes, unless only appenders change
      ([appender_change_lost]); a failed file stays failed ([failed_file_never_recovers]).
    - Loggers used by several threads.  Any threads with any operations, in every
      interleaving, never deadlock, never do anything undefined and come to an end
      ([loggers_never_deadlock]); a file receives whole events one after the other
      ([lines_never_mix]); the standard output does not ([stdout_lines_mix]).  Taking over
      a new configuration is one of the operations; while it is under way an event can
      go past its logger's appenders ([event_misses_its_appenders]).
    - Configuration used by several threads.  Threads that choose their calls by the
      results of earlier ones never deadlock or go wrong, names keep their variables,
      and values are values somebody gave ([config_never_deadlocks]).  The exception is
      [clearListener] ([clearListener_under_setValue]); and two threads can leave a
      value the listeners were not told last ([last_told_is_not_stored]) or lose a
      listener ([added_listener_is_lost]).
    - Both together.  Threads that use both components never deadlock either, although
      setting "logs" configures the loggers with the variable locked and [Lookup] logs
      with the registry locked ([system_never_deadlocks]).
    - Configuration.  The casts of all containers round-trip; exactly the listeners that
      were added and not removed are called, in order of their ids, with old and new value;
      [LoadFromYaml] sets exactly what it names; the names that [Lookup] registers.
    - Threads and locks.  The handshake of the constructor is safe and completes; an empty
      function terminates the program;
      guards are balanced, so that a pthread lock can be made, used and destroyed
      ([lock_lifetimes]); [CASLock] excludes; semaphores count.  A singleton has one
      instance ([one_instance], [constructed_once]).
    - Env and FSUtil.  The option grammar, [Mkdir], [ListAllFile] and [Dirname]
      are characterised exactly.
    - Where the code does something it does not mean to do, a theorem or lemma
      states what it does: [start_reads_unassigned], [appender_change_lost],
      [setFormatter_reaches_no_appender], [percent_escape_fails] and others.

    ** Fuel and bounds

    Loops over characters and directories are structural or take fuel: the pattern
    parser the length of the pattern plus one, which [init_implements_grammar]
    shows to be enough; [FSUtil::ListAllFile] and [Rm] a depth, with the
    hypothesis that the tree is no deeper (the operating system bounds it by
    PATH_MAX); [Logger::log] the length of the chain of roots.  The threads of
    the scheduler are not bounded by fuel: they are a step relation.

    ** What is not modelled

    - Reference counts: objects of the heaps die where the model says so
      ([destroy], [~Thread]) and not when the last pointer goes.
    - Steps are atomic between two accesses to shared data that the code
      protects by a lock; the operations of Config.v and Log.v are atomic as a whole.
      In LogConc.v and ConfigConc.v each access to a field, each opening of a file, each
      single write and each call of a listener is atomic; so listeners, and callbacks of
      [Visit], that use the configuration or the loggers are outside the model, except the
      listener of "logs", which System.v takes step by step.  Memory is sequentially
      consistent, also for the [std::atomic_flag] of [CASLock]: a data race (the members
      that [FileLogAppender::log] and [Logger::log] read without the lock, the counter
      [s_fun_id] under the locks of two variables) is modelled as interleaved accesses and
      not as the undefined behaviour it is in C++.
    - The library's own log lines inside the operations of other components, except
      those of the configuration (System.v).
    - noncopyable.h (checked by the compiler), lionet.h (includes), the programs under
      src/tests.  The objects behind singletons are arguments of the operations that
      use them.
    - Schedulers that are made, stopped or destroyed by a task: only code outside [run]
      does that in Schedulers.v.  The theorems about whole executions, but for
      [counters_exact] and [schedulers_keep_apart], are about one scheduler and about
      tasks that use [schedule] and the two yields; what switching does to them is
      shown by [switchTo_enters_twice] and [switcher_enters_twice]. *)
From stdpp Require Import base gmap list strings numbers pretty.
From Stdlib Require Import Ascii.

#[global] Set Default Proof Using "Type".

(** ** Text

    A [std::string] is the sequence of its characters.  Literals are written
    [$"abc"]; a [char] is an [ascii]. *)
Abbreviation str := (list ascii).

Definition lit (s : string) : str := String.list_ascii_of_string s.
#[global] Arguments lit : simpl never.

Declare Scope lio_scope.
Delimit Scope lio_scope with lio.
Open Scope lio_scope.
Notation "$ s" := (lit s%string) (at level 1, s at level 0, format "$ s") : lio_scope.

(** ** Results of C++ code

    What running a piece of C++ ends in: a value, a thrown exception, a failed
    [LIONET_ASSERT] (the process aborts), or undefined behaviour. *)
Inductive res (A : Type) : Type :=
| Ret (a : A)
| Throw (e : str)
| Abort (why : str)
| UB (why : str).
Arguments Ret {A} _.
Arguments Throw {A} _.
Arguments Abort {A} _.
Arguments UB {A} _.

#[export] Instance res_ret : MRet res := @Ret.
#[export] Instance res_bind : MBind res := fun A B f r =>
  match r with
  | Ret a => f a
  | Throw e => Throw e
  | Abort w => Abort w
  | UB w => UB w
  end.

Definition is_ret {A} (r : res A) : bool :=
  match r with Ret _ => true | _ => false end.

Definition is_ub {A} (r : res A) : bool :=
  match r with UB _ => true | _ => false end.

(** [LIONET_ASSERT(x)] and [LIONET_ASSERT2(x, w)] of macro.h: nothing when [x]
    holds, an abort of the process otherwise. *)
Definition LIONET_ASSERT (x : bool) (what : str) : res unit :=
  if x then Ret tt else Abort what.

(** ** Stateful code

    Code that changes an object of type [S].  An exception keeps the state it
    was thrown in, which is what a [catch] block sees. *)
Definition M (S A : Type) : Type := S -> res A * S.

#[export] Instance M_ret S : MRet (M S) := fun A a s => (Ret a, s).
#[export] Instance M_bind S : MBind (M S) := fun A B f m s =>
  match m s with
  | (Ret a, s') => f a s'
  | (Throw e, s') => (Throw e, s')
  | (Abort w, s') => (Abort w, s')
  | (UB w, s') => (UB w, s')
  end.

Definition get {S} : M S S := fun s => (Ret s, s).
Definition put {S} (s' : S) : M S unit := fun _ => (Ret tt, s').
Definition modify {S} (f : S -> S) : M S unit := fun s => (Ret tt, f s).
Definition lift_res {S A} (r : res A) : M S A := fun s => (r, s).
Definition ub {S A} (why : str) : M S A := lift_res (UB why).
Definition raise {S A} (e : str) : M S A := lift_res (Throw e).
Definition assert_that {S} (x : bool) (what : str) : M S unit :=
  lift_res (LIONET_ASSERT x what).
Definition try_catch {S A} (m : M S A) (h : str -> M S A) : M S A := fun s =>
  match m s with
  | (Throw e, s') => h e s'
  | r => r
  end.

(** ** Machine integers *)
Definition u32 (z : Z) : Z := (z mod 2 ^ 32)%Z.
Definition u64 (z : Z) : Z := (z mod 2 ^ 64)%Z.
Definition i32 (z : Z) : Z :=
  let w := (z mod 2 ^ 32)%Z in if Z.ltb w (2 ^ 31)%Z then w else (w - 2 ^ 32)%Z.

(** ** Characters and std::string operations *)
Definition isalpha (c : ascii) : bool :=
  let n := nat_of_ascii c in
  ((65 <=? n)%nat && (n <=? 90)%nat) || ((97 <=? n)%nat && (n <=? 122)%nat).

Definition tolower (c : ascii) : ascii :=
  let n := nat_of_ascii c in
  if (65 <=? n)%nat && (n <=? 90)%nat then ascii_of_nat (n + 32) else c.

(** [s.substr(pos, len)]: throws std::out_of_range when [pos > s.size()]. *)
Definition substr (s : str) (pos len : nat) : res str :=
  if (pos <=? length s)%nat then Ret (take len (drop pos s))
  else Throw $"std::out_of_range".

(** [s.substr(pos)] is [s.substr(pos, npos)]. *)
Definition substr_from (s : str) (pos : nat) : res str := substr s pos (length s).

(** [s[i]] for [i < s.size()]; reading past the terminator is undefined. *)
Definition char_at (s : str) (i : nat) : res ascii :=
  match s !! i with
  | Some c => Ret c
  | None => if (i =? length s)%nat then Ret Ascii.zero else UB $"string index"
  end.

(** [s.rfind(c)] and [s.find_last_of] of a one-character set; [None] is npos. *)
Fixpoint rfind (c : ascii) (s : str) : option nat :=
  match s with
  | [] => None
  | a :: s' =>
      match rfind c s' with
      | Some i => Some (S i)
      | None => if decide (a = c) then Some 0 else None
      end
  end.

(** [s.find_first_not_of(set) != npos]. *)
Definition has_char_not_of (allowed : str) (s : str) : bool :=
  existsb (fun c => negb (bool_decide (c ∈ allowed))) s.

Definition starts_with (c : ascii) (s : str) : bool :=
  match s with a :: _ => bool_decide (a = c) | [] => false end.

(** [std::ostream << integer]. *)
Definition show_Z (z : Z) : str := lit (pretty z).

Definition slash : ascii := "/"%char.

(** Line feed and tabulator. *)
Definition nl : str := [ascii_of_nat 10].
Definition tab : str := [ascii_of_nat 9].

(** ** Generic lemmas *)
Lemma char_at_mid u c v n : n = length u -> char_at (u ++ c :: v) n = Ret c.
Proof. intros ->. unfold char_at. by rewrite list_lookup_middle. Qed.

Lemma substr_ok s pos len :
  (pos <= length s)%nat -> substr s pos len = Ret (take len (drop pos s)).
Proof. intros H. unfold substr. apply Nat.leb_le in H. by rewrite H. Qed.

Lemma substr_from_ok s pos :
  (pos <= length s)%nat -> substr_from s pos = Ret (drop pos s).
Proof.
  intros H. unfold substr_from. rewrite substr_ok by done.
  by rewrite take_ge by (rewrite length_drop; lia).
Qed.

Lemma substr_mid u w v pos len :
  pos = length u -> len = length w -> substr (u ++ w ++ v) pos len = Ret w.
Proof.
  intros -> ->. rewrite substr_ok by (rewrite length_app; lia).
  by rewrite drop_app_length, take_app_length.
Qed.

Lemma substr_from_mid u v pos : pos = length u -> substr_from (u ++ v) pos = Ret v.
Proof.
  intros ->. rewrite substr_from_ok by (rewrite length_app; lia).
  by rewrite drop_app_length.
Qed.

Lemma rfind_Some c s i :
  rfind c s = Some i <-> s !! i = Some c /\ c ∉ drop (S i) s.
Proof.
  revert i. induction s as [|a s IH]; intros i; simpl; [naive_solver|].
  destruct (rfind c s) as [j|] eqn:E.
  - pose proof (proj1 (IH j) eq_refl) as [Hj Hnot].
    split.
    + intros [= <-]. done.
    + destruct i as [|i]; simpl.
      * rewrite drop_0. intros [_ Hn]. exfalso. apply Hn.
        by eapply list_elem_of_lookup_2.
      * intros H%IH. by simplify_eq.
  - assert (c ∉ s) as Hs.
    { intros [k Hk]%list_elem_of_lookup_1.
      clear -E Hk. revert k Hk E.
      induction s as [|b s IH]; intros k Hk E; [done|]. simpl in E.
      destruct (rfind c s); [done|]. case_decide; [done|].
      destruct k; simplify_eq/=. eauto. }
    case_decide as Hac; subst.
    + split; [intros [= <-]; simpl; by rewrite drop_0|].
      destruct i as [|i]; [done|]. simpl. intros [Hi _].
      exfalso. apply Hs. by eapply list_elem_of_lookup_2.
    + split; [done|]. destruct i as [|i]; simpl; intros [Hi _]; [congruence|].
      exfalso. apply Hs. by eapply list_elem_of_lookup_2.
Qed.

Lemma rfind_None c s : rfind c s = None <-> c ∉ s.
Proof.
  induction s as [|a s IH]; simpl; [set_solver|].
  rewrite not_elem_of_cons. destruct (rfind c s); [naive_solver|].
  case_decide; naive_solver.
Qed.

Lemma has_char_not_of_false allowed s :
  has_char_not_of allowed s = false <-> Forall (fun c => c ∈ allowed) s.
Proof.
  unfold has_char_not_of. induction s as [|a s IH]; simpl; [by split|].
  rewrite orb_false_iff, IH, Forall_cons, negb_false_iff.
  by rewrite bool_decide_eq_true.
Qed.

Lemma u64_small z : (0 <= z < 2 ^ 64)%Z -> u64 z = z.
Proof. apply Z.mod_small. Qed.

Lemma u32_small z : (0 <= z < 2 ^ 32)%Z -> u32 z = z.
Proof. apply Z.mod_small. Qed.

(** A sequence that returns: what its first part returned. *)
Lemma bind_inv {S A B} (m : M S A) (f : A -> M S B) s b s' :
  (m ≫= f) s = (Ret b, s') -> exists a s1, m s = (Ret a, s1) /\ f a s1 = (Ret b, s').
Proof.
  unfold mbind, M_bind. destruct (m s) as [[a|?|?|?] s1] eqn:E; try done. eauto.
Qed.

(** A sequence whose first part is known to return. *)
Lemma bind_ret {S A B} (m : M S A) (f : A -> M S B) s a s' :
  m s = (Ret a, s') -> (m ≫= f) s = f a s'.
Proof. intros H. unfold mbind, M_bind. by rewrite H. Qed.

Lemma bind_assoc {S A B C} (m : M S A) (f : A -> M S B) (g : B -> M S C) s :
  ((m ≫= f) ≫= g) s = (m ≫= (fun a => f a ≫= g)) s.
Proof. unfold mbind, M_bind. by destruct (m s) as [[?|?|?|?] ?]. Qed.

Lemma bind_lift {S A B} (a : A) (f : A -> M S B) s : (lift_res (Ret a) ≫= f) s = f a s.
Proof. reflexivity. Qed.

(** ** Invariants of stateful code

    [keeps I m]: when [m] returns normally from a state satisfying [I], the state
    it leaves satisfies [I]. *)
Definition keeps {S A} (I : S -> Prop) (m : M S A) : Prop :=
  forall s a s', I s -> m s = (Ret a, s') -> I s'.

Lemma keeps_ret {S A} (I : S -> Prop) (a : A) : keeps I (mret a : M S A).
Proof. intros s b s' Hs [= _ <-]. done. Qed.

Lemma keeps_bind {S A B} (I : S -> Prop) (m : M S A) (f : A -> M S B) :
  keeps I m -> (forall a, keeps I (f a)) -> keeps I (m ≫= f).
Proof.
  intros Hm Hf s b s' Hs. unfold mbind, M_bind.
  destruct (m s) as [[a|?|?|?] s1] eqn:E; try done. intros H.
  exact (Hf a s1 b s' (Hm s a s1 Hs E) H).
Qed.

Lemma keeps_get {S} (I : S -> Prop) : keeps I get.
Proof. intros s a s' Hs [= _ <-]. done. Qed.

Lemma keeps_lift {S A} (I : S -> Prop) (r : res A) : keeps I (lift_res r).
Proof. intros s a s' Hs [= _ <-]. done. Qed.

Lemma keeps_modify {S} (I : S -> Prop) (f : S -> S) :
  (forall s, I s -> I (f s)) -> keeps I (modify f).
Proof. intros H s a s' Hs [= _ <-]. auto. Qed.

Create HintDb lio.
#[export] Hint Resolve keeps_ret keeps_get keeps_lift : lio.
#[export] Hint Extern 1 (keeps _ (_ ≫= _)) => apply keeps_bind; [|intros ?] : lio.
#[export] Hint Extern 1 (keeps _ (ub _)) => apply keeps_lift : lio.
#[export] Hint Extern 1 (keeps _ (assert_that _ _)) => apply keeps_lift : lio.

Create Rewrite HintDb lio_len.
#[export] Hint Rewrite @length_app @length_take @length_drop @length_insert : lio_len.

(** Splits the state-passing of a monadic definition in the goal. *)
Ltac unfold_M :=
  unfold mbind, M_bind, mret, M_ret, get, put, modify, lift_res, ub, raise,
    assert_that, LIONET_ASSERT, res_bind, res_ret in *.

(** Arithmetic on lengths of appended lists. *)
Ltac len := repeat first [rewrite length_app | progress cbn [length app]]; lia.

(** Equations between lists up to the associativity of append. *)
Ltac apps := repeat first [rewrite <- app_assoc | progress cbn [app]]; reflexivity.
