(* ===== verification/Singleton.v ===== *)
(** * Singletons (singleton.h)

    [Singleton<T, X, N>::GetInstance] hides a static local variable: the object is
    constructed by the first call that gets through its constructor, and every call
    answers the same object.  C++ makes the first call's construction exclusive, so
    calls are atomic here.  A constructor that asks for the instance under construction is
    undefined behaviour, and not modelled: the constructor does not see the table. *)
From stdpp Require Import base gmap list.
From S2P Require Import Prelude.

(** The instantiations of the templates: the type, the tag [X] and the index [N]. *)
Record instance_key := mkKey { key_type : nat; key_tag : nat; key_index : nat }.

#[export] Instance instance_key_eq_dec : EqDecision instance_key.
Proof. solve_decision. Defined.
#[export] Instance instance_key_countable : Countable instance_key.
Proof.
  apply (inj_countable' (fun k => (key_type k, key_tag k, key_index k)) (fun '(t, x, n) => mkKey t x n)).
  by intros [].
Qed.

Section Singletons.
Context {W : Type}.

(** [Singleton]: the object lies in static memory of its own, so that a pointer to it
    is the instantiation itself; the state says which objects are constructed.  A
    constructor that throws leaves its object to the next call. *)
Definition GetInstance (ctor : instance_key -> M W unit) (k : instance_key)
    : M (gset instance_key * W) instance_key := fun '(made, w) =>
  if decide (k ∈ made) then (Ret k, (made, w))
  else
    match ctor k w with
    | (Ret _, w') => (Ret k, ({[k]} ∪ made, w'))
    | (Throw e, w') => (Throw e, (made, w'))
    | (Abort e, w') => (Abort e, (made, w'))
    | (UB e, w') => (UB e, (made, w'))
    end.

(** [SingletonPtr]: the static variable is a pointer to an object that [new] makes. *)
Definition GetInstance_ptr (new : instance_key -> M W nat) (k : instance_key)
    : M (gmap instance_key nat * W) nat := fun '(vars, w) =>
  match vars !! k with
  | Some p => (Ret p, (vars, w))
  | None =>
      match new k w with
      | (Ret p, w') => (Ret p, (<[k := p]> vars, w'))
      | (Throw e, w') => (Throw e, (vars, w'))
      | (Abort e, w') => (Abort e, (vars, w'))
      | (UB e, w') => (UB e, (vars, w'))
      end
  end.

(** Calls one after the other; a caller may catch what a constructor throws. *)
Fixpoint all_instances {S A} (get : instance_key -> M S A) (ks : list instance_key)
    : S -> list (res A) * S := fun s =>
  match ks with
  | [] => ([], s)
  | k :: ks' => let '(r, s1) := get k s in let '(rs, s2) := all_instances get ks' s1 in (r :: rs, s2)
  end.
End Singletons.

Section Singletons_spec.
Context {W : Type}.

(** A pointer, once given out, is the answer of every later call. *)
Lemma ptr_kept (new : instance_key -> M W nat) k0 p0 ks s :
  fst s !! k0 = Some p0 ->
  let '(rs, s') := all_instances (GetInstance_ptr new) ks s in
  fst s' !! k0 = Some p0 /\ forall j r, ks !! j = Some k0 -> rs !! j = Some r -> r = Ret p0.
Proof.
  revert s. induction ks as [|k ks IH]; intros [vars w] H0; [by split|]. cbn [all_instances fst] in *.
  destruct (GetInstance_ptr new k (vars, w)) as [r s1] eqn:Hg.
  assert (fst s1 !! k0 = Some p0 /\ (k = k0 -> r = Ret p0)) as [H1 Hr].
  { unfold GetInstance_ptr in Hg. destruct (vars !! k) as [p|] eqn:Hk.
    - injection Hg as <- <-. split; [done|]. intros ->. rewrite H0 in Hk. by injection Hk as ->.
    - assert (k <> k0) as Hne by (intros ->; by rewrite H0 in Hk).
      destruct (new k w) as [[p|?|?|?] w1]; injection Hg as <- <-; (split; [|done]); simpl; try done.
      by rewrite lookup_insert_ne. }
  specialize (IH s1 H1). destruct (all_instances (GetInstance_ptr new) ks s1) as [rs s2].
  split; [apply IH|]. intros [|j] r' Hj Hrs; simpl in *; [|by eapply IH].
  injection Hj as ->. injection Hrs as <-. by apply Hr.
Qed.

(** All calls of [SingletonPtr] for one instantiation that return answer the same
    pointer, whatever is called in between and whatever constructors throw. *)
Theorem one_instance (new : instance_key -> M W nat) ks w rs s i j k p q :
  all_instances (GetInstance_ptr new) ks (∅, w) = (rs, s) ->
  ks !! i = Some k -> ks !! j = Some k -> rs !! i = Some (Ret p) -> rs !! j = Some (Ret q) -> p = q.
Proof.
  generalize (∅ : gmap instance_key nat). intros vars. revert vars w rs i j.
  induction ks as [|k' ks IH]; intros vars w rs i j; [by rewrite lookup_nil|]. cbn [all_instances].
  destruct (GetInstance_ptr new k' (vars, w)) as [r [vars1 w1]] eqn:Hg.
  destruct (all_instances (GetInstance_ptr new) ks (vars1, w1)) as [rs' s'] eqn:Hrest. intros [= <- <-].
  assert (forall a, r = Ret a -> vars1 !! k' = Some a) as Hkept.
  { unfold GetInstance_ptr in Hg. intros a ->. destruct (vars !! k') eqn:Hk; [by injection Hg as -> <- _|].
    destruct (new k' w) as [[b|?|?|?] w2]; [|done..]. injection Hg as -> <- _. apply lookup_insert_eq. }
  assert (forall a n b, k' = k -> r = Ret a -> ks !! n = Some k -> rs' !! n = Some (Ret b) -> b = a) as Hsame.
  { intros a n b -> Hr Hn Hb. pose proof (ptr_kept new k a ks (vars1, w1) (Hkept a Hr)) as Hp.
    rewrite Hrest in Hp. destruct Hp as [_ Hp]. specialize (Hp n _ Hn Hb). by injection Hp. }
  destruct i as [|i], j as [|j]; simpl; intros Hi Hj Hri Hrj.
  - by simplify_eq/=.
  - injection Hi as Hk. injection Hri as Hr. symmetry. by apply (Hsame p j q).
  - injection Hj as Hk. injection Hrj as Hr. by apply (Hsame q i p).
  - exact (IH vars1 w1 rs' i j Hrest Hi Hj Hri Hrj).
Qed.

(** An object of [Singleton] is constructed at most once: after a call that returned,
    no call for the same instantiation touches the rest of the program. *)
Theorem constructed_once (ctor : instance_key -> M W unit) k made w made' w' :
  GetInstance ctor k (made, w) = (Ret k, (made', w')) ->
  forall ks rs made2 w2, all_instances (GetInstance ctor) ks (made', w') = (rs, (made2, w2)) ->
  GetInstance ctor k (made2, w2) = (Ret k, (made2, w2)).
Proof.
  intros Hg. assert (k ∈ made') as Hk.
  { unfold GetInstance in Hg. destruct (decide (k ∈ made)); [by injection Hg as <- _|].
    destruct (ctor k w) as [[[]|?|?|?] w1]; try done. injection Hg as <- _. set_solver. }
  clear Hg. intros ks. revert made' w' Hk. induction ks as [|k' ks IH]; intros made' w' Hk rs made2 w2; cbn [all_instances].
  - intros [= _ <- <-]. unfold GetInstance. by rewrite decide_True.
  - destruct (GetInstance ctor k' (made', w')) as [r [made1 w1]] eqn:Hg.
    destruct (all_instances (GetInstance ctor) ks (made1, w1)) as [rs1 s2] eqn:Hrest.
    intros [= _ ->]. apply (IH made1 w1) with (rs := rs1); [|exact Hrest].
    unfold GetInstance in Hg. destruct (decide (k' ∈ made')); [by injection Hg as _ <- _|].
    destruct (ctor k' w') as [[[]|?|?|?] w3]; injection Hg as _ <- _; set_solver.
Qed.
End Singletons_spec.
