(* ===== verification/Util.v ===== *)
(** * File system and time helpers (util.h, util.cc)

    [FSUtil] is written on top of POSIX calls.  The operating system is the
    interface [Posix]: a type of file system states with one operation per call
    the code makes; [PosixLaws] states what the code relies on.  A small concrete
    file system ([toy]) shows that the laws can hold and serves the witnesses. *)
From stdpp Require Import base gmap list strings.
From Stdlib Require Import Ascii.
From S2P Require Import Prelude.

(** ** The operating system *)

(** [d_type] of a directory entry: DT_DIR, DT_REG, or anything else. *)
Inductive dtype : Type := DT_DIR | DT_REG | DT_OTHER.

(** Each operation answers whether the call succeeded (returned 0, or a stream that
    is open) and the state after it. *)
Class Posix (D : Type) := {
  (* [lstat]: the mode and the modification time *)
  os_lstat : D -> str -> option (Z * Z);
  (* [access(path, F_OK) == 0] *)
  os_access : D -> str -> bool;
  os_mkdir : str -> D -> bool * D;
  os_unlink : str -> D -> bool * D;
  os_rmdir : str -> D -> bool * D;
  os_rename : str -> str -> D -> bool * D;
  os_symlink : str -> str -> D -> bool * D;
  os_realpath : D -> str -> option str;
  (* [opendir] and the entries [readdir] returns until it returns null *)
  os_readdir : D -> str -> option (list (str * dtype));
  (* [ifstream(path)] and the first line of it *)
  os_getline : D -> str -> option str;
  (* [kill(pid, 0) == 0] *)
  os_kill0 : D -> Z -> bool;
  (* whether [ifstream::open(path)] succeeds *)
  os_open_read : D -> str -> bool;
  (* [ofstream::open(path, app)], creating the file *)
  os_open_app : str -> D -> bool * D
}.

(** What documentation promises of the calls that make directories and open files. *)
Class PosixLaws (D : Type) `{Posix D} := {
  access_lstat : forall d p, os_access d p = true -> is_Some (os_lstat d p);
  mkdir_makes : forall d p d', os_mkdir p d = (true, d') -> os_access d' p = true;
  mkdir_keeps : forall d p b d' q,
    os_mkdir p d = (b, d') -> os_access d q = true -> os_access d' q = true;
  mkdir_fails : forall d p d', os_mkdir p d = (false, d') -> d' = d
}.

Section FSUtil.
Context {D : Type} `{Posix D}.

(** A call that answers success or failure. *)
Definition sys (f : D -> bool * D) : M D bool := fun d => let '(b, d') := f d in (Ret b, d').

(** ** Creating directories *)

(** [__lstat(path) == 0] and [__mkdir(path) == 0]. *)
Definition __lstat (p : str) : M D bool := d ← get; mret (bool_decide (is_Some (os_lstat d p))).
Definition __mkdir (p : str) : M D bool := fun d =>
  if os_access d p then (Ret true, d) else sys (os_mkdir p) d.

(** A C string ends at its first NUL. *)
Fixpoint c_str (s : str) : str :=
  match s with
  | [] => []
  | c :: s' => if decide (c = Ascii.zero) then [] else c :: c_str s'
  end.

(** [strchr(s + i, '/')] as an index into the buffer. *)
Fixpoint strchr_from (s : str) (i : nat) : option nat :=
  match s, i with
  | [], _ => None
  | c :: s', O => if decide (c = slash) then Some 0
                  else if decide (c = Ascii.zero) then None else S <$> strchr_from s' 0
  | _ :: s', S i' => S <$> strchr_from s' i'
  end.

(** The inner [for]: the buffer [path] is cut at each slash, the directory is made,
    the slash is put back.  True when the loop ends with [ptr] null, false when
    [__mkdir] failed. *)
Fixpoint mkdir_loop (fuel : nat) (path : str) (ptr : option nat) : M D bool :=
  match ptr with
  | None => mret true
  | Some i =>
      match fuel with
      | O => ub $"out of fuel"
      | S fuel' =>
          let cut := <[i := Ascii.zero]> path in
          ok ← __mkdir (c_str cut);
          if (ok : bool) then
            let path' := <[i := slash]> cut in
            mkdir_loop fuel' path' (strchr_from path' (S i))
          else mret false
      end
  end.

Definition Mkdir (dirname : str) : M D bool :=
  b ← __lstat (c_str dirname);
  if (b : bool) then mret true
  else
    let path := c_str dirname in
    match path with
    | [] => ub $"strchr past the end of the buffer"
    | _ =>
        ok ← mkdir_loop (length path) path (strchr_from path 1);
        if (ok : bool) then __mkdir path else mret false
    end.

(** ** Paths *)
Definition Dirname (filename : str) : res str :=
  match filename with
  | [] => Ret $"."
  | _ =>
      match rfind slash filename with
      | Some 0 => Ret $"/"
      | None => Ret $"."
      | Some pos => substr filename 0 pos
      end
  end.

Definition Basename (filename : str) : res str :=
  match filename with
  | [] => Ret filename
  | _ =>
      match rfind slash filename with
      | None => Ret filename
      | Some pos => substr_from filename (pos + 1)
      end
  end.

(** ** Opening for writing *)

(** The state of a [std::ofstream] or [std::ifstream]: the file it is open on, and whether an operation
    has failed ([!stream]). *)
Record ofstream := mkOfstream { os_file : option str; os_fail : bool }.

Definition is_open (ofs : ofstream) : bool := bool_decide (is_Some (os_file ofs)).

(** [ofs.open(filename, app)]: fails on a stream that is open; otherwise the failure
    state is what the call ends in. *)
Definition stream_open (filename : str) : M (ofstream * D) unit := fun '(ofs, d) =>
  match os_file ofs with
  | Some _ => (Ret tt, (mkOfstream (os_file ofs) true, d))
  | None =>
      let '(b, d') := os_open_app (c_str filename) d in
      (Ret tt, (if b then mkOfstream (Some filename) false else mkOfstream None true, d'))
  end.

(** [ofs.close()]: fails on a stream that is not open. *)
Definition stream_close : M (ofstream * D) unit := fun '(ofs, d) =>
  (Ret tt, (match os_file ofs with
            | Some _ => mkOfstream None (os_fail ofs)
            | None => mkOfstream None true
            end, d)).

(** A file system operation next to a stream. *)
Definition on_disk {A} (m : M D A) : M (ofstream * D) A := fun '(ofs, d) =>
  let '(r, d') := m d in (r, (ofs, d')).

Definition OpenForWrite (filename : str) : M (ofstream * D) bool :=
  stream_open filename;;
  w ← get;
  if is_open (fst w) then mret true
  else
    dir ← lift_res (Dirname filename);
    on_disk (Mkdir dir);;
    stream_open filename;;
    w ← get;
    mret (is_open (fst w)).

(** [OpenForRead] on an input stream: opening an open stream fails. *)
Definition OpenForRead (filename : str) : M (ofstream * D) bool := fun '(ifs, d) =>
  let ifs' := match os_file ifs with
              | Some _ => mkOfstream (os_file ifs) true
              | None => if os_open_read d (c_str filename) then mkOfstream (Some filename) false
                        else mkOfstream None true
              end in
  (Ret (is_open ifs'), (ifs', d)).

(** ** Removing *)
Definition Unlink (filename : str) (exist : bool) : M D bool :=
  here ← __lstat (c_str filename);
  if negb exist && negb here then mret true
  else sys (os_unlink (c_str filename)).

(** [S_IFDIR] of sys/stat.h. *)
Definition S_IFDIR : Z := 16384.

Definition is_dot (name : str) : bool := bool_decide (name = $".") || bool_decide (name = $"..").

(** [Rm]; [fuel] bounds the depth of the recursion. *)
Fixpoint Rm (fuel : nat) (path : str) : M D bool :=
  d ← get;
  match os_lstat d (c_str path) with
  | None => mret true
  | Some (st_mode, _) =>
      if Z.eqb (Z.land st_mode S_IFDIR) 0 then Unlink path false
      else
        match os_readdir d (c_str path) with
        | None => mret false
        | Some entries =>
            match fuel with
            | O => ub $"out of fuel"
            | S fuel' =>
                ret ← (fix each (es : list (str * dtype)) (ret : bool) : M D bool :=
                         match es with
                         | [] => mret ret
                         | (name, _) :: es' =>
                             if is_dot name then each es' ret
                             else
                               ret' ← Rm fuel' (path ++ [slash] ++ name);
                               each es' ret'
                         end) entries true;
                b ← sys (os_rmdir (c_str path));
                mret (if (b : bool) then ret else false)
            end
        end
  end.

Definition Mv (fuel : nat) (from to : str) : M D bool :=
  ok ← Rm fuel to;
  if (ok : bool) then sys (os_rename (c_str from) (c_str to)) else mret false.

Definition Symlink (fuel : nat) (from to : str) : M D bool :=
  ok ← Rm fuel to;
  if (ok : bool) then sys (os_symlink (c_str from) (c_str to)) else mret false.

Definition Realpath (path rpath : str) : M D (bool * str) :=
  b ← __lstat (c_str path);
  d ← get;
  mret (if (b : bool) then
          match os_realpath d (c_str path) with
          | None => (false, rpath)
          | Some ptr => (true, ptr)
          end
        else (false, rpath)).

(** ** Listing *)

(** [filename] ends with [subfix]; [substr] is only reached when it is long enough. *)
Definition has_subfix (filename subfix : str) : res bool :=
  match subfix with
  | [] => Ret true
  | _ =>
      if (length filename <? length subfix)%nat then Ret false
      else
        tail ← substr_from filename (length filename - length subfix);
        Ret (bool_decide (tail = subfix))
  end.

(** [ListAllFile]: appends to [files]; [fuel] bounds the depth of the recursion. *)
Fixpoint ListAllFile (fuel : nat) (d : D) (files : list str) (path subfix : str) : res (list str) :=
  if negb (os_access d (c_str path)) then Ret files
  else
    match os_readdir d (c_str path) with
    | None => Ret files
    | Some entries =>
        match fuel with
        | O => UB $"out of fuel"
        | S fuel' =>
            (fix each (es : list (str * dtype)) (files : list str) : res (list str) :=
               match es with
               | [] => Ret files
               | (name, t) :: es' =>
                   match t with
                   | DT_DIR =>
                       if is_dot name then each es' files
                       else
                         files' ← ListAllFile fuel' d files (path ++ [slash] ++ name) subfix;
                         each es' files'
                   | DT_REG =>
                       b ← has_subfix name subfix;
                       each es' (if (b : bool) then files ++ [path ++ [slash] ++ name] else files)
                   | DT_OTHER => each es' files
                   end
               end) entries files
        end
    end.

(** ** Pid files *)

(** [atoi] of the C library: the digits at the start of the line. *)
Definition IsRunningPidfile (atoi : str -> Z) (pidfile : str) : M D bool :=
  b ← __lstat (c_str pidfile);
  d ← get;
  mret (if (b : bool) then
          match os_getline d (c_str pidfile) with
          | None => false
          | Some line =>
              match line with
              | [] => false
              | _ => let pid := atoi line in if Z.leb pid 1 then false else os_kill0 d pid
              end
          end
        else false).
End FSUtil.

(** ** Time *)

(** [gettimeofday] delivers seconds and microseconds; the sums are [uint64_t]. *)
Definition GetCurrentMS (tv_sec tv_usec : Z) : Z := u64 (tv_sec * 1000 + tv_usec / 1000).
Definition GetCurrentUS (tv_sec tv_usec : Z) : Z := u64 (tv_sec * 1000 * 1000 + tv_usec).

(** ** Back traces *)

(** [BacktraceToString] over the lines [Backtrace] delivers. *)
Definition BacktraceToString (bt : list str) (prefix : str) : str :=
  concat (map (fun l => prefix ++ l ++ nl) bt).

(** The longest prefix of characters satisfying [p], at most [n], and the rest; a
    conversion of [sscanf] fails when the prefix is empty. *)
Fixpoint span_n (n : nat) (p : ascii -> bool) (s : str) : str * str :=
  match n, s with
  | S n', c :: s' => if p c then let '(a, b) := span_n n' p s' in (c :: a, b) else ([], s)
  | _, _ => ([], s)
  end.
Definition convert (n : nat) (p : ascii -> bool) (s : str) : option (str * str) :=
  match span_n n p s with ([], _) => None | r => Some r end.

Definition none_of (cs : str) (c : ascii) : bool := bool_decide (c ∉ cs).

(** [sscanf(str, "%*[^(]%*[^_]%255[^)+]", ...)]: what it stores when it answers 1. *)
Definition sscanf_symbol (s : str) : option str :=
  '(_, s1) ← convert (length s) (none_of $"(") s;
  '(_, s2) ← convert (length s1) (none_of $"_") s1;
  '(m, _) ← convert 255 (none_of $")+") s2;
  Some m.

(** [isspace] in the "C" locale. *)
Definition isspace (c : ascii) : bool :=
  let n := Ascii.nat_of_ascii c in (n =? 32)%nat || ((9 <=? n)%nat && (n <=? 13)%nat).

(** [sscanf(str, "%255s", ...)]. *)
Definition sscanf_word (s : str) : option str :=
  fst <$> convert 255 (fun c => negb (isspace c)) (snd (span_n (length s) isspace s)).

(** A C string stored at the start of a buffer. *)
Definition store (s buf : str) : str := s ++ Ascii.zero :: drop (S (length s)) buf.

(** [demangle]; [cxa_demangle] answers null for what is not a mangled name.  What is
    returned as [rt] is all 256 characters of it. *)
Definition demangle (cxa_demangle : str -> option str) (s : str) : str :=
  let rt := replicate 256 Ascii.zero in
  let word rt := match sscanf_word s with Some w => store w rt | None => s end in
  match sscanf_symbol s with
  | Some m =>
      let rt := store m rt in
      match cxa_demangle (c_str rt) with Some v => v | None => word rt end
  | None => word rt
  end.

(** [Backtrace]: the symbols from [skip] on, each demangled; nothing when
    [backtrace_symbols] failed.  The comparison [i < s] is in [size_t]. *)
Definition Backtrace (cxa_demangle : str -> option str) (strings : option (list str)) (skip : Z)
    : list str :=
  match strings with
  | None => []
  | Some ss => map (demangle cxa_demangle) (drop (Z.to_nat (u64 skip)) ss)
  end.

(** [TypeToName<T>]: what [cxa_demangle] makes of [typeid(T).name()], kept in a static
    variable; null when it is no mangled name. *)
Definition TypeToName (cxa_demangle : str -> option str) (typeid_name : str) : option str :=
  cxa_demangle (c_str typeid_name).

(** [GetThreadId]: the kernel's id of the thread, cut to a [pid_t]. *)
Definition GetThreadId (sys_gettid : Z) : Z := i32 sys_gettid.

(** ** Lemmas on C strings *)

Definition nul_free (s : str) : Prop := Ascii.zero ∉ s.

Lemma c_str_id s : nul_free s -> c_str s = s.
Proof.
  unfold nul_free. induction s as [|c s IH]; simpl; [done|].
  rewrite not_elem_of_cons. intros [Hc Hs]. rewrite decide_False by congruence. by rewrite IH.
Qed.

Lemma c_str_nul_free s : nul_free (c_str s).
Proof.
  unfold nul_free. induction s as [|c s IH]; simpl; [apply not_elem_of_nil|].
  case_decide; [apply not_elem_of_nil|]. by rewrite not_elem_of_cons.
Qed.

Lemma nul_free_app s t : nul_free (s ++ t) <-> nul_free s /\ nul_free t.
Proof. unfold nul_free. rewrite elem_of_app. tauto. Qed.

Lemma span_n_app n p s : fst (span_n n p s) ++ snd (span_n n p s) = s.
Proof.
  revert s. induction n as [|n IH]; intros [|c s]; simpl; try done.
  destruct (p c); [|done]. specialize (IH s). destruct (span_n n p s); simpl in *. by rewrite IH.
Qed.

Lemma span_n_length n p s : (length (fst (span_n n p s)) <= n)%nat.
Proof.
  revert s. induction n as [|n IH]; intros [|c s]; simpl; try lia.
  destruct (p c); simpl; [|lia]. specialize (IH s). destruct (span_n n p s); simpl in *. lia.
Qed.

(** What a conversion matches is a piece of the text and fits. *)
Lemma convert_piece n p s a b : convert n p s = Some (a, b) -> s = a ++ b /\ (length a <= n)%nat.
Proof.
  unfold convert. pose proof (span_n_app n p s) as H1. pose proof (span_n_length n p s) as H2.
  destruct (span_n n p s) as [[|c a'] b']; [done|]. intros [= <- <-]. by split.
Qed.

Lemma sscanf_word_piece s w : nul_free s -> sscanf_word s = Some w -> nul_free w /\ (length w <= 255)%nat.
Proof.
  intros Hs. unfold sscanf_word. destruct (convert _ _ _) as [[a b]|] eqn:E; [|done].
  intros [= <-]. apply convert_piece in E as [E Hlen]. split; [|exact Hlen].
  rewrite <- (span_n_app (length s) isspace s), E in Hs.
  by apply nul_free_app in Hs as [_ [Hs _]%nul_free_app].
Qed.

Lemma sscanf_symbol_length s m : sscanf_symbol s = Some m -> (length m <= 255)%nat.
Proof.
  unfold sscanf_symbol. destruct (convert _ _ s) as [[a s1]|]; [|done]. simpl.
  destruct (convert _ _ s1) as [[b s2]|]; [|done]. simpl.
  destruct (convert _ _ s2) as [[c s3]|] eqn:E; [|done]. intros [= <-].
  by apply convert_piece in E as [_ ?].
Qed.

Lemma c_str_store w buf : nul_free w -> c_str (store w buf) = w.
Proof.
  unfold nul_free, store. generalize (drop (S (length w)) buf). intros t. induction w as [|c w IH]; simpl; [done|].
  rewrite not_elem_of_cons. intros [Hc Hw]. rewrite decide_False by congruence. by rewrite IH.
Qed.

Lemma store_length w buf : (length w < length buf)%nat -> length (store w buf) = length buf.
Proof. intros H. unfold store. rewrite length_app. simpl. rewrite length_drop. lia. Qed.

(** A symbol without a C++ name is returned as the whole buffer: its first word, and
    zero bytes or what the first attempt left there up to 256 characters. *)
Lemma demangle_padded cxa_demangle s w :
  nul_free s -> sscanf_word s = Some w ->
  (forall m, sscanf_symbol s = Some m -> cxa_demangle (c_str (store m (replicate 256 Ascii.zero))) = None) ->
  length (demangle cxa_demangle s) = 256%nat /\ c_str (demangle cxa_demangle s) = w.
Proof.
  intros Hs Hw Hm. destruct (sscanf_word_piece s w Hs Hw) as [Hfree Hlen]. unfold demangle. rewrite Hw.
  destruct (sscanf_symbol s) as [m|] eqn:E.
  - apply sscanf_symbol_length in E. rewrite (Hm m eq_refl).
    assert (length (store m (replicate 256 Ascii.zero)) = 256%nat) as H256
      by (rewrite store_length; rewrite length_replicate; lia).
    rewrite c_str_store, store_length; [done|lia|done].
  - rewrite c_str_store, store_length; rewrite ?length_replicate; [done|lia|done].
Qed.

Lemma c_str_cut s i :
  nul_free s -> (i < length s)%nat -> c_str (<[i := Ascii.zero]> s) = take i s.
Proof.
  unfold nul_free. revert i. induction s as [|c s IH]; intros i; simpl; [lia|].
  rewrite not_elem_of_cons. intros [Hc Hs] Hi. destruct i as [|i]; simpl.
  - done.
  - rewrite decide_False by congruence. rewrite IH; [done|done|lia].
Qed.

Lemma strchr_from_spec s i : nul_free s ->
  match strchr_from s i with
  | Some j => (i <= j)%nat /\ s !! j = Some slash /\
      forall k, (i <= k < j)%nat -> s !! k <> Some slash
  | None => forall k, (i <= k)%nat -> s !! k <> Some slash
  end.
Proof.
  unfold nul_free. revert i. induction s as [|c s IH]; intros i; simpl; [done|].
  rewrite not_elem_of_cons. intros [Hc Hs]. destruct i as [|i].
  - case_decide as Hsl; [subst; split; [lia|split; [done|lia]]|].
    rewrite decide_False by congruence.
    specialize (IH 0 Hs). destruct (strchr_from s 0) as [j|]; simpl.
    + destruct IH as (_ & Hj & Hk). split; [lia|]. split; [done|].
      intros [|k] Hk'; simpl; [congruence|]. apply Hk. lia.
    + intros [|k] _; simpl; [congruence|]. apply IH. lia.
  - specialize (IH i Hs). destruct (strchr_from s i) as [j|]; simpl.
    + destruct IH as (Hij & Hj & Hk). split; [lia|]. split; [done|].
      intros [|k] Hk'; simpl; [lia|]. apply Hk. lia.
    + intros [|k] Hk'; simpl; [lia|]. apply IH. lia.
Qed.

(** The positions of the slashes from [i] on. *)
Definition slashes (s : str) (i : nat) : list nat :=
  filter (fun j => s !! j = Some slash) (seq i (length s - i)).

Lemma slashes_step s i : nul_free s ->
  slashes s i = match strchr_from s i with
                | Some j => j :: slashes s (S j)
                | None => []
                end.
Proof.
  intros Hz. pose proof (strchr_from_spec s i Hz) as H. unfold slashes.
  assert (forall a n, (forall k, (a <= k < a + n)%nat -> s !! k <> Some slash) ->
    filter (fun j => s !! j = Some slash) (seq a n) = []) as Hnone.
  { intros a n. revert a. induction n as [|n IH]; intros a Hk; simpl; [done|].
    rewrite filter_cons_False by (apply Hk; lia). apply IH. intros k ?. apply Hk. lia. }
  destruct (strchr_from s i) as [j|].
  - destruct H as (Hij & Hj & Hk). pose proof (lookup_lt_Some _ _ _ Hj).
    replace (length s - i) with ((j - i) + S (length s - S j)) by lia.
    rewrite seq_app, filter_app, Hnone by (intros k ?; apply Hk; lia). simpl.
    replace (i + (j - i)) with j by lia. by rewrite filter_cons_True.
  - apply Hnone. intros k ?. apply H. lia.
Qed.

(** ** What [Mkdir] does *)
Section Mkdir_spec.
Context {D : Type} `{Posix D}.

(** Making directories one after the other, up to the first failure. *)
Fixpoint mkdirs (ps : list str) : M D bool :=
  match ps with
  | [] => mret true
  | p :: ps' => ok ← __mkdir p; if (ok : bool) then mkdirs ps' else mret false
  end.

Lemma mkdir_loop_mkdirs fuel s i :
  nul_free s -> (length s - i <= fuel)%nat ->
  forall d, mkdir_loop fuel s (strchr_from s i) d = mkdirs ((fun j => take j s) <$> slashes s i) d.
Proof.
  intros Hz. revert i. induction fuel as [|fuel IH]; intros i Hf d;
    rewrite slashes_step by done;
    pose proof (strchr_from_spec s i Hz) as Hj; destruct (strchr_from s i) as [j|]; simpl; try done.
  - destruct Hj as (Hij & Hj & _). apply lookup_lt_Some in Hj. lia.
  - destruct Hj as (Hij & Hj & _). pose proof (lookup_lt_Some _ _ _ Hj) as Hlt.
    rewrite c_str_cut by done.
    rewrite list_insert_insert_eq, list_insert_id by done.
    unfold mbind, M_bind. destruct (__mkdir (take j s) d) as [[ok|?|?|?] d1]; try done.
    destruct ok; [|done]. apply IH. lia.
Qed.

(** Every directory on the way to [s], and [s]. *)
Definition directories (s : str) : list str := ((fun j => take j s) <$> slashes s 1) ++ [s].

Lemma mkdirs_app ps p d :
  mkdirs (ps ++ [p]) d = (ok ← mkdirs ps; if (ok : bool) then __mkdir p else mret false) d.
Proof.
  revert d. induction ps as [|q ps IH]; intros d; simpl.
  - unfold mbind, M_bind. simpl. destruct (__mkdir p d) as [[ok|?|?|?] d1]; [|done..]. by destruct ok.
  - unfold mbind, M_bind in *. destruct (__mkdir q d) as [[ok|?|?|?] d1]; [|done..].
    destruct ok; [apply IH|done].
Qed.

Lemma Mkdir_mkdirs s d :
  nul_free s -> s <> [] -> os_lstat d s = None ->
  Mkdir s d = mkdirs (directories s) d.
Proof.
  intros Hz Hne Hl. unfold Mkdir. rewrite (c_str_id s Hz). unfold directories.
  rewrite mkdirs_app. unfold __lstat. unfold mbind at 1, M_bind at 1. unfold_M. simpl.
  rewrite Hl. simpl. destruct s as [|c s]; [done|].
  by rewrite mkdir_loop_mkdirs by (done || simpl; lia).
Qed.

Lemma mkdirs_ret ps d : exists b d', mkdirs ps d = (Ret b, d').
Proof.
  revert d. induction ps as [|p ps IH]; intros d; simpl; [by eexists _, _|].
  unfold mbind, M_bind. unfold __mkdir, sys. destruct (os_access d p); [apply IH|].
  destruct (os_mkdir p d) as [[] d1]; [apply IH|by eexists _, _].
Qed.

Lemma Dirname_ret s : nul_free s -> exists dir, Dirname s = Ret dir /\ nul_free dir /\ dir <> [].
Proof.
  unfold nul_free. intros Hz. unfold Dirname. destruct s as [|c s'] eqn:Hs.
  { exists $".". by repeat split; vm_compute; set_solver. }
  rewrite <- Hs in *. destruct (rfind slash s) as [[|pos]|] eqn:Hr.
  - exists $"/". by repeat split; vm_compute; set_solver.
  - apply rfind_Some in Hr as [Hpos _]. apply lookup_lt_Some in Hpos.
    rewrite substr_ok, drop_0 by lia. eexists. split; [done|]. split; [|by subst].
    intros Hin. apply Hz. rewrite <- (take_drop (S pos) s). apply elem_of_app. by left.
  - exists $".". by repeat split; vm_compute; set_solver.
Qed.

(** What a relation kept by every [mkdir] and every opening says of [Mkdir] and
    [OpenForWrite]. *)
Section preserved.
Context (R : relation D) `{!PreOrder R}.
Hypothesis mkdir_R : forall p d b d', os_mkdir p d = (b, d') -> R d d'.
Hypothesis open_R : forall p d b d', os_open_app p d = (b, d') -> R d d'.

Lemma mkdirs_preserve ps d b d' : mkdirs ps d = (Ret b, d') -> R d d'.
Proof using All.
  revert d. induction ps as [|p ps IH]; intros d; simpl.
  - by intros [= _ <-].
  - unfold mbind, M_bind, __mkdir, sys. destruct (os_access d p); [apply IH|].
    destruct (os_mkdir p d) as [[] d1] eqn:E.
    + intros Hm. transitivity d1; [by eapply mkdir_R|by apply IH].
    + intros [= _ <-]. by eapply mkdir_R.
Qed.

Lemma Mkdir_preserves s d :
  nul_free s -> s <> [] -> exists b d', Mkdir s d = (Ret b, d') /\ R d d'.
Proof using All.
  intros Hz Hne. destruct (os_lstat d s) as [st|] eqn:Hl.
  - exists true, d. split; [|done]. unfold Mkdir, __lstat. rewrite (c_str_id s Hz). unfold_M. simpl.
    by rewrite Hl.
  - rewrite Mkdir_mkdirs by done. destruct (mkdirs_ret (directories s) d) as (b & d' & Hm).
    exists b, d'. split; [done|]. by eapply mkdirs_preserve.
Qed.

(** How [OpenForWrite] leaves the stream: an open stream stays open on its file and
    fails; otherwise it is open on the named file and good, or closed and failed. *)
Lemma OpenForWrite_stream filename ofs d :
  nul_free filename ->
  exists b ofs' d', OpenForWrite filename (ofs, d) = (Ret b, (ofs', d')) /\ R d d' /\
    match os_file ofs with
    | Some _ => b = true /\ ofs' = mkOfstream (os_file ofs) true
    | None => if b then ofs' = mkOfstream (Some filename) false
              else ofs' = mkOfstream None true /\ exists d1, os_open_app filename d1 = (false, d')
    end.
Proof using All.
  intros Hz. unfold OpenForWrite, stream_open. destruct ofs as [[fn|] fl]; unfold_M; simpl.
  { exists true, (mkOfstream (Some fn) true), d. by repeat split. }
  rewrite (c_str_id filename Hz). destruct (os_open_app filename d) as [[] d1] eqn:E1; simpl.
  { exists true, (mkOfstream (Some filename) false), d1. repeat split. by eapply open_R. }
  destruct (Dirname_ret filename Hz) as (dir & -> & Hdz & Hdn).
  destruct (Mkdir_preserves dir d1 Hdz Hdn) as (bm & d2 & Hm & HR). unfold on_disk. rewrite Hm. simpl.
  destruct (os_open_app filename d2) as [b d3] eqn:E3; simpl.
  exists b, (if b then mkOfstream (Some filename) false else mkOfstream None true), d3.
  split; [by destruct b|]. split; [|destruct b; [done|by split; [|exists d2]]].
  transitivity d1; [by eapply open_R|]. transitivity d2; [done|by eapply open_R].
Qed.
End preserved.


Context `{!PosixLaws D}.

Lemma mkdir_one p d b d' :
  __mkdir p d = (Ret b, d') ->
  (forall q, os_access d q = true -> os_access d' q = true) /\
  (if b then os_access d' p = true else os_mkdir p d = (false, d) /\ d' = d).
Proof using All.
  unfold __mkdir, sys. destruct (os_access d p) eqn:Ha.
  - intros [= <- <-]. by split.
  - destruct (os_mkdir p d) as [b' d1] eqn:Hm. intros [= <- <-].
    split; [intros q; by eapply mkdir_keeps|]. destruct b'; [by eapply mkdir_makes|].
    by rewrite (mkdir_fails _ _ _ Hm).
Qed.

Lemma mkdirs_makes ps d b d' :
  mkdirs ps d = (Ret b, d') ->
  (forall q, os_access d q = true -> os_access d' q = true) /\
  (if b then forall p, p ∈ ps -> os_access d' p = true
   else exists p, p ∈ ps /\ os_mkdir p d' = (false, d')).
Proof using All.
  revert d. induction ps as [|p ps IH]; intros d; simpl.
  - intros [= <- <-]. split; [done|]. intros p Hp. by apply not_elem_of_nil in Hp.
  - unfold mbind, M_bind. destruct (__mkdir p d) as [[ok|?|?|?] d1] eqn:E; try done.
    destruct (mkdir_one _ _ _ _ E) as [Hk Hp]. destruct ok.
    + intros Hm. destruct (IH d1 Hm) as [Hk' Hb]. split; [auto|]. destruct b.
      * intros q [->|Hq]%elem_of_cons; auto.
      * destruct Hb as (q & Hq & Hf). exists q. split; [by right|done].
    + intros [= <- <-]. destruct Hp as [Hf ->]. split; [done|]. exists p. split; [left|done].
Qed.
End Mkdir_spec.

(** ** Listing *)
Section listing.
Context {D : Type} `{Posix D}.
Context (d : D) (subfix : str).

Definition join_path (path name : str) : str := path ++ [slash] ++ name.

(** [f] is a regular file below [path] whose name ends with [subfix]. *)
Inductive listed : str -> str -> Prop :=
| listed_here path es name :
    os_access d (c_str path) = true -> os_readdir d (c_str path) = Some es -> (name, DT_REG) ∈ es ->
    (exists stem, name = stem ++ subfix) -> listed path (join_path path name)
| listed_below path es name f :
    os_access d (c_str path) = true -> os_readdir d (c_str path) = Some es -> (name, DT_DIR) ∈ es ->
    is_dot name = false -> listed (join_path path name) f -> listed path f.

(** The directories below [path] nest at most [n] deep. *)
Fixpoint shallow (n : nat) (path : str) : Prop :=
  os_access d (c_str path) = false \/ os_readdir d (c_str path) = None \/
  match n with
  | O => False
  | S n' => forall es name, os_readdir d (c_str path) = Some es -> (name, DT_DIR) ∈ es ->
      is_dot name = false -> shallow n' (join_path path name)
  end.

Lemma has_subfix_spec name :
  exists b, has_subfix name subfix = Ret b /\ (b = true <-> exists stem, name = stem ++ subfix).
Proof.
  unfold has_subfix. destruct subfix as [|c sf] eqn:Hsf.
  { exists true. split; [done|]. split; [intros _|done]. exists name. by rewrite app_nil_r. }
  rewrite <- Hsf. destruct (length name <? length subfix)%nat eqn:Hl.
  - exists false. split; [done|]. split; [done|]. intros [stem ->].
    apply Nat.ltb_lt in Hl. rewrite length_app in Hl. lia.
  - apply Nat.ltb_ge in Hl. rewrite substr_from_ok by lia. unfold_M.
    eexists. split; [done|]. rewrite bool_decide_eq_true. split.
    + intros Ht. exists (take (length name - length subfix) name).
      rewrite <- Ht at 2. by rewrite take_drop.
    + intros [stem ->]. rewrite length_app. replace (length stem + length subfix - length subfix)
        with (length stem) by lia. apply drop_app_length.
Qed.

(** What one entry of [path] contributes, and what a list of entries does. *)
Definition entry_lists (path : str) (e : str * dtype) (f : str) : Prop :=
  match snd e with
  | DT_REG => (exists stem, fst e = stem ++ subfix) /\ f = join_path path (fst e)
  | DT_DIR => is_dot (fst e) = false /\ listed (join_path path (fst e)) f
  | DT_OTHER => False
  end.

Definition entries_list (path : str) (es : list (str * dtype)) (f : str) : Prop :=
  exists e, e ∈ es /\ entry_lists path e f.

Lemma entries_list_cons path e es f :
  entries_list path (e :: es) f <-> entry_lists path e f \/ entries_list path es f.
Proof.
  unfold entries_list. split.
  - intros (e' & [->|He]%elem_of_cons & Hl); [by left|]. right. by exists e'.
  - intros [Hl | (e' & He & Hl)]; [exists e|exists e']; (split; [|done]); [left|by right].
Qed.

Lemma listed_entries path es f :
  os_access d (c_str path) = true -> os_readdir d (c_str path) = Some es ->
  listed path f <-> entries_list path es f.
Proof.
  intros Ha Hes. split.
  - intros Hf. inversion Hf as [? es1 name ? Hes1 Hn Hs|? es1 name ? ? Hes1 Hn Hd Hl]; subst;
      rewrite Hes in Hes1; injection Hes1 as <-; eexists; (split; [exact Hn|]); by split.
  - intros ([name t] & He & Hl). destruct t; simpl in Hl.
    + destruct Hl as [Hd Hl]. by eapply listed_below.
    + destruct Hl as [Hs ->]. by eapply listed_here.
    + done.
Qed.

Lemma ListAllFile_listed fuel path files :
  shallow fuel path ->
  exists r, ListAllFile fuel d files path subfix = Ret (files ++ r) /\
    forall f, f ∈ r <-> listed path f.
Proof.
  revert path files. induction fuel as [|fuel IH]; intros path files Hsh; simpl in *.
  - exists []. rewrite app_nil_r. split.
    + destruct Hsh as [-> | [-> | []]]; simpl; [done|]. by destruct (os_access d (c_str path)).
    + intros f. split; [intros Hf; by apply not_elem_of_nil in Hf|].
      intros Hf. exfalso. inversion Hf; subst; destruct Hsh as [? | [? | []]]; congruence.
  - destruct (os_access d (c_str path)) eqn:Ha; simpl.
    2:{ exists []. rewrite app_nil_r. split; [done|]. intros f.
        split; [intros Hf; by apply not_elem_of_nil in Hf|]. intros Hf. inversion Hf; congruence. }
    destruct (os_readdir d (c_str path)) as [es|] eqn:Hes.
    2:{ exists []. rewrite app_nil_r. split; [done|]. intros f.
        split; [intros Hf; by apply not_elem_of_nil in Hf|]. intros Hf. inversion Hf; congruence. }
    destruct Hsh as [Hsh | [Hsh | Hsh]]; [done|done|].
    (* the entries that are left *)
    assert (forall es', (forall e, e ∈ es' -> e ∈ es) -> forall files, exists r,
      (fix each (es : list (str * dtype)) (files : list str) : res (list str) :=
         match es with
         | [] => Ret files
         | (name, t) :: es' =>
             match t with
             | DT_DIR =>
                 if is_dot name then each es' files
                 else
                   files' ← ListAllFile fuel d files (path ++ [slash] ++ name) subfix;
                   each es' files'
             | DT_REG =>
                 b ← has_subfix name subfix;
                 each es' (if (b : bool) then files ++ [path ++ [slash] ++ name] else files)
             | DT_OTHER => each es' files
             end
         end) es' files = Ret (files ++ r) /\
      forall f, f ∈ r <-> entries_list path es' f) as Heach.
    { induction es' as [|[name t] es' IHes]; intros Hin fs.
      { exists []. rewrite app_nil_r. split; [done|]. intros f.
        split; [intros Hf; by apply not_elem_of_nil in Hf|].
        intros (e & He & _). by apply not_elem_of_nil in He. }
      assert (forall e, e ∈ es' -> e ∈ es) as Hin' by (intros e He; apply Hin; by right).
      specialize (IHes Hin'). destruct t.
      - destruct (is_dot name) eqn:Hdot.
        + destruct (IHes fs) as (r & -> & Hr). exists r. split; [done|]. intros f.
          rewrite entries_list_cons, Hr. unfold entry_lists. simpl. rewrite Hdot.
          split; [by right|]. by intros [[? _]|?].
        + destruct (IH (join_path path name) fs) as (r1 & Hl1 & Hr1).
          { eapply Hsh; [done| |done]. apply Hin. left. }
          unfold join_path in Hl1. rewrite Hl1. unfold_M.
          destruct (IHes (fs ++ r1)) as (r2 & -> & Hr2).
          exists (r1 ++ r2). rewrite app_assoc. split; [done|]. intros f.
          rewrite elem_of_app, entries_list_cons, Hr1, Hr2. unfold entry_lists. simpl.
          rewrite Hdot. tauto.
      - destruct (has_subfix_spec name) as (b & -> & Hb). unfold_M.
        destruct (IHes (if b then fs ++ [path ++ [slash] ++ name] else fs)) as (r & Hr1 & Hr).
        rewrite Hr1. destruct b.
        + exists ((path ++ [slash] ++ name) :: r). rewrite <- app_assoc. split; [done|].
          intros f. rewrite elem_of_cons, entries_list_cons, Hr. unfold entry_lists. simpl.
          rewrite <- Hb. unfold join_path. tauto.
        + exists r. split; [done|]. intros f. rewrite entries_list_cons, Hr. unfold entry_lists.
          simpl. rewrite <- Hb. split; [by right|]. by intros [[? _]|?].
      - destruct (IHes fs) as (r & -> & Hr). exists r. split; [done|]. intros f.
        rewrite entries_list_cons, Hr. unfold entry_lists. simpl. tauto. }
    destruct (Heach es (fun e He => He) files) as (r & Hr1 & Hr). exists r. split; [exact Hr1|].
    intros f. by rewrite Hr, (listed_entries path es).
Qed.
End listing.

(** ** The claims *)

(** C30.  [Mkdir] makes a path.  On every path but the empty one it returns; when it
    answers true the path exists, every directory on the way to it is there if
    something had to be made, and nothing that was accessible has gone; when it
    answers false the first directory that could not be made still cannot be.
    A second call succeeds without doing anything. *)
Theorem Mkdir_makes_path (D : Type) (os : Posix D) (laws : PosixLaws D) s d :
  nul_free s -> s <> [] ->
  exists b d', Mkdir s d = (Ret b, d') /\
    (forall q, os_access d q = true -> os_access d' q = true) /\
    if b then is_Some (os_lstat d' s) /\ Mkdir s d' = (Ret true, d') /\
              (os_lstat d s = None -> forall p, p ∈ directories s -> os_access d' p = true)
    else exists p, p ∈ directories s /\ os_mkdir p d' = (false, d').
Proof.
  intros Hz Hne.
  assert (forall e, is_Some (os_lstat e s) -> Mkdir s e = (Ret true, e)) as Hyes.
  { intros e He. unfold Mkdir, __lstat. rewrite (c_str_id s Hz). unfold_M. simpl.
    by rewrite bool_decide_eq_true_2. }
  destruct (os_lstat d s) as [st|] eqn:Hl.
  - exists true, d. split; [by apply Hyes; rewrite Hl|]. split; [done|].
    split; [by rewrite Hl|]. split; [by apply Hyes; rewrite Hl|done].
  - rewrite Mkdir_mkdirs by done. destruct (mkdirs_ret (directories s) d) as (b & d' & Hm).
    exists b, d'. split; [done|]. destruct (mkdirs_makes _ _ _ _ Hm) as [Hk Hb].
    split; [done|]. destruct b; [|done].
    assert (is_Some (os_lstat d' s)) as Hs.
    { apply access_lstat, Hb, elem_of_app. right. by apply list_elem_of_singleton. }
    split; [done|]. split; [by apply Hyes|done].
Qed.

(** A file system kept as the set of its paths, true for directories: [mkdir] needs
    a parent, files have no contents. *)
Abbreviation toy_fs := (gmap str bool).

Definition toy_parent (d : toy_fs) (p : str) : bool :=
  match Dirname p with
  | Ret q => bool_decide (q = $".") || bool_decide (q = $"/") || bool_decide (d !! q = Some true)
  | _ => false
  end.

Definition toy_create (is_dir : bool) (p : str) (d : toy_fs) : bool * toy_fs :=
  if bool_decide (d !! p = None) && toy_parent d p then (true, <[p := is_dir]> d) else (false, d).

Definition toy_remove (is_dir : bool) (p : str) (d : toy_fs) : bool * toy_fs :=
  if bool_decide (d !! p = Some is_dir) then (true, delete p d) else (false, d).

(** The entries directly below [p]. *)
Definition toy_entries (d : toy_fs) (p : str) : list (str * dtype) :=
  omap (fun '((q, is_dir) : str * bool) =>
          if bool_decide (take (S (length p)) q = p ++ [slash]) &&
             negb (bool_decide (slash ∈ drop (S (length p)) q))
          then Some (drop (S (length p)) q, if is_dir then DT_DIR else DT_REG) else None)
       (map_to_list (d : gmap str bool)).

#[export] Instance toy_posix : Posix toy_fs := {
  os_lstat d p := (fun b : bool => (if b then S_IFDIR else 32768%Z, 1%Z)) <$> d !! p;
  os_access d p := bool_decide (is_Some (d !! p));
  os_mkdir := toy_create true;
  os_unlink := toy_remove false;
  os_rmdir := toy_remove true;
  os_rename from to d := match d !! from with
                         | Some b => (true, <[to := b]> (delete from d))
                         | None => (false, d)
                         end;
  os_symlink from to d := toy_create false to d;
  os_realpath d p := Some p;
  os_readdir d p := if bool_decide (d !! p = Some true) then Some (toy_entries d p) else None;
  os_getline d p := None;
  os_kill0 d pid := true;
  os_open_read d p := bool_decide (d !! p = Some false);
  os_open_app p d := match d !! p with
                     | Some b => (negb b, d)
                     | None => toy_create false p d
                     end
}.

#[export] Instance toy_laws : PosixLaws toy_fs.
Proof.
  split.
  - intros d p H%bool_decide_eq_true. simpl. destruct (d !! p); [by eexists|by destruct H].
  - intros d p d'. simpl. unfold toy_create. destruct (_ && _); [|done]. intros [= <-].
    apply bool_decide_eq_true. rewrite lookup_insert_eq. by eexists.
  - intros d p b d' q. simpl. unfold toy_create. destruct (_ && _); intros [= <- <-]; [|done].
    rewrite !bool_decide_eq_true. rewrite lookup_insert. case_decide; [by eexists|done].
  - intros d p d'. simpl. unfold toy_create. destruct (_ && _); [done|]. by intros [= <-].
Qed.

Lemma Mkdir_makes_path_witness :
  exists b d', Mkdir $"log/app" (∅ : toy_fs) = (Ret b, d') /\
    (forall q, os_access (∅ : toy_fs) q = true -> os_access d' q = true).
Proof.
  destruct (Mkdir_makes_path toy_fs toy_posix toy_laws $"log/app" ∅) as (b & d' & Hm & Hk & _).
  - by vm_compute; set_solver.
  - discriminate.
  - by exists b, d'.
Defined.

(** C31.  [ListAllFile] appends exactly the regular files below a directory, at any
    depth, whose names end with the suffix, and returns whenever the directories
    nest less deep than the recursion may go. *)
Theorem ListAllFile_exact (D : Type) (os : Posix D) fuel d files path subfix :
  shallow d fuel path ->
  exists r, ListAllFile fuel d files path subfix = Ret (files ++ r) /\
    forall f, f ∈ r <-> listed d subfix path f.
Proof. apply ListAllFile_listed. Qed.

Definition conf_fs : toy_fs :=
  <[$"conf" := true]> (<[$"conf/a.yml" := false]> (<[$"conf/sub" := true]>
    (<[$"conf/sub/b.yml" := false]> (<[$"conf/c.txt" := false]> ∅)))).

Lemma ListAllFile_exact_witness :
  exists r, ListAllFile 2 conf_fs [] $"conf" $".yml" = Ret r /\
    ($"conf/sub/b.yml" ∈ r <-> listed conf_fs $".yml" $"conf" $"conf/sub/b.yml").
Proof.
  destruct (ListAllFile_exact toy_fs toy_posix 2 conf_fs [] $"conf" $".yml") as (r & Hr & Hin).
  - right. right. intros es name Hes Hn Hd.
    assert (join_path $"conf" name = $"conf/sub") as ->.
    { vm_compute in Hes. injection Hes as <-. set_unfold. destruct_or!; by simplify_eq. }
    right. right. intros es' name' Hes' Hn' _.
    exfalso. vm_compute in Hes'. injection Hes' as <-. set_unfold. destruct_or!; by simplify_eq.
  - exists r. split; [exact Hr|apply Hin].
Defined.

(** [Dirname] and [Basename] take a path apart: a path with a slash that is not
    its first character is its directory, a slash and its base name; the base
    name has no slash; a path without slash is its own base name in ".". *)
Theorem Dirname_Basename p :
  exists dir base, Dirname p = Ret dir /\ Basename p = Ret base /\ (slash ∉ base) /\
    (((slash ∉ p) /\ dir = $"." /\ base = p) \/
     (p = [slash] ++ base /\ dir = $"/") \/
     (p = dir ++ [slash] ++ base /\ dir <> [])).
Proof.
  unfold Dirname, Basename. destruct p as [|c p'] eqn:Hp.
  { exists $".", []. repeat split; [set_solver|left; set_solver]. }
  rewrite <- Hp. assert (p <> []) as Hne by (by rewrite Hp). clear Hp.
  destruct (rfind slash p) as [pos|] eqn:Hr.
  - apply rfind_Some in Hr as [Hpos Hnot].
    pose proof (lookup_lt_Some _ _ _ Hpos) as Hlt.
    rewrite substr_from_ok by lia. rewrite Nat.add_1_r.
    assert (p = take pos p ++ [slash] ++ drop (S pos) p) as Hsplit.
    { by rewrite <- (take_drop_middle p pos slash Hpos) at 1. }
    destruct pos as [|pos].
    + eexists _, _. do 3 (split; [done|]). right; left. split; [|done]. exact Hsplit.
    + rewrite substr_ok by lia. eexists _, _. do 3 (split; [done|]). right; right.
      rewrite drop_0. split; [exact Hsplit|]. by destruct p.
  - apply rfind_None in Hr. exists $".", p. do 3 (split; [done|]). by left.
Qed.

(** [Rm] tests a bit of the file type instead of the type: a socket (type 0140000) or
    a block device (0060000) counts as a directory, cannot be listed, and is not
    removed. *)
Lemma Rm_special_file {D : Type} `{Posix D} fuel path d mode time :
  os_lstat d (c_str path) = Some (mode, time) -> os_readdir d (c_str path) = None ->
  Z.land mode 61440 = 49152%Z \/ Z.land mode 61440 = 24576%Z ->
  Rm fuel path d = (Ret false, d).
Proof.
  intros Hl Hr Hm.
  assert (Z.land mode S_IFDIR = 16384%Z) as Hbit.
  { change S_IFDIR with (Z.land 61440 16384). rewrite Z.land_assoc.
    by destruct Hm as [-> | ->]. }
  destruct fuel; simpl; unfold_M; by rewrite Hl, Hbit; simpl; rewrite Hr.
Qed.
