(* ===== verification/Env.v ===== *)
(** * Env: command-line arguments, help texts and paths (env.h, env.cc)

    [Env] is the record of the class's fields; the methods are functions on it.
    The option parser of [Env::init] is characterised exactly by a small grammar
    of option lists, and the iterator loop of [Env::removeHelp] is modelled with
    its iterator, so that stepping past [end()] is visible as undefined
    behaviour. *)
From stdpp Require Import base gmap list strings.
From Stdlib Require Import Ascii.
From S2P Require Import Prelude.

(** ** The class *)

(** The fields of class [Env]. *)
Record Env := mkEnv {
  m_args : gmap str str;
  m_helps : list (str * str);
  m_program : str;
  m_exe : str;
  m_cwd : str
}.

Definition set_args (a : gmap str str) (e : Env) : Env :=
  mkEnv a (m_helps e) (m_program e) (m_exe e) (m_cwd e).
Definition set_helps (h : list (str * str)) (e : Env) : Env :=
  mkEnv (m_args e) h (m_program e) (m_exe e) (m_cwd e).
Definition set_program (p : str) (e : Env) : Env :=
  mkEnv (m_args e) (m_helps e) p (m_exe e) (m_cwd e).
Definition set_exe_cwd (x c : str) (e : Env) : Env :=
  mkEnv (m_args e) (m_helps e) (m_program e) x c.

Definition empty_env : Env := mkEnv ∅ [] [] [] [].

(** [m_args[key] = val]. *)
Definition add (key val : str) : M Env unit :=
  modify (fun e => set_args (<[key := val]> (m_args e)) e).

(** [m_args.find(key) != m_args.end()]. *)
Definition has (key : str) (e : Env) : bool :=
  match m_args e !! key with Some _ => true | None => false end.

Definition del (key : str) : M Env unit :=
  modify (fun e => set_args (delete key (m_args e)) e).

Definition get_arg (key default_value : str) (e : Env) : str :=
  match m_args e !! key with Some v => v | None => default_value end.

(** ** [Env::init] *)

(** The C string at the start of a buffer: the characters before the first NUL.
    A buffer without one is read past its end. *)
Fixpoint c_string (buf : list ascii) : res str :=
  match buf with
  | [] => UB $"read past the end of the buffer"
  | c :: rest =>
      if decide (c = Ascii.zero) then Ret []
      else s ← c_string rest; Ret (c :: s)
  end.

Definition path_buffer_size : nat := 1024.

Definition dash : ascii := "-"%char.
(** The argument loop: [now_key] is the option whose value is awaited. *)
Fixpoint init_args (args : list str) (now_key : option str) : M Env bool :=
  match args with
  | [] =>
      match now_key with
      | Some k => add k [];; mret true
      | None => mret true
      end
  | a :: rest =>
      if starts_with dash a then
        if (1 <? length a)%nat then
          match now_key with
          | Some k => add k []
          | None => mret tt
          end;;
          init_args rest (Some (drop 1 a))
        else init_args rest now_key
      else
        match now_key with
        | Some k => add k a;; init_args rest None
        | None => mret false
        end
  end.

(** [Env::init(argc, argv)].  [link_target] is what [readlink] of
    [/proc/<pid>/exe] delivers: [None] for -1, otherwise the bytes it stores in
    the zeroed array [path], of which there are at most [sizeof(path)]. *)
Definition init (link_target : option (list ascii)) (argv : list str) : M Env bool :=
  match link_target with
  | None => mret false
  | Some bytes =>
      exe ← lift_res
        (c_string (bytes ++ replicate (path_buffer_size - length bytes) Ascii.zero));
      let dir := match rfind slash exe with
                 | Some pos => take pos exe
                 | None => exe
                 end in
      modify (set_exe_cwd exe (dir ++ [slash]));;
      match argv with
      | [] => ub $"m_program = nullptr"
      | prog :: args =>
          modify (set_program prog);;
          init_args args None
      end
  end.

(** ** Help texts *)

(** The loop of [Env::removeHelp]: [it] is the iterator as an index.  Each turn
    either erases at [it] (which leaves [it] at the next element) or increments
    it, and the [for] clause increments once more; incrementing [end()] is
    undefined.  The loop makes at most [length helps] turns. *)
Fixpoint removeHelp_loop (fuel : nat) (key : str) (helps : list (str * str))
    (it : nat) : res (list (str * str)) :=
  if (it =? length helps)%nat then Ret helps
  else
    match fuel with
    | O => UB $"out of fuel"
    | S fuel' =>
        match helps !! it with
        | None => UB $"iterator out of range"
        | Some h =>
            let '(helps', it') :=
              if decide (fst h = key) then (take it helps ++ drop (S it) helps, it)
              else (helps, S it) in
            if (it' =? length helps')%nat then UB $"++ of end()"
            else removeHelp_loop fuel' key helps' (S it')
        end
    end.

Definition removeHelp (key : str) : M Env unit := fun e =>
  match removeHelp_loop (length (m_helps e)) key (m_helps e) 0 with
  | Ret helps' => (Ret tt, set_helps helps' e)
  | Throw x => (Throw x, e)
  | Abort w => (Abort w, e)
  | UB w => (UB w, e)
  end.

Definition addHelp (key desc : str) : M Env unit :=
  removeHelp key;;
  modify (fun e => set_helps (m_helps e ++ [(key, desc)]) e).

(** [std::setw(5) << " - "] pads on the left to five characters. *)
Definition setw (w : nat) (s : str) : str := replicate (w - length s) " "%char ++ s.

(** The text [Env::printHelp] sends to [std::cout]. *)
Definition printHelp (e : Env) : str :=
  $"Usage: " ++ m_program e ++ $" [options]" ++ nl ++
  concat (map (fun i => setw 5 $" - " ++ fst i ++ $" : " ++ snd i ++ nl) (m_helps e)).

(** ** Environment variables

    [setenv] and [getenv] of the C library are parameters; the process
    environment is their state. *)
Section ProcessEnvironment.
Context {environ : Type}.
Variable c_setenv : str -> str -> environ -> Z * environ.
Variable c_getenv : str -> environ -> option str.

Definition setEnv (key val : str) (env : environ) : bool * environ :=
  let '(rc, env') := c_setenv key val env in (Z.eqb rc 0, env').

Definition getEnv (key default_value : str) (env : environ) : str :=
  match c_getenv key env with Some v => v | None => default_value end.
End ProcessEnvironment.

(** ** Paths *)
Definition getAbsolutePath (path : str) (e : Env) : str :=
  match path with
  | [] => [slash]
  | c :: _ => if decide (c = slash) then path else m_cwd e ++ path
  end.

Definition getConfigPath (e : Env) : str :=
  getAbsolutePath (get_arg $"c" $"conf" e) e.

(** ** Properties of the option parser *)

(** The command lines [init] accepts: options, each with or without a value. *)
Inductive opt : Type :=
| Flag (k : str)
| KeyVal (k v : str).

Definition opt_key (o : opt) : str := match o with Flag k | KeyVal k _ => k end.
Definition opt_val (o : opt) : str := match o with Flag _ => [] | KeyVal _ v => v end.

Definition opt_wf (o : opt) : Prop :=
  opt_key o <> [] /\
  match o with Flag _ => True | KeyVal _ v => starts_with dash v = false end.

Definition render_opt (o : opt) : list str :=
  match o with
  | Flag k => [dash :: k]
  | KeyVal k v => [dash :: k; v]
  end.

Definition render (os : list opt) : list str := concat (map render_opt os).

Definition store_opt (e : Env) (o : opt) : Env :=
  set_args (<[opt_key o := opt_val o]> (m_args e)) e.

Definition store_opts (os : list opt) (e : Env) : Env := foldl store_opt e os.

(** A lone "-" is reported and otherwise ignored. *)
Definition lone_dash (a : str) : bool := bool_decide (a = [dash]).
Definition drop_dashes (args : list str) : list str :=
  List.filter (fun a => negb (lone_dash a)) args.
#[local] Arguments drop_dashes : simpl never.

Lemma starts_with_dash a :
  starts_with dash a = true ->
  lone_dash a = true \/ exists k, k <> [] /\ a = dash :: k.
Proof.
  destruct a as [|c k]; simpl; [done|]. rewrite bool_decide_eq_true. intros ->.
  destruct k as [|d k]; [left|right; by exists (d :: k)].
  unfold lone_dash. by rewrite bool_decide_true.
Qed.

(** The option awaiting a value, put back in front of the remaining arguments. *)
Definition pending (nk : option str) : list str :=
  match nk with Some k => [dash :: k] | None => [] end.

Lemma drop_dashes_cons a args :
  lone_dash a = false -> drop_dashes (a :: args) = a :: drop_dashes args.
Proof. intros H. unfold drop_dashes. simpl. by rewrite H. Qed.

Lemma drop_dashes_lone args : drop_dashes ([dash] :: args) = drop_dashes args.
Proof. done. Qed.

Lemma lone_dash_opt k : k <> [] -> lone_dash (dash :: k) = false.
Proof. intros H. apply bool_decide_eq_false. congruence. Qed.

Lemma lone_dash_val v : starts_with dash v = false -> lone_dash v = false.
Proof. intros H. apply bool_decide_eq_false. by intros ->. Qed.

Lemma drop_dashes_pending nk args :
  match nk with Some k => k <> [] | None => True end ->
  drop_dashes (pending nk ++ args) = pending nk ++ drop_dashes args.
Proof. destruct nk; [intros; by apply drop_dashes_cons, lone_dash_opt|done]. Qed.

(** What the first word of a rendered option list tells about the list. *)
Lemma render_inv os x l :
  Forall opt_wf os -> render os = x :: l ->
  exists o os', os = o :: os' /\ Forall opt_wf os' /\ x = dash :: opt_key o /\
    match o with
    | Flag _ => l = render os'
    | KeyVal _ v => l = v :: render os' /\ starts_with dash v = false
    end.
Proof.
  intros Hwf Heq. destruct Hwf as [|o os' [Hk Ho] Hos']; [done|].
  exists o, os'. destruct o; unfold render in *; simplify_eq/=; eauto 10.
Qed.

Lemma render_value_first os v l :
  Forall opt_wf os -> starts_with dash v = false -> render os = v :: l -> False.
Proof. intros Hwf Hv (o & os' & _ & _ & -> & _)%render_inv; done. Qed.

(** [words] is a list of options that turns [e] into [e']. *)
Definition accepted (words : list str) (e e' : Env) : Prop :=
  exists os, Forall opt_wf os /\ render os = words /\ e' = store_opts os e.

Lemma accepted_nil e e' : accepted [] e e' <-> e' = e.
Proof.
  split; [|intros ->; by exists []].
  intros (os & Hwf & Hr & ->). destruct os as [|o os]; [done|].
  by destruct o.
Qed.

Lemma accepted_val v args e e' :
  starts_with dash v = false -> ~ accepted (v :: args) e e'.
Proof.
  intros Hv (os & Hwf & Hr & _).
  by destruct (render_inv _ _ _ Hwf Hr) as (o & os' & _ & _ & -> & _).
Qed.

Lemma accepted_opt k args e e' :
  k <> [] ->
  accepted ((dash :: k) :: args) e e' <->
  accepted args (store_opt e (Flag k)) e' \/
  (exists v rest, args = v :: rest /\ starts_with dash v = false /\
     accepted rest (store_opt e (KeyVal k v)) e').
Proof.
  intros Hk. split.
  - intros (os & Hwf & Hr & ->).
    destruct (render_inv _ _ _ Hwf Hr) as (o & os' & -> & Hos' & [= ->] & Ho).
    destruct o as [k'|k' v]; [left|right]; simpl in *.
    + by exists os'.
    + destruct Ho as [-> Hv]. exists v, (render os'). by repeat split; [|exists os'].
  - intros [(os & Hwf & <- & ->) | (v & rest & -> & Hv & os & Hwf & <- & ->)].
    + exists (Flag k :: os). repeat split; auto. by constructor.
    + exists (KeyVal k v :: os). repeat split; auto. by constructor.
Qed.

Lemma init_args_accepted args : forall nk e e',
  match nk with Some k => k <> [] | None => True end ->
  init_args args nk e = (Ret true, e') <->
  accepted (drop_dashes (pending nk ++ args)) e e'.
Proof.
  induction args as [|a rest IH]; intros nk e e' Hnk; rewrite drop_dashes_pending by done.
  - destruct nk as [k|]; simpl.
    + rewrite accepted_opt, accepted_nil by done. unfold_M. simpl.
      split; [intros [= <-]; by left|]. intros [-> | (v & r & ? & _)]; done.
    + rewrite accepted_nil. unfold_M. split; naive_solver.
  - simpl. destruct (starts_with dash a) eqn:Hs.
    + destruct (starts_with_dash a Hs) as [Hl | (k' & Hk' & ->)].
      * apply bool_decide_eq_true in Hl as ->. rewrite drop_dashes_lone. simpl.
        by rewrite IH, drop_dashes_pending by done.
      * rewrite drop_dashes_cons by by apply lone_dash_opt.
        destruct k' as [|c k'']; [done|]. simpl.
        destruct nk as [k|]; unfold_M; simpl;
          rewrite IH, drop_dashes_pending by done; simpl; [|done].
        rewrite (accepted_opt k) by done.
        split; [by left|]. intros [H | (v & r & [= <- _] & Hv & _)]; done.
    + rewrite drop_dashes_cons by by apply lone_dash_val.
      destruct nk as [k|]; simpl.
      * unfold_M. simpl. rewrite IH by done. simpl. rewrite accepted_opt by done.
        split.
        -- intros H. right. by exists a, (drop_dashes rest).
        -- intros [H | (v & r & [= <- <-] & _ & H)]; [|done].
           by apply accepted_val in H.
      * unfold_M. split; [done|]. intros H. by apply accepted_val in H.
Qed.

(** The parser never throws, aborts or runs into undefined behaviour. *)
Lemma init_args_ret args : forall nk e, exists b e', init_args args nk e = (Ret b, e').
Proof.
  induction args as [|a rest IH]; intros nk e; simpl.
  - destruct nk; unfold_M; eauto.
  - destruct (starts_with dash a), (1 <? length a)%nat, nk; unfold_M; simpl; eauto.
Qed.

Lemma c_string_ok s rest :
  Ascii.zero ∉ s -> c_string (s ++ Ascii.zero :: rest) = Ret s.
Proof.
  induction s as [|c s IH]; intros Hs; [done|]. simpl.
  apply not_elem_of_cons in Hs as [Hc Hs]. rewrite decide_False by done.
  by rewrite IH.
Qed.

Lemma c_string_unterminated s : Ascii.zero ∉ s -> is_ub (c_string s) = true.
Proof.
  induction s as [|c s IH]; intros Hs; [done|]. simpl.
  apply not_elem_of_cons in Hs as [Hc Hs]. rewrite decide_False by done.
  specialize (IH Hs). by destruct (c_string s).
Qed.

(** Where [init] leaves the fields that do not depend on the options. *)
Definition env_of_exe (exe prog : str) (e : Env) : Env :=
  set_program prog
    (set_exe_cwd exe
       (match rfind slash exe with Some pos => take pos exe | None => exe end ++ [slash]) e).

Lemma init_unfold link prog args e :
  Ascii.zero ∉ link -> (length link < path_buffer_size)%nat ->
  init (Some link) (prog :: args) e = init_args args None (env_of_exe link prog e).
Proof.
  intros Hz Hlen. unfold init.
  replace (path_buffer_size - length link)
    with (S (path_buffer_size - S (length link))) by lia.
  simpl replicate. rewrite c_string_ok by done. by unfold_M.
Qed.

Lemma rfind_dir exe pos :
  rfind slash exe = Some pos ->
  exists base, exe = take pos exe ++ [slash] ++ base /\ slash ∉ base.
Proof.
  intros [Hp Hno]%rfind_Some. exists (drop (S pos) exe). split; [|done].
  simpl. by rewrite (take_drop_middle exe pos slash Hp).
Qed.

(** The options do not touch the other fields. *)
Lemma init_args_fields args : forall nk e,
  let e' := snd (init_args args nk e) in
  m_exe e' = m_exe e /\ m_cwd e' = m_cwd e /\ m_helps e' = m_helps e /\
  m_program e' = m_program e.
Proof.
  induction args as [|a rest IH]; intros nk e; simpl.
  - by destruct nk; unfold_M.
  - destruct (starts_with dash a), (1 <? length a)%nat, nk; unfold_M; simpl;
      lazymatch goal with
      | |- context [init_args ?r ?n ?e1] => exact (IH n e1)
      | _ => done
      end.
Qed.

(** ** Properties of the help texts *)

(** The elements the loop inspects are those at even positions; an element that
    matches is dropped together with the chance to look at its neighbour.  An odd
    number of elements makes the last increment step past [end()]. *)
Fixpoint removeHelp_pairs (key : str) (l : list (str * str)) : option (list (str * str)) :=
  match l with
  | [] => Some []
  | [_] => None
  | x :: y :: rest =>
      r ← removeHelp_pairs key rest;
      Some (if decide (fst x = key) then y :: r else x :: y :: r)
  end.

#[local] Arguments Nat.eqb : simpl never.

Lemma removeHelp_loop_pairs key fuel : forall pre l,
  (length l <= fuel)%nat ->
  removeHelp_loop fuel key (pre ++ l) (length pre) =
    match removeHelp_pairs key l with
    | Some r => Ret (pre ++ r)
    | None => UB $"++ of end()"
    end.
Proof.
  induction fuel as [|fuel IH]; intros pre l Hl.
  { destruct l; [|simpl in Hl; lia]. simpl. by rewrite app_nil_r, Nat.eqb_refl. }
  destruct l as [|x l]; simpl.
  { by rewrite app_nil_r, Nat.eqb_refl. }
  destruct (Nat.eqb_spec (length pre) (length (pre ++ x :: l))) as [E|_].
  { rewrite length_app in E. simpl in E. lia. }
  rewrite lookup_app_r, Nat.sub_diag by lia. simpl.
  rewrite take_app_length.
  replace (drop (S (length pre)) (pre ++ x :: l)) with l
    by (rewrite drop_app_ge by lia; by replace (S _ - _) with 1 by lia).
  destruct l as [|y l]; simpl.
  - case_decide; rewrite ?app_nil_r, ?length_app; simpl;
      rewrite ?Nat.add_1_r, Nat.eqb_refl; done.
  - case_decide; rewrite length_app; simpl.
    + destruct (Nat.eqb_spec (length pre) (length pre + S (length l))); [lia|].
      change (pre ++ y :: l) with (pre ++ [y] ++ l). rewrite app_assoc.
      replace (S (length pre)) with (length (pre ++ [y]))
        by (rewrite length_app; simpl; lia).
      rewrite IH by (simpl in Hl; lia).
      destruct (removeHelp_pairs key l); simpl; [|done].
      by rewrite <- app_assoc.
    + destruct (Nat.eqb_spec (S (length pre)) (length pre + S (S (length l)))); [lia|].
      change (pre ++ x :: y :: l) with (pre ++ [x; y] ++ l). rewrite app_assoc.
      replace (S (S (length pre))) with (length (pre ++ [x; y]))
        by (rewrite length_app; simpl; lia).
      rewrite IH by (simpl in Hl; lia).
      destruct (removeHelp_pairs key l); simpl; [|done].
      by rewrite <- app_assoc.
Qed.

Lemma removeHelp_pairs_parity key n : forall l,
  (length l <= n)%nat ->
  removeHelp_pairs key l = None <-> Nat.odd (length l) = true.
Proof.
  induction n as [|n IH]; intros l Hl.
  { destruct l; [done|simpl in Hl; lia]. }
  destruct l as [|x [|y l]]; [done|done|]. simpl.
  change (Nat.odd (S (S (length l)))) with (Nat.odd (length l)).
  rewrite <- (IH l) by (simpl in Hl; lia).
  destruct (removeHelp_pairs key l); simpl; by split.
Qed.

(** ** The claims *)

(** C32.  [Env::init] accepts exactly the command lines made of options
    ["-key"] and ["-key value"] (a lone ["-"] being ignored): it returns true if
    and only if the arguments after [argv[0]] are such a list, and then the
    options are stored in order, a later one replacing an earlier one with the
    same key, a missing value as the empty string. *)
Theorem init_accepts_exactly link prog args e e' :
  Ascii.zero ∉ link -> (length link < path_buffer_size)%nat ->
  init (Some link) (prog :: args) e = (Ret true, e') <->
  exists os, Forall opt_wf os /\ drop_dashes args = render os /\
    e' = store_opts os (env_of_exe link prog e).
Proof.
  intros Hz Hlen. rewrite init_unfold, init_args_accepted by done.
  unfold accepted. naive_solver.
Qed.

Lemma init_accepts_exactly_witness :
  init (Some $"/opt/app/bin/server") [$"server"; $"-c"; $"conf"; $"-"; $"-d"] empty_env =
    (Ret true, store_opts [KeyVal $"c" $"conf"; Flag $"d"]
                 (env_of_exe $"/opt/app/bin/server" $"server" empty_env)).
Proof.
  apply (init_accepts_exactly $"/opt/app/bin/server" $"server"
           [$"-c"; $"conf"; $"-"; $"-d"] empty_env).
  - by apply (bool_decide_unpack _).
  - vm_compute. lia.
  - exists [KeyVal $"c" $"conf"; Flag $"d"]. split; [|by split].
    repeat constructor; done.
Defined.

(** After [Env::init] has read the path of an executable (an absolute
    path shorter than the buffer), [m_exe] is that path, [m_cwd] is its directory
    with a trailing slash, and every path [getAbsolutePath] answers is absolute. *)
Theorem init_paths link prog args e b e' path :
  Ascii.zero ∉ link -> (length link < path_buffer_size)%nat ->
  starts_with slash link = true ->
  init (Some link) (prog :: args) e = (Ret b, e') ->
  m_exe e' = link /\
  (exists base, link = m_cwd e' ++ base /\ slash ∉ base) /\
  starts_with slash (getAbsolutePath path e') = true.
Proof.
  intros Hz Hlen Habs. rewrite init_unfold by done. intros Hi.
  destruct (init_args_fields args None (env_of_exe link prog e)) as (Hexe & Hcwd & _).
  rewrite Hi in Hexe, Hcwd. simpl in Hexe, Hcwd.
  destruct (rfind slash link) as [pos|] eqn:Hr.
  2:{ apply rfind_None in Hr. destruct link as [|c l]; [done|]. simpl in Habs.
      apply bool_decide_eq_true in Habs as ->. set_solver. }
  destruct (rfind_dir _ _ Hr) as (base & Hbase & Hno).
  split; [done|]. split.
  - exists base. by rewrite Hcwd, <- app_assoc.
  - destruct path as [|c path]; [done|]. simpl. case_decide as Hc.
    + by rewrite Hc.
    + rewrite Hcwd. destruct link as [|d l]; [done|]. by destruct pos.
Qed.

Lemma init_paths_witness :
  let e' := snd (init (Some $"/opt/app/server") [$"server"; $"-d"] empty_env) in
  m_exe e' = $"/opt/app/server" /\
  (exists base, $"/opt/app/server" = m_cwd e' ++ base /\ slash ∉ base) /\
  starts_with slash (getAbsolutePath $"conf" e') = true.
Proof.
  eapply (init_paths $"/opt/app/server" $"server" [$"-d"] empty_env true).
  - by apply (bool_decide_unpack _).
  - vm_compute. lia.
  - reflexivity.
  - vm_compute. reflexivity.
Defined.

(** A path of the executable that fills the whole buffer is read without a
    terminator: the behaviour of [Env::init] is undefined. *)
Theorem init_long_link_ub link argv e :
  Ascii.zero ∉ link -> length link = path_buffer_size ->
  is_ub (fst (init (Some link) argv e)) = true.
Proof.
  intros Hz Hlen. unfold init. rewrite Hlen, Nat.sub_diag. simpl. rewrite app_nil_r.
  pose proof (c_string_unterminated link Hz). unfold_M.
  by destruct (c_string link).
Qed.

Lemma init_long_link_ub_witness :
  is_ub (fst (init (Some (replicate path_buffer_size "a"%char)) [$"a"] empty_env)) = true.
Proof.
  apply (init_long_link_ub (replicate path_buffer_size "a"%char)).
  - intros H%elem_of_replicate. by destruct H.
  - apply length_replicate.
Defined.

(** [Env::removeHelp] as it is: with an even number of help texts it drops
    the matching ones among those at even positions (pairing each element with
    its successor); with an odd number its iterator is incremented past [end()]. *)
Theorem removeHelp_exact key e :
  removeHelp key e =
    match removeHelp_pairs key (m_helps e) with
    | Some h => (Ret tt, set_helps h e)
    | None => (UB $"++ of end()", e)
    end /\
  (removeHelp_pairs key (m_helps e) = None <-> Nat.odd (length (m_helps e)) = true).
Proof.
  split; [|by eapply removeHelp_pairs_parity].
  unfold removeHelp. pose proof (removeHelp_loop_pairs key _ [] (m_helps e) (le_n _)) as H.
  simpl in H. rewrite H. by destruct (removeHelp_pairs key (m_helps e)).
Qed.

(** A second call of [addHelp] is undefined behaviour: the first one leaves
    one help text, over which [removeHelp] steps past the end whatever the keys
    are. *)
Theorem addHelp_twice_ub k1 d1 k2 d2 e :
  m_helps e = [] ->
  is_ub (fst ((addHelp k1 d1;; addHelp k2 d2) e)) = true.
Proof.
  destruct e as [a h p x c]. simpl. intros ->.
  unfold addHelp, removeHelp. unfold_M. simpl. by case_decide.
Qed.

Lemma addHelp_twice_ub_witness :
  is_ub (fst ((addHelp $"c" $"configuration";; addHelp $"d" $"daemon") empty_env)) = true.
Proof. apply (addHelp_twice_ub $"c" $"configuration" $"d" $"daemon"). reflexivity. Defined.
