(* ===== verification/Config.v ===== *)
(** * Configuration variables (config.h, config.cc)

    [ConfigVar<T>] with its listeners, the registry of all variables, the loading of
    YAML documents and of configuration directories, and the [LexicalCast]
    templates for the containers.  The template parameters are arguments of the
    definitions: a type with its two conversions.  yaml-cpp is an interface: the
    data model of its nodes ([node]) with [Load], [LoadFile] and the emitter as
    operations.  The error texts the code logs are not modelled. *)
From stdpp Require Import base gmap list strings sorting.
From Stdlib Require Import Ascii.
From S2P Require Import Prelude Util Env.

(** ** yaml-cpp *)

(** A [YAML::Node] by its type. *)
#[warnings="-register-all"]
Inductive node : Type :=
| Null
| Scalar (s : str)
| Sequence (l : list node)
| Map (m : list (node * node)).

(** [Scalar()]: the empty string for a node that is no scalar. *)
Definition scalar_of (n : node) : str := match n with Scalar s => s | _ => [] end.

(** [yaml_elements n] are the nodes [n[0]], ..., [n[n.size() - 1]], and
    [yaml_members n] what iterating over [n] as a map gives. *)
Class Yaml := {
  yaml_load : str -> res node;
  yaml_load_file : str -> res node;
  yaml_emit : node -> str;
  yaml_elements : node -> list node;
  yaml_members : node -> list (node * node)
}.

(** What the code relies on: a document that was emitted is loaded back, and the
    accessors agree with the kind of node. *)
Class YamlLaws `{Yaml} := {
  load_emit : forall n, yaml_load (yaml_emit n) = Ret n;
  elements_sequence : forall l, yaml_elements (Sequence l) = l;
  members_map : forall m, yaml_members (Map m) = m
}.

(** ** [LexicalCast] for containers *)

Fixpoint mapM_res {A B} (f : A -> res B) (l : list A) : res (list B) :=
  match l with
  | [] => Ret []
  | a :: l' => b ← f a; bs ← mapM_res f l'; Ret (b :: bs)
  end.

Section Casts.
Context `{Yaml} {T : Type}.
(** [LexicalCast<std::string, T>] and [LexicalCast<T, std::string>]. *)
Context (from : str -> res T) (to : T -> res str).

(** The loop over the elements of a sequence, each printed and cast; [insert] is
    [push_back] or the set's [insert]. *)
Fixpoint cast_loop {C} (insert : T -> C -> C) (ns : list node) (c : C) : res C :=
  match ns with
  | [] => Ret c
  | n :: ns' => x ← from (yaml_emit n); cast_loop insert ns' (insert x c)
  end.

Definition cast_sequence {C} (insert : T -> C -> C) (empty : C) (v : str) : res C :=
  node ← yaml_load v; cast_loop insert (yaml_elements node) empty.

(** The loop that builds a sequence from the elements in iteration order. *)
Definition print_sequence (l : list T) : res str :=
  ns ← mapM_res (fun x => s ← to x; yaml_load s) l;
  Ret (yaml_emit (Sequence ns)).

(** [std::vector<T>] and [std::list<T>]. *)
Definition push_back (x : T) (l : list T) : list T := l ++ [x].
Definition vector_from : str -> res (list T) := cast_sequence push_back [].
Definition vector_to : list T -> res str := print_sequence.
Definition list_from : str -> res (list T) := cast_sequence push_back [].
Definition list_to : list T -> res str := print_sequence.

(** [std::set<T>]: the elements in ascending order; an equivalent element is not
    inserted again. *)
Fixpoint set_insert (ltb : T -> T -> bool) (x : T) (l : list T) : list T :=
  match l with
  | [] => [x]
  | y :: l' => if ltb x y then x :: l
               else if ltb y x then y :: set_insert ltb x l'
               else l
  end.
Definition set_from (ltb : T -> T -> bool) : str -> res (list T) :=
  cast_sequence (set_insert ltb) [].
Definition set_to : list T -> res str := print_sequence.

(** [std::unordered_set<T>]: the elements in the order of the container, which
    [place] decides. *)
Definition uset_insert (eqb : T -> T -> bool) (place : T -> list T -> list T) (x : T) (l : list T)
    : list T :=
  if existsb (eqb x) l then l else place x l.
Definition uset_from (eqb : T -> T -> bool) (place : T -> list T -> list T) : str -> res (list T) :=
  cast_sequence (uset_insert eqb place) [].
Definition uset_to : list T -> res str := print_sequence.

(** [std::map<std::string, T>]: the pairs in ascending order of keys; [insert] does
    not replace.  [std::unordered_map] differs in the order only. *)
Fixpoint cast_map_loop {C} (insert : str -> T -> C -> C) (ms : list (node * node)) (c : C) : res C :=
  match ms with
  | [] => Ret c
  | (k, n) :: ms' =>
      x ← from (yaml_emit n); cast_map_loop insert ms' (insert (scalar_of k) x c)
  end.

Definition cast_mapping {C} (insert : str -> T -> C -> C) (empty : C) (v : str) : res C :=
  node ← yaml_load v; cast_map_loop insert (yaml_members node) empty.

(** [node[key] = child] on a node of type Map: a new key is added at the end. *)
Fixpoint node_set (k : str) (n : node) (ms : list (node * node)) : list (node * node) :=
  match ms with
  | [] => [(Scalar k, n)]
  | (k', n') :: ms' =>
      if decide (scalar_of k' = k) then (k', n) :: ms' else (k', n') :: node_set k n ms'
  end.

Fixpoint print_map_loop (l : list (str * T)) (ms : list (node * node)) : res (list (node * node)) :=
  match l with
  | [] => Ret ms
  | (k, x) :: l' => s ← to x; n ← yaml_load s; print_map_loop l' (node_set k n ms)
  end.

Definition print_mapping (l : list (str * T)) : res str :=
  ms ← print_map_loop l []; Ret (yaml_emit (Map ms)).

Fixpoint map_insert (ltb : str -> str -> bool) (k : str) (x : T) (l : list (str * T))
    : list (str * T) :=
  match l with
  | [] => [(k, x)]
  | (k', x') :: l' => if ltb k k' then (k, x) :: l
                      else if ltb k' k then (k', x') :: map_insert ltb k x l'
                      else l
  end.
Definition map_from (ltb : str -> str -> bool) : str -> res (list (str * T)) :=
  cast_mapping (map_insert ltb) [].
Definition map_to : list (str * T) -> res str := print_mapping.

Definition umap_insert (place : str * T -> list (str * T) -> list (str * T))
    (k : str) (x : T) (l : list (str * T)) : list (str * T) :=
  if existsb (fun e => bool_decide (fst e = k)) l then l else place (k, x) l.
Definition umap_from (place : str * T -> list (str * T) -> list (str * T))
    : str -> res (list (str * T)) :=
  cast_mapping (umap_insert place) [].
Definition umap_to : list (str * T) -> res str := print_mapping.
End Casts.

(** ** [ConfigVar<T>] *)

Section ConfigVar.
(** [T] with its [==] and conversions; [W] is what listeners can change. *)
Context {T W : Type} (eqb : T -> T -> bool) (FromStr : str -> res T) (ToStr : T -> res str).

(** [on_change_cb], called with the old and the new value. *)
Definition on_change_cb : Type := T -> T -> W -> res unit * W.

Record ConfigVar := mkVar {
  cv_name : str;
  cv_description : str;
  m_val : T;
  m_cbs : list (Z * on_change_cb)
}.

(** The variable, the counter [s_fun_id] that all variables of type [T] share, and
    the rest of the program. *)
Record var_state := mkVarState {
  vs_var : ConfigVar;
  vs_fun_id : Z;
  vs_world : W
}.

Definition new_ConfigVar (name : str) (default_value : T) (desc : str) : ConfigVar :=
  mkVar (map tolower name) desc default_value [].

Definition set_val (v : T) (s : var_state) : var_state :=
  mkVarState (mkVar (cv_name (vs_var s)) (cv_description (vs_var s)) v (m_cbs (vs_var s)))
    (vs_fun_id s) (vs_world s).
Definition set_cbs (l : list (Z * on_change_cb)) (s : var_state) : var_state :=
  mkVarState (mkVar (cv_name (vs_var s)) (cv_description (vs_var s)) (m_val (vs_var s)) l)
    (vs_fun_id s) (vs_world s).

Definition getValue (s : var_state) : T := m_val (vs_var s).

Definition toString (s : var_state) : res str :=
  match ToStr (m_val (vs_var s)) with
  | Throw _ => Ret []
  | r => r
  end.

(** A listener runs on the rest of the program. *)
Definition call_back (cb : on_change_cb) (old new : T) : M var_state unit := fun s =>
  let '(r, w) := cb old new (vs_world s) in (r, mkVarState (vs_var s) (vs_fun_id s) w).

Fixpoint call_all (cbs : list (Z * on_change_cb)) (old new : T) : M var_state unit :=
  match cbs with
  | [] => mret tt
  | (_, cb) :: cbs' => call_back cb old new;; call_all cbs' old new
  end.

Definition setValue (v : T) : M var_state unit :=
  s ← get;
  if eqb v (m_val (vs_var s)) then mret tt
  else
    call_all (m_cbs (vs_var s)) (m_val (vs_var s)) v;;
    modify (set_val v).

Definition fromString (s : str) : M var_state bool :=
  try_catch (v ← lift_res (FromStr s); setValue v;; mret true) (fun _ => mret false).

(** [m_cbs[key] = cb] on the ordered map. *)
Fixpoint cbs_set (key : Z) (cb : on_change_cb) (l : list (Z * on_change_cb))
    : list (Z * on_change_cb) :=
  match l with
  | [] => [(key, cb)]
  | (k, c) :: l' => if Z.ltb key k then (key, cb) :: l
                    else if Z.eqb key k then (key, cb) :: l'
                    else (k, c) :: cbs_set key cb l'
  end.

Definition addListener (cb : on_change_cb) : M var_state Z :=
  modify (fun s => mkVarState (vs_var s) (u64 (vs_fun_id s + 1)) (vs_world s));;
  s ← get;
  modify (set_cbs (cbs_set (vs_fun_id s) cb (m_cbs (vs_var s))));;
  mret (vs_fun_id s).

Definition delListener (key : Z) : M var_state unit :=
  modify (fun s => set_cbs (filter (fun e => e.1 <> key) (m_cbs (vs_var s))) s).

Definition getListener (key : Z) (s : var_state) : option on_change_cb :=
  match list_find (fun e => e.1 = key) (m_cbs (vs_var s)) with
  | Some (_, e) => Some (snd e)
  | None => None
  end.

Definition clearListener : M var_state unit := modify (set_cbs []).
End ConfigVar.

(** ** The registry *)

(** The types a program instantiates the templates with: codes for [typeid], and for
    each the C++ type, its [==] and its conversions. *)
Class ConfigTypes := {
  ty : Type;
  ty_eq_dec :: EqDecision ty;
  value : ty -> Type;
  value_eqb : forall t, value t -> value t -> bool;
  value_from : forall t, str -> res (value t);
  value_to : forall t, value t -> res str
}.

(** The characters a name may have: the string the code compares with. *)
Definition name_chars : str := $"abcdefghikjlmnopqrstuvwxyz._012345678".
Definition valid_name (s : str) : bool := negb (has_char_not_of name_chars s).

Section Config.
Context `{Y : Yaml} `{CT : ConfigTypes} {W : Type}.

(** A [ConfigVarBase::ptr] points to a variable of some type. *)
Record var := mkConfigVar { var_ty : ty; var_cv : ConfigVar (T := value var_ty) (W := W) }.

(** The static data: the map [GetDatas()], the variables by address, the counters
    [s_fun_id] of the types, the map [s_file2modifytime], and the rest of the
    program. *)
Record config := mkConfig {
  s_datas : gmap str nat;
  s_vars : gmap nat var;
  s_next : nat;
  s_fun_ids : ty -> Z;
  s_file2modifytime : gmap str Z;
  s_world : W
}.

Definition set_var (p : nat) (v : var) (c : config) : config :=
  mkConfig (s_datas c) (<[p := v]> (s_vars c)) (s_next c) (s_fun_ids c) (s_file2modifytime c)
    (s_world c).
Definition set_times (m : gmap str Z) (c : config) : config :=
  mkConfig (s_datas c) (s_vars c) (s_next c) (s_fun_ids c) m (s_world c).

Definition deref_var (p : nat) : M config var := fun c =>
  match s_vars c !! p with
  | Some v => (Ret v, c)
  | None => (UB $"dangling variable", c)
  end.

(** [LookupBase]; the null pointer is [None]. *)
Definition LookupBase (name : str) : M config (option nat) := c ← get; mret (s_datas c !! name).

(** [std::dynamic_pointer_cast<ConfigVar<T>>]. *)
Definition dynamic_cast (t : ty) (p : nat) : M config (option nat) :=
  v ← deref_var p;
  mret (if decide (var_ty v = t) then Some p else None).

(** [getTypeName]: a [std::string] made of a null pointer throws. *)
Definition getTypeName (cxa_demangle : str -> option str) (typeid_name : ty -> str) (v : var) : res str :=
  match TypeToName cxa_demangle (typeid_name (var_ty v)) with
  | Some name => Ret name
  | None => Throw $"basic_string: construction from null is not valid"
  end.

(** [Lookup<T>(name, default_value, desc)]. *)
Definition Lookup (t : ty) (name : str) (default_value : value t) (desc : str)
    : M config (option nat) :=
  c ← get;
  match s_datas c !! name with
  | Some p => dynamic_cast t p
  | None =>
      if has_char_not_of name_chars name then raise ($"std::invalid_argument: " ++ name)
      else
        let p := s_next c in
        modify (fun c => mkConfig (<[name := p]> (s_datas c))
                  (<[p := mkConfigVar t (new_ConfigVar name default_value desc)]> (s_vars c))
                  (S p) (s_fun_ids c) (s_file2modifytime c) (s_world c));;
        mret (Some p)
  end.

(** [Lookup<T>(name)]. *)
Definition Lookup_only (t : ty) (name : str) : M config (option nat) :=
  c ← get;
  match s_datas c !! name with
  | None => mret None
  | Some p => dynamic_cast t p
  end.

(** The virtual call [var->fromString(val)]. *)
Definition var_fromString (p : nat) (val : str) : M config bool := fun c =>
  match s_vars c !! p with
  | None => (UB $"dangling variable", c)
  | Some v =>
      let t := var_ty v in
      let '(r, s) := fromString (value_eqb t) (value_from t) val
                       (mkVarState (var_cv v) (s_fun_ids c t) (s_world c)) in
      (r, mkConfig (s_datas c) (<[p := mkConfigVar t (vs_var s)]> (s_vars c)) (s_next c)
            (fun t' => if decide (t' = t) then vs_fun_id s else s_fun_ids c t')
            (s_file2modifytime c) (vs_world s))
  end.

(** ** Loading documents *)

Definition child_prefix (prefix : str) (key : node) : str :=
  match prefix with
  | [] => scalar_of key
  | _ => prefix ++ $"." ++ scalar_of key
  end.

Fixpoint ListAllMember (prefix : str) (n : node) (output : list (str * node))
    : list (str * node) :=
  if has_char_not_of name_chars prefix then output
  else
    let output := output ++ [(prefix, n)] in
    match n with
    | Map m =>
        (fix each (m : list (node * node)) (output : list (str * node)) :=
           match m with
           | [] => output
           | (k, v) :: m' => each m' (ListAllMember (child_prefix prefix k) v output)
           end) m output
    | _ => output
    end.

(** The text a variable is set from. *)
Definition node_text (n : node) : str :=
  match n with Scalar s => s | _ => yaml_emit n end.

Definition load_one (key : str) (n : node) : M config unit :=
  match key with
  | [] => mret tt
  | _ =>
      var ← LookupBase (map tolower key);
      match var with
      | Some p => var_fromString p (node_text n);; mret tt
      | None => mret tt
      end
  end.

Fixpoint load_loop (all_nodes : list (str * node)) : M config unit :=
  match all_nodes with
  | [] => mret tt
  | (key, n) :: rest => load_one key n;; load_loop rest
  end.

Definition LoadFromYaml (root : node) : M config unit := load_loop (ListAllMember [] root []).

(** The loop of [LoadFromConfDir] over the files, [mtime] being [st_mtime] as
    [lstat] delivers it (the call's result is not tested; when it fails, the value
    is whatever the memory held: [garbage]). *)
Definition file_time {D} `{Posix D} (d : D) (garbage : str -> Z) (file : str) : Z :=
  u64 (match os_lstat d file with Some (_, mtime) => mtime | None => garbage file end).

Fixpoint load_files {D} `{Posix D} (d : D) (garbage : str -> Z) (force : bool) (files : list str)
    : M config unit :=
  match files with
  | [] => mret tt
  | i :: rest =>
      c ← get;
      let mtime := file_time d garbage i in
      let known := default 0%Z (s_file2modifytime c !! i) in
      (if negb force then modify (set_times (<[i := known]> (s_file2modifytime c))) else mret tt);;
      (if negb force && Z.eqb known mtime then mret tt
       else
         modify (fun c => set_times (<[i := mtime]> (s_file2modifytime c)) c);;
         try_catch (root ← lift_res (yaml_load_file i); LoadFromYaml root) (fun _ => mret tt));;
      load_files d garbage force rest
  end.

(** [LoadFromConfDir]; [fuel] bounds the depth of the directories. *)
Definition LoadFromConfDir {D} `{Posix D} (fuel : nat) (d : D) (garbage : str -> Z) (env : Env)
    (path : str) (force : bool) : M config unit :=
  files ← lift_res (ListAllFile fuel d [] (getAbsolutePath path env) $".yml");
  load_files d garbage force files.

(** [Visit]: the callback on every variable, in the order of the container. *)
Fixpoint visit_all (cb : nat -> M W unit) (ps : list nat) : M config unit :=
  match ps with
  | [] => mret tt
  | p :: ps' =>
      (fun c => let '(r, w) := cb p (s_world c) in
                (r, mkConfig (s_datas c) (s_vars c) (s_next c) (s_fun_ids c)
                      (s_file2modifytime c) w));;
      visit_all cb ps'
  end.

Definition Visit (cb : nat -> M W unit) : M config unit :=
  c ← get; visit_all cb (snd <$> map_to_list (s_datas c)).

(** [ConfigVar<T>::getValue] through a typed pointer. *)
Definition typed_value (t : ty) (p : nat) : M config (value t) :=
  v ← deref_var p;
  match decide (var_ty v = t) with
  | left e => mret (eq_rect (var_ty v) value (m_val (var_cv v)) t e)
  | right _ => ub $"wrong type"
  end.

(** [Env::getAbsoluteWorkPath] (env.cc): the second component of the state is the
    function's static pointer, which the first call initialises; [string_ty] is the
    code of [std::string]. *)
Definition getAbsoluteWorkPath (string_ty : ty) (as_string : value string_ty -> str) (path : str)
    : M (config * option (option nat)) str := fun '(c, static) =>
  match path with
  | [] => (Ret $"/", (c, static))
  | a :: _ =>
      if decide (a = slash) then (Ret path, (c, static))
      else
        let '(r, c1) := match static with
                        | Some ptr => (Ret ptr, c)
                        | None => Lookup_only string_ty $"server.work_path" c
                        end in
        match r with
        | Ret (Some p) =>
            let '(v, c2) := typed_value string_ty p c1 in
            (x ← v; Ret (as_string x ++ [slash] ++ path), (c2, Some (Some p)))
        | Ret None => (UB $"null pointer", (c1, Some None))
        | Throw e => (Throw e, (c1, static))
        | Abort e => (Abort e, (c1, static))
        | UB e => (UB e, (c1, static))
        end
  end.
End Config.

(** ** Induction on nodes *)
Section node_induction.
Context (P : node -> Prop).
Context (HNull : P Null) (HScalar : forall s, P (Scalar s)).
Context (HSequence : forall l, Forall P l -> P (Sequence l)).
Context (HMap : forall m, Forall (fun e => P (fst e) /\ P (snd e)) m -> P (Map m)).

Fixpoint node_rec_prop (n : node) : P n :=
  match n with
  | Null => HNull
  | Scalar s => HScalar s
  | Sequence l =>
      HSequence l
        ((fix each (l : list node) : Forall P l :=
            match l with
            | [] => Forall_nil_2 P
            | n :: l' => Forall_cons_2 P n l' (node_rec_prop n) (each l')
            end) l)
  | Map m =>
      HMap m
        ((fix each (m : list (node * node)) : Forall (fun e => P (fst e) /\ P (snd e)) m :=
            match m with
            | [] => Forall_nil_2 _
            | (k, v) :: m' =>
                Forall_cons_2 _ (k, v) m' (conj (node_rec_prop k) (node_rec_prop v)) (each m')
            end) m)
  end.
End node_induction.

(** ** A concrete document language

    Nodes are written as numbers in binary: enough to show that the laws of
    [YamlLaws] can hold together. *)
Fixpoint node_tree (n : node) : gen_tree str :=
  match n with
  | Null => GenNode 0 []
  | Scalar s => GenLeaf s
  | Sequence l => GenNode 1 (map node_tree l)
  | Map m => GenNode 2 (map (fun e => GenNode 3 [node_tree (fst e); node_tree (snd e)]) m)
  end.

Fixpoint tree_node (t : gen_tree str) : node :=
  match t with
  | GenLeaf s => Scalar s
  | GenNode 1 l => Sequence (map tree_node l)
  | GenNode 2 m =>
      Map (map (fun e => match e with
                         | GenNode 3 [k; v] => (tree_node k, tree_node v)
                         | _ => (Null, Null)
                         end) m)
  | _ => Null
  end.

Lemma tree_node_tree n : tree_node (node_tree n) = n.
Proof.
  induction n as [|s|l Hl|m Hm] using node_rec_prop; simpl; [done|done| |].
  - f_equal. induction Hl as [|n l Hn _ IH]; simpl; [done|]. by rewrite Hn, IH.
  - f_equal. induction Hm as [|[k v] m [Hk Hv] _ IH]; simpl in *; [done|]. by rewrite Hk, Hv, IH.
Qed.

Fixpoint show_bits (p : positive) : str :=
  match p with
  | xH => []
  | xO p' => "0"%char :: show_bits p'
  | xI p' => "1"%char :: show_bits p'
  end.

Fixpoint read_bits (s : str) : positive :=
  match s with
  | [] => xH
  | c :: s' => if decide (c = "0"%char) then xO (read_bits s') else xI (read_bits s')
  end.

Lemma read_show_bits p : read_bits (show_bits p) = p.
Proof. induction p; simpl; by rewrite ?IHp. Qed.

Definition toy_load (s : str) : res node :=
  match decode (read_bits s) : option (gen_tree str) with
  | Some t => Ret (tree_node t)
  | None => Throw $"YAML::ParserException"
  end.

#[export] Instance toy_yaml : Yaml := {
  yaml_load := toy_load;
  yaml_load_file := toy_load;
  yaml_emit n := show_bits (encode (node_tree n));
  yaml_elements n := match n with Sequence l => l | _ => [] end;
  yaml_members n := match n with Map m => m | _ => [] end
}.

#[export] Instance toy_yaml_laws : YamlLaws.
Proof.
  split; [|done..]. intros n. simpl. unfold toy_load.
  by rewrite read_show_bits, decode_encode, tree_node_tree.
Qed.

(** ** Round trips of the casts *)
Section roundtrips.
Context {Y : Yaml} {L : YamlLaws} {T : Type}.
Context (from : str -> res T) (to : T -> res str).

(** An element survives its own cast and a document around it. *)
Definition stable (x : T) : Prop :=
  forall s n, to x = Ret s -> yaml_load s = Ret n -> from (yaml_emit n) = Ret x.

Lemma cast_loop_mapM {C} (insert : T -> C -> C) l ns c :
  Forall stable l -> mapM_res (fun x => s ← to x; yaml_load s) l = Ret ns ->
  cast_loop from insert ns c = Ret (fold_left (fun c x => insert x c) l c).
Proof using Type.
  intros Hl. revert ns c. induction Hl as [|x l Hx Hl IH]; intros ns c; simpl.
  - by intros [= <-].
  - unfold_M. destruct (to x) as [s|?|?|?] eqn:Hs; [|done..].
    destruct (yaml_load s) as [n|?|?|?] eqn:Hn; [|done..].
    destruct (mapM_res _ l) as [ns'|?|?|?] eqn:Hm; [|done..]. intros [= <-]. simpl. unfold_M.
    rewrite (Hx s n Hs Hn). by apply IH.
Qed.

Lemma print_cast {C} (insert : T -> C -> C) (empty : C) l s :
  Forall stable l -> print_sequence to l = Ret s ->
  cast_sequence from insert empty s = Ret (fold_left (fun c x => insert x c) l empty).
Proof using L.
  intros Hl. unfold print_sequence, cast_sequence. unfold_M.
  destruct (mapM_res _ l) as [ns|?|?|?] eqn:Hm; [|done..]. intros [= <-].
  rewrite load_emit, elements_sequence. by apply cast_loop_mapM.
Qed.

Lemma fold_push_back (l k : list T) : fold_left (fun c x => push_back x c) l k = k ++ l.
Proof using Type.
  revert k. induction l as [|x l IH]; intros k; simpl; [by rewrite app_nil_r|].
  rewrite IH. unfold push_back. by rewrite <- app_assoc.
Qed.

(** Strictly ascending lists. *)
Definition ascending {A} (lt : A -> A -> bool) (l : list A) : Prop :=
  StronglySorted (fun x y => lt x y = true /\ lt y x = false) l.

Lemma ascending_app {A} (lt : A -> A -> bool) l x l' :
  ascending lt (l ++ x :: l') -> Forall (fun y => lt y x = true /\ lt x y = false) l.
Proof using Type.
  induction l as [|y l IH]; intros H; [constructor|].
  apply StronglySorted_inv in H as [H Hy]. constructor; [|by apply IH].
  rewrite Forall_forall in Hy. apply Hy, elem_of_app. right. left.
Qed.

Lemma set_insert_last lt x (l : list T) :
  Forall (fun y => lt y x = true /\ lt x y = false) l -> set_insert lt x l = l ++ [x].
Proof using Type.
  induction 1 as [|y l [H1 H2] Hl IH]; simpl; [done|]. by rewrite H2, H1, IH.
Qed.

Lemma fold_set_insert lt (l k : list T) :
  ascending lt (k ++ l) -> fold_left (fun c x => set_insert lt x c) l k = k ++ l.
Proof using Type.
  revert k. induction l as [|x l IH]; intros k H; simpl; [by rewrite app_nil_r|].
  rewrite (set_insert_last lt x k) by (by eapply ascending_app).
  rewrite IH by (by rewrite <- app_assoc). by rewrite <- app_assoc.
Qed.

(** An unordered container keeps its elements, in an order of its own. *)
Lemma fold_place {A} (insert : A -> list A -> list A) (l k : list A) :
  (forall x c, x ∉ c -> insert x c ≡ₚ x :: c) -> NoDup (k ++ l) ->
  fold_left (fun c x => insert x c) l k ≡ₚ k ++ l.
Proof using Type.
  intros Hp. revert k. induction l as [|x l IH]; intros k H; simpl; [by rewrite app_nil_r|].
  assert (insert x k ≡ₚ x :: k) as E.
  { apply Hp. intros Hx. apply NoDup_app in H as (_ & H & _). apply (H x Hx). left. }
  rewrite IH; rewrite E; simpl; [by rewrite Permutation_middle|].
  by rewrite Permutation_middle.
Qed.

Lemma uset_insert_place eqb place x (c : list T) :
  (forall x c, place x c ≡ₚ x :: c) -> (forall x y, eqb x y = true -> x = y) -> x ∉ c ->
  uset_insert eqb place x c ≡ₚ x :: c.
Proof using Type.
  intros Hp He Hx. unfold uset_insert. destruct (existsb (eqb x) c) eqn:E; [|apply Hp].
  apply existsb_exists in E as (y & Hy & ->%He). by apply list_elem_of_In in Hy.
Qed.

Lemma fold_umap_insert place (l k : list (str * T)) :
  (forall e c, place e c ≡ₚ e :: c) -> NoDup (map fst (k ++ l)) ->
  fold_left (fun c e => umap_insert place (fst e) (snd e) c) l k ≡ₚ k ++ l.
Proof using Type.
  intros Hp. revert k. induction l as [|[a x] l IH]; intros k H; simpl; [by rewrite app_nil_r|].
  assert (umap_insert place a x k ≡ₚ (a, x) :: k) as E.
  { unfold umap_insert. destruct (existsb _ k) eqn:Hx; [|apply Hp].
    apply existsb_exists in Hx as (e & He & <-%bool_decide_eq_true). exfalso.
    rewrite map_app in H. apply NoDup_app in H as (_ & H & _). apply (H (fst e)); [|left].
    apply list_elem_of_In, in_map, He. }
  rewrite IH; rewrite E; simpl; [by rewrite Permutation_middle|].
  rewrite map_app in *. simpl in *. by rewrite Permutation_middle.
Qed.

Lemma node_set_new k n (ms : list (node * node)) :
  Forall (fun e => scalar_of (fst e) <> k) ms -> node_set k n ms = ms ++ [(Scalar k, n)].
Proof using Type.
  induction 1 as [|[k' n'] ms Hk Hms IH]; simpl; [done|]. simpl in Hk.
  rewrite decide_False by done. by rewrite IH.
Qed.

(** Printing distinct keys gives one entry per pair, which are cast one by one. *)
Lemma print_map_loop_cast {C} (insert : str -> T -> C -> C) l ms ms' c :
  Forall (fun e => stable (snd e)) l -> NoDup (map (fun e => scalar_of (fst e)) ms ++ map fst l) ->
  print_map_loop to l ms = Ret ms' ->
  exists new, ms' = ms ++ new /\
    cast_map_loop from insert new c = Ret (fold_left (fun c e => insert (fst e) (snd e) c) l c).
Proof using Type.
  intros Hl. revert ms c. induction Hl as [|[k x] l Hx Hl IH]; intros ms c Hnd; simpl in *.
  - intros [= <-]. exists []. by rewrite app_nil_r.
  - unfold_M. destruct (to x) as [s|?|?|?] eqn:Hs; [|done..].
    destruct (yaml_load s) as [n|?|?|?] eqn:Hn; [|done..]. intros Hp.
    rewrite node_set_new in Hp.
    2:{ apply Forall_forall. intros e He Heq. apply NoDup_app in Hnd as (_ & Hd & _).
        apply (Hd k); [|left]. rewrite <- Heq. apply list_elem_of_In.
        apply (in_map (fun e => scalar_of (fst e))). by apply list_elem_of_In. }
    destruct (IH (ms ++ [(Scalar k, n)]) (insert k x c)) as (new & -> & Hc); [|exact Hp|].
    { rewrite map_app, <- app_assoc. exact Hnd. }
    exists ((Scalar k, n) :: new). rewrite <- app_assoc. split; [done|]. simpl. unfold_M.
    by rewrite (Hx s n Hs Hn).
Qed.

Lemma print_cast_mapping {C} (insert : str -> T -> C -> C) (empty : C) l s :
  Forall (fun e => stable (snd e)) l -> NoDup (map fst l) -> print_mapping to l = Ret s ->
  cast_mapping from insert empty s = Ret (fold_left (fun c e => insert (fst e) (snd e) c) l empty).
Proof using L.
  intros Hl Hd. unfold print_mapping, cast_mapping. unfold_M.
  destruct (print_map_loop to l []) as [ms|?|?|?] eqn:Hp; [|done..]. intros [= <-].
  rewrite load_emit, members_map.
  destruct (print_map_loop_cast insert l [] ms empty Hl) as (new & -> & Hc); [exact Hd|exact Hp|].
  exact Hc.
Qed.

Lemma map_insert_last lt k x (l : list (str * T)) :
  Forall (fun e => lt (fst e) k = true /\ lt k (fst e) = false) l ->
  map_insert lt k x l = l ++ [(k, x)].
Proof using Type.
  induction 1 as [|[k' x'] l [H1 H2] Hl IH]; simpl in *; [done|]. by rewrite H2, H1, IH.
Qed.

Lemma fold_map_insert lt (l k : list (str * T)) :
  ascending lt (map fst (k ++ l)) ->
  fold_left (fun c e => map_insert lt (fst e) (snd e) c) l k = k ++ l.
Proof using Type.
  revert k. induction l as [|[a x] l IH]; intros k H; simpl; [by rewrite app_nil_r|].
  rewrite map_insert_last.
  - rewrite IH by (by rewrite <- app_assoc). by rewrite <- app_assoc.
  - rewrite map_app in H. simpl in H. apply ascending_app in H.
    rewrite Forall_forall in H. apply Forall_forall. intros e He. apply H. apply list_elem_of_In, in_map.
    by apply list_elem_of_In.
Qed.

Lemma ascending_NoDup {A} (lt : A -> A -> bool) l : (forall x, lt x x = false) -> ascending lt l -> NoDup l.
Proof using Type.
  intros Hi. induction 1 as [|x l Hl IH Hx]; constructor; [|done].
  intros Hin. rewrite Forall_forall in Hx. destruct (Hx x Hin) as [H _]. by rewrite Hi in H.
Qed.
End roundtrips.

(** ** The claims *)

(** C19.  The container casts are inverse to each other: when every element survives
    its own cast through a document, printing a vector, list, set (ascending) or
    map (ascending keys) and casting the text gives back the same container; an unordered
    set of different elements and an unordered map with different keys come back with the
    same elements, wherever the container places them. *)
Theorem cast_roundtrip (Y : Yaml) (L : YamlLaws) (T : Type) (from : str -> res T)
    (to : T -> res str) (lt eqb : T -> T -> bool) (key_lt : str -> str -> bool)
    (place : T -> list T -> list T) (place_pair : str * T -> list (str * T) -> list (str * T)) l m s :
  Forall (stable from to) l -> Forall (fun e => stable from to (snd e)) m ->
  (forall k, key_lt k k = false) -> (forall x y, eqb x y = true -> x = y) ->
  (forall x c, place x c ≡ₚ x :: c) -> (forall e c, place_pair e c ≡ₚ e :: c) ->
  (vector_to to l = Ret s -> vector_from from s = Ret l) /\
  (list_to to l = Ret s -> list_from from s = Ret l) /\
  (ascending lt l -> set_to to l = Ret s -> set_from from lt s = Ret l) /\
  (NoDup l -> uset_to to l = Ret s -> exists l', uset_from from eqb place s = Ret l' /\ l' ≡ₚ l) /\
  (ascending key_lt (map fst m) -> map_to to m = Ret s -> map_from from key_lt s = Ret m) /\
  (NoDup (map fst m) -> umap_to to m = Ret s ->
   exists m', umap_from from place_pair s = Ret m' /\ m' ≡ₚ m).
Proof.
  intros Hl Hm Hk He Hp Hpp. repeat split.
  - intros Hs. unfold vector_from. rewrite (print_cast _ _ _ _ l s Hl Hs). by rewrite fold_push_back.
  - intros Hs. unfold list_from. rewrite (print_cast _ _ _ _ l s Hl Hs). by rewrite fold_push_back.
  - intros Ha Hs. unfold set_from. rewrite (print_cast _ _ _ _ l s Hl Hs).
    by rewrite fold_set_insert.
  - intros Hd Hs. eexists. split; [exact (print_cast _ _ _ _ l s Hl Hs)|].
    apply fold_place; [|done]. intros x c. by apply uset_insert_place.
  - intros Ha Hs. unfold map_from. rewrite (print_cast_mapping _ _ _ _ m s Hm); [by rewrite fold_map_insert| |done].
    by eapply ascending_NoDup.
  - intros Hd Hs. eexists. split; [exact (print_cast_mapping _ _ _ _ m s Hm Hd Hs)|].
    by apply fold_umap_insert.
Qed.

(** Strings cast through scalar documents, ordered by length. *)
Definition sample_from (s : str) : res str := n ← yaml_load s; Ret (scalar_of n).
Definition sample_to (x : str) : res str := Ret (yaml_emit (Scalar x)).
Definition shorter (x y : str) : bool := (length x <? length y)%nat.

Lemma sample_stable x : stable sample_from sample_to x.
Proof.
  pose proof (load_emit (Scalar x)) as E. intros s n Hs Hn. injection Hs as <-.
  change (yaml_load (yaml_emit (Scalar x)) = Ret n) in Hn. rewrite E in Hn.
  injection Hn as <-.
  unfold sample_from. unfold_M. by rewrite E.
Qed.

Lemma cast_roundtrip_witness :
  exists s, set_to sample_to [$"a"; $"bc"] = Ret s /\
    set_from sample_from shorter s = Ret [$"a"; $"bc"] /\
    exists l, uset_from sample_from (fun x y => bool_decide (x = y)) cons s = Ret l /\ l ≡ₚ [$"a"; $"bc"].
Proof.
  destruct (cast_roundtrip toy_yaml toy_yaml_laws str sample_from sample_to shorter
    (fun x y => bool_decide (x = y)) shorter cons cons
    [$"a"; $"bc"] [] (match set_to sample_to [$"a"; $"bc"] with Ret s => s | _ => [] end))
    as (_ & _ & Hset & Huset & _).
  - repeat constructor; apply sample_stable.
  - constructor.
  - intros k. apply Nat.ltb_irrefl.
  - intros x y. apply bool_decide_eq_true_1.
  - done.
  - done.
  - eexists. split; [vm_compute; reflexivity|]. split.
    + apply Hset; [|by vm_compute]. repeat constructor.
    + apply Huset; [|by vm_compute]. apply (bool_decide_eq_true_1 _). by vm_compute.
Defined.

(** ** Listeners *)
Section listeners.
Context {T W : Type} (eqb : T -> T -> bool).
Local Abbreviation var_state := (var_state (T := T) (W := W)).
Local Abbreviation listeners := (list (Z * on_change_cb (T := T) (W := W))).

(** The keys are ascending and were handed out by the counter. *)
Definition keys_ok (s : var_state) : Prop :=
  ascending Z.ltb (map fst (m_cbs (vs_var s))) /\
  Forall (fun k => (0 < k <= vs_fun_id s)%Z) (map fst (m_cbs (vs_var s))).

Lemma cbs_set_last k cb (l : listeners) :
  Forall (fun e => (fst e < k)%Z) l -> cbs_set k cb l = l ++ [(k, cb)].
Proof using Type.
  induction 1 as [|[k' c'] l Hk Hl IH]; simpl in *; [done|].
  destruct (Z.ltb_spec k k'); [lia|]. destruct (Z.eqb_spec k k'); [lia|]. by rewrite IH.
Qed.

Lemma addListener_spec cb (s : var_state) :
  keys_ok s -> (0 <= vs_fun_id s < 2 ^ 64 - 1)%Z ->
  exists s', addListener cb s = (Ret (vs_fun_id s + 1)%Z, s') /\ keys_ok s' /\
    vs_fun_id s' = (vs_fun_id s + 1)%Z /\
    m_cbs (vs_var s') = m_cbs (vs_var s) ++ [((vs_fun_id s + 1)%Z, cb)] /\
    m_val (vs_var s') = m_val (vs_var s) /\ vs_world s' = vs_world s.
Proof using Type.
  intros [Ha Hk] Hid. unfold addListener. unfold_M. simpl. rewrite u64_small by lia.
  assert (Forall (fun e => (fst e < vs_fun_id s + 1)%Z) (m_cbs (vs_var s))) as Hlt.
  { clear -Hk. induction (m_cbs (vs_var s)) as [|[k c] l IH]; [constructor|].
    simpl in Hk. apply Forall_cons in Hk as [Hk Hl]. constructor; [simpl; lia|auto]. }
  rewrite (cbs_set_last _ _ _ Hlt). eexists. split; [done|]. split; [|done].
  split; simpl; rewrite map_app; simpl.
  - clear -Ha Hlt. induction (m_cbs (vs_var s)) as [|[k c] l IH]; simpl in *.
    { repeat constructor. }
    apply StronglySorted_inv in Ha as [Ha Hk]. apply Forall_cons in Hlt as [Hl Hlt].
    constructor; [by apply IH|]. apply Forall_app. split; [done|].
    constructor; [|constructor]. simpl in Hl. lia.
  - apply Forall_app. split; [|constructor; [lia|constructor]].
    eapply Forall_impl; [exact Hk|]. simpl. lia.
Qed.

Lemma keys_ok_sublist s (l : listeners) :
  keys_ok s -> map fst l `sublist_of` map fst (m_cbs (vs_var s)) -> keys_ok (set_cbs l s).
Proof using Type.
  intros [Ha Hk] Hs. split; simpl.
  - clear -Ha Hs. induction Hs as [|k l1 l2 Hs IH|k l1 l2 Hs IH]; [constructor| |].
    + apply StronglySorted_inv in Ha as [Ha Hx]. constructor; [by apply IH|].
      rewrite Forall_forall in Hx. apply Forall_forall. intros y Hy. apply Hx.
      by eapply elem_of_submseteq; [|apply sublist_submseteq].
    + apply StronglySorted_inv in Ha as [Ha _]. by apply IH.
  - rewrite Forall_forall in Hk. apply Forall_forall. intros y Hy. apply Hk.
    by eapply elem_of_submseteq; [|apply sublist_submseteq].
Qed.

Lemma delListener_spec key (s : var_state) :
  keys_ok s -> keys_ok (snd (delListener key s)).
Proof using Type.
  intros Hs. simpl. apply keys_ok_sublist; [done|].
  induction (m_cbs (vs_var s)) as [|[k c] l IH]; simpl; [constructor|].
  rewrite filter_cons. case_decide; simpl; [by constructor|by apply sublist_cons].
Qed.

(** What a call of [setValue] does with listeners that answer. *)
Lemma call_all_ret (cbs : listeners) old new (s : var_state) :
  Forall (fun e => forall w, exists w', snd e old new w = (Ret tt, w')) cbs ->
  call_all cbs old new s =
    (Ret tt, mkVarState (vs_var s) (vs_fun_id s)
               (fold_left (fun w e => snd (snd e old new w)) cbs (vs_world s))).
Proof using Type.
  intros H. revert s. induction H as [|[k cb] cbs Hcb Hcbs IH]; intros s; simpl; [by destruct s|].
  unfold_M. unfold call_back. destruct (Hcb (vs_world s)) as [w' Hw']. simpl in Hw'.
  rewrite Hw'. simpl. by rewrite IH.
Qed.
End listeners.

(** The operations on the listeners of a variable. *)
Inductive listener_op {T W : Type} : Type :=
| AddListener (cb : on_change_cb (T := T) (W := W))
| DelListener (key : Z)
| ClearListener.

Definition run_listener_op {T W} (o : listener_op (T := T) (W := W)) : M (var_state (T := T) (W := W)) unit :=
  match o with
  | AddListener cb => addListener cb;; mret tt
  | DelListener key => delListener key
  | ClearListener => clearListener
  end.

Fixpoint run_listener_ops {T W} (os : list (listener_op (T := T) (W := W)))
    : M (var_state (T := T) (W := W)) unit :=
  match os with
  | [] => mret tt
  | o :: os' => run_listener_op o;; run_listener_ops os'
  end.

(** Which listeners are left: those added, under the ids [addListener] counts up from
    [n], and neither removed by their id nor cleared away afterwards. *)
Fixpoint additions {T W} (os : list (listener_op (T := T) (W := W))) : Z :=
  match os with
  | [] => 0
  | AddListener _ :: os' => 1 + additions os'
  | _ :: os' => additions os'
  end.

Definition keeps {T W} (key : Z) (o : listener_op (T := T) (W := W)) : Prop :=
  match o with AddListener _ => True | DelListener k => k <> key | ClearListener => False end.

Definition listening {T W} (n : Z) (os : list (listener_op (T := T) (W := W))) (key : Z)
    (cb : on_change_cb (T := T) (W := W)) : Prop :=
  exists before after, os = before ++ AddListener cb :: after /\
    key = (n + additions before + 1)%Z /\ Forall (keeps key) after.

Lemma listening_add {T W} n (cb0 : on_change_cb (T := T) (W := W)) os key cb :
  listening n (AddListener cb0 :: os) key cb <->
  ((key, cb) = ((n + 1)%Z, cb0) /\ Forall (keeps key) os) \/ listening (n + 1) os key cb.
Proof.
  split.
  - intros ([|o before] & after & E & -> & Ha); injection E as E1 E2.
    + subst. left. split; [|done]. f_equal. simpl. lia.
    + subst. right. exists before, after. split; [done|]. split; [simpl; lia|done].
  - intros [[[= -> ->] Ha]|(before & after & -> & -> & Ha)].
    + exists [], os. split; [done|]. split; [simpl; lia|done].
    + exists (AddListener cb0 :: before), after. split; [done|]. split; [simpl; lia|done].
Qed.

Lemma listening_other {T W} n (o : listener_op (T := T) (W := W)) os key cb :
  (forall cb, o <> AddListener cb) -> listening n (o :: os) key cb <-> listening n os key cb.
Proof.
  intros Ho. split.
  - intros ([|o' before] & after & E & -> & Ha); injection E as E1 E2; [by destruct (Ho cb)|].
    subst. exists before, after. split; [done|]. split; [|done]. destruct o'; [by edestruct Ho|done..].
  - intros (before & after & -> & -> & Ha). exists (o :: before), after. split; [done|].
    split; [|done]. destruct o; [by edestruct Ho|done..].
Qed.

Lemma run_listener_ops_ok {T W} (os : list (listener_op (T := T) (W := W))) s :
  keys_ok s -> (0 <= vs_fun_id s)%Z -> (vs_fun_id s + Z.of_nat (length os) < 2 ^ 64)%Z ->
  exists s', run_listener_ops os s = (Ret tt, s') /\ keys_ok s' /\
    vs_fun_id s' = (vs_fun_id s + additions os)%Z /\
    (additions os <= Z.of_nat (length os))%Z /\ (0 <= additions os)%Z /\
    getValue s' = getValue s /\ vs_world s' = vs_world s /\
    forall key cb, (key, cb) ∈ m_cbs (vs_var s') <->
      ((key, cb) ∈ m_cbs (vs_var s) /\ Forall (keeps key) os) \/ listening (vs_fun_id s) os key cb.
Proof.
  revert s. induction os as [|o os IH]; intros s Hs H0 Hlen; simpl in *.
  { exists s. do 2 (split; [done|]). split; [lia|]. do 4 (split; [done|]). intros key cb. split; [by left|].
    intros [[? _]|([|] & after & [=] & _)]; done. }
  destruct o as [cb0|k0|]; simpl.
  - destruct (addListener_spec cb0 s Hs) as (s1 & Ha & Hs1 & Hid & Hcbs & Hv1 & Hw1); [lia|].
    unfold_M. unfold mbind, M_bind in Ha. rewrite Ha.
    destruct (IH s1) as (s' & Hrun & Hs' & Hid' & Hle & Hpos & Hv' & Hw' & Hin); [done|lia|lia|]. exists s'.
    split; [exact Hrun|]. split; [done|]. split; [lia|]. split; [lia|]. split; [lia|].
    unfold getValue in *. do 2 (split; [congruence|]).
    intros key cb. rewrite Hin, Hcbs, Hid, listening_add, elem_of_app, list_elem_of_singleton, Forall_cons. simpl. tauto.
  - unfold_M. set (s1 := snd (delListener k0 s)).
    destruct (IH s1) as (s' & Hrun & Hs' & Hid' & Hle & Hpos & Hv' & Hw' & Hin); [by apply delListener_spec|simpl; lia..|].
    exists s'. split; [exact Hrun|]. split; [done|]. split; [exact Hid'|]. split; [lia|]. do 3 (split; [done|]).
    intros key cb. rewrite Hin, listening_other, Forall_cons by done. simpl. rewrite list_elem_of_filter. simpl.
    split; intros [[H1 H2]|H]; naive_solver.
  - unfold_M. set (s1 := set_cbs [] s).
    destruct (IH s1) as (s' & Hrun & Hs' & Hid' & Hle & Hpos & Hv' & Hw' & Hin);
      [by apply keys_ok_sublist, sublist_nil_l|simpl; lia..|].
    exists s'. split; [exact Hrun|]. split; [done|]. split; [exact Hid'|]. split; [lia|]. do 3 (split; [done|]).
    intros key cb. rewrite Hin, listening_other, Forall_cons by done. simpl. rewrite elem_of_nil. tauto.
Qed.

(** [getListener] finds what is in the map. *)
Lemma getListener_spec {T W} key cb (s : var_state (T := T) (W := W)) :
  keys_ok s -> getListener key s = Some cb <-> (key, cb) ∈ m_cbs (vs_var s).
Proof.
  intros [Ha _]. apply (ascending_NoDup _ _ Z.ltb_irrefl) in Ha. unfold getListener.
  induction (m_cbs (vs_var s)) as [|[k c] l IH]; simpl; [by rewrite elem_of_nil|].
  simpl in Ha. apply NoDup_cons in Ha as [Hk Hl]. rewrite elem_of_cons. case_decide as E.
  - simpl in E. subst k. split; [intros [= ->]; by left|]. intros [[= ->]|Hin]; [done|].
    destruct Hk. exact (proj2 (list_elem_of_In _ _) (in_map fst _ _ (proj1 (list_elem_of_In _ _) Hin))).
  - rewrite <- (IH Hl). destruct (list_find _ l) as [[? ?]|]; simpl; split; try tauto.
    + intros [[= -> ->]|?]; [by destruct E|done].
    + intros [[= -> ->]|?]; [by destruct E|done].
Qed.

(** A listener that throws ends the calls. *)
Lemma call_all_throws {T W} (before after : list (Z * on_change_cb (T := T) (W := W))) k cb old new e s w :
  Forall (fun e => forall w, exists w', snd e old new w = (Ret tt, w')) before ->
  cb old new (fold_left (fun w e => snd (snd e old new w)) before (vs_world s)) = (Throw e, w) ->
  call_all (before ++ (k, cb) :: after) old new s = (Throw e, mkVarState (vs_var s) (vs_fun_id s) w).
Proof.
  intros Hb. revert s. induction Hb as [|[k0 cb0] before Hcb _ IH]; intros s Hthrow; cbn [app call_all].
  - simpl in Hthrow. unfold_M. unfold call_back. by rewrite Hthrow.
  - unfold_M. unfold call_back at 1. destruct (Hcb (vs_world s)) as [w' Hw']. simpl in Hw', Hthrow.
    rewrite Hw' in Hthrow |- *. exact (IH (mkVarState _ _ w') Hthrow).
Qed.

(** C20.  A change is told to every listener once, in the order of registration.
    After any sequence of [addListener], [delListener] and [clearListener] on a new
    variable (fewer than 2^64 of them, from any value of the counter) the listeners are
    exactly those added and since neither removed nor cleared away, under the ids that
    [addListener] answers, and kept in ascending order of these; [getListener] answers
    them, and the value has not changed.  [setValue] with an equal value does nothing;
    with another value it runs the listeners in that order with the old and the new
    value, and only then stores the value; when one of them throws, those after it are
    not told and the old value stays. *)
Theorem setValue_tells_listeners (T W : Type) (eqb : T -> T -> bool) name d desc n
    (os : list (listener_op (T := T) (W := W))) w0 :
  (0 <= n)%Z -> (n + Z.of_nat (length os) < 2 ^ 64 - 1)%Z ->
  exists s, run_listener_ops os (mkVarState (new_ConfigVar name d desc) n w0) = (Ret tt, s) /\
  getValue s = d /\ vs_world s = w0 /\
  ascending Z.ltb (map fst (m_cbs (vs_var s))) /\
  (forall key cb, (key, cb) ∈ m_cbs (vs_var s) <-> listening n os key cb) /\
  (forall key cb, getListener key s = Some cb <-> listening n os key cb) /\
  (forall cb, exists s', addListener cb s = (Ret (n + additions os + 1)%Z, s') /\
     m_cbs (vs_var s') = m_cbs (vs_var s) ++ [((n + additions os + 1)%Z, cb)]) /\
  (forall v, eqb v d = true -> setValue eqb v s = (Ret tt, s)) /\
  (forall v, eqb v d = false ->
   Forall (fun e => forall w, exists w', snd e d v w = (Ret tt, w')) (m_cbs (vs_var s)) ->
   exists s', setValue eqb v s = (Ret tt, s') /\ getValue s' = v /\
     m_cbs (vs_var s') = m_cbs (vs_var s) /\
     vs_world s' = fold_left (fun w e => snd (snd e d v w)) (m_cbs (vs_var s)) w0) /\
  (forall v before k cb after e w, eqb v d = false ->
   m_cbs (vs_var s) = before ++ (k, cb) :: after ->
   Forall (fun e => forall w, exists w', snd e d v w = (Ret tt, w')) before ->
   cb d v (fold_left (fun w e => snd (snd e d v w)) before w0) = (Throw e, w) ->
   exists s', setValue eqb v s = (Throw e, s') /\ vs_var s' = vs_var s /\ vs_world s' = w).
Proof.
  intros Hn Hlen.
  destruct (run_listener_ops_ok os (mkVarState (new_ConfigVar name d desc) n w0))
    as (s & Hrun & Hok & Hid & Hle & Hpos & Hv & Hw & Hin).
  { split; constructor. }
  { done. }
  { simpl. lia. }
  simpl in Hid. exists s. split; [exact Hrun|]. split; [exact Hv|]. split; [exact Hw|]. split; [apply Hok|].
  assert (forall key cb, (key, cb) ∈ m_cbs (vs_var s) <-> listening n os key cb) as Hlist.
  { intros key cb. rewrite Hin. simpl. rewrite elem_of_nil. tauto. }
  split; [exact Hlist|]. split; [intros key cb; rewrite getListener_spec by done; apply Hlist|].
  change (m_val (vs_var s) = d) in Hv. split; [|split; [|split]].
  - intros cb. destruct (addListener_spec cb s Hok) as (s' & Ha & _ & _ & Hcbs & _); [lia|].
    exists s'. rewrite Hid in Ha, Hcbs. by split.
  - intros v E. unfold setValue. unfold_M. by rewrite Hv, E.
  - intros v E Hcbs. unfold setValue. unfold_M. rewrite Hv, E, (call_all_ret _ _ _ _ Hcbs), Hw. by eexists.
  - intros v before k cb after e w E Hcbs Hb Hthrow. unfold setValue. unfold_M.
    assert (call_all (m_cbs (vs_var s)) d v s = (Throw e, mkVarState (vs_var s) (vs_fun_id s) w)) as C.
    { rewrite Hcbs. apply call_all_throws; [exact Hb|by rewrite Hw]. }
    rewrite Hv, E, C. by eexists.
Qed.

(** Two listeners that record what they are told. *)
Definition recorder (tag : nat) : on_change_cb (T := nat) (W := list (nat * nat * nat)) :=
  fun old new w => (Ret tt, w ++ [(tag, old, new)]).

Lemma setValue_tells_listeners_witness :
  let s := snd (run_listener_ops [AddListener (recorder 1); AddListener (recorder 2); DelListener 8; AddListener (recorder 3)]
                  (mkVarState (new_ConfigVar $"x" 3 []) 7 [])) in
  exists s', setValue Nat.eqb 4 s = (Ret tt, s') /\ getValue s' = 4 /\
    vs_world s' = [(2, 3, 4); (3, 3, 4)].
Proof.
  cbv zeta.
  destruct (setValue_tells_listeners nat (list (nat * nat * nat)) Nat.eqb $"x" 3 [] 7
    [AddListener (recorder 1); AddListener (recorder 2); DelListener 8; AddListener (recorder 3)] [])
    as (s & Hs & _ & _ & _ & _ & _ & _ & _ & H & _); [lia|simpl; lia|].
  rewrite Hs. vm_compute in Hs. injection Hs as <-. destruct (H 4) as (s' & Hs' & Hv & _ & Hw).
  - by vm_compute.
  - repeat constructor; intros w; by eexists.
  - exists s'. split; [exact Hs'|]. split; [exact Hv|]. rewrite Hw. by vm_compute.
Defined.

(** A listener that throws stops the change half-way: those before it have been told
    the new value, the variable keeps the old one, and [fromString] answers false. *)
Lemma fromString_listener_throws {T W} eqb from txt v (s s1 : var_state (T := T) (W := W)) e :
  from txt = Ret v -> eqb v (getValue s) = false ->
  call_all (m_cbs (vs_var s)) (getValue s) v s = (Throw e, s1) ->
  fromString eqb from txt s = (Ret false, s1).
Proof.
  intros Hf He Hc. unfold fromString, setValue, try_catch. unfold_M. rewrite Hf.
  unfold getValue in *. by rewrite He, Hc.
Qed.

(** ** The registry *)
Section registry.
Context `{Y : Yaml} `{CT : ConfigTypes} {W : Type}.
Local Abbreviation config := (config (W := W)).

(** Every name leads to its own variable. *)
Record reg_wf (c : config) : Prop := mkRegWf {
  reg_live : forall name p, s_datas c !! name = Some p ->
    is_Some (s_vars c !! p) /\ (p < s_next c)%nat;
  reg_injective : forall n1 n2 p,
    s_datas c !! n1 = Some p -> s_datas c !! n2 = Some p -> n1 = n2
}.

Lemma dynamic_cast_spec t p v (c : config) :
  s_vars c !! p = Some v ->
  dynamic_cast t p c = (Ret (if decide (var_ty v = t) then Some p else None), c).
Proof using Type. intros Hv. unfold dynamic_cast, deref_var. unfold_M. by rewrite Hv. Qed.

(** A registered name: the variable, or null when the type is another one. *)
Lemma Lookup_found t name d desc p v (c : config) :
  s_datas c !! name = Some p -> s_vars c !! p = Some v ->
  Lookup t name d desc c = (Ret (if decide (var_ty v = t) then Some p else None), c).
Proof using Type.
  intros Hn Hv. unfold Lookup. unfold_M. rewrite Hn. by apply dynamic_cast_spec.
Qed.

(** A new name. *)
Definition registered (t : ty) (name : str) (d : value t) (desc : str) (c : config) : config :=
  mkConfig (<[name := s_next c]> (s_datas c))
    (<[s_next c := mkConfigVar t (new_ConfigVar name d desc)]> (s_vars c))
    (S (s_next c)) (s_fun_ids c) (s_file2modifytime c) (s_world c).

Lemma Lookup_new t name d desc (c : config) :
  s_datas c !! name = None -> valid_name name = true ->
  Lookup t name d desc c = (Ret (Some (s_next c)), registered t name d desc c).
Proof using Type.
  intros Hn Hv%negb_true_iff. unfold Lookup. unfold_M. by rewrite Hn, Hv.
Qed.

Lemma registered_wf t name d desc (c : config) :
  reg_wf c -> s_datas c !! name = None -> reg_wf (registered t name d desc c).
Proof using Type.
  intros [Hl Hi] Hn. split; simpl.
  - intros name' p. rewrite lookup_insert_Some. intros [[<- <-]|[Hne Hp]].
    + rewrite lookup_insert_eq. split; [by eexists|lia].
    + destruct (Hl _ _ Hp) as [Hv Hlt]. rewrite lookup_insert_ne by lia. split; [done|lia].
  - intros n1 n2 p. rewrite !lookup_insert_Some.
    intros [[<- <-]|[Hne1 H1]] [[<- Heq]|[Hne2 H2]]; [done| | |by eapply Hi].
    + apply Hl in H2 as [_ ?]. lia.
    + subst p. apply Hl in H1 as [_ ?]. lia.
Qed.

(** Allowed characters are not changed by [tolower]. *)
Lemma tolower_valid s : valid_name s = true -> map tolower s = s.
Proof using Type.
  intros H%negb_true_iff. apply has_char_not_of_false in H.
  induction H as [|a s Ha _ IH]; simpl; [done|]. rewrite IH. f_equal.
  assert (Forall (fun a => tolower a = a) name_chars) as Hall by (by repeat constructor).
  rewrite Forall_forall in Hall. by apply Hall.
Qed.

(** ** The members of a document *)

(** The dotted path [key] leads from [n], reached by [prefix], to [x]; every prefix
    of it on the way is a valid name. *)
Inductive member : str -> node -> str -> node -> Prop :=
| member_self prefix n : valid_name prefix = true -> member prefix n prefix n
| member_child prefix m k v key x :
    valid_name prefix = true -> (k, v) ∈ m -> member (child_prefix prefix k) v key x ->
    member prefix (Map m) key x.

Lemma ListAllMember_member n : forall prefix output key x,
  (key, x) ∈ ListAllMember prefix n output <-> (key, x) ∈ output \/ member prefix n key x.
Proof using Type.
  induction n as [|s|l _|m Hm] using node_rec_prop; intros prefix output key x.
  1-3: simpl; destruct (has_char_not_of name_chars prefix) eqn:Hv;
    [split; [by left|]; intros [?|Hmem]; [done|]; inversion Hmem; subst;
       unfold valid_name in *; by rewrite Hv in *
    |rewrite elem_of_app, list_elem_of_singleton; split;
       [intros [?|[= -> ->]]; [by left|right; constructor; unfold valid_name; by rewrite Hv]
       |intros [?|Hmem]; [by left|]; inversion Hmem; subst; by right]].
  simpl. destruct (has_char_not_of name_chars prefix) eqn:Hv.
  { split; [by left|]. intros [?|Hmem]; [done|]. inversion Hmem; subst; unfold valid_name in *;
      by rewrite Hv in *. }
  assert (valid_name prefix = true) as Hvalid by (unfold valid_name; by rewrite Hv).
  assert (forall m', Forall (fun e => (forall prefix output key x,
      (key, x) ∈ ListAllMember prefix (fst e) output <-> (key, x) ∈ output \/ member prefix (fst e) key x) /\
      (forall prefix output key x,
      (key, x) ∈ ListAllMember prefix (snd e) output <-> (key, x) ∈ output \/ member prefix (snd e) key x)) m' ->
    forall output,
    (key, x) ∈ (fix each (m : list (node * node)) (output : list (str * node)) :=
           match m with
           | [] => output
           | (k, v) :: m' => each m' (ListAllMember (child_prefix prefix k) v output)
           end) m' output <->
    (key, x) ∈ output \/ exists k v, (k, v) ∈ m' /\ member (child_prefix prefix k) v key x) as Heach.
  { intros m' Hm'. induction Hm' as [|[k v] m' [_ Hkv] _ IH]; intros out.
    - split; [by left|]. intros [?|(k & v & Hin & _)]; [done|]. by apply not_elem_of_nil in Hin.
    - rewrite IH, Hkv. simpl. split.
      + intros [[?|Hmem]|(k' & v' & Hin & Hmem)]; [by left| |].
        * right. exists k, v. split; [left|done].
        * right. exists k', v'. split; [by right|done].
      + intros [?|(k' & v' & [[= -> ->]|Hin]%elem_of_cons & Hmem)]; [by left; left|by left; right|].
        right. by exists k', v'. }
  rewrite Heach by exact Hm. rewrite elem_of_app, list_elem_of_singleton. split.
  - intros [[?|[= -> ->]]|(k & v & Hin & Hmem)]; [by left|right; by constructor|].
    right. by eapply member_child.
  - intros [?|Hmem]; [by left; left|]. inversion Hmem; subst; [left; by right|right; eauto].
Qed.

Lemma member_valid prefix n key x : member prefix n key x -> valid_name key = true.
Proof using Type. by induction 1. Qed.
End registry.

(** The characters that names are made of: lower-case letters, the digits but nine, the
    full stop and the underscore. *)
Definition name_char_code (a : ascii) : bool :=
  let n := nat_of_ascii a in
  (Nat.leb 97 n && Nat.leb n 122) || (Nat.leb 48 n && Nat.leb n 56) || Nat.eqb n 46 || Nat.eqb n 95.

Lemma name_chars_spec a : a ∈ name_chars <-> name_char_code a = true.
Proof.
  rewrite <- (bool_decide_spec (a ∈ name_chars)).
  destruct a as [[] [] [] [] [] [] [] []]; vm_compute; by split.
Qed.

Lemma Lookup_only_found `{Y : Yaml} `{CT : ConfigTypes} {W : Type} t name p v (c : config (W := W)) :
  s_datas c !! name = Some p -> s_vars c !! p = Some v ->
  Lookup_only t name c = (Ret (if decide (var_ty v = t) then Some p else None), c).
Proof. intros Hn Hv. unfold Lookup_only. unfold_M. rewrite Hn. by apply dynamic_cast_spec. Qed.

(** C27.  The registry.  A name that is not registered and consists of the valid characters
    (lower-case letters, the digits zero to eight, full stop and underscore) is
    registered with its default value; from then on every lookup of the name, with or
    without a default, gives the same variable, or null when it asks for another
    type; the names registered before keep their variables.  A name with any other
    character throws and changes nothing; the digit nine is one of these, although the
    documentation allows all digits: the list of characters leaves it out.  The lookup
    without a default answers null for a name that is not registered. *)
Theorem Lookup_registers (Y : Yaml) (CT : ConfigTypes) (W : Type) (c : config (W := W))
    t name d desc :
  reg_wf c -> s_datas c !! name = None ->
  Lookup_only t name c = (Ret None, c) /\
  ((forall a, a ∈ name -> name_char_code a = true) ->
   exists p c', Lookup t name d desc c = (Ret (Some p), c') /\ reg_wf c' /\
     s_vars c' !! p = Some (mkConfigVar t (new_ConfigVar name d desc)) /\
     (forall d2 desc2, Lookup t name d2 desc2 c' = (Ret (Some p), c')) /\
     (forall t' d2 desc2, t' <> t -> Lookup t' name d2 desc2 c' = (Ret None, c')) /\
     (forall t', Lookup_only t' name c' = (Ret (if decide (t' = t) then Some p else None), c')) /\
     (forall name' p', s_datas c !! name' = Some p' ->
        s_datas c' !! name' = Some p' /\ s_vars c' !! p' = s_vars c !! p')) /\
  (forall a, a ∈ name -> name_char_code a = false ->
   exists msg, Lookup t name d desc c = (Throw msg, c)).
Proof.
  intros Hwf Hn. split; [unfold Lookup_only; unfold_M; by rewrite Hn|]. split.
  - intros Hchars. assert (valid_name name = true) as Hv.
    { apply negb_true_iff, has_char_not_of_false, Forall_forall. intros a Ha. by apply name_chars_spec, Hchars. }
    exists (s_next c), (registered t name d desc c).
    assert (s_datas (registered t name d desc c) !! name = Some (s_next c)) as Hd
      by (simpl; by rewrite lookup_insert_eq).
    assert (s_vars (registered t name d desc c) !! s_next c =
      Some (mkConfigVar t (new_ConfigVar name d desc))) as Hvar
      by (simpl; by rewrite lookup_insert_eq).
    split; [by apply Lookup_new|]. split; [by apply registered_wf|]. split; [done|].
    split; [|split; [|split]].
    + intros d2 desc2. rewrite (Lookup_found _ _ _ _ _ _ _ Hd Hvar). simpl. by rewrite decide_True.
    + intros t' d2 desc2 Hne. rewrite (Lookup_found _ _ _ _ _ _ _ Hd Hvar). simpl.
      by rewrite decide_False.
    + intros t'. rewrite (Lookup_only_found _ _ _ _ _ Hd Hvar). simpl. by do 2 case_decide.
    + intros name' p' Hp. simpl. destruct (reg_live _ Hwf _ _ Hp) as [_ Hlt].
      rewrite lookup_insert_ne by congruence. split; [done|]. rewrite lookup_insert_ne; [done|lia].
  - intros a Ha Hbad. exists ($"std::invalid_argument: " ++ name). unfold Lookup. unfold_M. rewrite Hn.
    destruct (has_char_not_of name_chars name) eqn:Hv; [done|].
    apply has_char_not_of_false in Hv. rewrite Forall_forall in Hv. specialize (Hv _ Ha).
    apply name_chars_spec in Hv. congruence.
Qed.

(** Two C++ types, for the witnesses: strings as they are, and strings that must not
    be empty. *)
#[export] Instance sample_types : ConfigTypes := {
  ty := bool;
  ty_eq_dec := _;
  value _ := str;
  value_eqb _ x y := bool_decide (x = y);
  value_from b s := if b then Ret s else match s with [] => Throw $"bad_lexical_cast" | _ => Ret s end;
  value_to _ x := Ret x
}.

Definition empty_config : config (CT := sample_types) (W := unit) :=
  mkConfig ∅ ∅ 0 (fun _ => 0%Z) ∅ tt.

Lemma empty_config_wf : reg_wf empty_config.
Proof. split; by intros *; rewrite ?lookup_empty. Qed.

Lemma Lookup_registers_witness :
  exists p c', Lookup (CT := sample_types) true $"system.port" $"80" $"" empty_config = (Ret (Some p), c') /\
    Lookup (CT := sample_types) false $"system.port" $"80" $"" c' = (Ret None, c').
Proof.
  destruct (Lookup_registers toy_yaml sample_types unit empty_config true $"system.port" $"80" $"")
    as (_ & H & _).
  - apply empty_config_wf.
  - reflexivity.
  - destruct H as (p & c' & H1 & _ & _ & _ & H2 & _).
    { apply Forall_forall. repeat constructor. }
    exists p, c'. split; [exact H1|]. by apply H2.
Defined.

(** ** What loading a document changes *)
Section loading.
Context `{Y : Yaml} `{CT : ConfigTypes} {W : Type}.
Local Abbreviation config := (config (W := W)).

Lemma call_all_keeps_var {T} (cbs : list (Z * on_change_cb (T := T) (W := W))) old new s r s' :
  call_all cbs old new s = (r, s') -> vs_var s' = vs_var s.
Proof using Type.
  revert s. induction cbs as [|[k cb] cbs IH]; intros s; simpl.
  - by intros [= _ <-].
  - unfold_M. unfold call_back. destruct (cb old new (vs_world s)) as [[[]|?|?|?] w]; simpl.
    + by intros H%IH.
    + by intros [= _ <-].
    + by intros [= _ <-].
    + by intros [= _ <-].
Qed.

Lemma fromString_value {T} eqb from txt (s : var_state (T := T) (W := W)) r s' :
  fromString eqb from txt s = (r, s') ->
  getValue s' = getValue s \/ from txt = Ret (getValue s').
Proof using Type.
  unfold fromString, setValue, try_catch, getValue. unfold_M.
  destruct (from txt) as [v|?|?|?] eqn:Hf; simpl; [|intros [= _ <-]; by left..].
  destruct (eqb v (m_val (vs_var s))); [intros [= _ <-]; by left|].
  destruct (call_all _ _ _ s) as [[[]|?|?|?] s1] eqn:Hc; apply call_all_keeps_var in Hc;
    intros [= _ <-]; simpl; rewrite ?Hc; [by right|by left..].
Qed.

(** A variable without listeners takes the value of the text. *)
Lemma fromString_sets {T} eqb from txt v (s : var_state (T := T) (W := W)) :
  m_cbs (vs_var s) = [] -> from txt = Ret v -> eqb v (getValue s) = false ->
  fromString eqb from txt s = (Ret true, set_val v s).
Proof using Type.
  intros Hc Hf He. unfold fromString, setValue, try_catch, getValue in *. unfold_M.
  by rewrite Hf, He, Hc.
Qed.

Lemma var_fromString_frame p txt (c : config) r c' :
  var_fromString p txt c = (r, c') ->
  s_datas c' = s_datas c /\ s_file2modifytime c' = s_file2modifytime c /\
  (forall q, q <> p -> s_vars c' !! q = s_vars c !! q) /\
  forall t cv, s_vars c !! p = Some (mkConfigVar t cv) -> exists cv',
    s_vars c' !! p = Some (mkConfigVar t cv') /\
    (m_val cv' = m_val cv \/ value_from t txt = Ret (m_val cv')).
Proof using Type.
  unfold var_fromString. destruct (s_vars c !! p) as [[t cv]|] eqn:Hp; simpl.
  - destruct (fromString _ _ _ _) as [r0 s] eqn:Hf. intros [= _ <-]. simpl.
    apply fromString_value in Hf. do 2 (split; [done|]). split.
    + intros q Hq. by rewrite lookup_insert_ne.
    + intros t' cv' Heq. injection Heq as <- H.
      apply Eqdep_dec.inj_pair2_eq_dec in H; [|apply ty_eq_dec]. subst cv'. exists (vs_var s). split; [by rewrite lookup_insert_eq|]. exact Hf.
  - intros [= _ <-]. do 3 (split; [done|]). naive_solver.
Qed.

(** The value a variable has after texts are loaded into it one after the other: a text
    that does not convert is skipped. *)
Definition load_text {T} (eqb : T -> T -> bool) (from : str -> res T) (old : T) (txt : str) : T :=
  match from txt with
  | Ret v => if eqb v old then old else v
  | _ => old
  end.

(** The listeners return, whatever they are told. *)
Definition listeners_return {T} (cbs : list (Z * on_change_cb (T := T) (W := W))) : Prop :=
  Forall (fun e => forall old new w, exists w', snd e old new w = (Ret tt, w')) cbs.

Lemma fromString_exact {T} eqb from txt b (s s' : var_state (T := T) (W := W)) :
  listeners_return (m_cbs (vs_var s)) -> fromString eqb from txt s = (Ret b, s') ->
  vs_var s' = mkVar (cv_name (vs_var s)) (cv_description (vs_var s))
                (load_text eqb from (m_val (vs_var s)) txt) (m_cbs (vs_var s)).
Proof using Type.
  unfold listeners_return, fromString, setValue, try_catch, load_text. intros Hcbs. unfold_M.
  destruct (from txt) as [v|?|?|?] eqn:Hf; simpl; [|intros [= _ <-]; by destruct (vs_var s)|done..].
  destruct (eqb v (m_val (vs_var s))); [intros [= _ <-]; by destruct (vs_var s)|].
  rewrite call_all_ret; [by intros [= _ <-]|]. eapply Forall_impl; [exact Hcbs|]. intros e He w. apply He.
Qed.

Lemma var_fromString_exact p txt (c : config) t cv b c' :
  s_vars c !! p = Some (mkConfigVar t cv) -> listeners_return (m_cbs cv) ->
  var_fromString p txt c = (Ret b, c') ->
  s_vars c' !! p = Some (mkConfigVar t (mkVar (cv_name cv) (cv_description cv)
    (load_text (value_eqb t) (value_from t) (m_val cv) txt) (m_cbs cv))).
Proof using Type.
  intros Hp Hcbs. unfold var_fromString. rewrite Hp. simpl.
  destruct (fromString _ _ _ _) as [r0 s] eqn:Hf. intros [= -> <-]. simpl.
  apply fromString_exact in Hf; [|exact Hcbs]. rewrite lookup_insert_eq, Hf. done.
Qed.

(** What one member, and the loop over members with valid names, do to the variable
    [p] of type [t] registered under [name]. *)
Section one_variable.
Context (p : nat) (name : str) (t : ty) (D : gmap str nat).
Context (Hp : D !! name = Some p) (Hinj : forall n, D !! n = Some p -> n = name).

Lemma load_one_var k n (c : config) cv r c' :
  valid_name k = true -> s_datas c = D -> s_vars c !! p = Some (mkConfigVar t cv) ->
  load_one k n c = (r, c') ->
  s_datas c' = D /\ s_file2modifytime c' = s_file2modifytime c /\
  exists cv', s_vars c' !! p = Some (mkConfigVar t cv') /\
    (m_val cv' = m_val cv \/ (k = name /\ value_from t (node_text n) = Ret (m_val cv'))) /\
    (k <> name -> cv' = cv).
Proof using Hp Hinj.
  intros Hk HD Hv.
  assert (s_datas c = D /\ s_file2modifytime c = s_file2modifytime c /\
    exists cv', s_vars c !! p = Some (mkConfigVar t cv') /\
      (m_val cv' = m_val cv \/ (k = name /\ value_from t (node_text n) = Ret (m_val cv'))) /\
      (k <> name -> cv' = cv)) as Hsame.
  { do 2 (split; [done|]). exists cv. split; [done|]. by split; [left|]. }
  unfold load_one. destruct k as [|a k]; [by intros [= _ <-]|].
  unfold LookupBase. unfold_M. rewrite (tolower_valid _ Hk), HD.
  destruct (D !! (a :: k)) as [q|] eqn:Hq; [|by intros [= _ <-]].
  destruct (var_fromString q (node_text n) c) as [r0 c1] eqn:Hf. intros Hr.
  assert (c' = c1) as -> by (by destruct r0; injection Hr).
  pose proof (var_fromString_frame _ _ _ _ _ Hf) as (Hd & Htm & Hfr & Hat).
  split; [congruence|]. split; [done|]. destruct (decide (q = p)) as [->|Hqp].
  - apply Hinj in Hq. destruct (Hat t cv Hv) as (cv1 & Hv1 & Hval1). exists cv1.
    split; [done|]. split; [|done]. destruct Hval1; [by left|by right].
  - exists cv. rewrite Hfr by done. split; [done|]. by split; [left|].
Qed.

Lemma load_loop_var (l : list (str * node)) :
  Forall (fun e => valid_name (fst e) = true) l ->
  forall (c : config) cv r c',
  s_datas c = D -> s_vars c !! p = Some (mkConfigVar t cv) ->
  load_loop l c = (r, c') ->
  exists cv', s_vars c' !! p = Some (mkConfigVar t cv') /\
    (m_val cv' = m_val cv \/
     exists n, (name, n) ∈ l /\ value_from t (node_text n) = Ret (m_val cv')) /\
    ((forall n, (name, n) ∉ l) -> cv' = cv).
Proof using Hp Hinj.
  intros Hl. induction Hl as [|[k n] l Hk Hl IH]; intros c cv r c' HD Hv; simpl.
  { intros [= _ <-]. exists cv. split; [done|]. by split; [left|]. }
  unfold mbind, M_bind. destruct (load_one k n c) as [r1 c1] eqn:H1. intros Hr.
  destruct (load_one_var k n c cv r1 c1 Hk HD Hv H1) as (HD1 & Ht1 & cv1 & Hv1 & Hval1 & Hne1).
  assert (exists cv', s_vars c' !! p = Some (mkConfigVar t cv') /\
    (m_val cv' = m_val cv1 \/
     exists n, (name, n) ∈ l /\ value_from t (node_text n) = Ret (m_val cv')) /\
    ((forall n, (name, n) ∉ l) -> cv' = cv1)) as (cv' & Hv' & Hval' & Hne').
  { destruct r1; [by eapply IH| | |];
      injection Hr as _ <-; exists cv1; (split; [done|]); by split; [left|]. }
  exists cv'. split; [done|]. split.
  - destruct Hval' as [-> | (n' & Hn' & Hf)].
    + destruct Hval1 as [-> | [-> Hf]]; [by left|]. right. exists n. split; [left|done].
    + right. exists n'. split; [by right|done].
  - intros Hno. rewrite Hne', Hne1; [done| |].
    + intros ->. apply (Hno n). left.
    + intros n' Hin. apply (Hno n'). by right.
Qed.

(** The nodes under a name, and the value they leave. *)
Definition nodes_named (l : list (str * node)) : list node := snd <$> filter (fun e => e.1 = name) l.
Definition loaded_value (l : list (str * node)) : value t -> value t :=
  fold_left (load_text (value_eqb t) (value_from t)) (node_text <$> nodes_named l).

Lemma load_one_exact k n (c : config) cv c' :
  name <> [] -> valid_name k = true -> s_datas c = D -> s_vars c !! p = Some (mkConfigVar t cv) ->
  listeners_return (m_cbs cv) -> load_one k n c = (Ret tt, c') ->
  s_datas c' = D /\
  s_vars c' !! p = Some (mkConfigVar t (mkVar (cv_name cv) (cv_description cv)
    (loaded_value [(k, n)] (m_val cv)) (m_cbs cv))).
Proof using Hp Hinj.
  intros Hname Hk HD Hv Hcbs Hl.
  destruct (load_one_var k n c cv _ c' Hk HD Hv Hl) as (HD' & _ & cv' & Hv' & _ & Hother).
  split; [exact HD'|]. unfold loaded_value, nodes_named. rewrite filter_cons. simpl.
  case_decide as E; simpl; [|rewrite Hv', (Hother E); by destruct cv].
  subst k. clear Hv' Hother. unfold load_one in Hl. destruct name as [|a rest] eqn:En; [done|].
  unfold LookupBase in Hl. revert Hl. unfold_M. rewrite (tolower_valid _ Hk), HD, Hp.
  destruct (var_fromString p (node_text n) c) as [r0 c1] eqn:Hf. destruct r0; [|done..].
  intros [= <-]. exact (var_fromString_exact _ _ _ _ _ _ _ Hv Hcbs Hf).
Qed.

Lemma load_loop_exact (l : list (str * node)) :
  name <> [] -> Forall (fun e => valid_name (fst e) = true) l ->
  forall (c : config) cv c',
  s_datas c = D -> s_vars c !! p = Some (mkConfigVar t cv) -> listeners_return (m_cbs cv) ->
  load_loop l c = (Ret tt, c') ->
  s_vars c' !! p = Some (mkConfigVar t (mkVar (cv_name cv) (cv_description cv)
    (loaded_value l (m_val cv)) (m_cbs cv))).
Proof using Hp Hinj.
  intros Hname Hl. induction Hl as [|[k n] l Hk Hl IH]; intros c cv c' HD Hv Hcbs; simpl.
  { intros [= <-]. rewrite Hv. by destruct cv. }
  intros Hr. apply bind_inv in Hr as ([] & c1 & H1 & Hr).
  destruct (load_one_exact k n c cv c1 Hname Hk HD Hv Hcbs H1) as [HD1 Hv1].
  rewrite (IH c1 _ c' HD1 Hv1 Hcbs Hr). simpl. do 3 f_equal.
  unfold loaded_value, nodes_named. rewrite !filter_cons. simpl. by case_decide.
Qed.
End one_variable.

Lemma load_one_times k n (c : config) r c' :
  load_one k n c = (r, c') -> s_file2modifytime c' = s_file2modifytime c.
Proof using Type.
  unfold load_one. destruct k as [|a k]; [by intros [= _ <-]|].
  unfold LookupBase. unfold_M. destruct (s_datas c !! _) as [q|]; [|by intros [= _ <-]].
  destruct (var_fromString q (node_text n) c) as [r0 c1] eqn:Hf. intros Hr.
  assert (c' = c1) as -> by (by destruct r0; injection Hr).
  by pose proof (var_fromString_frame _ _ _ _ _ Hf) as (_ & Htm & _).
Qed.

Lemma load_loop_times l (c : config) r c' :
  load_loop l c = (r, c') -> s_file2modifytime c' = s_file2modifytime c.
Proof using Type.
  revert c. induction l as [|[k n] l IH]; intros c; simpl; [by intros [= _ <-]|].
  unfold mbind, M_bind. destruct (load_one k n c) as [r1 c1] eqn:H1.
  apply load_one_times in H1. intros Hr. rewrite <- H1.
  destruct r1; [by apply IH|by injection Hr as _ <-..].
Qed.

(** One file: its time is recorded, and no other. *)
Lemma load_files_cons {D} `{Posix D} (d : D) garbage force i files (c : config) c' :
  load_files d garbage force (i :: files) c = (Ret tt, c') ->
  exists c1, load_files d garbage force files c1 = (Ret tt, c') /\
    s_file2modifytime c1 !! i = Some (file_time d garbage i) /\
    forall j, j <> i -> s_file2modifytime c1 !! j = s_file2modifytime c !! j.
Proof using Type.
  simpl. intros Hl. apply bind_inv in Hl as (c0 & c1 & [= <- <-] & Hl).
  set (known := default 0%Z (s_file2modifytime c !! i)) in *.
  set (mtime := file_time d garbage i) in *.
  apply bind_inv in Hl as ([] & c1 & H1 & Hl).
  assert (c1 = if force then c else set_times (<[i := known]> (s_file2modifytime c)) c) as Hc1.
  { destruct force; by injection H1. }
  clear H1. apply bind_inv in Hl as ([] & c2 & H2 & Hl). exists c2. split; [done|].
  destruct (negb force && Z.eqb known mtime) eqn:Hskip.
  - injection H2 as <-. apply andb_true_iff in Hskip as [Hf Heq]. destruct force; [done|].
    apply Z.eqb_eq in Heq. subst c1. simpl. rewrite lookup_insert_eq, Heq. split; [done|].
    intros j Hj. by rewrite lookup_insert_ne.
  - apply bind_inv in H2 as ([] & c3 & [= <-] & H2).
    assert (s_file2modifytime c2 = <[i := mtime]> (s_file2modifytime c1)) as Ht.
    { unfold try_catch in H2. unfold mbind, M_bind, lift_res in H2.
      destruct (yaml_load_file i) as [root|e|e|e]; try done; [|by injection H2 as <-].
      destruct (LoadFromYaml root _) as [r4 c4] eqn:H4.
      assert (c4 = c2) as -> by (by destruct r4; injection H2).
      unfold LoadFromYaml in H4. by apply load_loop_times in H4. }
    rewrite Ht, lookup_insert_eq. split; [done|]. intros j Hj.
    rewrite lookup_insert_ne by done. subst c1. destruct force; [done|]. simpl.
    by rewrite lookup_insert_ne.
Qed.

Lemma load_files_known {D} `{Posix D} (d : D) garbage force files : forall (c : config) c',
  load_files d garbage force files c = (Ret tt, c') ->
  forall i, i ∈ files \/ s_file2modifytime c !! i = Some (file_time d garbage i) ->
  s_file2modifytime c' !! i = Some (file_time d garbage i).
Proof using Type.
  induction files as [|i files IH]; intros c c' Hl j Hj.
  - injection Hl as <-. destruct Hj as [Hj|Hj]; [by apply not_elem_of_nil in Hj|done].
  - apply load_files_cons in Hl as (c1 & Hl & Hi & Hother). apply (IH c1 c' Hl).
    destruct (decide (j = i)) as [->|Hne]; [by right|].
    rewrite elem_of_cons in Hj. rewrite Hother by done. destruct Hj as [[?|?]|?]; auto. done.
Qed.

Lemma set_times_same (c : config) : set_times (s_file2modifytime c) c = c.
Proof using Type. by destruct c. Qed.

Lemma load_files_all_known {D} `{Posix D} (d : D) garbage files (c : config) :
  (forall i, i ∈ files -> s_file2modifytime c !! i = Some (file_time d garbage i)) ->
  load_files d garbage false files c = (Ret tt, c).
Proof using Type.
  induction files as [|i files IH]; intros Hall; [done|]. simpl. unfold_M. simpl.
  rewrite (Hall i) by left. simpl. rewrite Z.eqb_refl.
  rewrite insert_id by (apply Hall; left). rewrite set_times_same.
  apply IH. intros j Hj. apply Hall. by right.
Qed.

Lemma members_valid root (e : str * node) :
  e ∈ ListAllMember [] root [] -> valid_name (fst e) = true.
Proof using Type.
  destruct e as [k x]. rewrite ListAllMember_member.
  intros [H|H]; [by apply not_elem_of_nil in H|]. by eapply member_valid.
Qed.
End loading.


(** Configuration directories are read once.  After a run of [LoadFromConfDir]
    over some files a second run on the unchanged files, not forced, does nothing
    at all, the files that failed to load the first time included: they are not
    tried again until their modification time changes. *)
Theorem reload_is_noop (Y : Yaml) (CT : ConfigTypes) (W D : Type) (os : Posix D)
    (c : config (W := W)) d garbage force files c' :
  load_files d garbage force files c = (Ret tt, c') ->
  load_files d garbage false files c' = (Ret tt, c').
Proof.
  intros H. apply load_files_all_known. intros i Hi.
  eapply load_files_known; [exact H|by left].
Qed.

(** A program with one variable, and a document that sets it. *)
Definition port_config : config (CT := sample_types) (W := unit) :=
  registered true $"system.port" $"80" $"" empty_config.
Definition port_document : node :=
  Map [(Scalar $"system", Map [(Scalar $"port", Scalar $"8080"); (Scalar $"Host", Scalar $"x")])].


Lemma reload_is_noop_witness :
  let d := conf_fs in
  let c' := snd (load_files d (fun _ => 0%Z) true [$"conf/a.yml"; $"conf/sub/b.yml"] port_config) in
  load_files d (fun _ => 0%Z) false [$"conf/a.yml"; $"conf/sub/b.yml"] c' = (Ret tt, c').
Proof.
  cbv zeta.
  apply (reload_is_noop toy_yaml sample_types unit toy_fs toy_posix port_config conf_fs (fun _ => 0%Z)
    true [$"conf/a.yml"; $"conf/sub/b.yml"]).
  by vm_compute.
Defined.

(** [getAbsoluteWorkPath] keeps the pointer of its first call: asked for a relative
    path before "server.work_path" is registered it dereferences null, then and ever
    after. *)
Lemma getAbsoluteWorkPath_null `{Y : Yaml} `{CT : ConfigTypes} {W : Type} t as_string path
    (c : config (W := W)) :
  path <> [] -> starts_with slash path = false -> s_datas c !! $"server.work_path" = None ->
  getAbsoluteWorkPath t as_string path (c, None) = (UB $"null pointer", (c, Some None)) /\
  forall c' : config (W := W), getAbsoluteWorkPath t as_string path (c', Some None) = (UB $"null pointer", (c', Some None)).
Proof.
  intros Hne Hrel Hnone. destruct path as [|a path]; [done|]. simpl in Hrel.
  apply bool_decide_eq_false in Hrel. unfold getAbsoluteWorkPath.
  split; [|intros c'; by rewrite decide_False by done].
  rewrite decide_False by done. unfold Lookup_only. unfold_M. by rewrite Hnone.
Qed.
