(* ===== verification/LogFormatter.v ===== *)
(** * Log levels, events and the pattern formatter (log.h, log.cc)

    [LogFormatter::init] is the pattern parser of the logging module: a loop over
    the characters of the pattern with an inner scanning loop, both by index.  It
    is modelled that way ([scan_loop], [parse_loop]); a declarative grammar
    ([parses]) says what it accepts, and the two are proved to agree. *)
From stdpp Require Import base gmap list strings pretty.
From Stdlib Require Import Ascii.
From S2P Require Import Prelude.

(** ** Levels *)

(** [LogLevel::Level]. *)
Inductive Level : Type := UNKNOW | DEBUG | INFO | WARN | ERROR | FATAL.

#[export] Instance Level_eq_dec : EqDecision Level.
Proof. solve_decision. Defined.

Definition level_val (l : Level) : nat :=
  match l with
  | UNKNOW => 0 | DEBUG => 1 | INFO => 2 | WARN => 3 | ERROR => 4 | FATAL => 5
  end.

(** [a >= b] on levels. *)
Definition level_geb (a b : Level) : bool := (level_val b <=? level_val a)%nat.

Definition ToString (level : Level) : str :=
  match level with
  | DEBUG => $"DEBUG"
  | INFO => $"INFO"
  | WARN => $"WARN"
  | ERROR => $"ERROR"
  | FATAL => $"FATAL"
  | UNKNOW => $"UNKNOW"
  end.

(** The names [FromString] compares with, in the order of its tests. *)
Definition level_names : list (str * Level) :=
  [ ($"debug", DEBUG); ($"info", INFO); ($"warn", WARN); ($"error", ERROR);
    ($"fatal", FATAL);
    ($"DEBUG", DEBUG); ($"INFO", INFO); ($"WARN", WARN); ($"ERROR", ERROR);
    ($"FATAL", FATAL) ].

Fixpoint first_match {A} (s : str) (names : list (str * A)) : option A :=
  match names with
  | [] => None
  | (n, a) :: rest => if decide (s = n) then Some a else first_match s rest
  end.

Definition FromString (s : str) : Level := default UNKNOW (first_match s level_names).

(** ** Events *)

(** [LogEvent]: [m_ss] holds the text streamed so far, [m_logger] names the
    logger object. *)
Record LogEvent := mkLogEvent {
  ev_file : str;
  ev_line : Z;
  ev_elapse : Z;
  ev_threadId : Z;
  ev_fiberId : Z;
  ev_time : Z;
  ev_ss : str;
  ev_threadName : str;
  ev_logger : nat;
  ev_level : Level
}.

(** The constructor: its integer arguments are [int32_t], [uint32_t] and
    [uint64_t]. *)
Definition new_LogEvent (logger : nat) (level : Level) (file : str)
    (line elapse thread_id fiber_id time : Z) (thread_name : str) : LogEvent :=
  mkLogEvent file (i32 line) (u32 elapse) (u32 thread_id) (u32 fiber_id) (u64 time)
    [] thread_name logger level.

(** [getElapse] and [getThreadId] return the unsigned fields as [int32_t]. *)
Definition getElapse (e : LogEvent) : Z := i32 (ev_elapse e).
Definition getThreadId (e : LogEvent) : Z := i32 (ev_threadId e).

(** [getSS() << text], and [LogEvent::format] after [vasprintf] has delivered
    [text] ([None] when it failed). *)
Definition stream_text (text : str) (e : LogEvent) : LogEvent :=
  mkLogEvent (ev_file e) (ev_line e) (ev_elapse e) (ev_threadId e) (ev_fiberId e)
    (ev_time e) (ev_ss e ++ text) (ev_threadName e) (ev_logger e) (ev_level e).

Definition event_format (formatted : option str) (e : LogEvent) : LogEvent :=
  match formatted with
  | Some text => stream_text text e
  | None => e
  end.

(** ** Format items *)

(** One constructor per subclass of [LogFormatter::FormatItem]. *)
Inductive FormatItem : Type :=
| MessageFormatItem
| LevelFormatItem
| ElapseFormatItem
| NameFormatItem
| ThreadIdFormatItem
| FiberIdFormatItem
| ThreadNameFormatItem
| DateTimeFormatItem (m_format : str)
| FilenameFormatItem
| LineFormatItem
| NewLineFormatItem
| StringFormatItem (m_string : str)
| TabFormatItem.

#[export] Instance FormatItem_eq_dec : EqDecision FormatItem.
Proof. solve_decision. Defined.

Definition default_date_format : str := $"%Y-%m-%d %H:%M:%S".

(** The constructor of [DateTimeFormatItem]. *)
Definition new_DateTimeFormatItem (format : str) : FormatItem :=
  DateTimeFormatItem (match format with [] => default_date_format | _ => format end).

Section Format.
(** [localtime_r] followed by [strftime] into the 64-byte buffer: the C library,
    the time zone and the locale decide its text.  [None] when the text does not
    fit, in which case the buffer is left without defined contents. *)
Variable strftime_local : str -> Z -> option str.

(** The [format] methods of the items: what each one sends to the stream. *)
Definition item_format (logger_name : str) (level : Level) (event : LogEvent)
    (it : FormatItem) : res str :=
  match it with
  | MessageFormatItem => Ret (ev_ss event)
  | LevelFormatItem => Ret (ToString level)
  | ElapseFormatItem => Ret (show_Z (getElapse event))
  | NameFormatItem => Ret logger_name
  | ThreadIdFormatItem => Ret (show_Z (getThreadId event))
  | FiberIdFormatItem => Ret (show_Z (ev_fiberId event))
  | ThreadNameFormatItem => Ret (ev_threadName event)
  | DateTimeFormatItem m_format =>
      match strftime_local m_format (ev_time event) with
      | Some text => Ret text
      | None => UB $"strftime buffer"
      end
  | FilenameFormatItem => Ret (ev_file event)
  | LineFormatItem => Ret (show_Z (ev_line event))
  | NewLineFormatItem => Ret nl
  | StringFormatItem m_string => Ret m_string
  | TabFormatItem => Ret tab
  end.

(** The loop of both [LogFormatter::format] overloads. *)
Fixpoint items_format (logger_name : str) (level : Level) (event : LogEvent)
    (items : list FormatItem) : res str :=
  match items with
  | [] => Ret []
  | it :: rest =>
      a ← item_format logger_name level event it;
      b ← items_format logger_name level event rest;
      Ret (a ++ b)
  end.
End Format.

(** ** [LogFormatter::init] *)
Definition percent : ascii := "%"%char.
Definition lbrace : ascii := "{"%char.
Definition rbrace : ascii := "}"%char.

(** The locals of the inner loop. *)
Record scan_state := mkScan {
  sc_n : nat;
  sc_status : nat;
  sc_begin : nat;
  sc_str : str;
  sc_fmt : str
}.

(** A character that ends the name when no format is open. *)
Definition ends_name (c : ascii) : bool :=
  negb (isalpha c) && negb (bool_decide (c = lbrace)) && negb (bool_decide (c = rbrace)).

(** The inner [while]: [i] is the position of the '%'. *)
Fixpoint scan_loop (fuel : nat) (p : str) (i : nat) (st : scan_state) : res scan_state :=
  let '(mkScan n status fbegin s fmt) := st in
  if (n <? length p)%nat then
    match fuel with
    | O => UB $"out of fuel"
    | S fuel' =>
        let step_on :=
          if (S n =? length p)%nat then
            match s with
            | [] =>
                s' ← substr_from p (i + 1);
                scan_loop fuel' p i (mkScan (S n) status fbegin s' fmt)
            | _ => scan_loop fuel' p i (mkScan (S n) status fbegin s fmt)
            end
          else scan_loop fuel' p i (mkScan (S n) status fbegin s fmt) in
        c ← char_at p n;
        if (status =? 0)%nat && ends_name c then
          s' ← substr p (i + 1) (n - i - 1);
          Ret (mkScan n status fbegin s' fmt)
        else if (status =? 0)%nat then
          if decide (c = lbrace) then
            s' ← substr p (i + 1) (n - i - 1);
            scan_loop fuel' p i (mkScan (S n) 1 n s' fmt)
          else step_on
        else if (status =? 1)%nat then
          if decide (c = rbrace) then
            fmt' ← substr p (fbegin + 1) (n - fbegin - 1);
            Ret (mkScan (S n) 0 fbegin s fmt')
          else step_on
        else step_on
    end
  else Ret st.

(** An element of [vec]: (string, format, type). *)
Definition entry : Type := str * str * nat.

(** The locals of the outer loop, [m_error], and the text sent to [std::cout]. *)
Record parse_state := mkParse {
  ps_nstr : str;
  ps_vec : list entry;
  ps_error : bool;
  ps_cout : str
}.

Definition flush_nstr (nstr : str) (vec : list entry) : list entry :=
  match nstr with [] => vec | _ => vec ++ [(nstr, [], 0%nat)] end.

Definition parse_error_text (p tail : str) : str :=
  $"pattern parse error: " ++ p ++ $" - " ++ tail ++ nl.

(** The outer [for]. *)
Fixpoint parse_loop (fuel : nat) (p : str) (i : nat) (st : parse_state) : res parse_state :=
  let '(mkParse nstr vec err out) := st in
  if (i <? length p)%nat then
    match fuel with
    | O => UB $"out of fuel"
    | S fuel' =>
        c ← char_at p i;
        if decide (c <> percent) then
          parse_loop fuel' p (S i) (mkParse (nstr ++ [c]) vec err out)
        else
          if (i + 1 <? length p)%nat && bool_decide (p !! (i + 1)%nat = Some percent) then
            parse_loop fuel' p (S i) (mkParse (nstr ++ [percent]) vec err out)
          else
            sc ← scan_loop (length p - i) p i (mkScan (i + 1) 0 0 [] []);
            if (sc_status sc =? 0)%nat then
              parse_loop fuel' p (S (sc_n sc - 1))
                (mkParse [] (flush_nstr nstr vec ++ [(sc_str sc, sc_fmt sc, 1%nat)]) err out)
            else if (sc_status sc =? 1)%nat then
              tail ← substr_from p i;
              parse_loop fuel' p (S i)
                (mkParse nstr (vec ++ [($"<<pattern_error>>", sc_fmt sc, 0%nat)]) true
                   (out ++ parse_error_text p tail))
            else parse_loop fuel' p (S i) st
    end
  else Ret st.

(** The table [s_format_items]. *)
Definition s_format_items (key : str) : option (str -> FormatItem) :=
  first_match key
    [ ($"m", fun _ => MessageFormatItem);
      ($"p", fun _ => LevelFormatItem);
      ($"r", fun _ => ElapseFormatItem);
      ($"c", fun _ => NameFormatItem);
      ($"t", fun _ => ThreadIdFormatItem);
      ($"n", fun _ => NewLineFormatItem);
      ($"d", new_DateTimeFormatItem);
      ($"f", fun _ => FilenameFormatItem);
      ($"l", fun _ => LineFormatItem);
      ($"T", fun _ => TabFormatItem);
      ($"F", fun _ => FiberIdFormatItem);
      ($"N", fun _ => ThreadNameFormatItem) ].

Definition error_format (key : str) : str := $"<<error_format %" ++ key ++ $">>".

(** One turn of the loop that fills [m_items]: the item, and whether the key is
    unknown. *)
Definition make_item (x : entry) : FormatItem * bool :=
  let '(s, fmt, type) := x in
  if (type =? 0)%nat then (StringFormatItem s, false)
  else
    match s_format_items s with
    | None => (StringFormatItem (error_format s), true)
    | Some mk => (mk fmt, false)
    end.

Definition make_items (vec : list entry) : list FormatItem * bool :=
  (map (fst ∘ make_item) vec, existsb (snd ∘ make_item) vec).

(** The class [LogFormatter]. *)
Record LogFormatter := mkLogFormatter {
  m_pattern : str;
  m_items : list FormatItem;
  m_error : bool
}.

(** The constructor, with the text [init] sends to [std::cout]. *)
Definition new_LogFormatter (pattern : str) : res (LogFormatter * str) :=
  st ← parse_loop (length pattern) pattern 0 (mkParse [] [] false []);
  let vec := flush_nstr (ps_nstr st) (ps_vec st) in
  let '(items, unknown) := make_items vec in
  Ret (mkLogFormatter pattern items (ps_error st || unknown), ps_cout st).

Definition default_pattern : str :=
  $"%d{%Y-%m-%d %H:%M:%S}%T%t%T%N%T%F%T[%p]%T[%c]%T%f:%l%T%m%n".

(** ** The grammar of patterns *)

(** Characters that may stand in a name after '%'. *)
Definition name_char (c : ascii) : bool := negb (ends_name c) && negb (bool_decide (c = lbrace)).

(** [item_text name fmt w rest]: after a '%', the text [w] is an item with this
    name and format when [rest] follows. *)
Inductive item_text : str -> str -> str -> str -> Prop :=
| item_end name :
    Forall name_char name -> item_text name [] name []
| item_sep name c rest :
    Forall name_char name -> ends_name c = true -> item_text name [] name (c :: rest)
| item_fmt name fmt rest :
    Forall name_char name -> rbrace ∉ fmt ->
    item_text name fmt (name ++ [lbrace] ++ fmt ++ [rbrace]) rest.

(** [parses nstr s vec e]: with the literal [nstr] pending, the rest [s] of a
    pattern contributes the entries [vec]; [e] says whether a brace is left
    open. *)
Inductive parses : str -> str -> list entry -> bool -> Prop :=
| parses_end nstr :
    parses nstr [] (flush_nstr nstr []) false
| parses_char nstr c s v e :
    c <> percent -> parses (nstr ++ [c]) s v e -> parses nstr (c :: s) v e
| parses_percent nstr s v e :
    parses (nstr ++ [percent]) (percent :: s) v e ->
    parses nstr (percent :: percent :: s) v e
| parses_item nstr name fmt w rest v e :
    item_text name fmt w rest -> starts_with percent (w ++ rest) = false ->
    parses [] rest v e ->
    parses nstr (percent :: w ++ rest) (flush_nstr nstr [] ++ (name, fmt, 1%nat) :: v) e
| parses_open nstr name body v e :
    Forall name_char name -> rbrace ∉ body ->
    parses nstr (name ++ lbrace :: body) v e ->
    parses nstr (percent :: name ++ lbrace :: body)
      (($"<<pattern_error>>", [], 0%nat) :: v) true.

Lemma first_match_Some {A} (s : str) (names : list (str * A)) a :
  first_match s names = Some a -> (s, a) ∈ names.
Proof.
  induction names as [|[n b] names IH]; simpl; [done|]. case_decide as Hs.
  - intros [= ->]. subst. by constructor.
  - intros H. constructor. auto.
Qed.

Lemma first_match_None {A} (s : str) (names : list (str * A)) :
  first_match s names = None -> s ∉ map fst names.
Proof.
  induction names as [|[n b] names IH]; simpl; [set_solver|]. case_decide as Hs; [done|].
  intros H. apply not_elem_of_cons. auto.
Qed.

(** *** The inner loop *)
#[local] Arguments Nat.eqb : simpl never.
#[local] Arguments Nat.ltb : simpl never.
#[local] Arguments Nat.leb : simpl never.

Lemma name_char_spec c :
  name_char c = true <-> ends_name c = false /\ c <> lbrace.
Proof.
  unfold name_char. rewrite andb_true_iff, !negb_true_iff.
  by rewrite bool_decide_eq_false.
Qed.

Lemma ltb_true n m : (n < m)%nat -> (n <? m)%nat = true.
Proof. apply Nat.ltb_lt. Qed.
Lemma ltb_false n m : (m <= n)%nat -> (n <? m)%nat = false.
Proof. apply Nat.ltb_ge. Qed.
Lemma eqb_false n m : n <> m -> (n =? m)%nat = false.
Proof. apply Nat.eqb_neq. Qed.

(** One turn over a name character that is not the last one. *)
Lemma scan_name_step fuel u c v i fb s fmt :
  name_char c = true -> v <> [] ->
  scan_loop (S fuel) (u ++ c :: v) i (mkScan (length u) 0 fb s fmt) =
  scan_loop fuel (u ++ c :: v) i (mkScan (S (length u)) 0 fb s fmt).
Proof.
  intros [Hc Hl]%name_char_spec Hv. cbn [scan_loop].
  assert (length v <> 0) by by destruct v.
  rewrite ltb_true by len.
  rewrite char_at_mid by done. cbn -[length]. rewrite Hc, decide_False by done.
  change (0 =? 0)%nat with true. cbn -[length].
  rewrite eqb_false by len. by destruct s.
Qed.

Lemma scan_name b : forall fuel u v i fb s fmt,
  Forall name_char b -> v <> [] ->
  scan_loop (length b + fuel) (u ++ b ++ v) i (mkScan (length u) 0 fb s fmt) =
  scan_loop fuel (u ++ b ++ v) i (mkScan (length u + length b) 0 fb s fmt).
Proof.
  induction b as [|c b IH]; intros fuel u v i fb s fmt Hb Hv.
  { by rewrite Nat.add_0_r. }
  apply Forall_cons in Hb as [Hc%Is_true_true Hb]. cbn [length Nat.add app].
  rewrite scan_name_step by (try done; by destruct b).
  specialize (IH fuel (u ++ [c]) v i fb s fmt Hb Hv).
  rewrite <- !app_assoc, length_app in IH. simpl in IH.
  rewrite Nat.add_1_r in IH. rewrite IH. do 2 f_equal. lia.
Qed.

(** The name runs to the end of the pattern. *)
Lemma scan_name_end b : forall fuel pre a fmt fb,
  Forall name_char b ->
  scan_loop (length b + fuel) (pre ++ percent :: a ++ b) (length pre)
    (mkScan (S (length pre) + length a) 0 fb [] fmt) =
  Ret (mkScan (length (pre ++ percent :: a ++ b)) 0 fb
         (match b with [] => [] | _ => a ++ b end) fmt).
Proof.
  induction b as [|c b IH]; intros fuel pre a fmt fb Hb.
  { rewrite app_nil_r. change (length [] + fuel) with fuel. destruct fuel; cbn [scan_loop];
      rewrite ltb_false by len;
      repeat f_equal; len. }
  apply Forall_cons in Hb as [Hc%Is_true_true Hb].
  change (length (c :: b) + fuel) with (S (length b + fuel)).
  replace (pre ++ percent :: a ++ c :: b) with ((pre ++ percent :: a) ++ c :: b)
    by apps.
  replace (S (length pre) + length a) with (length (pre ++ percent :: a))
    by len.
  destruct b as [|d b].
  - pose proof (proj1 (name_char_spec c) Hc) as [Hc' Hl]. cbn [scan_loop].
    rewrite ltb_true by len.
    rewrite char_at_mid by done. cbn -[length]. rewrite Hc', decide_False by done.
    change (0 =? 0)%nat with true. cbn -[length].
    replace (S (length (pre ++ percent :: a)) =? length ((pre ++ percent :: a) ++ [c]))%nat
      with true by (symmetry; apply Nat.eqb_eq; len).
    replace ((pre ++ percent :: a) ++ [c]) with ((pre ++ [percent]) ++ (a ++ [c]))
      by apps.
    rewrite substr_from_mid by len.
    cbn -[length]. change (length [] + fuel) with fuel. destruct fuel; cbn [scan_loop];
      rewrite ltb_false by len;
      repeat f_equal; len.
  - rewrite scan_name_step by done.
    specialize (IH fuel pre (a ++ [c]) fmt fb Hb).
    replace (S (length pre) + length (a ++ [c])) with (S (length (pre ++ percent :: a)))
      in IH by len.
    replace (pre ++ percent :: (a ++ [c]) ++ d :: b)
      with ((pre ++ percent :: a) ++ c :: d :: b) in IH by apps.
    rewrite IH. by rewrite <- !app_assoc.
Qed.

(** One turn inside an open format, before the last character. *)
Lemma scan_fmt_step fuel u c v i fb s fmt :
  c <> rbrace -> v <> [] ->
  scan_loop (S fuel) (u ++ c :: v) i (mkScan (length u) 1 fb s fmt) =
  scan_loop fuel (u ++ c :: v) i (mkScan (S (length u)) 1 fb s fmt).
Proof.
  intros Hc Hv. cbn [scan_loop]. assert (length v <> 0) by by destruct v.
  rewrite ltb_true by len.
  rewrite char_at_mid by done. cbn -[length].
  change (1 =? 0)%nat with false. change (1 =? 1)%nat with true. cbn -[length].
  rewrite decide_False by done.
  rewrite eqb_false by len. by destruct s.
Qed.

Lemma scan_fmt b : forall fuel u v i fb s fmt,
  rbrace ∉ b -> v <> [] ->
  scan_loop (length b + fuel) (u ++ b ++ v) i (mkScan (length u) 1 fb s fmt) =
  scan_loop fuel (u ++ b ++ v) i (mkScan (length u + length b) 1 fb s fmt).
Proof.
  induction b as [|c b IH]; intros fuel u v i fb s fmt Hb Hv.
  { by rewrite Nat.add_0_r. }
  apply not_elem_of_cons in Hb as [Hc Hb]. cbn [length Nat.add app].
  rewrite scan_fmt_step by (try done; by destruct b).
  specialize (IH fuel (u ++ [c]) v i fb s fmt Hb Hv).
  rewrite <- !app_assoc, length_app in IH. simpl in IH.
  rewrite Nat.add_1_r in IH. rewrite IH. do 2 f_equal. lia.
Qed.

(** The turn that opens a format. *)
Lemma scan_open_brace fuel pre name body :
  scan_loop (S fuel) (pre ++ percent :: name ++ lbrace :: body) (length pre)
    (mkScan (length pre + 1 + length name) 0 0 [] []) =
  scan_loop fuel (pre ++ percent :: name ++ lbrace :: body) (length pre)
    (mkScan (S (length pre + 1 + length name)) 1 (length pre + 1 + length name) name []).
Proof.
  cbn [scan_loop]. rewrite ltb_true by len.
  replace (pre ++ percent :: name ++ lbrace :: body)
    with ((pre ++ percent :: name) ++ lbrace :: body) by apps.
  rewrite char_at_mid by len. cbn -[length].
  change (0 =? 0)%nat with true. cbn -[length].
  replace ((pre ++ percent :: name) ++ lbrace :: body)
    with ((pre ++ [percent]) ++ name ++ lbrace :: body) by apps.
  by rewrite substr_mid by len.
Qed.

(** The scan over an item leaves its name, its format and the position after it:
    the three ways an item may end. *)
Definition scan_start (pre p : str) : res scan_state :=
  scan_loop (length p - length pre) p (length pre) (mkScan (length pre + 1) 0 0 [] []).

Lemma scan_start_name pre name v k :
  Forall name_char name -> v <> [] -> k = length v ->
  scan_start pre (pre ++ percent :: name ++ v) =
  scan_loop (S k) (pre ++ percent :: name ++ v) (length pre)
    (mkScan (length pre + 1 + length name) 0 0 [] []).
Proof.
  intros Hn Hv ->. unfold scan_start.
  pose proof (scan_name name (S (length v)) (pre ++ [percent]) v (length pre) 0 [] [] Hn Hv)
    as H.
  replace ((pre ++ [percent]) ++ name ++ v) with (pre ++ percent :: name ++ v) in H by apps.
  replace (length (pre ++ [percent])) with (length pre + 1) in H by len.
  rewrite <- H. f_equal. len.
Qed.

Lemma scan_item_end pre name :
  Forall name_char name ->
  scan_start pre (pre ++ percent :: name) =
    Ret (mkScan (length pre + 1 + length name) 0 0 name []).
Proof.
  intros Hn. unfold scan_start.
  pose proof (scan_name_end name 1 pre [] [] 0 Hn) as H. cbn [app] in H.
  replace (length (pre ++ percent :: name) - length pre) with (length name + 1) by len.
  replace (length pre + 1) with (S (length pre) + length (@nil ascii)) at 1 by len.
  rewrite H. do 2 f_equal; [len|]. by destruct name.
Qed.

Lemma scan_item_sep pre name c rest :
  Forall name_char name -> ends_name c = true ->
  scan_start pre (pre ++ percent :: name ++ c :: rest) =
    Ret (mkScan (length pre + 1 + length name) 0 0 name []).
Proof.
  intros Hn Hc. erewrite scan_start_name by done.
  cbn [scan_loop]. rewrite ltb_true by len.
  replace (pre ++ percent :: name ++ c :: rest)
    with ((pre ++ percent :: name) ++ c :: rest) by apps.
  rewrite char_at_mid by len. cbn -[length]. rewrite Hc.
  change (0 =? 0)%nat with true. cbn -[length].
  replace ((pre ++ percent :: name) ++ c :: rest)
    with ((pre ++ [percent]) ++ name ++ c :: rest) by apps.
  by rewrite substr_mid by len.
Qed.

(** From the opening brace on: [v] is what follows the characters of the format. *)
Lemma scan_start_format pre name fmt v :
  Forall name_char name -> rbrace ∉ fmt -> v <> [] ->
  scan_start pre (pre ++ percent :: name ++ lbrace :: fmt ++ v) =
  scan_loop (S (length v)) (pre ++ percent :: name ++ lbrace :: fmt ++ v) (length pre)
    (mkScan (length pre + 1 + length name + 1 + length fmt) 1
       (length pre + 1 + length name) name []).
Proof.
  intros Hn Hf Hv. erewrite scan_start_name by done. rewrite scan_open_brace.
  pose proof (scan_fmt fmt (S (length v)) (pre ++ percent :: name ++ [lbrace]) v (length pre)
    (length pre + 1 + length name) name [] Hf Hv) as H.
  replace ((pre ++ percent :: name ++ [lbrace]) ++ fmt ++ v)
    with (pre ++ percent :: name ++ lbrace :: fmt ++ v) in H by apps.
  replace (length (pre ++ percent :: name ++ [lbrace]))
    with (length pre + 1 + length name + 1) in H by len.
  rewrite <- H. f_equal; [len|]. f_equal. lia.
Qed.

Lemma scan_item_fmt pre name fmt rest :
  Forall name_char name -> rbrace ∉ fmt ->
  scan_start pre (pre ++ percent :: name ++ lbrace :: fmt ++ rbrace :: rest) =
    Ret (mkScan (length pre + 1 + length name + 1 + length fmt + 1) 0
           (length pre + 1 + length name) name fmt).
Proof.
  intros Hn Hf. rewrite scan_start_format by done.
  generalize (length (rbrace :: rest)). intros fuel. cbn [scan_loop].
  rewrite ltb_true by len.
  replace (pre ++ percent :: name ++ lbrace :: fmt ++ rbrace :: rest)
    with ((pre ++ percent :: name ++ lbrace :: fmt) ++ rbrace :: rest) by apps.
  rewrite char_at_mid by len. cbn -[length].
  change (1 =? 0)%nat with false. change (1 =? 1)%nat with true. cbn -[length].
  replace ((pre ++ percent :: name ++ lbrace :: fmt) ++ rbrace :: rest)
    with ((pre ++ percent :: name ++ [lbrace]) ++ fmt ++ rbrace :: rest) by apps.
  rewrite substr_mid by len. cbn. do 2 f_equal. lia.
Qed.

Lemma scan_item pre name fmt w rest :
  item_text name fmt w rest ->
  exists fb, scan_start pre (pre ++ percent :: w ++ rest) =
    Ret (mkScan (length pre + 1 + length w) 0 fb name fmt).
Proof.
  intros [name' Hn | name' c rest' Hn Hc | name' fmt' rest' Hn Hf]; eexists.
  - rewrite app_nil_r. by apply scan_item_end.
  - by apply scan_item_sep.
  - replace ((name' ++ [lbrace] ++ fmt' ++ [rbrace]) ++ rest')
      with (name' ++ lbrace :: fmt' ++ rbrace :: rest') by apps.
    rewrite scan_item_fmt by done. do 2 f_equal. len.
Qed.

(** A brace that is never closed. *)
Lemma scan_open pre name body :
  Forall name_char name -> rbrace ∉ body ->
  exists n fb s, scan_start pre (pre ++ percent :: name ++ lbrace :: body) =
    Ret (mkScan n 1 fb s []).
Proof.
  intros Hn Hb. destruct (decide (body = [])) as [->|Hne].
  - erewrite scan_start_name by done. rewrite scan_open_brace. cbn [length scan_loop].
    rewrite ltb_false by len. eauto.
  - destruct (exists_last Hne) as (b & c & ->).
    apply not_elem_of_app in Hb as [Hb Hc%not_elem_of_cons]. destruct Hc as [Hc _].
    rewrite scan_start_format by done. cbn [length].
    generalize 1 at 1. intros fuel. cbn [scan_loop]. rewrite ltb_true by len.
    replace (pre ++ percent :: name ++ lbrace :: b ++ [c])
      with ((pre ++ percent :: name ++ lbrace :: b) ++ [c]) by apps.
    rewrite char_at_mid by len. cbn -[length].
    change (1 =? 0)%nat with false. change (1 =? 1)%nat with true. cbn -[length].
    rewrite decide_False by done.
    replace (S _ =? length _)%nat with true by (symmetry; apply Nat.eqb_eq; len).
    destruct name as [|a name].
    + replace ((pre ++ percent :: [] ++ lbrace :: b) ++ [c])
        with ((pre ++ [percent]) ++ (lbrace :: b ++ [c])) by apps.
      rewrite substr_from_mid by len. cbn -[length].
      destruct fuel; cbn [scan_loop]; rewrite ltb_false by len; eauto.
    + destruct fuel; cbn [scan_loop]; rewrite ltb_false by len; eauto.
Qed.

(** *** The outer loop *)

Lemma flush_nstr_app nstr vec : flush_nstr nstr vec = vec ++ flush_nstr nstr [].
Proof. destruct nstr; simpl; [by rewrite app_nil_r|done]. Qed.

(** A literal character. *)
Lemma parse_char fuel pre c s st :
  c <> percent ->
  parse_loop (S fuel) (pre ++ c :: s) (length pre) st =
  parse_loop fuel (pre ++ c :: s) (S (length pre))
    (mkParse (ps_nstr st ++ [c]) (ps_vec st) (ps_error st) (ps_cout st)).
Proof.
  intros Hc. destruct st. cbn [parse_loop]. rewrite ltb_true by len.
  rewrite char_at_mid by done. cbn -[length]. by rewrite decide_True.
Qed.

Lemma second_char pre s :
  ((length pre + 1 <? length (pre ++ percent :: s))%nat &&
   bool_decide ((pre ++ percent :: s) !! (length pre + 1)%nat = Some percent)) =
  starts_with percent s.
Proof.
  replace (pre ++ percent :: s) with ((pre ++ [percent]) ++ s) by apps.
  rewrite lookup_app_r by len.
  replace (length pre + 1 - length (pre ++ [percent])) with 0 by len.
  destruct s as [|c s]; simpl.
  - by rewrite ltb_false by len.
  - rewrite ltb_true by len. simpl. apply bool_decide_ext. naive_solver.
Qed.

Lemma parse_two_percents fuel pre s st :
  parse_loop (S fuel) (pre ++ percent :: percent :: s) (length pre) st =
  parse_loop fuel (pre ++ percent :: percent :: s) (S (length pre))
    (mkParse (ps_nstr st ++ [percent]) (ps_vec st) (ps_error st) (ps_cout st)).
Proof.
  destruct st. cbn [parse_loop]. rewrite ltb_true by len.
  rewrite char_at_mid by done. cbn -[length]. by rewrite second_char.
Qed.

Lemma parse_item fuel pre name fmt w rest st :
  item_text name fmt w rest -> starts_with percent (w ++ rest) = false ->
  parse_loop (S fuel) (pre ++ percent :: w ++ rest) (length pre) st =
  parse_loop fuel (pre ++ percent :: w ++ rest) (length (pre ++ percent :: w))
    (mkParse [] (flush_nstr (ps_nstr st) (ps_vec st) ++ [(name, fmt, 1%nat)])
       (ps_error st) (ps_cout st)).
Proof.
  intros Hit Hw. destruct st. cbn [parse_loop]. rewrite ltb_true by len.
  rewrite char_at_mid by done. cbn -[length]. rewrite second_char, Hw.
  destruct (scan_item pre name fmt w rest Hit) as [fb Hs]. unfold scan_start in Hs.
  rewrite Hs. cbn -[length]. f_equal. len.
Qed.

Lemma parse_open fuel pre name body st :
  Forall name_char name -> rbrace ∉ body ->
  parse_loop (S fuel) (pre ++ percent :: name ++ lbrace :: body) (length pre) st =
  parse_loop fuel (pre ++ percent :: name ++ lbrace :: body) (S (length pre))
    (mkParse (ps_nstr st) (ps_vec st ++ [($"<<pattern_error>>", [], 0%nat)]) true
       (ps_cout st ++ parse_error_text (pre ++ percent :: name ++ lbrace :: body)
                        (percent :: name ++ lbrace :: body))).
Proof.
  intros Hn Hb. destruct st. cbn [parse_loop]. rewrite ltb_true by len.
  rewrite char_at_mid by done. cbn -[length]. rewrite second_char.
  destruct (scan_open pre name body Hn Hb) as (n & fb & s & Hs). unfold scan_start in Hs.
  replace (starts_with percent (name ++ lbrace :: body)) with false
    by (destruct Hn as [|c name Hc%Is_true_true _]; [done|];
        simpl; symmetry; apply bool_decide_eq_false; by intros ->).
  rewrite Hs. cbn -[length].
  change (1 =? 0)%nat with false. change (1 =? 1)%nat with true. cbn -[length].
  by rewrite substr_from_mid by done.
Qed.

(** The loop computes what the grammar says, from any point of the pattern. *)
Lemma parse_loop_parses nstr s v e :
  parses nstr s v e -> forall fuel pre vec err out,
  (length s <= fuel)%nat ->
  exists st, parse_loop fuel (pre ++ s) (length pre) (mkParse nstr vec err out) = Ret st /\
    flush_nstr (ps_nstr st) (ps_vec st) = vec ++ v /\ ps_error st = err || e.
Proof.
  induction 1 as [nstr | nstr c s v e Hc _ IH | nstr s v e _ IH
    | nstr name fmt w rest v e Hit Hw _ IH | nstr name body v e Hn Hb _ IH];
    intros fuel pre vec err out Hf.
  - exists (mkParse nstr vec err out). rewrite app_nil_r, orb_false_r.
    split; [|by rewrite flush_nstr_app]. destruct fuel; cbn [parse_loop];
      by rewrite ltb_false by len.
  - destruct fuel as [|fuel]; [simpl in Hf; lia|]. rewrite parse_char by done.
    destruct (IH fuel (pre ++ [c]) vec err out ltac:(simpl in Hf; lia)) as (st & Hst & Hrest).
    exists st. split; [|done]. rewrite <- Hst. f_equal; [apps|len].
  - destruct fuel as [|fuel]; [simpl in Hf; lia|]. rewrite parse_two_percents.
    destruct (IH fuel (pre ++ [percent]) vec err out ltac:(simpl in Hf |- *; lia))
      as (st & Hst & Hrest).
    exists st. split; [|done]. rewrite <- Hst. f_equal; [apps|len].
  - destruct fuel as [|fuel]; [simpl in Hf; lia|].
    rewrite (parse_item _ _ _ _ _ _ _ Hit Hw). cbn [ps_nstr ps_vec ps_error ps_cout].
    destruct (IH fuel (pre ++ percent :: w) (flush_nstr nstr vec ++ [(name, fmt, 1%nat)])
      err out) as (st & Hst & Hfl & He).
    { simpl in Hf. rewrite length_app in Hf. lia. }
    exists st. split; [|split; [|done]].
    + rewrite <- Hst. f_equal. apps.
    + rewrite Hfl, (flush_nstr_app nstr vec). apps.
  - destruct fuel as [|fuel]; [simpl in Hf; lia|]. rewrite parse_open by done.
    cbn [ps_nstr ps_vec ps_error ps_cout].
    edestruct (IH fuel (pre ++ [percent])) as (st & Hst & Hfl & He).
    { simpl in Hf. lia. }
    exists st. split; [|split].
    + rewrite <- Hst. f_equal; [apps|len].
    + rewrite Hfl. apps.
    + rewrite He. by destruct err.
Qed.

(** Every rest of a pattern is covered by the grammar. *)
Lemma span_name s : exists name tail, s = name ++ tail /\ Forall name_char name /\
  match tail with [] => True | c :: _ => name_char c = false end.
Proof.
  induction s as [|c s (name & tail & -> & Hn & Ht)]; [by exists [], []|].
  destruct (name_char c) eqn:Hc.
  - exists (c :: name), tail. repeat split; try done. constructor; [by apply Is_true_true|done].
  - by exists [], (c :: name ++ tail).
Qed.

Lemma span_format s : rbrace ∉ s \/ exists fmt rest, s = fmt ++ rbrace :: rest /\ rbrace ∉ fmt.
Proof.
  destruct (decide (rbrace ∈ s)) as [Hin|]; [right|by left].
  apply list_elem_of_split_l in Hin as (fmt & rest & -> & Hf). eauto.
Qed.

Lemma parses_total n : forall s nstr, (length s <= n)%nat -> exists v e, parses nstr s v e.
Proof.
  induction n as [|n IH]; intros s nstr Hl.
  { destruct s; [|simpl in Hl; lia]. eauto using parses. }
  destruct s as [|c s]; [eauto using parses|]. simpl in Hl.
  destruct (decide (c = percent)) as [->|Hc].
  2:{ destruct (IH s (nstr ++ [c])) as (v & e & H); [lia|]. eauto using parses. }
  destruct (starts_with percent s) eqn:Hs.
  { destruct s as [|d s]; [done|]. apply bool_decide_eq_true in Hs as ->.
    destruct (IH (percent :: s) (nstr ++ [percent])) as (v & e & H); [lia|].
    eauto using parses. }
  destruct (span_name s) as (name & tail & -> & Hn & Ht). rewrite length_app in Hl.
  assert (forall fmt w rest, item_text name fmt w rest -> name ++ tail = w ++ rest ->
    (length rest <= n)%nat -> exists v e, parses nstr (percent :: name ++ tail) v e) as Hitem.
  { intros fmt w rest Hit Heq Hr. destruct (IH rest [] Hr) as (v & e & H).
    rewrite Heq in Hs |- *. eauto using parses. }
  destruct tail as [|d tail].
  { apply (Hitem [] name []); [by constructor|done|simpl; lia]. }
  destruct (decide (d = lbrace)) as [->|Hd].
  - destruct (span_format tail) as [Hb | (fmt & rest & -> & Hf)].
    + destruct (IH (name ++ lbrace :: tail) nstr) as (v & e & H).
      { rewrite length_app. simpl in *. lia. }
      eauto using parses.
    + apply (Hitem fmt (name ++ [lbrace] ++ fmt ++ [rbrace]) rest); [by constructor|apps|].
      simpl in Hl. rewrite length_app in Hl. simpl in Hl. lia.
  - apply (Hitem [] name (d :: tail)); [|done|simpl in Hl |- *; lia].
    constructor; [done|]. unfold name_char in Ht. apply andb_false_iff in Ht as [Ht|Ht].
    + by apply negb_false_iff in Ht.
    + apply negb_false_iff, bool_decide_eq_true in Ht. done.
Qed.

(** The constructor in terms of the grammar. *)
Lemma new_LogFormatter_parses p v e :
  parses [] p v e ->
  exists out, new_LogFormatter p =
    Ret (mkLogFormatter p (make_items v).1 (e || (make_items v).2), out).
Proof.
  intros Hp. destruct (parse_loop_parses _ _ _ _ Hp (length p) [] [] false [] (le_n _))
    as (st & Hst & Hfl & He).
  exists (ps_cout st). unfold new_LogFormatter. cbn [app length] in Hst.
  rewrite Hst. cbn -[make_items]. rewrite Hfl, He. done.
Qed.

Lemma existsb_map {A B} (f : A -> B) (g : B -> bool) l :
  existsb g (map f l) = existsb (g ∘ f) l.
Proof. induction l as [|a l IH]; simpl; [done|by rewrite IH]. Qed.

(** *** Rendering token lists *)

(** A pattern seen as literals and items, an item with or without a format. *)
Inductive token : Type :=
| Lit (s : str)
| Item (key : str) (fmt : option str).

Definition render_token (t : token) : str :=
  match t with
  | Lit s => s
  | Item k None => percent :: k
  | Item k (Some f) => percent :: k ++ [lbrace] ++ f ++ [rbrace]
  end.

Definition render_tokens (ts : list token) : str := concat (map render_token ts).

Definition token_entry (t : token) : entry :=
  match t with
  | Lit s => (s, [], 0%nat)
  | Item k fmt => (k, default [] fmt, 1%nat)
  end.

(** What has to separate an item without format from what follows it. *)
Definition separated (rest : list token) : bool :=
  match rest with
  | [] => true
  | Lit (c :: _) :: _ => ends_name c
  | Lit [] :: _ => false
  | Item _ _ :: _ => true
  end.

Fixpoint tokens_wf (ts : list token) : bool :=
  match ts with
  | [] => true
  | Lit s :: rest =>
      negb (bool_decide (s = [])) && bool_decide (percent ∉ s) &&
      match rest with Lit _ :: _ => false | _ => true end && tokens_wf rest
  | Item k None :: rest =>
      negb (bool_decide (k = [])) && forallb name_char k && separated rest && tokens_wf rest
  | Item k (Some f) :: rest =>
      forallb name_char k && bool_decide (rbrace ∉ f) && tokens_wf rest
  end.

Lemma parses_literal s : forall nstr rest v e,
  percent ∉ s -> parses (nstr ++ s) rest v e -> parses nstr (s ++ rest) v e.
Proof.
  induction s as [|c s IH]; intros nstr rest v e Hs H; [by rewrite app_nil_r in H|].
  apply not_elem_of_cons in Hs as [Hc Hs]. simpl. apply parses_char; [done|].
  apply IH; [done|]. by rewrite <- app_assoc.
Qed.

Lemma forallb_name k : forallb name_char k = true -> Forall name_char k.
Proof. induction k; simpl; [done|]. intros [? ?]%andb_true_iff. constructor; naive_solver. Qed.

Lemma name_not_percent k s :
  forallb name_char k = true -> k <> [] -> starts_with percent (k ++ s) = false.
Proof.
  destruct k as [|c k]; [done|]. simpl. intros [Hc _]%andb_true_iff _.
  apply bool_decide_eq_false. by intros ->.
Qed.

Lemma parses_render ts : forall nstr,
  tokens_wf ts = true ->
  match ts with Lit _ :: _ => nstr = [] | _ => True end ->
  parses nstr (render_tokens ts) (flush_nstr nstr [] ++ map token_entry ts) false.
Proof.
  induction ts as [|t ts IH]; intros nstr Hwf Hn.
  { simpl. rewrite app_nil_r. constructor. }
  destruct t as [s | k [f|]]; cbn in Hwf; unfold render_tokens; cbn [map concat render_token].
  - subst nstr. apply andb_prop in Hwf as [[[Hs Hp]%andb_prop Hnext]%andb_prop Hwf].
    apply bool_decide_eq_true in Hp. apply negb_true_iff, bool_decide_eq_false in Hs.
    apply parses_literal; [done|]. specialize (IH s Hwf).
    destruct s as [|c s]; [done|]. apply IH. by destruct ts as [|[]].
  - apply andb_prop in Hwf as [[Hk Hf]%andb_prop Hwf]. apply bool_decide_eq_true in Hf.
    specialize (IH [] Hwf). apply (parses_item nstr k f); [|by destruct k; simpl in *;
      [|apply andb_prop in Hk as [Hk _]; apply bool_decide_eq_false; intros ->]|].
    + constructor; [by apply forallb_name|done].
    + apply IH. by destruct ts as [|[]].
  - apply andb_prop in Hwf as [[[Hne Hk]%andb_prop Hsep]%andb_prop Hwf].
    apply negb_true_iff, bool_decide_eq_false in Hne. specialize (IH [] Hwf).
    apply (parses_item nstr k []); [|by apply name_not_percent|apply IH; by destruct ts as [|[]]].
    apply forallb_name in Hk.
    destruct ts as [|[[|c s] | k' [f'|]] ts]; simpl in Hsep; try done; by constructor.
Qed.

Lemma new_LogFormatter_made (pattern : str) :
  exists f out, new_LogFormatter pattern = Ret (f, out) /\ m_pattern f = pattern.
Proof.
  destruct (parses_total (length pattern) pattern [] (le_n _)) as (v & e & Hp).
  destruct (new_LogFormatter_parses pattern v e Hp) as (out & H). eauto.
Qed.

(** ** Dates that fit

    [strftime] writes into 64 characters.  How long a date gets depends on the format
    and on the time; a format fits when its dates do at every time of the years 1970
    to 9999, the last day left out for the sake of the time zones. *)
Definition time_ok (t : Z) : Prop := (0 <= t < 253402214400)%Z.

Definition date_fits (strftime_local : str -> Z -> option str) (format : str) : Prop :=
  forall t, time_ok t -> is_Some (strftime_local format t).

(** Documented of [strftime]: years have four digits and all other fields of the default
    format two, so that its dates are 19 characters long. *)
Class StrftimeLaws (strftime_local : str -> Z -> option str) : Prop := {
  default_date_fits : date_fits strftime_local default_date_format
}.

Definition item_fits (strftime_local : str -> Z -> option str) (it : FormatItem) : Prop :=
  match it with DateTimeFormatItem format => date_fits strftime_local format | _ => True end.

(** A formatter, and a pattern, all of whose dates fit. *)
Definition formatter_fits (strftime_local : str -> Z -> option str) (f : LogFormatter) : Prop :=
  Forall (item_fits strftime_local) (m_items f).

Definition formatter_for (pattern : str) (f : LogFormatter) : Prop :=
  exists out, new_LogFormatter pattern = Ret (f, out).

Definition pattern_fits (strftime_local : str -> Z -> option str) (pattern : str) : Prop :=
  forall f, formatter_for pattern f -> formatter_fits strftime_local f.

Lemma default_pattern_fits strftime_local :
  StrftimeLaws strftime_local -> pattern_fits strftime_local default_pattern.
Proof.
  intros Hlaws f (out & Hf). vm_compute in Hf. injection Hf as <- _. unfold formatter_fits. cbn [m_items].
  repeat (constructor; [first [exact I|apply default_date_fits]|]). constructor.
Qed.

(** Formatting succeeds when the dates fit. *)
Lemma items_format_ret strftime_local logger_name level event items :
  Forall (item_fits strftime_local) items -> time_ok (ev_time event) ->
  exists text, items_format strftime_local logger_name level event items = Ret text.
Proof.
  intros Hfit Ht. induction Hfit as [|it items Hit _ [b IH]]; [by eexists|].
  assert (exists a, item_format strftime_local logger_name level event it = Ret a) as [a Ha].
  { destruct it; try by eexists. simpl. destruct (Hit (ev_time event) Ht) as [x ->]. by eexists. }
  exists (a ++ b). cbn -[item_format]. unfold_M. by rewrite Ha, IH.
Qed.

(** A date format function for examples, on which only short formats fit. *)
Definition sample_strftime (f : str) (t : Z) : option str :=
  if Nat.leb (length f) 24 then Some $"2024-01-01 00:00:00" else None.

#[export] Instance sample_strftime_laws : StrftimeLaws sample_strftime.
Proof. split. intros t _. by eexists. Qed.

(** ** The claims *)

(** C33.  The constructor of [LogFormatter] terminates normally on every pattern:
    the index loops never read outside the string, no [substr] throws, and both
    loops stop within the length of the pattern. *)
Theorem new_LogFormatter_total (pattern : str) :
  exists f out, new_LogFormatter pattern = Ret (f, out) /\ m_pattern f = pattern.
Proof. apply new_LogFormatter_made. Qed.

(** C10.  [LogFormatter::init] implements the grammar of patterns: the items and
    the error flag it computes are exactly those of the grammar's entries. *)
Theorem init_implements_grammar (pattern : str) (items : list FormatItem) (err : bool) :
  (exists out, new_LogFormatter pattern = Ret (mkLogFormatter pattern items err, out)) <->
  (exists v e, parses [] pattern v e /\
     items = (make_items v).1 /\ err = e || (make_items v).2).
Proof.
  split.
  - intros (out & H). destruct (parses_total (length pattern) pattern [] (le_n _))
      as (v & e & Hp).
    destruct (new_LogFormatter_parses pattern v e Hp) as (out' & H').
    rewrite H' in H. injection H as <- <- _. eauto.
  - intros (v & e & Hp & -> & ->). by apply new_LogFormatter_parses.
Qed.

(** C11.  Round trip: a well-formed list of literals and items, written out as a
    pattern, is parsed back to exactly these items; the error flag is raised only
    by keys the table does not know. *)
Theorem pattern_roundtrip (ts : list token) :
  tokens_wf ts = true ->
  exists out, new_LogFormatter (render_tokens ts) =
    Ret (mkLogFormatter (render_tokens ts) (map (fst ∘ make_item ∘ token_entry) ts)
           (existsb (snd ∘ make_item ∘ token_entry) ts), out).
Proof.
  intros Hwf.
  assert (parses [] (render_tokens ts) (map token_entry ts) false) as Hp.
  { apply (parses_render ts []); [done|]. by destruct ts as [|[]]. }
  destruct (new_LogFormatter_parses _ _ _ Hp) as (out & H). exists out. rewrite H.
  unfold make_items. cbn [fst snd orb]. by rewrite map_map, existsb_map.
Qed.

Definition sample_tokens : list token :=
  [Item $"d" (Some $"%H:%M"); Lit $" ["; Item $"p" None; Lit $"] "; Item $"m" None;
   Item $"zz" None; Item $"n" None].

Lemma pattern_roundtrip_witness :
  exists out, new_LogFormatter $"%d{%H:%M} [%p] %m%zz%n" =
    Ret (mkLogFormatter $"%d{%H:%M} [%p] %m%zz%n"
           [DateTimeFormatItem $"%H:%M"; StringFormatItem $" ["; LevelFormatItem;
            StringFormatItem $"] "; MessageFormatItem;
            StringFormatItem $"<<error_format %zz>>"; NewLineFormatItem] true, out).
Proof. exact (pattern_roundtrip sample_tokens eq_refl). Defined.

(** The escape "%%" announced beside [init] does not work: after the literal
    '%' the second '%' is read again and starts an item.  A pattern that ends in
    "%%" is always flagged as an error. *)
Theorem percent_escape_fails (s : str) :
  percent ∉ s ->
  exists out, new_LogFormatter (s ++ [percent; percent]) =
    Ret (mkLogFormatter (s ++ [percent; percent])
           [StringFormatItem (s ++ [percent]); StringFormatItem (error_format [])] true, out).
Proof.
  intros Hs.
  assert (parses [] (s ++ [percent; percent])
            (flush_nstr (s ++ [percent]) [] ++ [([], [], 1%nat)]) false) as Hp.
  { apply parses_literal; [done|]. apply parses_percent. cbn [app].
    by apply (parses_item (s ++ [percent]) [] [] [] [] [] false);
      [constructor|done|apply (parses_end [])]. }
  destruct (new_LogFormatter_parses _ _ _ Hp) as (out & H). exists out. rewrite H.
  by destruct s.
Qed.

Lemma percent_escape_fails_witness :
  exists out, new_LogFormatter $"100%%" =
    Ret (mkLogFormatter $"100%%"
           [StringFormatItem $"100%"; StringFormatItem $"<<error_format %>>"] true, out).
Proof.
  apply (percent_escape_fails $"100"). by apply (bool_decide_unpack _).
Defined.

(** The default pattern lays a line out as documented: time, thread id,
    thread name and fiber id separated by tabulators, the level and the logger's
    name in brackets, file:line, message and newline. *)
Theorem default_layout (strftime_local : str -> Z -> option str) logger level ev date :
  strftime_local default_date_format (ev_time ev) = Some date ->
  exists f out, new_LogFormatter default_pattern = Ret (f, out) /\ m_error f = false /\
    items_format strftime_local logger level ev (m_items f) =
      Ret (date ++ tab ++ show_Z (getThreadId ev) ++ tab ++ ev_threadName ev ++ tab ++
           show_Z (ev_fiberId ev) ++ tab ++ $"[" ++ ToString level ++ $"]" ++ tab ++
           $"[" ++ logger ++ $"]" ++ tab ++ ev_file ev ++ $":" ++ show_Z (ev_line ev) ++
           tab ++ ev_ss ev ++ nl).
Proof.
  intros Hd.
  destruct (new_LogFormatter default_pattern) as [[f out]| | |] eqn:Hf; [|by vm_compute in Hf..].
  exists f, out. split; [done|].
  vm_compute in Hf. injection Hf as <- <-. split; [done|].
  cbn [m_items items_format item_format].
  unfold default_date_format, lit in Hd. cbn in Hd. rewrite Hd. reflexivity.
Qed.

Lemma default_layout_witness :
  exists f out, new_LogFormatter default_pattern = Ret (f, out) /\ m_error f = false /\
    items_format (fun _ _ => Some $"2024-08-01 12:00:00") $"root" INFO
      (stream_text $"hello" (new_LogEvent 0 INFO $"main.cc" 7 0 42 3 1722506400 $"main"))
      (m_items f) =
      Ret ($"2024-08-01 12:00:00" ++ tab ++ $"42" ++ tab ++ $"main" ++ tab ++ $"3" ++ tab ++
           $"[" ++ $"INFO" ++ $"]" ++ tab ++ $"[" ++ $"root" ++ $"]" ++ tab ++
           $"main.cc" ++ $":" ++ $"7" ++ tab ++ $"hello" ++ nl).
Proof.
  exact (default_layout (fun _ _ => Some $"2024-08-01 12:00:00") $"root" INFO
    (stream_text $"hello" (new_LogEvent 0 INFO $"main.cc" 7 0 42 3 1722506400 $"main"))
    $"2024-08-01 12:00:00" eq_refl).
Defined.

(** The names of the levels: [FromString] recognises what [ToString] prints,
    for every level, and nothing but the ten names of its table. *)
Theorem level_roundtrip (l : Level) (s : str) :
  FromString (ToString l) = l /\
  (FromString s <> UNKNOW <-> s ∈ map fst level_names).
Proof.
  split; [by destruct l|]. unfold FromString. split.
  - intros Hs. destruct (first_match s level_names) as [a|] eqn:E; [|done].
    apply list_elem_of_fmap. exists (s, a). split; [done|]. by apply first_match_Some.
  - intros Hin Hs. destruct (first_match s level_names) as [a|] eqn:E.
    + apply first_match_Some in E. simpl in Hs. subst a.
      unfold level_names in E. set_solver.
    + by apply first_match_None in E.
Qed.
