(* ===== verification/Log.v ===== *)
(** * Loggers, appenders and their manager (log.h, log.cc)

    Loggers and appenders are objects shared by pointers: the state is a heap of
    both, the text on standard output, the disk, and what was written to each
    file.  Here every operation is atomic; its locks, and the interleavings of
    several threads, are in LogConc.v and LogThreads.v.  [toYamlString] is in
    LogConfig.v. *)
From stdpp Require Import base gmap list strings.
From Stdlib Require Import Ascii.
From S2P Require Import Prelude Util Env LogFormatter.

(** Writing a text to a file open for appending: whether all of it was written. *)
Class FileSink (D : Type) := { os_write : str -> str -> D -> bool * D }.

(** What is relied on: a write extends its file with the text, or with a beginning of
    it when it fails, and touches no file known to be another one; opening for
    appending and making directories leave the files' contents. *)
Class SinkLaws (D : Type) `{Posix D} `{FileSink D} := {
  sink_text : D -> str -> str;
  sink_apart : str -> str -> Prop;
  write_extends : forall fn t d b d', os_write fn t d = (b, d') ->
    exists k, sink_text d' fn = sink_text d fn ++ take k t /\ (b = true -> take k t = t);
  write_elsewhere : forall fn t d b d' g, os_write fn t d = (b, d') -> sink_apart fn g ->
    sink_text d' g = sink_text d g;
  open_keeps_text : forall p d b d' g, os_open_app p d = (b, d') -> sink_text d' g = sink_text d g;
  mkdir_keeps_text : forall p d b d' g, os_mkdir p d = (b, d') -> sink_text d' g = sink_text d g
}.

(** ** Data *)

(** The two subclasses of [LogAppender]; a file appender has its stream and the time
    it was last reopened. *)
Inductive appender_kind : Type :=
| StdoutLogAppender
| FileLogAppender (m_filename : str) (m_filestream : ofstream) (m_lastTime : Z).

Record LogAppender := mkAppender {
  ap_kind : appender_kind;
  ap_level : Level;
  ap_formatter : option LogFormatter;
  ap_hasFormatter : bool
}.

Record Logger := mkLogger {
  m_name : str;
  m_level : Level;
  m_appenders : list nat;
  m_formatter : option LogFormatter;
  m_root : option nat
}.

Record log_world {D : Type} := mkLogWorld {
  lw_appenders : gmap nat LogAppender;
  lw_loggers : gmap nat Logger;
  lw_next : nat;
  lw_cout : str;
  lw_disk : D
}.
Arguments log_world : clear implicits.
Arguments mkLogWorld {D} _ _ _ _ _.
Arguments lw_appenders {D} _.
Arguments lw_loggers {D} _.
Arguments lw_next {D} _.
Arguments lw_cout {D} _.
Arguments lw_disk {D} _.

(** [LoggerManager]: the map by name and the root logger. *)
Record LoggerManager := mkManager {
  m_loggers : gmap str nat;
  mgr_root : nat
}.

(** What the logging macros take from the place and time of the call. *)
Record log_site := mkSite {
  st_file : str;
  st_line : Z;
  st_thread : Z;
  st_fiber : Z;
  st_time : Z;
  st_thread_name : str
}.

Definition site_event (s : log_site) (logger : nat) (level : Level) (text : str) : LogEvent :=
  stream_text text (new_LogEvent logger level (st_file s) (st_line s) 0 (st_thread s) (st_fiber s)
                      (st_time s) (st_thread_name s)).

(** The clock shows a time whose dates have their usual width. *)
Definition site_ok (s : log_site) : Prop := time_ok (st_time s).

Lemma site_event_time s logger level text : site_ok s -> time_ok (ev_time (site_event s logger level text)).
Proof. unfold site_ok, time_ok. intros Ht. simpl. rewrite u64_small by lia. exact Ht. Qed.

Section Log.
Context {D : Type} `{Posix D} `{FileSink D}.
(** [localtime_r] and [strftime], as in [LogFormatter]. *)
Context (strftime_local : str -> Z -> option str).
Local Abbreviation log_world := (log_world D).

(** *** Access *)
Definition set_appender (p : nat) (a : LogAppender) (w : log_world) : log_world :=
  mkLogWorld (<[p := a]> (lw_appenders w)) (lw_loggers w) (lw_next w) (lw_cout w) (lw_disk w).
Definition set_logger (p : nat) (l : Logger) (w : log_world) : log_world :=
  mkLogWorld (lw_appenders w) (<[p := l]> (lw_loggers w)) (lw_next w) (lw_cout w) (lw_disk w).
Definition set_disk (d : D) (w : log_world) : log_world :=
  mkLogWorld (lw_appenders w) (lw_loggers w) (lw_next w) (lw_cout w) d.

Definition get_appender (p : nat) : M log_world LogAppender := fun w =>
  match lw_appenders w !! p with Some a => (Ret a, w) | None => (UB $"null appender", w) end.
Definition get_logger (p : nat) : M log_world Logger := fun w =>
  match lw_loggers w !! p with Some l => (Ret l, w) | None => (UB $"null logger", w) end.

(** [std::cout << text]. *)
Definition print (text : str) : M log_world unit :=
  modify (fun w => mkLogWorld (lw_appenders w) (lw_loggers w) (lw_next w) (lw_cout w ++ text)
                     (lw_disk w)).

(** ** Appenders *)
Definition appender_setFormatter (p : nat) (f : option LogFormatter) : M log_world unit :=
  a ← get_appender p;
  modify (set_appender p (mkAppender (ap_kind a) (ap_level a) f
                            (match f with Some _ => true | None => false end))).

Definition appender_setLevel (p : nat) (l : Level) : M log_world unit :=
  a ← get_appender p;
  modify (set_appender p (mkAppender (ap_kind a) l (ap_formatter a) (ap_hasFormatter a))).

(** [FileLogAppender::reopen] on the stream and the disk. *)
Definition reopen (filename : str) : M (ofstream * D) bool :=
  w ← get;
  (if negb (os_fail (fst w)) then stream_close else mret tt);;
  OpenForWrite filename.

(** The stream of appender [p] and the disk. *)
Definition on_stream {A} (p : nat) (m : M (ofstream * D) A) : M log_world A := fun w =>
  match lw_appenders w !! p with
  | Some (mkAppender (FileLogAppender fn ofs t) lv f hf) =>
      let '(r, (ofs', d')) := m (ofs, lw_disk w) in
      (r, set_disk d' (set_appender p (mkAppender (FileLogAppender fn ofs' t) lv f hf) w))
  | _ => (UB $"no file appender", w)
  end.

(** Sending a text to the stream: nothing once it has failed, a failure when it is
    not open or the write fails. *)
Definition stream_write (text : str) : M (ofstream * D) unit := fun '(ofs, d) =>
  if os_fail ofs || bool_decide (text = []) then (Ret tt, (ofs, d))
  else match os_file ofs with
       | None => (Ret tt, (mkOfstream None true, d))
       | Some fn =>
           let '(b, d') := os_write fn text d in
           (Ret tt, (mkOfstream (os_file ofs) (negb b), d'))
       end.

(** [m_formatter->format(stream, logger, level, event)]: the text it sends. *)
Definition formatted (f : option LogFormatter) (logger_name : str) (level : Level) (event : LogEvent)
    : res str :=
  match f with
  | None => UB $"null formatter"
  | Some fm => items_format strftime_local logger_name level event (m_items fm)
  end.

Definition set_lastTime (p : nat) (now : Z) : M log_world unit :=
  a ← get_appender p;
  match ap_kind a with
  | FileLogAppender fn ofs _ =>
      modify (set_appender p (mkAppender (FileLogAppender fn ofs now) (ap_level a)
                                (ap_formatter a) (ap_hasFormatter a)))
  | StdoutLogAppender => mret tt
  end.

Definition stream_of (a : LogAppender) : ofstream :=
  match ap_kind a with
  | FileLogAppender _ ofs _ => ofs
  | StdoutLogAppender => mkOfstream None true
  end.

(** The two [log] methods. *)
Definition appender_log (p : nat) (logger_name : str) (level : Level) (event : LogEvent)
    : M log_world unit :=
  a ← get_appender p;
  if level_geb level (ap_level a) then
    match ap_kind a with
    | StdoutLogAppender =>
        text ← lift_res (formatted (ap_formatter a) logger_name level event);
        print text
    | FileLogAppender filename _ lastTime =>
        let now := ev_time event in
        (if Z.leb (u64 (lastTime + 3)) now then
           on_stream p (reopen filename);;
           set_lastTime p now
         else mret tt);;
        a1 ← get_appender p;
        (if is_open (stream_of a1) then mret tt else print ($"File stream is not open." ++ nl));;
        text ← lift_res (formatted (ap_formatter a1) logger_name level event);
        on_stream p (stream_write text);;
        a2 ← get_appender p;
        if os_fail (stream_of a2) then print ($"log to file error " ++ nl) else mret tt
    end
  else mret tt.

(** ** Constructors *)
Definition alloc_appender (a : LogAppender) : M log_world nat := fun w =>
  (Ret (lw_next w),
   mkLogWorld (<[lw_next w := a]> (lw_appenders w)) (lw_loggers w) (S (lw_next w)) (lw_cout w)
     (lw_disk w)).

Definition new_StdoutLogAppender : M log_world nat :=
  alloc_appender (mkAppender StdoutLogAppender DEBUG None false).

Definition new_FileLogAppender (filename : str) : M log_world nat :=
  p ← alloc_appender (mkAppender (FileLogAppender filename (mkOfstream None false) 0) DEBUG None false);
  on_stream p (reopen filename);;
  mret p.

(** [new LogFormatter(pattern)], with what it prints. *)
Definition make_formatter (pattern : str) : M log_world LogFormatter :=
  r ← lift_res (new_LogFormatter pattern);
  print (snd r);;
  mret (fst r).

Definition alloc_logger (l : Logger) : M log_world nat := fun w =>
  (Ret (lw_next w),
   mkLogWorld (lw_appenders w) (<[lw_next w := l]> (lw_loggers w)) (S (lw_next w)) (lw_cout w)
     (lw_disk w)).

Definition new_Logger (name : str) : M log_world nat :=
  f ← make_formatter default_pattern;
  alloc_logger (mkLogger name DEBUG [] (Some f) None).

(** ** Loggers *)
Definition setLevel (p : nat) (val : Level) : M log_world unit :=
  l ← get_logger p;
  modify (set_logger p (mkLogger (m_name l) val (m_appenders l) (m_formatter l) (m_root l))).

(** The loop over the appenders in [setFormatter]. *)
Fixpoint inherit_formatter (val : option LogFormatter) (ps : list nat) : M log_world unit :=
  match ps with
  | [] => mret tt
  | p :: ps' =>
      a ← get_appender p;
      (if ap_hasFormatter a then mret tt
       else modify (set_appender p (mkAppender (ap_kind a) (ap_level a) val false)));;
      inherit_formatter val ps'
  end.

Definition setFormatter (p : nat) (val : option LogFormatter) : M log_world unit :=
  l ← get_logger p;
  modify (set_logger p (mkLogger (m_name l) (m_level l) (m_appenders l) val (m_root l)));;
  inherit_formatter val (m_appenders l).

(** The overload with a pattern. *)
Definition setFormatter_pattern (p : nat) (val : str) : M log_world unit :=
  print ($"---" ++ val ++ nl);;
  f ← make_formatter val;
  if m_error f then
    l ← get_logger p;
    print ($"Logger name = " ++ m_name l ++ $" set Formatter, " ++ $"value = " ++ val ++
           $" is invalid formatter" ++ nl)
  else setFormatter p (Some f).

Definition addAppender (p ap : nat) : M log_world unit :=
  l ← get_logger p;
  a ← get_appender ap;
  (match ap_formatter a with
   | Some _ => mret tt
   | None => appender_setFormatter ap (m_formatter l)
   end);;
  modify (set_logger p (mkLogger (m_name l) (m_level l) (m_appenders l ++ [ap]) (m_formatter l)
                          (m_root l))).

Fixpoint erase_first (ap : nat) (ps : list nat) : list nat :=
  match ps with
  | [] => []
  | p :: ps' => if decide (p = ap) then ps' else p :: erase_first ap ps'
  end.

Definition delAppender (p ap : nat) : M log_world unit :=
  l ← get_logger p;
  modify (set_logger p (mkLogger (m_name l) (m_level l) (erase_first ap (m_appenders l))
                          (m_formatter l) (m_root l))).

Definition clearAppenders (p : nat) : M log_world unit :=
  l ← get_logger p;
  modify (set_logger p (mkLogger (m_name l) (m_level l) [] (m_formatter l) (m_root l))).

(** The loop over the appenders in [log]. *)
Fixpoint log_all (ps : list nat) (logger_name : str) (level : Level) (event : LogEvent)
    : M log_world unit :=
  match ps with
  | [] => mret tt
  | p :: ps' => appender_log p logger_name level event;; log_all ps' logger_name level event
  end.

(** [Logger::log]; [fuel] bounds the chain of [m_root]. *)
Fixpoint logger_log (fuel : nat) (p : nat) (level : Level) (event : LogEvent) : M log_world unit :=
  l ← get_logger p;
  if level_geb level (m_level l) then
    match m_appenders l with
    | [] =>
        match m_root l with
        | Some r =>
            match fuel with
            | O => ub $"out of fuel"
            | S fuel' => logger_log fuel' r level event
            end
        | None => mret tt
        end
    | ps => log_all ps (m_name l) level event
    end
  else mret tt.

(** The methods for single levels. *)
Definition debug (fuel p : nat) (event : LogEvent) : M log_world unit := logger_log fuel p DEBUG event.
Definition info (fuel p : nat) (event : LogEvent) : M log_world unit := logger_log fuel p INFO event.
Definition warn (fuel p : nat) (event : LogEvent) : M log_world unit := logger_log fuel p WARN event.
Definition error (fuel p : nat) (event : LogEvent) : M log_world unit := logger_log fuel p ERROR event.
Definition fatal (fuel p : nat) (event : LogEvent) : M log_world unit := logger_log fuel p FATAL event.

(** The [getFormatter] methods. *)
Definition getFormatter (p : nat) : M log_world (option LogFormatter) :=
  l ← get_logger p; mret (m_formatter l).
Definition appender_getFormatter (p : nat) : M log_world (option LogFormatter) :=
  a ← get_appender p; mret (ap_formatter a).

(** [LIONET_LOG_LEVEL(logger, level) << text]: an event is made and logged only when
    the logger's level admits it; [LogEventWrap]'s destructor logs it. *)
Definition log_macro (fuel : nat) (site : log_site) (p : nat) (level : Level) (text : str)
    : M log_world unit :=
  l ← get_logger p;
  if level_geb level (m_level l) then
    let event := site_event site p level text in
    logger_log fuel (ev_logger event) (ev_level event) event
  else mret tt.

(** [LIONET_LOG_FMT_LEVEL(logger, level, fmt, ...)]: [formatted] is what [vasprintf] makes
    of the arguments, if it does. *)
Definition fmt_macro (fuel : nat) (site : log_site) (p : nat) (level : Level) (formatted : option str)
    : M log_world unit :=
  l ← get_logger p;
  if level_geb level (m_level l) then
    let event := event_format formatted (site_event site p level []) in
    logger_log fuel (ev_logger event) (ev_level event) event
  else mret tt.

(** ** The manager *)
Definition applyDefaultConfig (p : nat) : M log_world unit :=
  out ← new_StdoutLogAppender;
  addAppender p out;;
  l ← get_logger p;
  file ← new_FileLogAppender ($"log/" ++ m_name l ++ $".txt");
  addAppender p file.

Definition new_LoggerManager : M log_world LoggerManager :=
  root ← new_Logger $"root";
  applyDefaultConfig root;;
  l ← get_logger root;
  let mgr := mkManager {[ m_name l := root ]} root in
  applyDefaultConfig root;;
  mret mgr.

Definition getLogger (mgr : LoggerManager) (name : str) : M log_world (nat * LoggerManager) :=
  match m_loggers mgr !! name with
  | Some p => mret (p, mgr)
  | None =>
      p ← new_Logger name;
      applyDefaultConfig p;;
      l ← get_logger p;
      modify (set_logger p (mkLogger (m_name l) (m_level l) (m_appenders l) (m_formatter l)
                              (Some (mgr_root mgr))));;
      mret (p, mkManager (<[name := p]> (m_loggers mgr)) (mgr_root mgr))
  end.

End Log.

(** ** What one appender does *)

(** The stream of a file appender is closed and failed, or open on its file. *)
Definition stream_ok (fn : str) (ofs : ofstream) : Prop :=
  match os_file ofs with Some f => f = fn | None => os_fail ofs = true end.

Definition appender_ok (a : LogAppender) : Prop :=
  match ap_kind a with
  | FileLogAppender fn ofs _ => nul_free fn /\ stream_ok fn ofs
  | StdoutLogAppender => True
  end.

(** The same appender, up to the state of its stream. *)
Definition same_appender (a b : LogAppender) : Prop :=
  ap_level a = ap_level b /\ ap_formatter a = ap_formatter b /\
  ap_hasFormatter a = ap_hasFormatter b /\
  match ap_kind a, ap_kind b with
  | StdoutLogAppender, StdoutLogAppender => True
  | FileLogAppender f _ _, FileLogAppender g _ _ => f = g
  | _, _ => False
  end.

(** A stream that works, and one that is open and has failed. *)
Definition stream_good (a : LogAppender) : Prop :=
  match ap_kind a with FileLogAppender _ ofs _ => os_fail ofs = false | _ => True end.
Definition stream_stuck (a : LogAppender) : Prop :=
  match ap_kind a with
  | FileLogAppender fn ofs _ => ofs = mkOfstream (Some fn) true
  | _ => False
  end.

(** What became of one event at one appender: below its level; printed; written to
    the file; failed after [k] characters, with the stream [closed] or not. *)
Inductive outcome : Type :=
| Skipped
| Printed
| Written
| Failed (closed : bool) (k : nat).

Definition outcome_of (level : Level) (a : LogAppender) (o : outcome) : Prop :=
  if level_geb level (ap_level a) then
    match ap_kind a, o with
    | StdoutLogAppender, Printed => True
    | FileLogAppender _ _ _, (Written | Failed _ _) => True
    | _, _ => False
    end
  else o = Skipped.

(** What it adds to standard output, and to the file [g]. *)
Definition cout_of (text : str) (o : outcome) : str :=
  match o with
  | Printed => text
  | Failed closed _ =>
      (if closed then $"File stream is not open." ++ nl else []) ++ $"log to file error " ++ nl
  | _ => []
  end.

Definition file_of (a : LogAppender) (g text : str) (o : outcome) : str :=
  match ap_kind a with
  | FileLogAppender fn _ _ =>
      if decide (fn = g) then
        match o with Written => text | Failed _ k => take k text | _ => [] end
      else []
  | StdoutLogAppender => []
  end.

(** A disk on which opening and writing never fail. *)
Class ReliableDisk (D : Type) `{Posix D} `{FileSink D} := {
  open_succeeds : forall p d, fst (os_open_app p d) = true;
  write_succeeds : forall f t d, fst (os_write f t d) = true
}.

(** The file [applyDefaultConfig] gives a logger. *)
Definition log_file (name : str) : str := $"log/" ++ name ++ $".txt".

Lemma log_file_nul_free name : nul_free name -> nul_free (log_file name).
Proof.
  intros Hn. unfold log_file. rewrite !nul_free_app. split; [|split; [done|]];
    unfold nul_free; vm_compute; set_solver.
Qed.

Section Spec.
Context {D : Type} `{HP : Posix D} `{HF : FileSink D} `{!SinkLaws D}.
Context (strftime_local : str -> Z -> option str).

Definition same_text (d d' : D) : Prop := forall g, sink_text d' g = sink_text d g.

#[export] Instance same_text_preorder : PreOrder same_text.
Proof. split; [by intros d g|]. intros d e f H1 H2 g. by rewrite H2, H1. Qed.

Lemma reopen_spec fn ofs d :
  nul_free fn -> (os_file ofs = None \/ os_file ofs = Some fn) ->
  exists b ofs' d', reopen fn (ofs, d) = (Ret b, (ofs', d')) /\ same_text d d' /\ stream_ok fn ofs' /\
    (ofs = mkOfstream (Some fn) true -> ofs' = ofs) /\
    (ReliableDisk D -> ofs <> mkOfstream (Some fn) true -> ofs' = mkOfstream (Some fn) false).
Proof using HP HF SinkLaws0.
  intros Hz Ho. unfold reopen.
  set (ofs1 := if os_fail ofs then ofs else fst (snd (stream_close (ofs, d)))).
  assert (((if negb (os_fail ofs) then stream_close else mret tt : M (ofstream * D) unit) (ofs, d)) = (Ret tt, (ofs1, d))) as Hc.
  { unfold ofs1. destruct ofs as [f []]; simpl; [done|]. by destruct f. }
  erewrite (bind_ret get) by done. simpl. erewrite bind_ret by exact Hc.
  destruct (OpenForWrite_stream same_text (fun p d b d' H g => mkdir_keeps_text p d b d' g H)
              (fun p d b d' H g => open_keeps_text p d b d' g H) fn ofs1 d Hz)
    as (b & ofs' & d' & Hopen & Hs & Hst).
  exists b, ofs', d'. split; [done|]. split; [done|].
  destruct ofs as [f fl]. simpl in Ho. destruct Ho as [-> | ->]; destruct fl; simpl in *.
  - destruct b; [subst; by repeat split|]. destruct Hst as [-> [d1 Hf]]. do 2 (split; [done|]).
    intros HR. pose proof (open_succeeds fn d1) as Hy. by rewrite Hf in Hy.
  - destruct b; [subst; by repeat split|]. destruct Hst as [-> [d1 Hf]]. do 2 (split; [done|]).
    intros HR. pose proof (open_succeeds fn d1) as Hy. by rewrite Hf in Hy.
  - destruct Hst as [_ ->]. by repeat split.
  - destruct b; [subst; by repeat split|]. destruct Hst as [-> [d1 Hf]]. do 2 (split; [done|]).
    intros HR. pose proof (open_succeeds fn d1) as Hy. by rewrite Hf in Hy.
Qed.

Lemma stream_write_spec fn ofs d text :
  stream_ok fn ofs ->
  exists ofs' d', stream_write text (ofs, d) = (Ret tt, (ofs', d')) /\ stream_ok fn ofs' /\
    os_file ofs' = os_file ofs /\
    (exists k, sink_text d' fn = sink_text d fn ++ take k text /\
       (os_fail ofs = true -> k = 0) /\ (os_fail ofs' = false -> take k text = text)) /\
    (forall g, sink_apart fn g -> sink_text d' g = sink_text d g) /\
    (os_fail ofs = true -> ofs' = ofs) /\
    (ReliableDisk D -> os_fail ofs = false -> os_fail ofs' = false).
Proof using HP HF SinkLaws0.
  intros Hok. unfold stream_write. destruct (os_fail ofs) eqn:Hf; simpl.
  { exists ofs, d. repeat split; try done. exists 0. rewrite take_0, app_nil_r.
    by repeat split; rewrite ?Hf. }
  case_bool_decide as Ht.
  { exists ofs, d. repeat split; try done. subst. exists 0. rewrite take_0, app_nil_r. by repeat split. }
  destruct ofs as [f fl]. simpl in *. subst. destruct f as [f|]; [|done].
  cbv [stream_ok] in Hok; simpl in Hok. subst f.
  destruct (os_write fn text d) as [b d'] eqn:Hw. exists (mkOfstream (Some fn) (negb b)), d'.
  destruct (write_extends _ _ _ _ _ Hw) as (k & Hk & Hall).
  repeat split; try done.
  - exists k. split; [done|]. split; [done|]. simpl. intros Hb. apply Hall. by destruct b.
  - intros g Hg. by eapply write_elsewhere.
  - intros HR _. pose proof (write_succeeds fn text d) as Hy. rewrite Hw in Hy. simpl in *. by subst.
Qed.

(** The world after appender [p] has become [a], with [out] printed and disk [d]. *)
Definition upd (p : nat) (a : LogAppender) (out : str) (d : D) (w : log_world D) : log_world D :=
  mkLogWorld (<[p := a]> (lw_appenders w)) (lw_loggers w) (lw_next w) (lw_cout w ++ out) d.

Lemma upd_id p a (w : log_world D) : lw_appenders w !! p = Some a -> upd p a [] (lw_disk w) w = w.
Proof. intros Ha. destruct w. unfold upd. simpl in *. by rewrite insert_id, app_nil_r by done. Qed.

Lemma upd_upd p a b o1 o2 d1 d2 (w : log_world D) :
  upd p b o2 d2 (upd p a o1 d1 w) = upd p b (o1 ++ o2) d2 w.
Proof. unfold upd. simpl. by rewrite insert_insert_eq, app_assoc. Qed.

Lemma get_appender_upd p a o d (w : log_world D) :
  get_appender p (upd p a o d w) = (Ret a, upd p a o d w).
Proof. unfold get_appender, upd. simpl. by rewrite lookup_insert_eq. Qed.

Lemma print_upd p a o d text (w : log_world D) :
  print text (upd p a o d w) = (Ret tt, upd p a (o ++ text) d w).
Proof. unfold print, upd, modify. simpl. by rewrite app_assoc. Qed.

Lemma on_stream_upd {A} p fn ofs t lv f hf o d (w : log_world D) (m : M (ofstream * D) A) r ofs' d' :
  m (ofs, d) = (r, (ofs', d')) ->
  on_stream p m (upd p (mkAppender (FileLogAppender fn ofs t) lv f hf) o d w) =
  (r, upd p (mkAppender (FileLogAppender fn ofs' t) lv f hf) o d' w).
Proof.
  intros Hm. unfold on_stream, upd. simpl. rewrite lookup_insert_eq, Hm.
  unfold set_disk, set_appender. simpl. by rewrite insert_insert_eq.
Qed.

(** The first part of [FileLogAppender::log]: the stream is reopened when it is due. *)
Lemma reopen_if_due_spec p fn ofs t lv f hf o d (due : bool) now (w : log_world D) :
  nul_free fn -> stream_ok fn ofs ->
  exists ofs' t' d',
    (if due then on_stream p (reopen fn);; set_lastTime p now else mret tt)
      (upd p (mkAppender (FileLogAppender fn ofs t) lv f hf) o d w) =
    (Ret tt, upd p (mkAppender (FileLogAppender fn ofs' t') lv f hf) o d' w) /\
    same_text d d' /\ stream_ok fn ofs' /\
    (ofs = mkOfstream (Some fn) true -> ofs' = ofs) /\
    (ReliableDisk D -> os_fail ofs = false -> os_fail ofs' = false).
Proof using HP HF SinkLaws0.
  intros Hz Hok. destruct due.
  - destruct (reopen_spec fn ofs d Hz) as (b & ofs' & d' & Hr & Hd & Hok' & Hst & Hgood).
    { unfold stream_ok in Hok. destruct (os_file ofs) as [g|]; [right; by subst|by left]. }
    exists ofs', now, d'. split; [|repeat split; try done].
    + erewrite bind_ret by (by apply on_stream_upd).
      unfold set_lastTime. erewrite bind_ret by apply get_appender_upd. simpl.
      unfold modify, set_appender, upd. simpl. by rewrite insert_insert_eq.
    + intros HR Hf. rewrite (Hgood HR); [done|]. intros ->. done.
  - exists ofs, t, d. by repeat split.
Qed.

Lemma appender_log_spec p nm level ev text a (w : log_world D) :
  lw_appenders w !! p = Some a -> appender_ok a ->
  formatted strftime_local (ap_formatter a) nm level ev = Ret text ->
  exists o a' d',
    appender_log strftime_local p nm level ev w = (Ret tt, upd p a' (cout_of text o) d' w) /\
    same_appender a a' /\ appender_ok a' /\ outcome_of level a o /\
    (forall g, match ap_kind a with FileLogAppender fn _ _ => fn = g \/ sink_apart fn g | _ => True end ->
       sink_text d' g = sink_text (lw_disk w) g ++ file_of a g text o) /\
    (stream_stuck a -> stream_stuck a' /\ (o = Skipped \/ o = Failed false 0)) /\
    (ReliableDisk D -> stream_good a ->
       stream_good a' /\ match o with Failed _ _ => False | _ => True end).
Proof using HP HF SinkLaws0.
  intros Ha Hok Hf. unfold appender_log. erewrite bind_ret by (unfold get_appender; by rewrite Ha).
  unfold outcome_of. destruct (level_geb level (ap_level a)) eqn:Hl.
  2:{ exists Skipped, a, (lw_disk w). split; [by simpl; rewrite (upd_id p a w Ha)|].
      repeat split; try done.
      - by destruct (ap_kind a).
      - intros g _. unfold file_of. destruct (ap_kind a); [by rewrite app_nil_r|].
        by case_decide; rewrite app_nil_r.
      - by left. }
  destruct a as [k lv f hf]. destruct k as [|fn ofs t];
    cbn [ap_kind ap_level ap_formatter appender_ok] in *.
  - exists Printed, (mkAppender StdoutLogAppender lv f hf), (lw_disk w).
    split.
    { unfold lift_res. erewrite bind_ret by (by rewrite Hf).
      pose proof (print_upd p (mkAppender StdoutLogAppender lv f hf) [] (lw_disk w) text w) as Hp. rewrite (upd_id p _ w Ha) in Hp. exact Hp. }
    repeat split; try done.
    intros g _. unfold file_of. simpl. by rewrite app_nil_r.
  - destruct Hok as [Hz Hok].
    destruct (reopen_if_due_spec p fn ofs t lv f hf [] (lw_disk w) (Z.leb (u64 (t + 3)) (ev_time ev))
                (ev_time ev) w Hz Hok) as (ofs1 & t1 & d1 & H1 & Hd1 & Hok1 & Hst1 & Hg1).
    rewrite (upd_id p _ w Ha) in H1.
    erewrite bind_ret by exact H1. erewrite bind_ret by apply get_appender_upd.
    set (closed := negb (is_open ofs1)).
    set (out1 := if closed then $"File stream is not open." ++ nl else []).
    erewrite (bind_ret _ _ _ _ (upd p (mkAppender (FileLogAppender fn ofs1 t1) lv f hf) out1 d1 w)).
    2:{ unfold out1, closed. cbn [stream_of ap_kind]. destruct (is_open ofs1); [done|].
        by rewrite print_upd. }
    cbn [ap_formatter]. unfold lift_res at 1. erewrite bind_ret by (by rewrite Hf).
    destruct (stream_write_spec fn ofs1 d1 text Hok1)
      as (ofs2 & d2 & Hw & Hok2 & Hfile & (k & Hk & Hk0 & Hkall) & Happ & Hst2 & Hg2).
    erewrite bind_ret by (by apply on_stream_upd). erewrite bind_ret by apply get_appender_upd.
    cbn [stream_of ap_kind]. set (o := if os_fail ofs2 then Failed closed k else Written).
    exists o, (mkAppender (FileLogAppender fn ofs2 t1) lv f hf), d2.
    split.
    { unfold o, cout_of. fold out1. destruct (os_fail ofs2) eqn:Hf2; [by rewrite print_upd|].
      unfold out1, closed, is_open. destruct ofs2 as [[g|] fl]; simpl in *; [|by rewrite Hok2 in Hf2].
      by rewrite <- Hfile, bool_decide_eq_true_2. }
    split; [done|]. split; [done|]. split; [by unfold o; destruct (os_fail ofs2)|].
    split; [|split].
    + intros g Hg. unfold file_of. simpl. rewrite <- (Hd1 g). case_decide as Hfg.
      * subst g. rewrite Hk. unfold o. destruct (os_fail ofs2) eqn:Hf2; [done|].
        by rewrite (Hkall eq_refl).
      * destruct Hg as [?|Hg]; [done|]. by rewrite app_nil_r, (Happ g Hg).
    + unfold stream_stuck. simpl. intros Hs. specialize (Hst1 Hs). subst ofs. subst ofs1.
      specialize (Hst2 eq_refl). subst ofs2. split; [done|]. right. unfold o. simpl.
      by rewrite (Hk0 eq_refl).
    + unfold stream_good. simpl. intros HR Hgood. specialize (Hg2 HR (Hg1 HR Hgood)).
      split; [done|]. unfold o. by rewrite Hg2.
Qed.

(** ** Loggers *)

(** Between two worlds: no logger or appender has gone, and names are kept. *)
Definition grows (w w' : log_world D) : Prop :=
  (forall p l, lw_loggers w !! p = Some l ->
     exists l', lw_loggers w' !! p = Some l' /\ m_name l' = m_name l) /\
  (forall p, is_Some (lw_appenders w !! p) -> is_Some (lw_appenders w' !! p)).

#[export] Instance grows_preorder : PreOrder grows.
Proof.
  split; [by intros w; split; eauto|]. intros w1 w2 w3 [Ha Hb] [Hc Hd]. split; [|auto].
  intros p l Hp. destruct (Ha p l Hp) as (l2 & H2 & <-). by apply Hc.
Qed.

(** The formatters that loggers and appenders may have. *)
Context (fit : LogFormatter -> Prop).

(** What makes a logger usable: it has a formatter, its appenders exist and have
    formatters, and its root is an older logger. *)
Definition logger_ok (w : log_world D) (p : nat) (l : Logger) : Prop :=
  (exists f, m_formatter l = Some f /\ fit f) /\
  (forall ap, ap ∈ m_appenders l ->
     exists a, lw_appenders w !! ap = Some a /\ is_Some (ap_formatter a)) /\
  (forall r, m_root l = Some r -> r < p /\ is_Some (lw_loggers w !! r)).

(** An appender counts a formatter it has as its own. *)
Definition owns_formatter (a : LogAppender) : Prop :=
  ap_hasFormatter a = true <-> is_Some (ap_formatter a).

Record log_wf (w : log_world D) : Prop := mkLogWf {
  wf_fresh_appender : forall p, lw_next w <= p -> lw_appenders w !! p = None;
  wf_fresh_logger : forall p, lw_next w <= p -> lw_loggers w !! p = None;
  wf_appender : forall p a, lw_appenders w !! p = Some a -> appender_ok a;
  wf_own : forall p a, lw_appenders w !! p = Some a -> owns_formatter a;
  wf_fits : forall p a f, lw_appenders w !! p = Some a -> ap_formatter a = Some f -> fit f;
  wf_logger : forall p l, lw_loggers w !! p = Some l -> logger_ok w p l
}.

(** [runs m w Q]: from [w] the code [m] returns, in a well-formed world that has
    grown from [w], with [Q] of the result. *)
Definition runs {A} (m : M (log_world D) A) (w : log_world D) (Q : A -> log_world D -> Prop) : Prop :=
  exists a w', m w = (Ret a, w') /\ log_wf w' /\ grows w w' /\ Q a w'.

Lemma runs_bind {A B} (m : M (log_world D) A) (f : A -> M (log_world D) B) w Q Q' :
  runs m w Q -> (forall a w', log_wf w' -> grows w w' -> Q a w' -> runs (f a) w' Q') ->
  runs (m ≫= f) w Q'.
Proof.
  intros (a & w1 & Hm & Hwf & Hg & HQ) Hf. destruct (Hf a w1 Hwf Hg HQ) as (b & w2 & Hm2 & Hwf2 & Hg2 & HQ2).
  exists b, w2. split; [by rewrite (bind_ret m f w a w1 Hm)|]. split; [done|]. split; [by etransitivity|done].
Qed.

Lemma runs_ret {A} (a : A) w (Q : A -> log_world D -> Prop) : log_wf w -> Q a w -> runs (mret a) w Q.
Proof. intros Hw HQ. by exists a, w. Qed.

Lemma runs_weaken {A} (m : M (log_world D) A) w (Q Q' : A -> log_world D -> Prop) :
  runs m w Q -> (forall a w', Q a w' -> Q' a w') -> runs m w Q'.
Proof. intros (a & w' & Hm & Hwf & Hg & HQ) HH. exists a, w'. auto. Qed.

Lemma runs_get_appender p a w (Q : LogAppender -> log_world D -> Prop) :
  log_wf w -> lw_appenders w !! p = Some a -> Q a w -> runs (get_appender p) w Q.
Proof. intros Hw Ha HQ. exists a, w. unfold get_appender. by rewrite Ha. Qed.

Lemma runs_get_logger p l w (Q : Logger -> log_world D -> Prop) :
  log_wf w -> lw_loggers w !! p = Some l -> Q l w -> runs (get_logger p) w Q.
Proof. intros Hw Hl HQ. exists l, w. unfold get_logger. by rewrite Hl. Qed.

(** Appender [p] has been added to no logger. *)
Definition detached (p : nat) (w : log_world D) : Prop :=
  forall q l, lw_loggers w !! q = Some l -> p ∉ m_appenders l.

(** A change of the appender at [p]. *)
Lemma wf_upd_or p a a' out d w :
  log_wf w -> lw_appenders w !! p = Some a -> appender_ok a' ->
  owns_formatter a' -> (is_Some (ap_formatter a) -> is_Some (ap_formatter a')) \/ detached p w ->
  (forall f, ap_formatter a' = Some f -> ap_formatter a = Some f \/ fit f) ->
  log_wf (upd p a' out d w) /\ grows w (upd p a' out d w).
Proof.
  intros [H1 H2 H3 H5 H6 H4] Ha Hok Hown Hkeep Hfit. split; [split|split]; simpl.
  - intros q Hq. rewrite lookup_insert_ne; [auto|]. intros ->. rewrite (H1 q Hq) in Ha. done.
  - done.
  - intros q b. rewrite lookup_insert. case_decide; [by intros [= <-]|apply H3].
  - intros q b. rewrite lookup_insert. case_decide; [by intros [= <-]|apply H5].
  - intros q b f. rewrite lookup_insert. case_decide; [|apply H6]. intros [= <-] Hf.
    destruct (Hfit f Hf); [by eapply H6|done].
  - intros q l Hl. destruct (H4 q l Hl) as (Hf & Hap & Hr). split; [done|]. split; [|done].
    intros ap Hin. destruct (Hap ap Hin) as (b & Hb & Hbf). simpl. rewrite lookup_insert.
    case_decide; [subst|by exists b]. rewrite Ha in Hb. injection Hb as <-.
    exists a'. split; [done|]. destruct Hkeep as [Hkeep|Hdet]; [auto|by destruct (Hdet q l Hl)].
  - eauto.
  - intros q Hq. rewrite lookup_insert. by case_decide.
Qed.

Lemma wf_upd p a a' out d w :
  log_wf w -> lw_appenders w !! p = Some a -> appender_ok a' ->
  owns_formatter a' -> (is_Some (ap_formatter a) -> is_Some (ap_formatter a')) ->
  (forall f, ap_formatter a' = Some f -> ap_formatter a = Some f \/ fit f) ->
  log_wf (upd p a' out d w) /\ grows w (upd p a' out d w).
Proof. intros. eapply wf_upd_or; eauto. Qed.

Lemma runs_set_appender p a a' w (Q : unit -> log_world D -> Prop) :
  log_wf w -> lw_appenders w !! p = Some a -> appender_ok a' ->
  owns_formatter a' -> (is_Some (ap_formatter a) -> is_Some (ap_formatter a')) ->
  (forall f, ap_formatter a' = Some f -> ap_formatter a = Some f \/ fit f) ->
  Q tt (set_appender p a' w) -> runs (modify (set_appender p a')) w Q.
Proof.
  intros Hw Ha Hok Hown Hkeep Hfit HQ. exists tt, (set_appender p a' w). split; [done|].
  destruct (wf_upd p a a' [] (lw_disk w) w Hw Ha Hok Hown Hkeep Hfit) as [Hwf Hg].
  assert (upd p a' [] (lw_disk w) w = set_appender p a' w) as Heq.
  { unfold upd, set_appender. by rewrite app_nil_r. }
  by rewrite Heq in Hwf, Hg.
Qed.

Lemma runs_set_logger p l l' w (Q : unit -> log_world D -> Prop) :
  log_wf w -> lw_loggers w !! p = Some l -> m_name l' = m_name l -> logger_ok w p l' ->
  Q tt (set_logger p l' w) -> runs (modify (set_logger p l')) w Q.
Proof.
  intros [H1 H2 H3 H5 H6 H4] Hl Hn (Hf & Hap & Hr) HQ. exists tt, (set_logger p l' w). split; [done|].
  assert (forall r, is_Some (lw_loggers w !! r) -> is_Some (<[p:=l']> (lw_loggers w) !! r)) as Hdom.
  { intros r Hr'. rewrite lookup_insert. by case_decide. }
  split; [split|split; [split|done]]; simpl.
  - done.
  - intros q Hq. rewrite lookup_insert_ne; [auto|]. intros ->. by rewrite (H2 q Hq) in Hl.
  - done.
  - done.
  - done.
  - intros q k. rewrite lookup_insert. case_decide as Hq.
    + intros [= <-]. subst q. split; [done|]. split; [done|]. simpl. intros r Hr'.
      destruct (Hr r Hr'). auto.
    + intros Hk. destruct (H4 q k Hk) as (Hf' & Hap' & Hr'). split; [done|]. split; [done|]. simpl.
      intros r Hr1. destruct (Hr' r Hr1). auto.
  - intros q k Hk. rewrite lookup_insert. case_decide as Hq; [|by exists k].
    subst. exists l'. split; [done|]. congruence.
  - done.
Qed.

Lemma runs_print text w (Q : unit -> log_world D -> Prop) :
  log_wf w -> (forall w', lw_loggers w' = lw_loggers w -> lw_appenders w' = lw_appenders w ->
                 lw_next w' = lw_next w -> Q tt w') ->
  runs (print text) w Q.
Proof.
  intros [H1 H2 H3 H5 H6 H4] HQ. eexists tt, _. split; [done|]. split; [|split; [split; eauto|by apply HQ]].
  by split.
Qed.

Lemma runs_alloc_appender a w (Q : nat -> log_world D -> Prop) :
  log_wf w -> appender_ok a -> owns_formatter a -> (forall f, ap_formatter a = Some f -> fit f) ->
  (lw_appenders w !! lw_next w = None ->
   Q (lw_next w) (mkLogWorld (<[lw_next w := a]> (lw_appenders w)) (lw_loggers w) (S (lw_next w))
                    (lw_cout w) (lw_disk w))) ->
  runs (alloc_appender a) w Q.
Proof.
  intros [H1 H2 H3 H5 H6 H4] Hok Hown Hfit HQ. pose proof (H1 (lw_next w) (le_n _)) as Hnew.
  eexists _, _. split; [done|]. split; [split|split; [split|by apply HQ]]; simpl.
  - intros q Hq. rewrite lookup_insert_ne by lia. apply H1. lia.
  - intros q Hq. apply H2. lia.
  - intros q b. rewrite lookup_insert. case_decide; [by intros [= <-]|apply H3].
  - intros q b. rewrite lookup_insert. case_decide; [by intros [= <-]|apply H5].
  - intros q b f. rewrite lookup_insert. case_decide; [intros [= <-]; apply Hfit|apply H6].
  - intros q l Hl. destruct (H4 q l Hl) as (Hf & Hap & Hr). split; [done|]. split; [|done].
    intros ap Hin. destruct (Hap ap Hin) as (b & Hb & Hbf). exists b. split; [|done]. simpl.
    rewrite lookup_insert_ne; [done|]. intros <-. by rewrite Hnew in Hb.
  - eauto.
  - intros q Hq. rewrite lookup_insert. by case_decide.
Qed.

Lemma runs_alloc_logger l w (Q : nat -> log_world D -> Prop) :
  log_wf w -> logger_ok w (lw_next w) l ->
  (lw_loggers w !! lw_next w = None ->
   Q (lw_next w) (mkLogWorld (lw_appenders w) (<[lw_next w := l]> (lw_loggers w)) (S (lw_next w))
                    (lw_cout w) (lw_disk w))) ->
  runs (alloc_logger l) w Q.
Proof.
  intros [H1 H2 H3 H5 H6 H4] (Hf & Hap & Hr) HQ. pose proof (H2 (lw_next w) (le_n _)) as Hnew.
  assert (forall r, is_Some (lw_loggers w !! r) -> is_Some (<[lw_next w := l]> (lw_loggers w) !! r)) as Hdom.
  { intros r Hr'. rewrite lookup_insert. by case_decide. }
  eexists _, _. split; [done|]. split; [split|split; [split|by apply HQ]]; simpl.
  - intros q Hq. apply H1. lia.
  - intros q Hq. rewrite lookup_insert_ne by lia. apply H2. lia.
  - done.
  - done.
  - done.
  - intros q k. rewrite lookup_insert. case_decide as Hq.
    + intros [= <-]. subst q. split; [done|]. split; [done|]. simpl. intros r Hr'.
      destruct (Hr r Hr'). auto.
    + intros Hk. destruct (H4 q k Hk) as (Hf' & Hap' & Hr'). split; [done|]. split; [done|]. simpl.
      intros r Hr1. destruct (Hr' r Hr1). auto.
  - intros q k Hk. rewrite lookup_insert_ne; [eauto|]. intros <-. by rewrite Hnew in Hk.
  - done.
Qed.

(** *** What the operations do *)

Lemma runs_setLevel p v l w :
  log_wf w -> lw_loggers w !! p = Some l ->
  runs (setLevel p v) w
    (fun _ w' => w' = set_logger p (mkLogger (m_name l) v (m_appenders l) (m_formatter l) (m_root l)) w).
Proof.
  intros Hw Hl. eapply runs_bind; [by eapply (runs_get_logger p l _ (fun k w' => k = l /\ w' = w))|].
  intros k w' Hw' _ [-> ->]. eapply runs_set_logger; try done. apply (wf_logger _ Hw' _ _ Hl).
Qed.

Lemma runs_clearAppenders p l w :
  log_wf w -> lw_loggers w !! p = Some l ->
  runs (clearAppenders p) w
    (fun _ w' => w' = set_logger p (mkLogger (m_name l) (m_level l) [] (m_formatter l) (m_root l)) w).
Proof.
  intros Hw Hl. eapply runs_bind; [by eapply (runs_get_logger p l _ (fun k w' => k = l /\ w' = w))|].
  intros k w' Hw' _ [-> ->]. eapply runs_set_logger; try done.
  destruct (wf_logger _ Hw' _ _ Hl) as (Hf & _ & Hr). split; [done|]. split; [|done].
  intros ap Hin. by apply not_elem_of_nil in Hin.
Qed.

Lemma erase_first_incl ap ps x : x ∈ erase_first ap ps -> x ∈ ps.
Proof.
  induction ps as [|p ps IH]; simpl; [done|]. case_decide; [by right|].
  intros [->|Hx]%elem_of_cons; [left|right; auto].
Qed.

Lemma runs_delAppender p ap l w :
  log_wf w -> lw_loggers w !! p = Some l ->
  runs (delAppender p ap) w
    (fun _ w' => w' = set_logger p (mkLogger (m_name l) (m_level l) (erase_first ap (m_appenders l))
                                     (m_formatter l) (m_root l)) w).
Proof.
  intros Hw Hl. eapply runs_bind; [by eapply (runs_get_logger p l _ (fun k w' => k = l /\ w' = w))|].
  intros k w' Hw' _ [-> ->]. eapply runs_set_logger; try done.
  destruct (wf_logger _ Hw' _ _ Hl) as (Hf & Hap & Hr). split; [done|]. split; [|done].
  intros x Hx%erase_first_incl. by apply Hap.
Qed.

(** Giving an appender a formatter; the test in [addAppender]. *)
Definition with_formatter (f : LogFormatter) (a : LogAppender) : LogAppender :=
  mkAppender (ap_kind a) (ap_level a) (Some f) true.
Definition adopt (f : option LogFormatter) (a : LogAppender) : LogAppender :=
  match ap_formatter a, f with None, Some g => with_formatter g a | _, _ => a end.

Lemma runs_appender_setFormatter p f a w :
  log_wf w -> lw_appenders w !! p = Some a -> fit f ->
  runs (appender_setFormatter p (Some f)) w (fun _ w' => w' = set_appender p (with_formatter f a) w).
Proof.
  intros Hw Ha Hfit. eapply runs_bind; [by eapply (runs_get_appender p a _ (fun k w' => k = a /\ w' = w))|].
  intros k w' Hw' _ [-> ->]. eapply runs_set_appender; try done.
  - apply (wf_appender _ Hw _ _ Ha).
  - intros g [= <-]. by right.
Qed.

(** [setFormatter(nullptr)] on an appender that is on no logger. *)
Lemma runs_appender_forgetFormatter p a w :
  log_wf w -> lw_appenders w !! p = Some a -> detached p w ->
  runs (appender_setFormatter p None) w
    (fun _ w' => w' = set_appender p (mkAppender (ap_kind a) (ap_level a) None false) w).
Proof.
  intros Hw Ha Hdet. set (a' := mkAppender (ap_kind a) (ap_level a) None false).
  assert (upd p a' [] (lw_disk w) w = set_appender p a' w) as Heq.
  { unfold upd, set_appender. by rewrite app_nil_r. }
  destruct (wf_upd_or p a a' [] (lw_disk w) w) as [Hwf Hg];
    [done|done|apply (wf_appender _ Hw _ _ Ha)|by split; [|intros []]|by right|done|].
  rewrite Heq in Hwf, Hg. exists tt, (set_appender p a' w). split; [|done].
  unfold appender_setFormatter, get_appender. unfold_M. by rewrite Ha.
Qed.

(** [reopen()] on a file appender. *)
Lemma runs_reopen p fn ofs t lv f hf w :
  log_wf w -> lw_appenders w !! p = Some (mkAppender (FileLogAppender fn ofs t) lv f hf) ->
  runs (on_stream p (reopen fn)) w (fun _ w' => exists ofs' d', stream_ok fn ofs' /\
    w' = upd p (mkAppender (FileLogAppender fn ofs' t) lv f hf) [] d' w).
Proof using HP HF SinkLaws0.
  intros Hw Ha. pose proof (wf_appender _ Hw _ _ Ha) as [Hz Hok].
  destruct (reopen_spec fn ofs (lw_disk w) Hz) as (b & ofs' & d' & Hr & _ & Hok' & _).
  { unfold stream_ok in Hok. destruct (os_file ofs) as [g|]; [right; by subst|by left]. }
  destruct (wf_upd p _ (mkAppender (FileLogAppender fn ofs' t) lv f hf) [] d' w Hw Ha) as [Hwf Hg];
    [done|apply (wf_own _ Hw _ _ Ha)|done|intros g Hg; by left|].
  exists b, (upd p (mkAppender (FileLogAppender fn ofs' t) lv f hf) [] d' w).
  split; [|split; [done|split; [done|by exists ofs', d']]].
  rewrite <- (upd_id p _ w Ha) at 1. by apply on_stream_upd.
Qed.

Lemma runs_appender_setLevel p v a w :
  log_wf w -> lw_appenders w !! p = Some a ->
  runs (appender_setLevel p v) w
    (fun _ w' => w' = set_appender p (mkAppender (ap_kind a) v (ap_formatter a) (ap_hasFormatter a)) w).
Proof.
  intros Hw Ha. eapply runs_bind; [by eapply (runs_get_appender p a _ (fun k w' => k = a /\ w' = w))|].
  intros k w' Hw' _ [-> ->]. eapply runs_set_appender; try done.
  - apply (wf_appender _ Hw _ _ Ha).
  - apply (wf_own _ Hw _ _ Ha).
  - intros g Hg. by left.
Qed.

Lemma runs_addAppender p ap l a w :
  log_wf w -> lw_loggers w !! p = Some l -> lw_appenders w !! ap = Some a ->
  runs (addAppender p ap) w
    (fun _ w' => w' = set_logger p (mkLogger (m_name l) (m_level l) (m_appenders l ++ [ap]) (m_formatter l)
                                     (m_root l)) (set_appender ap (adopt (m_formatter l) a) w)).
Proof.
  intros Hw Hl Ha. eapply runs_bind; [by eapply (runs_get_logger p l _ (fun k w' => k = l /\ w' = w))|].
  intros k w' Hw' _ [-> ->].
  eapply runs_bind; [by eapply (runs_get_appender ap a _ (fun k w' => k = a /\ w' = w))|].
  intros b w' _ _ [-> ->]. destruct (wf_logger _ Hw _ _ Hl) as ((f & Hf & Hfit) & Hap & Hr).
  eapply (runs_bind _ _ _ (fun _ w' => w' = set_appender ap (adopt (m_formatter l) a) w)).
  - unfold adopt. rewrite Hf. destruct (ap_formatter a) eqn:Haf.
    + apply runs_ret; [done|]. unfold set_appender. destruct w; simpl in *. by rewrite insert_id.
    + by eapply runs_appender_setFormatter.
  - intros _ w' Hw1 _ ->. eapply runs_set_logger; try done. split; [by exists f|]. split; [|done].
    assert (is_Some (ap_formatter (adopt (m_formatter l) a))) as Hs.
    { unfold adopt. rewrite Hf. destruct (ap_formatter a) eqn:E; [by rewrite E|]. by eexists. }
    intros x. simpl. rewrite lookup_insert, elem_of_app, list_elem_of_singleton.
    case_decide; [intros _; eauto|]. intros [Hx|Hx]; [by apply Hap|congruence].
Qed.

(** No appender of a well-formed world waits for its logger's formatter. *)
Lemma inherit_formatter_none val ps (w : log_world D) :
  (forall ap, ap ∈ ps -> exists a, lw_appenders w !! ap = Some a /\ ap_hasFormatter a = true) ->
  inherit_formatter val ps w = (Ret tt, w).
Proof.
  induction ps as [|p ps IH]; intros Hps; simpl; [done|].
  destruct (Hps p ltac:(left)) as (a & Ha & Hh).
  rewrite (bind_ret _ _ w a w) by (unfold get_appender; by rewrite Ha). rewrite Hh.
  rewrite (bind_ret _ _ w tt w) by done. apply IH. intros ap Hin. apply Hps. by right.
Qed.

Lemma attached_owns p l ap w :
  log_wf w -> lw_loggers w !! p = Some l -> ap ∈ m_appenders l ->
  exists a, lw_appenders w !! ap = Some a /\ ap_hasFormatter a = true.
Proof.
  intros Hw Hl Hin. destruct (wf_logger _ Hw _ _ Hl) as (_ & Hap & _).
  destruct (Hap ap Hin) as (a & Ha & Hf). exists a. split; [done|]. by apply (wf_own _ Hw _ _ Ha).
Qed.

Lemma runs_setFormatter p f l w :
  log_wf w -> lw_loggers w !! p = Some l -> fit f ->
  runs (setFormatter p (Some f)) w
    (fun _ w' => w' = set_logger p (mkLogger (m_name l) (m_level l) (m_appenders l) (Some f) (m_root l)) w).
Proof.
  intros Hw Hl Hfit. eapply runs_bind; [by eapply (runs_get_logger p l _ (fun k w' => k = l /\ w' = w))|].
  intros k w' Hw' _ [-> ->].
  eapply runs_bind; [eapply (runs_set_logger p l _ w (fun _ w' => w' = _)); try done|].
  { destruct (wf_logger _ Hw' _ _ Hl) as (_ & Hap & Hr). split; [by exists f|by split]. }
  intros _ w1 Hw1 _ ->.
  eexists tt, _. split; [apply inherit_formatter_none|done].
  intros ap Hin. by eapply (attached_owns p l ap w).
Qed.

(** Only what was printed differs. *)
Definition silent (w w' : log_world D) : Prop :=
  lw_loggers w' = lw_loggers w /\ lw_appenders w' = lw_appenders w /\ lw_next w' = lw_next w /\
  lw_disk w' = lw_disk w.

Lemma runs_print_quiet text w : log_wf w -> runs (print text) w (fun _ w' => silent w w').
Proof. intros [H1 H2 H3 H5 H6 H4]. eexists tt, _. do 2 (split; [done|]). split; [split; eauto|done]. Qed.

Lemma runs_make_formatter pattern w :
  log_wf w -> runs (make_formatter pattern) w
    (fun f w' => silent w w' /\ formatter_for pattern f).
Proof.
  intros Hw. destruct (new_LogFormatter_made pattern) as (f & out & Hf & _).
  unfold make_formatter. eapply (runs_bind _ _ _ (fun r w' => r = (f, out) /\ w' = w)).
  { exists (f, out), w. unfold lift_res. by rewrite Hf. }
  intros r w' _ _ [-> ->]. eapply runs_bind; [by apply runs_print_quiet|].
  intros [] w1 Hw1 _ Hq. apply runs_ret; [done|]. split; [done|]. by exists out.
Qed.

Lemma runs_setFormatter_pattern p val l w :
  log_wf w -> lw_loggers w !! p = Some l -> (forall f, formatter_for val f -> fit f) ->
  runs (setFormatter_pattern p val) w
    (fun _ w' => exists f, formatter_for val f /\
       if m_error f then silent w w'
       else silent (set_logger p (mkLogger (m_name l) (m_level l) (m_appenders l) (Some f) (m_root l)) w) w').
Proof.
  intros Hw Hl Hfit. unfold setFormatter_pattern. eapply runs_bind; [by apply runs_print_quiet|].
  intros _ w1 Hw1 _ (Hl1 & Ha1 & Hn1 & Hd1). eapply runs_bind; [by apply runs_make_formatter|].
  intros f w2 Hw2 _ [(Hl2 & Ha2 & Hn2 & Hd2) Hf].
  assert (lw_loggers w2 !! p = Some l) as Hp by (by rewrite Hl2, Hl1).
  destruct (m_error f) eqn:He.
  - eapply runs_bind; [by eapply (runs_get_logger p l _ (fun k w' => k = l /\ w' = w2))|].
    intros k w' _ _ [-> ->]. eapply runs_weaken; [by apply runs_print_quiet|].
    intros [] w' (Hl3 & Ha3 & Hn3 & Hd3). exists f. split; [done|]. rewrite He.
    unfold silent. by rewrite Hl3, Ha3, Hn3, Hd3, Hl2, Ha2, Hn2, Hd2.
  - eapply runs_weaken; [by apply runs_setFormatter; [| |apply Hfit]|]. intros [] w' ->. exists f.
    split; [done|]. rewrite He. unfold silent, set_logger. simpl.
    by rewrite Hl2, Ha2, Hn2, Hd2, Hl1, Ha1, Hn1, Hd1.
Qed.

(** *** Making loggers *)
Definition fresh_stdout (f : LogFormatter) : LogAppender :=
  mkAppender StdoutLogAppender DEBUG (Some f) true.
Definition fresh_file (fn : str) (ofs : ofstream) (f : LogFormatter) : LogAppender :=
  mkAppender (FileLogAppender fn ofs 0) DEBUG (Some f) true.

Lemma runs_new_StdoutLogAppender w :
  log_wf w ->
  runs new_StdoutLogAppender w (fun p w' => p = lw_next w /\
    w' = mkLogWorld (<[lw_next w := mkAppender StdoutLogAppender DEBUG None false]> (lw_appenders w))
           (lw_loggers w) (S (lw_next w)) (lw_cout w) (lw_disk w)).
Proof.
  intros Hw. apply runs_alloc_appender; try done. split; [done|]. by intros [].
Qed.

Lemma runs_new_FileLogAppender fn w :
  log_wf w -> nul_free fn ->
  runs (new_FileLogAppender fn) w (fun p w' => p = lw_next w /\ exists ofs d', stream_ok fn ofs /\
    w' = mkLogWorld (<[lw_next w := mkAppender (FileLogAppender fn ofs 0) DEBUG None false]> (lw_appenders w))
           (lw_loggers w) (S (lw_next w)) (lw_cout w) d').
Proof using HP HF SinkLaws0.
  intros Hw Hz. destruct (reopen_spec fn (mkOfstream None false) (lw_disk w) Hz)
    as (b & ofs & d' & Hr & _ & Hok & _ & _); [by left|].
  pose proof (wf_fresh_appender _ Hw (lw_next w) (le_n _)) as Hnew.
  assert (forall ofs, owns_formatter (mkAppender (FileLogAppender fn ofs 0) DEBUG None false)) as Hown.
  { intros o. split; [done|]. by intros []. }
  set (w1 := mkLogWorld (<[lw_next w := mkAppender (FileLogAppender fn ofs 0) DEBUG None false]> (lw_appenders w))
           (lw_loggers w) (S (lw_next w)) (lw_cout w) d').
  exists (lw_next w), w1. split; [|split; [|split]].
  - unfold new_FileLogAppender, alloc_appender. erewrite bind_ret by done.
    erewrite bind_ret; [done|]. unfold on_stream. simpl. rewrite lookup_insert_eq, Hr.
    unfold set_disk, set_appender, w1. simpl. by rewrite insert_insert_eq.
  - destruct (runs_alloc_appender (mkAppender (FileLogAppender fn ofs 0) DEBUG None false) w
                (fun _ _ => True) Hw) as (q & w2 & H2 & Hw2 & _); [by split|done|done|done|].
    injection H2 as <- <-. destruct Hw2 as [G1 G2 G3 G5 G6 G4]. by split.
  - split; [eauto|]. intros q Hq. unfold w1. simpl. rewrite lookup_insert. by case_decide.
  - split; [done|]. by exists ofs, d'.
Qed.

(** The default pattern's formatter is one of them. *)
Context (default_fits : forall f, formatter_for default_pattern f -> fit f).

Lemma runs_new_Logger name w :
  log_wf w ->
  runs (new_Logger name) w (fun p w' => p = lw_next w /\ lw_loggers w !! p = None /\
    exists f, formatter_for default_pattern f /\
      lw_loggers w' = <[p := mkLogger name DEBUG [] (Some f) None]> (lw_loggers w) /\
      lw_appenders w' = lw_appenders w /\ lw_next w' = S (lw_next w)).
Proof using default_fits.
  intros Hw. unfold new_Logger. eapply runs_bind; [exact (runs_make_formatter default_pattern w Hw)|].
  intros f w1 Hw1 _ [(Hl & Ha & Hn & _) Hf]. apply runs_alloc_logger; [exact Hw1| |].
  - split; [by exists f; auto|]. split; [|done]. intros ap Hin. by apply not_elem_of_nil in Hin.
  - intros Hnew. rewrite Hn in Hnew. rewrite Hl in Hnew. rewrite Hn, Hl.
    split; [reflexivity|]. split; [exact Hnew|].
    exists f. simpl. by rewrite Ha.
Qed.

(** The same logger with two more appenders. *)
Definition with_appenders (ps : list nat) (l : Logger) : Logger :=
  mkLogger (m_name l) (m_level l) (m_appenders l ++ ps) (m_formatter l) (m_root l).

(** [applyDefaultConfig]: an appender to standard output, then one to the logger's
    file, both with the logger's formatter. *)
Lemma runs_applyDefaultConfig p l f w :
  log_wf w -> lw_loggers w !! p = Some l -> m_formatter l = Some f -> nul_free (m_name l) ->
  runs (applyDefaultConfig p) w (fun _ w' => exists ofs, stream_ok (log_file (m_name l)) ofs /\
    lw_loggers w' = <[p := with_appenders [lw_next w; S (lw_next w)] l]> (lw_loggers w) /\
    lw_appenders w' = <[S (lw_next w) := fresh_file (log_file (m_name l)) ofs f]>
                        (<[lw_next w := fresh_stdout f]> (lw_appenders w)) /\
    lw_next w' = S (S (lw_next w))).
Proof using HP HF SinkLaws0.
  intros Hw Hl Hf Hz. unfold applyDefaultConfig.
  eapply runs_bind; [by apply runs_new_StdoutLogAppender|]. intros out w1 Hw1 _ [-> Hw1e].
  assert (lw_loggers w1 !! p = Some l) as Hl1 by (by rewrite Hw1e).
  eapply runs_bind.
  { eapply (runs_addAppender p (lw_next w) l (mkAppender StdoutLogAppender DEBUG None false) w1 Hw1 Hl1). rewrite Hw1e. simpl. apply lookup_insert_eq. }
  intros u w2 Hw2 _ Hw2e. rewrite Hf in Hw2e. cbn [adopt ap_formatter] in Hw2e.
  set (l2 := mkLogger (m_name l) (m_level l) (m_appenders l ++ [lw_next w]) (Some f) (m_root l)) in *.
  assert (lw_loggers w2 !! p = Some l2) as Hl2 by (rewrite Hw2e; apply lookup_insert_eq).
  eapply runs_bind; [by eapply (runs_get_logger p l2 _ (fun k w' => k = l2 /\ w' = w2))|].
  intros k w' _ _ [Hk Hw']. rewrite Hk, Hw'.
  eapply runs_bind; [by apply runs_new_FileLogAppender; [|apply log_file_nul_free]|].
  intros fp w3 Hw3 _ [-> (ofs & d' & Hofs & Hw3e)].
  assert (lw_next w2 = S (lw_next w)) as Hn2 by (by rewrite Hw2e, Hw1e). rewrite Hn2 in *.
  eapply runs_weaken.
  { eapply (runs_addAppender p _ l2
      (mkAppender (FileLogAppender (log_file (m_name l)) ofs 0) DEBUG None false) w3 Hw3).
    - rewrite Hw3e. exact Hl2.
    - rewrite Hw3e. simpl. apply lookup_insert_eq. }
  intros _ w4 ->. exists ofs. split; [done|]. rewrite Hw3e, Hw2e, Hw1e. simpl.
  rewrite !insert_insert_eq. split; [|done].
  unfold with_appenders, l2. simpl. rewrite <- app_assoc, Hf. done.
Qed.

(** ** Reaching appenders through loggers *)

(** The logger that handles an event of this level sent to [p]: [p] itself when it
    has appenders, its root otherwise, if every level on the way admits it. *)
Inductive handles (w : log_world D) (level : Level) : nat -> Logger -> Prop :=
| handles_here p l :
    lw_loggers w !! p = Some l -> level_geb level (m_level l) = true -> m_appenders l <> [] ->
    handles w level p l
| handles_root p l r l' :
    lw_loggers w !! p = Some l -> level_geb level (m_level l) = true -> m_appenders l = [] ->
    m_root l = Some r -> handles w level r l' -> handles w level p l'.

(** The worlds agree on everything but the streams, the output and the disk. *)
Definition same_world (w w' : log_world D) : Prop :=
  lw_loggers w' = lw_loggers w /\ lw_next w' = lw_next w /\
  (forall p, option_Forall2 same_appender (lw_appenders w !! p) (lw_appenders w' !! p)).

(** What appender [p] of [w] adds to the file [g]. *)
Definition adds_to_file (w : log_world D) (g : str) (texts : nat -> str) (p : nat) (o : outcome) : str :=
  match lw_appenders w !! p with Some a => file_of a g (texts p) o | None => [] end.

Definition apart_from (w : log_world D) (ps : list nat) (g : str) : Prop :=
  forall p fn ofs t lv f hf, p ∈ ps ->
    lw_appenders w !! p = Some (mkAppender (FileLogAppender fn ofs t) lv f hf) -> fn = g \/ sink_apart fn g.

Lemma same_appender_refl a : same_appender a a.
Proof. by repeat split; destruct (ap_kind a). Qed.

Lemma same_appender_trans a b c : same_appender a b -> same_appender b c -> same_appender a c.
Proof.
  intros (H1 & H2 & H3 & H4) (G1 & G2 & G3 & G4). unfold same_appender.
  rewrite H1, H2, H3. repeat split; try done.
  destruct (ap_kind a), (ap_kind b), (ap_kind c); try done. congruence.
Qed.

#[export] Instance same_world_preorder : PreOrder same_world.
Proof.
  split.
  - intros w. split; [done|]. split; [done|]. intros p.
    destruct (lw_appenders w !! p) as [a|]; [constructor; apply same_appender_refl|constructor].
  - intros w1 w2 w3 (H1 & H2 & H3) (G1 & G2 & G3). split; [congruence|]. split; [congruence|].
    intros p. specialize (H3 p). specialize (G3 p). destruct H3; inversion G3; subst; constructor.
    by eapply same_appender_trans.
Qed.

Lemma upd_same_world p a a' out d w :
  lw_appenders w !! p = Some a -> same_appender a a' -> same_world w (upd p a' out d w).
Proof.
  intros Ha Hs. split; [done|]. split; [done|]. intros q. simpl. rewrite lookup_insert.
  case_decide; [subst; rewrite Ha; by constructor|].
  destruct (lw_appenders w !! q) as [b|]; [constructor; apply same_appender_refl|constructor].
Qed.

Lemma adds_to_file_same w w' g texts p o :
  same_world w w' -> adds_to_file w' g texts p o = adds_to_file w g texts p o.
Proof.
  intros (_ & _ & H). unfold adds_to_file. destruct (H p) as [a b (_ & _ & _ & Hk)|]; try done.
  unfold file_of. destruct (ap_kind a), (ap_kind b); try done. by subst.
Qed.

(** Every appender in [ps] exists and can format the event; [texts] says as what. *)
Definition formats (w : log_world D) (ps : list nat) (nm : str) (level : Level) (ev : LogEvent)
    (texts : nat -> str) : Prop :=
  forall p, p ∈ ps -> exists a, lw_appenders w !! p = Some a /\
    formatted strftime_local (ap_formatter a) nm level ev = Ret (texts p).

Definition all_ok (w : log_world D) : Prop := forall p a, lw_appenders w !! p = Some a -> appender_ok a.
Definition all_good (w : log_world D) : Prop := forall p a, lw_appenders w !! p = Some a -> stream_good a.
Definition outcome_at (w : log_world D) (level : Level) (p : nat) (o : outcome) : Prop :=
  exists a, lw_appenders w !! p = Some a /\ outcome_of level a o.
Definition no_failure (o : outcome) : Prop := match o with Failed _ _ => False | _ => True end.

Lemma log_all_spec ps nm level ev texts w :
  all_ok w -> formats w ps nm level ev texts ->
  exists os w', log_all strftime_local ps nm level ev w = (Ret tt, w') /\ same_world w w' /\ all_ok w' /\
    Forall2 (outcome_at w level) ps os /\
    lw_cout w' = lw_cout w ++ concat (zip_with (fun p o => cout_of (texts p) o) ps os) /\
    (forall g, apart_from w ps g -> sink_text (lw_disk w') g =
       sink_text (lw_disk w) g ++ concat (zip_with (adds_to_file w g texts) ps os)) /\
    (ReliableDisk D -> all_good w -> all_good w' /\ Forall no_failure os).
Proof using HP HF SinkLaws0.
  revert w. induction ps as [|p ps IH]; intros w Hok Hfmt.
  { exists [], w. split; [done|]. split; [done|]. split; [done|]. split; [constructor|].
    simpl. setoid_rewrite app_nil_r. done. }
  destruct (Hfmt p ltac:(left)) as (a & Ha & Hf).
  destruct (appender_log_spec p nm level ev (texts p) a w Ha (Hok p a Ha) Hf)
    as (o & a' & d' & Hlog & Hsame & Hok' & Ho & Hdisk & _ & Hrel).
  set (w1 := upd p a' (cout_of (texts p) o) d' w) in *.
  assert (same_world w w1) as Hw1 by (by eapply upd_same_world).
  destruct (IH w1) as (os & w2 & Hlog2 & Hw2 & Hok2 & Hos & Hcout & Hdisk2 & Hrel2).
  { intros q b. simpl. rewrite lookup_insert. case_decide; [by intros [= <-]|apply Hok]. }
  { intros q Hq. destruct (Hfmt q) as (b & Hb & Hbf); [by right|]. destruct Hw1 as (_ & _ & Hs).
    specialize (Hs q). rewrite Hb in Hs. inversion Hs as [? b' (_ & Hfb & _ & _)|]; subst.
    exists b'. split; [done|]. by rewrite <- Hfb. }
  exists (o :: os), w2. split; [by cbn [log_all]; rewrite (bind_ret _ _ w tt w1)|]. split; [by etransitivity|].
  split; [done|]. split; [|split; [|split]].
  - constructor; [by exists a|]. eapply Forall2_impl; [exact Hos|]. intros q oq (b & Hb & Hoq).
    destruct Hw1 as (_ & _ & Hs). specialize (Hs q). rewrite Hb in Hs.
    inversion Hs as [b0 ? (Hlv & _ & _ & Hk) Hb0|]; subst. exists b0. split; [done|].
    unfold outcome_of in *. rewrite Hlv. destruct (level_geb level (ap_level b)); [|done].
    by destruct (ap_kind b0), (ap_kind b).
  - rewrite Hcout. simpl. by rewrite app_assoc.
  - intros g Hg. rewrite Hdisk2.
    + simpl. rewrite (Hdisk g); [|destruct a as [[] ? ? ?]; simpl; [done|]; eapply Hg; [left|done]].
      rewrite <- app_assoc. do 2 f_equal; [by unfold adds_to_file; rewrite Ha|].
      f_equal. clear -Hw1. revert os. induction ps as [|q ps IHps]; intros [|oq os]; simpl; [done..|].
      by rewrite (adds_to_file_same w w1), IHps.
    + intros q fn ofs t lv f hf Hq Hb. destruct Hw1 as (_ & _ & Hs). specialize (Hs q).
      rewrite Hb in Hs. inversion Hs as [b0 ? (_ & _ & _ & Hk) Hb0|]; subst.
      destruct b0 as [[|fn0 ofs0 t0] lv0 f0 hf0]; simpl in Hk; [done|]. subst.
      eapply Hg; [by right|]. by symmetry.
  - intros HR Hgood. destruct (Hrel HR (Hgood p a Ha)) as [Hga Hno].
    destruct (Hrel2 HR) as [Hg2 Hno2]; [|split; [done|by constructor]].
    intros q b. simpl. rewrite lookup_insert. case_decide; [by intros [= <-]|apply Hgood].
Qed.

(** What the handling logger does with an event; nothing, when no logger handles it. *)
Definition delivered (w w' : log_world D) (level : Level) (l : Logger) (texts : nat -> str) : Prop :=
  exists os, Forall2 (outcome_at w level) (m_appenders l) os /\
    lw_cout w' = lw_cout w ++ concat (zip_with (fun p o => cout_of (texts p) o) (m_appenders l) os) /\
    (forall g, apart_from w (m_appenders l) g -> sink_text (lw_disk w') g =
       sink_text (lw_disk w) g ++ concat (zip_with (adds_to_file w g texts) (m_appenders l) os)) /\
    (ReliableDisk D -> all_good w -> all_good w' /\ Forall no_failure os).

Lemma logger_log_spec fuel p level ev w :
  log_wf w -> is_Some (lw_loggers w !! p) -> p <= fuel ->
  (forall l, handles w level p l ->
     exists texts, formats w (m_appenders l) (m_name l) level ev texts) ->
  exists w', logger_log strftime_local fuel p level ev w = (Ret tt, w') /\ same_world w w' /\ all_ok w' /\
    ((exists l texts, handles w level p l /\ formats w (m_appenders l) (m_name l) level ev texts /\
        delivered w w' level l texts) \/
     (w' = w /\ forall l, ~ handles w level p l)).
Proof using HP HF SinkLaws0.
  intros Hw. pose proof (wf_appender w Hw) as Hok. revert p. induction fuel as [|fuel IH];
    intros p [l Hl] Hfuel Hfmt; cbn [logger_log];
    rewrite (bind_ret _ _ w l w) by (unfold get_logger; by rewrite Hl).
  all: destruct (level_geb level (m_level l)) eqn:Hlv;
    [|exists w; do 3 (split; [done|]); right; split; [done|];
      intros l' Hh; inversion Hh; congruence].
  all: destruct (m_appenders l) as [|ap aps] eqn:Haps.
  2, 4: (assert (handles w level p l) as Hh by (apply handles_here; [done|done|congruence]);
    destruct (Hfmt l Hh) as [texts Ht];
    rewrite <- Haps; destruct (log_all_spec (m_appenders l) (m_name l) level ev texts w Hok Ht)
      as (os & w' & Hlog & Hs & Hok' & Hos & Hrest); exists w'; do 3 (split; [done|]);
    left; exists l, texts; do 2 (split; [done|]); by exists os).
  all: assert (forall l', handles w level p l' ->
         exists r, m_root l = Some r /\ handles w level r l') as Hup
    by (intros l' Hh; inversion Hh; simplify_eq; try congruence; by eexists).
  all: destruct (m_root l) as [r|] eqn:Hr;
    [|exists w; do 3 (split; [done|]); right; split; [done|];
      intros l' Hh; by destruct (Hup l' Hh) as (? & ? & _)].
  all: destruct (wf_logger _ Hw _ _ Hl) as (_ & _ & Hroot); destruct (Hroot r Hr) as [Hlt Hrs].
  - exfalso. lia.
  - destruct (IH r Hrs ltac:(lia)) as (w' & Hlog & Hs & Hok' & Hcase).
    { intros l' Hh. apply Hfmt. by eapply handles_root. }
    exists w'. do 3 (split; [done|]). destruct Hcase as [(l' & texts & Hh & Hd) | [-> Hno]].
    + left. exists l', texts. split; [by eapply handles_root|done].
    + right. split; [done|]. intros l' Hh. destruct (Hup l' Hh) as (r' & [= <-] & Hh'). by apply (Hno l').
Qed.

Lemma same_world_wf w w' : log_wf w -> same_world w w' -> all_ok w' -> log_wf w' /\ grows w w'.
Proof.
  intros [H1 H2 H3 H5 H6 H4] (Hl & Hn & Ha) Hok. split; [split|split].
  - intros p Hp. specialize (Ha p). rewrite H1 in Ha by congruence. by inversion Ha.
  - intros p Hp. rewrite Hl. apply H2. congruence.
  - done.
  - intros p b Hb. specialize (Ha p). rewrite Hb in Ha. inversion Ha as [a ? (_ & Hf & Hh & _) Heq|]; subst.
    unfold owns_formatter. rewrite <- Hf, <- Hh. by apply (H5 p).
  - intros p b f Hb. specialize (Ha p). rewrite Hb in Ha. inversion Ha as [a ? (_ & Hf & _) Heq|]; subst.
    rewrite <- Hf. by apply (H6 p).
  - intros p l. rewrite Hl. intros Hp. destruct (H4 p l Hp) as (Hf & Hap & Hr).
    split; [done|]. split; [|by rewrite Hl]. intros ap Hin. destruct (Hap ap Hin) as (a & Hap' & Hfa).
    specialize (Ha ap). rewrite Hap' in Ha. inversion Ha as [? b (_ & Hfb & _)|]; subst.
    exists b. by rewrite <- Hfb.
  - rewrite Hl. eauto.
  - intros p [a Hap]. specialize (Ha p). rewrite Hap in Ha. inversion Ha; subst. by eexists.
Qed.

(** Every event can be formatted when the dates fit. *)
Lemma handled_formats w level p l ev :
  (forall f, fit f -> formatter_fits strftime_local f) -> time_ok (ev_time ev) ->
  log_wf w -> handles w level p l ->
  exists texts, formats w (m_appenders l) (m_name l) level ev texts.
Proof.
  intros Hfit Htime Hw Hh.
  exists (fun p => match lw_appenders w !! p with
                   | Some a => match formatted strftime_local (ap_formatter a) (m_name l) level ev with
                               | Ret t => t | _ => [] end
                   | None => [] end).
  assert (exists q, lw_loggers w !! q = Some l) as [q Hq] by (clear Hfit; induction Hh; eauto).
  destruct (wf_logger _ Hw _ _ Hq) as (_ & Hap & _). intros ap Hin.
  destruct (Hap ap Hin) as (a & Ha & [f Hf]). exists a. split; [done|]. rewrite Ha, Hf. simpl.
  destruct (items_format_ret strftime_local (m_name l) level ev (m_items f)) as [t Ht];
    [apply Hfit; by eapply wf_fits|done|].
  by rewrite Ht.
Qed.

Lemma runs_logger_log fuel p level ev w :
  (forall f, fit f -> formatter_fits strftime_local f) -> time_ok (ev_time ev) ->
  log_wf w -> is_Some (lw_loggers w !! p) -> p <= fuel ->
  runs (logger_log strftime_local fuel p level ev) w (fun _ w' => same_world w w').
Proof using HP HF SinkLaws0.
  intros Hfit Htime Hw Hp Hfuel.
  destruct (logger_log_spec fuel p level ev w Hw Hp Hfuel) as (w' & Hlog & Hs & Hok & _).
  { intros l Hh. by eapply handled_formats. }
  destruct (same_world_wf w w' Hw Hs Hok) as [Hw' Hg]. by exists tt, w'.
Qed.

(** ** The manager *)

(** The manager's map leads to loggers of these names, and its root exists. *)
Definition mgr_ok (mgr : LoggerManager) (w : log_world D) : Prop :=
  (forall name p, m_loggers mgr !! name = Some p ->
     exists l, lw_loggers w !! p = Some l /\ m_name l = name) /\
  is_Some (lw_loggers w !! mgr_root mgr).

Lemma mgr_ok_grows mgr w w' : mgr_ok mgr w -> grows w w' -> mgr_ok mgr w'.
Proof.
  intros [Hm [r Hr]] [Hg _]. split.
  - intros name p Hp. destruct (Hm name p Hp) as (l & Hl & <-). by apply Hg.
  - destruct (Hg _ _ Hr) as (r' & Hr' & _). by eexists.
Qed.

(** A logger as [getLogger] makes it. *)
Definition fresh_logger (name : str) (p root : nat) (f : LogFormatter) : Logger :=
  mkLogger name DEBUG [S p; S (S p)] (Some f) (Some root).

Definition default_appenders (p : nat) (name : str) (ofs : ofstream) (f : LogFormatter)
    (m : gmap nat LogAppender) : gmap nat LogAppender :=
  <[S p := fresh_file (log_file name) ofs f]> (<[p := fresh_stdout f]> m).

Lemma runs_getLogger mgr name w :
  log_wf w -> mgr_ok mgr w -> nul_free name ->
  runs (getLogger mgr name) w (fun r w' => mgr_ok (snd r) w' /\ mgr_root (snd r) = mgr_root mgr /\
    m_loggers (snd r) !! name = Some (fst r) /\
    match m_loggers mgr !! name with
    | Some q => r = (q, mgr) /\ w' = w
    | None => fst r = lw_next w /\ exists f ofs, formatter_for default_pattern f /\
        lw_loggers w' = <[fst r := fresh_logger name (fst r) (mgr_root mgr) f]> (lw_loggers w) /\
        lw_appenders w' = default_appenders (S (fst r)) name ofs f (lw_appenders w) /\
        m_loggers (snd r) = <[name := fst r]> (m_loggers mgr)
    end).
Proof using HP HF SinkLaws0 default_fits.
  intros Hw Hm Hz. unfold getLogger. destruct (m_loggers mgr !! name) as [q|] eqn:Hq.
  { by apply runs_ret. }
  eapply runs_bind; [by apply runs_new_Logger|]. intros p w1 Hw1 Hg1 (-> & Hnew & f & Hf & Hl1 & Ha1 & Hn1).
  set (p := lw_next w) in *.
  assert (lw_loggers w1 !! p = Some (mkLogger name DEBUG [] (Some f) None)) as Hp1
    by (rewrite Hl1; apply lookup_insert_eq).
  eapply runs_bind; [by eapply runs_applyDefaultConfig|]. intros u w2 Hw2 Hg2 (ofs & _ & Hl2 & Ha2 & _).
  simpl in Hl2, Ha2. rewrite Hn1 in Hl2, Ha2.
  set (l2 := with_appenders [S p; S (S p)] (mkLogger name DEBUG [] (Some f) None)) in *.
  assert (lw_loggers w2 !! p = Some l2) as Hp2 by (rewrite Hl2; apply lookup_insert_eq).
  eapply runs_bind; [by eapply (runs_get_logger p l2 _ (fun k w' => k = l2 /\ w' = w2))|].
  intros k w' _ _ [-> ->].
  destruct Hm as [Hnames [r Hr]].
  assert (mgr_root mgr < p) as Hlt.
  { destruct (decide (mgr_root mgr < p)) as [|Hge]; [done|].
    rewrite (wf_fresh_logger _ Hw) in Hr by (unfold p in Hge; lia). done. }
  eapply (runs_bind _ _ _ (fun _ w' => w' = set_logger p (fresh_logger name p (mgr_root mgr) f) w2)).
  - eapply runs_set_logger; try done. destruct (wf_logger _ Hw2 _ _ Hp2) as (Hf2 & Hap2 & _).
    split; [done|]. split; [done|]. intros r' [= <-]. split; [done|].
    rewrite Hl2, lookup_insert_ne by lia. rewrite Hl1, lookup_insert_ne by lia. by eexists.
  - intros _ w3 Hw3 Hg3 ->.
    assert (lw_loggers (set_logger p (fresh_logger name p (mgr_root mgr) f) w2) =
      <[p := fresh_logger name p (mgr_root mgr) f]> (lw_loggers w)) as Hl3.
    { simpl. by rewrite Hl2, Hl1, !insert_insert_eq. }
    apply runs_ret; [done|]. unfold fst, snd. split; [|split; [done|split; [apply lookup_insert_eq|]]].
    + split; [|rewrite Hl3; cbn [mgr_root]; rewrite lookup_insert_ne by lia; by eexists].
      intros name' p'. cbn [m_loggers]. rewrite Hl3, !lookup_insert.
      case_decide as Hn; [intros [= <-]; rewrite decide_True by done; subst; by eexists|].
      intros Hp'. destruct (Hnames name' p' Hp') as (l' & Hl' & Hn').
      rewrite decide_False; [by exists l'|]. intros <-. congruence.
    + split; [done|]. exists f, ofs. split; [done|]. split; [exact Hl3|]. split; [|done].
      unfold set_logger. simpl. by rewrite Ha2, Ha1.
Qed.

Lemma runs_new_LoggerManager w :
  log_wf w ->
  runs new_LoggerManager w (fun mgr w' => mgr_ok mgr w' /\ mgr_root mgr = lw_next w /\
    m_loggers mgr = {[ $"root" := lw_next w ]} /\
    exists f o1 o2, formatter_for default_pattern f /\ let p := lw_next w in
      lw_loggers w' = <[p := mkLogger $"root" DEBUG [S p; S (S p); S (S (S p)); S (S (S (S p)))]
                               (Some f) None]> (lw_loggers w) /\
      lw_appenders w' = default_appenders (S (S (S p))) $"root" o2 f
                          (default_appenders (S p) $"root" o1 f (lw_appenders w))).
Proof using HP HF SinkLaws0 default_fits.
  intros Hw. unfold new_LoggerManager.
  assert (nul_free $"root") as Hz by (unfold nul_free; vm_compute; set_solver).
  eapply runs_bind; [by apply runs_new_Logger|]. intros p w1 Hw1 _ (-> & Hnew & f & Hf & Hl1 & Ha1 & Hn1).
  set (p := lw_next w) in *. set (l1 := mkLogger $"root" DEBUG [] (Some f) None) in *.
  assert (lw_loggers w1 !! p = Some l1) as Hp1 by (rewrite Hl1; apply lookup_insert_eq).
  eapply runs_bind; [by eapply runs_applyDefaultConfig|]. intros u w2 Hw2 _ (o1 & _ & Hl2 & Ha2 & Hn2).
  set (l2 := with_appenders [lw_next w1; S (lw_next w1)] l1) in *.
  assert (lw_loggers w2 !! p = Some l2) as Hp2 by (rewrite Hl2; apply lookup_insert_eq).
  eapply runs_bind; [by eapply (runs_get_logger p l2 _ (fun k w' => k = l2 /\ w' = w2))|].
  intros k w' _ _ [-> ->].
  eapply runs_bind; [by eapply runs_applyDefaultConfig|]. intros v w3 Hw3 _ (o2 & _ & Hl3 & Ha3 & _).
  apply runs_ret; [done|].
  assert (lw_loggers w3 = <[p := with_appenders [lw_next w2; S (lw_next w2)] l2]> (lw_loggers w)) as Hl.
  { by rewrite Hl3, Hl2, Hl1, !insert_insert_eq. }
  split; [|split; [done|split; [done|]]].
  - split; [|rewrite Hl; cbn [mgr_root]; rewrite lookup_insert_eq; by eexists].
    intros name q. cbn [m_loggers]. rewrite lookup_singleton. case_decide as Hn; [|done].
    intros [= <-]. rewrite Hl, lookup_insert_eq. subst name. by eexists.
  - exists f, o1, o2. split; [done|]. simpl.
    split; [by rewrite Hl; unfold l2; rewrite Hn2, Hn1|].
    rewrite Ha3, Hn2, Ha2, Hn1, Ha1. done.
Qed.
End Spec.

(** ** The operations of the module, as its users call them *)
Inductive log_op : Type :=
| OpGetLogger (name : str)
| OpSetLevel (p : nat) (level : Level)
| OpSetFormatter (p : nat) (f : LogFormatter)
| OpSetPattern (p : nat) (pattern : str)
| OpAddAppender (p ap : nat)
| OpDelAppender (p ap : nat)
| OpClearAppenders (p : nat)
| OpNewStdout
| OpNewFile (filename : str)
| OpAppenderLevel (ap : nat) (level : Level)
| OpAppenderFormatter (ap : nat) (f : option LogFormatter)
| OpReopen (ap : nat)
| OpLog (site : log_site) (p : nat) (level : Level) (text : str)
| OpLogEvent (p : nat) (level : Level) (event : LogEvent).

Section Ops.
Context {D : Type} `{HP : Posix D} `{HF : FileSink D}.
Context (strftime_local : str -> Z -> option str).

(** The objects an operation is called on exist, paths are C strings, dates fit their
    buffer, and no appender that loggers use loses its formatter. *)
Definition op_enabled (o : log_op) (w : log_world D) : Prop :=
  match o with
  | OpGetLogger name => nul_free name
  | OpSetLevel p _ | OpDelAppender p _ | OpClearAppenders p => is_Some (lw_loggers w !! p)
  | OpSetFormatter p f => is_Some (lw_loggers w !! p) /\ formatter_fits strftime_local f
  | OpSetPattern p pattern => is_Some (lw_loggers w !! p) /\ pattern_fits strftime_local pattern
  | OpAddAppender p ap => is_Some (lw_loggers w !! p) /\ is_Some (lw_appenders w !! ap)
  | OpNewStdout => True
  | OpNewFile filename => nul_free filename
  | OpAppenderLevel ap _ => is_Some (lw_appenders w !! ap)
  | OpAppenderFormatter ap f => is_Some (lw_appenders w !! ap) /\
      match f with Some f => formatter_fits strftime_local f | None => detached ap w end
  | OpReopen ap => exists fn ofs t lv f hf, lw_appenders w !! ap = Some (mkAppender (FileLogAppender fn ofs t) lv f hf)
  | OpLog site p _ _ => is_Some (lw_loggers w !! p) /\ site_ok site
  | OpLogEvent p _ event => is_Some (lw_loggers w !! p) /\ time_ok (ev_time event)
  end.

(** [appender->reopen()], a method of file appenders only. *)
Definition appender_reopen (ap : nat) : M (log_world D) bool :=
  a ← get_appender ap;
  match ap_kind a with
  | FileLogAppender filename _ _ => on_stream ap (reopen filename)
  | StdoutLogAppender => ub $"no file appender"
  end.

Definition run_log_op (o : log_op) (mgr : LoggerManager) : M (log_world D) LoggerManager :=
  match o with
  | OpGetLogger name => r ← getLogger mgr name; mret (snd r)
  | OpSetLevel p level => setLevel p level;; mret mgr
  | OpSetFormatter p f => setFormatter p (Some f);; mret mgr
  | OpSetPattern p pattern => setFormatter_pattern p pattern;; mret mgr
  | OpAddAppender p ap => addAppender p ap;; mret mgr
  | OpDelAppender p ap => delAppender p ap;; mret mgr
  | OpClearAppenders p => clearAppenders p;; mret mgr
  | OpNewStdout => new_StdoutLogAppender;; mret mgr
  | OpNewFile filename => new_FileLogAppender filename;; mret mgr
  | OpAppenderLevel ap level => appender_setLevel ap level;; mret mgr
  | OpAppenderFormatter ap f => appender_setFormatter ap f;; mret mgr
  | OpReopen ap => appender_reopen ap;; mret mgr
  | OpLog site p level text => log_macro strftime_local p site p level text;; mret mgr
  | OpLogEvent p level event => logger_log strftime_local p p level event;; mret mgr
  end.

Context `{!SinkLaws D} `{!StrftimeLaws strftime_local}.
Local Abbreviation fit := (formatter_fits strftime_local).

Lemma runs_then {A B} (m : M (log_world D) A) (b : B) w Q :
  runs fit m w Q -> runs fit (m;; mret b) w (fun b' _ => b' = b).
Proof. intros Hm. eapply runs_bind; [exact Hm|]. intros a w' Hw' _ _. by apply runs_ret. Qed.

(** The two kinds of macros log the same; when [vasprintf] fails the event is empty. *)
Lemma fmt_macro_logs fuel site p level formatted w :
  fmt_macro strftime_local fuel site p level formatted w =
  log_macro strftime_local fuel site p level (default [] formatted) w.
Proof.
  assert (event_format formatted (site_event site p level []) = site_event site p level (default [] formatted)) as He
    by by destruct formatted.
  unfold fmt_macro, log_macro. by rewrite He.
Qed.

Lemma runs_log_macro site p level text w :
  log_wf fit w -> is_Some (lw_loggers w !! p) -> site_ok site ->
  runs fit (log_macro strftime_local p site p level text) w (fun _ w' => same_world w w').
Proof using HP HF SinkLaws0.
  intros Hw [l Hl] Hsite. unfold log_macro.
  eapply runs_bind; [by eapply (runs_get_logger fit p l _ (fun k w' => k = l /\ w' = w))|].
  intros k w' _ _ [-> ->]. destruct (level_geb level (m_level l)).
  - apply runs_logger_log; [done|by apply site_event_time|done|by eexists|done].
  - apply runs_ret; [done|reflexivity].
Qed.

Lemma run_log_op_runs o mgr w :
  log_wf fit w -> mgr_ok mgr w -> op_enabled o w ->
  runs fit (run_log_op o mgr) w (fun mgr' w' => mgr_ok mgr' w').
Proof using HP HF SinkLaws0 StrftimeLaws0.
  intros Hw Hm He. pose proof (default_pattern_fits strftime_local _) as Hdef.
  assert (forall A (m : M (log_world D) A) Q, runs fit m w Q ->
    runs fit (m;; mret mgr) w (fun mgr' w' => mgr_ok mgr' w')) as Hthen.
  { intros A m Q Hm1. destruct (runs_then m mgr w Q Hm1) as (mgr' & w' & Hr & Hw' & Hg & ->).
    exists mgr, w'. do 3 (split; [done|]). by eapply mgr_ok_grows. }
  destruct o; simpl in *.
  - eapply runs_bind; [by apply runs_getLogger|]. intros r w' Hw' _ (Hm' & _). by apply runs_ret.
  - destruct He as [l Hl]. eapply Hthen, (runs_setLevel fit p level l); done.
  - destruct He as [[l Hl] Hf]. eapply Hthen, (runs_setFormatter fit p f l); done.
  - destruct He as [[l Hl] Hf]. eapply Hthen, (runs_setFormatter_pattern fit p pattern l); done.
  - destruct He as [[l Hl] [a Ha]]. eapply Hthen, (runs_addAppender fit p ap l a); done.
  - destruct He as [l Hl]. eapply Hthen, (runs_delAppender fit p ap l); done.
  - destruct He as [l Hl]. eapply Hthen, (runs_clearAppenders fit p l); done.
  - by eapply Hthen, runs_new_StdoutLogAppender.
  - by eapply Hthen, runs_new_FileLogAppender.
  - destruct He as [a Ha]. eapply Hthen, (runs_appender_setLevel fit ap level a); done.
  - destruct He as [[a Ha] Hf]. destruct f as [f|].
    + eapply Hthen, (runs_appender_setFormatter fit ap f a); done.
    + eapply Hthen, (runs_appender_forgetFormatter fit ap a); done.
  - destruct He as (fn & ofs & t & lv & f & hf & Ha). eapply (Hthen _ _ (fun _ _ => True)). unfold appender_reopen.
    eapply runs_bind; [by eapply (runs_get_appender fit ap _ _ (fun k w' => k = mkAppender (FileLogAppender fn ofs t) lv f hf /\ w' = w))|].
    intros k w' Hw' _ [-> ->]. eapply runs_weaken; [by eapply runs_reopen|done].
  - destruct He as [He Hs]. by eapply Hthen, runs_log_macro.
  - destruct He as [He Ht]. by eapply Hthen, runs_logger_log.
Qed.

(** A world without loggers. *)
Definition empty_world (d : D) : log_world D := mkLogWorld ∅ ∅ 0 [] d.

Lemma empty_world_wf (P : LogFormatter -> Prop) d : log_wf P (empty_world d).
Proof. split; intros; simpl in *; rewrite ?lookup_empty in *; done. Qed.
End Ops.

(** ** A disk for examples: the texts of the files, on which nothing fails *)
Abbreviation text_fs := (gmap str str).

#[export] Instance text_posix : Posix text_fs := {
  os_lstat d p := (fun _ => (32768%Z, 1%Z)) <$> d !! p;
  os_access d p := true;
  os_mkdir p d := (true, d);
  os_unlink p d := (true, delete p d);
  os_rmdir p d := (true, d);
  os_rename from to d := (false, d);
  os_symlink from to d := (false, d);
  os_realpath d p := Some p;
  os_readdir d p := None;
  os_getline d p := None;
  os_kill0 d pid := true;
  os_open_read d p := bool_decide (is_Some (d !! p));
  os_open_app p d := (true, d)
}.

#[export] Instance text_sink : FileSink text_fs := {
  os_write f t d := (true, <[f := default [] (d !! f) ++ t]> d)
}.

#[export] Instance text_sink_laws : SinkLaws text_fs.
Proof.
  refine {| sink_text d f := default [] ((d : text_fs) !! f); sink_apart (f g : str) := f <> g |}.
  - intros fn t d b d' [= <- <-]. exists (length t). rewrite lookup_insert_eq.
    by rewrite take_ge by lia.
  - intros fn t d b d' g [= <- <-] Hne. by rewrite lookup_insert_ne by done.
  - by intros p d b d' g [= <- <-].
  - by intros p d b d' g [= <- <-].
Defined.

#[export] Instance text_reliable : ReliableDisk text_fs.
Proof. by split. Qed.

Definition sample_site : log_site := mkSite $"main.cc" 7 11 2 1700000000 $"main".

Lemma sample_site_ok : site_ok sample_site.
Proof. by vm_compute. Qed.

Definition sample_event : LogEvent := site_event sample_site 0 WARN $"disk full".

(** The world after start-up, with its manager. *)
Definition started : res LoggerManager * log_world text_fs := new_LoggerManager (empty_world ∅).
Definition started_mgr : LoggerManager := match fst started with Ret m => m | _ => mkManager ∅ 0 end.
Definition started_world : log_world text_fs := snd started.

Lemma started_ok : log_wf (formatter_fits sample_strftime) started_world /\ mgr_ok started_mgr started_world.
Proof.
  destruct (runs_new_LoggerManager _ (default_pattern_fits sample_strftime _) (empty_world ∅) (empty_world_wf _ _))
    as (m & w & Hn & Hw & _ & Hm & _).
  unfold started_world, started_mgr, started. rewrite Hn. cbn [fst snd]. split; assumption.
Qed.

(** Nothing is asked of the formatters. *)
Definition any_formatter (f : LogFormatter) : Prop := True.

Lemma log_wf_any {D} (P : LogFormatter -> Prop) (w : log_world D) : log_wf P w -> log_wf any_formatter w.
Proof.
  intros [H1 H2 H3 H5 H6 H4]. split; try done. intros p l Hl. destruct (H4 p l Hl) as ((f & Hf & _) & Hrest).
  split; [by exists f|done].
Qed.

Lemma started_root : is_Some (lw_loggers started_world !! 0).
Proof. destruct started_ok as [_ [_ H]]. exact H. Qed.

(** ** The claims *)



(** C39.  A null formatter is dereferenced.  [LogAppender::setFormatter] accepts a null
    pointer, and an appender that has one, added to a logger before, dereferences it at
    the next event of its level. *)
Theorem null_formatter_is_dereferenced (D : Type) (os : Posix D) (sink : FileSink D) (laws : SinkLaws D)
    (strftime_local : str -> Z -> option str) p a nm level ev (w : log_world D) :
  lw_appenders w !! p = Some a -> appender_ok a -> level_geb level (ap_level a) = true ->
  exists w', appender_setFormatter p None w = (Ret tt, w') /\
    is_ub (fst (appender_log strftime_local p nm level ev w')) = true.
Proof.
  intros Ha Hok Hlv. set (a' := mkAppender (ap_kind a) (ap_level a) None false).
  exists (set_appender p a' w). split; [unfold appender_setFormatter, get_appender; unfold_M; by rewrite Ha|].
  assert (lw_appenders (set_appender p a' w) !! p = Some a') as Ha' by apply lookup_insert_eq.
  set (w0 := set_appender p a' w) in *. unfold appender_log.
  erewrite bind_ret by (unfold get_appender; by rewrite Ha'). unfold a' at 1. cbn [ap_level]. rewrite Hlv.
  unfold a' at 1. cbn [ap_kind]. destruct a as [[|fn ofs t] lv f hf]; cbn [ap_kind ap_level] in *; [done|].
  destruct Hok as [Hz Hok].
  destruct (reopen_if_due_spec p fn ofs t lv None false [] (lw_disk w0) (Z.leb (u64 (t + 3)) (ev_time ev))
              (ev_time ev) w0 Hz Hok) as (ofs1 & t1 & d1 & H1 & _).
  rewrite (upd_id p (mkAppender (FileLogAppender fn ofs t) lv None false) w0 Ha') in H1. erewrite bind_ret by exact H1. erewrite bind_ret by apply get_appender_upd.
  cbn [stream_of ap_kind ap_formatter]. unfold mbind, M_bind. by destruct (is_open ofs1).
Qed.

Lemma null_formatter_is_dereferenced_witness :
  exists w', appender_setFormatter 2 None started_world = (Ret tt, w') /\
    is_ub (fst (appender_log sample_strftime 2 $"root" INFO sample_event w')) = true.
Proof.
  eassert (lw_appenders started_world !! 2 = Some _) as Ha by (vm_compute; reflexivity).
  apply (null_formatter_is_dereferenced text_fs _ _ _ sample_strftime 2 _ $"root" INFO sample_event started_world Ha);
    [|reflexivity].
  apply (wf_appender _ _ (proj1 started_ok) 2 _ Ha).
Defined.

(** C13.  [Logger::log] delivers: the event goes to the first logger on the way to the
    root that has appenders, provided every level on the way admits it, and nowhere
    otherwise; each appender of that logger, in order, skips it below its own level,
    prints it, writes it, or reports a failure; standard output and every file grow
    by exactly these texts, and on a disk that does not fail none is lost. *)
Theorem log_delivers (D : Type) (os : Posix D) (sink : FileSink D) (laws : SinkLaws D)
    (strftime_local : str -> Z -> option str) fuel p level ev (w : log_world D) :
  log_wf any_formatter w -> is_Some (lw_loggers w !! p) -> p <= fuel ->
  (forall l, handles w level p l ->
     exists texts, formats strftime_local w (m_appenders l) (m_name l) level ev texts) ->
  exists w', logger_log strftime_local fuel p level ev w = (Ret tt, w') /\ same_world w w' /\
    ((exists l texts, handles w level p l /\
        formats strftime_local w (m_appenders l) (m_name l) level ev texts /\
        delivered w w' level l texts) \/
     (w' = w /\ forall l, ~ handles w level p l)).
Proof.
  intros Hw Hp Hfuel Hfmt.
  destruct (logger_log_spec strftime_local any_formatter fuel p level ev w Hw Hp Hfuel Hfmt)
    as (w' & Hlog & Hs & _ & Hcase).
  exists w'. split; [exact Hlog|]. split; [exact Hs|exact Hcase].
Qed.

Lemma log_delivers_witness :
  exists w', logger_log sample_strftime 0 0 WARN sample_event started_world = (Ret tt, w') /\
    same_world started_world w'.
Proof.
  destruct (log_delivers text_fs _ _ _ sample_strftime 0 0 WARN sample_event started_world) as (w' & Hlog & Hs & _).
  - by eapply log_wf_any, started_ok.
  - apply started_root.
  - apply le_n.
  - intros l Hl. exact (handled_formats sample_strftime _ started_world WARN 0 l sample_event (fun f Hf => Hf)
                         (site_event_time _ _ _ _ sample_site_ok) (proj1 started_ok) Hl).
  - exists w'. split; [exact Hlog|exact Hs].
Defined.

(** C29.  [getLogger] hands out one logger per name: a known name gets its logger and
    nothing changes; for a new one a logger is made at level DEBUG with an appender
    to standard output and one to log/<name>.txt, both formatting with the default
    pattern, backed by the root logger, and asking again gives the same logger. *)
Theorem getLogger_one_per_name (D : Type) (os : Posix D) (sink : FileSink D) (laws : SinkLaws D)
    (mgr : LoggerManager) (name : str) (w : log_world D) :
  log_wf any_formatter w -> mgr_ok mgr w -> nul_free name ->
  exists p mgr' w', getLogger mgr name w = (Ret (p, mgr'), w') /\
    (exists l, lw_loggers w' !! p = Some l /\ m_name l = name) /\
    getLogger mgr' name w' = (Ret (p, mgr'), w') /\
    match m_loggers mgr !! name with
    | Some q => p = q /\ w' = w
    | None => exists f ofs, formatter_for default_pattern f /\
        lw_loggers w' = <[p := fresh_logger name p (mgr_root mgr) f]> (lw_loggers w) /\
        lw_appenders w' = default_appenders (S p) name ofs f (lw_appenders w)
    end.
Proof.
  intros Hw Hm Hz.
  destruct (runs_getLogger any_formatter (fun _ _ => I) mgr name w Hw Hm Hz)
    as ([p mgr'] & w' & Hr & Hw' & _ & [Hnames _] & _ & Hp & Hcase).
  cbn [fst snd] in *. exists p, mgr', w'. split; [exact Hr|]. split; [by apply Hnames|].
  split; [unfold getLogger; rewrite Hp; reflexivity|].
  destruct (m_loggers mgr !! name) as [q|].
  - destruct Hcase as [[= -> _] ->]. by split.
  - destruct Hcase as (_ & f & ofs & Hf & Hl & Ha & _). exists f, ofs. split; [exact Hf|]. by split.
Qed.

Lemma getLogger_one_per_name_witness :
  exists p mgr' w', getLogger started_mgr $"net" started_world = (Ret (p, mgr'), w') /\
    getLogger mgr' $"net" w' = (Ret (p, mgr'), w').
Proof.
  destruct (getLogger_one_per_name text_fs _ _ _ started_mgr $"net" started_world)
    as (p & mgr' & w' & Hr & _ & Hagain & _).
  - by eapply log_wf_any, started_ok.
  - apply started_ok.
  - unfold nul_free; vm_compute; set_solver.
  - exists p, mgr', w'. split; [exact Hr|exact Hagain].
Defined.

(** The manager applies the default configuration to the root logger twice: it
    starts with two appenders to standard output and two to log/root.txt, and an
    event of level DEBUG or above logged to it appears twice on standard output,
    with at most failure messages of the file appenders after each. *)
Theorem root_logs_twice (D : Type) (os : Posix D) (sink : FileSink D) (laws : SinkLaws D)
    (strftime_local : str -> Z -> option str) (dates : StrftimeLaws strftime_local) (d : D) level ev :
  time_ok (ev_time ev) -> level_geb level DEBUG = true ->
  exists mgr w w' text o1 o2, new_LoggerManager (empty_world d) = (Ret mgr, w) /\
    logger_log strftime_local (mgr_root mgr) (mgr_root mgr) level ev w = (Ret tt, w') /\
    lw_cout w' = lw_cout w ++ text ++ cout_of text o1 ++ text ++ cout_of text o2 /\
    (o1 <> Printed /\ o2 <> Printed) /\
    exists f, formatter_for default_pattern f /\
      items_format strftime_local $"root" level ev (m_items f) = Ret text.
Proof.
  intros Htime Hlv. pose proof (default_pattern_fits strftime_local dates) as Hdef.
  destruct (runs_new_LoggerManager _ Hdef (empty_world d) (empty_world_wf _ d))
    as (mgr & w & Hn & Hw & _ & Hm & Hroot & _ & f & s1 & s2 & Hf & Hl & Ha).
  destruct (items_format_ret strftime_local $"root" level ev (m_items f) (Hdef f Hf) Htime) as [text Ht].
  cbn [lw_next empty_world lw_loggers lw_appenders] in Hroot, Hl, Ha.
  revert Hn. generalize (new_LoggerManager (empty_world d)). intros start Hn.
  set (l := mkLogger $"root" DEBUG [1; 2; 3; 4] (Some f) None) in *.
  assert (lw_loggers w !! 0 = Some l) as Hl0 by (rewrite Hl; apply lookup_insert_eq).
  assert (handles w level 0 l) as Hh by (by apply handles_here).
  assert (forall p a, lw_appenders w !! p = Some a -> ap_formatter a = Some f) as Hap.
  { intros p a. rewrite Ha. unfold default_appenders. rewrite !lookup_insert, lookup_empty.
    by repeat case_decide; intros [= <-]. }
  destruct (logger_log_spec strftime_local _ 0 0 level ev w Hw ltac:(by eexists) (le_n _))
    as (w' & Hlog & _ & _ & [(l' & texts & Hh' & Hfm & (outs & Hos & Hcout & _)) | [_ Hno]]).
  { intros l' Hl'. exact (handled_formats strftime_local _ w level 0 l' ev (fun f Hf => Hf) Htime Hw Hl'). }
  2:{ exfalso. by apply (Hno l). }
  assert (l' = l) as -> by (inversion Hh'; simplify_eq; congruence).
  cbn [m_appenders l m_name] in *.
  assert (forall p, p ∈ [1; 2; 3; 4] -> texts p = text) as Htx.
  { intros p Hp. destruct (Hfm p Hp) as (a & Hpa & Hfa). rewrite (Hap p a Hpa) in Hfa. simpl in Hfa.
    unfold l in Hfa. cbn [m_name] in Hfa. congruence. }
  inversion Hos as [|? x1 ? t1 (a1 & Ha1 & Ho1) Hos1]; subst.
  inversion Hos1 as [|? x2 ? t2 (a2 & Ha2 & Ho2) Hos2]; subst.
  inversion Hos2 as [|? x3 ? t3 (a3 & Ha3 & Ho3) Hos3]; subst.
  inversion Hos3 as [|? x4 ? t4 (a4 & Ha4 & Ho4) Hos4]; subst. inversion Hos4; subst.
  rewrite Ha in Ha1, Ha2, Ha3, Ha4. vm_compute in Ha1, Ha2, Ha3, Ha4. simplify_eq.
  unfold outcome_of in Ho1, Ho2, Ho3, Ho4. cbn [ap_level ap_kind] in *. rewrite Hlv in *.
  exists mgr, w, w', text, x2, x4. split; [reflexivity|].
  split; [by rewrite Hroot|].
  rewrite Hcout. cbn [zip_with concat]. rewrite !Htx by (vm_compute; set_solver).
  destruct x1; try done. destruct x3; try done. cbn [cout_of]. split; [by rewrite app_nil_r|].
  split; [by destruct x2, x4|]. by exists f.
Qed.

Lemma root_logs_twice_witness :
  exists w w' text o1 o2,
    lw_cout w' = lw_cout w ++ text ++ cout_of text o1 ++ text ++ cout_of text o2 /\
    logger_log sample_strftime 0 0 WARN sample_event w = (Ret tt, w').
Proof.
  destruct (root_logs_twice text_fs _ _ _ sample_strftime _ ∅ WARN sample_event
              (site_event_time _ _ _ _ sample_site_ok) eq_refl)
    as (mgr & w & w' & text & o1 & o2 & Hn & Hlog & Hcout & _).
  exists w, w', text, o1, o2. split; [exact Hcout|].
  assert (mgr = started_mgr) as Hm by (unfold started_mgr, started; rewrite Hn; reflexivity).
  assert (mgr_root mgr = 0) as Hr by (rewrite Hm; vm_compute; reflexivity).
  rewrite <- Hr at 1 2. exact Hlog.
Defined.

(** [Logger::setFormatter] never reaches an appender: [addAppender] marks the
    formatter it lends to an appender as the appender's own, so in every
    well-formed world (and every world the module can get into is one) setting a
    logger's formatter leaves all appenders, those that were given none of their
    own included, with what they had. *)
Theorem setFormatter_reaches_no_appender (D : Type) (os : Posix D) (sink : FileSink D)
    (laws : SinkLaws D) p f (w : log_world D) :
  log_wf any_formatter w -> is_Some (lw_loggers w !! p) ->
  exists w', setFormatter p (Some f) w = (Ret tt, w') /\ lw_appenders w' = lw_appenders w /\
    (exists l, lw_loggers w' !! p = Some l /\ m_formatter l = Some f) /\
    (lw_cout w', lw_disk w') = (lw_cout w, lw_disk w).
Proof.
  intros Hw [l Hl]. destruct (runs_setFormatter any_formatter p f l w Hw Hl I) as ([] & w' & Hr & _ & _ & ->).
  eexists. split; [exact Hr|]. split; [done|]. split; [|done].
  eexists. split; [apply lookup_insert_eq|done].
Qed.

Lemma setFormatter_reaches_no_appender_witness :
  exists w', setFormatter 0 (Some (mkLogFormatter $"%m%n" [MessageFormatItem; NewLineFormatItem] false))
      started_world = (Ret tt, w') /\ lw_appenders w' = lw_appenders started_world.
Proof.
  destruct (setFormatter_reaches_no_appender text_fs _ _ _ 0
              (mkLogFormatter $"%m%n" [MessageFormatItem; NewLineFormatItem] false) started_world
              (log_wf_any _ _ (proj1 started_ok)) started_root) as (w' & Hr & Ha & _).
  exists w'. split; [exact Hr|exact Ha].
Defined.

(** C40.  A file appender whose stream is open and has failed once never writes again,
    however often it is reopened: every later event it admits is lost and reported
    as a failure, the files stay as they are, and the stream stays failed.  ([reopen]
    closes only a stream that has not failed, and opening an open stream fails.) *)
Theorem failed_file_never_recovers (D : Type) (os : Posix D) (sink : FileSink D) (laws : SinkLaws D)
    (strftime_local : str -> Z -> option str) p nm level ev text a (w : log_world D) :
  lw_appenders w !! p = Some a -> appender_ok a -> stream_stuck a ->
  formatted strftime_local (ap_formatter a) nm level ev = Ret text ->
  exists a' w', appender_log strftime_local p nm level ev w = (Ret tt, w') /\
    lw_appenders w' = <[p := a']> (lw_appenders w) /\ stream_stuck a' /\ same_appender a a' /\
    lw_cout w' = lw_cout w ++ (if level_geb level (ap_level a) then $"log to file error " ++ nl else []) /\
    (forall g, (match ap_kind a with FileLogAppender fn _ _ => fn = g \/ sink_apart fn g | _ => False end) ->
       sink_text (lw_disk w') g = sink_text (lw_disk w) g).
Proof.
  intros Ha Hok Hst Hf.
  destruct (appender_log_spec strftime_local p nm level ev text a w Ha Hok Hf)
    as (o & a' & d' & Hlog & Hs & _ & Ho & Hd & Hstuck & _).
  destruct (Hstuck Hst) as [Hst' Hof]. exists a'. eexists. split; [exact Hlog|]. split; [done|].
  split; [done|]. split; [done|]. unfold stream_stuck in Hst. unfold outcome_of in Ho.
  destruct a as [[|fn ofs t] lv fm hf]; cbn [ap_kind ap_level] in *; [done|]. split.
  - cbn [lw_cout upd]. f_equal. destruct (level_geb level lv); [|by subst].
    by destruct Hof as [-> | ->].
  - intros g Hg. cbn [lw_disk upd]. rewrite (Hd g Hg). unfold file_of. cbn [ap_kind].
    case_decide; [|by rewrite app_nil_r]. destruct Hof as [-> | ->]; by rewrite ?take_0, app_nil_r.
Qed.

Definition stuck_appender : LogAppender :=
  mkAppender (FileLogAppender $"log/a.txt" (mkOfstream (Some $"log/a.txt") true) 0) DEBUG
    (Some (mkLogFormatter $"%m%n" [MessageFormatItem; NewLineFormatItem] false)) true.

Lemma failed_file_never_recovers_witness :
  exists a' w', appender_log sample_strftime 0 $"root" WARN sample_event
      (mkLogWorld {[ 0 := stuck_appender ]} ∅ 1 [] (∅ : text_fs)) = (Ret tt, w') /\
    lw_cout w' = $"log to file error " ++ nl /\ lw_appenders w' !! 0 = Some a' /\ stream_stuck a'.
Proof.
  destruct (failed_file_never_recovers text_fs _ _ _ sample_strftime 0 $"root" WARN sample_event
              ($"disk full" ++ nl) stuck_appender
              (mkLogWorld {[ 0 := stuck_appender ]} ∅ 1 [] (∅ : text_fs)))
    as (a' & w' & Hlog & Ha & Hst & _ & Hcout & _).
  - reflexivity.
  - split; [unfold nul_free; vm_compute; set_solver|reflexivity].
  - reflexivity.
  - reflexivity.
  - exists a', w'. split; [exact Hlog|]. split; [exact Hcout|]. split; [|exact Hst].
    rewrite Ha. apply lookup_insert_eq.
Defined.
