(* ===== verification/LogConfig.v ===== *)
(** * Configuring loggers (log.cc: LogDefine, its casts and LogIniter)

    The variable "logs" is a set of [LogDefine]s; a listener on it makes loggers and
    appenders match what is configured.  The set is a list without two equal names,
    in the order of the container. *)
From stdpp Require Import base gmap list strings sorting.
From Stdlib Require Import Ascii.
From S2P Require Import Prelude Util Env Config LogFormatter Log.

(** ** Data *)
Record LogAppenderDefine := mkAppenderDefine {
  lad_type : Z;  (* 1 File, 2 Stdout *)
  lad_level : Level;
  lad_formatter : str;
  lad_file : str
}.

Record LogDefine := mkLogDefine {
  ld_name : str;
  ld_level : Level;
  ld_formatter : str;
  ld_appenders : list LogAppenderDefine
}.

#[export] Instance LogAppenderDefine_eq_dec : EqDecision LogAppenderDefine.
Proof. solve_decision. Defined.

(** [operator==] of the two structs; [std::vector] and [std::set] compare element by
    element.  That of [LogDefine] compares [appenders == appenders]. *)
Definition appender_define_eqb (a oth : LogAppenderDefine) : bool :=
  Z.eqb (lad_type a) (lad_type oth) && bool_decide (lad_level a = lad_level oth) &&
  bool_decide (lad_formatter a = lad_formatter oth) && bool_decide (lad_file a = lad_file oth).

Fixpoint list_eqb {A} (eqb : A -> A -> bool) (a b : list A) : bool :=
  match a, b with
  | [], [] => true
  | x :: a', y :: b' => eqb x y && list_eqb eqb a' b'
  | _, _ => false
  end.

Definition log_define_eqb (i oth : LogDefine) : bool :=
  bool_decide (ld_name i = ld_name oth) && bool_decide (ld_level i = ld_level oth) &&
  bool_decide (ld_formatter i = ld_formatter oth) &&
  list_eqb appender_define_eqb (ld_appenders i) (ld_appenders i).

Definition log_set_eqb : list LogDefine -> list LogDefine -> bool := list_eqb log_define_eqb.

(** [set.find(i)]: the element with the same name, which the order compares. *)
Definition find_define (i : LogDefine) (s : list LogDefine) : option LogDefine :=
  snd <$> list_find (fun x => ld_name x = ld_name i) s.

(** ** The casts *)

(** [node[key]], undefined without such a key, and [node.as<std::string>()]. *)
Class YamlAccess := {
  yaml_get : node -> str -> res (option node);
  yaml_as_string : node -> res str
}.

Class YamlAccessLaws `{YamlAccess} := {
  get_map : forall ms k, yaml_get (Map ms) k =
    Ret (snd <$> (snd <$> list_find (fun e => scalar_of (fst e) = k) ms));
  as_string_scalar : forall s, yaml_as_string (Scalar s) = Ret s
}.

Section Casts.
Context `{Yaml} `{YamlAccess}.

(** [std::cout] is the text printed so far. *)
Definition say (text : str) : M str unit := modify (fun out => out ++ text).

(** [node[key].as<std::string>()], and the same under a test for [IsDefined()]. *)
Definition get_string (n : node) (key : str) : M str str :=
  c ← lift_res (yaml_get n key);
  match c with
  | Some c => lift_res (yaml_as_string c)
  | None => raise $"YAML::InvalidNode"
  end.

Definition get_string_or_empty (n : node) (key : str) : M str str :=
  c ← lift_res (yaml_get n key);
  match c with Some c => lift_res (yaml_as_string c) | None => mret [] end.

(** One turn of the loop over [node["appenders"]]; [None] for [continue]. *)
Definition appender_define_from (a : node) : M str (option LogAppenderDefine) :=
  t ← lift_res (yaml_get a $"type");
  match t with
  | None =>
      say ($"log config error: appender type is null, " ++ yaml_emit a ++ nl);; mret None
  | Some t =>
      type ← lift_res (yaml_as_string t);
      if decide (type = $"FileLogAppender") then
        f ← lift_res (yaml_get a $"file");
        match f with
        | None =>
            say ($"log config error: fileappender file is null, " ++ yaml_emit a ++ nl);; mret None
        | Some f =>
            file ← lift_res (yaml_as_string f);
            formatter ← get_string_or_empty a $"formatter";
            mret (Some (mkAppenderDefine 1 UNKNOW formatter file))
        end
      else if decide (type = $"StdoutLogAppender") then
        formatter ← get_string_or_empty a $"formatter";
        mret (Some (mkAppenderDefine 2 UNKNOW formatter []))
      else
        say ($"log config error: appender type is invalid, " ++ yaml_emit a ++ nl);; mret None
  end.

Fixpoint appender_defines_from (ns : list node) : M str (list LogAppenderDefine) :=
  match ns with
  | [] => mret []
  | a :: ns' =>
      lad ← appender_define_from a;
      rest ← appender_defines_from ns';
      mret (match lad with Some x => x :: rest | None => rest end)
  end.

(** [LexicalCast<std::string, LogDefine>]. *)
Definition LogDefine_from (v : str) : M str LogDefine :=
  node ← lift_res (yaml_load v);
  name ← lift_res (yaml_get node $"name");
  (match name with
   | None => say ($"log config error: name is null, " ++ yaml_emit node ++ nl)
   | Some _ => mret tt
   end);;
  name ← get_string node $"name";
  level ← get_string_or_empty node $"level";
  formatter ← get_string_or_empty node $"formatter";
  aps ← lift_res (yaml_get node $"appenders");
  appenders ← match aps with
              | Some aps => appender_defines_from (yaml_elements aps)
              | None => mret []
              end;
  mret (mkLogDefine name (FromString level) formatter appenders).

(** The assignments [n[key] = text] of the printing cast. *)
Definition set_key (key text : str) (ms : list (node * node)) : list (node * node) :=
  node_set key (Scalar text) ms.
Definition set_if (b : bool) (key text : str) (ms : list (node * node)) : list (node * node) :=
  if b then set_key key text ms else ms.

(** A node to which nothing was assigned is null. *)
Definition map_node (ms : list (node * node)) : node := match ms with [] => Null | _ => Map ms end.

Definition is_nil {A} (l : list A) : bool := match l with [] => true | _ => false end.

Definition appender_define_node (a : LogAppenderDefine) : node :=
  let ms :=
    if Z.eqb (lad_type a) 1 then set_key $"file" (lad_file a) (set_key $"type" $"FileLogAppender" [])
    else if Z.eqb (lad_type a) 2 then set_key $"type" $"StdoutLogAppender" []
    else [] in
  let ms := set_if (negb (bool_decide (lad_level a = UNKNOW))) $"level" (ToString (lad_level a)) ms in
  map_node (set_if (negb (is_nil (lad_formatter a))) $"formatter" (lad_formatter a) ms).

(** [LexicalCast<LogDefine, std::string>]: the first [push_back] makes
    [n["appenders"]] a sequence. *)
Definition LogDefine_node (i : LogDefine) : node :=
  let ms := set_key $"name" (ld_name i) [] in
  let ms := set_if (negb (bool_decide (ld_level i = UNKNOW))) $"level" (ToString (ld_level i)) ms in
  let ms := set_if (negb (is_nil (ld_formatter i))) $"formatter" (ld_formatter i) ms in
  Map (if is_nil (ld_appenders i) then ms
       else node_set $"appenders" (Sequence (map appender_define_node (ld_appenders i))) ms).

Definition LogDefine_to (i : LogDefine) : str := yaml_emit (LogDefine_node i).

(** *** The [toYamlString] methods *)

Definition set_opt (o : option str) (key : str) (ms : list (node * node)) : list (node * node) :=
  match o with Some text => set_key key text ms | None => ms end.

(** [m_hasFormatter && m_formatter]. *)
Definition own_pattern (a : LogAppender) : option str :=
  if ap_hasFormatter a then m_pattern <$> ap_formatter a else None.

Definition level_text (l : Level) : option str :=
  if bool_decide (l = UNKNOW) then None else Some (ToString l).

(** [FileLogAppender::toYamlString] and [StdoutLogAppender::toYamlString]. *)
Definition appender_toYamlString (a : LogAppender) : str :=
  let ms := match ap_kind a with
            | FileLogAppender filename _ _ => set_key $"file" filename (set_key $"type" $"FileLogAppender" [])
            | StdoutLogAppender => set_key $"type" $"StdoutLogAppender" []
            end in
  let ms := set_opt (level_text (ap_level a)) $"level" ms in
  yaml_emit (Map (set_opt (own_pattern a) $"formatter" ms)).

(** [Logger::toYamlString]; the appenders are looked up in the heap. *)
Definition logger_toYamlString (heap : gmap nat LogAppender) (l : Logger) : res str :=
  let ms := set_key $"name" (m_name l) [] in
  let ms := set_opt (level_text (m_level l)) $"level" ms in
  let ms := set_opt (m_pattern <$> m_formatter l) $"formatter" ms in
  ns ← mapM_res (fun p => match heap !! p with
                          | Some a => yaml_load (appender_toYamlString a)
                          | None => UB $"null appender"
                          end) (m_appenders l);
  Ret (yaml_emit (Map (if is_nil ns then ms else node_set $"appenders" (Sequence ns) ms))).

(** [std::string]'s order, which [std::map] iterates in. *)
Fixpoint str_leb (a b : str) : bool :=
  match a, b with
  | [], _ => true
  | _, [] => false
  | x :: a', y :: b' =>
      if Nat.eqb (nat_of_ascii x) (nat_of_ascii y) then str_leb a' b'
      else Nat.ltb (nat_of_ascii x) (nat_of_ascii y)
  end.

Definition name_le (a b : str * nat) : Prop := str_leb a.1 b.1 = true.
#[export] Instance name_le_dec : RelDecision name_le.
Proof. intros a b. unfold name_le. apply _. Defined.

Definition by_name (m : gmap str nat) : list (str * nat) := merge_sort name_le (map_to_list m).

(** [LoggerManager::toYamlString]: null when there are no loggers. *)
Definition manager_toYamlString (heap : gmap nat LogAppender) (loggers : gmap nat Logger)
    (mgr : LoggerManager) : res str :=
  ns ← mapM_res (fun e => match loggers !! e.2 with
                          | Some l => text ← logger_toYamlString heap l; yaml_load text
                          | None => UB $"null logger"
                          end) (by_name (m_loggers mgr));
  Ret (yaml_emit (if is_nil ns then Null else Sequence ns)).
End Casts.

(** ** The listener *)
Section Listener.
Context {D : Type} `{Posix D} `{FileSink D}.
Context (strftime_local : str -> Z -> option str).

(** What is printed about a pattern that is not one. *)
Definition invalid_formatter_text (i : LogDefine) (a : LogAppenderDefine) : str :=
  $"log.name=" ++ ld_name i ++ $" appender type=" ++ show_Z (lad_type a) ++
  $" formatter=" ++ lad_formatter a ++ $" is invalid" ++ nl.

(** The body of the loop over [i.appenders], after the appender [ap] was made. *)
Definition configure_appender (i : LogDefine) (logger : nat) (a : LogAppenderDefine) (ap : nat)
    : M (log_world D) unit :=
  appender_setLevel ap (lad_level a);;
  (match lad_formatter a with
   | [] => mret tt
   | _ =>
       fmt ← make_formatter (lad_formatter a);
       if m_error fmt then print (invalid_formatter_text i a) else appender_setFormatter ap (Some fmt)
   end);;
  addAppender logger ap.

(** The loop over [i.appenders]; [daemon] is [EnvMgr::GetInstance()->has("d")].  An
    appender of neither type leaves the pointer null, which [ap->setLevel]
    dereferences. *)
Fixpoint apply_appenders (daemon : bool) (i : LogDefine) (logger : nat)
    (appenders : list LogAppenderDefine) : M (log_world D) unit :=
  match appenders with
  | [] => mret tt
  | a :: rest =>
      (if Z.eqb (lad_type a) 1 then
         ap ← new_FileLogAppender (lad_file a);
         configure_appender i logger a ap
       else if Z.eqb (lad_type a) 2 then
         if daemon then mret tt
         else
           ap ← new_StdoutLogAppender;
           configure_appender i logger a ap
       else ub $"null appender");;
      apply_appenders daemon i logger rest
  end.

(** What is done for a new or changed definition. *)
Definition apply_define (daemon : bool) (mgr : LoggerManager) (i : LogDefine)
    : M (log_world D) LoggerManager :=
  r ← getLogger mgr (ld_name i);
  let '(logger, mgr') := r in
  setLevel logger (ld_level i);;
  (match ld_formatter i with
   | [] => mret tt
   | _ => setFormatter_pattern logger (ld_formatter i)
   end);;
  clearAppenders logger;;
  apply_appenders daemon i logger (ld_appenders i);;
  mret mgr'.

Definition changed (i : LogDefine) (old_value : list LogDefine) : bool :=
  match find_define i old_value with
  | None => true
  | Some it => negb (log_define_eqb i it)
  end.

Fixpoint apply_new (daemon : bool) (old_value new_value : list LogDefine) (mgr : LoggerManager)
    : M (log_world D) LoggerManager :=
  match new_value with
  | [] => mret mgr
  | i :: rest =>
      mgr' ← (if changed i old_value then apply_define daemon mgr i else mret mgr);
      apply_new daemon old_value rest mgr'
  end.

Fixpoint remove_old (new_value old_value : list LogDefine) (mgr : LoggerManager)
    : M (log_world D) LoggerManager :=
  match old_value with
  | [] => mret mgr
  | i :: rest =>
      mgr' ← match find_define i new_value with
             | Some _ => mret mgr
             | None =>
                 r ← getLogger mgr (ld_name i);
                 setLevel (fst r) UNKNOW;;
                 clearAppenders (fst r);;
                 mret (snd r)
             end;
      remove_old new_value rest mgr'
  end.

(** The listener; [site] is where and when it logs its line. *)
Definition on_logger_conf_changed (env : Env) (site : log_site) (mgr : LoggerManager)
    (old_value new_value : list LogDefine) : M (log_world D) LoggerManager :=
  log_macro strftime_local (mgr_root mgr) site (mgr_root mgr) INFO $"on_logger_conf_changed";;
  mgr' ← apply_new (has $"d" env) old_value new_value mgr;
  remove_old new_value old_value mgr'.

(** As a listener of the variable: the rest of the program is the manager and the
    loggers. *)
Definition log_listener (env : Env) (site : log_site)
    : on_change_cb (T := list LogDefine) (W := LoggerManager * log_world D) :=
  fun old_value new_value '(mgr, w) =>
    match on_logger_conf_changed env site mgr old_value new_value w with
    | (Ret mgr', w') => (Ret tt, (mgr', w'))
    | (Throw e, w') => (Throw e, (mgr, w'))
    | (Abort e, w') => (Abort e, (mgr, w'))
    | (UB e, w') => (UB e, (mgr, w'))
    end.
End Listener.

(** ** The casts *)
Section Cast_lemmas.
Context `{Yaml} `{!YamlLaws} `{YamlAccess} `{!YamlAccessLaws}.

Definition find_key (k : str) (ms : list (node * node)) : option node :=
  snd <$> (snd <$> list_find (fun e => scalar_of (fst e) = k) ms).

Lemma find_key_cons k a n ms :
  find_key k ((a, n) :: ms) = if decide (scalar_of a = k) then Some n else find_key k ms.
Proof.
  unfold find_key. cbn [list_find fst]. destruct (decide (scalar_of a = k)); [done|].
  by destruct (list_find _ ms) as [[]|].
Qed.

Lemma find_key_set k n ms k' :
  find_key k' (node_set k n ms) = if decide (k = k') then Some n else find_key k' ms.
Proof.
  induction ms as [|[a m] ms IH]; cbn [node_set].
  - by rewrite find_key_cons.
  - destruct (decide (scalar_of a = k)) as [Hk|Hk]; rewrite !find_key_cons.
    + subst. by destruct (decide (scalar_of a = k')).
    + rewrite IH. repeat case_decide; congruence.
Qed.

Lemma find_key_set_if b k t ms k' :
  find_key k' (set_if b k t ms) =
  if decide (k = k') then if b then Some (Scalar t) else find_key k' ms else find_key k' ms.
Proof. destruct b; cbn [set_if]; [apply find_key_set|by case_decide]. Qed.

Lemma get_find ms k : yaml_get (Map ms) k = Ret (find_key k ms).
Proof using All. apply get_map. Qed.

Lemma set_if_not_nil b k t ms : ms <> [] -> set_if b k t ms <> [].
Proof. unfold set_if, set_key. destruct b, ms as [|[]]; simpl; try done. by case_decide. Qed.

(** What of an appender survives printing and reading: not its level. *)
Definition without_level (a : LogAppenderDefine) : LogAppenderDefine :=
  mkAppenderDefine (lad_type a) UNKNOW (lad_formatter a) (if Z.eqb (lad_type a) 1 then lad_file a else []).

Definition valid_type (a : LogAppenderDefine) : Prop := lad_type a = 1%Z \/ lad_type a = 2%Z.

Lemma find_key_set_opt o k ms k' :
  find_key k' (set_opt o k ms) =
  if decide (k = k') then match o with Some t => Some (Scalar t) | None => find_key k' ms end
  else find_key k' ms.
Proof. destruct o; cbn [set_opt]; [apply find_key_set|by case_decide]. Qed.

Ltac keys := unfold set_key; repeat first
  [ rewrite find_key_set_if | rewrite find_key_set_opt | rewrite find_key_set | rewrite decide_True by reflexivity
  | rewrite decide_False by discriminate ].

(** What a key holds: a text, or nothing for the empty text. *)
Definition key_text (ms : list (node * node)) (k s : str) : Prop :=
  find_key k ms = Some (Scalar s) \/ (find_key k ms = None /\ s = []).

Lemma get_string_or_empty_key ms k s out :
  key_text ms k s -> get_string_or_empty (Map ms) k out = (Ret s, out).
Proof using All.
  intros Hf. unfold get_string_or_empty. rewrite get_find.
  destruct Hf as [-> | [-> ->]]; rewrite bind_lift; [by rewrite as_string_scalar|done].
Qed.

(** Reading an appender whose keys are known. *)
Lemma appender_define_from_keys ms a out :
  valid_type a ->
  find_key $"type" ms =
    Some (Scalar (if Z.eqb (lad_type a) 1 then $"FileLogAppender" else $"StdoutLogAppender")) ->
  key_text ms $"formatter" (lad_formatter a) ->
  (lad_type a = 1%Z -> find_key $"file" ms = Some (Scalar (lad_file a))) ->
  appender_define_from (Map ms) out = (Ret (Some (without_level a)), out).
Proof using All.
  intros Hv Ht Hfm Hfile. unfold appender_define_from. rewrite !get_find, Ht, bind_lift.
  rewrite as_string_scalar, bind_lift. unfold without_level.
  pose proof (get_string_or_empty_key _ _ _ out Hfm) as Hg.
  destruct Hv as [E|E]; rewrite E; simpl Z.eqb; cbv iota.
  - rewrite decide_True by done. rewrite (Hfile E), bind_lift, as_string_scalar, bind_lift.
    by rewrite (bind_ret _ _ out _ out Hg).
  - rewrite decide_False by discriminate. rewrite decide_True by done.
    by rewrite (bind_ret _ _ out _ out Hg).
Qed.

(** Reading a definition whose keys are known. *)
Lemma LogDefine_from_keys text ms name level formatter aps lads out :
  yaml_load text = Ret (Map ms) ->
  find_key $"name" ms = Some (Scalar name) ->
  key_text ms $"level" (if bool_decide (level = UNKNOW) then [] else ToString level) ->
  key_text ms $"formatter" formatter ->
  find_key $"appenders" ms = (if is_nil aps then None else Some (Sequence aps)) ->
  appender_defines_from aps out = (Ret lads, out) ->
  LogDefine_from text out = (Ret (mkLogDefine name level formatter lads), out).
Proof using All.
  intros Hload Hn Hl Hf Ha Haps. unfold LogDefine_from. rewrite Hload, bind_lift.
  rewrite !get_find, Hn, Ha, bind_lift, (bind_ret (mret tt) _ out tt out eq_refl).
  assert (get_string (Map ms) $"name" out = (Ret name, out)) as Hgn.
  { unfold get_string. by rewrite get_find, Hn, bind_lift, as_string_scalar. }
  rewrite (bind_ret _ _ out _ out Hgn).
  rewrite (bind_ret _ _ out _ out (get_string_or_empty_key _ _ _ out Hl)).
  rewrite (bind_ret _ _ out _ out (get_string_or_empty_key _ _ _ out Hf)), bind_lift.
  assert (FromString (if bool_decide (level = UNKNOW) then [] else ToString level) = level) as ->.
  { case_bool_decide as E; [by rewrite E|]. by destruct level. }
  destruct aps as [|a aps]; cbn [is_nil].
  - by injection Haps as <-.
  - rewrite elements_sequence. by rewrite (bind_ret _ _ out _ out Haps).
Qed.

Lemma appender_define_roundtrip a out :
  valid_type a -> appender_define_from (appender_define_node a) out = (Ret (Some (without_level a)), out).
Proof using All.
  intros Hv. unfold appender_define_node.
  set (ms0 := if Z.eqb (lad_type a) 1 then _ else _).
  set (ms := set_if _ $"formatter" _ _).
  assert (map_node ms = Map ms) as ->.
  { assert (ms <> []) as Hne; [|by destruct ms]. do 2 apply set_if_not_nil.
    unfold ms0. by destruct Hv as [-> | ->]. }
  apply appender_define_from_keys; [done| | |].
  - unfold ms. keys. unfold ms0. destruct Hv as [-> | ->]; simpl; by keys.
  - unfold key_text, ms. keys. destruct (lad_formatter a) as [|c fm]; simpl; [right|by left].
    split; [|done]. destruct (bool_decide _); simpl; keys; unfold ms0; destruct Hv as [-> | ->]; simpl; by keys.
  - intros Ht. unfold ms. keys. unfold ms0. rewrite Ht. simpl. by keys.
Qed.

Lemma appender_defines_roundtrip l out :
  Forall valid_type l ->
  appender_defines_from (map appender_define_node l) out = (Ret (map without_level l), out).
Proof using All.
  induction 1 as [|a l Ha Hl IH]; [done|]. cbn [map appender_defines_from].
  rewrite (bind_ret _ _ out _ out (appender_define_roundtrip a out Ha)).
  by rewrite (bind_ret _ _ out _ out IH).
Qed.

Lemma LogDefine_roundtrip i out :
  Forall valid_type (ld_appenders i) ->
  LogDefine_from (LogDefine_to i) out =
  (Ret (mkLogDefine (ld_name i) (ld_level i) (ld_formatter i) (map without_level (ld_appenders i))), out).
Proof using All.
  intros Hv. eapply (LogDefine_from_keys _ _ _ _ _ (map appender_define_node (ld_appenders i)));
    [apply load_emit| | | | |by apply appender_defines_roundtrip].
  all: unfold key_text; destruct (ld_appenders i); cbn [is_nil map]; keys; try done.
  all: try (destruct (ld_formatter i); simpl; keys; by (left + right)).
  all: destruct (bool_decide _) eqn:E; simpl; keys; [by right|by left].
Qed.

(** *** [toYamlString] read back *)

(** The definition an appender, and a logger, amounts to. *)
Definition appender_as_define (a : LogAppender) : LogAppenderDefine :=
  match ap_kind a with
  | FileLogAppender filename _ _ => mkAppenderDefine 1 UNKNOW (default [] (own_pattern a)) filename
  | StdoutLogAppender => mkAppenderDefine 2 UNKNOW (default [] (own_pattern a)) []
  end.

Definition logger_as_define (heap : gmap nat LogAppender) (l : Logger) : LogDefine :=
  mkLogDefine (m_name l) (m_level l) (default [] (m_pattern <$> m_formatter l))
    (omap (fun p => appender_as_define <$> heap !! p) (m_appenders l)).

Lemma appender_yaml_read a : exists ms, yaml_load (appender_toYamlString a) = Ret (Map ms) /\
  forall out, appender_define_from (Map ms) out = (Ret (Some (appender_as_define a)), out).
Proof using All.
  eexists. split; [apply load_emit|]. intros out.
  assert (appender_as_define a = without_level (appender_as_define a)) as ->.
  { unfold appender_as_define, without_level. by destruct (ap_kind a). }
  apply appender_define_from_keys.
  - unfold appender_as_define, valid_type. destruct (ap_kind a); simpl; auto.
  - unfold appender_as_define. destruct (ap_kind a); simpl; by keys.
  - unfold key_text, appender_as_define. destruct (ap_kind a), (own_pattern a); simpl;
      keys; by (left + right).
  - unfold appender_as_define. destruct (ap_kind a); simpl; [done|]. intros _.
    by keys.
Qed.

Lemma appenders_yaml_read (heap : gmap nat LogAppender) ps :
  (forall p, p ∈ ps -> is_Some (heap !! p)) ->
  exists ns, mapM_res (fun p => match heap !! p with
                          | Some a => yaml_load (appender_toYamlString a)
                          | None => UB $"null appender"
                          end) ps = Ret ns /\ is_nil ns = is_nil ps /\
    forall out, appender_defines_from ns out = (Ret (omap (fun p => appender_as_define <$> heap !! p) ps), out).
Proof using All.
  induction ps as [|p ps IH]; intros Hps; [by exists []|].
  destruct IH as (ns & Hns & _ & Hread); [intros q Hq; apply Hps; by right|].
  destruct (Hps p ltac:(left)) as [a Ha]. destruct (appender_yaml_read a) as (ms & Hms & Hma).
  exists (Map ms :: ns). cbn [mapM_res]. rewrite Ha, Hms. unfold mbind, res_bind. rewrite Hns.
  do 2 (split; [done|]). intros out. cbn [appender_defines_from].
  rewrite (bind_ret _ _ out _ out (Hma out)), (bind_ret _ _ out _ out (Hread out)).
  cbn [omap list_omap]. by rewrite Ha.
Qed.

Lemma logger_yaml_read (heap : gmap nat LogAppender) l :
  (forall p, p ∈ m_appenders l -> is_Some (heap !! p)) ->
  exists text, logger_toYamlString heap l = Ret text /\
    forall out, LogDefine_from text out = (Ret (logger_as_define heap l), out).
Proof using All.
  intros Hps. destruct (appenders_yaml_read heap (m_appenders l) Hps) as (ns & Hns & _ & Hread).
  unfold logger_toYamlString. rewrite Hns. unfold mbind, res_bind. eexists. split; [done|]. intros out.
  eapply (LogDefine_from_keys _ _ _ _ _ ns); [apply load_emit| | | | |apply Hread].
  all: unfold key_text; destruct ns; cbn [is_nil]; keys; try done.
  all: try (destruct (m_formatter l); simpl; keys;
            unfold level_text; by (left + right)).
  all: unfold level_text; destruct (bool_decide _); [by right|by left].
Qed.
End Cast_lemmas.

(** ** What the listener achieves *)

(** The formatter an appender gets: its own when one is given and well formed,
    otherwise the logger's. *)
Definition gets_formatter (a : LogAppenderDefine) (logger_fm : option LogFormatter)
    (fm : option LogFormatter) : Prop :=
  is_Some fm /\
  (if is_nil (lad_formatter a) then fm = logger_fm
   else exists g, formatter_for (lad_formatter a) g /\
          if m_error g then fm = logger_fm else fm = Some g).

(** The appender [x] is what the definition [a] asks for. *)
Definition made_as (a : LogAppenderDefine) (logger_fm : option LogFormatter) (x : LogAppender) : Prop :=
  ap_level x = lad_level a /\ gets_formatter a logger_fm (ap_formatter x) /\
  match ap_kind x with
  | StdoutLogAppender => lad_type a = 2%Z
  | FileLogAppender fn _ _ => lad_type a = 1%Z /\ fn = lad_file a
  end.

(** The appenders that are made: none to standard output for a daemon. *)
Definition wanted (daemon : bool) (l : list LogAppenderDefine) : list LogAppenderDefine :=
  List.filter (fun a => negb (daemon && Z.eqb (lad_type a) 2)) l.

(** A definition whose names are C strings, whose appenders have one of the two types,
    and whose patterns' dates fit. *)
Definition define_appender_ok (strftime_local : str -> Z -> option str) (a : LogAppenderDefine) : Prop :=
  valid_type a /\ nul_free (lad_file a) /\ pattern_fits strftime_local (lad_formatter a).

Definition define_ok (strftime_local : str -> Z -> option str) (i : LogDefine) : Prop :=
  nul_free (ld_name i) /\ pattern_fits strftime_local (ld_formatter i) /\
  Forall (define_appender_ok strftime_local) (ld_appenders i).

Section Listener_spec.
Context {D : Type} `{HP : Posix D} `{HF : FileSink D} `{!SinkLaws D}.
Context (strftime_local : str -> Z -> option str) `{!StrftimeLaws strftime_local}.
Local Abbreviation fit := (formatter_fits strftime_local).

Definition made_at (w : log_world D) (logger_fm : option LogFormatter) (a : LogAppenderDefine) (p : nat)
    : Prop := exists x, lw_appenders w !! p = Some x /\ made_as a logger_fm x.

Definition appenders_kept (w w' : log_world D) : Prop :=
  forall p x, lw_appenders w !! p = Some x -> lw_appenders w' !! p = Some x.

#[local] Instance appenders_kept_preorder : PreOrder appenders_kept.
Proof. split; [by intros w p x|]. intros u v w H1 H2 p x Hp. auto. Qed.

Lemma made_at_kept w w' fm a p : appenders_kept w w' -> made_at w fm a p -> made_at w' fm a p.
Proof. intros Hk (x & Hx & Hm). exists x. auto. Qed.

Lemma configure_appender_runs i p a ap l x (w : log_world D) :
  log_wf fit w -> lw_loggers w !! p = Some l -> lw_appenders w !! ap = Some x -> ap_formatter x = None ->
  pattern_fits strftime_local (lad_formatter a) ->
  runs fit (configure_appender i p a ap) w (fun _ w' => exists x',
    ap_kind x' = ap_kind x /\ ap_level x' = lad_level a /\
    gets_formatter a (m_formatter l) (ap_formatter x') /\
    lw_loggers w' = <[p := with_appenders [ap] l]> (lw_loggers w) /\
    lw_appenders w' = <[ap := x']> (lw_appenders w)).
Proof.
  intros Hw Hl Hx Hnone Hfit. unfold configure_appender.
  destruct (wf_logger _ _ Hw _ _ Hl) as ((lf & Hlf & _) & _).
  eapply runs_bind; [by apply runs_appender_setLevel|]. intros u w1 Hw1 _ ->. clear u.
  set (x1 := mkAppender (ap_kind x) (lad_level a) (ap_formatter x) (ap_hasFormatter x)) in *.
  set (w1 := set_appender ap x1 w) in *.
  assert (lw_appenders w1 !! ap = Some x1) as Hx1 by apply lookup_insert_eq.
  eapply (runs_bind _ _ _ _ (fun _ w2 => exists x2, ap_kind x2 = ap_kind x /\ ap_level x2 = lad_level a /\
    lw_loggers w2 = lw_loggers w /\ lw_appenders w2 = <[ap := x2]> (lw_appenders w) /\
    gets_formatter a (m_formatter l) (ap_formatter (adopt (m_formatter l) x2)))).
  - destruct (lad_formatter a) as [|c fmt] eqn:Hfmt.
    + apply runs_ret; [done|]. exists x1. do 4 (split; [done|]). unfold gets_formatter, adopt.
      rewrite Hfmt. simpl. rewrite Hnone, Hlf. by split.
    + rewrite <- Hfmt. assert (is_nil (lad_formatter a) = false) as Hnn by (by rewrite Hfmt).
      eapply runs_bind; [by apply runs_make_formatter|].
      intros g w2 Hw2 _ [(Hl2 & Ha2 & Hn2 & Hd2) Hg]. destruct (m_error g) eqn:Hge.
      * eapply runs_weaken; [by apply runs_print_quiet|]. intros _ w3 (Hl3 & Ha3 & _).
        exists x1. do 2 (split; [done|]). rewrite Hl3, Ha3, Hl2, Ha2. do 2 (split; [done|]).
        unfold gets_formatter, adopt. rewrite Hnn. simpl. rewrite Hnone, Hlf.
        split; [done|]. exists g. by rewrite Hge.
      * eapply runs_weaken; [eapply (runs_appender_setFormatter fit ap g x1 w2 Hw2); [by rewrite Ha2|apply Hfit; by rewrite <- Hfmt]|].
        intros _ w3 ->. exists (with_formatter g x1). do 2 (split; [done|]). simpl.
        rewrite Hl2, Ha2. split; [done|]. split; [unfold w1; simpl; by rewrite insert_insert_eq|].
        unfold gets_formatter. rewrite Hnn. split; [done|]. exists g. by rewrite Hge.
  - intros u w2 Hw2 _ (x2 & Hk2 & Hlv2 & Hl2 & Ha2 & Hg). eapply runs_weaken.
    + eapply (runs_addAppender fit p ap l x2 w2 Hw2); [by rewrite Hl2|rewrite Ha2; apply lookup_insert_eq].
    + intros _ w3 ->. exists (adopt (m_formatter l) x2). simpl. rewrite Hl2, Ha2, insert_insert_eq.
      assert (ap_kind (adopt (m_formatter l) x2) = ap_kind x2 /\
              ap_level (adopt (m_formatter l) x2) = ap_level x2) as [-> ->].
      { unfold adopt. by destruct (ap_formatter x2), (m_formatter l). }
      do 3 (split; [done|]). split; [done|done].
Qed.

(** One turn of the loop over the appenders of a definition. *)
Lemma apply_appender_runs (daemon : bool) i p a l (w : log_world D) :
  log_wf fit w -> lw_loggers w !! p = Some l -> define_appender_ok strftime_local a ->
  runs fit ((if Z.eqb (lad_type a) 1 then
          ap ← new_FileLogAppender (lad_file a); configure_appender i p a ap
        else if Z.eqb (lad_type a) 2 then
          if daemon then mret tt else ap ← new_StdoutLogAppender; configure_appender i p a ap
        else ub $"null appender") : M (log_world D) unit) w
    (fun _ w' => exists ps, lw_loggers w' = <[p := with_appenders ps l]> (lw_loggers w) /\
       appenders_kept w w' /\ Forall2 (made_at w' (m_formatter l)) (wanted daemon [a]) ps).
Proof using All.
  intros Hw Hl (Hv & Hz & Hpat).
  pose proof (wf_fresh_appender _ _ Hw (lw_next w) (le_n _)) as Hnew.
  assert (forall w1 x1, lw_loggers w1 = lw_loggers w ->
    lw_appenders w1 = <[lw_next w := x1]> (lw_appenders w) -> ap_formatter x1 = None -> log_wf fit w1 ->
    wanted daemon [a] = [a] ->
    match ap_kind x1 with
    | StdoutLogAppender => lad_type a = 2%Z
    | FileLogAppender fn _ _ => lad_type a = 1%Z /\ fn = lad_file a
    end ->
    runs fit (configure_appender i p a (lw_next w)) w1 (fun _ w' => exists ps,
      lw_loggers w' = <[p := with_appenders ps l]> (lw_loggers w) /\
      appenders_kept w w' /\ Forall2 (made_at w' (m_formatter l)) (wanted daemon [a]) ps)) as Hconf.
  { intros w1 x1 Hl1 Ha1 Hx1 Hw1 Hwant Hkind. eapply runs_weaken.
    - eapply (configure_appender_runs i p a (lw_next w) l x1 w1 Hw1); [by rewrite Hl1| |done|done].
      rewrite Ha1. apply lookup_insert_eq.
    - intros _ w2 (x' & Hk & Hlv & Hg & Hl2 & Ha2). exists [lw_next w]. rewrite Hl2, Hl1.
      split; [done|]. rewrite Hwant. split.
      + intros q x Hq. rewrite Ha2, Ha1, !lookup_insert_ne by (intros <-; congruence). done.
      + constructor; [|constructor]. exists x'. rewrite Ha2, lookup_insert_eq. split; [done|].
        split; [done|]. split; [done|]. by rewrite Hk. }
  destruct Hv as [Ht|Ht]; rewrite Ht; simpl Z.eqb; cbv iota.
  - eapply runs_bind; [by apply runs_new_FileLogAppender|].
    intros ap w1 Hw1 _ [-> (ofs & d' & _ & ->)]. eapply Hconf; try done.
    unfold wanted. simpl. rewrite Ht. by rewrite andb_false_r.
  - destruct daemon.
    + apply runs_ret; [done|]. exists []. unfold wanted. simpl. rewrite Ht. simpl.
      split; [|by split; [|constructor]]. unfold with_appenders. rewrite app_nil_r.
      destruct l. by rewrite insert_id.
    + eapply runs_bind; [by apply runs_new_StdoutLogAppender|].
      intros ap w1 Hw1 _ [-> ->]. by eapply Hconf.
Qed.

Lemma wanted_cons daemon a l : wanted daemon (a :: l) = wanted daemon [a] ++ wanted daemon l.
Proof. unfold wanted. simpl. by destruct (negb _). Qed.

Lemma apply_appenders_runs daemon i p as_ : forall l (w : log_world D),
  log_wf fit w -> lw_loggers w !! p = Some l ->
  Forall (define_appender_ok strftime_local) as_ ->
  runs fit (apply_appenders daemon i p as_) w
    (fun _ w' => exists ps, lw_loggers w' = <[p := with_appenders ps l]> (lw_loggers w) /\
       appenders_kept w w' /\ Forall2 (made_at w' (m_formatter l)) (wanted daemon as_) ps).
Proof using All.
  induction as_ as [|a as_ IH]; intros l w Hw Hl Hok.
  - apply runs_ret; [done|]. exists []. split; [|by split; [|constructor]].
    unfold with_appenders. rewrite app_nil_r. destruct l. by rewrite insert_id.
  - apply Forall_cons in Hok as [Ha Hok]. cbn [apply_appenders].
    eapply runs_bind; [by apply apply_appender_runs|].
    intros u w1 Hw1 _ (ps1 & Hl1 & Hk1 & Hm1).
    eapply runs_weaken; [eapply (IH (with_appenders ps1 l) w1 Hw1); [|done]|].
    + rewrite Hl1. apply lookup_insert_eq.
    + intros _ w2 (ps2 & Hl2 & Hk2 & Hm2). exists (ps1 ++ ps2).
      split; [rewrite Hl2, Hl1, insert_insert_eq; unfold with_appenders; simpl; by rewrite app_assoc|].
      split; [by etransitivity|]. rewrite wanted_cons. apply Forall2_app; [|done].
      eapply Forall2_impl; [exact Hm1|]. intros b q. by apply made_at_kept.
Qed.

(** The logger named in [i] is what [i] asks for. *)
Definition configured (daemon : bool) (mgr : LoggerManager) (w : log_world D) (i : LogDefine) : Prop :=
  exists p l, m_loggers mgr !! ld_name i = Some p /\ lw_loggers w !! p = Some l /\
    m_level l = ld_level i /\
    Forall2 (made_at w (m_formatter l)) (wanted daemon (ld_appenders i)) (m_appenders l) /\
    (is_nil (ld_formatter i) = false -> forall g, formatter_for (ld_formatter i) g ->
       m_error g = false -> m_formatter l = Some g).

(** A logger that is no longer configured: the level below all levels, and no
    appenders. *)
Definition switched_off (mgr : LoggerManager) (w : log_world D) (name : str) : Prop :=
  exists p l, m_loggers mgr !! name = Some p /\ lw_loggers w !! p = Some l /\
    m_level l = UNKNOW /\ m_appenders l = [].

(** From one manager and world to the next only loggers with these names change. *)
Definition changes_only (names : list str) (mgr : LoggerManager) (w : log_world D)
    (mgr' : LoggerManager) (w' : log_world D) : Prop :=
  appenders_kept w w' /\
  forall name p, m_loggers mgr !! name = Some p -> m_loggers mgr' !! name = Some p /\
    ((name ∉ names) -> forall l, lw_loggers w !! p = Some l -> lw_loggers w' !! p = Some l).

Lemma changes_only_refl mgr w : changes_only [] mgr w mgr w.
Proof. by split. Qed.

Lemma changes_only_trans n1 n2 m1 w1 m2 w2 m3 w3 :
  changes_only n1 m1 w1 m2 w2 -> changes_only n2 m2 w2 m3 w3 -> changes_only (n1 ++ n2) m1 w1 m3 w3.
Proof.
  intros [Ha H1] [Hb H2]. split; [by etransitivity|]. intros name p Hp.
  destruct (H1 name p Hp) as [Hp2 Hl2]. destruct (H2 name p Hp2) as [Hp3 Hl3]. split; [done|].
  rewrite not_elem_of_app. intros [Hn1 Hn2] l Hl. auto.
Qed.

Lemma configured_kept daemon names mgr w mgr' w' i :
  changes_only names mgr w mgr' w' -> (ld_name i ∉ names) ->
  configured daemon mgr w i -> configured daemon mgr' w' i.
Proof.
  intros [Ha Hn] Hi (p & l & Hp & Hl & Hlv & Hm & Hf). destruct (Hn _ _ Hp) as [Hp' Hl'].
  exists p, l. split; [done|]. split; [auto|]. split; [done|]. split; [|done].
  eapply Forall2_impl; [exact Hm|]. intros a q. by apply made_at_kept.
Qed.

Lemma switched_off_kept names mgr w mgr' w' name :
  changes_only names mgr w mgr' w' -> (name ∉ names) ->
  switched_off mgr w name -> switched_off mgr' w' name.
Proof.
  intros [Ha Hn] Hi (p & l & Hp & Hl & Hrest). destruct (Hn _ _ Hp) as [Hp' Hl'].
  exists p, l. auto.
Qed.

(** What [getLogger] changes: nothing that is there. *)
Lemma getLogger_runs mgr name w :
  log_wf fit w -> mgr_ok mgr w -> nul_free name ->
  runs fit (getLogger mgr name) w (fun r w' => exists l, mgr_ok (snd r) w' /\
    mgr_root (snd r) = mgr_root mgr /\ m_loggers (snd r) !! name = Some (fst r) /\
    lw_loggers w' !! fst r = Some l /\ m_name l = name /\ changes_only [] mgr w (snd r) w').
Proof using HP HF SinkLaws0 StrftimeLaws0.
  intros Hw Hm Hz. eapply runs_weaken; [apply runs_getLogger; [by apply default_pattern_fits|done..]|].
  intros [p mgr'] w' (Hm' & Hr & Hp & Hcase). cbn [fst snd] in *.
  destruct (proj1 Hm' name p Hp) as (l & Hl & Hln). exists l. do 5 (split; [done|]).
  destruct (m_loggers mgr !! name) as [q|] eqn:Hq.
  { destruct Hcase as [[= -> ->] ->]. by split. }
  destruct Hcase as (-> & f & ofs & _ & Hl' & Ha' & Hml). split.
  - intros ap x Hx. rewrite Ha'. unfold default_appenders.
    assert (ap < lw_next w) as Hlt.
    { destruct (decide (ap < lw_next w)) as [|Hge]; [done|].
      rewrite (wf_fresh_appender _ _ Hw) in Hx by lia. done. }
    by rewrite !lookup_insert_ne by lia.
  - intros name' q' Hq'. rewrite Hml. rewrite lookup_insert_ne by congruence.
    split; [done|]. intros _ k Hk. rewrite Hl', lookup_insert_ne; [done|].
    intros <-. by rewrite (wf_fresh_logger _ _ Hw) in Hk.
Qed.

(** A change of one logger of the manager. *)
Lemma changes_only_set mgr w w' p l l' :
  mgr_ok mgr w -> m_loggers mgr !! m_name l = Some p -> lw_loggers w !! p = Some l ->
  lw_loggers w' = <[p := l']> (lw_loggers w) -> appenders_kept w w' ->
  changes_only [m_name l] mgr w mgr w'.
Proof.
  intros [Hm _] Hp Hl Hl' Ha. split; [done|]. intros name q Hq. split; [done|].
  intros Hn k Hk. rewrite Hl', lookup_insert_ne; [done|]. intros <-.
  apply Hn, list_elem_of_singleton. destruct (Hm name p Hq) as (k' & Hk' & <-). congruence.
Qed.

Lemma apply_define_runs daemon mgr i w :
  log_wf fit w -> mgr_ok mgr w -> define_ok strftime_local i ->
  runs fit (apply_define daemon mgr i) w (fun mgr' w' => mgr_ok mgr' w' /\ mgr_root mgr' = mgr_root mgr /\
    changes_only [ld_name i] mgr w mgr' w' /\ configured daemon mgr' w' i).
Proof using HP HF SinkLaws0 StrftimeLaws0.
  intros Hw Hm (Hz & Hpat & Hok). unfold apply_define.
  eapply runs_bind; [by apply getLogger_runs|].
  intros [p mgr1] w1 Hw1 _ (l & Hm1 & Hr1 & Hp1 & Hl1 & Hn1 & Hc1). cbn [fst snd] in *.
  eapply runs_bind; [by apply runs_setLevel|]. intros u w2 Hw2 Hg2 ->. clear u.
  set (l2 := mkLogger (m_name l) (ld_level i) (m_appenders l) (m_formatter l) (m_root l)) in *.
  set (w2 := set_logger p l2 w1) in *.
  assert (lw_loggers w2 !! p = Some l2) as Hl2 by apply lookup_insert_eq.
  eapply (runs_bind _ _ _ _ (fun _ w3 => exists fm, is_Some fm /\
    lw_loggers w3 = <[p := mkLogger (m_name l) (ld_level i) (m_appenders l) fm (m_root l)]> (lw_loggers w1) /\
    lw_appenders w3 = lw_appenders w1 /\
    (is_nil (ld_formatter i) = false -> forall g, formatter_for (ld_formatter i) g ->
       m_error g = false -> fm = Some g))).
  { destruct (wf_logger _ _ Hw1 _ _ Hl1) as ((g0 & Hg0 & _) & _).
    assert (is_Some (m_formatter l)) as Hfm by (by exists g0). destruct (ld_formatter i) as [|c fmt] eqn:Hfmt.
    - apply runs_ret; [done|]. by exists (m_formatter l).
    - rewrite <- Hfmt in Hpat |- *. eapply runs_weaken; [by eapply runs_setFormatter_pattern|].
      intros _ w3 (f & Hf & Hcase).
      assert (forall g, formatter_for (ld_formatter i) g -> g = f) as Hdet.
      { intros g [out Hg]. destruct Hf as [out' Hf]. rewrite Hf in Hg. by injection Hg. }
      destruct (m_error f) eqn:Hfe; destruct Hcase as (Hl3 & Ha3 & _).
      + exists (m_formatter l). split; [done|]. split; [by rewrite Hl3|]. split; [by rewrite Ha3|].
        intros _ g Hg Hge. apply Hdet in Hg. congruence.
      + exists (Some f). split; [by eexists|]. split; [by rewrite Hl3; simpl; rewrite insert_insert_eq|].
        split; [by rewrite Ha3|]. intros _ g Hg _. f_equal. symmetry. by apply Hdet. }
  intros u w3 Hw3 Hg3 (fm & Hfm & Hl3 & Ha3 & Hfmt). clear u.
  eapply runs_bind; [eapply runs_clearAppenders; [done|]; rewrite Hl3; apply lookup_insert_eq|].
  intros u w4 Hw4 Hg4 ->. clear u. simpl m_name. simpl m_level. simpl m_formatter. simpl m_root.
  set (l4 := mkLogger (m_name l) (ld_level i) [] fm (m_root l)).
  eapply runs_bind; [eapply (apply_appenders_runs daemon i p (ld_appenders i) l4); [done| |done];
    apply lookup_insert_eq|].
  intros u w5 Hw5 Hg5 (ps & Hl5 & Ha5 & Hmade). apply runs_ret; [done|].
  assert (lw_loggers w5 = <[p := with_appenders ps l4]> (lw_loggers w1)) as Hl5'.
  { rewrite Hl5. simpl. by rewrite Hl3, !insert_insert_eq. }
  assert (grows w1 w5) as Hg.
  { transitivity w2; [exact Hg2|]. transitivity w3; [exact Hg3|].
    etransitivity; [exact Hg4|exact Hg5]. }
  assert (appenders_kept w1 w5) as Hak.
  { intros ap x Hx. apply Ha5. simpl. by rewrite Ha3. }
  split; [by eapply mgr_ok_grows|]. split; [done|]. split.
  - rewrite <- (app_nil_l [ld_name i]). eapply changes_only_trans; [exact Hc1|].
    rewrite <- Hn1. eapply changes_only_set; try done. by rewrite Hn1.
  - exists p, (with_appenders ps l4). split; [done|].
    split; [rewrite Hl5'; apply lookup_insert_eq|]. split; [done|]. split; [exact Hmade|exact Hfmt].
Qed.

Lemma apply_new_runs daemon old new : forall mgr w,
  log_wf fit w -> mgr_ok mgr w -> Forall (define_ok strftime_local) new -> NoDup (ld_name <$> new) ->
  runs fit (apply_new daemon old new mgr) w (fun mgr' w' => mgr_ok mgr' w' /\ mgr_root mgr' = mgr_root mgr /\
    changes_only (ld_name <$> List.filter (fun i => changed i old) new) mgr w mgr' w' /\
    forall i, i ∈ new -> changed i old = true -> configured daemon mgr' w' i).
Proof using HP HF SinkLaws0 StrftimeLaws0.
  induction new as [|i new IH]; intros mgr w Hw Hm Hok Hnd.
  { apply runs_ret; [done|]. split; [done|]. split; [done|]. split; [apply changes_only_refl|].
    intros i Hi. by apply not_elem_of_nil in Hi. }
  apply Forall_cons in Hok as [Hi Hok]. rewrite fmap_cons in Hnd. apply NoDup_cons in Hnd as [Hnin Hnd].
  cbn [apply_new List.filter]. destruct (changed i old) eqn:Hch.
  - eapply runs_bind; [by apply apply_define_runs|].
    intros mgr1 w1 Hw1 _ (Hm1 & Hr1 & Hc1 & Hcf1).
    eapply runs_weaken; [by apply IH|]. intros mgr2 w2 (Hm2 & Hr2 & Hc2 & Hcf2).
    split; [done|]. split; [congruence|]. split.
    + rewrite fmap_cons. by apply (changes_only_trans [ld_name i] _ _ _ _ _ _ _ Hc1 Hc2).
    + intros j [->|Hj]%elem_of_cons Hjc; [|by apply Hcf2].
      eapply configured_kept; [exact Hc2| |done]. intros Hin. apply Hnin.
      apply list_elem_of_fmap in Hin as (k & Hk & Hin). apply list_elem_of_fmap. exists k.
      split; [done|]. apply list_elem_of_In, filter_In in Hin as [Hin _]. by apply list_elem_of_In.
  - eapply runs_bind; [by apply (runs_ret fit mgr w (fun m w' => m = mgr /\ w' = w))|].
    intros m w1 _ _ [-> ->]. eapply runs_weaken; [by apply IH|].
    intros mgr2 w2 (Hm2 & Hr2 & Hc2 & Hcf2). do 3 (split; [done|]).
    intros j [->|Hj]%elem_of_cons Hjc; [congruence|by apply Hcf2].
Qed.

Lemma find_define_None i s : find_define i s = None <-> (ld_name i ∉ ld_name <$> s).
Proof.
  unfold find_define. rewrite fmap_None, list_find_None, Forall_forall, list_elem_of_fmap.
  split; [|naive_solver]. intros H (x & Hx & Hin). by eapply H.
Qed.

(** The names [remove_old] works on. *)
Definition removed (new old : list LogDefine) : list str :=
  List.filter (fun n => negb (bool_decide (n ∈ ld_name <$> new))) (ld_name <$> old).

Lemma removed_cons new i old :
  removed new (i :: old) =
  match find_define i new with None => ld_name i :: removed new old | Some _ => removed new old end.
Proof.
  unfold removed. cbn [fmap list_fmap List.filter]. pose proof (find_define_None i new) as H.
  destruct (find_define i new); case_bool_decide; try done; exfalso; naive_solver.
Qed.

Lemma elem_of_removed n new old :
  n ∈ removed new old <-> (n ∈ ld_name <$> old) /\ (n ∉ ld_name <$> new).
Proof.
  unfold removed. rewrite list_elem_of_In, filter_In, <- list_elem_of_In, negb_true_iff.
  by rewrite bool_decide_eq_false.
Qed.

Lemma remove_old_runs new old : forall mgr w,
  log_wf fit w -> mgr_ok mgr w -> Forall (fun i => nul_free (ld_name i)) old ->
  runs fit (remove_old new old mgr) w (fun mgr' w' => mgr_ok mgr' w' /\ mgr_root mgr' = mgr_root mgr /\
    changes_only (removed new old) mgr w mgr' w' /\
    forall n, n ∈ removed new old -> switched_off mgr' w' n).
Proof using HP HF SinkLaws0 StrftimeLaws0.
  induction old as [|i old IH]; intros mgr w Hw Hm Hz.
  { apply runs_ret; [done|]. split; [done|]. split; [done|]. split; [apply changes_only_refl|].
    intros n Hn. by apply not_elem_of_nil in Hn. }
  apply Forall_cons in Hz as [Hi Hz]. cbn [remove_old]. rewrite removed_cons.
  destruct (find_define i new) as [it|].
  - eapply runs_bind; [by apply (runs_ret fit mgr w (fun m w' => m = mgr /\ w' = w))|].
    intros m w1 _ _ [-> ->]. by apply IH.
  - eapply (runs_bind _ _ _ _ (fun m w' => mgr_ok m w' /\ mgr_root m = mgr_root mgr /\
      changes_only [ld_name i] mgr w m w' /\ switched_off m w' (ld_name i))).
    + eapply runs_bind; [by apply getLogger_runs|].
      intros [p mgr1] w1 Hw1 _ (l & Hm1 & Hr1 & Hp1 & Hl1 & Hn1 & Hc1). cbn [fst snd] in *.
      eapply runs_bind; [by apply runs_setLevel|]. intros u w2 Hw2 Hg2 ->. clear u.
      eapply runs_bind; [eapply runs_clearAppenders; [done|apply lookup_insert_eq]|].
      intros u w3 Hw3 Hg3 ->. clear u. apply runs_ret; [done|].
      split; [eapply mgr_ok_grows; [exact Hm1|by etransitivity]|]. split; [done|]. split.
      * rewrite <- (app_nil_l [ld_name i]). eapply changes_only_trans; [exact Hc1|]. rewrite <- Hn1.
        eapply (changes_only_set mgr1 w1 _ p l); [done|by rewrite Hn1|done| |by intros a x Hx].
        simpl. apply insert_insert_eq.
      * eexists p, _. split; [done|]. split; [apply lookup_insert_eq|done].
    + intros mgr1 w1 Hw1 _ (Hm1 & Hr1 & Hc1 & Hoff). eapply runs_weaken; [by apply IH|].
      intros mgr2 w2 (Hm2 & Hr2 & Hc2 & Hoff2). split; [done|]. split; [congruence|].
      split; [by apply (changes_only_trans [ld_name i] _ _ _ _ _ _ _ Hc1 Hc2)|].
      intros n [->|Hn]%elem_of_cons; [|by apply Hoff2].
      destruct (decide (ld_name i ∈ removed new old)) as [Hin|Hnin]; [by apply Hoff2|].
      by eapply switched_off_kept.
Qed.

(** The whole listener. *)
Lemma on_logger_conf_changed_runs env site mgr old new w :
  site_ok site -> log_wf fit w -> mgr_ok mgr w ->
  Forall (define_ok strftime_local) new -> NoDup (ld_name <$> new) -> Forall (fun i => nul_free (ld_name i)) old ->
  runs fit (on_logger_conf_changed strftime_local env site mgr old new) w (fun mgr' w' =>
    mgr_ok mgr' w' /\
    (forall i, i ∈ new -> changed i old = true -> configured (has $"d" env) mgr' w' i) /\
    (forall n, n ∈ removed new old -> switched_off mgr' w' n) /\
    (forall name p l, m_loggers mgr !! name = Some p -> lw_loggers w !! p = Some l ->
       (name ∉ removed new old) -> (name ∉ ld_name <$> List.filter (fun i => changed i old) new) ->
       m_loggers mgr' !! name = Some p /\ lw_loggers w' !! p = Some l)).
Proof using HP HF SinkLaws0 StrftimeLaws0.
  intros Hsite Hw Hm Hok Hnd Hz. unfold on_logger_conf_changed.
  eapply runs_bind; [exact (runs_log_macro strftime_local site (mgr_root mgr) INFO _ w Hw (proj2 Hm) Hsite)|].
  intros u w1 Hw1 Hg1 (Hl1 & _). clear u.
  eapply runs_bind; [apply apply_new_runs; [done|by eapply mgr_ok_grows|done|done]|].
  intros mgr2 w2 Hw2 _ (Hm2 & _ & Hc2 & Hcf2).
  eapply runs_weaken; [by apply remove_old_runs|].
  intros mgr3 w3 (Hm3 & _ & Hc3 & Hoff3). split; [done|]. split; [|split; [done|]].
  - intros i Hi Hch. eapply configured_kept; [exact Hc3| |by apply Hcf2].
    rewrite elem_of_removed. intros [_ Hn]. apply Hn, list_elem_of_fmap. by exists i.
  - intros name p l Hp Hl Hnr Hnc. destruct Hc2 as [_ Hc2], Hc3 as [_ Hc3].
    destruct (Hc2 name p Hp) as [Hp2 Hl2]. destruct (Hc3 name p Hp2) as [Hp3 Hl3].
    split; [done|]. apply Hl3; [done|]. apply Hl2; [done|]. by rewrite Hl1.
Qed.
End Listener_spec.

(** ** The claims *)

(** C28.  Round trip of a logger's definition: printed as YAML and read back it is the
    same, for appenders of the two known types, except that every appender has lost
    its level ([level] is printed but never read) and a standard output appender its
    unused file; nothing is printed on the way. *)
Theorem log_define_roundtrip (Y : Yaml) (L : YamlLaws) (A : YamlAccess) (AL : YamlAccessLaws)
    (i : LogDefine) (out : str) :
  Forall valid_type (ld_appenders i) ->
  LogDefine_from (LogDefine_to i) out =
  (Ret (mkLogDefine (ld_name i) (ld_level i) (ld_formatter i) (map without_level (ld_appenders i))), out).
Proof. intros Hv. by apply LogDefine_roundtrip. Qed.

#[export] Instance toy_access : YamlAccess := {
  yaml_get n k := match n with
                  | Map ms => Ret (snd <$> (snd <$> list_find (fun e => scalar_of (fst e) = k) ms))
                  | Scalar _ => Throw $"YAML::BadSubscript"
                  | _ => Ret None
                  end;
  yaml_as_string n := match n with Scalar s => Ret s | _ => Throw $"YAML::TypedBadConversion" end
}.

#[export] Instance toy_access_laws : YamlAccessLaws.
Proof. by split. Qed.

Definition sample_define : LogDefine :=
  mkLogDefine $"net" WARN $"%m%n" [mkAppenderDefine 1 ERROR [] $"log/net.log"; mkAppenderDefine 2 UNKNOW $"%p" []].

Lemma log_define_roundtrip_witness :
  LogDefine_from (LogDefine_to sample_define) [] =
  (Ret (mkLogDefine $"net" WARN $"%m%n"
          [mkAppenderDefine 1 UNKNOW [] $"log/net.log"; mkAppenderDefine 2 UNKNOW $"%p" []]), []).
Proof.
  apply (log_define_roundtrip toy_yaml toy_yaml_laws toy_access toy_access_laws sample_define []).
  constructor; [by left|]. constructor; [by right|constructor].
Defined.

(** [toYamlString] of a logger tells its configuration: read back as a logger's
    definition it is the logger's name, level and pattern and, in order, the type,
    file and pattern of each appender; only the appenders' levels are missing. *)
Theorem logger_yaml_roundtrip (Y : Yaml) (L : YamlLaws) (A : YamlAccess) (AL : YamlAccessLaws)
    (heap : gmap nat LogAppender) (l : Logger) :
  (forall p, p ∈ m_appenders l -> is_Some (heap !! p)) ->
  exists text, logger_toYamlString heap l = Ret text /\
    forall out, LogDefine_from text out = (Ret (logger_as_define heap l), out).
Proof. intros Hps. by apply logger_yaml_read. Qed.

Lemma logger_yaml_roundtrip_witness :
  exists text l, lw_loggers started_world !! 0 = Some l /\
    logger_toYamlString (lw_appenders started_world) l = Ret text /\
    ld_appenders (logger_as_define (lw_appenders started_world) l) =
      [mkAppenderDefine 2 UNKNOW default_pattern []; mkAppenderDefine 1 UNKNOW default_pattern $"log/root.txt";
       mkAppenderDefine 2 UNKNOW default_pattern []; mkAppenderDefine 1 UNKNOW default_pattern $"log/root.txt"].
Proof.
  pose (l := default (mkLogger [] DEBUG [] None None) (lw_loggers started_world !! 0)).
  destruct (logger_yaml_roundtrip toy_yaml toy_yaml_laws toy_access toy_access_laws
              (lw_appenders started_world) l) as (text & Ht & _).
  - intros p Hp. vm_compute in Hp. set_unfold in Hp.
    destruct Hp as [-> | [-> | [-> | [-> | []]]]]; vm_compute; by eexists.
  - exists text, l. split; [by vm_compute|]. split; [exact Ht|]. by vm_compute.
Defined.

(** C34.  A change of the appenders alone is lost: [LogDefine::operator==] compares a
    definition's appenders with themselves, so [ConfigVar::setValue] takes a set that
    agrees with the current one in names, levels and formatters for the same value:
    it keeps the old value, and no listener is told. *)
Theorem appender_change_lost (W : Type) (s : var_state (T := list LogDefine) (W := W))
    (new : list LogDefine) :
  Forall2 (fun i j => ld_name i = ld_name j /\ ld_level i = ld_level j /\ ld_formatter i = ld_formatter j)
    new (getValue s) ->
  setValue log_set_eqb new s = (Ret tt, s).
Proof.
  intros Hagree.
  assert (forall l, list_eqb appender_define_eqb l l = true) as Hrefl.
  { induction l as [|a l IH]; [done|]. simpl. rewrite IH. unfold appender_define_eqb.
    by rewrite Z.eqb_refl, !bool_decide_eq_true_2. }
  assert (log_set_eqb new (getValue s) = true) as Heq.
  { unfold log_set_eqb. induction Hagree as [|i j new old (Hn & Hl & Hf) _ IH]; [done|].
    simpl. rewrite IH. unfold log_define_eqb. by rewrite !bool_decide_eq_true_2, Hrefl. }
  unfold setValue. unfold_M. unfold getValue in Heq. by rewrite Heq.
Qed.

Definition quieter_define : LogDefine := mkLogDefine $"net" WARN $"%m%n" [].

Lemma appender_change_lost_witness :
  let s := mkVarState (mkVar $"logs" [] [sample_define] []) 0 tt in
  setValue log_set_eqb [quieter_define] s = (Ret tt, s).
Proof.
  intros s. apply (appender_change_lost unit s [quieter_define]).
  repeat constructor.
Defined.


(** Turning the root into a logger of errors only, on a daemon. *)
Definition root_define : LogDefine :=
  mkLogDefine $"root" ERROR [] [mkAppenderDefine 1 UNKNOW [] $"log/err.log"; mkAppenderDefine 2 UNKNOW [] []].

Definition daemon_env : Env := mkEnv {[ $"d" := [] ]} [] [] [] [].

