(* ===== verification/Conc.v ===== *)
(** * Programs of several threads that share a state and locks

    The operations of the loggers and of the configuration variables take locks
    through guards and access shared memory in between.  Here are the programs they
    are written as ([prog]), the machine that interleaves the accesses of any number
    of threads ([conc_step]), and a logic for it: a thread that takes its locks in
    increasing order, changes what a lock protects only while it holds the lock
    alone, and restores the lock's invariant before it releases it ([safe]), never
    goes wrong, and threads that all do so never deadlock and come to an end. *)
From stdpp Require Import base list sorting.
From S2P Require Import Prelude.

(** How a lock is held: a mutex or spin lock, and a writer, exclude everybody; readers
    exclude writers. *)
Inductive mode : Type := Shared | Exclusive.

#[export] Instance mode_eq_dec : EqDecision mode.
Proof. solve_decision. Defined.

(** A program: it takes and releases locks and performs atomic accesses to the state. *)
Inductive prog (L S A : Type) : Type :=
| Done (a : A)
| Acquire (m : mode) (l : L) (k : prog L S A)
| Release (l : L) (k : prog L S A)
| Act {B : Type} (m : M S B) (k : B -> prog L S A).
Arguments Done {L S A} _.
Arguments Acquire {L S A} _ _ _.
Arguments Release {L S A} _ _.
Arguments Act {L S A B} _ _.

Fixpoint prog_bind {L S A B} (f : A -> prog L S B) (p : prog L S A) : prog L S B :=
  match p with
  | Done a => f a
  | Acquire m l k => Acquire m l (prog_bind f k)
  | Release l k => Release l (prog_bind f k)
  | Act m k => Act m (fun b => prog_bind f (k b))
  end.

#[export] Instance prog_ret L S : MRet (prog L S) := fun A a => Done a.
#[export] Instance prog_mbind L S : MBind (prog L S) := fun A B f p => prog_bind f p.

(** One atomic access. *)
Definition act {L S A} (m : M S A) : prog L S A := Act m (fun a => Done a).

(** Code in the scope of a guard: the constructor takes the lock, the destructor
    releases it. *)
Definition guarded {L S A} (m : mode) (l : L) (p : prog L S A) : prog L S A :=
  Acquire m l (a ← p; Release l (Done a)).

(** ** Exceptions

    A part of a program that may throw ends in a [res]; guards release their locks
    whether it throws or not. *)

(** An access that may throw. *)
Definition attempt {L S A} (m : M S A) : prog L S (res A) :=
  act (fun s => match m s with
                | (Ret a, s') => (Ret (Ret a), s')
                | (Throw e, s') => (Ret (Throw e), s')
                | (Abort w, s') => (Abort w, s')
                | (UB w, s') => (UB w, s')
                end).

(** One part after another, unless it throws. *)
Definition and_then {L S A B} (p : prog L S (res A)) (f : A -> prog L S (res B)) : prog L S (res B) :=
  r ← p;
  match r with
  | Ret a => f a
  | Throw e => Done (Throw e)
  | Abort w => Done (Abort w)
  | UB w => Done (UB w)
  end.

(** A part that does not throw. *)
Definition returning {L S A} (p : prog L S A) : prog L S (res A) := a ← p; mret (Ret a).

(** It returns or throws. *)
Definition settles {A} (r : res A) : Prop :=
  match r with Ret _ | Throw _ => True | _ => False end.

(** ** The machine *)
Section Machine.
Context {L : Type} `{EqDecision L} {S : Type}.

(** A thread: the locks it holds, the last taken first, and what is left to do. *)
Record thread := mkThr { th_held : list (L * mode); th_prog : prog L S unit }.

Record config := mkConfig { c_state : S; c_threads : list thread }.

Definition holds (l : L) (th : thread) : bool :=
  bool_decide ((l, Shared) ∈ th_held th \/ (l, Exclusive) ∈ th_held th).

Definition holds_alone (l : L) (th : thread) : bool := bool_decide ((l, Exclusive) ∈ th_held th).

(** Whether a lock can be taken: nobody holds it, or only readers do. *)
Definition can_take (m : mode) (l : L) (ths : list thread) : bool :=
  match m with
  | Exclusive => forallb (fun th => negb (holds l th)) ths
  | Shared => forallb (fun th => negb (holds_alone l th)) ths
  end.

(** The held locks without the last acquisition of [l]. *)
Fixpoint remove_lock (l : L) (held : list (L * mode)) : option (list (L * mode)) :=
  match held with
  | [] => None
  | h :: held' => if decide (fst h = l) then Some held' else cons h <$> remove_lock l held'
  end.

(** The next step of thread [i]; [None] when it has ended, waits for a lock, or would
    go wrong. *)
Definition conc_step (i : nat) (c : config) : option config :=
  match c_threads c !! i with
  | None => None
  | Some th =>
      match th_prog th with
      | Done _ => None
      | Acquire m l k =>
          if can_take m l (c_threads c)
          then Some (mkConfig (c_state c) (<[i := mkThr ((l, m) :: th_held th) k]> (c_threads c)))
          else None
      | Release l k =>
          held ← remove_lock l (th_held th);
          Some (mkConfig (c_state c) (<[i := mkThr held k]> (c_threads c)))
      | Act m k =>
          match m (c_state c) with
          | (Ret b, s') => Some (mkConfig s' (<[i := mkThr (th_held th) (k b)]> (c_threads c)))
          | _ => None
          end
      end
  end.

(** The next step of thread [i] is undefined, throws or aborts, or releases a lock it
    does not hold. *)
Definition goes_wrong (i : nat) (c : config) : Prop :=
  match th_prog <$> c_threads c !! i with
  | Some (Act m k) => is_ret (fst (m (c_state c))) = false
  | Some (Release l k) => (remove_lock l ∘ th_held) <$> c_threads c !! i = Some None
  | _ => False
  end.

Definition ended (th : thread) : Prop := th_prog th = Done tt.

(** Threads that start the programs [ps] on the state [s]. *)
Definition start_config (s : S) (ps : list (prog L S unit)) : config :=
  mkConfig s (mkThr [] <$> ps).

Inductive conc_reach (c0 : config) : config -> Prop :=
| conc_start : conc_reach c0 c0
| conc_next i c c' : conc_reach c0 c -> conc_step i c = Some c' -> conc_reach c0 c'.

(** A schedule: the threads that step, one after the other. *)
Fixpoint conc_run (sched : list nat) (c : config) : option config :=
  match sched with [] => Some c | i :: sched' => conc_step i c ≫= conc_run sched' end.

Lemma conc_run_app s1 s2 c c1 : conc_run s1 c = Some c1 -> conc_run (s1 ++ s2) c = conc_run s2 c1.
Proof.
  revert c. induction s1 as [|i s1 IH]; intros c; simpl; [by intros [= ->]|].
  destruct (conc_step i c) as [c2|]; [|done]. apply IH.
Qed.

Lemma conc_run_reach c0 sched c c' :
  conc_reach c0 c -> conc_run sched c = Some c' -> conc_reach c0 c'.
Proof.
  revert c. induction sched as [|i sched IH]; intros c Hc; simpl; [by intros [= <-]|].
  destruct (conc_step i c) as [c1|] eqn:E; [|done]. apply IH. by eapply conc_next.
Qed.
End Machine.
Arguments thread : clear implicits.
Arguments config : clear implicits.

(** A computed execution is one. *)
Lemma computed_run {L S} `{EqDecision L} (start : config L S) sched :
  match conc_run sched start with Some _ => true | None => false end = true ->
  conc_reach start (default start (conc_run sched start)).
Proof.
  intros Hb. apply (conc_run_reach start sched start); [constructor|].
  by destruct (conc_run sched start).
Qed.

Lemma run_computed {L S} `{EqDecision L} (start : config L S) sched (P : config L S -> bool) :
  match conc_run sched start with Some c => P c | None => false end = true ->
  exists c, conc_run sched start = Some c /\ P c = true.
Proof. destruct (conc_run sched start) as [c|]; [|done]. by exists c. Qed.

Definition all_ended {L S} (c : config L S) : bool :=
  forallb (fun th => match th_prog th with Done _ => true | _ => false end) (c_threads c).

Lemma all_ended_spec {L S} (c : config L S) :
  all_ended c = true -> forall i th, c_threads c !! i = Some th -> ended th.
Proof.
  unfold all_ended, ended. rewrite forallb_forall. intros Hall i th Hi%list_elem_of_lookup_2%list_elem_of_In.
  specialize (Hall th Hi). by destruct (th_prog th) as [[]|?|?|?].
Qed.

Lemma no_locks_held {L S} (ths : list (thread L S)) i th h :
  forallb (fun th => match th_held th with [] => true | _ => false end) ths = true ->
  ths !! i = Some th -> h ∉ th_held th.
Proof.
  rewrite forallb_forall. intros Hall Hi%list_elem_of_lookup_2%list_elem_of_In. specialize (Hall th Hi).
  destruct (th_held th); [apply not_elem_of_nil|done].
Qed.

(** ** Executions are finite *)
Section Finite.
Context {L : Type} `{EqDecision L} {S : Type}.

(** The programs one step of a program can lead to. *)
Definition subprog {A} (q p : prog L S A) : Prop :=
  match p with
  | Done _ => False
  | Acquire _ _ k | Release _ k => q = k
  | Act _ k => exists b, q = k b
  end.

Lemma subprog_wf {A} : well_founded (@subprog A).
Proof.
  intros p. induction p as [a|m l k IH|l k IH|B m k IH]; constructor; intros q Hq; simpl in Hq;
    [done|by subst..|]. destruct Hq as [b ->]. apply IH.
Qed.

(** One element of a list is replaced by a smaller one. *)
Definition one_smaller {T} (R : T -> T -> Prop) (xs ys : list T) : Prop :=
  exists i x y, ys !! i = Some y /\ xs = <[i := x]> ys /\ R x y.

Lemma one_smaller_wf {T} (R : T -> T -> Prop) : well_founded R -> well_founded (one_smaller R).
Proof.
  intros HR ys. induction ys as [|y ys IHys].
  { constructor. intros xs (i & x & y & Hy & _). done. }
  revert ys IHys. induction (HR y) as [y _ IHy]. intros ys Hys.
  induction Hys as [ys Hys IHys]. constructor. intros xs (i & x & z & Hz & -> & Hx).
  destruct i as [|i]; simpl in *.
  - injection Hz as <-. apply IHy; [done|]. by constructor.
  - apply IHys. by exists i, x, z.
Qed.

Lemma conc_step_smaller i (c c' : config L S) :
  conc_step i c = Some c' ->
  one_smaller subprog (th_prog <$> c_threads c') (th_prog <$> c_threads c).
Proof.
  unfold conc_step. destruct (c_threads c !! i) as [th|] eqn:Hi; [|done]. intros Hs.
  assert (exists q held, subprog q (th_prog th) /\
    c_threads c' = <[i := mkThr held q]> (c_threads c)) as (q & held & Hq & ->).
  { destruct (th_prog th) as [a|m l k|l k|B m k]; [done|..].
    - destruct (can_take m l (c_threads c)); [|done]. injection Hs as <-. by eexists _, _.
    - destruct (remove_lock l (th_held th)); [|done]. injection Hs as <-. by eexists _, _.
    - destruct (m (c_state c)) as [[b|?|?|?] s']; [|done..]. injection Hs as <-.
      eexists _, _. split; [by exists b|done]. }
  exists i, q, (th_prog th).
  split; [by rewrite list_lookup_fmap, Hi|]. split; [|done]. by rewrite list_fmap_insert.
Qed.

(** No execution is infinite. *)
Lemma conc_finite (e : nat -> config L S) :
  ~ forall n, exists i, conc_step i (e n) = Some (e (Datatypes.S n)).
Proof.
  intros He. assert (forall ps, forall n, (th_prog <$> c_threads (e n)) = ps -> False) as H.
  { intros ps. induction (one_smaller_wf _ (@subprog_wf unit) ps) as [ps _ IH]. intros n <-.
    destruct (He n) as [i Hi]. apply conc_step_smaller in Hi. by eapply IH. }
  exact (H _ 0 eq_refl).
Qed.
End Finite.

(** ** The logic *)

(** What the components of a proof agree on: the order of the locks; an invariant
    that holds at all times; how the state may grow; what a lock protects, as the
    changes that leave it alone; and its invariant while nobody holds it alone. *)
Class Protocol (L S : Type) := {
  lock_rank : L -> nat;
  always : S -> Prop;
  growth : S -> S -> Prop;
  untouched : L -> S -> S -> Prop;
  lock_inv : L -> S -> Prop;
  growth_preorder : PreOrder growth;
  untouched_preorder l : PreOrder (untouched l);
  lock_inv_untouched l s s' : growth s s' -> untouched l s s' -> lock_inv l s -> lock_inv l s'
}.
#[export] Existing Instance growth_preorder.
#[export] Existing Instance untouched_preorder.

Section Logic.
Context {L : Type} `{EqDecision L} {S : Type} `{Protocol L S}.

(** What others do while a thread holds [held], and what it may do itself: change what a
    lock protects only while it holds the lock alone. *)
Definition rely (held : list (L * mode)) (s s' : S) : Prop :=
  growth s s' /\ forall h, h ∈ held -> untouched (fst h) s s'.
Definition guarantee (held : list (L * mode)) (s s' : S) : Prop :=
  growth s s' /\ forall l, (l, Exclusive) ∉ held -> untouched l s s'.

#[export] Instance rely_preorder held : PreOrder (rely held).
Proof.
  split; [by intros s|]. intros s1 s2 s3 [H1 H2] [H3 H4]. split; [by etransitivity|].
  intros h Hh. etransitivity; [by apply H2|by apply H4].
Qed.

Lemma rely_tail h held s s' : rely (h :: held) s s' -> rely held s s'.
Proof. intros [Hg Hu]. split; [done|]. intros h' Hh. apply Hu. by right. Qed.

Definition above (l : L) (held : list (L * mode)) : Prop :=
  Forall (fun h => lock_rank (fst h) < lock_rank l) held.

(** [safe held s p Q]: with the locks [held], from the state [s] changed by others or
    not, [p] never goes wrong and ends with [Q]. *)
Fixpoint safe {A} (held : list (L * mode)) (s : S) (p : prog L S A)
    (Q : A -> list (L * mode) -> S -> Prop) : Prop :=
  match p with
  | Done a => Q a held s
  | Acquire m l k =>
      above l held /\
      forall s', rely held s s' -> always s' -> lock_inv l s' -> safe ((l, m) :: held) s' k Q
  | Release l k =>
      match held with
      | [] => False
      | h :: held' =>
          fst h = l /\ forall s', rely held s s' -> always s' ->
            (snd h = Exclusive -> lock_inv l s') /\ safe held' s' k Q
      end
  | Act m k =>
      forall s', rely held s s' -> always s' ->
        exists b s2, m s' = (Ret b, s2) /\ always s2 /\ guarantee held s' s2 /\ safe held s2 (k b) Q
  end.

(** *** Rules *)

Lemma safe_weaken {A} held s (p : prog L S A) Q Q' :
  safe held s p Q -> (forall a h s', Q a h s' -> Q' a h s') -> safe held s p Q'.
Proof.
  intros Hp HQ. revert held s Hp.
  induction p as [a|m l k IH|l k IH|B m k IH]; intros held s; simpl; [by auto|..].
  - intros [Ha Hk]. split; [done|]. eauto.
  - destruct held as [|h held]; [done|]. intros [Hl Hk]. split; [done|]. intros s' Hr Hs.
    destruct (Hk s' Hr Hs). eauto.
  - intros Hm s' Hr Hs. destruct (Hm s' Hr Hs) as (b & s2 & ? & ? & ? & ?). exists b, s2. eauto.
Qed.

Lemma safe_bind {A B} held s (p : prog L S A) (f : A -> prog L S B) Q :
  safe held s p (fun a held' s' => safe held' s' (f a) Q) -> safe held s (p ≫= f) Q.
Proof.
  revert held s. induction p as [a|m l k IH|l k IH|C m k IH]; intros held s; simpl; [done|..].
  - intros [Ha Hk]. split; [done|]. intros. apply IH. auto.
  - destruct held as [|h held]; [done|]. intros [Hl Hk]. split; [done|]. intros s' Hr Hs.
    destruct (Hk s' Hr Hs). split; [done|]. by apply IH.
  - intros Hm s' Hr Hs. destruct (Hm s' Hr Hs) as (b & s2 & ? & ? & ? & ?). exists b, s2.
    repeat (split; [done|]). by apply IH.
Qed.

(** An access that changes nothing. *)
Lemma safe_read {A} held s (m : M S A) (Q : A -> list (L * mode) -> S -> Prop) :
  (forall s', rely held s s' -> always s' -> exists a, m s' = (Ret a, s') /\ Q a held s') ->
  safe held s (act m) Q.
Proof.
  intros Hm s' Hr Hs. destruct (Hm s' Hr Hs) as (a & Ha & HQ). exists a, s'.
  split; [done|]. split; [done|]. by split.
Qed.

Lemma safe_act {A} held s (m : M S A) (Q : A -> list (L * mode) -> S -> Prop) :
  (forall s', rely held s s' -> always s' ->
     exists a s2, m s' = (Ret a, s2) /\ always s2 /\ guarantee held s' s2 /\ Q a held s2) ->
  safe held s (act m) Q.
Proof. intros Hm s' Hr Hs. exact (Hm s' Hr Hs). Qed.

(** The scope of a guard. *)
Lemma safe_guarded {A} held s m l (p : prog L S A) (Q : A -> list (L * mode) -> S -> Prop) :
  above l held ->
  (forall s', rely held s s' -> always s' -> lock_inv l s' ->
     safe ((l, m) :: held) s' p (fun a held' s2 =>
       held' = (l, m) :: held /\ (m = Exclusive -> lock_inv l s2) /\
       forall s3, rely ((l, m) :: held) s2 s3 -> always s3 -> Q a held s3)) ->
  safe held s (guarded m l p) Q.
Proof.
  intros Ha Hp. split; [done|]. intros s' Hr Hs Hl. apply safe_bind.
  eapply safe_weaken; [by apply Hp|]. intros a held' s2 (-> & Hinv & HQ). split; [done|].
  intros s3 Hr3 Hs3. split; [|by apply HQ]. simpl. intros Hm.
  eapply lock_inv_untouched; [apply Hr3|apply (proj2 Hr3 (l, m)); by left|by apply Hinv].
Qed.

(** The state only grows. *)
Lemma safe_growth {A} held s0 s (p : prog L S A) Q :
  growth s0 s -> safe held s p Q -> safe held s p (fun a h s' => growth s0 s' /\ Q a h s').
Proof.
  revert held s. induction p as [a|m l k IH|l k IH|B m k IH]; intros held s Hg; simpl; [done|..].
  - intros [Ha Hk]. split; [done|]. intros s' Hr Hs Hl. apply IH; [|by apply Hk].
    etransitivity; [done|apply Hr].
  - destruct held as [|h held]; [done|]. intros [Hl Hk]. split; [done|]. intros s' Hr Hs.
    destruct (Hk s' Hr Hs) as [Hi Hp]. split; [done|]. apply IH; [|done]. etransitivity; [done|apply Hr].
  - intros Hm s' Hr Hs. destruct (Hm s' Hr Hs) as (b & s2 & ? & ? & Hgu & ?). exists b, s2.
    do 3 (split; [done|]). apply IH; [|done]. etransitivity; [done|]. etransitivity; [apply Hr|apply Hgu].
Qed.

(** One part of a program after another, with the same locks. *)
Lemma safe_then {A B} held s (p : prog L S A) (f : A -> prog L S B) (P : A -> S -> Prop) Q :
  safe held s p (fun a h s' => h = held /\ P a s') ->
  (forall a s', growth s s' -> P a s' -> safe held s' (f a) Q) ->
  safe held s (p ≫= f) Q.
Proof.
  intros Hp Hf. apply safe_bind. eapply safe_weaken; [apply (safe_growth held s s); [done|exact Hp]|].
  intros a h s' (Hg & -> & HP). by apply Hf.
Qed.

(** The scope of a guard, as a part of a program. *)
Lemma safe_scope {A} held s m l (p : prog L S A) (P : A -> S -> Prop) :
  above l held ->
  (forall a s2 s3, rely ((l, m) :: held) s2 s3 -> P a s2 -> P a s3) ->
  (forall s', rely held s s' -> always s' -> lock_inv l s' ->
     safe ((l, m) :: held) s' p (fun a h s2 =>
       h = (l, m) :: held /\ (m = Exclusive -> lock_inv l s2) /\ P a s2)) ->
  safe held s (guarded m l p) (fun a h s' => h = held /\ P a s').
Proof.
  intros Ha Hst Hp. apply safe_guarded; [done|]. intros s' Hr Hs Hl.
  eapply safe_weaken; [by apply Hp|]. intros a h s2 (-> & Hi & HP). split; [done|]. split; [done|].
  intros s3 Hr3 _. split; [done|]. by eapply Hst.
Qed.

(** What one thread knows survives the steps of the others. *)
Lemma safe_rely {A} held s s' (p : prog L S A) Q :
  (forall a h s1 s2, rely h s1 s2 -> Q a h s1 -> Q a h s2) ->
  rely held s s' -> safe held s p Q -> safe held s' p Q.
Proof.
  intros HQ Hr. destruct p as [a|m l k|l k|B m k]; simpl.
  - by apply HQ.
  - intros [Ha Hk]. split; [done|]. intros s2 Hr2. apply Hk. by etransitivity.
  - destruct held as [|h held]; [done|]. intros [Hl Hk]. split; [done|]. intros s2 Hr2.
    apply Hk. by etransitivity.
  - intros Hm s2 Hr2. apply Hm. by etransitivity.
Qed.

Lemma above_nil (k : L) : above k [].
Proof. apply Forall_nil_2. Qed.

(** The programs that are part of others: they keep the locks they are called with. *)
Definition keeps_locks (held : list (L * mode)) {A} (P : A -> S -> Prop) :
    A -> list (L * mode) -> S -> Prop := fun a h s => h = held /\ P a s.
Definition anything {A} : A -> S -> Prop := fun _ _ => True.

Lemma safe_ret {A} held s (a : A) (P : A -> S -> Prop) :
  P a s -> safe held s (mret a) (keeps_locks held P).
Proof. by split. Qed.

(** A part that returns with [P], or throws. *)
Definition settled {A} (P : A -> S -> Prop) (r : res A) (s : S) : Prop :=
  match r with Ret a => P a s | Throw _ => True | _ => False end.

Lemma safe_attempt {A} held s (m : M S A) (P : A -> S -> Prop) :
  (forall s', rely held s s' -> always s' ->
     exists r s2, m s' = (r, s2) /\ always s2 /\ guarantee held s' s2 /\ settled P r s2) ->
  safe held s (attempt m) (keeps_locks held (settled P)).
Proof.
  intros Hm. apply safe_act. intros s' Hr Hs. destruct (Hm s' Hr Hs) as (r & s2 & -> & Hs2 & Hg & HP).
  exists r, s2. split; [by destruct r|]. done.
Qed.

Lemma safe_and_then {A B} held s (p : prog L S (res A)) (f : A -> prog L S (res B)) (P : A -> S -> Prop)
    (Q : B -> S -> Prop) :
  safe held s p (keeps_locks held (settled P)) ->
  (forall a s', growth s s' -> P a s' -> safe held s' (f a) (keeps_locks held (settled Q))) ->
  safe held s (and_then p f) (keeps_locks held (settled Q)).
Proof.
  intros Hp Hf. eapply safe_then; [exact Hp|]. intros r s' Hg HP. destruct r; [by apply Hf|by split|done|done].
Qed.

Lemma safe_returning {A} held s (p : prog L S A) (P : A -> S -> Prop) :
  safe held s p (keeps_locks held P) -> safe held s (returning p) (keeps_locks held (settled P)).
Proof. intros Hp. eapply safe_then; [exact Hp|]. intros a s' _ HP. by split. Qed.

(** The program of a part whose result is not used. *)
Lemma safe_anything {A} held s (p : prog L S A) (P : A -> S -> Prop) :
  safe held s p (keeps_locks held P) -> safe held s p (keeps_locks held anything).
Proof. intros Hp. eapply safe_weaken; [exact Hp|]. by intros a h s' [-> _]. Qed.

(** *** Soundness *)

(** The program of a thread: it ends without locks. *)
Definition no_locks (u : unit) (held : list (L * mode)) (s : S) : Prop := held = [].
Definition safe_program (s : S) (p : prog L S unit) : Prop := safe [] s p no_locks.

(** The locks of a thread, the last taken first, are in decreasing order. *)
Fixpoint descending (held : list (L * mode)) : Prop :=
  match held with [] => True | h :: held' => above (fst h) held' /\ descending held' end.

Record conc_ok (c : config L S) : Prop := mkConcOk {
  ok_always : always (c_state c);
  ok_safe : forall i th, c_threads c !! i = Some th -> safe (th_held th) (c_state c) (th_prog th) no_locks;
  ok_order : forall i th, c_threads c !! i = Some th -> descending (th_held th);
  ok_alone : forall i j thi thj l m, c_threads c !! i = Some thi -> c_threads c !! j = Some thj ->
    (l, Exclusive) ∈ th_held thi -> (l, m) ∈ th_held thj -> i = j;
  ok_free : forall l, (forall i th, c_threads c !! i = Some th -> (l, Exclusive) ∉ th_held th) ->
    lock_inv l (c_state c)
}.

Lemma start_ok s ps :
  always s -> (forall l, lock_inv l s) -> Forall (safe_program s) ps -> conc_ok (start_config s ps).
Proof.
  intros Hs Hl Hps. unfold start_config.
  assert (forall i th, (mkThr [] <$> ps) !! i = Some th ->
    th_held th = [] /\ safe_program s (th_prog th)) as Hth.
  { intros i th. rewrite list_lookup_fmap. destruct (ps !! i) as [p|] eqn:E; [|done].
    intros [= <-]. split; [done|]. by eapply Forall_lookup_1 in E. }
  split; simpl; try done.
  - intros i th Hi. destruct (Hth i th Hi) as [-> Hsafe]. exact Hsafe.
  - intros i th Hi. by destruct (Hth i th Hi) as [-> _].
  - intros i j thi thj l m Hi _ Hin. destruct (Hth i thi Hi) as [Hh _]. rewrite Hh in Hin.
    by apply not_elem_of_nil in Hin.
Qed.

Lemma can_take_spec m l (ths : list (thread L S)) i th :
  can_take m l ths = true -> ths !! i = Some th ->
  ~ (l, Exclusive) ∈ th_held th /\ (m = Exclusive -> ~ (l, Shared) ∈ th_held th).
Proof.
  unfold can_take. intros Hc Hi. apply list_elem_of_lookup_2 in Hi. rewrite list_elem_of_In in Hi.
  destruct m.
  - rewrite forallb_forall in Hc. specialize (Hc th Hi). apply negb_true_iff in Hc.
    unfold holds_alone in Hc. by apply bool_decide_eq_false in Hc.
  - rewrite forallb_forall in Hc. specialize (Hc th Hi). apply negb_true_iff in Hc.
    unfold holds in Hc. apply bool_decide_eq_false in Hc. tauto.
Qed.

Lemma no_locks_stable (u : unit) h s1 s2 : rely h s1 s2 -> no_locks u h s1 -> no_locks u h s2.
Proof. done. Qed.

Lemma above_not_in l held : above l held -> forall m, (l, m) ∉ held.
Proof.
  unfold above. rewrite Forall_forall. intros Ha m Hin. specialize (Ha _ Hin). simpl in Ha. lia.
Qed.

(** Thread [i] goes on with other locks and another program. *)
Lemma ok_insert (c : config L S) i th held k s' :
  conc_ok c -> c_threads c !! i = Some th ->
  always s' -> safe held s' k no_locks -> descending held ->
  (forall j thj, j <> i -> c_threads c !! j = Some thj -> rely (th_held thj) (c_state c) s') ->
  (forall j thj l m m', j <> i -> c_threads c !! j = Some thj -> (l, m) ∈ held ->
     (l, m') ∈ th_held thj -> m = Shared /\ m' = Shared) ->
  (forall l, (l, Exclusive) ∉ held ->
     (forall j thj, j <> i -> c_threads c !! j = Some thj -> (l, Exclusive) ∉ th_held thj) ->
     lock_inv l s') ->
  conc_ok (mkConfig s' (<[i := mkThr held k]> (c_threads c))).
Proof.
  intros [Hal Hsafe Hord Halone Hfree] Hi Hs' Hk Hdesc Hrely Hexcl Hinv.
  assert (i < length (c_threads c)) as Hlt by (by eapply lookup_lt_Some).
  assert (forall j th', <[i := mkThr held k]> (c_threads c) !! j = Some th' ->
    (j = i /\ th' = mkThr held k) \/ (j <> i /\ c_threads c !! j = Some th')) as Hcases.
  { intros j th'. rewrite list_lookup_insert. case_decide as Hj.
    - intros [= <-]. left. by destruct Hj.
    - intros Hj'. right. split; [|done]. intros ->. by apply Hj. }
  split; simpl.
  - done.
  - intros j th' Hj. destruct (Hcases j th' Hj) as [[-> ->]|[Hne Hj']]; [done|].
    eapply safe_rely; [exact no_locks_stable|by eapply Hrely|by eapply Hsafe].
  - intros j th' Hj. destruct (Hcases j th' Hj) as [[-> ->]|[Hne Hj']]; [done|by eapply Hord].
  - intros j1 j2 th1 th2 l m Hj1 Hj2 Hin1 Hin2.
    destruct (Hcases j1 th1 Hj1) as [[-> ->]|[Hne1 Hj1']], (Hcases j2 th2 Hj2) as [[-> ->]|[Hne2 Hj2']].
    + done.
    + by destruct (Hexcl j2 th2 l Exclusive m Hne2 Hj2' Hin1 Hin2).
    + by destruct (Hexcl j1 th1 l m Exclusive Hne1 Hj1' Hin2 Hin1).
    + by eapply Halone.
  - intros l Hnone. apply Hinv.
    + apply (Hnone i (mkThr held k)). by apply list_lookup_insert_eq.
    + intros j thj Hne Hj. apply (Hnone j thj). by rewrite list_lookup_insert_ne.
Qed.

Lemma step_ok i c c' : conc_ok c -> conc_step i c = Some c' -> conc_ok c'.
Proof.
  intros Hok. unfold conc_step. destruct (c_threads c !! i) as [th|] eqn:Hi; [|done].
  pose proof (ok_safe _ Hok _ _ Hi) as Hsafe. pose proof (ok_order _ Hok _ _ Hi) as Hdesc.
  destruct (th_prog th) as [a|m l k|l k|B m k]; [done|..]; simpl in Hsafe.
  - destruct (can_take m l (c_threads c)) eqn:Hc; [|done]. intros [= <-].
    destruct Hsafe as [Habove Hk].
    assert (lock_inv l (c_state c)) as Hl.
    { apply (ok_free _ Hok). intros j thj Hj. by apply (can_take_spec m l _ _ _ Hc Hj). }
    eapply ok_insert; try done; [by apply ok_always|apply Hk; [done|by apply ok_always|done]|..].
    + intros j thj l' m1 m2 Hne Hj [[= -> ->]|Hin]%elem_of_cons Hin2.
      * destruct (can_take_spec m l _ _ _ Hc Hj) as [H1 H2]. destruct m2; [|done].
        destruct m; [done|]. by destruct (H2 eq_refl).
      * destruct m1, m2; try done; exfalso; apply Hne; eauto using ok_alone.
        symmetry. eauto using ok_alone.
    + intros l' Hn Hothers. apply (ok_free _ Hok). intros j thj Hj Hin.
      destruct (decide (j = i)) as [->|Hne]; [|by eapply Hothers].
      rewrite Hi in Hj. injection Hj as <-. apply Hn. by right.
  - destruct (th_held th) as [|h held] eqn:Hh; [done|]. destruct Hsafe as [Hhl Hk]. simpl.
    rewrite decide_True by done. simpl. intros [= <-].
    destruct (Hk (c_state c) (reflexivity _) (ok_always _ Hok)) as [Hinv Hsafe].
    assert (forall x, x ∈ held -> x ∈ th_held th) as Hsub by (intros x Hx; rewrite Hh; by right).
    destruct Hdesc as [Habove Hdesc].
    eapply ok_insert; try done; [by apply ok_always|..].
    + intros j thj l' m1 m2 Hne Hj Hin%Hsub Hin2.
      destruct m1, m2; try done; exfalso; apply Hne; eauto using ok_alone.
      symmetry. eauto using ok_alone.
    + intros l' Hn Hothers. destruct h as [lh mh]. simpl in Hhl. subst lh.
      destruct (decide (l' = l /\ mh = Exclusive)) as [[-> ->]|Hne]; [by apply Hinv|].
      apply (ok_free _ Hok). intros j thj Hj Hin.
      destruct (decide (j = i)) as [->|Hj']; [|by eapply Hothers].
      rewrite Hi in Hj. injection Hj as <-. rewrite Hh in Hin.
      apply elem_of_cons in Hin as [[= -> <-]|Hin]; [by destruct Hne|done].
  - destruct (Hsafe (c_state c) (reflexivity _) (ok_always _ Hok)) as (b & s2 & Hm & Hs2 & [Hg Hu] & Hk).
    rewrite Hm. intros [= <-]. eapply ok_insert; try done.
    + intros j thj Hne Hj. split; [done|]. intros [l' m'] Hin. apply Hu. intros Hin2.
      apply Hne. symmetry. eauto using ok_alone.
    + intros j thj l' m1 m2 Hne Hj Hin Hin2.
      destruct m1, m2; try done; exfalso; apply Hne; eauto using ok_alone.
      symmetry. eauto using ok_alone.
    + intros l' Hn Hothers. eapply lock_inv_untouched; [done|by apply Hu|].
      apply (ok_free _ Hok). intros j thj Hj.
      destruct (decide (j = i)) as [->|Hj']; [|by eapply Hothers].
      rewrite Hi in Hj. by injection Hj as <-.
Qed.

Lemma reach_ok c0 c : conc_ok c0 -> conc_reach c0 c -> conc_ok c.
Proof. intros H0. induction 1 as [|i c c' _ IH Hs]; [done|by eapply step_ok]. Qed.

(** A step of a thread respects the locks it does not hold alone. *)
Lemma step_guarantee i th c c' :
  conc_ok c -> c_threads c !! i = Some th -> conc_step i c = Some c' ->
  guarantee (th_held th) (c_state c) (c_state c').
Proof.
  intros Hok Hi. unfold conc_step. rewrite Hi.
  pose proof (ok_safe _ Hok _ _ Hi) as Hsafe. destruct (th_prog th) as [a|m l k|l k|B m k]; [done|..]; simpl in Hsafe.
  - destruct (can_take m l (c_threads c)); [|done]. by intros [= <-].
  - destruct (remove_lock l (th_held th)); [|done]. by intros [= <-].
  - destruct (Hsafe (c_state c) (reflexivity _) (ok_always _ Hok)) as (b & s2 & -> & _ & Hg & _).
    by intros [= <-].
Qed.

Lemma step_growth i c c' : conc_ok c -> conc_step i c = Some c' -> growth (c_state c) (c_state c').
Proof.
  intros Hok Hs. destruct (c_threads c !! i) as [th|] eqn:Hi; [|unfold conc_step in Hs; by rewrite Hi in Hs].
  exact (proj1 (step_guarantee i th c c' Hok Hi Hs)).
Qed.

(** The state of any execution has grown from the first. *)
Lemma reach_growth c0 c : conc_ok c0 -> conc_reach c0 c -> growth (c_state c0) (c_state c).
Proof.
  intros H0. induction 1 as [|i c c' Hr IH Hs]; [done|]. etransitivity; [exact IH|].
  eapply step_growth; [by eapply reach_ok|exact Hs].
Qed.

Lemma ok_not_wrong c i : conc_ok c -> ~ goes_wrong i c.
Proof.
  intros Hok. unfold goes_wrong. destruct (c_threads c !! i) as [th|] eqn:Hi; [|simpl; tauto]. simpl.
  pose proof (ok_safe _ Hok _ _ Hi) as Hsafe.
  destruct (th_prog th) as [a|m l k|l k|B m k]; [tauto|tauto| |]; simpl in Hsafe.
  - destruct (th_held th) as [|h held]; [done|]. destruct Hsafe as [Hl _]. simpl.
    by rewrite decide_True.
  - destruct (Hsafe (c_state c) (reflexivity _) (ok_always _ Hok)) as (b & s2 & Hm & _). by rewrite Hm.
Qed.

(** A thread waits for a lock. *)
Definition waits (th : thread L S) (l : L) : Prop :=
  exists m k, th_prog th = Acquire m l k.

(** A thread that cannot step has ended, or waits for a lock that some thread holds. *)
Lemma stuck_waits c i th :
  conc_ok c -> c_threads c !! i = Some th -> conc_step i c = None ->
  ended th \/ exists l, waits th l /\ exists j thj m, c_threads c !! j = Some thj /\ (l, m) ∈ th_held thj.
Proof.
  intros Hok Hi Hs. pose proof (ok_not_wrong c i Hok) as Hnw. unfold goes_wrong in Hnw.
  unfold conc_step in Hs. rewrite Hi in Hs, Hnw. simpl in Hnw. unfold ended, waits.
  destruct (th_prog th) as [[]|m l k|l k|B m k]; [by left|right|..].
  - exists l. split; [by eexists _, _|]. destruct (can_take m l (c_threads c)) eqn:Hc; [done|].
    assert (Exists (fun th' => exists m', (l, m') ∈ th_held th') (c_threads c)) as Hex.
    { destruct (decide (Exists (fun th' => (l, Shared) ∈ th_held th' \/ (l, Exclusive) ∈ th_held th')
        (c_threads c))) as [He|Hn].
      - eapply Exists_impl; [exact He|]. intros th' [?|?]; by eexists.
      - exfalso. apply not_Exists_Forall in Hn. 2: { intros ?. apply _. }
        rewrite Forall_forall in Hn. assert (can_take m l (c_threads c) = true) as Ht; [|congruence].
        unfold can_take, holds, holds_alone. destruct m; apply forallb_forall; intros th' Hin%list_elem_of_In;
          specialize (Hn th' Hin); simpl in Hn; apply negb_true_iff, bool_decide_eq_false; tauto. }
    apply Exists_exists in Hex as (th' & Hin & m' & Hm'). apply list_elem_of_lookup_1 in Hin as [j Hj].
    by exists j, th', m'.
  - exfalso. destruct (remove_lock l (th_held th)) eqn:E; [done|]. by apply Hnw.
  - exfalso. apply Hnw. destruct (m (c_state c)) as [[b|?|?|?] s']; done.
Qed.

(** The lock a waiting thread waits for comes after all it holds. *)
Lemma waits_above c i th l l' m :
  conc_ok c -> c_threads c !! i = Some th -> waits th l -> (l', m) ∈ th_held th ->
  lock_rank l' < lock_rank l.
Proof.
  intros Hok Hi (m' & k & Hp) Hin. pose proof (ok_safe _ Hok _ _ Hi) as Hsafe.
  rewrite Hp in Hsafe. destruct Hsafe as [Ha _]. unfold above in Ha. rewrite Forall_forall in Ha.
  exact (Ha _ Hin).
Qed.

(** Not all threads wait: from any that waits, the one holding the lock it waits for
    waits for a later one, and there is a last one. *)
Lemma progress c :
  conc_ok c -> (forall i th, c_threads c !! i = Some th -> ended th) \/ exists i c', conc_step i c = Some c'.
Proof.
  intros Hok.
  destruct (decide (Exists (fun i => is_Some (conc_step i c)) (seq 0 (length (c_threads c))))) as [He|Hn].
  { right. apply Exists_exists in He as (i & _ & [c' Hs]). eauto. }
  left. apply not_Exists_Forall in Hn. 2: { intros ?. apply _. }
  assert (forall i th, c_threads c !! i = Some th -> conc_step i c = None) as Hstuck.
  { intros i th Hi. rewrite Forall_forall in Hn. apply eq_None_not_Some, Hn, elem_of_seq.
    apply lookup_lt_Some in Hi. lia. }
  set (bound := list_max (flat_map (fun th => match th_prog th with
    | Acquire _ l _ => [lock_rank l] | _ => [] end) (c_threads c))).
  assert (forall i th l, c_threads c !! i = Some th -> waits th l -> lock_rank l <= bound) as Hbound.
  { intros i th l Hi (m & k & Hp). unfold bound.
    pose proof (proj1 (list_max_le (flat_map (fun th => match th_prog th with
      | Acquire _ l _ => [lock_rank l] | _ => [] end) (c_threads c)) _) (le_n _)) as Hle.
    rewrite List.Forall_forall in Hle. apply Hle, in_flat_map. exists th. split.
    - apply list_elem_of_In. by eapply list_elem_of_lookup_2.
    - rewrite Hp. by left. }
  assert (forall n i th l, bound - lock_rank l <= n -> c_threads c !! i = Some th -> ~ waits th l) as Hnone.
  { intros n. induction n as [|n IH]; intros i th l Hle Hi Hw.
    all: destruct (stuck_waits c i th Hok Hi (Hstuck i th Hi)) as [Hend|(l1 & Hw1 & j & thj & m & Hj & Hin)];
      [destruct Hw as (m' & k & Hp); unfold ended in Hend; congruence|].
    all: assert (l1 = l) as -> by (destruct Hw as (? & ? & Hp), Hw1 as (? & ? & Hp1); congruence).
    all: destruct (stuck_waits c j thj Hok Hj (Hstuck j thj Hj)) as [Hend|(l2 & Hw2 & _)];
      [pose proof (ok_safe _ Hok _ _ Hj) as Hs; unfold ended in Hend; rewrite Hend in Hs;
       simpl in Hs; unfold no_locks in Hs; rewrite Hs in Hin; by apply not_elem_of_nil in Hin|].
    all: pose proof (waits_above c j thj l2 l m Hok Hj Hw2 Hin) as Hlt;
      pose proof (Hbound j thj l2 Hj Hw2) as Hb.
    - lia.
    - apply (IH j thj l2); [lia|done|done]. }
  intros i th Hi. destruct (stuck_waits c i th Hok Hi (Hstuck i th Hi)) as [|(l & Hw & _)]; [done|].
  by destruct (Hnone _ i th l (le_n _) Hi).
Qed.

(** A single thread comes to the end of a part of its program. *)
Lemma alone_returns {A} held s (p : prog L S A) Q (k : A -> prog L S unit) :
  (forall l s', lock_inv l s') -> always s -> safe held s p Q ->
  exists n a h s', conc_run (replicate n 0) (mkConfig s [mkThr held (p ≫= k)]) = Some (mkConfig s' [mkThr h (k a)]) /\
    always s' /\ growth s s' /\ Q a h s'.
Proof.
  intros Hl. revert held s. induction p as [a|m l p IH|l p IH|B m p IH]; intros held s Hs Hp.
  - by exists 0, a, held, s.
  - destruct Hp as [Ha Hp]. destruct (IH ((l, m) :: held) s Hs) as (n & a & h & s' & Hn & H'); [by apply Hp|].
    exists (Datatypes.S n), a, h, s'. split; [|exact H']. rewrite <- Hn. cbn. unfold conc_step. simpl.
    assert (can_take m l [mkThr held (Acquire m l (prog_bind k p))] = true) as ->; [|done].
    unfold can_take, holds, holds_alone. pose proof (above_not_in _ _ Ha) as Hno.
    destruct m; simpl; rewrite andb_true_r; apply negb_true_iff, bool_decide_eq_false; simpl; [apply Hno|].
    intros [?|?]; by eapply Hno.
  - simpl in Hp. destruct held as [|[l' m] held]; [done|]. simpl in Hp. destruct Hp as [-> Hp].
    destruct (Hp s (reflexivity _) Hs) as [_ Hk].
    destruct (IH held s Hs Hk) as (n & a & h & s' & Hn & H').
    exists (Datatypes.S n), a, h, s'. split; [|exact H']. rewrite <- Hn. cbn. unfold conc_step. simpl.
    by rewrite decide_True.
  - destruct (Hp s (reflexivity _) Hs) as (b & s2 & Hm & Hs2 & [Hg _] & Hk).
    destruct (IH b held s2 Hs2 Hk) as (n & a & h & s' & Hn & Ha & Hg' & HQ).
    exists (Datatypes.S n), a, h, s'. split; [|repeat split; [done|by etransitivity|done]].
    rewrite <- Hn. cbn. unfold conc_step. simpl. by rewrite Hm.
Qed.

(** The three together. *)
Lemma safe_programs_run s ps c :
  always s -> (forall l, lock_inv l s) -> Forall (safe_program s) ps ->
  conc_reach (start_config s ps) c ->
  conc_ok c /\ (forall i, ~ goes_wrong i c) /\
  ((forall i th, c_threads c !! i = Some th -> ended th) \/ exists i c', conc_step i c = Some c').
Proof.
  intros Hs Hl Hps Hr. assert (conc_ok c) as Hok by (by eapply reach_ok, Hr; apply start_ok).
  split; [done|]. split; [intros i; by apply ok_not_wrong|by apply progress].
Qed.

(** When all have ended every lock's invariant holds. *)
Lemma all_ended_inv c l :
  conc_ok c -> (forall i th, c_threads c !! i = Some th -> ended th) -> lock_inv l (c_state c).
Proof.
  intros Hok Hend. apply (ok_free _ Hok). intros i th Hi.
  pose proof (ok_safe _ Hok _ _ Hi) as Hs. specialize (Hend i th Hi). unfold ended in Hend.
  rewrite Hend in Hs. simpl in Hs. unfold no_locks in Hs. rewrite Hs. apply not_elem_of_nil.
Qed.
End Logic.
