(* ===== verification/ConcSum.v ===== *)
(** * Two components with locks, one calling the other

    A program of Conc.v over the locks and the state of one component runs as well in
    a program that has another component besides ([left_p], [right_p]).  When the locks
    of the first component all come before those of the second, the protocols of the two
    make one, and what is safe for a component is safe for both: the second may be
    called with locks of the first in hand, and leaves alone what they protect. *)
From stdpp Require Import base list.
From S2P Require Import Prelude Conc.

(** ** Programs of a component *)

(** The program with its locks renamed and its accesses moved to another state. *)
Fixpoint embed {L1 S1 L S A} (f : L1 -> L) (on : forall B, M S1 B -> M S B) (p : prog L1 S1 A) : prog L S A :=
  match p with
  | Done a => Done a
  | Acquire m l k => Acquire m (f l) (embed f on k)
  | Release l k => Release (f l) (embed f on k)
  | Act m k => Act (on _ m) (fun b => embed f on (k b))
  end.

Definition on_left {S1 S2} (B : Type) (m : M S1 B) : M (S1 * S2) B := fun '(s1, s2) =>
  let '(r, s1') := m s1 in (r, (s1', s2)).
Definition on_right {S1 S2} (B : Type) (m : M S2 B) : M (S1 * S2) B := fun '(s1, s2) =>
  let '(r, s2') := m s2 in (r, (s1, s2')).

Section Sum.
Context {L1 L2 S1 S2 : Type}.
Local Abbreviation lock := (L1 + L2)%type.
Local Abbreviation state := (S1 * S2)%type.

Definition left_p {A} (p : prog L1 S1 A) : prog lock state A := embed inl on_left p.
Definition right_p {A} (p : prog L2 S2 A) : prog lock state A := embed inr on_right p.

(** ** The protocol of both *)
Context `{P1 : Protocol L1 S1} `{P2 : Protocol L2 S2}.
Context (bound : nat) (Hbound : forall l : L1, lock_rank l < bound).

Definition sum_rank (l : lock) : nat :=
  match l with inl l1 => lock_rank l1 | inr l2 => bound + lock_rank l2 end.
Definition sum_growth (s s' : state) : Prop := growth (fst s) (fst s') /\ growth (snd s) (snd s').
Definition sum_untouched (l : lock) (s s' : state) : Prop :=
  match l with inl l1 => untouched l1 (fst s) (fst s') | inr l2 => untouched l2 (snd s) (snd s') end.
Definition sum_inv (l : lock) (s : state) : Prop :=
  match l with inl l1 => lock_inv l1 (fst s) | inr l2 => lock_inv l2 (snd s) end.

#[local] Instance sum_growth_preorder : PreOrder sum_growth.
Proof.
  split; [by intros s; split|]. intros s1 s2 s3 [H1 H2] [H3 H4]. split; by etransitivity.
Qed.

#[local] Instance sum_untouched_preorder l : PreOrder (sum_untouched l).
Proof.
  destruct l as [l|l]; (split; [by intros s; simpl|]); intros s1 s2 s3 H1 H2; simpl in *; by etransitivity.
Qed.

Lemma sum_inv_untouched l s s' : sum_growth s s' -> sum_untouched l s s' -> sum_inv l s -> sum_inv l s'.
Proof. intros [H1 H2]. destruct l as [l|l]; simpl; by apply lock_inv_untouched. Qed.

Definition sum_protocol : Protocol lock state := {|
  lock_rank := sum_rank;
  always s := always (fst s) /\ always (snd s);
  growth := sum_growth;
  untouched := sum_untouched;
  lock_inv := sum_inv;
  growth_preorder := sum_growth_preorder;
  untouched_preorder := sum_untouched_preorder;
  lock_inv_untouched := sum_inv_untouched
|}.
#[local] Existing Instance sum_protocol.

(** The locks of the two components in a thread's hands: those of the second were
    taken after those of the first. *)
Definition lefts (held : list (L1 * mode)) : list (lock * mode) := (fun h => (inl h.1, h.2)) <$> held.
Definition rights (held : list (L2 * mode)) : list (lock * mode) := (fun h => (inr h.1, h.2)) <$> held.

Lemma elem_of_lefts l m held : ((inl l, m) ∈ lefts held) <-> ((l, m) ∈ held).
Proof.
  unfold lefts. rewrite list_elem_of_fmap. split; [|intros H; by exists (l, m)].
  intros ([l' m'] & [= -> ->] & H). done.
Qed.

Lemma elem_of_rights l m held : ((inr l, m) ∈ rights held) <-> ((l, m) ∈ held).
Proof.
  unfold rights. rewrite list_elem_of_fmap. split; [|intros H; by exists (l, m)].
  intros ([l' m'] & [= -> ->] & H). done.
Qed.

Lemma left_not_right l m held : (inl l, m) ∉ rights held.
Proof. unfold rights. rewrite list_elem_of_fmap. by intros ([l' m'] & [= ] & _). Qed.

Lemma right_not_left l m held : (inr l, m) ∉ lefts held.
Proof. unfold lefts. rewrite list_elem_of_fmap. by intros ([l' m'] & [= ] & _). Qed.

Lemma rely_left held2 held1 s s' :
  rely (rights held2 ++ lefts held1) s s' -> rely held1 (fst s) (fst s').
Proof.
  intros [[Hg _] Hu]. split; [exact Hg|]. intros [l m] Hin. apply (Hu (inl l, m)).
  apply elem_of_app. right. by apply elem_of_lefts.
Qed.

Lemma rely_right held2 held1 s s' :
  rely (rights held2 ++ lefts held1) s s' -> rely held2 (snd s) (snd s').
Proof.
  intros [[_ Hg] Hu]. split; [exact Hg|]. intros [l m] Hin. apply (Hu (inr l, m)).
  apply elem_of_app. left. by apply elem_of_rights.
Qed.

Lemma above_left l held : above l held -> above (inl l) (lefts held).
Proof. unfold above, lefts. intros Ha. apply Forall_fmap. eapply Forall_impl; [exact Ha|]. by intros [l' m]. Qed.

Lemma above_right l held2 held1 : above l held2 -> above (inr l) (rights held2 ++ lefts held1).
Proof using Hbound.
  unfold above, lefts, rights. intros Ha. apply Forall_app. split.
  - apply Forall_fmap. eapply Forall_impl; [exact Ha|]. intros [l' m]. simpl. lia.
  - apply Forall_fmap, Forall_forall. intros [l' m] _. simpl. specialize (Hbound l'). lia.
Qed.

(** ** What is safe for one is safe for both *)

Lemma left_safe {A} held s1 s2 (p : prog L1 S1 A) Q :
  safe held s1 p Q ->
  safe (lefts held) (s1, s2) (left_p p) (fun a h s' => exists h1, h = lefts h1 /\ Q a h1 (fst s')).
Proof.
  revert held s1 s2. induction p as [a|m l k IH|l k IH|B m k IH]; intros held s1 s2; simpl.
  - intros HQ. by exists held.
  - intros [Ha Hk]. split; [by apply above_left|]. intros [s1' s2'] Hr [Hs _] Hi.
    apply (IH ((l, m) :: held)), Hk; [|done|done]. exact (rely_left [] held _ _ Hr).
  - destruct held as [|h held]; [done|]. intros [Hl Hk]. simpl. split; [by rewrite Hl|].
    intros [s1' s2'] Hr [Hs _]. destruct (Hk s1') as [Hi Hp]; [exact (rely_left [] (h :: held) _ _ Hr)|done|].
    split; [done|by apply IH].
  - intros Hm [s1' s2'] Hr [Hs Hs2]. destruct (Hm s1') as (b & t1 & Hb & Ht1 & [Hg Hu] & Hp);
      [exact (rely_left [] held _ _ Hr)|done|].
    exists b, (t1, s2'). split; [unfold on_left; by rewrite Hb|]. split; [done|]. split; [|by apply IH].
    split; [by split|]. intros [l|l] Hl; simpl; [|done]. apply Hu. intros Hin. apply Hl. by apply elem_of_lefts.
Qed.

Lemma right_safe {A} held2 held1 s1 t1 s2 (p : prog L2 S2 A) Q :
  rely held1 s1 t1 -> safe held2 s2 p Q ->
  safe (rights held2 ++ lefts held1) (t1, s2) (right_p p)
    (fun a h s' => exists h2, h = rights h2 ++ lefts held1 /\ Q a h2 (snd s') /\ rely held1 s1 (fst s')).
Proof using Hbound.
  revert held2 t1 s2.
  induction p as [a|m l k IH|l k IH|B m k IH]; intros held2 t1 s2 Ht; simpl.
  - intros HQ. by exists held2.
  - intros [Ha Hk]. split; [by apply above_right|]. intros [t1' s2'] Hr [_ Hs] Hi.
    apply (IH ((l, m) :: held2)); [|apply Hk; [exact (rely_right _ _ _ _ Hr)|done|done]].
    etransitivity; [exact Ht|exact (rely_left _ _ _ _ Hr)].
  - destruct held2 as [|h held2]; [done|]. intros [Hl Hk]. simpl. split; [by rewrite Hl|].
    intros [t1' s2'] Hr [_ Hs]. change ((inr h.1, h.2) :: rights held2 ++ lefts held1)
      with (rights (h :: held2) ++ lefts held1) in Hr.
    destruct (Hk s2') as [Hi Hp]; [exact (rely_right _ _ _ _ Hr)|done|].
    split; [done|]. apply IH; [|done]. etransitivity; [exact Ht|exact (rely_left _ _ _ _ Hr)].
  - intros Hm [t1' s2'] Hr [Hs1 Hs]. destruct (Hm s2') as (b & t2 & Hb & Ht2 & [Hg Hu] & Hp);
      [exact (rely_right _ _ _ _ Hr)|done|].
    exists b, (t1', t2). split; [unfold on_right; by rewrite Hb|]. split; [done|]. split.
    + split; [by split|]. intros [l|l] Hl; simpl; [done|]. apply Hu. intros Hin. apply Hl.
      apply elem_of_app. left. by apply elem_of_rights.
    + apply IH; [|done]. etransitivity; [exact Ht|exact (rely_left _ _ _ _ Hr)].
Qed.

(** *** As parts of programs *)

Lemma left_part {A} held s (p : prog L1 S1 A) P :
  safe held (fst s) p (keeps_locks held P) ->
  safe (lefts held) s (left_p p) (keeps_locks (lefts held) (fun a s' => P a (fst s'))).
Proof.
  destruct s as [s1 s2]. intros Hp. eapply safe_weaken; [by apply (left_safe held s1 s2)|].
  by intros a h s' (h1 & -> & [-> HP]).
Qed.

(** A call of the second component, with locks of the first in hand. *)
Lemma right_part {A} held s (p : prog L2 S2 A) P :
  safe [] (snd s) p (keeps_locks [] P) ->
  safe (lefts held) s (right_p p)
    (keeps_locks (lefts held) (fun a s' => P a (snd s') /\ rely held (fst s) (fst s'))).
Proof using Hbound.
  destruct s as [s1 s2]. intros Hp. eapply safe_weaken; [by apply (right_safe [] held s1 s1 s2)|].
  by intros a h s' (h2 & -> & [-> HP] & Hr).
Qed.
End Sum.
