(* ===== verification/LogConc.v ===== *)
(** * Loggers used by several threads (log.h, log.cc)

    The operations of Log.v with the locks they take: every logger, appender and
    the manager has a spin lock of its own, and each operation is a program of
    Conc.v whose guards are the code's guards and whose accesses are single reads and
    writes of members.  The text of an event is sent to the stream item by item, as
    [LogFormatter::format] does.  Every access to a member is one atomic step; where
    the code reads or writes a member without a lock that other threads write
    ([m_level], [m_lastTime], the file stream's [is_open]), C++ calls that a data race,
    and the model stands for an implementation that makes such accesses atomic. *)
From stdpp Require Import base gmap list strings.
From Stdlib Require Import Ascii.
From S2P Require Import Prelude Util Env Config LogFormatter Log LogConfig Conc.

(** The locks, the [m_mutex] of the three classes. *)
Inductive lock : Type := LManager | LLogger (p : nat) | LAppender (ap : nat).

#[export] Instance lock_eq_dec : EqDecision lock.
Proof. solve_decision. Defined.

Section Programs.
Context {D : Type} `{Posix D} `{FileSink D} `{Yaml}.
Context (strftime_local : str -> Z -> option str).

(** What the threads share: the objects and the manager. *)
Local Abbreviation shared := (log_world D * LoggerManager)%type.
Local Abbreviation lprog := (prog lock shared).

(** An operation on the objects, in the shared state. *)
Definition on_log {A} (m : M (log_world D) A) : M shared A := fun '(w, mgr) =>
  let '(r, w') := m w in (r, (w', mgr)).
Definition log_act {A} (m : M (log_world D) A) : lprog A := act (on_log m).

(** Reading and writing one member of an object. *)
Definition read_logger {A} (p : nat) (f : Logger -> A) : lprog A :=
  log_act (l ← get_logger p; mret (f l)).
Definition write_logger (p : nat) (f : Logger -> Logger) : lprog unit :=
  log_act (l ← get_logger p; modify (set_logger p (f l))).
Definition read_appender {A} (ap : nat) (f : LogAppender -> A) : lprog A :=
  log_act (a ← get_appender ap; mret (f a)).
Definition write_appender (ap : nat) (f : LogAppender -> LogAppender) : lprog unit :=
  log_act (a ← get_appender ap; modify (set_appender ap (f a))).

Definition with_level (v : Level) (l : Logger) : Logger :=
  mkLogger (m_name l) v (m_appenders l) (m_formatter l) (m_root l).
Definition with_logger_formatter (f : option LogFormatter) (l : Logger) : Logger :=
  mkLogger (m_name l) (m_level l) (m_appenders l) f (m_root l).
Definition with_root (r : option nat) (l : Logger) : Logger :=
  mkLogger (m_name l) (m_level l) (m_appenders l) (m_formatter l) r.
Definition with_list (aps : list nat) (l : Logger) : Logger :=
  mkLogger (m_name l) (m_level l) aps (m_formatter l) (m_root l).
Definition with_ap_level (v : Level) (a : LogAppender) : LogAppender :=
  mkAppender (ap_kind a) v (ap_formatter a) (ap_hasFormatter a).
Definition with_ap_formatter (f : option LogFormatter) (a : LogAppender) : LogAppender :=
  mkAppender (ap_kind a) (ap_level a) f (ap_hasFormatter a).
Definition with_has (b : bool) (a : LogAppender) : LogAppender :=
  mkAppender (ap_kind a) (ap_level a) (ap_formatter a) b.

(** ** Appenders *)
Definition appender_setLevel_p (ap : nat) (v : Level) : lprog unit :=
  write_appender ap (with_ap_level v).

Definition appender_setFormatter_p (ap : nat) (f : option LogFormatter) : lprog unit :=
  guarded Exclusive (LAppender ap)
    (write_appender ap (with_ap_formatter f);;
     write_appender ap (with_has (match f with Some _ => true | None => false end))).

Definition appender_getFormatter_p (ap : nat) : lprog (option LogFormatter) :=
  guarded Exclusive (LAppender ap) (read_appender ap ap_formatter).

Definition is_nul_formatter (f : option LogFormatter) : bool :=
  match f with Some _ => false | None => true end.

(** The loop of [LogFormatter::format], one item at a time. *)
Fixpoint write_items (out : str -> lprog unit) (name : str) (level : Level) (event : LogEvent)
    (items : list FormatItem) : lprog unit :=
  match items with
  | [] => mret tt
  | it :: rest =>
      t ← act (lift_res (item_format strftime_local name level event it));
      out t;;
      write_items out name level event rest
  end.

(** [m_formatter->format(stream, logger, level, event)]. *)
Definition format_p (ap : nat) (out : str -> lprog unit) (name : str) (level : Level)
    (event : LogEvent) : lprog unit :=
  f ← read_appender ap ap_formatter;
  match f with
  | None => act (ub $"null formatter")
  | Some fm => write_items out name level event (m_items fm)
  end.

(** [FileLogAppender::reopen]. *)
Definition reopen_p (ap : nat) (filename : str) : lprog bool :=
  guarded Exclusive (LAppender ap)
    (ofs ← read_appender ap stream_of;
     (if negb (os_fail ofs) then log_act (on_stream ap stream_close) else mret tt);;
     log_act (on_stream ap (OpenForWrite filename))).

(** [StdoutLogAppender::log], when the level is high enough. *)
Definition stdout_log_p (ap : nat) (name : str) (level : Level) (event : LogEvent) : lprog unit :=
  guarded Exclusive (LAppender ap) (format_p ap (fun t => log_act (print t)) name level event).

(** [FileLogAppender::log], when the level is high enough. *)
Definition file_log_p (ap : nat) (filename : str) (lastTime : Z) (name : str) (level : Level)
    (event : LogEvent) : lprog unit :=
  let now := ev_time event in
  (if Z.leb (u64 (lastTime + 3)) now then
     reopen_p ap filename;;
     log_act (set_lastTime ap now)
   else mret tt);;
  ofs ← read_appender ap stream_of;
  (if is_open ofs then mret tt else log_act (print ($"File stream is not open." ++ nl)));;
  guarded Exclusive (LAppender ap)
    (format_p ap (fun t => log_act (on_stream ap (stream_write t))) name level event;;
     ofs ← read_appender ap stream_of;
     if os_fail ofs then log_act (print ($"log to file error " ++ nl)) else mret tt).

(** The call [i->log(...)] of an appender. *)
Definition appender_log_p (ap : nat) (name : str) (level : Level) (event : LogEvent) : lprog unit :=
  lv ← read_appender ap ap_level;
  if level_geb level lv then
    kind ← read_appender ap ap_kind;
    match kind with
    | StdoutLogAppender => stdout_log_p ap name level event
    | FileLogAppender filename _ lastTime => file_log_p ap filename lastTime name level event
    end
  else mret tt.

Definition appender_toYamlString_p (ap : nat) : lprog str :=
  guarded Exclusive (LAppender ap) (read_appender ap appender_toYamlString).

Definition new_FileLogAppender_p (filename : str) : lprog nat :=
  ap ← log_act (alloc_appender (mkAppender (FileLogAppender filename (mkOfstream None false) 0) DEBUG None false));
  reopen_p ap filename;;
  mret ap.

(** ** Loggers *)
Definition setLevel_p (p : nat) (v : Level) : lprog unit := write_logger p (with_level v).

(** The loop of [setFormatter]; the logger's own lock is held. *)
Fixpoint inherit_p (p : nat) (aps : list nat) : lprog unit :=
  match aps with
  | [] => mret tt
  | ap :: aps' =>
      guarded Exclusive (LAppender ap)
        (has ← read_appender ap ap_hasFormatter;
         if (has : bool) then mret tt
         else f ← read_logger p m_formatter; write_appender ap (with_ap_formatter f));;
      inherit_p p aps'
  end.

Definition setFormatter_p (p : nat) (val : option LogFormatter) : lprog unit :=
  guarded Exclusive (LLogger p)
    (write_logger p (with_logger_formatter val);;
     aps ← read_logger p m_appenders;
     inherit_p p aps).

Definition setFormatter_pattern_p (p : nat) (val : str) : lprog unit :=
  log_act (print ($"---" ++ val ++ nl));;
  f ← log_act (make_formatter val);
  if m_error f then
    name ← read_logger p m_name;
    log_act (print ($"Logger name = " ++ name ++ $" set Formatter, " ++ $"value = " ++ val ++
                    $" is invalid formatter" ++ nl))
  else setFormatter_p p (Some f).

Definition addAppender_p (p ap : nat) : lprog unit :=
  guarded Exclusive (LLogger p)
    (f ← appender_getFormatter_p ap;
     (if is_nul_formatter f then
        fm ← read_logger p m_formatter;
        appender_setFormatter_p ap fm
      else mret tt);;
     write_logger p (fun l => with_list (m_appenders l ++ [ap]) l)).

Definition delAppender_p (p ap : nat) : lprog unit :=
  guarded Exclusive (LLogger p)
    (write_logger p (fun l => with_list (erase_first ap (m_appenders l)) l)).

Definition clearAppenders_p (p : nat) : lprog unit :=
  guarded Exclusive (LLogger p) (write_logger p (with_list [])).

Fixpoint log_all_p (aps : list nat) (name : str) (level : Level) (event : LogEvent) : lprog unit :=
  match aps with
  | [] => mret tt
  | ap :: aps' => appender_log_p ap name level event;; log_all_p aps' name level event
  end.

(** [Logger::log]: the root's [log] is called with the lock held. *)
Fixpoint logger_log_p (fuel : nat) (p : nat) (level : Level) (event : LogEvent) : lprog unit :=
  lv ← read_logger p m_level;
  if level_geb level lv then
    guarded Exclusive (LLogger p)
      (aps ← read_logger p m_appenders;
       match aps with
       | [] =>
           r ← read_logger p m_root;
           match r with
           | Some r =>
               match fuel with
               | O => act (ub $"out of fuel")
               | S fuel' => logger_log_p fuel' r level event
               end
           | None => mret tt
           end
       | _ => name ← read_logger p m_name; log_all_p aps name level event
       end)
  else mret tt.

Definition log_macro_p (fuel : nat) (site : log_site) (p : nat) (level : Level) (text : str) : lprog unit :=
  lv ← read_logger p m_level;
  if level_geb level lv then logger_log_p fuel p level (site_event site p level text) else mret tt.

Fixpoint map_p {A B} (f : A -> lprog B) (xs : list A) : lprog (list B) :=
  match xs with
  | [] => mret []
  | x :: xs' => y ← f x; ys ← map_p f xs'; mret (y :: ys)
  end.

Definition load_p (text : str) : lprog node := act (lift_res (yaml_load text)).

Definition logger_toYamlString_p (p : nat) : lprog str :=
  guarded Exclusive (LLogger p)
    (l ← read_logger p (fun l => l);
     ns ← map_p (fun ap => t ← appender_toYamlString_p ap; load_p t) (m_appenders l);
     let ms := set_key $"name" (m_name l) [] in
     let ms := set_opt (level_text (m_level l)) $"level" ms in
     let ms := set_opt (m_pattern <$> m_formatter l) $"formatter" ms in
     mret (yaml_emit (Map (if is_nil ns then ms else node_set $"appenders" (Sequence ns) ms)))).

(** ** The manager *)
Definition applyDefaultConfig_p (p : nat) : lprog unit :=
  out ← log_act new_StdoutLogAppender;
  addAppender_p p out;;
  name ← read_logger p m_name;
  file ← new_FileLogAppender_p ($"log/" ++ name ++ $".txt");
  addAppender_p p file.

Definition read_manager {A} (f : LoggerManager -> A) : lprog A :=
  act (fun s => (Ret (f (snd s)), s)).
Definition insert_logger (name : str) (p : nat) : lprog unit :=
  act (fun s => (Ret tt, (fst s, mkManager (<[name := p]> (m_loggers (snd s))) (mgr_root (snd s))))).

Definition getLogger_p (name : str) : lprog nat :=
  guarded Exclusive LManager
    (found ← read_manager (fun mgr => m_loggers mgr !! name);
     match found with
     | Some p => mret p
     | None =>
         f ← log_act (make_formatter default_pattern);
         p ← log_act (alloc_logger (mkLogger name DEBUG [] (Some f) None));
         applyDefaultConfig_p p;;
         root ← read_manager mgr_root;
         write_logger p (with_root (Some root));;
         insert_logger name p;;
         mret p
     end).

Definition manager_toYamlString_p : lprog str :=
  guarded Exclusive LManager
    (es ← read_manager (fun mgr => by_name (m_loggers mgr));
     ns ← map_p (fun e => t ← logger_toYamlString_p e.2; load_p t) es;
     mret (yaml_emit (if is_nil ns then Null else Sequence ns))).

(** ** The listener of "logs" *)

(** The parts of [LogIniter]'s listener, as in LogConfig.v; none of them takes a lock
    besides those of the operations it calls. *)
Definition configure_appender_p (i : LogDefine) (logger : nat) (a : LogAppenderDefine) (ap : nat) : lprog unit :=
  appender_setLevel_p ap (lad_level a);;
  (match lad_formatter a with
   | [] => mret tt
   | _ =>
       fmt ← log_act (make_formatter (lad_formatter a));
       if m_error fmt then log_act (print (invalid_formatter_text i a))
       else appender_setFormatter_p ap (Some fmt)
   end);;
  addAppender_p logger ap.

Fixpoint apply_appenders_p (daemon : bool) (i : LogDefine) (logger : nat)
    (appenders : list LogAppenderDefine) : lprog unit :=
  match appenders with
  | [] => mret tt
  | a :: rest =>
      (if Z.eqb (lad_type a) 1 then
         ap ← new_FileLogAppender_p (lad_file a);
         configure_appender_p i logger a ap
       else if Z.eqb (lad_type a) 2 then
         if daemon then mret tt
         else
           ap ← log_act new_StdoutLogAppender;
           configure_appender_p i logger a ap
       else act (ub $"null appender"));;
      apply_appenders_p daemon i logger rest
  end.

Definition apply_define_p (daemon : bool) (i : LogDefine) : lprog unit :=
  logger ← getLogger_p (ld_name i);
  setLevel_p logger (ld_level i);;
  (match ld_formatter i with
   | [] => mret tt
   | _ => setFormatter_pattern_p logger (ld_formatter i)
   end);;
  clearAppenders_p logger;;
  apply_appenders_p daemon i logger (ld_appenders i).

Fixpoint apply_new_p (daemon : bool) (old_value new_value : list LogDefine) : lprog unit :=
  match new_value with
  | [] => mret tt
  | i :: rest =>
      (if changed i old_value then apply_define_p daemon i else mret tt);;
      apply_new_p daemon old_value rest
  end.

Fixpoint remove_old_p (new_value old_value : list LogDefine) : lprog unit :=
  match old_value with
  | [] => mret tt
  | i :: rest =>
      match find_define i new_value with
      | Some _ => mret tt
      | None =>
          logger ← getLogger_p (ld_name i);
          setLevel_p logger UNKNOW;;
          clearAppenders_p logger
      end;;
      remove_old_p new_value rest
  end.

Definition on_logger_conf_changed_p (env : Env) (site : log_site) (old_value new_value : list LogDefine)
    : lprog unit :=
  root ← read_manager mgr_root;
  log_macro_p root site root INFO $"on_logger_conf_changed";;
  apply_new_p (has $"d" env) old_value new_value;;
  remove_old_p new_value old_value.

(** ** Threads *)

(** What the threads of a program call: the operations of Log.v, logging to a logger
    found by its name ([LIONET_LOG_NAME]), the two [toYamlString]s, and the listener
    of "logs", called by a thread that sets the variable. *)
Inductive conc_op : Type :=
| OpBasic (o : log_op)
| OpLogName (name : str) (site : log_site) (level : Level) (text : str)
| OpLoggerYaml (p : nat)
| OpManagerYaml
| OpConfChanged (env : Env) (site : log_site) (old_value new_value : list LogDefine).

Definition ignored {A} (p : lprog A) : lprog unit := p;; mret tt.

(** [appender->reopen()], a method of file appenders only; their file is fixed. *)
Definition appender_reopen_p (ap : nat) : lprog unit :=
  kind ← read_appender ap ap_kind;
  match kind with
  | FileLogAppender filename _ _ => ignored (reopen_p ap filename)
  | StdoutLogAppender => log_act (ub $"no file appender")
  end.

Definition basic_prog (o : log_op) : lprog unit :=
  match o with
  | OpGetLogger name => ignored (getLogger_p name)
  | OpSetLevel p level => setLevel_p p level
  | OpSetFormatter p f => setFormatter_p p (Some f)
  | OpSetPattern p pattern => setFormatter_pattern_p p pattern
  | OpAddAppender p ap => addAppender_p p ap
  | OpDelAppender p ap => delAppender_p p ap
  | OpClearAppenders p => clearAppenders_p p
  | OpNewStdout => ignored (log_act new_StdoutLogAppender)
  | OpNewFile filename => ignored (new_FileLogAppender_p filename)
  | OpAppenderLevel ap level => appender_setLevel_p ap level
  | OpAppenderFormatter ap f => appender_setFormatter_p ap f
  | OpReopen ap => appender_reopen_p ap
  | OpLog site p level text => log_macro_p p site p level text
  | OpLogEvent p level event => logger_log_p p p level event
  end.

Definition op_prog (o : conc_op) : lprog unit :=
  match o with
  | OpBasic o => basic_prog o
  | OpLogName name site level text =>
      p ← getLogger_p name; log_macro_p p site p level text
  | OpLoggerYaml p => ignored (logger_toYamlString_p p)
  | OpManagerYaml => ignored manager_toYamlString_p
  | OpConfChanged env site old_value new_value => on_logger_conf_changed_p env site old_value new_value
  end.

(** A thread: its calls, one after the other. *)
Fixpoint calls (os : list conc_op) : lprog unit :=
  match os with [] => mret tt | o :: os' => op_prog o;; calls os' end.
End Programs.
