(* ===== verification/LogProtocol.v ===== *)
(** * The locks of the loggers (log.h, log.cc)

    The protocol of the logging module: the manager's lock comes before the loggers',
    an ordinary logger's before the root's, and all of these before the appenders';
    a logger's lock protects its list of appenders and its formatter, an appender's
    lock its formatter and its stream.  Every operation of LogConc.v obeys it,
    whatever the other threads do. *)
From stdpp Require Import base gmap list strings sorting.
From Stdlib Require Import Ascii.
From S2P Require Import Prelude Util Env Config LogFormatter Log LogConfig Conc LogConc.

Section Protocol.
Context {D : Type} `{HP : Posix D} `{HF : FileSink D} `{HL : !SinkLaws D}.
Context (strftime_local : str -> Z -> option str) `{SL : !StrftimeLaws strftime_local}.
Local Abbreviation fits := (formatter_fits strftime_local).

(** The root logger. *)
Context (root : nat).

(** A file appender that is watched, its file and the text the file began with; and
    the texts that may be added to it. *)
Context (watched : option (nat * str * str)) (record : str -> Prop).

Local Abbreviation shared := (log_world D * LoggerManager)%type.
Implicit Types s : shared.

Definition loggers_of s : gmap nat Logger := lw_loggers (fst s).
Definition appenders_of s : gmap nat LogAppender := lw_appenders (fst s).

(** ** What always holds *)

(** The dates of an appender's formatter fit; a file appender's stream is on its file or
    closed; only the watched one writes to the watched file. *)
Definition appender_good (ap : nat) (a : LogAppender) : Prop :=
  (forall f, ap_formatter a = Some f -> fits f) /\
  match ap_kind a with
  | StdoutLogAppender => True
  | FileLogAppender fn ofs _ =>
      nul_free fn /\ (os_file ofs = None \/ os_file ofs = Some fn) /\
      forall ap0 g base, watched = Some (ap0, g, base) ->
        if decide (ap = ap0) then fn = g else sink_apart fn g
  end.

Definition logger_good s (p : nat) (l : Logger) : Prop :=
  (exists f, m_formatter l = Some f /\ fits f) /\
  (forall ap, ap ∈ m_appenders l -> exists a, appenders_of s !! ap = Some a /\ is_Some (ap_formatter a)) /\
  (forall r, m_root l = Some r -> r = root /\ r < p).

Record log_always s : Prop := mkLogAlways {
  la_fresh_appender : forall p, lw_next (fst s) <= p -> appenders_of s !! p = None;
  la_fresh_logger : forall p, lw_next (fst s) <= p -> loggers_of s !! p = None;
  la_appender : forall ap a, appenders_of s !! ap = Some a -> appender_good ap a;
  la_logger : forall p l, loggers_of s !! p = Some l -> logger_good s p l;
  la_names : forall name p, m_loggers (snd s) !! name = Some p -> is_Some (loggers_of s !! p);
  la_root : mgr_root (snd s) = root /\ is_Some (loggers_of s !! root);
  la_watched : forall ap0 g base, watched = Some (ap0, g, base) -> is_Some (appenders_of s !! ap0)
}.

(** ** How the objects may change *)

(** The same kind of appender, on the same file. *)
Definition same_kind (a b : LogAppender) : Prop :=
  match ap_kind a, ap_kind b with
  | StdoutLogAppender, StdoutLogAppender => True
  | FileLogAppender f _ _, FileLogAppender g _ _ => f = g
  | _, _ => False
  end.

#[local] Instance same_kind_preorder : PreOrder same_kind.
Proof.
  split; [intros [[] ? ? ?]; done|]. intros [k1 ? ? ?] [k2 ? ? ?] [k3 ? ? ?].
  unfold same_kind. simpl. destruct k1, k2, k3; try done. intros. congruence.
Qed.

Definition log_growth s s' : Prop :=
  (forall p l, loggers_of s !! p = Some l ->
     exists l', loggers_of s' !! p = Some l' /\ m_name l' = m_name l) /\
  (forall ap a, appenders_of s !! ap = Some a ->
     exists a', appenders_of s' !! ap = Some a' /\ same_kind a a' /\
       (is_Some (ap_formatter a) -> is_Some (ap_formatter a'))).

#[local] Instance log_growth_preorder : PreOrder log_growth.
Proof.
  split.
  - intros s. split; [eauto|]. intros ap a Ha. exists a. split; [done|]. split; [reflexivity|done].
  - intros s1 s2 s3 [H1 H2] [H3 H4]. split.
    + intros p l Hl. destruct (H1 p l Hl) as (l2 & Hl2 & <-). by apply H3.
    + intros ap a Ha. destruct (H2 ap a Ha) as (a2 & Ha2 & Hk2 & Hf2).
      destruct (H4 ap a2 Ha2) as (a3 & Ha3 & Hk3 & Hf3). exists a3. split; [done|].
      split; [by etransitivity|auto].
Qed.

(** What the locks protect. *)
Definition same_list (l l' : Logger) : Prop :=
  m_appenders l' = m_appenders l /\ m_formatter l' = m_formatter l.
Definition same_stream (a a' : LogAppender) : Prop :=
  ap_formatter a' = ap_formatter a /\ ap_hasFormatter a' = ap_hasFormatter a /\ stream_of a' = stream_of a.

(** The text of the watched file, when [ap] is the watched appender. *)
Definition watched_text (ap : nat) s : option str :=
  match watched with
  | Some (ap0, g, _) => if decide (ap = ap0) then Some (sink_text (lw_disk (fst s)) g) else None
  | None => None
  end.

Lemma watched_text_self ap0 g base s :
  watched = Some (ap0, g, base) -> watched_text ap0 s = Some (sink_text (lw_disk (fst s)) g).
Proof. intros Hw. unfold watched_text. rewrite Hw. by rewrite decide_True. Qed.

Definition log_untouched (k : lock) s s' : Prop :=
  match k with
  | LManager => m_loggers (snd s') = m_loggers (snd s)
  | LLogger p => forall l, loggers_of s !! p = Some l ->
      exists l', loggers_of s' !! p = Some l' /\ same_list l l'
  | LAppender ap => watched_text ap s' = watched_text ap s /\
      forall a, appenders_of s !! ap = Some a ->
        exists a', appenders_of s' !! ap = Some a' /\ same_stream a a'
  end.

#[local] Instance log_untouched_preorder k : PreOrder (log_untouched k).
Proof.
  destruct k; split; simpl.
  - done.
  - intros s1 s2 s3 H1 H2. simpl in *. congruence.
  - intros s l Hl. by exists l.
  - intros s1 s2 s3 H1 H2 l Hl. destruct (H1 l Hl) as (l2 & Hl2 & E1 & E2).
    destruct (H2 l2 Hl2) as (l3 & Hl3 & E3 & E4). exists l3. split; [done|]. split; congruence.
  - intros s. split; [done|]. intros a Ha. by exists a.
  - intros s1 s2 s3 [T1 H1] [T2 H2]. split; [congruence|]. intros a Ha.
    destruct (H1 a Ha) as (a2 & Ha2 & E1 & E2 & E3). destruct (H2 a2 Ha2) as (a3 & Ha3 & E4 & E5 & E6).
    exists a3. split; [done|]. repeat split; congruence.
Qed.

(** ** The text of the watched file *)

(** The watched appender's stream has failed while open: it will never write again. *)
Definition stuck (ap0 : nat) (g : str) s : Prop :=
  exists a, appenders_of s !! ap0 = Some a /\ stream_of a = mkOfstream (Some g) true.

(** The file holds what it began with, whole records, and at most a beginning of
    another one, where the stream broke. *)
Definition whole (ap0 : nat) (g base : str) s : Prop :=
  exists ts part, Forall record ts /\
    sink_text (lw_disk (fst s)) g = base ++ concat ts ++ part /\
    (part = [] \/ (exists rest, record (part ++ rest)) /\ stuck ap0 g s).

Definition log_lock_inv (k : lock) s : Prop :=
  match k with
  | LAppender ap => forall ap0 g base, watched = Some (ap0, g, base) -> ap = ap0 -> whole ap0 g base s
  | _ => True
  end.

Lemma log_lock_inv_untouched k s s' :
  log_growth s s' -> log_untouched k s s' -> log_lock_inv k s -> log_lock_inv k s'.
Proof.
  destruct k as [|p|ap]; simpl; [done..|]. intros _ [Ht Ha] Hw ap0 g base Hwat ->.
  destruct (Hw ap0 g base Hwat eq_refl) as (ts & part & Hts & Hs & Hp).
  rewrite !(watched_text_self _ _ _ _ Hwat) in Ht. apply (inj Some) in Ht.
  exists ts, part. split; [done|]. split; [by rewrite Ht|].
  destruct Hp as [?|[? (a & Hap & Hst)]]; [by left|right]. split; [done|].
  destruct (Ha a Hap) as (a' & Hap' & _ & _ & Hs'). exists a'. split; [done|]. by rewrite Hs'.
Qed.

(** ** The order of the locks *)
Definition log_rank (k : lock) : nat :=
  match k with
  | LManager => 0
  | LLogger p => if decide (p = root) then 2 else 1
  | LAppender _ => 3
  end.

#[local] Instance log_protocol : Protocol lock shared := {
  lock_rank := log_rank;
  always := log_always;
  growth := log_growth;
  untouched := log_untouched;
  lock_inv := log_lock_inv;
  lock_inv_untouched := log_lock_inv_untouched
}.
(** ** Facts that last *)
Definition has_logger (p : nat) s : Prop := is_Some (loggers_of s !! p).
Definition has_appender (ap : nat) s : Prop := is_Some (appenders_of s !! ap).
Definition has_formatter (ap : nat) s : Prop :=
  exists a, appenders_of s !! ap = Some a /\ is_Some (ap_formatter a).
Definition is_file (ap : nat) (fn : str) s : Prop :=
  exists ofs t lv f hf, appenders_of s !! ap = Some (mkAppender (FileLogAppender fn ofs t) lv f hf).

Lemma has_logger_grows p s s' : log_growth s s' -> has_logger p s -> has_logger p s'.
Proof. intros [Hg _] [l Hl]. destruct (Hg p l Hl) as (l' & Hl' & _). by exists l'. Qed.

(** A logger never changes its name. *)
Definition named (p : nat) (name : str) s : Prop := exists l, loggers_of s !! p = Some l /\ m_name l = name.

Lemma named_grows p name s s' : log_growth s s' -> named p name s -> named p name s'.
Proof. intros [Hg _] (l & Hl & <-). destruct (Hg p l Hl) as (l' & Hl' & <-). by exists l'. Qed.

Lemma named_has p name s : named p name s -> has_logger p s.
Proof. intros (l & Hl & _). by exists l. Qed.

Lemma has_appender_grows ap s s' : log_growth s s' -> has_appender ap s -> has_appender ap s'.
Proof. intros [_ Hg] [a Ha]. destruct (Hg ap a Ha) as (a' & Ha' & _). by exists a'. Qed.

Lemma has_formatter_grows ap s s' : log_growth s s' -> has_formatter ap s -> has_formatter ap s'.
Proof. intros [_ Hg] (a & Ha & Hf). destruct (Hg ap a Ha) as (a' & Ha' & _ & Hf'). exists a'. auto. Qed.

Lemma is_file_grows ap fn s s' : log_growth s s' -> is_file ap fn s -> is_file ap fn s'.
Proof.
  intros [_ Hg] (ofs & t & lv & f & hf & Ha). destruct (Hg ap _ Ha) as (a' & Ha' & Hk & _).
  destruct a' as [[|fn' ofs' t'] lv' f' hf']; unfold same_kind in Hk; simpl in Hk; [done|subst].
  by exists ofs', t', lv', f', hf'.
Qed.

Lemma is_file_has ap fn s : is_file ap fn s -> has_appender ap s.
Proof. intros (? & ? & ? & ? & ? & Ha). by eexists. Qed.

Lemma has_formatter_has ap s : has_formatter ap s -> has_appender ap s.
Proof. intros (a & Ha & _). by eexists. Qed.

(** ** Updates *)
Definition put_logger (p : nat) (l : Logger) s : shared := (set_logger p l (fst s), snd s).
Definition put_appender (ap : nat) (a : LogAppender) s : shared := (set_appender ap a (fst s), snd s).
Definition put_disk (d : D) s : shared := (set_disk d (fst s), snd s).

Lemma logger_good_grows p l s s' : log_growth s s' -> logger_good s p l -> logger_good s' p l.
Proof.
  intros Hg (Hf & Hap & Hr). split; [done|]. split; [|done]. intros ap Hin.
  exact (has_formatter_grows ap s s' Hg (Hap ap Hin)).
Qed.

Lemma put_logger_ok p l l' s :
  log_always s -> loggers_of s !! p = Some l -> logger_good s p l' -> m_name l' = m_name l ->
  log_always (put_logger p l' s) /\ log_growth s (put_logger p l' s).
Proof.
  intros [H1 H2 H3 H4 H5 [H6 H7] H8] Hl Hgood Hn.
  assert (forall q, is_Some (loggers_of s !! q) -> is_Some (<[p:=l']> (loggers_of s) !! q)) as Hdom.
  { intros q Hq. rewrite lookup_insert. by case_decide. }
  assert (log_growth s (put_logger p l' s)) as Hg.
  { split; [|intros ap a Ha; exists a; split; [done|]; split; [reflexivity|done]].
    intros q k Hk. unfold loggers_of in *. simpl. rewrite lookup_insert. case_decide; [|by exists k].
    subst. exists l'. split; [done|]. congruence. }
  split; [|done]. split; try done.
  - intros q Hq. unfold loggers_of in *. simpl. rewrite lookup_insert_ne; [by apply H2|].
    intros <-. by rewrite (H2 p Hq) in Hl.
  - intros q k. unfold loggers_of at 1. simpl. rewrite lookup_insert. case_decide.
    + intros [= <-]. subst. by eapply logger_good_grows.
    + intros Hk. eapply logger_good_grows; [exact Hg|by apply H4].
  - intros name q Hq. apply Hdom. by eapply H5.
  - split; [done|]. by apply Hdom.
Qed.

Lemma put_appender_ok ap a a' s :
  log_always s -> appenders_of s !! ap = Some a -> appender_good ap a' -> same_kind a a' ->
  (is_Some (ap_formatter a) -> is_Some (ap_formatter a')) ->
  log_always (put_appender ap a' s) /\ log_growth s (put_appender ap a' s).
Proof.
  intros [H1 H2 H3 H4 H5 H6 H8] Ha Hgood Hk Hf.
  assert (log_growth s (put_appender ap a' s)) as Hg.
  { split; [eauto|]. intros q b Hb. unfold appenders_of in *. simpl. rewrite lookup_insert.
    case_decide; [subst|exists b; split; [done|]; split; [reflexivity|done]].
    exists a'. split; [done|]. rewrite Ha in Hb. injection Hb as <-. done. }
  split; [|done]. split; try done.
  - intros q Hq. unfold appenders_of in *. simpl. rewrite lookup_insert_ne; [by apply H1|].
    intros <-. by rewrite (H1 ap Hq) in Ha.
  - intros q b. unfold appenders_of at 1. simpl. rewrite lookup_insert.
    case_decide; [intros [= <-]; by subst|apply H3].
  - intros q k Hl. eapply logger_good_grows; [exact Hg|by apply H4].
  - intros ap0 g base Hw. destruct (H8 ap0 g base Hw) as [b Hb]. destruct (proj2 Hg ap0 b Hb) as (b' & Hb' & _).
    by exists b'.
Qed.

Lemma put_disk_ok d s : log_always s -> log_always (put_disk d s) /\ log_growth s (put_disk d s).
Proof. intros [H1 H2 H3 H4 H5 H6 H8]. split; [by split|]. change (log_growth s s). reflexivity. Qed.

(** *** The accesses *)

Lemma safe_log_act {A} held s (m : M (log_world D) A) (Q : A -> list (lock * mode) -> shared -> Prop) :
  (forall s', rely held s s' -> log_always s' ->
     exists a w', m (fst s') = (Ret a, w') /\ log_always (w', snd s') /\
       guarantee held s' (w', snd s') /\ Q a held (w', snd s')) ->
  safe held s (log_act m) Q.
Proof.
  intros Hm. apply safe_act. intros s' Hr Hs. destruct (Hm s' Hr Hs) as (a & w' & E & ? & ? & ?).
  exists a, (w', snd s'). split; [|done]. destruct s' as [w mgr]. simpl in *. by rewrite E.
Qed.

Lemma safe_read_logger {A} held s p (f : Logger -> A) (Q : A -> list (lock * mode) -> shared -> Prop) :
  has_logger p s ->
  (forall l s', rely held s s' -> log_always s' -> loggers_of s' !! p = Some l -> Q (f l) held s') ->
  safe held s (read_logger p f) Q.
Proof.
  intros Hp HQ. apply safe_read. intros s' Hr Hs.
  destruct (has_logger_grows p s s' (proj1 Hr) Hp) as [l Hl]. exists (f l). split; [|by apply HQ].
  destruct s' as [w mgr]. unfold on_log, get_logger. unfold_M. simpl in *.
  unfold loggers_of in Hl. simpl in Hl. by rewrite Hl.
Qed.

Lemma safe_read_appender {A} held s ap (f : LogAppender -> A) (Q : A -> list (lock * mode) -> shared -> Prop) :
  has_appender ap s ->
  (forall a s', rely held s s' -> log_always s' -> appenders_of s' !! ap = Some a -> Q (f a) held s') ->
  safe held s (read_appender ap f) Q.
Proof.
  intros Hp HQ. apply safe_read. intros s' Hr Hs.
  destruct (has_appender_grows ap s s' (proj1 Hr) Hp) as [a Ha]. exists (f a). split; [|by apply HQ].
  destruct s' as [w mgr]. unfold on_log, get_appender. unfold_M. simpl in *.
  unfold appenders_of in Ha. simpl in Ha. by rewrite Ha.
Qed.

Lemma untouched_put_logger k p l l' s :
  loggers_of s !! p = Some l -> k <> LLogger p \/ same_list l l' -> log_untouched k s (put_logger p l' s).
Proof.
  intros Hl Hk. destruct k as [|q|ap]; simpl; [done| |split; [done|eauto]].
  - intros l0 Hl0. unfold loggers_of in *. simpl. rewrite lookup_insert.
    case_decide as Hq; [subst|by exists l0]. rewrite Hl in Hl0. injection Hl0 as <-. exists l'.
    split; [done|]. by destruct Hk.
  - intros a Ha. by exists a.
Qed.

Lemma untouched_put_appender k ap a a' s :
  appenders_of s !! ap = Some a -> k <> LAppender ap \/ same_stream a a' ->
  log_untouched k s (put_appender ap a' s).
Proof.
  intros Ha Hk. destruct k as [|p|q]; simpl; [done|intros l Hl; by exists l|]. split; [done|].
  intros b Hb. unfold appenders_of in *. simpl. rewrite lookup_insert.
  case_decide as Hq; [subst|by exists b]. rewrite Ha in Hb. injection Hb as <-. exists a'.
  split; [done|]. by destruct Hk.
Qed.

Lemma safe_write_logger held s p (f : Logger -> Logger) (Q : unit -> list (lock * mode) -> shared -> Prop) :
  has_logger p s ->
  (forall l s', rely held s s' -> log_always s' -> loggers_of s' !! p = Some l ->
     logger_good s' p (f l) /\ m_name (f l) = m_name l /\
     ((LLogger p, Exclusive) ∈ held \/ same_list l (f l)) /\ Q tt held (put_logger p (f l) s')) ->
  safe held s (write_logger p f) Q.
Proof.
  intros Hp HQ. apply safe_log_act. intros s' Hr Hs.
  destruct (has_logger_grows p s s' (proj1 Hr) Hp) as [l Hl].
  destruct (HQ l s' Hr Hs Hl) as (Hgood & Hn & Hk & HQ').
  destruct (put_logger_ok p l (f l) s' Hs Hl Hgood Hn) as [Hal Hg].
  exists tt, (set_logger p (f l) (fst s')). split.
  { unfold get_logger. unfold_M. unfold loggers_of in Hl. by rewrite Hl. }
  split; [done|]. split; [|done]. split; [done|]. intros k Hnk. eapply untouched_put_logger; [done|].
  destruct Hk as [Hk|Hk]; [left|by right]. by intros ->.
Qed.

Lemma safe_write_appender held s ap (f : LogAppender -> LogAppender)
    (Q : unit -> list (lock * mode) -> shared -> Prop) :
  has_appender ap s ->
  (forall a s', rely held s s' -> log_always s' -> appenders_of s' !! ap = Some a ->
     ap_kind (f a) = ap_kind a /\ (is_Some (ap_formatter a) -> is_Some (ap_formatter (f a))) /\
     (forall g, ap_formatter (f a) = Some g -> ap_formatter a = Some g \/ fits g) /\
     ((LAppender ap, Exclusive) ∈ held \/ same_stream a (f a)) /\ Q tt held (put_appender ap (f a) s')) ->
  safe held s (write_appender ap f) Q.
Proof.
  intros Hp HQ. apply safe_log_act. intros s' Hr Hs.
  destruct (has_appender_grows ap s s' (proj1 Hr) Hp) as [a Ha].
  destruct (HQ a s' Hr Hs Ha) as (Hkind & Hf & Hfit & Hk & HQ').
  destruct (put_appender_ok ap a (f a) s' Hs Ha) as [Hal Hg]; [| |done|].
  { destruct (la_appender _ Hs _ _ Ha) as [Hold Hgood]. split; [|by rewrite Hkind].
    intros g Hg. destruct (Hfit g Hg); auto. }
  { unfold same_kind. rewrite Hkind. by destruct (ap_kind a). }
  exists tt, (set_appender ap (f a) (fst s')). split.
  { unfold get_appender. unfold_M. unfold appenders_of in Ha. by rewrite Ha. }
  split; [done|]. split; [|done]. split; [done|]. intros k Hnk. eapply untouched_put_appender; [done|].
  destruct Hk as [Hk|Hk]; [left|by right]. by intros ->.
Qed.

Lemma safe_print held s text (Q : unit -> list (lock * mode) -> shared -> Prop) :
  (forall s', log_growth s s' -> log_always s' -> rely held s s' -> Q tt held s') ->
  safe held s (log_act (print text)) Q.
Proof.
  intros HQ. apply safe_log_act. intros s' Hr Hs. eexists tt, _. split; [done|].
  set (s2 := (_, snd s')).
  assert (log_growth s' s2) as Hg by (change (log_growth s' s'); reflexivity).
  assert (forall k, log_untouched k s' s2) as Hu by (intros k; change (log_untouched k s' s'); reflexivity).
  assert (log_always s2) as Hal by (destruct Hs; by split).
  split; [done|]. split; [split; [done|intros k _; apply Hu]|]. apply HQ; [|done|].
  - etransitivity; [apply Hr|done].
  - etransitivity; [exact Hr|]. split; [done|]. intros h _. apply Hu.
Qed.

(** *** Ranks *)
Lemma above_appender p ap held :
  above (LLogger p) held -> above (LAppender ap) ((LLogger p, Exclusive) :: held).
Proof.
  unfold above. rewrite Forall_cons. intros Ha. split.
  - simpl. unfold log_rank. case_decide; lia.
  - eapply Forall_impl; [exact Ha|]. intros h. simpl. unfold log_rank. repeat case_decide; lia.
Qed.

Lemma above_root p held :
  p <> root -> above (LLogger p) held -> above (LLogger root) ((LLogger p, Exclusive) :: held).
Proof.
  unfold above. rewrite Forall_cons. intros Hne Ha. split.
  - simpl. unfold log_rank. rewrite decide_False, decide_True by done. lia.
  - eapply Forall_impl; [exact Ha|]. intros h. simpl. rewrite (decide_False (P := p = root)) by done.
    rewrite decide_True by done. lia.
Qed.

Lemma above_logger p m : above (LLogger p) [(LManager, m)].
Proof. unfold above. rewrite Forall_singleton. simpl. case_decide; lia. Qed.

(** ** Appenders *)

(** Ends the side conditions of a step that knows nothing new. *)
Ltac plain := try done; try (by split); try (by left); try (by right).

Lemma setLevel_ap_safe held s ap v :
  has_appender ap s -> safe held s (appender_setLevel_p ap v) (keeps_locks held anything).
Proof.
  intros Ha. apply safe_write_appender; [done|]. intros a s' _ _ Ha'.
  split; [done|]. split; [done|]. split; [by left|]. split; [by right|done].
Qed.

(** The appender has its own lock, as the last one taken. *)
Local Abbreviation with_ap ap held := ((LAppender ap, Exclusive) :: held).

(** What the guard of an appender needs that is not watched, or whose file is not
    touched: the file is as whole at the end as at the beginning. *)
Lemma lock_inv_same ap s s2 :
  rely [(LAppender ap, Exclusive)] s s2 -> log_lock_inv (LAppender ap) s -> log_lock_inv (LAppender ap) s2.
Proof. intros [Hg Hu]. apply (log_lock_inv_untouched _ _ _ Hg (Hu _ (list_elem_of_here _ _))). Qed.

Lemma safe_write_formatter held s ap (f : LogAppender -> LogAppender) :
  has_appender ap s ->
  (forall a, ap_kind (f a) = ap_kind a /\ (is_Some (ap_formatter a) -> is_Some (ap_formatter (f a))) /\
     forall g, ap_formatter (f a) = Some g -> ap_formatter a = Some g \/ fits g) ->
  log_lock_inv (LAppender ap) s ->
  safe (with_ap ap held) s (write_appender ap f)
    (fun _ h s2 => h = with_ap ap held /\ log_lock_inv (LAppender ap) s2 /\
       exists a, appenders_of s2 !! ap = Some (f a)).
Proof.
  intros Hap Hf Hinv. apply safe_write_appender; [done|]. intros a s' Hr Hs Ha.
  destruct (Hf a) as (Hk & Hfm & Hfit). split; [done|]. split; [done|]. split; [done|].
  split; [left; by left|]. split; [done|].
  assert (log_lock_inv (LAppender ap) s') as Hinv'.
  { eapply lock_inv_same; [|exact Hinv]. split; [apply Hr|]. intros h Hh. apply Hr.
    apply list_elem_of_singleton in Hh as ->. by left. }
  split; [|exists a; unfold put_appender, appenders_of; simpl; by rewrite lookup_insert_eq].
  intros ap0 g base Hw ->. destruct (Hinv' ap0 g base Hw eq_refl) as (ts & part & Hts & Hst & Hp).
  exists ts, part. split; [done|]. split; [done|]. destruct Hp as [?|[? (b & Hb & Hsb)]]; [by left|right].
  split; [done|]. rewrite Ha in Hb. injection Hb as <-. exists (f a).
  unfold put_appender, appenders_of. simpl. rewrite lookup_insert_eq. split; [done|].
  rewrite <- Hsb. unfold stream_of. by rewrite Hk.
Qed.

(** A critical section of an appender that leaves its file alone. *)
Lemma appender_scope {A} held s ap (p : prog lock shared A) (P : A -> shared -> Prop) :
  above (LAppender ap) held -> has_appender ap s ->
  (forall a s2 s3, log_growth s2 s3 -> P a s2 -> P a s3) ->
  (forall s', log_growth s s' -> log_always s' -> log_lock_inv (LAppender ap) s' ->
     safe (with_ap ap held) s' p
       (fun a h s2 => h = with_ap ap held /\ log_lock_inv (LAppender ap) s2 /\ P a s2)) ->
  safe held s (guarded Exclusive (LAppender ap) p) (keeps_locks held P).
Proof.
  intros Ha Hap Hst Hp. apply safe_scope; [done| |].
  - intros a s2 s3 [Hg _]. by apply Hst.
  - intros s' Hr Hs Hl. eapply safe_weaken; [by apply Hp; [apply Hr|done|done]|].
    intros a h s2 (-> & Hi & HPa). by repeat split.
Qed.

(** Reading under the appender's lock. *)
Lemma safe_read_locked {A} held s ap (f : LogAppender -> A) (P : A -> shared -> Prop) :
  has_appender ap s -> log_lock_inv (LAppender ap) s ->
  (forall a s', log_growth s s' -> log_always s' -> appenders_of s' !! ap = Some a -> P (f a) s') ->
  safe (with_ap ap held) s (read_appender ap f)
    (fun b h s2 => h = with_ap ap held /\ log_lock_inv (LAppender ap) s2 /\ P b s2).
Proof.
  intros Hap Hinv Hpost. apply safe_read_appender; [done|]. intros a s' Hr Hs Ha. split; [done|]. split.
  - eapply lock_inv_same; [|exact Hinv]. split; [apply Hr|]. intros h Hh. apply Hr.
    apply list_elem_of_singleton in Hh as ->. by left.
  - apply Hpost; [apply Hr|done|done].
Qed.

Lemma getFormatter_ap_safe held s ap :
  above (LAppender ap) held -> has_appender ap s ->
  safe held s (appender_getFormatter_p ap)
    (keeps_locks held (fun f s' => is_Some f -> has_formatter ap s')).
Proof.
  intros Ha Hap. apply appender_scope; [done|done| |].
  - intros f s2 s3 Hg Hf Hs. eapply has_formatter_grows; [done|by apply Hf].
  - intros s' Hg Hs Hi. apply safe_read_locked; [by eapply has_appender_grows|done|].
    intros a s2 _ _ Ha2 Hf. by exists a.
Qed.

Lemma appender_setFormatter_safe held s ap f :
  above (LAppender ap) held -> has_appender ap s -> (exists g, f = Some g /\ fits g) ->
  safe held s (appender_setFormatter_p ap f) (keeps_locks held (fun _ => has_formatter ap)).
Proof.
  intros Ha Hap (g & -> & Hg0). apply appender_scope; [done|done|intros _ s2 s3; apply has_formatter_grows|].
  intros s' Hg Hs Hi.
  apply (safe_then _ _ _ _ (fun _ s2 => log_lock_inv (LAppender ap) s2 /\ has_formatter ap s2)).
  - eapply safe_weaken; [apply (safe_write_formatter held s' ap (with_ap_formatter (Some g)))|];
      [by eapply has_appender_grows|intros a; split; [done|split; [by eexists|intros ? [= <-]; by right]]|done|].
    intros ? h s2 (-> & Hi2 & a & Ha2). split; [done|]. split; [done|]. by eexists.
  - intros _ s2 _ [Hi2 Hf2].
    eapply safe_weaken; [apply safe_growth; [reflexivity|apply safe_write_formatter]|];
      [by apply has_formatter_has|intros a; split; [done|split; [done|by left]]|done|].
    intros ? h s3 (Hg3 & -> & Hi3 & _). split; [done|]. split; [done|]. by eapply has_formatter_grows.
Qed.

Lemma toYaml_ap_safe `{Yaml} held s ap :
  above (LAppender ap) held -> has_appender ap s ->
  safe held s (appender_toYamlString_p ap) (keeps_locks held (fun t _ => exists a, t = appender_toYamlString a)).
Proof.
  intros Ha Hap. apply appender_scope; [done|done|done|]. intros s' Hg Hs Hi.
  apply safe_read_locked; [by eapply has_appender_grows|done|]. intros a s2 _ _ Ha2. by exists a.
Qed.

(** *** The stream of a file appender *)

(** The world with the stream moved on. *)
Definition with_stream (ap : nat) (fn : str) (t : Z) lv f hf (x : ofstream * D) (w : log_world D) : log_world D :=
  set_disk (snd x) (set_appender ap (mkAppender (FileLogAppender fn (fst x) t) lv f hf) w).

Lemma with_stream_lookup ap fn t lv f hf x w :
  lw_appenders (with_stream ap fn t lv f hf x w) !! ap = Some (mkAppender (FileLogAppender fn (fst x) t) lv f hf).
Proof. apply lookup_insert_eq. Qed.

Definition put_stream (ap : nat) (fn : str) (t : Z) lv f hf (x : ofstream * D) s : shared :=
  (with_stream ap fn t lv f hf x (fst s), snd s).

(** Moving the stream of a file appender on. *)
Lemma put_stream_ok ap fn ofs t lv f hf x s :
  log_always s -> appenders_of s !! ap = Some (mkAppender (FileLogAppender fn ofs t) lv f hf) ->
  (os_file (fst x) = None \/ os_file (fst x) = Some fn) ->
  log_always (put_stream ap fn t lv f hf x s) /\ log_growth s (put_stream ap fn t lv f hf x s).
Proof.
  intros Hs Ha Hx.
  destruct (put_appender_ok ap _ (mkAppender (FileLogAppender fn (fst x) t) lv f hf) s Hs Ha) as [H1 H2].
  - destruct (la_appender _ Hs _ _ Ha) as (Hfm & Hz & _ & Hw). by split.
  - done.
  - done.
  - destruct (put_disk_ok (snd x) _ H1) as [H3 H4]. split; [exact H3|]. by etransitivity.
Qed.

(** Whether the operation wrote to other files than the appender's own. *)
Definition writes_own (fn : str) (d d' : D) : Prop :=
  forall g, sink_apart fn g -> sink_text d' g = sink_text d g.

Lemma put_stream_guarantee held ap fn ofs t lv f hf x s :
  log_always s -> appenders_of s !! ap = Some (mkAppender (FileLogAppender fn ofs t) lv f hf) ->
  (os_file (fst x) = None \/ os_file (fst x) = Some fn) ->
  writes_own fn (lw_disk (fst s)) (snd x) ->
  (LAppender ap, Exclusive) ∈ held ->
  guarantee held s (put_stream ap fn t lv f hf x s).
Proof.
  intros Hs Ha Hx Hown Hin. destruct (put_stream_ok ap fn ofs t lv f hf x s Hs Ha Hx) as [_ Hg].
  split; [done|]. intros k Hk. destruct k as [|p|q]; simpl; [done|intros l Hl; by exists l|].
  assert (q <> ap) as Hne by (by intros ->). split.
  - unfold watched_text. destruct watched as [[[ap0 g] base]|] eqn:Hw; [|done].
    case_decide as Hq; [subst|done]. f_equal. simpl. apply Hown.
    destruct (la_appender _ Hs _ _ Ha) as (_ & _ & _ & Happ). specialize (Happ _ _ _ Hw).
    by rewrite decide_False in Happ.
  - intros b Hb. exists b. split; [|by repeat split]. unfold appenders_of in *. simpl.
    by rewrite lookup_insert_ne.
Qed.

Lemma safe_on_stream {A} held s ap fn (m : M (ofstream * D) A) (Q : A -> list (lock * mode) -> shared -> Prop) :
  is_file ap fn s -> (LAppender ap, Exclusive) ∈ held ->
  (forall s' ofs t lv f hf, rely held s s' -> log_always s' ->
     appenders_of s' !! ap = Some (mkAppender (FileLogAppender fn ofs t) lv f hf) ->
     exists a x, m (ofs, lw_disk (fst s')) = (Ret a, x) /\
       (os_file (fst x) = None \/ os_file (fst x) = Some fn) /\
       writes_own fn (lw_disk (fst s')) (snd x) /\
       Q a held (put_stream ap fn t lv f hf x s')) ->
  safe held s (log_act (on_stream ap m)) Q.
Proof.
  intros Hf Hin HQ. apply safe_log_act. intros s' Hr Hs.
  destruct (is_file_grows ap fn s s' (proj1 Hr) Hf) as (ofs & t & lv & f & hf & Ha).
  destruct (HQ s' ofs t lv f hf Hr Hs Ha) as (a & x & Hm & Hx & Hown & HQ').
  exists a, (with_stream ap fn t lv f hf x (fst s')). split.
  { unfold on_stream. unfold appenders_of in Ha. rewrite Ha, Hm. by destruct x. }
  split; [by apply (put_stream_ok ap fn ofs t lv f hf x s')|].
  split; [by apply (put_stream_guarantee held ap fn ofs t lv f hf x s')|done].
Qed.

(** While the appender's lock is held, others leave its stream alone. *)
Lemma stream_kept ap held s s' a :
  rely (with_ap ap held) s s' -> appenders_of s !! ap = Some a ->
  exists a', appenders_of s' !! ap = Some a' /\ stream_of a' = stream_of a.
Proof.
  intros [_ Hu] Ha. destruct (Hu (LAppender ap, Exclusive) ltac:(left)) as [_ Hs].
  destruct (Hs a Ha) as (a' & Ha' & _ & _ & E). by exists a'.
Qed.

Lemma lock_inv_kept ap held s s' :
  rely (with_ap ap held) s s' -> log_lock_inv (LAppender ap) s -> log_lock_inv (LAppender ap) s'.
Proof. intros [Hg Hu]. apply (log_lock_inv_untouched _ _ _ Hg (Hu (LAppender ap, Exclusive) ltac:(left))). Qed.

(** An operation on the stream that writes no text and leaves a broken stream broken. *)
Lemma lock_inv_stream ap fn ofs t lv f hf x s :
  log_always s -> appenders_of s !! ap = Some (mkAppender (FileLogAppender fn ofs t) lv f hf) ->
  same_text (lw_disk (fst s)) (snd x) -> (ofs = mkOfstream (Some fn) true -> fst x = ofs) ->
  log_lock_inv (LAppender ap) s -> log_lock_inv (LAppender ap) (put_stream ap fn t lv f hf x s).
Proof.
  intros Hs Ha Hsame Hst Hi ap0 g base Hw ->. destruct (Hi ap0 g base Hw eq_refl) as (ts & part & Hts & Htx & Hp).
  destruct (la_appender _ Hs _ _ Ha) as (_ & _ & _ & Hfile). specialize (Hfile _ _ _ Hw).
  rewrite decide_True in Hfile by done. subst g.
  exists ts, part. split; [done|]. split; [simpl; by rewrite Hsame|].
  destruct Hp as [?|[? (b & Hb & Hbs)]]; [by left|right]. split; [done|].
  rewrite Ha in Hb. injection Hb as <-. simpl in Hbs. rewrite <- (Hst Hbs) in Hbs.
  exists (mkAppender (FileLogAppender fn (fst x) t) lv f hf). split; [|done].
  unfold put_stream, appenders_of. apply with_stream_lookup.
Qed.

Lemma reopen_safe held s ap fn :
  above (LAppender ap) held -> is_file ap fn s ->
  safe held s (reopen_p ap fn) (keeps_locks held anything).
Proof.
  intros Habove Hf. apply appender_scope; [done|by eapply is_file_has|done|]. intros s1 Hg1 Hs1 Hi1.
  apply (safe_then _ _ _ _ (fun ofs s2 => log_lock_inv (LAppender ap) s2 /\
    exists a, appenders_of s2 !! ap = Some a /\ stream_of a = ofs)).
  { apply safe_read_appender; [eapply has_appender_grows; [done|by eapply is_file_has]|].
    intros a s2 Hr2 Hs2 Ha. split; [done|]. split; [by eapply lock_inv_kept|by exists a]. }
  intros ofs s2 Hg2 [Hi2 (a2 & Ha2 & Hofs)].
  assert (is_file ap fn s2) as Hf2 by (eapply is_file_grows; [|exact Hf]; by etransitivity).
  apply (safe_then _ _ _ _ (fun _ s3 => log_lock_inv (LAppender ap) s3)).
  { destruct (os_fail ofs) eqn:Hfail; cbn [negb]; [by repeat split|].
    apply (safe_on_stream _ _ ap fn); [done|by left|]. intros s3 ofs3 t lv f hf Hr3 Hs3 Ha3.
    destruct (stream_kept _ _ _ _ _ Hr3 Ha2) as (a3 & Ha3' & Hst3). rewrite Ha3 in Ha3'.
    injection Ha3' as <-. rewrite Hofs in Hst3. change (ofs3 = ofs) in Hst3. subst ofs3.
    eexists tt, _. split; [done|]. simpl.
    split; [left; by destruct (os_file ofs)|]. split; [done|]. split; [done|].
    eapply lock_inv_stream; [done|done|done|intros ->; done|by eapply lock_inv_kept]. }
  intros _ s3 Hg3 Hi3. apply (safe_on_stream _ _ ap fn); [by eapply is_file_grows|by left|].
  intros s4 ofs4 t lv f hf Hr4 Hs4 Ha4. destruct (la_appender _ Hs4 _ _ Ha4) as (_ & Hz & Hopen & _).
  destruct (OpenForWrite_stream same_text (fun p d b d' H g => mkdir_keeps_text p d b d' g H)
              (fun p d b d' H g => open_keeps_text p d b d' g H) fn ofs4 (lw_disk (fst s4)) Hz)
    as (b & ofs5 & d5 & Hm & Htext & Hst).
  exists b, (ofs5, d5). split; [done|]. simpl.
  assert (os_file ofs5 = None \/ os_file ofs5 = Some fn) as Hfile5.
  { destruct (os_file ofs4) as [h|] eqn:E; [destruct Hst as [_ ->]; exact Hopen|].
    destruct b; [subst; by right|]. destruct Hst as [-> _]. by left. }
  split; [done|]. split; [intros g _; apply Htext|]. split; [done|]. split; [|done].
  eapply lock_inv_stream; [done|done|done| |by eapply lock_inv_kept].
  intros ->. simpl in Hst. by destruct Hst as [_ ->].
Qed.

(** [m_lastTime] is written without the lock. *)
Lemma set_lastTime_safe held s ap fn now :
  is_file ap fn s -> safe held s (log_act (set_lastTime ap now)) (keeps_locks held anything).
Proof.
  intros Hf. apply safe_log_act. intros s' Hr Hs.
  destruct (is_file_grows ap fn s s' (proj1 Hr) Hf) as (ofs & t & lv & f & hf & Ha).
  set (a' := mkAppender (FileLogAppender fn ofs now) lv f hf).
  destruct (put_appender_ok ap _ a' s' Hs Ha) as [H1 H2]; [|done|done|].
  { apply (la_appender _ Hs _ _ Ha). }
  exists tt, (set_appender ap a' (fst s')). split.
  { unfold set_lastTime, get_appender. unfold_M. unfold appenders_of in Ha. by rewrite Ha. }
  split; [exact H1|]. split; [|done]. split; [exact H2|]. intros k _.
  eapply (untouched_put_appender k ap); [exact Ha|by right].
Qed.

(** *** Writing a record *)
Ltac on_file := cbn [stream_of ap_kind fst snd] in *; simpl in *.

(** In the middle of a record of which [written] has been sent: all of it is in the
    file, or the stream has failed and a beginning is. *)
Definition middle (ap0 : nat) (g base : str) (ts : list str) (written : str) s : Prop :=
  exists a, appenders_of s !! ap0 = Some a /\ let ofs := stream_of a in
    let text := sink_text (lw_disk (fst s)) g in
    if os_fail ofs
    then exists part, text = base ++ concat ts ++ part /\
           (part = [] \/ (os_file ofs = Some g /\ exists rest, record (part ++ rest)))
    else text = base ++ concat ts ++ written /\ (os_file ofs = None -> written = []).

(** The same for the watched appender, with the [rest] still to come. *)
Definition in_record (ap : nat) (written rest : str) s : Prop :=
  forall ap0 g base, watched = Some (ap0, g, base) -> ap = ap0 ->
    record (written ++ rest) /\ exists ts, Forall record ts /\ middle ap0 g base ts written s.

Lemma in_record_kept ap held written rest s s' :
  rely (with_ap ap held) s s' -> in_record ap written rest s -> in_record ap written rest s'.
Proof.
  intros Hr Hi ap0 g base Hw ->. destruct (Hi ap0 g base Hw eq_refl) as (Hrec & ts & Hts & a & Ha & Hm).
  split; [done|]. exists ts. split; [done|]. destruct (stream_kept _ _ _ _ _ Hr Ha) as (a' & Ha' & Hst).
  exists a'. split; [done|]. rewrite Hst.
  destruct Hr as [_ Hu]. destruct (Hu (LAppender ap0, Exclusive) ltac:(left)) as [Ht _].
  simpl in Ht. rewrite !(watched_text_self _ _ _ _ Hw) in Ht. apply (inj Some) in Ht. by rewrite Ht.
Qed.

(** At the beginning, and at the end. *)
Lemma in_record_start ap fn text s :
  log_always s -> is_file ap fn s -> log_lock_inv (LAppender ap) s ->
  (watched <> None -> record text) -> in_record ap [] text s.
Proof.
  intros Hs (ofs & t & lv & f & hf & Ha) Hi Hrec ap0 g base Hw ->.
  split; [simpl; apply Hrec; by rewrite Hw|].
  destruct (Hi ap0 g base Hw eq_refl) as (ts & part & Hts & Htx & Hp). exists ts. split; [done|].
  eexists. split; [exact Ha|]. on_file. destruct (os_fail ofs) eqn:Hfail.
  - exists part. split; [done|]. destruct Hp as [?|[Hrest (b & Hb & Hst)]]; [by left|right].
    rewrite Ha in Hb. injection Hb as <-. on_file. by rewrite Hst.
  - split; [|done]. destruct Hp as [->|[_ (b & Hb & Hst)]]; [done|].
    rewrite Ha in Hb. injection Hb as <-. on_file. by rewrite Hst in Hfail.
Qed.

Lemma in_record_end ap text s : in_record ap text [] s -> log_lock_inv (LAppender ap) s.
Proof.
  intros Hi ap0 g base Hw ->. destruct (Hi ap0 g base Hw eq_refl) as (Hrec & ts & Hts & a & Ha & Hm).
  rewrite app_nil_r in Hrec. cbv zeta in Hm. destruct (os_fail (stream_of a)) eqn:Hfail.
  - destruct Hm as (part & Htx & Hp). exists ts, part. split; [done|]. split; [done|].
    destruct Hp as [?|[Hfile Hrest]]; [by left|right]. split; [done|]. exists a. split; [done|].
    destruct (stream_of a); simpl in *. by subst.
  - destruct Hm as [Htx _]. exists (ts ++ [text]), []. split; [|split; [|by left]].
    + apply Forall_app. split; [done|]. by apply Forall_singleton.
    + rewrite concat_app. simpl. by rewrite !app_nil_r.
Qed.

(** One text is sent to the stream. *)
Lemma stream_write_safe held s ap fn written x rest :
  is_file ap fn s -> in_record ap written (x ++ rest) s ->
  safe (with_ap ap held) s (log_act (on_stream ap (stream_write x)))
    (fun _ h s2 => h = with_ap ap held /\ in_record ap (written ++ x) rest s2).
Proof.
  intros Hf Hi. apply (safe_on_stream _ _ ap fn); [done|by left|].
  intros s3 ofs t lv f hf Hr Hs Ha. pose proof (in_record_kept _ _ _ _ _ _ Hr Hi) as Hi3. clear Hi Hr.
  destruct (la_appender _ Hs _ _ Ha) as (_ & _ & Hopen & Hfile).
  assert (forall y, appenders_of (put_stream ap fn t lv f hf y s3) !! ap =
    Some (mkAppender (FileLogAppender fn (fst y) t) lv f hf)) as Hlook by (intros y; apply with_stream_lookup).
  unfold stream_write. destruct (os_fail ofs || bool_decide (x = [])) eqn:Hskip.
  { eexists tt, _. split; [done|]. simpl. split; [done|]. split; [done|]. split; [done|].
    intros ap0 g base Hw ->. destruct (Hi3 ap0 g base Hw eq_refl) as (Hrec & ts & Hts & a & Ha' & Hm).
    rewrite <- app_assoc. split; [done|]. exists ts. split; [done|]. eexists. split; [apply Hlook|].
    rewrite Ha in Ha'. injection Ha' as <-. on_file. destruct (os_fail ofs) eqn:Hfl; [done|].
    simpl in Hskip. apply bool_decide_eq_true in Hskip as ->. by rewrite app_nil_r. }
  apply orb_false_iff in Hskip as [Hfail Hx]. apply bool_decide_eq_false in Hx.
  destruct Hopen as [Hnone|Hsome].
  - rewrite Hnone. eexists tt, _. split; [done|]. simpl. split; [by left|]. split; [done|]. split; [done|].
    intros ap0 g base Hw ->. destruct (Hi3 ap0 g base Hw eq_refl) as (Hrec & ts & Hts & a & Ha' & Hm).
    rewrite <- app_assoc. split; [done|]. exists ts. split; [done|]. eexists. split; [apply Hlook|].
    rewrite Ha in Ha'. injection Ha' as <-. on_file. rewrite Hfail in Hm. destruct Hm as [Htx Hwr].
    rewrite (Hwr Hnone) in Htx. exists []. split; [done|by left].
  - rewrite Hsome. destruct (os_write fn x (lw_disk (fst s3))) as [b d'] eqn:Hwrite.
    eexists tt, _. split; [done|]. simpl. split; [by right|].
    split; [intros g; apply (write_elsewhere _ _ _ _ _ _ Hwrite)|]. split; [done|].
    intros ap0 g base Hw ->. destruct (Hi3 ap0 g base Hw eq_refl) as (Hrec & ts & Hts & a & Ha' & Hm).
    rewrite <- app_assoc. split; [done|]. exists ts. split; [done|]. eexists. split; [apply Hlook|].
    rewrite Ha in Ha'. injection Ha' as <-. on_file. rewrite Hfail in Hm. destruct Hm as [Htx _].
    specialize (Hfile _ _ _ Hw). rewrite decide_True in Hfile by done. subst g.
    destruct (write_extends _ _ _ _ _ Hwrite) as (k & Htake & Hall). rewrite Htake, Htx.
    destruct b; simpl.
    + rewrite (Hall eq_refl). split; [by rewrite <- !app_assoc|done].
    + exists (written ++ take k x). split; [by rewrite <- !app_assoc|]. right. split; [done|].
      exists (drop k x ++ rest). rewrite <- app_assoc, (app_assoc (take k x)), take_drop. done.
Qed.

Lemma write_items_safe held s ap fn name level ev items written rest :
  is_file ap fn s -> items_format strftime_local name level ev items = Ret rest ->
  in_record ap written rest s ->
  safe (with_ap ap held) s
    (write_items strftime_local (fun t => log_act (on_stream ap (stream_write t))) name level ev items)
    (fun _ h s2 => h = with_ap ap held /\ in_record ap (written ++ rest) [] s2).
Proof.
  revert s written rest. induction items as [|it items IH]; intros s written rest Hf.
  - intros [= <-] Hi. split; [done|]. by rewrite app_nil_r.
  - cbn [items_format write_items]. unfold mbind at 1, res_bind.
    destruct (item_format _ _ _ _ it) as [x|?|?|?] eqn:Et; [|done..]. unfold mbind at 1, res_bind.
    destruct (items_format _ _ _ _ items) as [u|?|?|?] eqn:Eu; [|done..]. intros [= <-] Hi.
    apply (safe_then _ _ _ _ (fun y s2 => y = x /\ in_record ap written (x ++ u) s2)).
    { apply safe_read. intros s2 Hr _. exists x. split; [done|]. split; [done|]. split; [done|].
      by eapply in_record_kept. }
    intros y s2 Hg2 [-> Hi2]. apply (safe_then _ _ _ _ (fun _ => in_record ap (written ++ x) u)).
    { eapply stream_write_safe; [by eapply is_file_grows|done]. }
    intros [] s3 Hg3 Hi3. rewrite app_assoc. apply IH; [|done|done].
    eapply is_file_grows; [|exact Hf]. by etransitivity.
Qed.

(** ** Logging *)
(** The event's time has dates of the usual width, and its texts may be added to the
    watched file. *)
Definition loggable (level : Level) (ev : LogEvent) : Prop :=
  time_ok (ev_time ev) /\
  (watched <> None ->
   forall fm name text, formatted strftime_local (Some fm) name level ev = Ret text -> record text).

Lemma print_locked held s ap text :
  log_lock_inv (LAppender ap) s ->
  safe (with_ap ap held) s (log_act (print text))
    (fun _ h s2 => h = with_ap ap held /\ log_lock_inv (LAppender ap) s2).
Proof. intros Hi. apply safe_print. intros s' _ _ Hr. split; [done|]. by eapply lock_inv_kept. Qed.

Lemma print_safe held s text : safe held s (log_act (print text)) (keeps_locks held anything).
Proof. by apply safe_print. Qed.

Lemma write_items_cout_safe held s ap name level ev items :
  Forall (item_fits strftime_local) items -> time_ok (ev_time ev) -> log_lock_inv (LAppender ap) s ->
  safe (with_ap ap held) s (write_items strftime_local (fun t => log_act (print t)) name level ev items)
    (fun _ h s2 => h = with_ap ap held /\ log_lock_inv (LAppender ap) s2).
Proof using Type.
  intros Hfit Htime. revert s. induction Hfit as [|it items Hit Hfit IH]; intros s Hi; [done|]. cbn [write_items].
  destruct (items_format_ret strftime_local name level ev [it]) as [t Ht]; [by constructor|done|]. cbn [items_format] in Ht.
  unfold mbind at 1, res_bind in Ht.
  destruct (item_format _ _ _ _ it) as [x|?|?|?] eqn:Et; [|done..].
  apply (safe_then _ _ _ _ (fun y s2 => log_lock_inv (LAppender ap) s2)).
  { apply safe_read. intros s2 Hr _. exists x. split; [done|]. split; [done|]. by eapply lock_inv_kept. }
  intros y s2 _ Hi2. apply (safe_then _ _ _ _ (fun _ => log_lock_inv (LAppender ap))); [by apply print_locked|].
  intros [] s3 _ Hi3. by apply IH.
Qed.

(** The appender's formatter, read under its lock. *)
Lemma read_formatter_locked held s ap :
  has_formatter ap s -> log_lock_inv (LAppender ap) s ->
  safe (with_ap ap held) s (read_appender ap ap_formatter)
    (fun f h s2 => h = with_ap ap held /\ log_lock_inv (LAppender ap) s2 /\ log_always s2 /\ exists g, f = Some g /\ fits g).
Proof.
  intros Hf Hi. apply safe_read_appender; [by apply has_formatter_has|]. intros a s' Hr Hs Ha.
  split; [done|]. split; [by eapply lock_inv_kept|]. split; [done|].
  destruct (has_formatter_grows ap s s' (proj1 Hr) Hf) as (a' & Ha' & Hfm). rewrite Ha in Ha'.
  injection Ha' as <-. destruct Hfm as [g Hg]. exists g. split; [done|]. by apply (la_appender _ Hs _ _ Ha).
Qed.

Lemma log_to_stdout held s ap name level ev :
  above (LAppender ap) held -> has_formatter ap s -> time_ok (ev_time ev) ->
  safe held s (stdout_log_p strftime_local ap name level ev) (keeps_locks held anything).
Proof using Type.
  intros Ha Hf Htime. apply appender_scope; [done|by apply has_formatter_has|done|]. intros s1 Hg1 _ Hi1.
  eapply safe_then; [apply read_formatter_locked; [by eapply has_formatter_grows|done]|].
  intros f s2 _ (Hi2 & _ & fm & -> & Hfit). eapply safe_weaken; [by apply write_items_cout_safe|].
  intros ? h s3 [-> Hi3]. by repeat split.
Qed.

Lemma log_to_file held s ap fn name level ev :
  above (LAppender ap) held -> has_formatter ap s -> is_file ap fn s -> loggable level ev ->
  safe held s (guarded Exclusive (LAppender ap)
    (format_p strftime_local ap (fun t => log_act (on_stream ap (stream_write t))) name level ev;;
     ofs ← read_appender ap stream_of;
     if os_fail ofs then log_act (print ($"log to file error " ++ nl)) else mret tt))
    (keeps_locks held anything).
Proof using Type.
  intros Ha Hf Hfile Hrec. apply appender_scope; [done|by apply has_formatter_has|done|]. intros s1 Hg1 _ Hi1.
  apply (safe_then _ _ _ _ (fun _ => log_lock_inv (LAppender ap))).
  { eapply safe_then; [apply read_formatter_locked; [by eapply has_formatter_grows|done]|].
    intros f s2 Hg2 (Hi2 & Hs2 & fm & -> & Hfit).
    destruct (items_format_ret strftime_local name level ev (m_items fm) Hfit (proj1 Hrec)) as [text Htext].
    assert (is_file ap fn s2) as Hfile2 by (eapply is_file_grows; [|exact Hfile]; by etransitivity).
    eapply safe_weaken; [apply (write_items_safe _ _ ap fn _ _ _ _ [] text); [done|done|]|].
    - eapply in_record_start; [done|done|done|]. intros Hw. by apply (proj2 Hrec Hw fm name).
    - intros ? h s3 [-> Hi3]. split; [done|]. by apply in_record_end in Hi3. }
  intros _ s3 Hg3 Hi3. eapply safe_then.
  { apply (safe_read_locked _ _ _ _ (fun _ _ => True)); [|done|done].
    eapply has_appender_grows; [|by eapply is_file_has]. by etransitivity. }
  intros ofs s4 _ [Hi4 _]. destruct (os_fail ofs); [|by repeat split].
  eapply safe_weaken; [by apply print_locked|]. intros ? h s5 [-> Hi5]. by repeat split.
Qed.

Lemma appender_log_safe held s ap name level ev :
  above (LAppender ap) held -> has_formatter ap s -> loggable level ev ->
  safe held s (appender_log_p strftime_local ap name level ev) (keeps_locks held anything).
Proof using Type.
  intros Ha Hf Hrec. unfold appender_log_p.
  assert (forall s', log_growth s s' -> has_appender ap s') as Hap.
  { intros s' Hg. eapply has_appender_grows; [exact Hg|by apply has_formatter_has]. }
  apply (safe_then _ _ _ _ anything); [apply safe_read_appender; [by apply Hap|done]|].
  intros lv s1 Hg1 _. destruct (level_geb level lv); [|done].
  apply (safe_then _ _ _ _ (fun k s2 => match k with
    | FileLogAppender fn _ _ => is_file ap fn s2 | StdoutLogAppender => True end)).
  { apply safe_read_appender; [by apply Hap|]. intros a s2 _ _ Ha2. split; [done|].
    destruct a as [[|fn ofs t] v f hf]; simpl; [done|]. by exists ofs, t, v, f, hf. }
  intros [|fn ofs t] s2 Hg2 Hk.
  { apply log_to_stdout; [done| |apply Hrec]. eapply has_formatter_grows; [|exact Hf]. by etransitivity. }
  unfold file_log_p. apply (safe_then _ _ _ _ anything).
  { destruct (Z.leb _ _); [|done]. apply (safe_then _ _ _ _ anything); [by apply reopen_safe|].
    intros b s3 Hg3 _. apply (set_lastTime_safe _ _ _ fn). by eapply is_file_grows. }
  intros [] s3 Hg3 _. apply (safe_then _ _ _ _ anything).
  { apply safe_read_appender; [|done]. apply Hap. do 2 (etransitivity; [done|]). done. }
  intros ofs' s4 Hg4 _. apply (safe_then _ _ _ _ anything).
  { destruct (is_open ofs'); [done|apply print_safe]. }
  intros [] s5 Hg5 _. assert (log_growth s2 s5) as Hg25 by (do 2 (etransitivity; [done|]); done).
  apply (log_to_file _ _ _ fn); [done| |by eapply is_file_grows|done].
  eapply has_formatter_grows; [|exact Hf]. do 2 (etransitivity; [done|]). done.
Qed.

Lemma log_all_safe held s aps name level ev :
  Forall (fun ap => above (LAppender ap) held /\ has_formatter ap s) aps -> loggable level ev ->
  safe held s (log_all_p strftime_local aps name level ev) (keeps_locks held anything).
Proof using Type.
  intros Haps Hrec. revert s Haps. induction aps as [|ap aps IH]; intros s Haps; [done|].
  apply Forall_cons in Haps as [[Ha Hf] Haps].
  apply (safe_then _ _ _ _ anything); [by apply appender_log_safe|]. intros [] s2 Hg2 _.
  apply IH. eapply Forall_impl; [exact Haps|]. intros x [? ?]. split; [done|]. by eapply has_formatter_grows.
Qed.

(** ** Loggers *)
Local Abbreviation with_lg p held := ((LLogger p, Exclusive) :: held).

(** A critical section of a logger, or of the manager. *)
Lemma logger_scope {A} held s k (p : prog lock shared A) (P : A -> shared -> Prop) :
  above k held -> (forall ap, k <> LAppender ap) ->
  (forall a s2 s3, log_growth s2 s3 -> P a s2 -> P a s3) ->
  (forall s', log_growth s s' -> log_always s' ->
     safe ((k, Exclusive) :: held) s' p (keeps_locks ((k, Exclusive) :: held) P)) ->
  safe held s (guarded Exclusive k p) (keeps_locks held P).
Proof.
  intros Ha Hk Hst Hp. apply safe_scope; [done| |].
  - intros a s2 s3 [Hg _]. by apply Hst.
  - intros s' Hr Hs _. eapply safe_weaken; [by apply Hp; [apply Hr|done]|].
    intros a h s2 [-> HPa]. split; [done|]. split; [|done]. intros _. destruct k; [done..|]. by destruct (Hk ap).
Qed.

Lemma setLevel_safe held s p v : has_logger p s -> safe held s (setLevel_p p v) (keeps_locks held anything).
Proof.
  intros Hp. apply safe_write_logger; [done|]. intros l s' _ Hs Hl.
  split; [apply (la_logger _ Hs _ _ Hl)|]. split; [done|]. split; [by right|done].
Qed.

Lemma read_logger_safe {A} held s p (f : Logger -> A) (P : A -> shared -> Prop) :
  has_logger p s ->
  (forall l s', log_growth s s' -> log_always s' -> loggers_of s' !! p = Some l -> P (f l) s') ->
  safe held s (read_logger p f) (keeps_locks held P).
Proof.
  intros Hp HPf. apply safe_read_logger; [done|]. intros l s' Hr Hs Hl. split; [done|].
  apply HPf; [apply Hr|done|done].
Qed.

(** The formatter of a logger is never null. *)
Lemma read_formatter_safe held s p :
  has_logger p s -> safe held s (read_logger p m_formatter) (keeps_locks held (fun f _ => exists g, f = Some g /\ fits g)).
Proof. intros Hp. apply read_logger_safe; [done|]. intros l s' _ Hs Hl. apply (la_logger _ Hs _ _ Hl). Qed.

(** The appenders of a logger have formatters. *)
Lemma read_appenders_safe held s p :
  has_logger p s ->
  safe held s (read_logger p m_appenders) (keeps_locks held (fun aps s' => Forall (fun ap => has_formatter ap s') aps)).
Proof.
  intros Hp. apply read_logger_safe; [done|]. intros l s' _ Hs Hl.
  destruct (la_logger _ Hs _ _ Hl) as (_ & Hap & _). apply Forall_forall. exact Hap.
Qed.

Lemma logger_log_safe fuel held s p level ev :
  above (LLogger p) held -> has_logger p s -> p <= fuel -> loggable level ev ->
  safe held s (logger_log_p strftime_local fuel p level ev) (keeps_locks held anything).
Proof using Type.
  revert held s p. induction fuel as [|fuel IH]; intros held s p Ha Hp Hfuel Hrec; cbn [logger_log_p].
  all: apply (safe_then _ _ _ _ anything); [by apply read_logger_safe|]; intros lv s1 Hg1 _;
    destruct (level_geb level lv); [|done];
    apply logger_scope; [done|done|done|]; intros s2 Hg2 Hs2;
    assert (has_logger p s2) as Hp2 by (eapply has_logger_grows; [|exact Hp]; by etransitivity);
    (eapply safe_then; [by apply read_appenders_safe|]); intros aps s3 Hg3 Haps;
    assert (has_logger p s3) as Hp3 by (by eapply has_logger_grows);
    (destruct aps as [|ap aps];
      [|apply (safe_then _ _ _ _ anything); [by apply read_logger_safe|]; intros name s4 Hg4 _;
        apply log_all_safe; [|done]; eapply Forall_impl; [exact Haps|];
        intros x Hx; split; [by apply above_appender|by eapply has_formatter_grows]]).
  all: eapply (safe_then _ _ _ _ (fun r s4 => forall r', r = Some r' -> r' = root /\ r' < p /\ has_logger root s4));
    [apply read_logger_safe; [done|]; intros l s4 _ Hs4 Hl r' Hr';
     destruct (la_logger _ Hs4 _ _ Hl) as (_ & _ & Hroot); destruct (Hroot r' Hr') as [-> Hlt];
     split; [done|]; split; [done|]; apply (la_root _ Hs4)|].
  all: intros [r|] s4 Hg4 Hr; [|done]; destruct (Hr r eq_refl) as (-> & Hlt & Hroot).
  { exfalso. lia. }
  apply IH; [apply above_root; [lia|done]|done|lia|done].
Qed.

Lemma log_macro_safe held s site p level text :
  above (LLogger p) held -> has_logger p s -> loggable level (site_event site p level text) ->
  safe held s (log_macro_p strftime_local p site p level text) (keeps_locks held anything).
Proof using Type.
  intros Ha Hp Hrec. apply (safe_then _ _ _ _ anything); [by apply read_logger_safe|].
  intros lv s1 Hg1 _. destruct (level_geb level lv); [|done].
  apply logger_log_safe; [done|by eapply has_logger_grows|done|done].
Qed.

Lemma inherit_safe held s p aps :
  above (LLogger p) held -> has_logger p s -> Forall (fun ap => has_formatter ap s) aps ->
  safe (with_lg p held) s (inherit_p p aps) (keeps_locks (with_lg p held) anything).
Proof.
  intros Ha. revert s. induction aps as [|ap aps IH]; intros s Hp Haps; [done|].
  apply Forall_cons in Haps as [Hap Haps].
  apply (safe_then _ _ _ _ anything).
  - apply appender_scope; [by apply above_appender|by apply has_formatter_has|done|]. intros s1 Hg1 Hs1 Hi1.
    assert (has_formatter ap s1) as Hap1 by (by eapply has_formatter_grows).
    eapply safe_then; [apply (safe_read_locked _ _ _ _ (fun _ _ => True)); [by apply has_formatter_has|done|done]|].
    intros has s2 Hg2 [Hi2 _]. destruct has; [by repeat split|].
    apply (safe_then _ _ _ _ (fun f s3 => log_lock_inv (LAppender ap) s3 /\ exists g, f = Some g /\ fits g)).
    { apply safe_read_logger; [eapply has_logger_grows; [|exact Hp]; by etransitivity|].
      intros l s3 Hr3 Hs3 Hl. split; [done|]. split; [by eapply lock_inv_kept|].
      apply (la_logger _ Hs3 _ _ Hl). }
    intros f s3 Hg3 [Hi3 (g & -> & Hfit)]. eapply safe_weaken; [apply safe_write_formatter|].
    + eapply has_appender_grows; [|by apply has_formatter_has]. by etransitivity.
    + intros a. split; [done|]. split; [by eexists|]. intros ? [= <-]. by right.
    + done.
    + intros ? h s4 (-> & Hi4 & _). by repeat split.
  - intros ? s2 Hg2 _. apply IH; [by eapply has_logger_grows|].
    eapply Forall_impl; [exact Haps|]. intros x. by apply has_formatter_grows.
Qed.

Lemma setFormatter_safe held s p f :
  above (LLogger p) held -> has_logger p s -> fits f ->
  safe held s (setFormatter_p p (Some f)) (keeps_locks held anything).
Proof.
  intros Ha Hp Hfit. apply logger_scope; [done|done|done|]. intros s1 Hg1 Hs1.
  assert (has_logger p s1) as Hp1 by (by eapply has_logger_grows).
  apply (safe_then _ _ _ _ anything).
  - apply safe_write_logger; [done|]. intros l s2 _ Hs2 Hl.
    destruct (la_logger _ Hs2 _ _ Hl) as (_ & Hap & Hr). split; [split; [by exists f|by split]|].
    split; [done|]. split; [left; by left|done].
  - intros ? s2 Hg2 _. assert (has_logger p s2) as Hp2 by (by eapply has_logger_grows).
    eapply safe_then; [by apply read_appenders_safe|]. intros aps s3 Hg3 Haps.
    apply inherit_safe; [done|by eapply has_logger_grows|done].
Qed.

Lemma addAppender_safe held s p ap :
  above (LLogger p) held -> has_logger p s -> has_appender ap s ->
  safe held s (addAppender_p p ap) (keeps_locks held anything).
Proof.
  intros Ha Hp Hap. apply logger_scope; [done|done|done|]. intros s1 Hg1 Hs1.
  assert (has_logger p s1) as Hp1 by (by eapply has_logger_grows).
  assert (has_appender ap s1) as Hap1 by (by eapply has_appender_grows).
  eapply safe_then; [apply getFormatter_ap_safe; [by apply above_appender|done]|].
  intros f s2 Hg2 Hf. apply (safe_then _ _ _ _ (fun _ => has_formatter ap)).
  - destruct f as [f|]; cbn [is_nul_formatter]; [split; [done|]; by apply Hf|].
    eapply safe_then; [apply read_formatter_safe; by eapply has_logger_grows|].
    intros fm s3 Hg3 Hfm. apply appender_setFormatter_safe; [by apply above_appender| |done].
    eapply has_appender_grows; [|exact Hap1]. by etransitivity.
  - intros ? s3 Hg3 Hf3. apply safe_write_logger.
    { eapply has_logger_grows; [|exact Hp1]. by etransitivity. }
    intros l s4 Hr4 Hs4 Hl. destruct (la_logger _ Hs4 _ _ Hl) as (Hfl & Hapl & Hr).
    split; [split; [done|]; split; [|done]|split; [done|split; [left; by left|done]]].
    intros x. simpl. rewrite elem_of_app, list_elem_of_singleton. intros [Hx| ->]; [by apply Hapl|].
    exact (has_formatter_grows _ _ _ (proj1 Hr4) Hf3).
Qed.

Lemma write_list_safe held s p (f : list nat -> list nat) :
  above (LLogger p) held -> has_logger p s -> (forall aps x, x ∈ f aps -> x ∈ aps) ->
  safe held s (guarded Exclusive (LLogger p) (write_logger p (fun l => with_list (f (m_appenders l)) l)))
    (keeps_locks held anything).
Proof.
  intros Ha Hp Hf. apply logger_scope; [done|done|done|]. intros s1 Hg1 Hs1.
  apply safe_write_logger; [by eapply has_logger_grows|]. intros l s2 _ Hs2 Hl.
  destruct (la_logger _ Hs2 _ _ Hl) as (Hfl & Hap & Hr). split; [|split; [done|split; [left; by left|done]]].
  split; [done|]. split; [|done]. intros x Hx. apply Hap. by apply Hf in Hx.
Qed.

(** ** New objects *)

(** A file may be given to a new appender: it is not the watched one. *)
Definition apart_ok (fn : str) : Prop :=
  nul_free fn /\ forall ap0 g base, watched = Some (ap0, g, base) -> sink_apart fn g.

Lemma alloc_appender_safe held s a :
  (forall ap, (forall ap0 g base, watched = Some (ap0, g, base) -> ap <> ap0) -> appender_good ap a) ->
  safe held s (log_act (alloc_appender a))
    (keeps_locks held (fun ap s' => appenders_of s' !! ap = Some a)).
Proof.
  intros Hgood. apply safe_log_act. intros [w mgr] Hr Hs.
  set (ap := lw_next w). set (s2 := (_, mgr) : shared).
  pose proof (la_fresh_appender _ Hs ap (le_n _)) as Hnew. unfold appenders_of in Hnew. simpl in Hnew.
  eexists ap, _. split; [done|].
  assert (forall q b, lw_appenders w !! q = Some b -> <[ap := a]> (lw_appenders w) !! q = Some b) as Hold.
  { intros q b Hb. rewrite lookup_insert_ne; [done|]. intros <-. by rewrite Hnew in Hb. }
  assert (forall q, has_formatter q (w, mgr) ->
    exists b, <[ap := a]> (lw_appenders w) !! q = Some b /\ is_Some (ap_formatter b)) as Hfm.
  { intros q (b & Hb & Hf). exists b. split; [by apply Hold|done]. }
  assert (forall ap0 g base, watched = Some (ap0, g, base) -> ap <> ap0) as Hne.
  { intros ap0 g base Hw ->. destruct (la_watched _ Hs _ _ _ Hw) as [b Hb]. unfold appenders_of in Hb.
    simpl in Hb. by rewrite Hnew in Hb. }
  split; [|split; [split|split; [done|unfold appenders_of; simpl; by rewrite lookup_insert_eq]]].
  - destruct Hs as [H1 H2 H3 H4 H5 H6 H8]. split; unfold appenders_of, loggers_of in *; simpl in *.
    + intros q Hq. rewrite lookup_insert_ne by (unfold ap; lia). apply H1. lia.
    + intros q Hq. apply H2. lia.
    + intros q b. rewrite lookup_insert. case_decide; [intros [= <-]; subst; by apply Hgood|apply H3].
    + intros q l Hl. destruct (H4 q l Hl) as (Hf & Hap & Hroot). split; [done|]. split; [|done].
      intros x Hx. apply Hfm. by apply Hap.
    + done.
    + done.
    + intros ap0 g base Hw. destruct (H8 ap0 g base Hw) as [b Hb]. exists b. by apply Hold.
  - split; [eauto|]. intros q b Hb. exists b. split; [by apply Hold|]. split; [reflexivity|done].
  - intros k _. destruct k as [|p|q]; simpl; [done|intros l Hl; by exists l|]. split; [done|].
    intros b Hb. exists b. split; [by apply Hold|by repeat split].
Qed.

Lemma alloc_logger_safe held s l :
  (exists f, m_formatter l = Some f /\ fits f) -> m_appenders l = [] -> m_root l = None ->
  safe held s (log_act (alloc_logger l)) (keeps_locks held (fun p s' => named p (m_name l) s' /\ root < p)).
Proof.
  intros Hf Haps Hnoroot. apply safe_log_act. intros [w mgr] Hr Hs.
  set (p := lw_next w).
  pose proof (la_fresh_logger _ Hs p (le_n _)) as Hnew. unfold loggers_of in Hnew. simpl in Hnew.
  eexists p, _. split; [done|].
  assert (forall q k, lw_loggers w !! q = Some k -> <[p := l]> (lw_loggers w) !! q = Some k) as Hold.
  { intros q k Hk. rewrite lookup_insert_ne; [done|]. intros <-. by rewrite Hnew in Hk. }
  assert (forall q, is_Some (lw_loggers w !! q) -> is_Some (<[p := l]> (lw_loggers w) !! q)) as Hsome.
  { intros q [k Hk]. exists k. by apply Hold. }
  assert (root < p) as Hlt.
  { destruct (la_root _ Hs) as [_ [k Hk]]. unfold loggers_of in Hk. simpl in Hk.
    destruct (decide (root < p)) as [|Hge]; [done|].
    pose proof (la_fresh_logger _ Hs root) as Hn. unfold loggers_of in Hn. simpl in Hn.
    rewrite Hn in Hk by (unfold p in Hge; lia). done. }
  split; [|split; [split|split; [done|split; [exists l; unfold loggers_of; simpl; by rewrite lookup_insert_eq|done]]]].
  - destruct Hs as [H1 H2 H3 H4 H5 [H6 H7] H8]. split; unfold appenders_of, loggers_of in *; simpl in *.
    + intros q Hq. apply H1. lia.
    + intros q Hq. rewrite lookup_insert_ne by (unfold p; lia). apply H2. lia.
    + done.
    + intros q k. rewrite lookup_insert. case_decide; [intros [= <-]|by apply H4].
      split; [done|]. split; [|by rewrite Hnoroot]. rewrite Haps. intros x Hx. by apply not_elem_of_nil in Hx.
    + intros name q Hq. apply Hsome. by eapply H5.
    + split; [done|]. by apply Hsome.
    + done.
  - split; [|intros q b Hb; exists b; split; [done|]; split; [reflexivity|done]].
    intros q k Hk. exists k. split; [by apply Hold|done].
  - intros k _. destruct k as [|q|q]; simpl; [done| |split; [done|]; intros b Hb; by exists b].
    intros k Hk. exists k. split; [by apply Hold|by split].
Qed.

Lemma new_Stdout_safe held s :
  safe held s (log_act new_StdoutLogAppender) (keeps_locks held has_appender).
Proof.
  eapply safe_weaken; [by apply alloc_appender_safe|]. intros ap h s' [-> Ha]. split; [done|]. by eexists.
Qed.

Lemma new_File_safe held s fn :
  (forall ap, above (LAppender ap) held) -> apart_ok fn ->
  safe held s (new_FileLogAppender_p fn) (keeps_locks held has_appender).
Proof.
  intros Ha [Hz Hapart]. eapply safe_then; [apply alloc_appender_safe|].
  - intros ap Hne. split; [done|]. split; [done|]. split; [by left|]. intros ap0 g base Hw.
    rewrite decide_False by (by eapply Hne). by eapply Hapart.
  - intros ap s1 Hg1 Hap. apply (safe_then _ _ _ _ anything).
    + apply reopen_safe; [done|]. eexists _, _, _, _, _. exact Hap.
    + intros b s2 Hg2 _. split; [done|]. eapply has_appender_grows; [exact Hg2|]. eexists. exact Hap.
Qed.

(** [new LogFormatter] prints what is wrong with the pattern. *)
Lemma make_formatter_safe held s pattern :
  safe held s (log_act (make_formatter pattern)) (keeps_locks held (fun f _ => formatter_for pattern f)).
Proof.
  destruct (new_LogFormatter_made pattern) as (f & out & Hf & _).
  apply safe_log_act. intros s' Hr Hs. eexists f, _. split.
  { unfold make_formatter. rewrite Hf. reflexivity. }
  set (s2 := (_, snd s')). split; [destruct Hs; by split|]. split.
  { split; [change (log_growth s' s'); reflexivity|]. intros k _. change (log_untouched k s' s'). reflexivity. }
  split; [done|]. by exists out.
Qed.

Lemma setFormatter_pattern_safe held s p val :
  above (LLogger p) held -> has_logger p s -> pattern_fits strftime_local val ->
  safe held s (setFormatter_pattern_p p val) (keeps_locks held anything).
Proof.
  intros Ha Hp Hfit. apply (safe_then _ _ _ _ anything); [apply print_safe|]. intros ? s1 Hg1 _.
  eapply safe_then; [apply make_formatter_safe|]. intros f s2 Hg2 Hf.
  assert (has_logger p s2) as Hp2 by (eapply has_logger_grows; [|exact Hp]; by etransitivity).
  destruct (m_error f); [|by apply setFormatter_safe; [| |apply Hfit]].
  apply (safe_then _ _ _ _ anything); [by apply read_logger_safe|]. intros. apply print_safe.
Qed.

(** ** The manager *)
Lemma applyDefaultConfig_safe s p name :
  named p name s -> apart_ok (log_file name) ->
  safe [(LManager, Exclusive)] s (applyDefaultConfig_p p) (keeps_locks [(LManager, Exclusive)] anything).
Proof.
  intros Hp Hname. eapply safe_then; [apply new_Stdout_safe|]. intros out s1 Hg1 Hout.
  assert (named p name s1) as Hp1 by (by eapply named_grows).
  apply (safe_then _ _ _ _ anything);
    [apply addAppender_safe; [apply above_logger|by eapply named_has|done]|].
  intros ? s2 Hg2 _. assert (named p name s2) as Hp2 by (by eapply named_grows).
  apply (safe_then _ _ _ _ (fun n _ => n = name)).
  { apply read_logger_safe; [by eapply named_has|]. intros l s3 Hg3 _ Hl.
    destruct (named_grows _ _ _ _ Hg3 Hp2) as (l' & Hl' & <-). rewrite Hl in Hl'. by injection Hl' as ->. }
  intros n s3 Hg3 ->. eapply safe_then; [apply new_File_safe; [|exact Hname]|].
  { intros ap. unfold above. apply Forall_singleton. simpl. lia. }
  intros file s4 Hg4 Hfile. apply addAppender_safe; [apply above_logger| |done].
  eapply named_has, named_grows; [|exact Hp2]. by etransitivity.
Qed.

Lemma read_manager_safe {A} held s (f : LoggerManager -> A) (P : A -> shared -> Prop) :
  (forall s', log_growth s s' -> log_always s' -> P (f (snd s')) s') ->
  safe held s (read_manager f) (keeps_locks held P).
Proof.
  intros HPf. apply safe_read. intros s' Hr Hs. exists (f (snd s')). split; [done|]. split; [done|].
  apply HPf; [apply Hr|done].
Qed.

Lemma insert_logger_safe held s name p :
  (LManager, Exclusive) ∈ held -> has_logger p s ->
  safe held s (insert_logger name p) (keeps_locks held anything).
Proof.
  intros Hin Hp. apply safe_act. intros s' Hr Hs. eexists tt, _. split; [done|]. split; [|split; [|done]].
  - destruct Hs as [H1 H2 H3 H4 H5 H6 H8]. split; try done. simpl. intros n q. rewrite lookup_insert.
    case_decide; [intros [= <-]; exact (has_logger_grows p s s' (proj1 Hr) Hp)|exact (H5 n q)].
  - split; [change (log_growth s' s'); reflexivity|]. intros k Hk.
    destruct k as [|q|q]; [done|change (log_untouched (LLogger q) s' s'); reflexivity|
      change (log_untouched (LAppender q) s' s'); reflexivity].
Qed.

Lemma write_root_safe held s p :
  has_logger p s -> root < p -> safe held s (write_logger p (with_root (Some root))) (keeps_locks held anything).
Proof.
  intros Hp Hlt. apply safe_write_logger; [done|]. intros l s' _ Hs Hl.
  destruct (la_logger _ Hs _ _ Hl) as (Hf & Hap & _). split; [|split; [done|split; [by right|done]]].
  split; [done|]. split; [done|]. by intros r [= <-].
Qed.

Lemma getLogger_safe s name :
  apart_ok (log_file name) ->
  safe [] s (getLogger_p name) (keeps_locks [] has_logger).
Proof using SL.
  intros Hname. apply logger_scope; [apply above_nil|done|intros p s2 s3; apply has_logger_grows|].
  intros s1 Hg1 Hs1.
  apply (safe_then _ _ _ _ (fun found s2 => forall p, found = Some p -> has_logger p s2)).
  { apply read_manager_safe. intros s2 _ Hs2 p Hp. exact (la_names _ Hs2 _ _ Hp). }
  intros [p|] s2 Hg2 Hfound; [split; [done|by apply Hfound]|].
  eapply safe_then; [apply make_formatter_safe|]. intros fm s3 Hg3 Hfm.
  eapply safe_then; [apply alloc_logger_safe; [exists fm; split; [done|by eapply default_pattern_fits]|done|done]|]. intros p s4 Hg4 [Hp Hlt]. change (named p name s4) in Hp.
  apply (safe_then _ _ _ _ anything); [by eapply applyDefaultConfig_safe|]. intros ? s5 Hg5 _.
  apply (safe_then _ _ _ _ (fun r _ => r = root)).
  { apply read_manager_safe. intros s6 _ Hs6. apply (la_root _ Hs6). }
  intros r s6 Hg6 ->.
  assert (has_logger p s6) as Hp6.
  { eapply named_has, named_grows; [|exact Hp]. by etransitivity. }
  apply (safe_then _ _ _ _ anything); [by apply write_root_safe|]. intros ? s7 Hg7 _.
  assert (has_logger p s7) as Hp7 by (by eapply has_logger_grows).
  apply (safe_then _ _ _ _ anything); [apply insert_logger_safe; [by left|done]|]. intros ? s8 Hg8 _.
  split; [done|]. by eapply has_logger_grows.
Qed.

(** ** The listener of "logs" *)

(** The appenders of a definition have one of the two types, and files that may be
    given to a new appender; the dates of its patterns fit. *)
Definition appender_allowed (a : LogAppenderDefine) : Prop :=
  valid_type a /\ apart_ok (lad_file a) /\ pattern_fits strftime_local (lad_formatter a).

Definition define_allowed (i : LogDefine) : Prop :=
  apart_ok (log_file (ld_name i)) /\ pattern_fits strftime_local (ld_formatter i) /\
  Forall appender_allowed (ld_appenders i).

Lemma configure_appender_safe s i p a ap :
  has_logger p s -> has_appender ap s -> pattern_fits strftime_local (lad_formatter a) ->
  safe [] s (configure_appender_p i p a ap) (keeps_locks [] anything).
Proof.
  intros Hp Hap Hfit. apply (safe_then _ _ _ _ anything); [by apply setLevel_ap_safe|]. intros ? s1 Hg1 _.
  assert (has_appender ap s1) as Hap1 by (by eapply has_appender_grows).
  apply (safe_then _ _ _ _ anything).
  - destruct (lad_formatter a) as [|c fmt]; [done|].
    eapply safe_then; [apply make_formatter_safe|]. intros f s2 Hg2 Hf.
    destruct (m_error f); [apply print_safe|].
    eapply safe_weaken; [apply appender_setFormatter_safe; [apply above_nil|by eapply has_appender_grows|exists f; auto]|].
    intros ? h s3 [-> _]. by split.
  - intros ? s2 Hg2 _. apply addAppender_safe; [apply above_nil| |by eapply has_appender_grows].
    eapply has_logger_grows; [|exact Hp]. by etransitivity.
Qed.

Lemma apply_appenders_safe s daemon i p aps :
  has_logger p s -> Forall appender_allowed aps ->
  safe [] s (apply_appenders_p daemon i p aps) (keeps_locks [] anything).
Proof.
  revert s. induction aps as [|a aps IH]; intros s Hp Haps; [done|]. cbn [apply_appenders_p].
  apply Forall_cons in Haps as [(Ht & Ha & Hfit) Haps].
  apply (safe_then _ _ _ _ anything); [|intros ? s1 Hg1 _; apply IH; [by eapply has_logger_grows|done]].
  destruct Ht as [-> | ->]; cbn [Z.eqb Pos.eqb]; [|destruct daemon; [done|]].
  - eapply safe_then; [apply new_File_safe; [intros ap; apply above_nil|done]|]. intros ap s1 Hg1 Hap.
    apply configure_appender_safe; [by eapply has_logger_grows|done|done].
  - eapply safe_then; [apply new_Stdout_safe|]. intros ap s1 Hg1 Hap.
    apply configure_appender_safe; [by eapply has_logger_grows|done|done].
Qed.

Lemma clearAppenders_safe s p : has_logger p s -> safe [] s (clearAppenders_p p) (keeps_locks [] anything).
Proof.
  intros Hp. apply (write_list_safe _ _ _ (fun _ => [])); [apply above_nil|done|]. intros aps x Hx.
  by apply not_elem_of_nil in Hx.
Qed.

Lemma apply_define_safe s daemon i :
  define_allowed i -> safe [] s (apply_define_p daemon i) (keeps_locks [] anything).
Proof using SL.
  intros (Hn & Hfit & Haps). eapply safe_then; [by apply getLogger_safe|]. intros p s1 _ Hp.
  apply (safe_then _ _ _ _ anything); [by apply setLevel_safe|]. intros ? s2 Hg2 _.
  assert (has_logger p s2) as Hp2 by (by eapply has_logger_grows).
  apply (safe_then _ _ _ _ anything).
  { destruct (ld_formatter i); [done|]. by apply setFormatter_pattern_safe; [apply above_nil|..]. }
  intros ? s3 Hg3 _. assert (has_logger p s3) as Hp3 by (by eapply has_logger_grows).
  apply (safe_then _ _ _ _ anything); [by apply clearAppenders_safe|]. intros ? s4 Hg4 _.
  apply apply_appenders_safe; [by eapply has_logger_grows|done].
Qed.

Lemma apply_new_safe s daemon old new :
  Forall define_allowed new -> safe [] s (apply_new_p daemon old new) (keeps_locks [] anything).
Proof using SL.
  intros Hnew. revert s. induction Hnew as [|i new Hi _ IH]; intros s; [done|]. cbn [apply_new_p].
  apply (safe_then _ _ _ _ anything); [|intros ? s1 _ _; apply IH].
  destruct (changed i old); [by apply apply_define_safe|done].
Qed.

Lemma remove_old_safe s new old :
  Forall (fun i => apart_ok (log_file (ld_name i))) old ->
  safe [] s (remove_old_p new old) (keeps_locks [] anything).
Proof using SL.
  intros Hold. revert s. induction Hold as [|i old Hi _ IH]; intros s; [done|]. cbn [remove_old_p].
  apply (safe_then _ _ _ _ anything); [|intros ? s1 _ _; apply IH].
  destruct (find_define i new); [done|].
  eapply safe_then; [by apply getLogger_safe|]. intros p s1 _ Hp.
  apply (safe_then _ _ _ _ anything); [by apply setLevel_safe|]. intros ? s2 Hg2 _.
  apply clearAppenders_safe. by eapply has_logger_grows.
Qed.

Lemma on_logger_conf_changed_safe s env site old new :
  Forall define_allowed new -> Forall (fun i => apart_ok (log_file (ld_name i))) old ->
  loggable INFO (site_event site root INFO $"on_logger_conf_changed") ->
  safe [] s (on_logger_conf_changed_p strftime_local env site old new) (keeps_locks [] anything).
Proof using SL.
  intros Hnew Hold Hrec. apply (safe_then _ _ _ _ (fun r s1 => r = root /\ has_logger root s1)).
  { apply read_manager_safe. intros s1 _ Hs1. apply (la_root _ Hs1). }
  intros ? s1 _ [-> Hroot].
  apply (safe_then _ _ _ _ anything); [by apply log_macro_safe; [apply above_nil|..]|]. intros ? s2 _ _.
  apply (safe_then _ _ _ _ anything); [by apply apply_new_safe|]. intros ? s3 _ _. by apply remove_old_safe.
Qed.

(** ** [toYamlString] *)
Context `{HY : Yaml} `{HYL : !YamlLaws}.

Definition emitted (t : str) : Prop := exists n, t = yaml_emit n.

Lemma load_safe held s t : emitted t -> safe held s (load_p t) (keeps_locks held anything).
Proof using HY HYL.
  intros [n ->]. apply safe_read. intros s' _ _. exists n. split; [|done]. unfold lift_res. by rewrite load_emit.
Qed.

(** Loading the texts that [f] makes of the elements of a list. *)
Lemma map_load_safe {A} held s (f : A -> prog lock shared str) (P : A -> shared -> Prop) xs :
  (forall x s1 s2, log_growth s1 s2 -> P x s1 -> P x s2) ->
  (forall x s1, P x s1 -> safe held s1 (f x) (keeps_locks held (fun t _ => emitted t))) ->
  Forall (fun x => P x s) xs ->
  safe held s (map_p (fun x => t ← f x; load_p t) xs) (keeps_locks held anything).
Proof using HY HYL.
  intros Hst Hf. revert s. induction xs as [|x xs IH]; intros s Hxs; [done|]. cbn [map_p].
  apply Forall_cons in Hxs as [Hx Hxs]. apply (safe_then _ _ _ _ anything).
  { eapply safe_then; [by apply Hf|]. intros t s2 _ Ht. by apply load_safe. }
  intros n s2 Hg2 _. apply (safe_then _ _ _ _ anything); [|done]. apply IH.
  eapply Forall_impl; [exact Hxs|]. intros y. by apply Hst.
Qed.

Lemma logger_yaml_safe held s p :
  above (LLogger p) held -> has_logger p s ->
  safe held s (logger_toYamlString_p p) (keeps_locks held (fun t _ => emitted t)).
Proof using HY HYL.
  intros Ha Hp. apply logger_scope; [done|done|done|]. intros s1 Hg1 Hs1.
  apply (safe_then _ _ _ _ (fun l s2 => Forall (fun ap => has_appender ap s2) (m_appenders l))).
  { apply read_logger_safe; [by eapply has_logger_grows|]. intros l s2 _ Hs2 Hl.
    destruct (la_logger _ Hs2 _ _ Hl) as (_ & Hap & _). apply Forall_forall. intros ap Hin.
    apply has_formatter_has. exact (Hap ap Hin). }
  intros l s2 Hg2 Haps. apply (safe_then _ _ _ _ anything).
  - apply (map_load_safe _ _ _ has_appender); [intros x; apply has_appender_grows| |done].
    intros x s3 Hx. eapply safe_weaken; [apply toYaml_ap_safe; [by apply above_appender|done]|].
    intros t h s4 [-> [a ->]]. split; [done|]. unfold appender_toYamlString. by eexists.
  - intros ns s3 _ _. split; [done|]. by eexists.
Qed.

Lemma manager_yaml_safe s : safe [] s manager_toYamlString_p (keeps_locks [] anything).
Proof using HY HYL.
  apply logger_scope; [apply above_nil|done|done|]. intros s1 Hg1 Hs1.
  apply (safe_then _ _ _ _ (fun es s2 => Forall (fun e => has_logger e.2 s2) es)).
  { apply read_manager_safe. intros s2 _ Hs2. apply Forall_forall. intros [name p] Hin.
    unfold by_name in Hin. rewrite merge_sort_Permutation in Hin. apply elem_of_map_to_list in Hin.
    exact (la_names _ Hs2 _ _ Hin). }
  intros es s2 Hg2 Hes. apply (safe_then _ _ _ _ anything); [|done].
  apply (map_load_safe _ _ _ (fun e => has_logger e.2)); [intros x; apply has_logger_grows| |done].
  intros e s3 He. by apply logger_yaml_safe; [apply above_logger|].
Qed.

(** ** The calls of a thread *)

(** The objects a call is made on exist, the files it makes appenders for are not the
    watched one, dates fit, and no formatter is null. *)
Definition conc_op_ok (o : conc_op) s : Prop :=
  match o with
  | OpBasic o =>
      op_enabled strftime_local o (fst s) /\
      match o with
      | OpGetLogger name => apart_ok (log_file name)
      | OpNewFile fn => apart_ok fn
      | OpAppenderFormatter _ f => is_Some f
      | _ => True
      end
  | OpLogName name site _ _ => apart_ok (log_file name) /\ site_ok site
  | OpLoggerYaml p => has_logger p s
  | OpManagerYaml => True
  | OpConfChanged _ site old new =>
      site_ok site /\ Forall define_allowed new /\ Forall (fun i => apart_ok (log_file (ld_name i))) old
  end.

(** The events a call can log. *)
Inductive logs : conc_op -> Level -> LogEvent -> Prop :=
| logs_basic site p level text : logs (OpBasic (OpLog site p level text)) level (site_event site p level text)
| logs_event p level ev : logs (OpBasic (OpLogEvent p level ev)) level ev
| logs_name name site level text p : logs (OpLogName name site level text) level (site_event site p level text)
| logs_changed env site old new p :
    logs (OpConfChanged env site old new) INFO (site_event site p INFO $"on_logger_conf_changed").

Lemma conc_op_timely o s level ev : conc_op_ok o s -> logs o level ev -> time_ok (ev_time ev).
Proof.
  intros Ho H. destruct H; simpl in Ho; [apply site_event_time, Ho|apply Ho|apply site_event_time, Ho..].
Qed.

(** They are records. *)
Definition op_loggable (o : conc_op) : Prop := forall level ev, logs o level ev -> loggable level ev.

Lemma conc_op_ok_grows o s s' : log_growth s s' -> conc_op_ok o s -> conc_op_ok o s'.
Proof.
  intros Hg. pose proof (fun p => has_logger_grows p s s' Hg) as H1.
  pose proof (fun ap => has_appender_grows ap s s' Hg) as H2.
  unfold has_logger, has_appender, loggers_of, appenders_of in H1, H2.
  destruct o as [o|name site level text|p| |env site old new]; simpl; [|done|apply H1|done|done].
  destruct o; simpl; intros [He Ha]; (split; [|done]); try (by auto); try (destruct He; by auto).
  - destruct Ha as [g ->]. destruct He. auto.
  - destruct He as (fn & Hf). exists fn. exact (is_file_grows ap fn s s' Hg Hf).
Qed.

Lemma ignored_safe {A} held s (p : prog lock shared A) P :
  safe held s p (keeps_locks held P) -> safe held s (ignored p) (keeps_locks held anything).
Proof. intros Hp. by eapply safe_then; [exact Hp|]. Qed.

Lemma appender_reopen_safe s ap fn :
  is_file ap fn s -> safe [] s (appender_reopen_p ap) (keeps_locks [] anything).
Proof.
  intros Hf. apply (safe_then _ _ _ _ (fun k s2 => exists ofs t, k = FileLogAppender fn ofs t /\ is_file ap fn s2)).
  { apply safe_read_appender; [by eapply is_file_has|]. intros a s2 Hr _ Ha. split; [done|].
    destruct (is_file_grows ap fn s s2 (proj1 Hr) Hf) as (ofs & t & lv & f & hf & Ha').
    rewrite Ha in Ha'. injection Ha' as ->. exists ofs, t. split; [done|]. by exists ofs, t, lv, f, hf. }
  intros k s2 _ (ofs & t & -> & Hf2). eapply ignored_safe. by apply reopen_safe; [apply above_nil|].
Qed.

Lemma op_prog_safe o s : conc_op_ok o s -> op_loggable o -> safe [] s (op_prog strftime_local o) (keeps_locks [] anything).
Proof using SL HY HYL.
  destruct o as [o|name site level text|p| |env site old new]; cbn [op_prog].
  - intros [He Hok] Hrec. destruct o; cbn [basic_prog]; simpl in He.
    + eapply ignored_safe. by apply getLogger_safe.
    + by apply setLevel_safe.
    + destruct He as [He Hf]. by apply setFormatter_safe; [apply above_nil|..].
    + destruct He as [He Hf]. by apply setFormatter_pattern_safe; [apply above_nil|..].
    + apply addAppender_safe; [apply above_nil|apply He|apply He].
    + apply (write_list_safe _ _ _ (erase_first ap)); [apply above_nil|done|]. intros aps x. apply erase_first_incl.
    + by apply clearAppenders_safe.
    + eapply ignored_safe. apply new_Stdout_safe.
    + eapply ignored_safe. apply new_File_safe; [intros ap; apply above_nil|done].
    + by apply setLevel_ap_safe.
    + destruct He as [He Hf]. destruct Hok as [g ->].
      eapply safe_weaken; [apply appender_setFormatter_safe; [apply above_nil|done|by exists g]|].
      intros ? h s' [-> _]. by split.
    + destruct He as (fn & ofs & t & lv & f & hf & Ha). apply appender_reopen_safe with fn.
      by exists ofs, t, lv, f, hf.
    + destruct He as [He Hs]. apply log_macro_safe; [apply above_nil|done|]. apply Hrec. constructor.
    + destruct He as [He Ht]. apply logger_log_safe; [apply above_nil|done|done|]. apply Hrec. constructor.
  - intros [Ha _] Hrec. eapply safe_then; [by apply getLogger_safe|]. intros p s2 _ Hp.
    apply log_macro_safe; [apply above_nil|done|]. apply Hrec. constructor.
  - intros Hp _. eapply ignored_safe. by apply logger_yaml_safe; [apply above_nil|].
  - intros _ _. eapply ignored_safe. apply manager_yaml_safe.
  - intros (_ & Hnew & Hold) Hrec. apply on_logger_conf_changed_safe; [done|done|]. apply Hrec. constructor.
Qed.

Lemma calls_safe os s :
  Forall (fun o => conc_op_ok o s /\ op_loggable o) os -> safe_program s (calls strftime_local os).
Proof using SL HY HYL.
  unfold safe_program. intros Hos. eapply (safe_weaken _ _ _ (keeps_locks [] anything)); [|by intros ? h s' [-> _]].
  revert s Hos. induction os as [|o os IH]; intros s Hos; [done|]. cbn [calls].
  apply Forall_cons in Hos as [[Ho Hrec] Hos]. apply (safe_then _ _ _ _ anything); [by apply op_prog_safe|].
  intros ? s2 Hg2 _. apply IH. eapply Forall_impl; [exact Hos|]. intros x [Hx ?].
  split; [by eapply conc_op_ok_grows|done].
Qed.
End Protocol.
