(* ===== verification/LogThreads.v ===== *)
(** * Threads that log (log.h, log.cc)

    What the locks of the loggers achieve, by the protocol of LogProtocol.v: threads
    that log, configure loggers, print the configuration or take over a new one never
    deadlock, and the lines of a file are never mixed; the lines on standard output can
    be, and an event can miss its appenders while its logger is configured anew. *)
From stdpp Require Import base gmap list strings sorting.
From Stdlib Require Import Ascii.
From S2P Require Import Prelude Util Env Config LogFormatter Log LogConfig Conc LogConc LogProtocol.

(** ** The start of a program *)

(** After the constructor of the manager the protocol's invariants hold. *)
Lemma started_always {D : Type} `{HP : Posix D} `{HF : FileSink D} `{HL : !SinkLaws D} strftime_local
    `{dates : !StrftimeLaws strftime_local} (d : D) :
  exists mgr w, new_LoggerManager (empty_world d) = (Ret mgr, w) /\
    log_always strftime_local (mgr_root mgr) None (w, mgr).
Proof.
  destruct (runs_new_LoggerManager _ (default_pattern_fits strftime_local dates) (empty_world d) (empty_world_wf _ d))
    as (mgr & w & Hn & Hw & _ & [Hm Hroot] & Hr & _ & f & o1 & o2 & _ & Hl & _).
  exists mgr, w. split; [exact Hn|]. clear Hn. destruct Hw as [H1 H2 H3 _ H5 H4]. split; simpl; try done.
  - intros ap a Ha. specialize (H3 ap a Ha). unfold appender_ok, stream_ok in H3. unfold appender_good.
    split; [intros g; by apply (H5 ap a g)|]. destruct (ap_kind a) as [|fn ofs t]; [done|]. destruct H3 as [Hz Hst]. split; [done|]. split; [|done].
    destruct (os_file ofs); [right; by subst|by left].
  - intros p l Hp. destruct (H4 p l Hp) as (Hf & Hap & _). split; [done|]. split; [exact Hap|].
    unfold loggers_of in Hp. simpl in Hp. rewrite Hl in Hp. simpl in Hp.
    apply lookup_insert_Some in Hp as [[_ <-]|[_ Hp]]; [done|by rewrite lookup_empty in Hp].
  - intros name p Hp. destruct (Hm name p Hp) as (l & Hlp & _). by exists l.
Qed.

(** The texts of the events that the calls of the threads log. *)
Definition logged (strftime_local : str -> Z -> option str) (oss : list (list conc_op)) (t : str) : Prop :=
  exists os o level ev fm name, os ∈ oss /\ o ∈ os /\ logs o level ev /\
    formatted strftime_local (Some fm) name level ev = Ret t.

(** ** The claims *)

(** C15.  Threads that log never deadlock.  The manager's constructor leaves the loggers
    in a state that obeys the protocol; from any such state, whatever number of threads
    call whatever operations on existing loggers and appenders, find or make loggers
    by name, log to them, reopen files, print their configuration or take over new
    definitions of the loggers (the listener of "logs"): under every interleaving of
    their single accesses no step is undefined, throws or releases a lock it does
    not hold; the manager's map, a logger's list of appenders and formatter, and an
    appender's formatter and stream change only in steps of a thread that holds their lock;
    unless every thread has come to its end some thread can take a step;
    and no interleaving goes on for ever.  The calls set no null formatter (see
    [null_formatter_is_dereferenced]), and no format whose dates overflow the buffer
    ([conc_op_ok]).  Accesses to a member are atomic in the model; the code's accesses
    without a lock ([m_level], [m_lastTime], [is_open]) are data races in C++, which the
    theorem does not excuse. *)
Theorem loggers_never_deadlock (D : Type) (os : Posix D) (sink : FileSink D) (laws : SinkLaws D)
    (yaml : Yaml) (ylaws : YamlLaws) (strftime_local : str -> Z -> option str)
    (dates : StrftimeLaws strftime_local) :
  (forall d : D, exists mgr w, new_LoggerManager (empty_world d) = (Ret mgr, w) /\
     log_always strftime_local (mgr_root mgr) None (w, mgr)) /\
  (forall root (s : log_world D * LoggerManager) oss c,
     log_always strftime_local root None s ->
     Forall (Forall (fun o => conc_op_ok strftime_local None o s)) oss ->
     conc_reach (start_config s (calls strftime_local <$> oss)) c ->
     log_always strftime_local root None (c_state c) /\
     (forall i th c' k, c_threads c !! i = Some th -> conc_step i c = Some c' ->
        (k, Exclusive) ∉ th_held th -> log_untouched None k (c_state c) (c_state c')) /\
     (forall i, ~ goes_wrong i c) /\
     ((forall i th, c_threads c !! i = Some th -> ended th) \/ exists i c', conc_step i c = Some c')) /\
  (forall (e : nat -> config lock (log_world D * LoggerManager)),
     ~ forall n, exists i, conc_step i (e n) = Some (e (S n))).
Proof.
  split; [apply (started_always strftime_local)|]. split; [|apply conc_finite].
  intros root s oss c Hs Hok Hr.
  pose (pr := log_protocol strftime_local root None (fun _ => False)).
  assert (Forall (@safe_program _ _ pr s) (calls strftime_local <$> oss)) as Hsafe.
  { apply Forall_fmap. eapply Forall_impl; [exact Hok|]. intros os' Hos.
    apply (calls_safe strftime_local root None (fun _ => False)).
    eapply Forall_impl; [exact Hos|]. intros o Ho. split; [exact Ho|]. intros level ev Hlog.
    split; [eapply conc_op_timely; [exact Ho|exact Hlog]|intros Hn; by destruct Hn]. }
  destruct (safe_programs_run (H := pr) s _ c Hs (fun k => ltac:(by destruct k)) Hsafe Hr) as (Hc & Hw & Hp).
  split; [exact (ok_always _ Hc)|]. split; [|split; assumption]. intros i th c' k Hi Hst Hnot.
  exact (proj2 (step_guarantee (H := pr) i th c c' Hc Hi Hst) k Hnot).
Qed.

Lemma net_file_ok : apart_ok (D := text_fs) None (log_file $"net").
Proof.
  split; [|by intros]. unfold nul_free. apply (bool_decide_eq_true_1 _). by vm_compute.
Qed.

Lemma loggers_never_deadlock_witness :
  exists mgr w, new_LoggerManager (empty_world (∅ : text_fs)) = (Ret mgr, w) /\
    forall c, conc_reach (start_config (w, mgr)
        (calls sample_strftime <$> [[OpLogName $"net" sample_site INFO $"up"]; [OpManagerYaml]])) c ->
      (forall i, ~ goes_wrong i c) /\
      ((forall i th, c_threads c !! i = Some th -> ended th) \/ exists i c', conc_step i c = Some c').
Proof.
  destruct (loggers_never_deadlock text_fs _ _ _ _ toy_yaml_laws sample_strftime _) as (Hstart & H & _).
  destruct (Hstart ∅) as (mgr & w & Hn & Hs). exists mgr, w. split; [exact Hn|]. clear Hn. intros c Hr.
  refine (proj2 (proj2 (H (mgr_root mgr) (w, mgr) [[_]; [_]] c Hs _ Hr))).
  repeat apply Forall_cons_2; try apply Forall_nil_2; [|exact I].
  exact (conj net_file_ok sample_site_ok).
Defined.

(** C16.  The lines of a file are never mixed.  Take a file appender whose file no other
    appender writes to.  Under every interleaving, whenever no thread holds the
    appender's lock, the file holds what it held at the start followed by complete
    texts of events that the threads log, one after the other; at its very end there
    may be a beginning of such a text, and only after a write has failed for good.  (The
    conditions on the calls are those of [loggers_never_deadlock]; accesses to a member
    are atomic.) *)
Theorem lines_never_mix (D : Type) (os : Posix D) (sink : FileSink D) (laws : SinkLaws D)
    (yaml : Yaml) (ylaws : YamlLaws) (strftime_local : str -> Z -> option str)
    (dates : StrftimeLaws strftime_local) root ap g (s : log_world D * LoggerManager) oss c :
  let base := sink_text (lw_disk (fst s)) g in
  log_always strftime_local root (Some (ap, g, base)) s ->
  Forall (Forall (fun o => conc_op_ok strftime_local (Some (ap, g, base)) o s)) oss ->
  conc_reach (start_config s (calls strftime_local <$> oss)) c ->
  (forall i th, c_threads c !! i = Some th -> (LAppender ap, Exclusive) ∉ th_held th) ->
  exists ts part, Forall (logged strftime_local oss) ts /\
    sink_text (lw_disk (fst (c_state c))) g = base ++ concat ts ++ part /\
    (part = [] \/
     (exists rest, logged strftime_local oss (part ++ rest)) /\
     exists a, lw_appenders (fst (c_state c)) !! ap = Some a /\ stream_of a = mkOfstream (Some g) true).
Proof.
  intros base Hs Hok Hr Hfree. set (watched := Some (ap, g, base)) in *.
  pose (pr := log_protocol strftime_local root watched (logged strftime_local oss)).
  assert (Forall (@safe_program _ _ pr s) (calls strftime_local <$> oss)) as Hsafe.
  { apply Forall_fmap. apply Forall_forall. intros os' Hin.
    apply (calls_safe strftime_local root watched (logged strftime_local oss)).
    apply Forall_forall. intros o Ho. rewrite Forall_forall in Hok. specialize (Hok os' Hin).
    rewrite Forall_forall in Hok. split; [exact (Hok o Ho)|]. intros level ev Hlog.
    split; [eapply conc_op_timely; [exact (Hok o Ho)|exact Hlog]|]. intros _ fm name t Ht.
    by exists os', o, level, ev, fm, name. }
  assert (forall k, @lock_inv _ _ pr k s) as Hinv.
  { intros [|p|q]; [done..|]. intros ap0 g' base' [= <- <- <-] _. exists [], []. split; [done|].
    split; [by rewrite !app_nil_r|by left]. }
  destruct (safe_programs_run (H := pr) s _ c Hs Hinv Hsafe Hr) as (Hc & _ & _).
  exact (ok_free _ Hc (LAppender ap) Hfree ap g base eq_refl eq_refl).
Qed.

(** *** Two threads *)
Definition sample_formatter (p : str) : LogFormatter :=
  match new_LogFormatter p with Ret (f, _) => f | _ => mkLogFormatter p [] true end.
Definition line_formatter : LogFormatter := sample_formatter $"%c: %m%n".

Definition log_once (p : nat) (text : str) : prog lock (log_world text_fs * LoggerManager) unit :=
  calls sample_strftime [OpBasic (OpLog sample_site p INFO text)].

(** A logger that writes to a file. *)
Definition file_world : log_world text_fs * LoggerManager :=
  (mkLogWorld {[1 := mkAppender (FileLogAppender $"app.log" (mkOfstream (Some $"app.log") false) 1700000000)
                       DEBUG (Some line_formatter) true]}
     {[0 := mkLogger $"root" DEBUG [1] (Some line_formatter) None]} 2 [] {[ $"app.log" := $"old" ]},
   mkManager {[ $"root" := 0 ]} 0).

Definition file_start := start_config file_world [log_once 0 $"one"; log_once 0 $"two"].

(** Both threads find the level high enough; the second logs first. *)
Definition file_run : option (config lock (log_world text_fs * LoggerManager)) :=
  conc_run ([0] ++ replicate 21 1 ++ replicate 20 0) file_start.
Definition file_end := default file_start file_run.

Lemma line_formatter_fits : formatter_fits sample_strftime line_formatter.
Proof. by repeat constructor. Qed.

Lemma file_world_always : log_always sample_strftime 0 (Some (1, $"app.log", $"old")) file_world.
Proof.
  split; unfold appenders_of, loggers_of; simpl.
  - intros p Hp. by apply lookup_singleton_ne; lia.
  - intros p Hp. by apply lookup_singleton_ne; lia.
  - intros ap a Ha. apply lookup_singleton_Some in Ha as [<- <-]. split; [intros f [= <-]; exact line_formatter_fits|].
    split; [|split; [by right|]].
    + unfold nul_free. apply (bool_decide_eq_true_1 _). by vm_compute.
    + intros ap0 g base [= <- <- <-]. by rewrite decide_True.
  - intros p l Hl. apply lookup_singleton_Some in Hl as [<- <-].
    split; [eexists; split; [done|exact line_formatter_fits]|]. split; [|done].
    intros ap ->%list_elem_of_singleton. eexists. split; [by apply lookup_singleton_Some|by eexists].
  - intros name p Hp. apply lookup_singleton_Some in Hp as [_ <-]. by eexists.
  - split; [done|by eexists].
  - intros ap0 g base [= <- <- <-]. by eexists.
Qed.

Lemma file_end_reached : conc_reach file_start file_end.
Proof. apply computed_run. by vm_compute. Qed.

Lemma lines_never_mix_witness :
  exists ts part, Forall (logged sample_strftime [[OpBasic (OpLog sample_site 0 INFO $"one")];
                                                  [OpBasic (OpLog sample_site 0 INFO $"two")]]) ts /\
    $"oldroot: two" ++ nl ++ $"root: one" ++ nl = $"old" ++ concat ts ++ part.
Proof.
  destruct (lines_never_mix text_fs _ _ _ _ toy_yaml_laws sample_strftime _ 0 1 $"app.log" file_world
              [[OpBasic (OpLog sample_site 0 INFO $"one")]; [OpBasic (OpLog sample_site 0 INFO $"two")]] file_end
              file_world_always) as (ts & part & Hts & Htext & _).
  - repeat apply Forall_cons_2; try apply Forall_nil_2; (split; [split; [by eexists|exact sample_site_ok]|exact I]).
  - exact file_end_reached.
  - intros i th Hi. apply (no_locks_held (c_threads file_end) i th _ ltac:(by vm_compute) Hi).
  - exists ts, part. split; [exact Hts|].
    assert (sink_text (lw_disk (fst (c_state file_end))) $"app.log" =
      $"oldroot: two" ++ nl ++ $"root: one" ++ nl) as E by (by vm_compute).
    by rewrite <- E, Htext.
Defined.

(** Two loggers that print. *)
Definition cout_appender : LogAppender := mkAppender StdoutLogAppender DEBUG (Some line_formatter) true.
Definition cout_world : log_world text_fs * LoggerManager :=
  (mkLogWorld {[ 3 := cout_appender; 4 := cout_appender ]}
     {[ 0 := mkLogger $"root" DEBUG [] (Some line_formatter) None;
        1 := mkLogger $"a" DEBUG [3] (Some line_formatter) (Some 0);
        2 := mkLogger $"b" DEBUG [4] (Some line_formatter) (Some 0) ]} 5 [] ∅,
   mkManager {[ $"root" := 0; $"a" := 1; $"b" := 2 ]} 0).

(** Lines on standard output can be mixed: every [StdoutLogAppender] has a lock of
    its own, but all of them write to [std::cout], item by item, so the lock excludes
    nobody.  Two threads that log through two loggers can come to their ends with the
    second line in the middle of the first. *)
Theorem stdout_lines_mix :
  exists sched c,
    conc_run sched (start_config cout_world [log_once 1 $"one"; log_once 2 $"two"]) = Some c /\
    (forall i th, c_threads c !! i = Some th -> ended th) /\
    lw_cout (fst (c_state c)) = $"a: " ++ ($"b: two" ++ nl) ++ $"one" ++ nl.
Proof.
  destruct (run_computed (start_config cout_world [log_once 1 $"one"; log_once 2 $"two"])
    (replicate 13 0 ++ replicate 19 1 ++ replicate 6 0)
    (fun c => all_ended c && bool_decide (lw_cout (fst (c_state c)) = $"a: " ++ ($"b: two" ++ nl) ++ $"one" ++ nl)))
    as (c & Hrun & [Hend Hout]%andb_true_iff); [by vm_compute|].
  exists (replicate 13 0 ++ replicate 19 1 ++ replicate 6 0), c. split; [exact Hrun|].
  split; [by apply all_ended_spec|by apply bool_decide_eq_true in Hout].
Qed.

(** A logger that writes to a file, before and after the definition of its level
    changes; the root prints. *)
Definition net_define (level : Level) : LogDefine :=
  mkLogDefine $"net" level [] [mkAppenderDefine 1 UNKNOW [] $"net.log"].
Definition reload_world : log_world text_fs * LoggerManager :=
  (mkLogWorld {[ 2 := cout_appender;
                 3 := mkAppender (FileLogAppender $"net.log" (mkOfstream (Some $"net.log") false) 1700000000)
                        DEBUG (Some line_formatter) true ]}
     {[ 0 := mkLogger $"root" DEBUG [2] (Some line_formatter) None;
        1 := mkLogger $"net" DEBUG [3] (Some line_formatter) (Some 0) ]} 4 [] ∅,
   mkManager {[ $"root" := 0; $"net" := 1 ]} 0).
Definition reload_start : config lock (log_world text_fs * LoggerManager) :=
  start_config reload_world
    [calls sample_strftime
       [OpConfChanged (mkEnv ∅ [] [] [] []) sample_site [net_define DEBUG] [net_define INFO]];
     calls sample_strftime [OpBasic (OpLog sample_site 1 ERROR $"disk full")]].

(** The run is complete and has left these texts in the file and on standard output. *)
Definition leaves_texts (sched : list nat) (file out : str) : Prop :=
  exists c, conc_run sched reload_start = Some c /\ (forall i th, c_threads c !! i = Some th -> ended th) /\
    sink_text (lw_disk (fst (c_state c))) $"net.log" = file /\ lw_cout (fst (c_state c)) = out.

Lemma leaves_texts_computed sched file out :
  match conc_run sched reload_start with
  | Some c => all_ended c && (bool_decide (sink_text (lw_disk (fst (c_state c))) $"net.log" = file) &&
      bool_decide (lw_cout (fst (c_state c)) = out))
  | None => false
  end = true -> leaves_texts sched file out.
Proof.
  intros (c & Hrun & [Hend [Hf Ho]%andb_true_iff]%andb_true_iff)%run_computed. exists c.
  split; [exact Hrun|]. split; [by apply all_ended_spec|]. by apply bool_decide_eq_true in Hf, Ho.
Qed.

(** An event can miss the appenders of its logger while a new configuration is
    taken over: the listener of "logs" empties the logger's list of appenders and fills
    it again in steps of their own.  One thread changes the level of a logger, whose
    file appender stays the same in the configuration; another logs an error.  Before
    the change or after it the event goes to the file; in between it goes to the root's
    appenders, and never to the file. *)
Theorem event_misses_its_appenders :
  let told := $"root: on_logger_conf_changed" ++ nl in
  leaves_texts (replicate 21 1 ++ replicate 45 0) ($"net: disk full" ++ nl) told /\
  leaves_texts (replicate 45 0 ++ replicate 27 1) ($"net: disk full" ++ nl) told /\
  leaves_texts (replicate 30 0 ++ replicate 24 1 ++ replicate 15 0) [] (told ++ $"root: disk full" ++ nl).
Proof. split; [|split]; apply leaves_texts_computed; by vm_compute. Qed.
