(* ===== verification/ConfigConc.v ===== *)
(** * Configuration variables used by several threads (config.h, config.cc)

    The operations of Config.v with the locks they take: every variable has a
    read/write lock, the registry has one, and the table of modification times a mutex.
    An operation is a program of Conc.v whose guards are the code's guards and whose
    accesses are single reads and writes of members, calls of listeners and steps of
    iterators.  A listener, and what is passed to [Visit], is a step of the rest of the
    program: it does not use the configuration itself (a listener that sets its own variable
    waits for a lock that its own thread holds). *)
From stdpp Require Import base gmap list strings sorting.
From Stdlib Require Import Ascii FunctionalExtensionality Eqdep_dec.
From S2P Require Import Prelude Util Env Conc Config.

(** The locks: [Config::GetMutex()], the [m_mutex] of a variable, and the static
    [s_mutex] of config.cc. *)
Inductive conf_lock : Type := LRegistry | LVar (p : nat) | LFiles.

#[export] Instance conf_lock_eq_dec : EqDecision conf_lock.
Proof. solve_decision. Defined.

Section Programs.
Context `{Y : Yaml} `{CT : ConfigTypes} {W : Type}.
Local Abbreviation config := (Config.config (W := W)).
Local Abbreviation cprog := (prog conf_lock config).
Local Abbreviation variable t := (ConfigVar (T := value t) (W := W)).
Local Abbreviation callback t := (on_change_cb (T := value t) (W := W)).

(** ** Single accesses *)

(** The variable as one of type [t], when it is one. *)
Definition as_type (t : ty) (v : var (W := W)) : option (variable t) :=
  match decide (var_ty v = t) with
  | left e => Some (eq_rect (var_ty v) (fun t => variable t) (var_cv v) t e)
  | right _ => None
  end.

(** What a [ConfigVar<T>::ptr] points to. *)
Definition deref (t : ty) (p : nat) : M config (variable t) := fun c =>
  match s_vars c !! p ≫= as_type t with
  | Some cv => (Ret cv, c)
  | None => (UB $"dangling variable", c)
  end.

Definition read_var {A} (t : ty) (p : nat) (f : variable t -> A) : cprog A :=
  act (cv ← deref t p; mret (f cv)).
Definition write_var (t : ty) (p : nat) (f : variable t -> variable t) : cprog unit :=
  act (cv ← deref t p; modify (set_var p (mkConfigVar t (f cv)))).

Definition with_val {t} (v : value t) (cv : variable t) : variable t :=
  mkVar (cv_name cv) (cv_description cv) v (m_cbs cv).
Definition with_cbs {t} (l : list (Z * callback t)) (cv : variable t) : variable t :=
  mkVar (cv_name cv) (cv_description cv) (m_val cv) l.

(** The static counter of [ConfigVar<T>::addListener]. *)
Definition set_fun_id (t : ty) (n : Z) (c : config) : config :=
  mkConfig (s_datas c) (s_vars c) (s_next c)
    (fun t' => if decide (t' = t) then n else s_fun_ids c t') (s_file2modifytime c) (s_world c).
Definition read_fun_id (t : ty) : cprog Z := act (c ← get; mret (s_fun_ids c t)).
Definition write_fun_id (t : ty) (n : Z) : cprog unit := act (modify (set_fun_id t n)).

(** Code of the rest of the program. *)
Definition on_world {A} (m : M W A) : M config A := fun c =>
  let '(r, w) := m (s_world c) in
  (r, mkConfig (s_datas c) (s_vars c) (s_next c) (s_fun_ids c) (s_file2modifytime c) w).

(** The type of an object behind a [ConfigVarBase::ptr], which a virtual call goes by. *)
Definition dynamic_type (p : nat) : M config ty := v ← deref_var p; mret (var_ty v).

(** ** [ConfigVar<T>] *)
Definition getValue_p (t : ty) (p : nat) : cprog (value t) :=
  guarded Shared (LVar p) (read_var t p m_val).

Definition toString_p (p : nat) : cprog str :=
  t ← act (dynamic_type p);
  r ← guarded Shared (LVar p) (attempt (cv ← deref t p; lift_res (value_to t (m_val cv))));
  mret (match r with Ret s => s | _ => [] end).

(** [m_cbs.find(key)]. *)
Definition find_cb {t} (key : Z) (cbs : list (Z * callback t)) : option (callback t) :=
  match list_find (fun e => e.1 = key) cbs with
  | Some (_, e) => Some (snd e)
  | None => None
  end.

(** [i.second(m_val, v)] with [i] at the listener [key]: it must still be there.  The
    listener is a step of the rest of the program; listeners that call the configuration
    again are outside the model (the listener of "logs" is in System.v). *)
Definition call_listener (t : ty) (p : nat) (key : Z) (v : value t) : M config unit :=
  cv ← deref t p;
  match find_cb key (m_cbs cv) with
  | Some cb => on_world (cb (m_val cv) v)
  | None => ub $"dangling iterator"
  end.

(** The iterator moves on from the listener [key]. *)
Definition next_listener (t : ty) (p : nat) (key : Z) : M config unit :=
  cv ← deref t p;
  if decide (key ∈ map fst (m_cbs cv)) then mret tt else ub $"dangling iterator".

(** The loop of [setValue].  The lock is held, so that nothing but [clearListener]
    can change the map meanwhile: the keys it comes by are those of its start, or
    the iterator dangles. *)
Fixpoint notify (t : ty) (p : nat) (v : value t) (keys : list Z) : cprog (res unit) :=
  match keys with
  | [] => mret (Ret tt)
  | key :: keys' =>
      and_then (attempt (call_listener t p key v)) (fun _ =>
        act (next_listener t p key);; notify t p v keys')
  end.

(** The first scope answers [Ret true] when it returns from [setValue]. *)
Definition setValue_p (t : ty) (p : nat) (v : value t) : cprog (res unit) :=
  and_then
    (guarded Shared (LVar p)
       (equal ← read_var t p (fun cv => value_eqb t v (m_val cv));
        if (equal : bool) then mret (Ret true)
        else
          keys ← read_var t p (fun cv => map fst (m_cbs cv));
          and_then (notify t p v keys) (fun _ => mret (Ret false))))
    (fun returned : bool =>
       if returned then mret (Ret tt)
       else guarded Exclusive (LVar p) (write_var t p (with_val v));; mret (Ret tt)).

Definition fromString_p (p : nat) (val : str) : cprog bool :=
  t ← act (dynamic_type p);
  r ← and_then (attempt (lift_res (value_from t val))) (setValue_p t p);
  mret (is_ret r).

(** [++s_fun_id] is a read and a write of their own: under the locks of two variables of one
    type they interleave (in C++ they race). *)
Definition addListener_p (t : ty) (p : nat) (cb : callback t) : cprog Z :=
  guarded Exclusive (LVar p)
    (n ← read_fun_id t;
     write_fun_id t (u64 (n + 1));;
     key ← read_fun_id t;
     write_var t p (fun cv => with_cbs (cbs_set key cb (m_cbs cv)) cv);;
     read_fun_id t).

Definition delListener_p (t : ty) (p : nat) (key : Z) : cprog unit :=
  guarded Exclusive (LVar p)
    (write_var t p (fun cv => with_cbs (filter (fun e => e.1 <> key) (m_cbs cv)) cv)).

Definition getListener_p (t : ty) (p : nat) (key : Z) : cprog (option (callback t)) :=
  guarded Shared (LVar p) (read_var t p (fun cv => find_cb key (m_cbs cv))).

Definition clearListener_p (t : ty) (p : nat) : cprog unit :=
  guarded Shared (LVar p) (write_var t p (with_cbs [])).

(** ** The registry *)

Definition LookupBase_p (name : str) : cprog (option nat) :=
  guarded Shared LRegistry (act (LookupBase name)).

(** A new variable, which nothing refers to yet, and its registration. *)
Definition alloc_var (v : var (W := W)) : M config nat := fun c =>
  (Ret (s_next c), mkConfig (s_datas c) (<[s_next c := v]> (s_vars c)) (S (s_next c)) (s_fun_ids c)
                     (s_file2modifytime c) (s_world c)).
Definition insert_name (name : str) (p : nat) (c : config) : config :=
  mkConfig (<[name := p]> (s_datas c)) (s_vars c) (s_next c) (s_fun_ids c) (s_file2modifytime c)
    (s_world c).

(** [Lookup<T>(name, default_value, desc)]; when [info] events of the root logger are
    logged, a variable of another type is printed under the lock of the registry. *)
Definition Lookup_p (info : bool) (t : ty) (name : str) (default_value : value t) (desc : str)
    : cprog (res (option nat)) :=
  guarded Exclusive LRegistry
    (found ← act (LookupBase name);
     match found with
     | Some p =>
         tmp ← act (dynamic_cast t p);
         match tmp with
         | Some q => mret (Ret (Some q))
         | None => (if info then toString_p p;; mret tt else mret tt);; mret (Ret None)
         end
     | None =>
         if has_char_not_of name_chars name then mret (Throw ($"std::invalid_argument: " ++ name))
         else
           p ← act (alloc_var (mkConfigVar t (new_ConfigVar name default_value desc)));
           act (modify (insert_name name p));;
           mret (Ret (Some p))
     end).

Definition Lookup_only_p (t : ty) (name : str) : cprog (option nat) :=
  guarded Shared LRegistry
    (found ← act (LookupBase name);
     match found with
     | None => mret None
     | Some p => act (dynamic_cast t p)
     end).

(** The loop of [Visit]; the lock keeps the map as it is.  The callback, too, is a step of
    the rest of the program that does not use the configuration. *)
Fixpoint visit_all_p (cb : nat -> M W unit) (ps : list nat) : cprog (res unit) :=
  match ps with
  | [] => mret (Ret tt)
  | p :: ps' => and_then (attempt (on_world (cb p))) (fun _ => visit_all_p cb ps')
  end.

Definition all_vars : M config (list nat) := c ← get; mret (snd <$> map_to_list (s_datas c)).

Definition Visit_p (cb : nat -> M W unit) : cprog (res unit) :=
  guarded Shared LRegistry
    (ps ← act all_vars; visit_all_p cb ps).

(** ** Loading documents *)

Definition load_one_p (key : str) (n : node) : cprog unit :=
  match key with
  | [] => mret tt
  | _ =>
      var ← LookupBase_p (map tolower key);
      match var with
      | Some p => fromString_p p (node_text n);; mret tt
      | None => mret tt
      end
  end.

Fixpoint load_loop_p (all_nodes : list (str * node)) : cprog unit :=
  match all_nodes with
  | [] => mret tt
  | (key, n) :: rest => load_one_p key n;; load_loop_p rest
  end.

Definition LoadFromYaml_p (root : node) : cprog unit := load_loop_p (ListAllMember [] root []).

(** Reading [s_file2modifytime[i]], which inserts a zero for a new key. *)
Definition known_time (i : str) : M config Z := fun c =>
  let known := default 0%Z (s_file2modifytime c !! i) in
  (Ret known, set_times (<[i := known]> (s_file2modifytime c)) c).
Definition record_time (i : str) (mtime : Z) : M config unit :=
  modify (fun c => set_times (<[i := mtime]> (s_file2modifytime c)) c).

(** The block of [LoadFromConfDir] that holds [s_mutex]: whether to [continue]. *)
Definition unchanged_p (force : bool) (i : str) (mtime : Z) : cprog bool :=
  guarded Exclusive LFiles
    (if force then act (record_time i mtime);; mret false
     else
       known ← act (known_time i);
       if Z.eqb known mtime then mret true else act (record_time i mtime);; mret false).

Fixpoint load_files_p {D} `{Posix D} (d : D) (garbage : str -> Z) (force : bool) (files : list str)
    : cprog unit :=
  match files with
  | [] => mret tt
  | i :: rest =>
      skip ← unchanged_p force i (file_time d garbage i);
      (if (skip : bool) then mret tt
       else
         root ← attempt (lift_res (yaml_load_file i));
         match root with Ret root => LoadFromYaml_p root | _ => mret tt end);;
      load_files_p d garbage force rest
  end.

Definition LoadFromConfDir_p {D} `{Posix D} (fuel : nat) (d : D) (garbage : str -> Z) (env : Env)
    (path : str) (force : bool) : cprog (res unit) :=
  and_then (attempt (lift_res (ListAllFile fuel d [] (getAbsolutePath path env) $".yml")))
    (fun files => returning (load_files_p d garbage force files)).
End Programs.

(** ** What threads call *)
Section Operations.
Context `{Y : Yaml} `{CT : ConfigTypes} {W : Type}.
(** Whether the root logger logs [info]; the files below the configuration directory. *)
Context (info : bool) {D : Type} `{HP : Posix D} (fuel : nat) (d : D) (garbage : str -> Z) (env : Env).
Local Abbreviation config := (Config.config (W := W)).
Local Abbreviation cprog := (prog conf_lock config).

(** The operations; [CWork] is a step of the caller's own code. *)
Inductive config_op : Type :=
| CGetValue (t : ty) (p : nat)
| CToString (p : nat)
| CSetValue (t : ty) (p : nat) (v : value t)
| CFromString (p : nat) (val : str)
| CAddListener (t : ty) (p : nat) (cb : on_change_cb (T := value t) (W := W))
| CDelListener (t : ty) (p : nat) (key : Z)
| CGetListener (t : ty) (p : nat) (key : Z)
| CClearListener (t : ty) (p : nat)
| CLookup (t : ty) (name : str) (default_value : value t) (desc : str)
| CLookupOnly (t : ty) (name : str)
| CLookupBase (name : str)
| CVisit (cb : nat -> M W unit)
| CLoadFromYaml (root : node)
| CLoadFromConfDir (path : str) (force : bool)
| CWork (m : M W unit).

Definition op_result (o : config_op) : Type :=
  match o with
  | CGetValue t _ => value t
  | CToString _ => str
  | CFromString _ _ => bool
  | CAddListener _ _ _ => Z
  | CGetListener t _ _ => option (on_change_cb (T := value t) (W := W))
  | CLookup _ _ _ _ | CLookupOnly _ _ | CLookupBase _ => option nat
  | _ => unit
  end.

Definition config_prog (o : config_op) : cprog (res (op_result o)) :=
  match o with
  | CGetValue t p => returning (getValue_p t p)
  | CToString p => returning (toString_p p)
  | CSetValue t p v => setValue_p t p v
  | CFromString p val => returning (fromString_p p val)
  | CAddListener t p cb => returning (addListener_p t p cb)
  | CDelListener t p key => returning (delListener_p t p key)
  | CGetListener t p key => returning (getListener_p t p key)
  | CClearListener t p => returning (clearListener_p t p)
  | CLookup t name default_value desc => Lookup_p info t name default_value desc
  | CLookupOnly t name => returning (Lookup_only_p t name)
  | CLookupBase name => returning (LookupBase_p name)
  | CVisit cb => Visit_p cb
  | CLoadFromYaml root => returning (LoadFromYaml_p root)
  | CLoadFromConfDir path force => LoadFromConfDir_p fuel d garbage env path force
  | CWork m => attempt (on_world m)
  end.

(** A thread: what it does next depends on what its calls returned or threw. *)
Inductive client : Type :=
| Finish
| Call (o : config_op) (k : res (op_result o) -> client).

Fixpoint client_prog (c : client) : cprog unit :=
  match c with
  | Finish => mret tt
  | Call o k => r ← config_prog o; client_prog (k r)
  end.
End Operations.

(** ** What a pointer points to *)
Section Variables.
Context `{Y : Yaml} `{CT : ConfigTypes} {W : Type}.
Local Abbreviation config := (Config.config (W := W)).
Implicit Types c : config.

Lemma as_type_refl t (cv : ConfigVar (T := value t) (W := W)) : as_type t (mkConfigVar t cv) = Some cv.
Proof.
  unfold as_type. simpl. destruct (decide (t = t)) as [e|]; [|done].
  by rewrite (UIP_dec ty_eq_dec e eq_refl).
Qed.

Lemma as_type_Some t v (cv : ConfigVar (T := value t) (W := W)) :
  as_type t v = Some cv <-> v = mkConfigVar t cv.
Proof.
  split; [|intros ->; apply as_type_refl]. destruct v as [t' cv']. unfold as_type. simpl.
  destruct (decide (t' = t)) as [<-|]; [|done]. by intros [= ->].
Qed.

Lemma mkConfigVar_inj t (cv cv' : ConfigVar (T := value t) (W := W)) :
  mkConfigVar t cv = mkConfigVar t cv' -> cv = cv'.
Proof. intros E. apply as_type_Some in E. rewrite as_type_refl in E. by injection E. Qed.

(** A variable of type [t] at [p]. *)
Definition has_var c (p : nat) (t : ty) (cv : ConfigVar (T := value t) (W := W)) : Prop :=
  s_vars c !! p = Some (mkConfigVar t cv).

Lemma has_var_inv c p t cv : (s_vars c !! p ≫= as_type t) = Some cv <-> has_var c p t cv.
Proof.
  unfold has_var. destruct (s_vars c !! p) as [v|]; simpl; [|by split].
  rewrite as_type_Some. split; [by intros ->|by intros [= ->]].
Qed.

Lemma deref_has c p t cv : has_var c p t cv -> deref t p c = (Ret cv, c).
Proof. intros Hc%has_var_inv. unfold deref. by rewrite Hc. Qed.

Lemma dynamic_type_has c p t cv : has_var c p t cv -> dynamic_type p c = (Ret t, c).
Proof. intros Hc. unfold dynamic_type, deref_var, mbind, M_bind. by rewrite Hc. Qed.

(** The rest of the program has moved on. *)
Definition set_world (w : W) c : config :=
  mkConfig (s_datas c) (s_vars c) (s_next c) (s_fun_ids c) (s_file2modifytime c) w.
End Variables.

(** What the conversions of the types do: they return or throw. *)
Class CastsSettle `{ConfigTypes} := {
  from_settles : forall t s, settles (value_from t s);
  to_settles : forall t v, settles (value_to t v)
}.

#[export] Instance sample_casts_settle : CastsSettle (H := sample_types).
Proof. split; [|done]. by intros [] [|a s]. Qed.
