(* ===== verification/ConfigThreads.v ===== *)
(** * Any number of threads that use the configuration

    The programs of ConfigConc.v obey a protocol: the lock of the registry comes before
    those of the variables, a variable is changed only by a thread that holds its lock
    for writing, names keep their variables.  So threads that look up, read, set, load
    and listen never go wrong and never deadlock, and variables only ever hold values
    that somebody gave them.  Not so [clearListener], which changes a variable under
    its lock for reading; and some things that hold for one thread do not for two:
    the value a listener was told last need not be the one that is stored, and a
    listener can be lost. *)
From stdpp Require Import base gmap list strings sorting.
From Stdlib Require Import Ascii.
From S2P Require Import Prelude Util Env Conc Config ConfigConc.

(** ** The listeners' keys *)

Lemma cbs_set_in {T W} key (cb : on_change_cb (T := T) (W := W)) l e : e ∈ cbs_set key cb l -> e = (key, cb) \/ e ∈ l.
Proof.
  induction l as [|[k c] l IH]; simpl; [set_solver|]. destruct (Z.ltb key k); [set_solver|].
  destruct (Z.eqb key k); set_solver.
Qed.

Lemma cbs_set_ascending {T W} key (cb : on_change_cb (T := T) (W := W)) l :
  ascending Z.ltb (map fst l) -> ascending Z.ltb (map fst (cbs_set key cb l)).
Proof.
  induction l as [|[k c] l IH]; simpl; [by repeat constructor|]. intros Ha.
  pose proof Ha as [Ha' Hk]%StronglySorted_inv. destruct (Z.ltb_spec key k) as [Hlt|Hge]; simpl.
  - constructor; [exact Ha|]. constructor; [lia|]. eapply Forall_impl; [exact Hk|]. simpl. lia.
  - destruct (Z.eqb_spec key k) as [->|Hne]; simpl; [exact Ha|]. constructor; [by apply IH|].
    rewrite Forall_forall in *. intros x (e & -> & He)%list_elem_of_fmap.
    apply cbs_set_in in He as [->|He]; [simpl; lia|]. apply Hk, list_elem_of_fmap. by exists e.
Qed.

Section Protocol.
Context `{Y : Yaml} `{CT : ConfigTypes} `{CS : !CastsSettle} {W : Type}.
Local Abbreviation config := (Config.config (W := W)).
(** The values that the threads give to variables. *)
Context (allowed : forall t, value t -> Prop).
Implicit Types c s : config.

(** ** The protocol *)

(** A listener that returns or throws. *)
Definition answers {T} (cb : on_change_cb (T := T) (W := W)) : Prop :=
  forall old new w, settles (fst (cb old new w)).

Record var_good (t : ty) (cv : ConfigVar (T := value t) (W := W)) : Prop := mkVarGood {
  vg_allowed : allowed t (m_val cv);
  vg_keys : ascending Z.ltb (map fst (m_cbs cv));
  vg_answers : Forall (fun e => answers (snd e)) (m_cbs cv)
}.

Record conf_always c : Prop := mkConfAlways {
  ca_reg : reg_wf c;
  ca_fresh : forall p v, s_vars c !! p = Some v -> (p < s_next c)%nat;
  ca_vars : forall p t cv, has_var c p t cv -> var_good t cv
}.

(** Names keep their variables, and variables their types. *)
Record conf_growth c c' : Prop := mkConfGrowth {
  cg_vars : forall p v, s_vars c !! p = Some v -> exists v', s_vars c' !! p = Some v' /\ var_ty v' = var_ty v;
  cg_names : forall name p, s_datas c !! name = Some p -> s_datas c' !! name = Some p
}.

#[local] Instance conf_growth_preorder : PreOrder conf_growth.
Proof.
  split; [intros c; split; eauto|]. intros c1 c2 c3 [V1 N1] [V2 N2]. split; [|by auto].
  intros p v Hv. destruct (V1 p v Hv) as (v' & Hv' & <-). by apply V2.
Qed.

Definition conf_untouched (l : conf_lock) c c' : Prop :=
  match l with
  | LRegistry => s_datas c' = s_datas c
  | LVar p => forall v, s_vars c !! p = Some v -> s_vars c' !! p = Some v
  | LFiles => s_file2modifytime c' = s_file2modifytime c
  end.

#[local] Instance conf_untouched_preorder l : PreOrder (conf_untouched l).
Proof.
  destruct l; (split; [by intros c; simpl|]); intros c1 c2 c3 H1 H2; simpl in *;
    [by rewrite H2, H1|by auto|by rewrite H2, H1].
Qed.

Definition conf_rank (l : conf_lock) : nat := match l with LVar _ => 1 | _ => 0 end.

#[local] Instance conf_protocol : Protocol conf_lock config := {
  lock_rank := conf_rank;
  always := conf_always;
  growth := conf_growth;
  untouched := conf_untouched;
  lock_inv _ _ := True;
  lock_inv_untouched _ _ _ _ _ H := H
}.

Local Abbreviation holds held := (keeps_locks (S := config) (L := conf_lock) held).

(** ** Pointers *)

(** A pointer with the type it was cast to, or without. *)
Definition points (x : nat * option ty) c : Prop :=
  match snd x with
  | Some t => exists cv, has_var c (fst x) t cv
  | None => is_Some (s_vars c !! fst x)
  end.

Lemma points_grow x c c' : conf_growth c c' -> points x c -> points x c'.
Proof.
  intros [Hv _]. destruct x as [p [t|]]; simpl.
  - intros [cv Hc]. destruct (Hv p _ Hc) as ([t' cv'] & Hv' & Ht). simpl in Ht. subst t'. by exists cv'.
  - intros [v Hc]. destruct (Hv p _ Hc) as (v' & Hv' & _). by exists v'.
Qed.

Lemma points_untyped p c : points (p, None) c -> exists t cv, has_var c p t cv.
Proof. intros [[t cv] Hc]. by exists t, cv. Qed.

(** ** Single accesses *)

Lemma safe_deref {A} held s t p (f : ConfigVar (T := value t) -> A) (P : A -> config -> Prop) :
  points (p, Some t) s ->
  (forall cv s', rely held s s' -> conf_always s' -> has_var s' p t cv -> P (f cv) s') ->
  safe held s (read_var t p f) (holds held P).
Proof.
  intros Hp HP. apply safe_read. intros s' Hr Hs.
  destruct (points_grow _ _ _ (proj1 Hr) Hp) as [cv Hc]. exists (f cv).
  split; [by rewrite (bind_ret _ _ _ _ _ (deref_has _ _ _ _ Hc))|]. split; [done|]. by apply HP.
Qed.

(** The type of an object does not change. *)
Lemma safe_dynamic_type held s p :
  points (p, None) s -> safe held s (act (dynamic_type p)) (holds held (fun t s' => points (p, Some t) s')).
Proof.
  intros Hp. apply safe_read. intros s' Hr Hs.
  destruct (points_untyped _ _ (points_grow _ _ _ (proj1 Hr) Hp)) as (t & cv & Hc). exists t.
  split; [exact (dynamic_type_has _ _ _ _ Hc)|]. split; [done|]. by exists cv.
Qed.

(** Changing a variable under its lock. *)
Lemma set_var_always p t cv cv' c :
  has_var c p t cv -> var_good t cv' -> conf_always c ->
  conf_always (set_var p (mkConfigVar t cv') c) /\ conf_growth c (set_var p (mkConfigVar t cv') c).
Proof.
  intros Hc Hg [[Hl Hi] Hf Hv]. split; [split; [split; simpl|..]|split; simpl; [|done]].
  - intros name q Hq. destruct (Hl name q Hq) as [Hq' Hlt]. split; [|done].
    destruct (decide (q = p)) as [->|]; [rewrite lookup_insert_eq; by eexists|by rewrite lookup_insert_ne].
  - exact Hi.
  - intros q v Hq. simpl in *. apply lookup_insert_Some in Hq as [[<- _]|[_ Hq]]; by eapply Hf.
  - intros q t' cv2 Hq. unfold has_var in Hq. simpl in Hq. apply lookup_insert_Some in Hq as [[_ E]|[_ Hq]].
    + pose proof (f_equal var_ty E) as Ht. simpl in Ht. subst t'. by apply mkConfigVar_inj in E as <-.
    + by eapply Hv.
  - intros q v Hq. destruct (decide (q = p)) as [->|].
    + rewrite Hc in Hq. injection Hq as <-. rewrite lookup_insert_eq. by eexists.
    + rewrite lookup_insert_ne by done. by exists v.
Qed.

Lemma safe_write_var held s t p f :
  (LVar p, Exclusive) ∈ held -> points (p, Some t) s ->
  (forall cv, var_good t cv -> var_good t (f cv)) ->
  safe held s (write_var t p f) (holds held anything).
Proof.
  intros Hin Hp Hf. apply safe_act. intros s' Hr Hs.
  destruct (points_grow _ _ _ (proj1 Hr) Hp) as [cv Hc].
  destruct (set_var_always p t cv (f cv) s' Hc (Hf cv (ca_vars _ Hs p t cv Hc)) Hs) as [Hs2 Hg].
  exists tt, (set_var p (mkConfigVar t (f cv)) s').
  split; [by rewrite (bind_ret _ _ _ _ _ (deref_has _ _ _ _ Hc))|]. split; [exact Hs2|].
  split; [|by split]. split; [exact Hg|]. intros l Hl. destruct l as [|q|]; simpl; [done| |done].
  intros v Hv. rewrite lookup_insert_ne; [done|]. intros ->. by apply Hl.
Qed.

(** A step that leaves registry and variables alone. *)
Definition same_vars c c' : Prop :=
  s_datas c' = s_datas c /\ s_vars c' = s_vars c /\ s_next c' = s_next c.

Lemma same_vars_ok c c' : same_vars c c' -> conf_always c -> conf_always c' /\ conf_growth c c'.
Proof.
  intros (Hd & Hv & Hn) [[H1 H2] H3 H4]. split; [split; [split|..]|split]; rewrite ?Hd, ?Hv, ?Hn; [exact H1|exact H2|exact H3| |by eauto|done].
  intros p t cv Hc. apply H4 with p. unfold has_var in *. by rewrite <- Hv.
Qed.

Lemma same_vars_guarantee held c c' :
  same_vars c c' -> conf_always c -> s_file2modifytime c' = s_file2modifytime c \/ (LFiles, Exclusive) ∈ held ->
  guarantee held c c'.
Proof.
  intros Hsame Hc Hf. split; [by apply same_vars_ok|]. destruct Hsame as (Hd & Hv & _).
  intros l Hl. destruct l as [|q|]; simpl; [exact Hd|by rewrite Hv|]. by destruct Hf.
Qed.

(** Code of the rest of the program that returns or throws. *)
Lemma safe_on_world {A} held s (m : M W A) :
  (forall w, settles (fst (m w))) -> safe held s (attempt (on_world m)) (holds held (settled anything)).
Proof.
  intros Hm. apply safe_attempt. intros s' _ Hs. specialize (Hm (s_world s')). unfold on_world.
  destruct (m (s_world s')) as [r w]. eexists r, _. split; [done|].
  assert (same_vars s' (set_world w s')) as Hsame by done.
  split; [by apply (same_vars_ok _ _ Hsame)|]. split; [apply (same_vars_guarantee _ _ _ Hsame Hs); by left|].
  by destruct r.
Qed.

Lemma safe_lift {A} held s (r : res A) (P : A -> config -> Prop) :
  settles r -> (forall a s', r = Ret a -> P a s') -> safe held s (attempt (lift_res r)) (holds held (settled P)).
Proof.
  intros Hr HP. apply safe_attempt. intros s' _ Hs. exists r, s'. split; [done|]. split; [done|].
  split; [by split|]. destruct r; [by apply HP|done..].
Qed.

(** The scope of a guard. *)
Lemma conf_scope_grows {A} held s m l (p : prog conf_lock config A) (P : A -> config -> Prop) :
  above l held -> (forall a s2 s3, conf_growth s2 s3 -> P a s2 -> P a s3) ->
  (forall s', rely held s s' -> conf_always s' -> safe ((l, m) :: held) s' p (holds ((l, m) :: held) P)) ->
  safe held s (guarded m l p) (holds held P).
Proof.
  intros Ha HP Hp. apply safe_scope; [done|intros a s2 s3 Hr; apply HP, Hr|]. intros s' Hr Hs _.
  eapply safe_weaken; [by apply Hp|]. by intros a h s2 [-> Hpost].
Qed.

Lemma conf_scope {A} held s m l (p : prog conf_lock config A) (P : A -> Prop) :
  above l held ->
  (forall s', rely held s s' -> conf_always s' ->
     safe ((l, m) :: held) s' p (holds ((l, m) :: held) (fun a _ => P a))) ->
  safe held s (guarded m l p) (holds held (fun a _ => P a)).
Proof. intros Ha Hp. by apply conf_scope_grows. Qed.

(** ** Variables *)

Lemma good_with_val t v (cv : ConfigVar) : allowed t v -> var_good t cv -> var_good t (with_val v cv).
Proof. by intros Hv [_ H2 H3]. Qed.

Lemma good_added t key cb (cv : ConfigVar) :
  answers cb -> var_good t cv -> var_good t (with_cbs (cbs_set key cb (m_cbs cv)) cv).
Proof.
  intros Hcb [H1 H2 H3]. split; simpl; [exact H1|by apply cbs_set_ascending|].
  rewrite Forall_forall in *. intros e [->|He]%cbs_set_in; [done|by apply H3].
Qed.

Lemma good_deleted t key (cv : ConfigVar) :
  var_good t cv -> var_good t (with_cbs (filter (fun e => e.1 <> key) (m_cbs cv)) cv).
Proof.
  intros [H1 H2 H3]. split; simpl; [exact H1| |].
  - induction (m_cbs cv) as [|[k c] l IH]; [constructor|]. simpl in H2. apply Forall_cons in H3 as [_ H3].
    apply StronglySorted_inv in H2 as [H2 Hk]. rewrite filter_cons. case_decide; simpl; [|by apply IH].
    constructor; [by apply IH|]. rewrite Forall_forall in *. intros x (e & -> & He)%list_elem_of_fmap.
    apply Hk, list_elem_of_fmap. exists e. split; [done|]. by apply list_elem_of_filter in He as [_ He].
  - rewrite Forall_forall in *. intros e [_ He]%list_elem_of_filter. by apply H3.
Qed.

Lemma getValue_safe held s t p :
  above (LVar p) held -> points (p, Some t) s ->
  safe held s (getValue_p t p) (holds held (fun v _ => allowed t v)).
Proof.
  intros Ha Hp. apply conf_scope; [done|]. intros s' Hr Hs. apply safe_deref; [by eapply points_grow; [apply Hr|]|].
  intros cv s2 _ Hs2 Hc. apply (ca_vars _ Hs2 p t cv Hc).
Qed.

Lemma toString_safe held s p :
  above (LVar p) held -> points (p, None) s -> safe held s (toString_p p) (holds held anything).
Proof using CS.
  intros Ha Hp. eapply safe_then; [by apply safe_dynamic_type|]. intros t s1 _ Hp1. cbv beta.
  apply (safe_then _ _ _ _ anything); [|by intros a s2 _ _].
  eapply safe_anything, conf_scope; [done|]. intros s2 Hr Hs.
  eapply safe_weaken; [apply (safe_attempt _ _ _ anything)|by intros a h s3 [-> H]; split; [done|apply (I : (fun _ => True) a)]].
  intros s3 Hr3 Hs3. destruct (points_grow _ _ _ (proj1 Hr3) (points_grow _ _ _ (proj1 Hr) Hp1)) as [cv Hc].
  exists (value_to t (m_val cv)), s3. split; [by rewrite (bind_ret _ _ _ _ _ (deref_has _ _ _ _ Hc))|].
  split; [done|]. split; [by split|]. pose proof (to_settles t (m_val cv)) as Hset. by destruct (value_to t (m_val cv)).
Qed.

Lemma read_fun_id_safe held s t : safe held s (read_fun_id t) (holds held anything).
Proof. apply safe_read. intros s' _ _. by eexists. Qed.

Lemma addListener_safe held s t p cb :
  above (LVar p) held -> points (p, Some t) s -> answers cb ->
  safe held s (addListener_p t p cb) (holds held anything).
Proof.
  intros Ha Hp Hcb. eapply safe_anything, (conf_scope _ _ _ _ _ (fun _ => True)); [done|]. intros s1 Hr Hs.
  pose proof (points_grow _ _ _ (proj1 Hr) Hp) as Hp1.
  eapply safe_then; [apply read_fun_id_safe|]. intros n s2 Hg2 _. apply (safe_then _ _ _ _ anything).
  { apply safe_act. intros s3 _ Hs3. assert (same_vars s3 (set_fun_id t (u64 (n + 1)) s3)) as Hsame by done.
    eexists tt, _. split; [done|]. split; [by apply (same_vars_ok _ _ Hsame)|].
    split; [apply (same_vars_guarantee _ _ _ Hsame Hs3); by left|by split]. }
  intros [] s3 Hg3 _. eapply safe_then; [apply read_fun_id_safe|]. intros key s4 Hg4 _.
  eapply safe_then; [|intros; apply read_fun_id_safe]. apply safe_write_var; [by left| |].
  - eapply points_grow; [exact Hg4|]. eapply points_grow; [exact Hg3|]. by eapply points_grow.
  - intros cv. by apply good_added.
Qed.

Lemma write_scope_safe held s t p f :
  above (LVar p) held -> points (p, Some t) s -> (forall cv, var_good t cv -> var_good t (f cv)) ->
  safe held s (guarded Exclusive (LVar p) (write_var t p f)) (holds held anything).
Proof.
  intros Ha Hp Hf. eapply safe_anything, (conf_scope _ _ _ _ _ (fun _ => True)); [done|]. intros s1 Hr Hs.
  apply safe_write_var; [by left|by eapply points_grow; [apply Hr|]|done].
Qed.

Lemma getListener_safe held s t p key :
  above (LVar p) held -> points (p, Some t) s -> safe held s (getListener_p t p key) (holds held anything).
Proof.
  intros Ha Hp. eapply safe_anything, (conf_scope _ _ _ _ _ (fun _ => True)); [done|]. intros s1 Hr Hs.
  by apply safe_deref; [by eapply points_grow; [apply Hr|]|].
Qed.

(** *** [setValue] *)

Lemma find_cb_some {t} key (cbs : list (Z * on_change_cb (T := value t) (W := W))) :
  key ∈ map fst cbs -> exists cb, find_cb key cbs = Some cb /\ exists k, (k, cb) ∈ cbs.
Proof.
  intros Hin. unfold find_cb. destruct (list_find (fun e => e.1 = key) cbs) as [[i [k cb]]|] eqn:E.
  - exists cb. split; [done|]. exists k. apply list_find_Some in E as (Hi & _ & _). by eapply list_elem_of_lookup_2.
  - apply list_find_None in E. rewrite Forall_forall in E. apply list_elem_of_fmap in Hin as (e & -> & He).
    by destruct (E e He).
Qed.

(** While the lock is held the listeners stay the same. *)
Lemma call_listener_safe held m s t p v cv key :
  (LVar p, m) ∈ held -> has_var s p t cv -> var_good t cv -> key ∈ map fst (m_cbs cv) ->
  safe held s (attempt (call_listener t p key v)) (holds held (settled (fun _ s' => has_var s' p t cv))).
Proof.
  intros Hin Hc Hg Hkey. apply safe_attempt. intros s' [_ Hu] Hs. pose proof (Hu _ Hin _ Hc) as Hc'.
  destruct (find_cb_some key (m_cbs cv) Hkey) as (cb & Hf & k & Hcb).
  assert (answers cb) as Ha by (pose proof (vg_answers _ _ Hg) as H; rewrite Forall_forall in H; exact (H _ Hcb)).
  specialize (Ha (m_val cv) v (s_world s')). unfold call_listener.
  rewrite (bind_ret _ _ _ _ _ (deref_has _ _ _ _ Hc')), Hf. unfold on_world.
  destruct (cb (m_val cv) v (s_world s')) as [r w]. eexists r, _. split; [done|].
  assert (same_vars s' (set_world w s')) as Hsame by done.
  split; [by apply (same_vars_ok _ _ Hsame)|]. split; [apply (same_vars_guarantee _ _ _ Hsame Hs); by left|].
  destruct r; [exact Hc'|done..].
Qed.

Lemma next_listener_safe held m s t p cv key :
  (LVar p, m) ∈ held -> has_var s p t cv -> key ∈ map fst (m_cbs cv) ->
  safe held s (act (next_listener t p key)) (holds held (fun _ s' => has_var s' p t cv)).
Proof.
  intros Hin Hc Hkey. apply safe_read. intros s' [_ Hu] Hs'. pose proof (Hu _ Hin _ Hc) as Hc'. exists tt.
  unfold next_listener. by rewrite (bind_ret _ _ _ _ _ (deref_has _ _ _ _ Hc')), decide_True.
Qed.

Lemma notify_safe held m s t p v cv keys :
  (LVar p, m) ∈ held -> has_var s p t cv -> var_good t cv -> (forall k, k ∈ keys -> k ∈ map fst (m_cbs cv)) ->
  safe held s (notify t p v keys) (holds held (settled anything)).
Proof.
  intros Hin. revert s. induction keys as [|key keys IH]; intros s Hc Hg Hk; [by split|]. cbn [notify].
  assert (key ∈ map fst (m_cbs cv)) as Hkey by (apply Hk; by left).
  eapply safe_and_then; [by eapply call_listener_safe|]. intros [] s1 _ Hc1.
  eapply safe_then; [by eapply next_listener_safe|]. intros [] s2 _ Hc2.
  apply IH; [done|done|]. intros k Hin2. apply Hk. by right.
Qed.

Lemma setValue_safe held s t p v :
  above (LVar p) held -> points (p, Some t) s -> allowed t v ->
  safe held s (setValue_p t p v) (holds held (settled anything)).
Proof.
  intros Ha Hp Hv. apply (safe_and_then _ _ _ _ anything).
  - eapply safe_weaken; [apply (conf_scope _ _ _ _ _ settles); [done|]|by intros r h s' [-> Hr]; destruct r].
    intros s1 Hr1 Hs1. pose proof (points_grow _ _ _ (proj1 Hr1) Hp) as Hp1.
    set (held1 := (LVar p, Shared) :: held). assert ((LVar p, Shared) ∈ held1) as Hin by (by left).
    apply (safe_then _ _ _ _ anything); [by apply safe_deref|]. intros equal s2 Hg2 _.
    destruct equal; [by split|]. pose proof (points_grow _ _ _ Hg2 Hp1) as Hp2.
    apply (safe_then _ _ _ _ (fun keys s' => exists cv, has_var s' p t cv /\ var_good t cv /\ keys = map fst (m_cbs cv))).
    { apply safe_deref; [done|]. intros cv s' _ Hs' Hc. exists cv. split; [done|]. split; [by apply (ca_vars _ Hs' p)|done]. }
    intros keys s3 _ (cv & Hc & Hg & ->).
    eapply safe_weaken; [apply (safe_and_then _ _ _ _ anything anything)|by intros r h s' [-> H]; destruct r].
    + by apply (notify_safe _ Shared _ _ _ _ cv).
    + intros [] s4 _ _. by split.
  - intros [] s1 Hg1 _; [by split|]. apply (safe_then _ _ _ _ anything); [|by intros; split].
    apply write_scope_safe; [done|by eapply points_grow|]. intros cv. by apply good_with_val.
Qed.

(** A text whose values may be given to variables. *)
Definition text_ok (val : str) : Prop := forall t v, value_from t val = Ret v -> allowed t v.

Lemma fromString_safe held s p val :
  above (LVar p) held -> points (p, None) s -> text_ok val ->
  safe held s (fromString_p p val) (holds held anything).
Proof using CS.
  intros Ha Hp Hval. eapply safe_then; [by apply safe_dynamic_type|]. intros t s1 _ Hp1. cbv beta.
  apply (safe_then _ _ _ _ (settled anything)); [|by intros; split].
  apply (safe_and_then _ _ _ _ (fun v _ => allowed t v)).
  - apply safe_lift; [apply from_settles|]. intros v s'. apply Hval.
  - intros v s2 Hg2 Hv. apply setValue_safe; [done|by eapply points_grow|done].
Qed.

(** ** The registry *)

Lemma LookupBase_safe held s name :
  above LRegistry held ->
  safe held s (LookupBase_p name) (holds held (fun r s' => forall p, r = Some p -> points (p, None) s')).
Proof.
  intros Ha. apply conf_scope_grows; [done|intros r s2 s3 Hg Hp p Hrp; eapply points_grow; [exact Hg|by apply Hp]|].
  intros s1 _ _. apply safe_read. intros s2 _ Hs2. eexists. split; [done|]. split; [done|].
  intros p Hp. apply (reg_live _ (ca_reg _ Hs2) _ _ Hp).
Qed.

(** The registry while it is locked: what a name leads to does not change. *)
Lemma find_name_safe held m s name :
  (LRegistry, m) ∈ held ->
  safe held s (act (LookupBase name))
    (holds held (fun r s' => s_datas s' !! name = r /\ forall p, r = Some p -> points (p, None) s')).
Proof.
  intros Hin. apply safe_read. intros s2 _ Hs2. eexists. split; [done|]. split; [done|]. split; [done|].
  intros p Hp. apply (reg_live _ (ca_reg _ Hs2) _ _ Hp).
Qed.

Lemma dynamic_cast_safe held s t p :
  points (p, None) s ->
  safe held s (act (dynamic_cast t p)) (holds held (fun r s' => forall q, r = Some q -> points (q, Some t) s')).
Proof.
  intros Hp. apply safe_read. intros s' Hr Hs'.
  destruct (points_untyped _ _ (points_grow _ _ _ (proj1 Hr) Hp)) as (t' & cv & Hc).
  exists (if decide (t' = t) then Some p else None). split; [exact (dynamic_cast_spec t p _ s' Hc)|].
  split; [done|]. intros q. destruct (decide (t' = t)) as [->|]; [|done]. intros [= <-]. by exists cv.
Qed.

(** A pointer that a lookup answers. *)
Definition found (t : ty) (r : option nat) c : Prop := forall q, r = Some q -> points (q, Some t) c.

Lemma found_grow t r c c' : conf_growth c c' -> found t r c -> found t r c'.
Proof. intros Hg Hf q Hq. eapply points_grow; [exact Hg|by apply Hf]. Qed.

Lemma Lookup_only_safe held s t name :
  above LRegistry held -> safe held s (Lookup_only_p t name) (holds held (found t)).
Proof.
  intros Ha. apply conf_scope_grows; [done|apply found_grow|]. intros s1 _ _.
  eapply safe_then; [eapply find_name_safe; by left|]. intros r s2 _ [_ Hr]. destruct r as [p|].
  - apply dynamic_cast_safe. by apply Hr.
  - by split.
Qed.

(** A new variable. *)
Lemma alloc_var_ok t cv c :
  var_good t cv -> conf_always c ->
  conf_always (snd (alloc_var (mkConfigVar t cv) c)) /\ conf_growth c (snd (alloc_var (mkConfigVar t cv) c)).
Proof.
  intros Hg [[Hl Hi] Hf Hv]. assert (s_vars c !! s_next c = None) as Hnew.
  { destruct (s_vars c !! s_next c) eqn:E; [|done]. apply Hf in E. lia. }
  split; [split; [split|..]|split]; simpl.
  - intros name p Hp. destruct (Hl name p Hp) as [Hlive Hlt]. split; [|lia].
    by rewrite lookup_insert_ne by lia.
  - exact Hi.
  - intros p v Hp. apply lookup_insert_Some in Hp as [[<- _]|[_ Hp]]; [lia|]. apply Hf in Hp. lia.
  - intros p t' cv' Hp. unfold has_var in Hp. simpl in Hp. apply lookup_insert_Some in Hp as [[_ E]|[_ Hp]].
    + pose proof (f_equal var_ty E) as Ht. simpl in Ht. subst t'. by apply mkConfigVar_inj in E as <-.
    + by eapply Hv.
  - intros p v Hp. exists v. split; [|done]. rewrite lookup_insert_ne; [done|]. intros <-. congruence.
  - done.
Qed.

Lemma insert_name_ok name p c :
  is_Some (s_vars c !! p) -> s_datas c !! name = None -> (forall n, s_datas c !! n <> Some p) -> conf_always c ->
  conf_always (insert_name name p c) /\ conf_growth c (insert_name name p c).
Proof.
  intros [v Hlive] Hnone Hnew [[Hl Hi] Hf Hv]. split; [split; [split|..]|split]; simpl; try done.
  - intros n q Hq. apply lookup_insert_Some in Hq as [[_ <-]|[_ Hq]]; [|by eapply Hl].
    split; [by exists v|by eapply Hf].
  - intros n1 n2 q Hq1 Hq2. apply lookup_insert_Some in Hq1 as [[<- <-]|[_ Hq1]], Hq2 as [[<- Hq2]|[_ Hq2]];
      [done|by destruct (Hnew n2)|by destruct (Hnew n1); subst q|by eapply Hi].
  - intros q w Hq. by exists w.
  - intros n q Hq. rewrite lookup_insert_ne; [done|]. congruence.
Qed.

Lemma settled_grow {A} (P : A -> config -> Prop) :
  (forall a s2 s3, conf_growth s2 s3 -> P a s2 -> P a s3) ->
  forall r s2 s3, conf_growth s2 s3 -> settled P r s2 -> settled P r s3.
Proof. intros HP r s2 s3 Hg. destruct r; simpl; eauto. Qed.

(** Registering a name, with the registry locked for writing. *)
Lemma register_safe held s t name d desc :
  (LRegistry, Exclusive) ∈ held -> s_datas s !! name = None -> allowed t d ->
  safe held s
    (p ← act (alloc_var (mkConfigVar t (new_ConfigVar name d desc)));
     act (modify (insert_name name p));;
     mret (Ret (Some p)))
    (holds held (settled (found t))).
Proof.
  intros Hin Hnone Hd.
  apply (safe_then _ _ _ _ (fun p s' => points (p, Some t) s' /\ s_datas s' !! name = None /\
    forall n, s_datas s' !! n <> Some p)).
  - apply safe_act. intros s1 [_ Hu] Hs1. pose proof (Hu _ Hin) as Hdatas. simpl in Hdatas.
    destruct (alloc_var_ok t (new_ConfigVar name d desc) s1) as [Hs2 Hg]; [by repeat constructor|done|].
    eexists _, _. split; [done|]. split; [exact Hs2|]. split; [|split; [done|]; split; [|split]].
    + split; [exact Hg|]. intros l _. destruct l as [|q|]; simpl; [done| |done]. intros v Hv.
      rewrite lookup_insert_ne; [done|]. intros <-. apply (ca_fresh _ Hs1) in Hv. lia.
    + eexists. apply lookup_insert_eq.
    + simpl. by rewrite Hdatas.
    + simpl. intros n Hn. apply (reg_live _ (ca_reg _ Hs1)) in Hn as [_ Hlt]. lia.
  - intros p s1 _ (Hp & Hn1 & Hnew). apply (safe_then _ _ _ _ (fun _ => points (p, Some t))).
    + apply safe_act. intros s2 [Hg Hu] Hs2. pose proof (Hu _ Hin) as Hdatas. simpl in Hdatas.
      destruct (points_grow _ _ _ Hg Hp) as [cv Hc].
      destruct (insert_name_ok name p s2) as [Hs3 Hg3]; [by eexists|by rewrite Hdatas|by rewrite Hdatas|done|].
      eexists tt, _. split; [done|]. split; [exact Hs3|]. split; [|split; [done|by exists cv]].
      split; [exact Hg3|]. intros l Hl. destruct l; simpl; [by destruct Hl|done|done].
    + intros [] s2 _ Hp2. split; [done|]. by intros q [= <-].
Qed.

Lemma Lookup_safe info s t name d desc :
  allowed t d -> safe [] s (Lookup_p info t name d desc) (holds [] (settled (found t))).
Proof using CS.
  intros Hd. apply conf_scope_grows; [apply above_nil|apply settled_grow, found_grow|]. intros s1 _ _.
  eapply safe_then; [eapply find_name_safe; by left|]. intros r s2 _ [Hname Hr]. destruct r as [p|].
  - specialize (Hr p eq_refl). eapply safe_then; [by apply dynamic_cast_safe|]. intros r s3 Hg3 Hf. destruct r as [q|].
    + split; [done|]. exact Hf.
    + apply (safe_then _ _ _ _ anything); [|by intros; split]. destruct info; [|by split].
      eapply safe_then; [|by intros; split]. apply toString_safe; [by constructor; [simpl; lia|constructor]|].
      by eapply points_grow.
  - destruct (has_char_not_of name_chars name); [by split|]. apply register_safe; [by left|done|done].
Qed.

Lemma visit_all_safe held s cb ps :
  (forall p w, settles (fst (cb p w))) -> safe held s (visit_all_p cb ps) (holds held (settled anything)).
Proof.
  intros Hcb. revert s. induction ps as [|p ps IH]; intros s; [by split|].
  apply (safe_and_then _ _ _ _ anything); [by apply safe_on_world|]. intros [] s1 _ _. apply IH.
Qed.

Lemma Visit_safe s cb :
  (forall p w, settles (fst (cb p w))) -> safe [] s (Visit_p cb) (holds [] (settled anything)).
Proof.
  intros Hcb. apply conf_scope_grows; [apply above_nil|by apply settled_grow|]. intros s1 _ _.
  apply (safe_then _ _ _ _ anything); [|intros; by apply visit_all_safe].
  apply safe_read. intros s2 _ _. by eexists.
Qed.

(** ** Loading *)

(** A document whose members hold values that may be given to variables. *)
Definition document_ok (root : node) : Prop :=
  forall key n, (key, n) ∈ ListAllMember [] root [] -> text_ok (node_text n).

Lemma load_loop_safe s l :
  (forall key n, (key, n) ∈ l -> text_ok (node_text n)) -> safe [] s (load_loop_p l) (holds [] anything).
Proof using CS.
  revert s. induction l as [|[key n] l IH]; intros s Hl; [by split|]. cbn [load_loop_p].
  apply (safe_then _ _ _ _ anything).
  - destruct key as [|a key]; [by split|]. eapply safe_then; [by apply LookupBase_safe, above_nil|].
    intros r s1 _ Hr. destruct r as [p|]; [|by split]. eapply safe_then; [|by intros; split].
    apply fromString_safe; [apply above_nil|by apply Hr|]. eapply Hl. by left.
  - intros [] s1 _ _. apply IH. intros key' n' Hin. eapply Hl. by right.
Qed.

Lemma file_access_safe {A} held s (m : M config A) :
  (LFiles, Exclusive) ∈ held ->
  (forall c, exists a c', m c = (Ret a, c') /\ same_vars c c') ->
  safe held s (act m) (holds held anything).
Proof.
  intros Hin Hm. apply safe_act. intros s' _ Hs. destruct (Hm s') as (a & c' & Ha & Hsame).
  exists a, c'. split; [exact Ha|]. split; [by apply (same_vars_ok _ _ Hsame)|].
  split; [apply (same_vars_guarantee _ _ _ Hsame Hs); by right|by split].
Qed.

Lemma unchanged_safe s force i mtime : safe [] s (unchanged_p force i mtime) (holds [] anything).
Proof.
  eapply safe_anything, (conf_scope _ _ _ _ _ (fun _ => True)); [apply above_nil|]. intros s1 _ _.
  assert (forall s, safe [(LFiles, Exclusive)] s (act (record_time i mtime);; mret false)
    (holds [(LFiles, Exclusive)] (fun (_ : bool) (_ : config) => True))) as Hrecord.
  { intros s2. apply (safe_then _ _ _ _ anything); [|by intros; split].
    apply file_access_safe; [by left|]. intros c. by eexists _, _. }
  destruct force; [apply Hrecord|]. apply (safe_then _ _ _ _ anything).
  - apply file_access_safe; [by left|]. intros c. by eexists _, _.
  - intros known s2 _ _. destruct (Z.eqb known mtime); [by split|apply Hrecord].
Qed.

Lemma load_files_safe {D} `{HP : Posix D} (d : D) garbage force files s :
  (forall file, settles (yaml_load_file file)) ->
  (forall file root, yaml_load_file file = Ret root -> document_ok root) ->
  safe [] s (load_files_p d garbage force files) (holds [] anything).
Proof using CS.
  intros Hset Hdoc. revert s. induction files as [|i files IH]; intros s; [by split|]. cbn [load_files_p].
  eapply safe_then; [apply unchanged_safe|]. intros skip s1 _ _.
  apply (safe_then _ _ _ _ anything); [|intros; apply IH]. destruct skip; [by split|].
  eapply safe_then; [apply (safe_lift _ _ _ (fun root _ => document_ok root)); [apply Hset|by intros root s' Hr; apply Hdoc in Hr]|].
  intros r s2 _ Hr. destruct r as [root|?|?|?]; [by apply load_loop_safe|by split|done|done].
Qed.

(** ** Whole threads *)
Section Clients.
Context (info : bool) {D : Type} `{HP : Posix D} (fuel : nat) (d : D) (garbage : str -> Z) (env : Env).
Local Abbreviation run o := (config_prog info fuel d garbage env o).

(** What a call must observe: pointers come from [known], values are allowed, listeners
    and callbacks return or throw; [clearListener] is not called. *)
Definition call_ok (known : list (nat * option ty)) (o : config_op (W := W)) : Prop :=
  match o with
  | CGetValue t p | CDelListener t p _ | CGetListener t p _ => (p, Some t) ∈ known
  | CToString p => (p, None) ∈ known
  | CSetValue t p v => (p, Some t) ∈ known /\ allowed t v
  | CFromString p val => (p, None) ∈ known /\ text_ok val
  | CAddListener t p cb => (p, Some t) ∈ known /\ answers cb
  | CClearListener _ _ => False
  | CLookup t _ default_value _ => allowed t default_value
  | CLookupOnly _ _ | CLookupBase _ => True
  | CVisit cb => forall p w, settles (fst (cb p w))
  | CLoadFromYaml root => document_ok root
  | CLoadFromConfDir path _ =>
      settles (ListAllFile fuel d [] (getAbsolutePath path env) $".yml") /\
      (forall file, settles (yaml_load_file file)) /\
      (forall file root, yaml_load_file file = Ret root -> document_ok root)
  | CWork m => forall w, settles (fst (m w))
  end.

(** The pointers an operation answers, and what else is known of its result. *)
Definition answered (o : config_op (W := W)) : res (op_result o) -> list (nat * option ty) :=
  match o with
  | CLookup t _ _ _ | CLookupOnly t _ => fun r =>
      match r with Ret (Some p) => [(p, Some t); (p, None)] | _ => [] end
  | CLookupBase _ => fun r => match r with Ret (Some p) => [(p, None)] | _ => [] end
  | _ => fun _ => []
  end.
Definition result_ok (o : config_op (W := W)) : res (op_result o) -> Prop :=
  match o with
  | CGetValue t _ => fun r => exists v, r = Ret v /\ allowed t v
  | _ => settles
  end.

Fixpoint client_ok (known : list (nat * option ty)) (cl : client (W := W)) : Prop :=
  match cl with
  | Finish => True
  | Call o k =>
      call_ok known o /\ forall r, result_ok o r -> client_ok (answered o r ++ known) (k r)
  end.

Lemma points_found t r c : found t r c ->
  Forall (fun x => points x c) (match r with Some p => [(p, Some t); (p, None)] | None => [] end).
Proof.
  intros Hf. destruct r as [p|]; [|constructor]. specialize (Hf p eq_refl).
  constructor; [exact Hf|]. constructor; [|constructor]. destruct Hf as [cv Hc]. by eexists.
Qed.

Definition call_post (o : config_op (W := W)) (r : res (op_result o)) c : Prop :=
  result_ok o r /\ Forall (fun x => points x c) (answered o r).

Lemma settled_settles {A} (P : A -> config -> Prop) r c : settled P r c -> settles r.
Proof. by destruct r. Qed.

(** Calls that answer no pointer. *)
Lemma plain_call_safe o (Q : op_result o -> config -> Prop) s :
  (forall r, settles r -> result_ok o r) -> (forall r, answered o r = []) ->
  safe [] s (run o) (holds [] (settled Q)) -> safe [] s (run o) (holds [] (call_post o)).
Proof.
  intros Hres Hans Hp. eapply safe_weaken; [exact Hp|]. intros r h s' [-> Hr]. split; [done|].
  split; [by eapply Hres, settled_settles|]. rewrite Hans. constructor.
Qed.

Lemma call_safe known o s :
  Forall (fun x => points x s) known -> call_ok known o -> safe [] s (run o) (holds [] (call_post o)).
Proof using CS.
  rewrite Forall_forall. intros Hk Ho. assert (forall p, above (LVar p) []) as Ha by (intros p; apply above_nil).
  destruct o as [t p|p|t p v|p val|t p cb|t p key|t p key|t p|t name dv desc|t name|name|cb|root|path force|m]; simpl in Ho.
  - cbn [config_prog]. unfold returning. eapply safe_then; [apply getValue_safe; [done|by apply Hk]|].
    intros v s' _ Hv. split; [done|]. split; [by exists v|constructor].
  - eapply plain_call_safe; [done|done|]. apply safe_returning, toString_safe; [done|by apply Hk].
  - destruct Ho. eapply plain_call_safe; [done|done|]. apply setValue_safe; [done|by apply Hk|done].
  - destruct Ho. eapply plain_call_safe; [done|done|]. apply safe_returning, fromString_safe; [done|by apply Hk|done].
  - destruct Ho. eapply plain_call_safe; [done|done|]. apply safe_returning, addListener_safe; [done|by apply Hk|done].
  - eapply plain_call_safe; [done|done|]. apply safe_returning, write_scope_safe; [done|by apply Hk|].
    intros cv. apply good_deleted.
  - eapply plain_call_safe; [done|done|]. apply safe_returning, getListener_safe; [done|by apply Hk].
  - done.
  - eapply safe_weaken; [by apply Lookup_safe|]. intros r h s' [-> Hr]. split; [done|].
    split; [by eapply settled_settles|]. destruct r as [r| | |]; [|constructor..].
    apply points_found in Hr. by destruct r.
  - eapply safe_weaken; [apply safe_returning, Lookup_only_safe, above_nil|]. intros r h s' [-> Hr]. split; [done|].
    split; [by eapply settled_settles|]. destruct r as [r| | |]; [|constructor..].
    apply points_found in Hr. by destruct r.
  - eapply safe_weaken; [apply safe_returning, LookupBase_safe, above_nil|]. intros r h s' [-> Hr]. split; [done|].
    split; [by eapply settled_settles|]. destruct r as [[p|]| | |]; [|constructor..]. constructor; [by apply Hr|constructor].
  - eapply plain_call_safe; [done|done|]. by apply Visit_safe.
  - eapply plain_call_safe; [done|done|]. apply safe_returning, load_loop_safe. exact Ho.
  - destruct Ho as (Hset & Hl & Hdoc). eapply plain_call_safe; [done|done|].
    apply (safe_and_then _ _ _ _ anything anything); [by apply safe_lift|]. intros files s1 _ _.
    apply safe_returning. by apply load_files_safe.
  - eapply plain_call_safe; [done|done|]. by apply safe_on_world.
Qed.

Lemma client_safe known (cl : client (W := W)) s :
  Forall (fun x => points x s) known -> client_ok known cl ->
  safe_program s (client_prog info fuel d garbage env cl).
Proof using CS.
  unfold safe_program. intros Hk Hc.
  eapply (safe_weaken _ _ _ (holds [] anything)); [|by intros ? h s' [-> _]].
  revert known s Hk Hc. induction cl as [|o k IH]; intros known s Hk Hc; [by split|].
  destruct Hc as [Ho Hc]. cbn [client_prog]. eapply safe_then; [by eapply call_safe|].
  intros r s1 Hg [Hr Hans]. apply (IH r (answered o r ++ known)); [|by apply Hc].
  apply Forall_app. split; [exact Hans|]. eapply Forall_impl; [exact Hk|]. intros x. by apply points_grow.
Qed.
End Clients.
End Protocol.

(** ** The claims *)

(** C17.  Threads that use the configuration never deadlock. An empty registry obeys the
    protocol. From any state that does, whatever number of threads make whatever calls
    but [clearListener], each choosing its next call by the results of those before,
    with pointers that were there or that lookups answered: under every interleaving of
    their single accesses no step is undefined or aborts; the registry, a variable and
    the table of times change only in steps of a thread that holds their lock for
    writing; names keep their variables and variables their types; every variable holds
    an allowed value, one that some caller gave it; unless every thread has come to its
    end some thread can take a step; no interleaving goes on for ever. Listeners and the
    callbacks of [Visit] return or throw and do not use the configuration themselves:
    one that does runs with the lock of its variable, or of the registry, held by its
    own thread, and can wait for itself. Accesses to a member are atomic in the model;
    [addListener] on two variables of one type changes [s_fun_id] under two different
    locks, which is a data race in C++ that the theorem does not excuse. *)
Theorem config_never_deadlocks (Y : Yaml) (CT : ConfigTypes) (casts : CastsSettle) (W : Type)
    (allowed : forall t, value t -> Prop) (info : bool) (D : Type) (os : Posix D) fuel (d : D) garbage env :
  (forall ids times (w : W), conf_always allowed (mkConfig ∅ ∅ 0 ids times w)) /\
  (forall (c : Config.config (W := W)) known clients cfg,
     conf_always allowed c -> Forall (fun x => points x c) known ->
     Forall (client_ok allowed fuel d env known) clients ->
     conc_reach (start_config c (client_prog info fuel d garbage env <$> clients)) cfg ->
     conf_always allowed (c_state cfg) /\ conf_growth c (c_state cfg) /\
     (forall i th cfg' l, c_threads cfg !! i = Some th -> conc_step i cfg = Some cfg' ->
        (l, Exclusive) ∉ th_held th -> conf_untouched l (c_state cfg) (c_state cfg')) /\
     (forall i, ~ goes_wrong i cfg) /\
     ((forall i th, c_threads cfg !! i = Some th -> ended th) \/ exists i cfg', conc_step i cfg = Some cfg')) /\
  (forall (e : nat -> Conc.config conf_lock (Config.config (W := W))),
     ~ forall n, exists i, conc_step i (e n) = Some (e (S n))).
Proof.
  split; [|split; [|apply conc_finite]].
  { intros ids times w. split; [split|..]; simpl; intros *; unfold has_var; by rewrite ?lookup_empty. }
  intros c known clients cfg Hc Hk Hcl Hr. pose (pr := conf_protocol (W := W) allowed).
  assert (Forall (safe_program c) (client_prog info fuel d garbage env <$> clients)) as Hsafe.
  { apply Forall_fmap. eapply Forall_impl; [exact Hcl|]. intros cl. by apply (client_safe allowed). }
  assert (forall l, lock_inv l c) as Hl by done.
  destruct (safe_programs_run (H := pr) c _ cfg Hc Hl Hsafe Hr) as (Hok & Hw & Hp).
  split; [exact (ok_always _ Hok)|].
  split; [by apply (reach_growth (H := pr) _ _ (start_ok (H := pr) _ _ Hc Hl Hsafe))|].
  split; [|by split]. intros i th cfg' l Hi Hs Hnot.
  exact (proj2 (step_guarantee (H := pr) i th cfg cfg' Hok Hi Hs) l Hnot).
Qed.

(** A program with two variables of one type; the first has a listener. *)
Definition hear (tag : Z) : on_change_cb (T := str) (W := list (Z * str * str)) :=
  fun old new w => (Ret tt, w ++ [(tag, old, new)]).

Definition sample_var (name : str) (cbs : list (Z * on_change_cb (T := str) (W := list (Z * str * str)))) :=
  mkConfigVar (CT := sample_types) true (mkVar name [] $"0" cbs).

Definition two_vars : Config.config (CT := sample_types) (W := list (Z * str * str)) :=
  mkConfig {[ $"a" := 0; $"b" := 1 ]} {[ 0 := sample_var $"a" [(1%Z, hear 1)]; 1 := sample_var $"b" [] ]} 2
    (fun _ => 1%Z) ∅ [].

Local Abbreviation sample_client := (client (CT := sample_types) (W := list (Z * str * str))).
Definition sample_thread (cl : sample_client) :=
  client_prog (Y := toy_yaml) true 0 conf_fs (fun _ => 0%Z) (mkEnv ∅ [] $"" $"" $"") cl.
Definition one_call (o : config_op (CT := sample_types) (W := list (Z * str * str))) : sample_client :=
  Call o (fun _ => Finish).

(** The value of a variable, and its listeners by their keys and tags. *)
Local Abbreviation sample_config := (Config.config (CT := sample_types) (W := list (Z * str * str))).
Definition value_at (p : nat) (c : sample_config) : option str :=
  match s_vars c !! p with Some v => Some (m_val (var_cv v)) | None => None end.
Definition tag_of (cb : on_change_cb (T := str) (W := list (Z * str * str))) : Z :=
  match snd (cb [] [] []) with (tag, _, _) :: _ => tag | [] => 0 end.
Definition listeners_at (p : nat) (c : sample_config) : option (list (Z * Z)) :=
  match s_vars c !! p with
  | Some v => Some (map (fun e => (fst e, tag_of (snd e))) (m_cbs (var_cv v)))
  | None => None
  end.

(** Threads that call one operation on the first variable. *)
Definition sets (v : str) : sample_client := one_call (CSetValue (CT := sample_types) true 0 v).
Definition clears : sample_client := one_call (CClearListener (CT := sample_types) true 0).

(** Looks a variable up and sets what it finds. *)
Definition finds_and_sets (v : str) : sample_client :=
  Call (CLookup (CT := sample_types) true $"c" $"0" []) (fun r =>
    match r with
    | Ret (Some p) => one_call (CSetValue (CT := sample_types) true p v)
    | _ => Finish
    end).

Definition digit (t : @ty sample_types) (v : @value sample_types t) : Prop := v ∈ [$"0"; $"1"; $"2"].

Lemma two_vars_always : conf_always digit two_vars.
Proof.
  assert (forall p v, s_vars two_vars !! p = Some v ->
    (p = 0 /\ v = sample_var $"a" [(1%Z, hear 1)]) \/ (p = 1 /\ v = sample_var $"b" [])) as Hv.
  { intros p v Hp. simpl in Hp. apply lookup_insert_Some in Hp as [[<- <-]|[_ Hp]]; [by left|right].
    by apply lookup_singleton_Some in Hp as [<- <-]. }
  split; [split|..].
  - intros name p Hp. simpl in Hp. apply lookup_insert_Some in Hp as [[_ <-]|[_ Hp]]; [split; [by eexists|simpl; lia]|].
    apply lookup_singleton_Some in Hp as [_ <-]. split; [by eexists|simpl; lia].
  - intros n1 n2 p H1 H2. simpl in H1, H2.
    apply lookup_insert_Some in H1 as [[<- <-]|[_ H1]], H2 as [[<- H2]|[_ H2]]; try done;
      rewrite ?lookup_singleton_Some in *; naive_solver.
  - intros p v Hp. destruct (Hv p v Hp) as [[-> _]|[-> _]]; simpl; lia.
  - intros p t cv Hp. destruct (Hv p _ Hp) as [[_ E]|[_ E]];
      pose proof (f_equal var_ty E) as Ht; simpl in Ht; subst t;
      apply (mkConfigVar_inj (CT := sample_types)) in E as ->; split; simpl; try by repeat constructor.
    all: try (by left).
Qed.

Lemma config_never_deadlocks_witness :
  conf_always digit two_vars /\
  forall cfg, conc_reach (start_config two_vars [sample_thread (sets $"1"); sample_thread (finds_and_sets $"2")]) cfg ->
    (forall i, ~ goes_wrong i cfg) /\
    ((forall i th, c_threads cfg !! i = Some th -> ended th) \/ exists i cfg', conc_step i cfg = Some cfg').
Proof.
  split; [exact two_vars_always|]. intros cfg Hr.
  destruct (config_never_deadlocks toy_yaml sample_types _ (list (Z * str * str)) digit true toy_fs _ 0 conf_fs
              (fun _ => 0%Z) (mkEnv ∅ [] $"" $"" $"")) as (_ & H & _).
  refine (proj2 (proj2 (proj2 (H two_vars [(0, Some true)] [sets $"1"; finds_and_sets $"2"] cfg two_vars_always _ _ Hr)))).
  - repeat constructor. by eexists.
  - constructor; [|constructor; [|constructor]].
    + split; [|done]. split; [by left|]. by right; left.
    + split; [by left|]. intros r Hres. destruct r as [[p|]|e|w|w]; [|exact I..].
      split; [|done]. split; [by left|]. by right; right; left.
Defined.

(** [clearListener] while another thread is in the loop of [setValue]: both hold the
    variable's lock, for reading, and the iterator of the loop comes to dangle. *)
Lemma clearListener_under_setValue :
  exists sched cfg,
    conc_run sched (start_config two_vars [sample_thread (sets $"1"); sample_thread clears]) = Some cfg /\
    goes_wrong 0 cfg.
Proof.
  exists (replicate 3 0 ++ replicate 3 1). eexists. split; [vm_compute; reflexivity|]. by vm_compute.
Qed.

(** The value a listener was told last need not be the one that is stored: [setValue]
    tells the listeners under the lock for reading and stores the value later, under
    the lock for writing.  Two threads set the same variable to 1 and to 2: the
    listener is told of 1 and then of 2, both times with the same old value, and the
    variable ends with 1. *)
Theorem last_told_is_not_stored :
  exists sched cfg,
    conc_run sched (start_config two_vars
      [sample_thread (sets $"1"); sample_thread (sets $"2")]) = Some cfg /\
    (forall i th, c_threads cfg !! i = Some th -> ended th) /\
    s_world (c_state cfg) = [(1%Z, $"0", $"1"); (1%Z, $"0", $"2")] /\
    value_at 0 (c_state cfg) = Some $"1".
Proof.
  destruct (run_computed (start_config two_vars [sample_thread (sets $"1"); sample_thread (sets $"2")])
    (replicate 6 0 ++ replicate 9 1 ++ replicate 3 0)
    (fun cfg => all_ended cfg && (bool_decide (s_world (c_state cfg) = [(1%Z, $"0", $"1"); (1%Z, $"0", $"2")]) &&
       bool_decide (value_at 0 (c_state cfg) = Some $"1"))))
    as (cfg & Hrun & [Hend [Hw Hv]%andb_true_iff]%andb_true_iff); [by vm_compute|].
  exists (replicate 6 0 ++ replicate 9 1 ++ replicate 3 0), cfg. split; [exact Hrun|].
  split; [exact (all_ended_spec cfg Hend)|].
  split; [exact (bool_decide_eq_true_1 _ Hw)|exact (bool_decide_eq_true_1 _ Hv)].
Qed.

(** A thread that adds three listeners to the first variable and then tells the ids it
    got, and one that adds a listener to the second. *)
Definition adds_three : sample_client :=
  Call (CAddListener (CT := sample_types) true 0 (hear 10)) (fun r1 =>
  Call (CAddListener (CT := sample_types) true 0 (hear 20)) (fun r2 =>
  Call (CAddListener (CT := sample_types) true 0 (hear 30)) (fun r3 =>
  one_call (CWork (fun w => (Ret tt, map (fun r => (match r with Ret id => id | _ => 0%Z end, [], [])) [r1; r2; r3])))))).
Definition adds_other : sample_client := one_call (CAddListener (CT := sample_types) true 1 (hear 40)).

(** Listeners can be lost: all variables of one type share the counter [s_fun_id], and
    [addListener] changes it under the lock of its own variable only.  One thread
    adds three listeners to a variable while another adds one to another variable: the
    second and the third get the same id, 3, and the third replaces the second, which
    nobody removed. *)
Theorem added_listener_is_lost :
  exists sched cfg,
    conc_run sched (start_config two_vars [sample_thread adds_three; sample_thread adds_other]) = Some cfg /\
    (forall i th, c_threads cfg !! i = Some th -> ended th) /\
    (fun x => fst (fst x)) <$> s_world (c_state cfg) = [2; 3; 3]%Z /\
    listeners_at 0 (c_state cfg) = Some [(1, 1); (2, 10); (3, 30)]%Z.
Proof.
  set (sched := [1; 1] ++ replicate 14 0 ++ [1] ++ replicate 8 0 ++ replicate 4 1).
  destruct (run_computed (start_config two_vars [sample_thread adds_three; sample_thread adds_other]) sched
    (fun cfg => all_ended cfg && (bool_decide ((fun x => fst (fst x)) <$> s_world (c_state cfg) = [2; 3; 3]%Z) &&
       bool_decide (listeners_at 0 (c_state cfg) = Some [(1, 1); (2, 10); (3, 30)]%Z))))
    as (cfg & Hrun & [Hend [Hw Hv]%andb_true_iff]%andb_true_iff); [by vm_compute|].
  exists sched, cfg. split; [exact Hrun|].
  split; [exact (all_ended_spec cfg Hend)|].
  split; [exact (bool_decide_eq_true_1 _ Hw)|exact (bool_decide_eq_true_1 _ Hv)].
Qed.
