(* ===== verification/System.v ===== *)
(** * Configuration and loggers together

    Two calls tie the components together.  The variable "logs" has a listener, which
    [LogIniter] installs and which configures the loggers anew
    ([on_logger_conf_changed_p]): it runs inside [ConfigVar::setValue], with the lock of
    the variable held, and takes the locks of the logging module.  And the configuration
    logs: [Lookup] with the lock of the registry held, [toString], [fromString] and
    [LoadFromConfDir] without.  Here the operations of ConfigConc.v that do so are
    written with these calls, over the state and the locks of both components; the
    others run as they are.  The locks of the configuration come before those of the
    loggers, so threads that use both never deadlock. *)
From stdpp Require Import base gmap list strings.
From Stdlib Require Import Ascii.
From S2P Require Import Prelude Util Env LogFormatter Log Conc ConcSum Config LogConfig.
From S2P Require Import LogConc LogProtocol ConfigConc ConfigThreads.

Section System.
Context `{Y : Yaml} `{CT : ConfigTypes} {W : Type}.
Context {D : Type} `{HP : Posix D} `{HF : FileSink D}.
Context (strftime_local : str -> Z -> option str).
(** The type [std::set<LogDefine>] among those of the variables; the variable
    [g_log_defines] and the id of [LogIniter]'s listener on it. *)
Context (logs_ty : ty) (as_defines : value logs_ty -> list LogDefine).
Context (g_log_defines : nat) (log_key : Z) (env : Env).
(** config.cc's [g_logger]; what [TypeToName] makes of the types, and [what()] of the
    exceptions. *)
Context (g_logger : nat) (type_name : ty -> str) (what : str -> str).

Local Abbreviation config := (Config.config (W := W)).
Local Abbreviation shared := (log_world D * LoggerManager)%type.
Local Abbreviation sprog := (prog (conf_lock + LogConc.lock) (config * shared)).

(** ** Logging *)

(** [LIONET_LOG_LEVEL(logger, level) << ...]: the text is made when the level is high
    enough. *)
Definition LIONET_LOG (p : nat) (site : log_site) (level : Level) (text : sprog str) : sprog unit :=
  lv ← right_p (read_logger p m_level);
  if level_geb level lv then
    t ← text;
    right_p (logger_log_p strftime_local p p level (site_event site p level t))
  else mret tt.

(** [LIONET_LOG_LEVEL(LIONET_LOG_ROOT(), level) << ...] *)
Definition log_root (site : log_site) (level : Level) (text : sprog str) : sprog unit :=
  p ← right_p (read_manager mgr_root);
  LIONET_LOG p site level text.

(** The calls take the site of a line of the source: the thread, its name, its fiber and
    the time. *)
Implicit Types here : str -> Z -> log_site.

(** ** Setting the variable "logs" *)

(** [i.second(m_val, v)]: the callable in the map is called; behind the id of
    [LogIniter]'s listener it does nothing to the rest of the program, and this is what
    it does to the loggers. *)
Definition call_logs here (key : Z) (v : value logs_ty) : sprog (res unit) :=
  and_then (left_p (attempt (call_listener logs_ty g_log_defines key v))) (fun _ =>
    if Z.eqb key log_key then
      old ← left_p (read_var logs_ty g_log_defines m_val);
      returning (right_p (on_logger_conf_changed_p strftime_local env (here $"log.cc" 723%Z)
        (as_defines old) (as_defines v)))
    else mret (Ret tt)).

Fixpoint notify_logs here (v : value logs_ty) (keys : list Z) : sprog (res unit) :=
  match keys with
  | [] => mret (Ret tt)
  | key :: keys' =>
      and_then (call_logs here key v) (fun _ =>
        left_p (act (next_listener logs_ty g_log_defines key));; notify_logs here v keys')
  end.

Definition setValue_logs here (v : value logs_ty) : sprog (res unit) :=
  and_then
    (guarded Shared (inl (LVar g_log_defines))
       (equal ← left_p (read_var logs_ty g_log_defines (fun cv => value_eqb logs_ty v (m_val cv)));
        if (equal : bool) then mret (Ret true)
        else
          keys ← left_p (read_var logs_ty g_log_defines (fun cv => map fst (m_cbs cv)));
          and_then (notify_logs here v keys) (fun _ => mret (Ret false))))
    (fun returned : bool =>
       if returned then mret (Ret tt)
       else
         guarded Exclusive (inl (LVar g_log_defines))
           (left_p (write_var logs_ty g_log_defines (with_val v)));;
         mret (Ret tt)).

(** ** Variables *)
Definition setValue_s here (t : ty) (p : nat) (v : value t) : sprog (res unit) :=
  if decide (p = g_log_defines) then
    match decide (t = logs_ty) with
    | left e => setValue_logs here (eq_rect t value v logs_ty e)
    | right _ => left_p (setValue_p t p v)
    end
  else left_p (setValue_p t p v).

Definition fromString_s here (p : nat) (val : str) : sprog bool :=
  t ← left_p (act (dynamic_type p));
  r ← and_then (left_p (attempt (lift_res (value_from t val)))) (setValue_s here t p);
  match r with
  | Ret _ => mret true
  | Throw e =>
      log_root (here $"config.h" 346%Z) ERROR
        (name ← left_p (read_var t p cv_name);
         mret ($"ConfigVar::fromString exception" ++ what e ++ $" convert: string to " ++ type_name t ++
               $" name=" ++ name ++ $" - " ++ val));;
      mret false
  | _ => mret false
  end.

Definition toString_s here (p : nat) : sprog str :=
  t ← left_p (act (dynamic_type p));
  r ← guarded Shared (inl (LVar p))
        (left_p (attempt (cv ← deref t p; lift_res (value_to t (m_val cv)))));
  match r with
  | Ret s => mret s
  | Throw e =>
      log_root (here $"config.h" 329%Z) ERROR
        (name ← left_p (read_var t p cv_name);
         mret ($"ConfigVar::toString exception" ++ what e ++ $" convert" ++ type_name t ++ $" to string" ++
               $" name=" ++ name));;
      mret []
  | _ => mret []
  end.

(** ** The registry *)
Definition Lookup_s here (t : ty) (name : str) (default_value : value t) (desc : str) : sprog (res (option nat)) :=
  guarded Exclusive (inl LRegistry)
    (found ← left_p (act (LookupBase name));
     match found with
     | Some p =>
         tmp ← left_p (act (dynamic_cast t p));
         match tmp with
         | Some q =>
             log_root (here $"config.h" 461%Z) INFO (mret ($"Lookup name=" ++ name ++ $" exists"));;
             mret (Ret (Some q))
         | None =>
             log_root (here $"config.h" 464%Z) INFO
               (real ← left_p (act (dynamic_type p));
                s ← toString_s here p;
                mret ($"Lookup name=" ++ name ++ $" exists but type not " ++ type_name t ++
                      $" real_type= " ++ type_name real ++ $" " ++ s));;
             mret (Ret None)
         end
     | None =>
         if has_char_not_of name_chars name then
           log_root (here $"config.h" 475%Z) ERROR (mret ($"Lookup name invalid" ++ name));;
           mret (Throw ($"std::invalid_argument: " ++ name))
         else
           left_p
             (p ← act (alloc_var (mkConfigVar t (new_ConfigVar name default_value desc)));
              act (modify (insert_name name p));;
              mret (Ret (Some p)))
     end).

(** ** Loading documents *)
Fixpoint ListAllMember_s here (prefix : str) (n : node) (output : list (str * node)) : sprog (list (str * node)) :=
  if has_char_not_of name_chars prefix then
    LIONET_LOG g_logger (here $"config.cc" 24%Z) ERROR
      (mret ($"Config invalid name: " ++ prefix ++ $" : " ++ yaml_emit n));;
    mret output
  else
    let output := output ++ [(prefix, n)] in
    match n with
    | Map m =>
        (fix each (m : list (node * node)) (output : list (str * node)) :=
           match m with
           | [] => mret output
           | (k, v) :: m' =>
               output ← ListAllMember_s here (child_prefix prefix k) v output;
               each m' output
           end) m output
    | _ => mret output
    end.

Definition load_one_s here (key : str) (n : node) : sprog unit :=
  match key with
  | [] => mret tt
  | _ =>
      var ← left_p (LookupBase_p (map tolower key));
      match var with
      | Some p => fromString_s here p (node_text n);; mret tt
      | None => mret tt
      end
  end.

Fixpoint load_loop_s here (all_nodes : list (str * node)) : sprog unit :=
  match all_nodes with
  | [] => mret tt
  | (key, n) :: rest => load_one_s here key n;; load_loop_s here rest
  end.

Definition LoadFromYaml_s here (root : node) : sprog unit :=
  all_nodes ← ListAllMember_s here [] root [];
  load_loop_s here all_nodes.

Context {C : Type} `{HC : Posix C} (fuel : nat) (d : C) (garbage : str -> Z) (cenv : Env).

Fixpoint load_files_s here (force : bool) (files : list str) : sprog unit :=
  match files with
  | [] => mret tt
  | i :: rest =>
      skip ← left_p (unchanged_p force i (file_time d garbage i));
      (if (skip : bool) then mret tt
       else
         root ← left_p (attempt (lift_res (yaml_load_file i)));
         match root with
         | Ret root =>
             LoadFromYaml_s here root;;
             LIONET_LOG g_logger (here $"config.cc" 89%Z) INFO (mret ($"LoadConfFile file=" ++ i ++ $" OK"))
         | _ => LIONET_LOG g_logger (here $"config.cc" 91%Z) ERROR (mret ($"LoadConfFile file=" ++ i ++ $" failed"))
         end);;
      load_files_s here force rest
  end.

(** ** Threads *)

(** The operations of the configuration. *)
Definition config_call here (o : config_op (W := W)) : sprog (res (op_result o)) :=
  match o with
  | CToString p => returning (toString_s here p)
  | CSetValue t p v => setValue_s here t p v
  | CFromString p val => returning (fromString_s here p val)
  | CLookup t name default_value desc => Lookup_s here t name default_value desc
  | CLoadFromYaml root => returning (LoadFromYaml_s here root)
  | CLoadFromConfDir path force =>
      and_then (left_p (attempt (lift_res (ListAllFile fuel d [] (getAbsolutePath path cenv) $".yml"))))
        (fun files => returning (load_files_s here force files))
  | o => left_p (config_prog true fuel d garbage cenv o)
  end.

(** A thread: calls of both components; what comes next depends on what the calls of the
    configuration returned or threw. *)
Inductive system_client : Type :=
| SFinish
| SConfig (here : str -> Z -> log_site) (o : config_op (W := W)) (k : res (op_result o) -> system_client)
| SLog (o : conc_op) (k : system_client).

Fixpoint system_prog (cl : system_client) : sprog unit :=
  match cl with
  | SFinish => mret tt
  | SConfig here o k => r ← config_call here o; system_prog (k r)
  | SLog o k => right_p (op_prog strftime_local o);; system_prog k
  end.

(** The static variables: log.cc's [g_log_defines] and [__log_init], config.cc's
    [g_logger].  The callable in the map only holds the place of [LogIniter]'s listener,
    which [call_logs] calls. *)
Definition new_g_log_defines here (none : value logs_ty) : sprog nat :=
  v ← Lookup_s here logs_ty $"logs" none $"log config";
  match v with
  | Ret (Some p) => mret p
  | Ret None => left_p (act (ub $"null pointer"))
  | _ => left_p (act (fun c => (Abort $"std::terminate", c)))
  end.

Definition LogIniter_listener : on_change_cb (T := value logs_ty) (W := W) := fun _ _ w => (Ret tt, w).

Definition static_init here (none : value logs_ty) : sprog (nat * Z * nat) :=
  p ← new_g_log_defines here none;
  key ← left_p (addListener_p logs_ty p LogIniter_listener);
  logger ← right_p (getLogger_p $"system");
  mret (p, key, logger).

(** ** Safety *)
Context `{CS : !CastsSettle} `{HL : !SinkLaws D} `{HYL : !YamlLaws}.
Context `{dates : !StrftimeLaws strftime_local}.
(** The root logger, and the values that the threads give to variables: those of "logs"
    describe loggers whose files have names. *)
Context (root : nat) (allowed : forall t, value t -> Prop).
Context (allowed_logs : forall v, allowed logs_ty v -> Forall (define_allowed (D := D) strftime_local None) (as_defines v)).

#[local] Instance conf_part : Protocol conf_lock config := conf_protocol (W := W) allowed.
#[local] Instance log_part : Protocol LogConc.lock shared := log_protocol strftime_local root None (fun _ => False).

Lemma conf_rank_bound (l : conf_lock) : lock_rank l < 2.
Proof. destruct l; simpl; lia. Qed.

#[local] Instance system_protocol : Protocol (conf_lock + LogConc.lock) (config * shared) :=
  sum_protocol 2.

Local Abbreviation holds held := (keeps_locks (S := config * shared) (L := conf_lock + LogConc.lock) held).
Local Abbreviation logs_pointer := (g_log_defines, Some logs_ty).

(** A part of the configuration that may throw. *)
Lemma left_settled {A} held s (p : prog conf_lock config (res A)) P :
  safe held (fst s) p (keeps_locks held (settled P)) ->
  safe (lefts held) s (left_p p) (holds (lefts held) (settled (fun a s' => P a (fst s')))).
Proof.
  intros Hp. eapply safe_weaken; [by apply left_part|]. intros r h s' [-> Hr]. split; [done|]. by destruct r.
Qed.

Lemma points_kept x s s' : growth s s' -> points x (fst s) -> points x (fst s').
Proof. intros [Hg _]. by apply points_grow. Qed.

(** The lines are logged at times whose dates have their usual width. *)
Definition timely here : Prop := forall file line, site_ok (here file line).

(** What the listener of "logs" does, for any values of the variable. *)
Lemma reconfigure_safe s site old new :
  site_ok site -> allowed logs_ty old -> allowed logs_ty new ->
  safe [] s (on_logger_conf_changed_p strftime_local env site (as_defines old) (as_defines new))
    (keeps_locks [] anything).
Proof using HL dates allowed_logs.
  intros Hsite Ho%allowed_logs Hn%allowed_logs. apply on_logger_conf_changed_safe; [exact dates|exact Hn| |].
  - eapply Forall_impl; [exact Ho|]. by intros i [Hf _].
  - split; [by apply site_event_time|by intros []].
Qed.

(** The listeners are called with the variable's lock held for reading: the loggers'
    locks come after it, and neither they nor other threads change the variable. *)
Lemma call_logs_safe here s cv key v :
  timely here -> has_var (fst s) g_log_defines logs_ty cv -> var_good allowed logs_ty cv -> key ∈ map fst (m_cbs cv) ->
  allowed logs_ty v ->
  let held := lefts [(LVar g_log_defines, Shared)] in
  safe held s (call_logs here key v) (holds held (settled (fun _ s' => has_var (fst s') g_log_defines logs_ty cv))).
Proof using HL dates allowed_logs.
  intros Htime Hc Hg Hkey Hv held. assert ((LVar g_log_defines, Shared) ∈ [(LVar g_log_defines, Shared)]) as Hin by (by left).
  eapply safe_and_then.
  { apply (left_settled [(LVar g_log_defines, Shared)] s _ (fun _ c => has_var c g_log_defines logs_ty cv)).
    by eapply call_listener_safe. }
  intros [] s1 _ Hc1. destruct (Z.eqb key log_key); [|by split].
  eapply safe_then.
  { apply (left_part 2 [(LVar g_log_defines, Shared)] s1 _ (fun old c => old = m_val cv /\ has_var c g_log_defines logs_ty cv)).
    apply safe_read. intros c [_ Hu] Hs. pose proof (Hu _ Hin _ Hc1) as Hc'. exists (m_val cv).
    split; [by rewrite (bind_ret _ _ _ _ _ (deref_has _ _ _ _ Hc'))|by split]. }
  intros old s2 _ [-> Hc2]. apply safe_returning.
  eapply safe_weaken; [apply (right_part 2 conf_rank_bound [(LVar g_log_defines, Shared)]), reconfigure_safe;
    [apply Htime|apply (vg_allowed _ _ _ Hg)|exact Hv]|].
  intros u h s3 [-> [_ [_ Hu]]]. split; [done|]. exact (Hu _ Hin _ Hc2).
Qed.

Lemma notify_logs_safe here s cv v keys :
  timely here -> has_var (fst s) g_log_defines logs_ty cv -> var_good allowed logs_ty cv -> allowed logs_ty v ->
  (forall k, k ∈ keys -> k ∈ map fst (m_cbs cv)) ->
  let held := lefts [(LVar g_log_defines, Shared)] in
  safe held s (notify_logs here v keys) (holds held (settled anything)).
Proof using HL dates allowed_logs.
  intros Htime Hc Hg Hv Hk held. revert s Hc. induction keys as [|key keys IH]; intros s Hc; [by split|]. cbn [notify_logs].
  assert (key ∈ map fst (m_cbs cv)) as Hkey by (apply Hk; by left).
  eapply safe_and_then; [by apply call_logs_safe|]. intros [] s1 _ Hc1.
  eapply safe_then; [apply (left_part 2 [(LVar g_log_defines, Shared)] _ _ (fun _ c => has_var c g_log_defines logs_ty cv)); eapply next_listener_safe; [by left|exact Hc1|exact Hkey]|].
  intros [] s2 _ Hc2. apply IH; [|exact Hc2]. intros k Hin2. apply Hk. by right.
Qed.

Lemma setValue_logs_safe here s v :
  timely here -> points logs_pointer (fst s) -> allowed logs_ty v -> safe [] s (setValue_logs here v) (holds [] (settled anything)).
Proof using HL dates allowed_logs.
  intros Htime Hp Hv. set (held := lefts (L2 := LogConc.lock) [(LVar g_log_defines, Shared)]).
  apply (safe_and_then _ _ _ _ anything).
  - eapply safe_weaken; [apply (safe_scope _ _ _ _ _ (fun r _ => settles r)); [apply above_nil|done|]|
      by intros r h s' [-> Hr]; destruct r].
    intros s1 Hr1 Hs1 _. pose proof (points_kept _ _ _ (proj1 Hr1) Hp) as Hp1.
    apply (safe_weaken _ _ _ (holds held (fun r _ => settles r))); [|by intros r h s' [-> Hr]].
    eapply (safe_then _ _ _ _ anything); 
      [by apply (left_part 2 [(LVar g_log_defines, Shared)] _ _ (fun _ _ => True)), safe_deref|].
    intros equal s2 Hg2 _. destruct equal; [by split|]. pose proof (points_kept _ _ _ Hg2 Hp1) as Hp2.
    eapply safe_then.
    { apply (left_part 2 [(LVar g_log_defines, Shared)] _ _ (fun keys c => exists cv,
        has_var c g_log_defines logs_ty cv /\ var_good allowed logs_ty cv /\ keys = map fst (m_cbs cv))).
      apply safe_deref; [exact Hp2|]. intros cv s' _ Hs' Hc. exists cv. split; [done|].
      split; [by apply (ca_vars _ _ Hs' g_log_defines)|done]. }
    intros keys s3 _ (cv & Hc & Hg & ->).
    eapply safe_weaken; [apply (safe_and_then _ _ _ _ anything anything)|by intros r h s' [-> H]; destruct r].
    + by apply (notify_logs_safe here _ cv).
    + intros [] s4 _ _. by split.
  - intros [] s1 Hg1 _; [by split|]. apply (safe_then _ _ _ _ anything); [|by intros; split].
    apply (safe_scope _ _ _ _ _ (fun _ _ => True)); [apply above_nil|done|]. intros s2 Hr2 _ _.
    eapply safe_weaken; [apply (left_part 2 [(LVar g_log_defines, Exclusive)] _ _ (fun _ _ => True)), safe_write_var|
      by intros u h s3 [-> _]].
    + by left.
    + eapply points_kept; [apply Hr2|]. by eapply points_kept.
    + intros cv. by apply good_with_val.
Qed.

(** *** Logging *)

(** The root logger and config.cc's. *)
Definition system_logger (p : nat) (s : config * shared) : Prop := has_logger p (snd s).

Lemma system_logger_kept p s s' : growth s s' -> system_logger p s -> system_logger p s'.
Proof. intros [_ Hg]. by apply has_logger_grows. Qed.

(** A line may be logged with locks of the configuration in hand: the loggers' come
    after them. *)
Lemma LIONET_LOG_safe held s p site level text :
  site_ok site -> system_logger p s ->
  (forall s', growth s s' -> safe (lefts held) s' text (holds (lefts held) anything)) ->
  safe (lefts held) s (LIONET_LOG p site level text) (holds (lefts held) anything).
Proof using dates.
  intros Hsite Hp Ht. eapply safe_then.
  { apply (right_part 2 conf_rank_bound held s _ (fun _ _ => True)).
    eapply safe_anything, (read_logger_safe strftime_local root None (fun _ => False) _ _ _ _ (fun _ _ => True)); [exact Hp|done]. }
  intros lv s1 Hg1 _. destruct (level_geb level lv); [|by split].
  eapply safe_then; [by apply Ht|]. intros t s2 Hg2 _.
  eapply safe_weaken; [apply (right_part 2 conf_rank_bound held s2 _ (fun _ _ => True))|by intros u h s3 [-> _]].
  eapply safe_anything, logger_log_safe; [apply above_nil| |done|split; [by apply site_event_time|by intros []]].
  do 2 (eapply system_logger_kept; [eassumption|]). exact Hp.
Qed.

Lemma log_root_safe held s site level text :
  site_ok site ->
  (forall s', growth s s' -> safe (lefts held) s' text (holds (lefts held) anything)) ->
  safe (lefts held) s (log_root site level text) (holds (lefts held) anything).
Proof using dates.
  intros Hsite Ht. eapply safe_then.
  { apply (right_part 2 conf_rank_bound held s _ (fun p s' => has_logger p s')).
    apply read_manager_safe. intros s1 _ Hs1. destruct (la_root _ _ _ _ Hs1) as [-> Hr]. exact Hr. }
  intros p s1 Hg1 [Hp _]. apply LIONET_LOG_safe; [exact Hsite|exact Hp|]. intros s2 Hg2. apply Ht. by etransitivity.
Qed.

(** *** Variables *)

Lemma setValue_s_safe here s t p v :
  timely here -> points logs_pointer (fst s) -> points (p, Some t) (fst s) -> allowed t v ->
  safe [] s (setValue_s here t p v) (holds [] (settled anything)).
Proof using HL dates allowed_logs.
  intros Htime Hlogs Hp Hv.
  assert (safe [] s (left_p (setValue_p t p v)) (holds [] (settled anything))) as Hplain.
  { apply (left_settled [] s _ anything), setValue_safe; [apply above_nil|done|done]. }
  unfold setValue_s. destruct (decide (p = g_log_defines)) as [->|]; [|done].
  destruct (decide (t = logs_ty)) as [e|]; [|done]. apply setValue_logs_safe; [done|done|].
  clear - Hv. by destruct e.
Qed.

Lemma dynamic_type_s_safe held s p :
  points (p, None) (fst s) ->
  safe (lefts held) s (left_p (act (dynamic_type p)))
    (holds (lefts held) (fun t s' => points (p, Some t) (fst s'))).
Proof. intros Hp. by apply (left_part 2 held s _ (fun t => points (p, Some t))), safe_dynamic_type. Qed.

Lemma name_safe held s t p (f : str -> str) :
  points (p, Some t) (fst s) ->
  safe (lefts held) s (name ← left_p (read_var t p cv_name); mret (f name)) (holds (lefts held) anything).
Proof.
  intros Hp. eapply safe_then; [|by intros].
  by apply (left_part 2 held s _ (fun _ _ => True)), safe_deref.
Qed.

Lemma fromString_s_safe here s p val :
  timely here -> points logs_pointer (fst s) -> points (p, None) (fst s) -> text_ok allowed val ->
  safe [] s (fromString_s here p val) (holds [] anything).
Proof using CS HL dates allowed_logs.
  intros Htime Hlogs Hp Hval. eapply safe_then; [by apply (dynamic_type_s_safe [])|]. intros t s1 Hg1 Hp1. cbv beta.
  eapply safe_then; [apply (safe_and_then _ _ _ _ (fun v _ => allowed t v) anything)|].
  - apply (left_settled [] s1 _ (fun v _ => allowed t v)), safe_lift; [apply from_settles|]. intros v s'. apply Hval.
  - intros v s2 Hg2 Hv. apply setValue_s_safe; [done| |by eapply points_kept|done].
    eapply points_kept; [exact Hg2|]. by eapply points_kept.
  - intros r s2 Hg2 Hr. destruct r as [[]|e| |]; [done| |done|done].
    eapply safe_then; [|by intros]. apply (log_root_safe []); [apply Htime|]. intros s3 Hg3. apply (name_safe []).
    eapply points_kept; [exact Hg3|]. by eapply points_kept.
Qed.

Lemma toString_s_safe here held s p :
  timely here -> above (LVar p) held -> points (p, None) (fst s) ->
  safe (lefts held) s (toString_s here p) (holds (lefts held) anything).
Proof using CS dates.
  intros Htime Ha Hp. eapply safe_then; [by apply dynamic_type_s_safe|]. intros t s1 Hg1 Hp1. cbv beta.
  apply (safe_then _ _ _ _ (settled anything)).
  - apply safe_scope; [by apply above_left|by intros [] s2 s3|]. intros s2 [Hg2 _] _ _.
    pose proof (points_kept _ _ _ Hg2 Hp1) as Hp2.
    eapply safe_weaken; [apply (left_settled ((LVar p, Shared) :: held) s2 _ (fun _ _ => True))|
      by intros r h s3 [-> Hr]; repeat split].
    apply safe_attempt. intros c [Hgc _] Hc2. destruct (points_grow _ _ _ Hgc Hp2) as [cv Hc].
    exists (value_to t (m_val cv)), c. split; [by rewrite (bind_ret _ _ _ _ _ (deref_has _ _ _ _ Hc))|].
    split; [exact Hc2|]. split; [by split|]. pose proof (to_settles t (m_val cv)) as Hset. by destruct (value_to t (m_val cv)).
  - intros r s2 Hg2 Hr. destruct r as [text|e| |]; [by split| |done|done].
    eapply safe_then; [|by intros; split]. apply log_root_safe; [apply Htime|]. intros s3 Hg3. apply name_safe.
    eapply points_kept; [exact Hg3|]. by eapply points_kept.
Qed.

(** *** The registry *)

Lemma Lookup_s_safe here s t name v desc :
  timely here -> allowed t v ->
  safe [] s (Lookup_s here t name v desc) (holds [] (settled (fun r s' => found t r (fst s')))).
Proof using CS dates.
  intros Htime Hv. set (held := [(LRegistry, Exclusive)]).
  apply (safe_scope _ _ _ _ _ (settled (fun r s' => found t r (fst s')))); [apply above_nil| |].
  { intros r s2 s3 [[Hg _] _]. destruct r; simpl; [by apply found_grow|done..]. }
  intros s1 _ _ _.
  apply (safe_weaken _ _ _ (holds (lefts held) (settled (fun r s' => found t r (fst s')))));
    [|by intros r h s2 [-> Hr]].
  eapply safe_then.
  { apply (left_part 2 held s1 _ (fun r c => s_datas c !! name = r /\ forall p, r = Some p -> points (p, None) c)).
    eapply find_name_safe. by left. }
  intros r s2 _ [Hname Hr]. destruct r as [p|].
  - specialize (Hr p eq_refl). eapply safe_then.
    { apply (left_part 2 held s2 _ (found t)). by apply dynamic_cast_safe. }
    intros r s3 Hg3 Hf. assert (points (p, None) (fst s3)) as Hp3 by (by eapply points_kept). destruct r as [q|].
    + eapply safe_then.
      { apply (log_root_safe held); [apply Htime|]. by intros s4 _; split. }
      intros u s4 Hg4 _. split; [done|]. eapply found_grow; [apply Hg4|exact Hf].
    + eapply safe_then; [|by intros; split]. apply (log_root_safe held); [apply Htime|]. intros s4 Hg4.
      pose proof (points_kept _ _ _ Hg4 Hp3) as Hp4. eapply safe_then; [by apply (dynamic_type_s_safe held)|].
      intros real s5 Hg5 _. eapply safe_then; [|by intros; split]. apply (toString_s_safe here held); [done| |by eapply points_kept].
      constructor; [simpl; lia|constructor].
  - destruct (has_char_not_of name_chars name).
    + eapply safe_then; [|by intros; split]. apply (log_root_safe held); [apply Htime|]. by intros s3 _; split.
    + apply (left_settled held s2 _ (found t)). apply register_safe; [by left|done|done].
Qed.

(** *** Loading *)

(** Members whose names are not valid are logged; the others are those of
    [ListAllMember]. *)
Lemma ListAllMember_s_safe here n : forall prefix output s,
  timely here -> system_logger g_logger s ->
  safe [] s (ListAllMember_s here prefix n output) (holds [] (fun l _ => l = ListAllMember prefix n output)).
Proof using dates.
  induction n as [|v|l _|m Hm] using node_rec_prop; intros prefix output s Htime Hlog; cbn [ListAllMember_s ListAllMember];
    destruct (has_char_not_of name_chars prefix) eqn:Hv; rewrite ?Hv.
  1, 3, 5, 7: eapply safe_then; [apply (LIONET_LOG_safe []); [apply Htime|exact Hlog|by intros s1 _; split]|by intros; split].
  1, 2, 3: by split.
  generalize (output ++ [(prefix, Map m)]). revert s Hlog.
  induction Hm as [|[k v] m [_ IHv] _ IH]; intros s Hlog o; [by split|].
  eapply safe_then; [by apply IHv|]. intros o1 s1 Hg1 ->. apply IH. by eapply system_logger_kept.
Qed.

Lemma load_loop_s_safe here s l :
  timely here -> points logs_pointer (fst s) -> (forall key n, (key, n) ∈ l -> text_ok allowed (node_text n)) ->
  safe [] s (load_loop_s here l) (holds [] anything).
Proof using CS HL dates allowed_logs.
  intros Htime. revert s. induction l as [|[key n] l IH]; intros s Hp Hl; [by split|]. cbn [load_loop_s].
  apply (safe_then _ _ _ _ anything).
  - destruct key as [|a key]; [by split|]. eapply safe_then.
    { apply (left_part 2 [] s _ (fun r c => forall p, r = Some p -> points (p, None) c)).
      by apply LookupBase_safe, above_nil. }
    intros r s1 Hg1 Hr. destruct r as [p|]; [|by split]. eapply safe_then; [|by intros; split].
    apply fromString_s_safe; [done|by eapply points_kept|by apply Hr|]. eapply Hl. by left.
  - intros [] s1 Hg1 _. apply IH; [by eapply points_kept|]. intros key' n' Hin. eapply Hl. by right.
Qed.

Lemma LoadFromYaml_s_safe here s root' :
  timely here -> points logs_pointer (fst s) -> system_logger g_logger s -> document_ok allowed root' ->
  safe [] s (LoadFromYaml_s here root') (holds [] anything).
Proof using CS HL dates allowed_logs.
  intros Htime Hp Hlog Hdoc. eapply safe_then; [by apply ListAllMember_s_safe|]. intros l s1 Hg1 ->.
  apply load_loop_s_safe; [done|by eapply points_kept|exact Hdoc].
Qed.

Lemma load_files_s_safe here force files s :
  timely here -> (forall file, settles (yaml_load_file file)) ->
  (forall file root, yaml_load_file file = Ret root -> document_ok allowed root) ->
  points logs_pointer (fst s) -> system_logger g_logger s ->
  safe [] s (load_files_s here force files) (holds [] anything).
Proof using CS HL dates allowed_logs.
  intros Htime Hset Hdoc. revert s. induction files as [|i files IH]; intros s Hp Hlog; [by split|]. cbn [load_files_s].
  eapply safe_then; [apply (left_part 2 [] s _ (fun _ _ => True)), unchanged_safe|]. intros skip s1 Hg1 _.
  pose proof (points_kept _ _ _ Hg1 Hp) as Hp1. pose proof (system_logger_kept _ _ _ Hg1 Hlog) as Hlog1.
  apply (safe_then _ _ _ _ anything).
  - destruct skip; [by split|]. eapply safe_then.
    { apply (left_part 2 [] s1 _ (settled (fun root _ => document_ok allowed root))), safe_lift; [done|].
      intros root' c. by apply Hdoc. }
    intros r s2 Hg2 Hr. pose proof (points_kept _ _ _ Hg2 Hp1). pose proof (system_logger_kept _ _ _ Hg2 Hlog1).
    destruct r as [root'|e| |]; try (apply (LIONET_LOG_safe []); [apply Htime|done|by intros s3 _; split]).
    eapply safe_then; [by apply LoadFromYaml_s_safe|]. intros [] s3 Hg3 _.
    apply (LIONET_LOG_safe []); [apply Htime|by eapply system_logger_kept|by intros s4 _; split].
  - intros [] s2 Hg2 _. apply IH; [by eapply points_kept|by eapply system_logger_kept].
Qed.

(** *** Threads *)

Lemma system_call_safe known here o s :
  points logs_pointer (fst s) -> system_logger g_logger s -> Forall (fun x => points x (fst s)) known ->
  timely here -> call_ok allowed fuel d cenv known o ->
  safe [] s (config_call here o) (holds [] (fun r s' => call_post allowed o r (fst s'))).
Proof using CS HL dates allowed_logs.
  intros Hlogs Hlog Hk Htime Ho. pose proof Hk as Hk'. rewrite Forall_forall in Hk'.
  assert (safe [] s (left_p (config_prog true fuel d garbage cenv o))
    (holds [] (fun r s' => call_post allowed o r (fst s')))) as Hplain.
  { apply (left_part 2 [] s _ (call_post allowed o)). by eapply call_safe. }
  assert (forall p Q, (forall r, settles r -> result_ok allowed o r) -> (forall r, answered o r = []) ->
    safe [] s p (holds [] (settled Q)) -> safe [] s p (holds [] (fun r s' => call_post allowed o r (fst s')))) as Hcall.
  { intros p Q Hres Hans Hp. eapply safe_weaken; [exact Hp|]. intros r h s' [-> Hr]. split; [done|].
    split; [apply Hres; by destruct r|]. rewrite Hans. constructor. }
  destruct o as [t p|p|t p v|p val|t p cb|t p key|t p key|t p|t name dv desc|t name|name|cb|root'|path force|m];
    cbn [config_call]; try exact Hplain; clear Hplain; simpl in Ho.
  - eapply Hcall; [done|done|]. apply safe_returning, (toString_s_safe here []); [done|apply above_nil|by apply (Hk' (p, None))].
  - destruct Ho. eapply Hcall; [done|done|]. apply setValue_s_safe; [done|done|by apply (Hk' (p, Some t))|done].
  - destruct Ho. eapply Hcall; [done|done|]. apply safe_returning, fromString_s_safe; [done|done|by apply (Hk' (p, None))|done].
  - eapply safe_weaken; [by apply Lookup_s_safe|]. intros r h s' [-> Hr]. split; [done|].
    split; [by destruct r|]. destruct r as [r| | |]; [|constructor..]. apply points_found in Hr. by destruct r.
  - eapply Hcall; [done|done|]. by apply safe_returning, LoadFromYaml_s_safe.
  - destruct Ho as (Hset & Hl & Hdoc). eapply Hcall; [done|done|].
    apply (safe_and_then _ _ _ _ anything anything); [by apply (left_settled [] s _ anything), safe_lift|].
    intros files s1 Hg1 _. apply safe_returning, load_files_s_safe; [done|done|done|by eapply points_kept|].
    by eapply system_logger_kept.
Qed.

(** What the calls of a thread must observe: those of the configuration as in
    ConfigThreads.v, those of the loggers as in LogThreads.v. *)
Fixpoint system_client_ok (s0 : shared) (known : list (nat * option ty)) (cl : system_client) : Prop :=
  match cl with
  | SFinish => True
  | SConfig here o k =>
      timely here /\ call_ok allowed fuel d cenv known o /\
      forall r, result_ok allowed o r -> system_client_ok s0 (answered o r ++ known) (k r)
  | SLog o k => conc_op_ok (D := D) strftime_local None o s0 /\ system_client_ok s0 known k
  end.

Lemma system_prog_safe known cl s :
  points logs_pointer (fst s) -> system_logger g_logger s -> Forall (fun x => points x (fst s)) known ->
  system_client_ok (snd s) known cl -> safe_program s (system_prog cl).
Proof using CS HL HYL dates allowed_logs.
  unfold safe_program. intros Hlogs Hlog Hk Hcl.
  eapply (safe_weaken _ _ _ (holds [] anything)); [|by intros ? h s' [-> _]].
  set (s0 := snd s) in Hcl. assert (log_growth s0 (snd s)) as Hs0 by (apply log_growth_preorder). clearbody s0.
  revert known s Hlogs Hlog Hk Hcl Hs0. induction cl as [|here o k IH|o k IH]; intros known s Hlogs Hlog Hk Hcl Hs0.
  { by split. }
  - destruct Hcl as (Htime & Ho & Hcl). cbn [system_prog]. eapply safe_then; [by eapply system_call_safe|].
    intros r s1 Hg [Hr Hans]. apply (IH r (answered o r ++ known)); [by eapply points_kept|by eapply system_logger_kept| | |].
    + apply Forall_app. split; [exact Hans|]. eapply Forall_impl; [exact Hk|]. intros x. by apply points_kept.
    + by apply Hcl.
    + eapply (log_growth_preorder (D := D)); [exact Hs0|apply Hg].
  - destruct Hcl as [Ho Hcl]. cbn [system_prog]. eapply safe_then.
    { apply (right_part 2 conf_rank_bound [] s _ (fun _ _ => True)).
      apply op_prog_safe; [exact dates|exact HYL|by eapply conc_op_ok_grows|].
      intros level ev Hev. split; [by eapply conc_op_timely|by intros []]. }
    intros u s1 Hg _. apply (IH known); [by eapply points_kept|by eapply system_logger_kept| |exact Hcl|].
    + eapply Forall_impl; [exact Hk|]. intros x. by apply points_kept.
    + eapply (log_growth_preorder (D := D)); [exact Hs0|apply Hg].
Qed.

(** *** The start of the program *)

(** One thread makes the initializers' calls, and the two protocols hold after them. *)
Lemma static_init_returns here none ids times w s (k : nat * Z * nat -> sprog unit) :
  allowed logs_ty none -> log_always strftime_local root None s -> apart_ok (D := D) None (log_file $"system") ->
  exists n p key logger c s',
    conc_run (replicate n 0) (start_config (mkConfig ∅ ∅ 0 ids times w, s) [static_init here none ≫= k]) =
      Some (Conc.mkConfig (c, s') [mkThr [] (k (p, key, logger))]) /\
    conf_always allowed c /\ log_always strftime_local root None s' /\
    points (p, Some logs_ty) c /\ has_logger logger s'.
Proof using CS HL dates.
  intros Hnone Hs Hfile. set (c0 := mkConfig ∅ ∅ 0 ids times w).
  assert (conf_always allowed c0) as Hc0.
  { split; [split|..]; simpl; intros *; unfold has_var; by rewrite ?lookup_empty. }
  destruct (register_safe allowed [(LRegistry, Exclusive)] c0 logs_ty $"logs" none $"log config")
    with (s' := c0) as (p & c1 & Ha & Hc1 & _ & Hins); [by left|done|done|by split|done|].
  destruct (Hins c1) as ([] & c2 & Hi & Hc2 & _ & _ & Hp); [by split|done|]. clear Hins.
  injection Ha as <- <-. injection Hi as <-.
  set (rest := key ← left_p (addListener_p logs_ty 0 LogIniter_listener);
               logger ← right_p (getLogger_p $"system"); mret (0, key, logger) : sprog (nat * Z * nat)).
  match type of Hc2 with always ?c => set (c1 := c) in * end.
  assert (conc_run (replicate 5 0) (start_config (c0, s) [static_init here none ≫= k]) =
    Some (Conc.mkConfig (c1, s) [mkThr [] (rest ≫= k)])) as Hn by reflexivity.
  destruct (alone_returns [] (c1, s) rest (holds [] (fun r s' => points (fst (fst r), Some logs_ty) (fst s') /\
    has_logger (snd r) (snd s'))) k) as (n & [[p key] logger] & h & [c s'] & Hrun & [Hc Hs'] & _ & -> & Hp' & Hlog).
  - by intros [l|[|q|ap]] st; [exact I..|intros].
  - by split.
  - eapply safe_then.
    { apply (left_part 2 [] (c1, s) _ (fun _ _ => True)), addListener_safe;
        [apply above_nil|by apply (Hp 0 eq_refl)|by intros old new u]. }
    intros key s2 Hg2 _. eapply safe_then.
    { apply (right_part 2 conf_rank_bound [] s2 _ has_logger). by apply getLogger_safe. }
    intros logger s3 Hg3 [Hlog _]. split; [done|]. split; [|exact Hlog].
    eapply points_kept; [exact Hg3|]. eapply points_kept; [exact Hg2|]. by apply (Hp 0 eq_refl).
  - exists (5 + n), p, key, logger, c, s'.
    split; [|split; [exact Hc|split; [exact Hs'|split; [exact Hp'|exact Hlog]]]].
    rewrite replicate_add. rewrite (conc_run_app _ _ _ _ Hn). exact Hrun.
Qed.
End System.
