(* ===== verification/SystemThreads.v ===== *)
(** * Any number of threads that use configuration and loggers

    The static initializers of log.cc and config.cc leave a state that obeys the
    protocols of both components, and from such a state threads that use both never
    deadlock. *)
From stdpp Require Import base gmap list strings.
From Stdlib Require Import Ascii.
From S2P Require Import Prelude Util Env LogFormatter Log Conc ConcSum Config LogConfig.
From S2P Require Import LogConc LogProtocol LogThreads ConfigConc ConfigThreads System.

(** ** The claim *)

Lemma log_file_ok {D : Type} `{HP : Posix D} `{HF : FileSink D} `{HL : !SinkLaws D} name :
  nul_free (log_file name) -> apart_ok (D := D) None (log_file name).
Proof. intros Hz. split; [exact Hz|by intros]. Qed.

(** C18.  Threads that use configuration and loggers never deadlock.  A thread that makes
    the static initializers of log.cc and config.cc comes to the end of them, whatever it
    does next, in a state in which the protocols of both components hold.  From any such
    state, whatever number of threads make whatever calls of both, each choosing its next
    call by what the calls of the configuration returned or threw: the listener of "logs"
    configures the loggers anew with the lock of the variable held, [Lookup] logs with
    the registry locked, and still under every interleaving of their single accesses no
    step is undefined or aborts; both components keep their invariants; unless every
    thread has come to its end some thread can take a step; and no interleaving goes on
    for ever.  The conditions of [loggers_never_deadlock] and [config_never_deadlocks]
    are those of this theorem: dates fit their buffer, no formatter is null, listeners
    other than that of "logs" and the callbacks of [Visit] do not call the configuration
    or the loggers themselves, and accesses to a member are atomic. *)
Theorem system_never_deadlocks (Y : Yaml) (ylaws : YamlLaws) (CT : ConfigTypes) (casts : CastsSettle) (W : Type)
    (D : Type) (os : Posix D) (sink : FileSink D) (laws : SinkLaws D) (C : Type) (osc : Posix C)
    strftime_local (dates : StrftimeLaws strftime_local) logs_ty as_defines env type_name what fuel
    (d : C) garbage cenv (allowed : forall t, value t -> Prop) :
  (forall v, allowed logs_ty v -> Forall (define_allowed (D := D) strftime_local None) (as_defines v)) ->
  (forall here none ids times (w : W) (disk : D) k, allowed logs_ty none ->
     exists mgr w0 n p key logger c s,
       new_LoggerManager (empty_world disk) = (Ret mgr, w0) /\
       conc_run (replicate n 0) (start_config (mkConfig ∅ ∅ 0 ids times w, (w0, mgr))
           [static_init strftime_local logs_ty type_name what here none ≫= k]) =
         Some (Conc.mkConfig (c, s) [mkThr [] (k (p, key, logger))]) /\
       conf_always allowed c /\ log_always strftime_local (mgr_root mgr) None s /\
       points (p, Some logs_ty) c /\ has_logger logger s) /\
  (forall (c : Config.config (W := W)) (s : log_world D * LoggerManager) root g_log_defines log_key g_logger
      known clients cfg,
     conf_always allowed c -> log_always strftime_local root None s ->
     points (g_log_defines, Some logs_ty) c -> has_logger g_logger s ->
     Forall (fun x => points x c) known ->
     Forall (system_client_ok strftime_local fuel d cenv allowed s known) clients ->
     conc_reach (start_config (c, s)
       (system_prog strftime_local logs_ty as_defines g_log_defines log_key env g_logger type_name what
          fuel d garbage cenv <$> clients)) cfg ->
     conf_always allowed (fst (c_state cfg)) /\ log_always strftime_local root None (snd (c_state cfg)) /\
     (forall i, ~ goes_wrong i cfg) /\
     ((forall i th, c_threads cfg !! i = Some th -> ended th) \/ exists i cfg', conc_step i cfg = Some cfg')) /\
  (forall (e : nat -> Conc.config (conf_lock + LogConc.lock)
                       (Config.config (W := W) * (log_world D * LoggerManager))),
     ~ forall n, exists i, conc_step i (e n) = Some (e (S n))).
Proof.
  intros Hallowed. split; [|split; [|apply conc_finite]].
  { intros here none ids times w disk k Hnone. destruct (started_always strftime_local disk) as (mgr & w0 & Hn & Hs).
    destruct (static_init_returns strftime_local logs_ty type_name what (mgr_root mgr) allowed here none
      ids times w _ k Hnone Hs) as (n & p & key & logger & c & s & H).
    - apply log_file_ok. unfold nul_free. apply (bool_decide_eq_true_1 _). by vm_compute.
    - exists mgr, w0, n, p, key, logger, c, s. by split. }
  intros c s root g_log_defines log_key g_logger known clients cfg Hc Hs Hlogs Hlog Hk Hcl Hr.
  pose (pr := system_protocol (W := W) (D := D) strftime_local root allowed).
  assert (Forall (@safe_program _ _ pr (c, s)) (system_prog strftime_local logs_ty as_defines g_log_defines log_key
    env g_logger type_name what fuel d garbage cenv <$> clients)) as Hsafe.
  { apply Forall_fmap. eapply Forall_impl; [exact Hcl|]. intros cl Hok. by eapply system_prog_safe. }
  assert (forall k, @lock_inv _ _ pr k (c, s)) as Hl by (intros [l|[|p|ap]]; [exact I..|by intros]).
  destruct (safe_programs_run (H := pr) (c, s) _ cfg (conj Hc Hs) Hl Hsafe Hr) as (Hok & Hw & Hp).
  destruct (ok_always _ Hok) as [Hc' Hs'].
  split; [exact Hc'|]. split; [exact Hs'|]. by split.
Qed.

(** *** A small system *)

(** Two types: texts, and the definitions of loggers, written as the name of one. *)
Definition logger_value (t : bool) : Type := if t then list LogDefine else str.

Definition logger_types : ConfigTypes := {|
  ty := bool;
  ty_eq_dec := _;
  value := logger_value;
  value_eqb t := match t return logger_value t -> logger_value t -> bool with
                 | true => log_set_eqb
                 | false => fun x y => bool_decide (x = y)
                 end;
  value_from t s := match t return res (logger_value t) with
                    | true => Ret [net_define INFO]
                    | false => Ret s
                    end;
  value_to t := match t return logger_value t -> res str with
                | true => fun _ => Throw $"bad_lexical_cast"
                | false => fun s => Ret s
                end
|}.

#[export] Instance logger_casts_settle : CastsSettle (H := logger_types).
Proof. split; by intros []. Qed.

(** The variable "logs" with [LogIniter]'s listener. *)
Definition logs_config : Config.config (CT := logger_types) (W := unit) :=
  mkConfig {[ $"logs" := 0 ]}
    {[ 0 := mkConfigVar (CT := logger_types) true
              (mkVar $"logs" $"log config" [net_define DEBUG] [(1%Z, fun _ _ w => (Ret tt, w))]) ]} 1
    (fun _ => 1%Z) ∅ tt.

Definition defines_allowed (t : @ty logger_types) : @value logger_types t -> Prop :=
  match t return logger_value t -> Prop with
  | true => Forall (define_allowed (D := text_fs) sample_strftime None)
  | false => fun _ => True
  end.

Lemma net_allowed level : define_allowed (D := text_fs) sample_strftime None (net_define level).
Proof.
  assert (pattern_fits sample_strftime []) as Hf by (intros f (out & [= <- _]); constructor).
  split; [exact net_file_ok|]. split; [exact Hf|]. constructor; [|constructor]. split; [by left|]. split; [|exact Hf].
  split; [|by intros]. unfold nul_free. apply (bool_decide_eq_true_1 _). by vm_compute.
Qed.

Lemma logs_config_always : conf_always defines_allowed logs_config.
Proof.
  split; [split|..].
  - intros name p Hp. simpl in Hp. apply lookup_singleton_Some in Hp as [_ <-]. split; [by eexists|simpl; lia].
  - intros n1 n2 p H1 H2. simpl in H1, H2. apply lookup_singleton_Some in H1 as [<- _], H2 as [<- _]. done.
  - intros p v Hp. simpl in Hp. apply lookup_singleton_Some in Hp as [<- _]. simpl. lia.
  - intros p t cv Hp. unfold has_var in Hp. simpl in Hp. apply lookup_singleton_Some in Hp as [_ E].
    pose proof (f_equal var_ty E) as Ht. simpl in Ht. subst t.
    apply (mkConfigVar_inj (CT := logger_types)) in E as <-. split; simpl.
    + constructor; [apply net_allowed|constructor].
    + repeat constructor.
    + constructor; [by intros old new w|constructor].
Qed.

Lemma reload_world_always : log_always (D := text_fs) sample_strftime 0 None reload_world.
Proof.
  assert (nul_free $"net.log") as Hz by (unfold nul_free; apply (bool_decide_eq_true_1 _); by vm_compute).
  split; unfold appenders_of, loggers_of; simpl.
  - intros p Hp. rewrite lookup_insert_ne by lia. by apply lookup_singleton_ne; lia.
  - intros p Hp. rewrite lookup_insert_ne by lia. by apply lookup_singleton_ne; lia.
  - intros ap a Ha. assert (appender_good sample_strftime None ap a) as Hgood; [|exact Hgood].
    apply lookup_insert_Some in Ha as [[_ <-]|[_ Ha]]; [|apply lookup_singleton_Some in Ha as [_ <-]];
      (split; [by intros f [= <-]; exact line_formatter_fits|]); [done|].
    split; [exact Hz|]. split; [by right|done].
  - intros p l Hl. apply lookup_insert_Some in Hl as [[<- <-]|[_ Hl]]; [|apply lookup_singleton_Some in Hl as [<- <-]];
      (split; [by eexists; split; [done|exact line_formatter_fits]|]; split; [|try done; by intros r [= <-]; split; [|lia]]);
      intros ap ->%list_elem_of_singleton; eexists; (split; [reflexivity|by eexists]).
  - intros name p Hp. apply lookup_insert_Some in Hp as [[_ <-]|[_ Hp]]; [by eexists|].
    apply lookup_singleton_Some in Hp as [_ <-]. by eexists.
  - split; [done|by eexists].
  - done.
Qed.

(** One thread sets "logs" from a text; another looks it up as a text, which it is not,
    and logs. *)
Local Abbreviation small_client := (system_client (CT := logger_types) (W := unit)).
Definition here_at (file : str) (line : Z) : log_site := mkSite file line 11 2 1700000000 $"main".
Definition sets_logs : small_client :=
  SConfig here_at (CFromString (CT := logger_types) 0 $"net") (fun _ => SFinish).
Definition looks_up_and_logs : small_client :=
  SConfig here_at (CLookup (CT := logger_types) false $"logs" $"" $"") (fun _ =>
    SLog (OpBasic (OpLog sample_site 1 ERROR $"disk full")) SFinish).

Definition small_start :=
  start_config (logs_config, reload_world)
    (system_prog (CT := logger_types) sample_strftime true (fun v => v) 0 1 (mkEnv ∅ [] [] [] []) 0
       (fun t : @ty logger_types => if t : bool then $"set" else $"string") (fun e => e) 0 conf_fs (fun _ => 0%Z)
       (mkEnv ∅ [] [] [] []) <$> [sets_logs; looks_up_and_logs]).

Lemma system_never_deadlocks_witness :
  log_always (D := text_fs) sample_strftime 0 None reload_world /\
  forall cfg, conc_reach small_start cfg ->
    (forall i, ~ goes_wrong i cfg) /\
    ((forall i th, c_threads cfg !! i = Some th -> ended th) \/ exists i cfg', conc_step i cfg = Some cfg').
Proof.
  split; [exact reload_world_always|]. intros cfg Hr.
  destruct (system_never_deadlocks toy_yaml toy_yaml_laws logger_types logger_casts_settle unit text_fs _ _ _ toy_fs _
    sample_strftime _ true (fun v => v) (mkEnv ∅ [] [] [] [])
    (fun t : @ty logger_types => if t : bool then $"set" else $"string") (fun e => e) 0 conf_fs (fun _ => 0%Z)
    (mkEnv ∅ [] [] [] []) defines_allowed (fun v Hv => Hv)) as (_ & H & _).
  refine (proj2 (proj2 (H logs_config reload_world 0 0 1%Z 0 [(0, None)] [sets_logs; looks_up_and_logs] cfg
    logs_config_always reload_world_always _ _ _ _ Hr))).
  - by eexists.
  - by eexists.
  - repeat constructor. by eexists.
  - constructor; [|constructor; [|constructor]].
    + split; [intros file line; exact sample_site_ok|]. split; [|done]. split; [by left|].
      intros [] v [= <-]; [|exact I]. constructor; [apply net_allowed|constructor].
    + split; [intros file line; exact sample_site_ok|]. split; [exact I|]. intros r _. split; [|exact I].
      split; [split; [by eexists|exact sample_site_ok]|exact I].
Defined.
