(* ===== verification/Mutex.v ===== *)
(** * Locks and semaphores (mutex.h, mutex.cc)

    The guards ([ScopedLockImpl] and its two siblings) are verified for every lock
    class with the two operations they use ([Lockable]).  [CASLock] is a spin lock on
    an atomic flag: one turn of its loop is one atomic step, and exclusion is proved
    for every interleaving of any number of threads.  [Semaphore] is a POSIX counting
    semaphore; its calls throw when POSIX answers an error.  [Mutex], [RWMutex] and
    [Spinlock] only pass their calls on to pthread, which is an interface
    ([Pthread]); by its laws ([PthreadLaws]) a lock can be made, used through guards in
    any way and destroyed. *)
From stdpp Require Import base gmap list strings.
From Stdlib Require Import Ascii.
From S2P Require Import Prelude.

(** ** Lock classes and guards *)

(** What a guard uses of a lock: one way of taking it, and [unlock]. *)
Class Lockable (S : Type) := { lk_lock : M S unit; lk_unlock : M S unit }.

Section Guard.
Context {S : Type} `{Lockable S}.

(** The state a guard works on: the lock, and its member [m_locked]. *)
Definition on_lock (m : M S unit) : M (S * bool) unit := fun '(s, b) =>
  let '(r, s') := m s in (r, (s', b)).
Definition set_locked (b : bool) : M (S * bool) unit := modify (fun s => (fst s, b)).

(** The constructor, [lock], [unlock] and the destructor of [ScopedLockImpl],
    [ReadScopedLockImpl] and [WriteScopedLockImpl], which differ in the call that
    takes the lock. *)
Definition guard_ctor : M (S * bool) unit := on_lock lk_lock;; set_locked true.

Definition guard_lock : M (S * bool) unit :=
  s ← get;
  if negb (snd s) then on_lock lk_lock;; set_locked true else mret tt.

Definition guard_unlock : M (S * bool) unit :=
  s ← get;
  if (snd s : bool) then on_lock lk_unlock;; set_locked false else mret tt.

Definition guard_dtor : M (S * bool) unit := guard_unlock.
End Guard.

(** pthread's mutexes, reader-writer locks and spin locks: the calls the classes make.
    Their return codes are ignored by the code. *)
Class Pthread (P : Type) := {
  pthread_mutex_init : M P Z;
  pthread_mutex_lock : M P Z;
  pthread_mutex_unlock : M P Z;
  pthread_mutex_destroy : M P Z;
  pthread_rwlock_init : M P Z;
  pthread_rwlock_rdlock : M P Z;
  pthread_rwlock_wrlock : M P Z;
  pthread_rwlock_unlock : M P Z;
  pthread_rwlock_destroy : M P Z;
  pthread_spin_init : M P Z;
  pthread_spin_lock : M P Z;
  pthread_spin_unlock : M P Z;
  pthread_spin_destroy : M P Z
}.

Definition ignore {S} (m : M S Z) : M S unit := m;; mret tt.

Section Classes.
Context {P : Type} `{Pthread P}.

(** Constructors and destructors. *)
Definition new_Mutex : M P unit := ignore pthread_mutex_init.
Definition delete_Mutex : M P unit := ignore pthread_mutex_destroy.
Definition new_RWMutex : M P unit := ignore pthread_rwlock_init.
Definition delete_RWMutex : M P unit := ignore pthread_rwlock_destroy.
Definition new_Spinlock : M P unit := ignore pthread_spin_init.
Definition delete_Spinlock : M P unit := ignore pthread_spin_destroy.

Definition Mutex_lock : M P unit := ignore pthread_mutex_lock.
Definition Mutex_unlock : M P unit := ignore pthread_mutex_unlock.
Definition RWMutex_rdlock : M P unit := ignore pthread_rwlock_rdlock.
Definition RWMutex_wrlock : M P unit := ignore pthread_rwlock_wrlock.
Definition RWMutex_unlock : M P unit := ignore pthread_rwlock_unlock.
Definition Spinlock_lock : M P unit := ignore pthread_spin_lock.
Definition Spinlock_unlock : M P unit := ignore pthread_spin_unlock.

(** The guard types: [Mutex::Lock], [RWMutex::ReadLock], [RWMutex::WriteLock] and
    [Spinlock::Lock]. *)
Definition Mutex_Lock : Lockable P := {| lk_lock := Mutex_lock; lk_unlock := Mutex_unlock |}.
Definition RWMutex_ReadLock : Lockable P := {| lk_lock := RWMutex_rdlock; lk_unlock := RWMutex_unlock |}.
Definition RWMutex_WriteLock : Lockable P := {| lk_lock := RWMutex_wrlock; lk_unlock := RWMutex_unlock |}.
Definition Spinlock_Lock : Lockable P := {| lk_lock := Spinlock_lock; lk_unlock := Spinlock_unlock |}.
End Classes.

(** [NullMutex] and [NullRWMutex] do nothing. *)
Definition new_NullMutex {S} : M S unit := mret tt.
Definition delete_NullMutex {S} : M S unit := mret tt.
Definition NullMutex_lock {S} : M S unit := mret tt.
Definition NullMutex_unlock {S} : M S unit := mret tt.
Definition new_NullRWMutex {S} : M S unit := mret tt.
Definition delete_NullRWMutex {S} : M S unit := mret tt.
Definition NullRWMutex_rdlock {S} : M S unit := mret tt.
Definition NullRWMutex_wrlock {S} : M S unit := mret tt.
Definition NullRWMutex_unlock {S} : M S unit := mret tt.
Definition NullMutex_Lock {S} : Lockable S := {| lk_lock := NullMutex_lock; lk_unlock := NullMutex_unlock |}.

(** ** [Semaphore] *)

(** [SEM_VALUE_MAX] of POSIX on Linux. *)
Definition SEM_VALUE_MAX : Z := 2147483647.

(** The constructor: [sem_init] refuses values above the maximum. *)
Definition new_Semaphore (count : Z) : res Z :=
  if Z.leb (u32 count) SEM_VALUE_MAX then Ret (u32 count) else Throw $"sem_init error".

(** [wait] on the value [v]: [None] while it blocks; a signal handled meanwhile
    ([interrupted]) makes [sem_wait] fail. *)
Definition Semaphore_wait (interrupted : bool) (v : Z) : option (res unit * Z) :=
  if Z.ltb 0 v then Some (Ret tt, (v - 1)%Z)
  else if interrupted then Some (Throw $"sem_wait error", v)
  else None.

Definition Semaphore_notify (v : Z) : res unit * Z :=
  if Z.ltb v SEM_VALUE_MAX then (Ret tt, (v + 1)%Z) else (Throw $"sem_post error", v).

(** The destructor; destroying a semaphore on which threads are blocked is undefined. *)
Definition delete_Semaphore (blocked : bool) : res unit :=
  if blocked then UB $"sem_destroy with waiting threads" else Ret tt.

(** Calls of any threads on one semaphore, in the order they complete. *)
Inductive sem_call : Type := Wait (interrupted : bool) | Notify.

(** [sem_run v calls]: the value after the calls, with the numbers of [wait]s and
    [notify]s that returned normally; [None] when a call would still block. *)
Fixpoint sem_run (v : Z) (calls : list sem_call) : option (Z * Z * Z) :=
  match calls with
  | [] => Some (v, 0, 0)%Z
  | c :: cs =>
      match match c with Wait i => Semaphore_wait i v | Notify => Some (Semaphore_notify v) end with
      | None => None
      | Some (r, v') =>
          match sem_run v' cs with
          | None => None
          | Some (v2, ws, ns) =>
              Some (if is_ret r
                    then match c with Wait _ => (v2, ws + 1, ns) | Notify => (v2, ws, ns + 1) end
                    else (v2, ws, ns))%Z
          end
      end
  end.

(** ** [CASLock] *)

(** The atomic flag; the constructor clears it. *)
Definition new_CASLock : bool := false.

(** The destructor does nothing. *)
Definition delete_CASLock : M bool unit := mret tt.

(** One turn of the loop in [lock]: [test_and_set] answers the old value, and the
    loop goes on while it is true. *)
Definition CASLock_try : M bool bool := old ← get; put true;; mret (negb old).

Definition CASLock_unlock : M bool unit := put false.

(** Where a thread is: outside, in the loop of [lock], or holding the lock. *)
Inductive cas_pc : Type := Outside | Spinning | Holding.

#[export] Instance cas_pc_eq_dec : EqDecision cas_pc.
Proof. solve_decision. Defined.

(** The flag and the threads. *)
Record cas_world := mkCas { cas_flag : bool; cas_threads : list cas_pc }.

Definition set_pc (i : nat) (pc : cas_pc) (flag : bool) (w : cas_world) : cas_world :=
  mkCas flag (<[i := pc]> (cas_threads w)).

(** The next atomic step of thread [i]: it calls [lock], takes a turn of the loop, or
    calls [unlock]. *)
Definition cas_step (i : nat) (w : cas_world) : option cas_world :=
  match cas_threads w !! i with
  | Some Outside => Some (set_pc i Spinning (cas_flag w) w)
  | Some Spinning =>
      match CASLock_try (cas_flag w) with
      | (Ret got, flag') => Some (set_pc i (if got then Holding else Spinning) flag' w)
      | _ => None
      end
  | Some Holding => Some (set_pc i Outside (snd (CASLock_unlock (cas_flag w))) w)
  | None => None
  end.

Inductive cas_reachable (n : nat) : cas_world -> Prop :=
| cas_start : cas_reachable n (mkCas new_CASLock (replicate n Outside))
| cas_next i w w' : cas_reachable n w -> cas_step i w = Some w' -> cas_reachable n w'.

(** ** Guards are balanced *)
Section Guard_spec.
Context {S : Type} `{Lockable S}.

(** What code does with a guard between its construction and destruction. *)
Inductive guard_op : Type := GLock | GUnlock.
Definition run_guard_op (o : guard_op) : M (S * bool) unit :=
  match o with GLock => guard_lock | GUnlock => guard_unlock end.
Fixpoint run_guard_ops (os : list guard_op) : M (S * bool) unit :=
  match os with [] => mret tt | o :: os' => run_guard_op o;; run_guard_ops os' end.

Definition guard_scope (os : list guard_op) : M (S * bool) unit :=
  guard_ctor;; run_guard_ops os;; guard_dtor.

(** Taking and releasing the lock [n] times. *)
Fixpoint pairs (n : nat) : M S unit :=
  match n with O => mret tt | Datatypes.S n' => lk_lock;; lk_unlock;; pairs n' end.

(** How often a guard that holds the lock or not takes it again. *)
Fixpoint retakes (held : bool) (os : list guard_op) : nat :=
  match os with
  | [] => 0
  | GLock :: os' => if held then retakes true os' else Datatypes.S (retakes true os')
  | GUnlock :: os' => retakes false os'
  end.

Definition without_flag (r : res unit * (S * bool)) : res unit * S := (fst r, fst (snd r)).

Lemma run_guard_ops_pairs os s held :
  without_flag ((run_guard_ops os;; guard_dtor) (s, held)) =
  (if held then lk_unlock;; pairs (retakes true os) else pairs (retakes false os)) s.
Proof.
  revert s held. induction os as [|o os IH]; intros s held.
  - unfold guard_dtor, guard_unlock, run_guard_ops, on_lock, set_locked. unfold_M. simpl.
    destruct held; [|done]. by destruct (lk_unlock s) as [[[]|?|?|?] s'].
  - cbn [run_guard_ops retakes]. destruct o; cbn [run_guard_op]; unfold guard_lock, guard_unlock.
    + destruct held; simpl.
      * specialize (IH s true). unfold_M. exact IH.
      * unfold on_lock, set_locked in *. unfold_M. simpl. destruct (lk_lock s) as [[[]|?|?|?] s'] eqn:E; [|done..].
        exact (IH s' true).
    + destruct held; simpl.
      * unfold on_lock, set_locked in *. unfold_M. simpl. destruct (lk_unlock s) as [[[]|?|?|?] s'] eqn:E; [|done..].
        exact (IH s' false).
      * specialize (IH s false). unfold_M. exact IH.
Qed.

Lemma guard_scope_pairs os s garbage :
  without_flag (guard_scope os (s, garbage)) = pairs (Datatypes.S (retakes true os)) s.
Proof.
  unfold guard_scope, guard_ctor, on_lock, set_locked. cbn [pairs].
  pose proof (fun s' => run_guard_ops_pairs os s' true) as Hp. unfold_M. simpl in *.
  destruct (lk_lock s) as [[[]|?|?|?] s'] eqn:E; [|done..]. exact (Hp s').
Qed.

(** Guards one after the other on a lock between its constructor and destructor; the
    guards are on the stack, with garbage in [m_locked]. *)
Fixpoint scopes (oss : list (bool * list guard_op)) : M S unit :=
  match oss with
  | [] => mret tt
  | (garbage, os) :: oss' => (fun s => without_flag (guard_scope os (s, garbage)));; scopes oss'
  end.

Definition lifetime (ctor dtor : M S unit) (oss : list (bool * list guard_op)) : M S unit :=
  ctor;; scopes oss;; dtor.
End Guard_spec.

(** ** Lifetimes of locks *)

(** What POSIX says of one kind of lock used by one thread: raw memory becomes a free
    lock (when the system has the resources), which can be taken, released and
    destroyed. *)
Record lock_laws {P : Type} (init take release destroy : M P Z) := mkLockLaws {
  ll_raw : P -> Prop;
  ll_free : P -> Prop;
  ll_taken : P -> Prop;
  ll_init p : ll_raw p -> exists c p', init p = (Ret c, p') /\ ll_free p';
  ll_take p : ll_free p -> exists c p', take p = (Ret c, p') /\ ll_taken p';
  ll_release p : ll_taken p -> exists c p', release p = (Ret c, p') /\ ll_free p';
  ll_destroy p : ll_free p -> exists c p', destroy p = (Ret c, p') /\ ll_raw p'
}.

Class PthreadLaws (P : Type) `{Pthread P} := {
  mutex_laws : lock_laws pthread_mutex_init pthread_mutex_lock pthread_mutex_unlock pthread_mutex_destroy;
  rdlock_laws : lock_laws pthread_rwlock_init pthread_rwlock_rdlock pthread_rwlock_unlock pthread_rwlock_destroy;
  wrlock_laws : lock_laws pthread_rwlock_init pthread_rwlock_wrlock pthread_rwlock_unlock pthread_rwlock_destroy;
  spin_laws : lock_laws pthread_spin_init pthread_spin_lock pthread_spin_unlock pthread_spin_destroy
}.

Section Lifetime.
Context {P : Type} {init take release destroy : M P Z} (laws : lock_laws init take release destroy).
#[local] Instance calls_lockable : Lockable P := {| lk_lock := ignore take; lk_unlock := ignore release |}.

Lemma ignore_returns (m : M P Z) p c p' : m p = (Ret c, p') -> ignore m p = (Ret tt, p').
Proof. intros Hm. unfold ignore. by rewrite (bind_ret m _ p c p' Hm). Qed.

Lemma pairs_free n p : ll_free _ _ _ _ laws p -> exists p', pairs n p = (Ret tt, p') /\ ll_free _ _ _ _ laws p'.
Proof.
  revert p. induction n as [|n IH]; intros p Hp; [by exists p|]. cbn [pairs lk_lock lk_unlock calls_lockable].
  destruct (ll_take _ _ _ _ laws p Hp) as (c1 & p1 & H1%ignore_returns & Hp1). rewrite (bind_ret _ _ _ _ _ H1).
  destruct (ll_release _ _ _ _ laws p1 Hp1) as (c2 & p2 & H2%ignore_returns & Hp2). rewrite (bind_ret _ _ _ _ _ H2).
  by apply IH.
Qed.

Lemma scopes_free oss p : ll_free _ _ _ _ laws p -> exists p', scopes oss p = (Ret tt, p') /\ ll_free _ _ _ _ laws p'.
Proof.
  revert p. induction oss as [|[garbage os] oss IH]; intros p Hp; [by exists p|]. cbn [scopes].
  destruct (pairs_free (Datatypes.S (retakes true os)) p Hp) as (p1 & H1 & Hp1).
  rewrite (bind_ret (fun s => without_flag (guard_scope os (s, garbage))) _ p tt p1); [by apply IH|].
  by rewrite guard_scope_pairs.
Qed.

Lemma lifetime_returns oss p :
  ll_raw _ _ _ _ laws p ->
  exists p', lifetime (ignore init) (ignore destroy) oss p = (Ret tt, p') /\ ll_raw _ _ _ _ laws p'.
Proof.
  intros Hp. unfold lifetime.
  destruct (ll_init _ _ _ _ laws p Hp) as (c1 & p1 & H1%ignore_returns & Hp1). rewrite (bind_ret _ _ _ _ _ H1).
  destruct (scopes_free oss p1 Hp1) as (p2 & H2 & Hp2). rewrite (bind_ret _ _ _ _ _ H2).
  destruct (ll_destroy _ _ _ _ laws p2 Hp2) as (c3 & p3 & H3%ignore_returns & Hp3). by exists p3.
Qed.
End Lifetime.

(** A lock of any of the classes can be made, used through any guards one after the
    other, and destroyed: pthread is only ever called in the order it allows. *)
Theorem lock_lifetimes {P : Type} `{PL : PthreadLaws P} oss p :
  (ll_raw _ _ _ _ mutex_laws p -> exists p', @lifetime P Mutex_Lock new_Mutex delete_Mutex oss p = (Ret tt, p')) /\
  (ll_raw _ _ _ _ rdlock_laws p ->
     exists p', @lifetime P RWMutex_ReadLock new_RWMutex delete_RWMutex oss p = (Ret tt, p')) /\
  (ll_raw _ _ _ _ wrlock_laws p ->
     exists p', @lifetime P RWMutex_WriteLock new_RWMutex delete_RWMutex oss p = (Ret tt, p')) /\
  (ll_raw _ _ _ _ spin_laws p ->
     exists p', @lifetime P Spinlock_Lock new_Spinlock delete_Spinlock oss p = (Ret tt, p')).
Proof.
  repeat split; intros Hp.
  - destruct (lifetime_returns mutex_laws oss p Hp) as (p' & Hr & _). by exists p'.
  - destruct (lifetime_returns rdlock_laws oss p Hp) as (p' & Hr & _). by exists p'.
  - destruct (lifetime_returns wrlock_laws oss p Hp) as (p' & Hr & _). by exists p'.
  - destruct (lifetime_returns spin_laws oss p Hp) as (p' & Hr & _). by exists p'.
Qed.

(** A pthread for one lock: raw, free or taken; anything else is undefined. *)
Inductive lock_phase : Type := Raw | Free | Taken.
Definition phase_call (from to : lock_phase) : M lock_phase Z := fun p =>
  match from, p with
  | Raw, Raw | Free, Free | Taken, Taken => (Ret 0%Z, to)
  | _, _ => (UB $"pthread call on a lock in another state", p)
  end.

#[export] Instance toy_pthread : Pthread lock_phase := {
  pthread_mutex_init := phase_call Raw Free;
  pthread_mutex_lock := phase_call Free Taken;
  pthread_mutex_unlock := phase_call Taken Free;
  pthread_mutex_destroy := phase_call Free Raw;
  pthread_rwlock_init := phase_call Raw Free;
  pthread_rwlock_rdlock := phase_call Free Taken;
  pthread_rwlock_wrlock := phase_call Free Taken;
  pthread_rwlock_unlock := phase_call Taken Free;
  pthread_rwlock_destroy := phase_call Free Raw;
  pthread_spin_init := phase_call Raw Free;
  pthread_spin_lock := phase_call Free Taken;
  pthread_spin_unlock := phase_call Taken Free;
  pthread_spin_destroy := phase_call Free Raw
}.

Definition phase_laws :
  lock_laws (phase_call Raw Free) (phase_call Free Taken) (phase_call Taken Free) (phase_call Free Raw).
Proof.
  refine (mkLockLaws _ _ _ _ _ (eq Raw) (eq Free) (eq Taken) _ _ _ _); intros p <-; by eexists _, _.
Defined.

#[export] Instance toy_pthread_laws : PthreadLaws lock_phase.
Proof. split; exact phase_laws. Defined.

Lemma lock_lifetimes_witness :
  exists p', @lifetime lock_phase Spinlock_Lock new_Spinlock delete_Spinlock
    [(true, [GLock; GUnlock; GUnlock]); (false, [GUnlock; GLock])] Raw = (Ret tt, p').
Proof. by apply lock_lifetimes. Defined.

(** ** Exclusion of [CASLock] *)

(** The flag is set exactly while one thread holds the lock. *)
Definition cas_inv (w : cas_world) : Prop :=
  if cas_flag w then
    exists i, cas_threads w !! i = Some Holding /\ forall j, cas_threads w !! j = Some Holding -> j = i
  else forall j, cas_threads w !! j <> Some Holding.

Lemma cas_step_inv i w w' : cas_inv w -> cas_step i w = Some w' -> cas_inv w'.
Proof.
  unfold cas_inv, cas_step. destruct w as [flag ts]. cbn [cas_flag cas_threads].
  intros Hinv. destruct (ts !! i) as [[]|] eqn:Hi; [| | |done].
  - intros [= <-]. unfold set_pc. cbn [cas_flag cas_threads].
    assert (forall j, <[i:=Spinning]> ts !! j = Some Holding <-> ts !! j = Some Holding) as Hsame.
    { intros j. rewrite list_lookup_insert. case_decide as Hj; [|done].
      destruct Hj as [<- _]. by rewrite Hi. }
    destruct flag; setoid_rewrite Hsame; done.
  - simpl. intros [= <-]. unfold set_pc. cbn [cas_flag cas_threads]. apply lookup_lt_Some in Hi as Hlt.
    destruct flag; simpl.
    + assert (<[i:=Spinning]> ts = ts) as -> by (by apply list_insert_id). done.
    + exists i. rewrite list_lookup_insert_eq by done. split; [done|]. intros j.
      rewrite list_lookup_insert. case_decide as Hj; [by destruct Hj|]. intros Hh. by apply Hinv in Hh.
  - intros [= <-]. unfold set_pc. cbn [cas_flag cas_threads snd CASLock_unlock put].
    destruct flag; [|by destruct (Hinv i)]. destruct Hinv as (h & Hh & Huniq).
    intros j. rewrite list_lookup_insert. case_decide as Hj; [done|].
    intros Hjh. apply Hj. rewrite (Huniq j Hjh), (Huniq i Hi). split; [done|].
    by eapply lookup_lt_Some.
Qed.

Lemma cas_reachable_inv n w : cas_reachable n w -> cas_inv w.
Proof.
  induction 1 as [|i w w' _ IH Hs]; [|by eapply cas_step_inv].
  intros j Hj. by apply lookup_replicate in Hj as [? _].
Qed.

(** ** The claims *)

(** C35.  A guard is balanced: whatever sequence of [lock] and [unlock] is called on it
    between its construction and its destruction, the lock sees exactly a sequence of
    pairs of taking and releasing, and it is released at the end; this holds for
    each guard type and every lock class, and in particular calling [lock] twice does
    not take the lock twice. *)
Theorem guard_balanced (S : Type) (L : Lockable S) (os : list guard_op) (s : S) (garbage : bool) :
  without_flag (guard_scope os (s, garbage)) = pairs (Datatypes.S (retakes true os)) s.
Proof. apply guard_scope_pairs. Qed.

(** C24.  [CASLock] excludes: under every interleaving of any number of threads that
    release the lock only when they hold it, at most one thread holds the lock; the
    flag is set exactly while one does; and when none does, the next turn of any
    thread's loop takes it. *)
Theorem cas_excludes (n : nat) (w : cas_world) :
  cas_reachable n w ->
  (forall i j, cas_threads w !! i = Some Holding -> cas_threads w !! j = Some Holding -> i = j) /\
  (cas_flag w = true <-> exists i, cas_threads w !! i = Some Holding) /\
  (forall i, cas_threads w !! i = Some Spinning -> (forall j, cas_threads w !! j <> Some Holding) ->
     exists w', cas_step i w = Some w' /\ cas_threads w' !! i = Some Holding).
Proof.
  intros Hr%cas_reachable_inv. unfold cas_inv in Hr. split; [|split].
  - intros i j Hi Hj. destruct (cas_flag w); [|by destruct (Hr i)].
    destruct Hr as (h & _ & Hu). by rewrite (Hu i Hi), (Hu j Hj).
  - destruct (cas_flag w); [|by split; [|intros (i & Hi); destruct (Hr i)]].
    destruct Hr as (h & Hh & _). split; [by exists h|done].
  - intros i Hi Hnone. unfold cas_step. rewrite Hi. destruct (cas_flag w).
    { destruct Hr as (h & Hh & _). by destruct (Hnone h). }
    simpl. eexists. split; [done|]. simpl. apply list_lookup_insert_eq. by eapply lookup_lt_Some.
Qed.

Lemma cas_excludes_witness :
  let w := mkCas true [Holding; Spinning] in
  cas_reachable 2 w /\ forall i j, cas_threads w !! i = Some Holding -> cas_threads w !! j = Some Holding -> i = j.
Proof.
  intros w. assert (cas_reachable 2 w) as Hr.
  { apply (cas_next 2 1 (mkCas true [Holding; Spinning])); [|done].
    apply (cas_next 2 1 (mkCas true [Holding; Outside])); [|done].
    apply (cas_next 2 0 (mkCas false [Spinning; Outside])); [|done].
    apply (cas_next 2 0 (mkCas false [Outside; Outside])); [|done]. apply cas_start. }
  split; [exact Hr|]. apply (cas_excludes 2 w Hr).
Defined.

(** C36.  A semaphore counts: after any calls that have completed, in any order, its
    value is the initial count plus the [notify]s less the [wait]s that returned; it
    stays between 0 and [SEM_VALUE_MAX], so at most count plus [notify]s [wait]s
    return.  A constructor call with a larger count throws. *)
Theorem semaphore_counts (count v0 v ws ns : Z) (calls : list sem_call) :
  new_Semaphore count = Ret v0 -> sem_run v0 calls = Some (v, ws, ns) ->
  (v0 = u32 count /\ v = v0 + ns - ws /\ 0 <= v <= SEM_VALUE_MAX /\ ws <= v0 + ns)%Z.
Proof.
  unfold new_Semaphore. destruct (Z.leb_spec (u32 count) SEM_VALUE_MAX) as [Hc|]; [|done].
  intros [= <-].
  assert (0 <= u32 count <= SEM_VALUE_MAX)%Z as Hb.
  { split; [|done]. by apply Z.mod_pos_bound. }
  intros Hr. split; [done|]. revert Hb Hr. generalize (u32 count) as x. clear. intros x Hb.
  revert x v ws ns Hb. induction calls as [|c cs IH]; intros x v ws ns Hb; simpl.
  { intros [= <- <- <-]. lia. }
  destruct c as [i|]; unfold Semaphore_wait, Semaphore_notify.
  - destruct (Z.ltb_spec 0 x); [|destruct i; [|done]];
      (destruct (sem_run _ cs) as [[[v2 ws2] ns2]|] eqn:E; [|done]; apply IH in E; [|lia];
       simpl; intros [= <- <- <-]; lia).
  - destruct (Z.ltb_spec x SEM_VALUE_MAX);
      (destruct (sem_run _ cs) as [[[v2 ws2] ns2]|] eqn:E; [|done]; apply IH in E; [|lia];
       simpl; intros [= <- <- <-]; lia).
Qed.

Lemma semaphore_counts_witness : (1 = u32 1 /\ 1 = 1 + 2 - 2 /\ 0 <= 1 <= SEM_VALUE_MAX /\ 2 <= 1 + 2)%Z.
Proof. apply (semaphore_counts 1 1 1 2 2 [Wait false; Wait true; Notify; Wait false; Notify]); reflexivity. Defined.
