(* ===== verification/Thread.v ===== *)
(** * Threads (thread.h, thread.cc)

    A [Thread] object and the POSIX thread it starts: the constructor creates the
    thread and waits on the object's semaphore until [Thread::run] has filled in the
    object and taken the function out of it.  Objects live in a heap, so that a
    pointer to a destroyed object can be seen to dangle; each statement of [run] is a
    step of its own, and the steps of the two threads interleave freely.  A function
    is a number, and calling it is recorded; an empty [std::function] is [None]. *)
From stdpp Require Import base gmap list strings.
From Stdlib Require Import Ascii.
From S2P Require Import Prelude Util Mutex.

(** ** Data *)
Record thread_obj := mkThread {
  th_id : Z;                    (* m_id *)
  th_thread : bool;             (* m_thread is not 0 *)
  th_func : option nat;         (* m_func *)
  th_name : str;                (* m_name *)
  th_semaphore : Z              (* the value of m_semaphore *)
}.

(** [t_thread] and [t_thread_name] of one thread. *)
Record thread_local := mkLocal { t_thread : option nat; t_thread_name : str }.

(** The objects that exist, the thread-local variables by thread, the names the
    kernel shows, and the functions that were called. *)
Record threads := mkThreads {
  objs : gmap nat thread_obj;
  locals : gmap nat thread_local;
  kernel_names : gmap nat str;
  called : list nat
}.

Definition set_obj (p : nat) (o : thread_obj) (w : threads) : threads :=
  mkThreads (<[p := o]> (objs w)) (locals w) (kernel_names w) (called w).
Definition free_obj (p : nat) (w : threads) : threads :=
  mkThreads (delete p (objs w)) (locals w) (kernel_names w) (called w).
Definition set_local (tid : nat) (l : thread_local) (w : threads) : threads :=
  mkThreads (objs w) (<[tid := l]> (locals w)) (kernel_names w) (called w).

(** [thread->...]: undefined when the object is gone. *)
Definition deref_thread (p : nat) : M threads thread_obj := fun w =>
  match objs w !! p with Some o => (Ret o, w) | None => (UB $"dangling thread pointer", w) end.

(** The initial values of the thread-local variables. *)
Definition new_local : thread_local := mkLocal None $"UNKNOW".
Definition local_of (tid : nat) (w : threads) : thread_local := default new_local (locals w !! tid).

(** ** Static methods, on thread [tid] *)
Definition Thread_GetThis (tid : nat) (w : threads) : option nat := t_thread (local_of tid w).
Definition GetName (tid : nat) (w : threads) : str := t_thread_name (local_of tid w).

Definition with_name (n : str) (o : thread_obj) : thread_obj :=
  mkThread (th_id o) (th_thread o) (th_func o) n (th_semaphore o).

Definition SetName (tid : nat) (name : str) : M threads unit :=
  match name with
  | [] => mret tt
  | _ =>
      w ← get;
      (match Thread_GetThis tid w with
       | Some p => o ← deref_thread p; modify (set_obj p (with_name name o))
       | None => mret tt
       end);;
      modify (fun w => set_local tid (mkLocal (Thread_GetThis tid w) name) w)
  end.

(** ** Construction *)
Definition name_or_unknown (name : str) : str := match name with [] => $"UNKNOW" | _ => name end.

(** The constructor up to [m_semaphore.wait()], at the address [p]; [rt] is what
    [pthread_create] answers.  An exception destroys the object. *)
Definition ctor_create (p : nat) (func : option nat) (name : str) (rt : Z) : M threads unit :=
  modify (set_obj p (mkThread (-1) (bool_decide (rt = 0%Z)) func (name_or_unknown name) 0));;
  if Z.eqb rt 0 then mret tt
  else modify (free_obj p);; raise $"pthread_create error".

(** Where the constructing thread is: in [wait], or out of the constructor. *)
Inductive ctor_pc : Type := PWait | PReturned | PThrown (e : str).

(** [m_semaphore.wait()]: [None] while it blocks. *)
Definition ctor_wait (p : nat) (interrupted : bool) (w : threads) : option (ctor_pc * threads) :=
  match objs w !! p with
  | None => None
  | Some o =>
      match Semaphore_wait interrupted (th_semaphore o) with
      | None => None
      | Some (r, v) =>
          let w' := set_obj p (mkThread (th_id o) (th_thread o) (th_func o) (th_name o) v) w in
          Some (match r with
                | Throw e => (PThrown e, free_obj p w')
                | _ => (PReturned, w')
                end)
      end
  end.

(** Where the new thread is in [run]: before each of its statements. *)
Inductive run_pc : Type :=
| REnter                        (* t_thread = thread *)
| RName                         (* t_thread_name = thread->m_name *)
| RId                           (* thread->m_id = GetThreadId() *)
| RSetName                      (* pthread_setname_np(...) *)
| RSwap                         (* task.swap(thread->m_func) *)
| RNotify (task : option nat)   (* thread->m_semaphore.notify() *)
| RTask (task : option nat)     (* task() *)
| RDone.

#[export] Instance run_pc_eq_dec : EqDecision run_pc.
Proof. solve_decision. Defined.

(** One statement of [run] on thread [tid], whose kernel id is [kid].  An empty
    [std::function] throws [std::bad_function_call] when called, which leaves the thread's
    start routine and terminates the program. *)
Definition Thread_run (p tid : nat) (kid : Z) (pc : run_pc) : M threads run_pc :=
  match pc with
  | REnter =>
      modify (fun w => set_local tid (mkLocal (Some p) (GetName tid w)) w);; mret RName
  | RName =>
      o ← deref_thread p;
      modify (fun w => set_local tid (mkLocal (Thread_GetThis tid w) (th_name o)) w);; mret RId
  | RId =>
      o ← deref_thread p;
      modify (set_obj p (mkThread kid (th_thread o) (th_func o) (th_name o) (th_semaphore o)));;
      mret RSetName
  | RSetName =>
      o ← deref_thread p;
      short ← lift_res (substr (th_name o) 0 15);
      modify (fun w => mkThreads (objs w) (locals w) (<[tid := c_str short]> (kernel_names w)) (called w));;
      mret RSwap
  | RSwap =>
      o ← deref_thread p;
      modify (set_obj p (mkThread (th_id o) (th_thread o) None (th_name o) (th_semaphore o)));;
      mret (RNotify (th_func o))
  | RNotify task =>
      o ← deref_thread p;
      let '(r, v) := Semaphore_notify (th_semaphore o) in
      lift_res r;;
      modify (set_obj p (mkThread (th_id o) (th_thread o) (th_func o) (th_name o) v));;
      mret (RTask task)
  | RTask None => lift_res (Abort $"std::terminate: std::bad_function_call")
  | RTask (Some f) =>
      modify (fun w => mkThreads (objs w) (locals w) (kernel_names w) (called w ++ [f]));; mret RDone
  | RDone => mret RDone
  end.

(** ** The end of a thread *)

(** [join]; [rt] is what [pthread_join] answers. *)
Definition join (p : nat) (rt : Z) : M threads unit :=
  o ← deref_thread p;
  if (th_thread o : bool) then
    if Z.eqb rt 0 then
      modify (set_obj p (mkThread (th_id o) false (th_func o) (th_name o) (th_semaphore o)))
    else raise $"pthread_join error"
  else mret tt.

(** The destructor: answers whether it detached the thread. *)
Definition destroy_thread (p : nat) : M threads bool :=
  o ← deref_thread p;
  modify (free_obj p);;
  mret (th_thread o).

(** ** The start of a thread, interleaved *)
Record start_state := mkStart { st_world : threads; st_ctor : ctor_pc; st_run : run_pc }.

(** Steps of the constructing thread, whose wait may be interrupted by a signal
    handler when [signals] is true, and of the new thread. *)
Inductive start_step (signals : bool) (p tid : nat) (kid : Z) : start_state -> start_state -> Prop :=
| step_ctor w rpc intr cpc' w' :
    (intr = true -> signals = true) -> ctor_wait p intr w = Some (cpc', w') ->
    start_step signals p tid kid (mkStart w PWait rpc) (mkStart w' cpc' rpc)
| step_run w cpc rpc rpc' w' :
    rpc <> RDone -> Thread_run p tid kid rpc w = (Ret rpc', w') ->
    start_step signals p tid kid (mkStart w cpc rpc) (mkStart w' cpc rpc').

(** [start_runs n s s']: [n] steps lead from [s] to [s']. *)
Inductive start_runs (signals : bool) (p tid : nat) (kid : Z) : nat -> start_state -> start_state -> Prop :=
| start_stop s : start_runs signals p tid kid 0 s s
| start_more n s s1 s2 :
    start_step signals p tid kid s s1 -> start_runs signals p tid kid n s1 s2 ->
    start_runs signals p tid kid (S n) s s2.

Section Start.
Context (p tid : nat) (func : option nat) (kid : Z) (name : str) (w0 : threads).

(** When the constructor has called [pthread_create] and has succeeded. *)
Definition started_state : start_state := mkStart (snd (ctor_create p func name 0 w0)) PWait REnter.

Definition stage (pc : run_pc) : nat :=
  match pc with
  | REnter => 0 | RName => 1 | RId => 2 | RSetName => 3 | RSwap => 4
  | RNotify _ => 5 | RTask _ => 6 | RDone => 7
  end.

(** What holds between the steps: each field has been set when its statement has run,
    and the semaphore counts the [notify] that [wait] has not used yet. *)
Definition start_inv (s : start_state) : Prop :=
  let k := stage (st_run s) in let w := st_world s in
  (exists v, objs w !! p = Some (mkThread (if decide (3 <= k) then kid else -1) true
                 (if decide (5 <= k) then None else func) (name_or_unknown name) v) /\
     (if decide (6 <= k) then (st_ctor s = PWait /\ v = 1%Z) \/ (st_ctor s = PReturned /\ v = 0%Z)
      else st_ctor s = PWait /\ v = 0%Z)) /\
  (1 <= k -> Thread_GetThis tid w = Some p) /\
  (2 <= k -> GetName tid w = name_or_unknown name) /\
  (4 <= k -> kernel_names w !! tid = Some (c_str (take 15 (name_or_unknown name)))) /\
  (forall t, st_run s = RNotify t \/ st_run s = RTask t -> t = func) /\
  (k = 7 -> is_Some func) /\
  called w = called w0 ++ (if decide (k = 7) then option_list func else []).

(** The steps that are left: one per statement of [run], the call of an empty function
    not counted, and the [wait]. *)
Definition last_stage : nat := match func with Some _ => 7 | None => 6 end.
Definition steps_left (s : start_state) : nat :=
  (last_stage - stage (st_run s)) + match st_ctor s with PWait => 1 | _ => 0 end.

Lemma started_inv : start_inv started_state.
Proof.
  unfold start_inv. simpl. rewrite lookup_insert_eq, app_nil_r. split; [exists 0%Z; by split|].
  repeat split; try lia. by intros t [?|?].
Qed.

Ltac at_stage := repeat match goal with
  | |- context [decide ?P] => first [rewrite (decide_True (P := P)) by lia | rewrite (decide_False (P := P)) by lia]
  | H : context [decide ?P] |- _ =>
      first [rewrite (decide_True (P := P)) in H by lia | rewrite (decide_False (P := P)) in H by lia]
  end.

(** The next statement of [run] runs normally and keeps the invariant, unless it calls an
    empty function. *)
Lemma Thread_run_inv w cpc rpc :
  start_inv (mkStart w cpc rpc) -> stage rpc < last_stage ->
  exists rpc' w', Thread_run p tid kid rpc w = (Ret rpc', w') /\
    stage rpc' = S (stage rpc) /\ start_inv (mkStart w' cpc rpc').
Proof.
  intros ((v & Ho & Hv) & Hthis & Hname & Hk & Htask & Hsome & Hcalled) Hlt. unfold start_inv, last_stage in *.
  destruct rpc as [| | | | |t|t|]; [..|by destruct func; simpl in *; lia]; simpl in *; at_stage.
  all: try (assert (t = func) as -> by (by apply Htask; auto)).
  7: destruct func as [f|]; [|lia].
  all: unfold deref_thread; unfold_M; simpl; rewrite ?Ho; simpl.
  6: destruct Hv as [-> ->].
  all: eexists _, _; split; [done|]; split; [done|]; simpl.
  all: rewrite ?lookup_insert_eq; unfold Thread_GetThis, GetName, local_of in *; simpl;
    rewrite ?lookup_insert_eq; simpl.
  all: split; [eexists; split; [by try eassumption|by auto]|].
  all: repeat split; try (by intros; lia); try (by auto with lia); try done.
  all: try (by intros ? [[=]|[=]]); try (by intros ? [[= <-]|[=]]); try (by intros ? [[=]|[= <-]]).
  all: try (by intros _; apply Hthis; lia); try (by intros _; apply Hname; lia);
       try (by intros _; apply Hk; lia).
  by rewrite Hcalled, app_nil_r.
Qed.

(** Only the call of an empty function goes wrong. *)
Lemma Thread_run_stops w cpc rpc :
  start_inv (mkStart w cpc rpc) -> last_stage <= stage rpc ->
  (rpc = RDone /\ is_Some func) \/
  (rpc = RTask None /\ func = None /\ exists why, Thread_run p tid kid rpc w = (Abort why, w)).
Proof.
  intros (_ & _ & _ & _ & Htask & Hsome & _) Hle. unfold last_stage in *.
  destruct rpc as [| | | | |t|t|]; simpl in *; try (destruct func; lia).
  - specialize (Htask t (or_intror eq_refl)). subst t. destruct func; [lia|]. right. split; [done|]. split; [done|]. by eexists.
  - left. split; [done|]. by apply Hsome.
Qed.

(** The wait returns exactly when the object is filled in and the function taken. *)
Lemma ctor_wait_inv w rpc cpc' w' :
  start_inv (mkStart w PWait rpc) -> ctor_wait p false w = Some (cpc', w') ->
  cpc' = PReturned /\ 6 <= stage rpc /\ start_inv (mkStart w' cpc' rpc).
Proof.
  intros ((v & Ho & Hv) & Hrest) Hw. unfold ctor_wait in Hw. simpl in *. rewrite Ho in Hw. simpl in Hw.
  destruct (decide (6 <= stage rpc)) as [H6|H6].
  - destruct Hv as [[_ ->] | [? _]]; [|done]. simpl in Hw. injection Hw as <- <-.
    split; [done|]. split; [done|]. split; [|exact Hrest]. simpl. exists 0%Z.
    rewrite lookup_insert_eq. split; [done|]. rewrite decide_True by done. by right.
  - destruct Hv as [_ ->]. done.
Qed.

Lemma ctor_wait_ready w rpc :
  start_inv (mkStart w PWait rpc) -> 6 <= stage rpc ->
  exists w', ctor_wait p false w = Some (PReturned, w').
Proof.
  intros ((v & Ho & Hv) & _) H6. unfold ctor_wait. simpl in *. rewrite Ho. simpl.
  rewrite decide_True in Hv by done. destruct Hv as [[_ ->] | [? _]]; [|done]. simpl. by eexists.
Qed.

Lemma start_step_inv s s' :
  start_inv s -> start_step false p tid kid s s' -> start_inv s' /\ steps_left s = S (steps_left s').
Proof.
  intros Hi Hs. destruct Hs as [w rpc intr cpc' w' Hintr Hw|w cpc rpc rpc' w' Hne Hr].
  - destruct intr; [by specialize (Hintr eq_refl)|].
    destruct (ctor_wait_inv _ _ _ _ Hi Hw) as (-> & _ & Hi'). split; [done|].
    unfold steps_left. simpl. lia.
  - destruct (decide (stage rpc < last_stage)) as [Hlt|Hge].
    + destruct (Thread_run_inv _ _ _ Hi Hlt) as (rpc1 & w1 & Hr1 & Hst & Hi'). rewrite Hr in Hr1.
      injection Hr1 as <- <-. split; [done|]. unfold steps_left. simpl. rewrite Hst. lia.
    + destruct (Thread_run_stops _ _ _ Hi ltac:(lia)) as [[-> _]|(_ & _ & why & Hab)]; [done|].
      by rewrite Hr in Hab.
Qed.

Lemma start_runs_inv n s s' :
  start_inv s -> start_runs false p tid kid n s s' -> start_inv s' /\ steps_left s = n + steps_left s'.
Proof.
  intros Hi Hr. induction Hr as [s|n s s1 s2 Hs Hr IH]; [done|].
  destruct (start_step_inv _ _ Hi Hs) as [Hi1 Hl1]. destruct (IH Hi1) as [Hi2 Hl2]. split; [done|]. lia.
Qed.

(** A state without steps left is the end, or before the call of an empty function; any
    other can step. *)
Lemma start_progress s :
  start_inv s ->
  (steps_left s = 0 /\ st_ctor s = PReturned /\
   ((st_run s = RDone /\ is_Some func) \/
    (st_run s = RTask None /\ func = None /\
     exists why, Thread_run p tid kid (RTask None) (st_world s) = (Abort why, st_world s)))) \/
  exists s', start_step false p tid kid s s'.
Proof.
  intros Hi. destruct s as [w cpc rpc]. destruct (decide (last_stage <= stage rpc)) as [Hge|Hlt].
  - assert (6 <= stage rpc) as H6 by (unfold last_stage in Hge; destruct func; lia).
    pose proof (Thread_run_stops w cpc rpc Hi Hge) as Hstop.
    pose proof Hi as ((v & _ & Hv) & _). simpl in Hv. rewrite decide_True in Hv by lia.
    destruct Hv as [[-> _] | [-> _]].
    + right. destruct (ctor_wait_ready w rpc Hi H6) as [w' Hw].
      eexists. by apply (step_ctor _ _ _ _ w rpc false PReturned w').
    + left. unfold steps_left. simpl. split; [lia|]. split; [done|]. destruct Hstop as [?|(-> & ? & ?)]; [by left|by right].
  - right. destruct (Thread_run_inv w cpc rpc Hi) as (rpc' & w' & Hr & _); [lia|].
    eexists. apply step_run; [|exact Hr]. intros ->. unfold last_stage in Hlt. destruct func; simpl in Hlt; lia.
Qed.
End Start.

(** ** The claims *)

(** C22.  The start of a thread.  When [pthread_create] fails the constructor throws and
    leaves everything as it was.  When it succeeds: in every interleaving in which no
    signal interrupts the wait, no statement goes wrong but the call of an empty
    function, which terminates the program, and once the constructor has returned the
    object has the kernel's id of the thread, its name ("UNKNOW" for an empty one) and an
    empty [m_func], and the new thread's [Thread_GetThis] and [GetName] answer the object
    and its name; the kernel shows its first fifteen characters, up to a NUL; the
    function is called at most once, and is the one that was passed. *)
Theorem thread_start_handshake p tid func kid name w0 :
  (forall rt, rt <> 0%Z -> objs w0 !! p = None ->
     exists msg, ctor_create p func name rt w0 = (Throw msg, w0)) /\
  exists w1, ctor_create p func name 0 w0 = (Ret tt, w1) /\
  forall n s, start_runs false p tid kid n (mkStart w1 PWait REnter) s ->
  (st_run s = RDone \/ (exists r w', Thread_run p tid kid (st_run s) (st_world s) = (Ret r, w')) \/
   (func = None /\ st_run s = RTask None)) /\
  (forall e, st_ctor s <> PThrown e) /\
  (st_ctor s = PReturned ->
     objs (st_world s) !! p =
       Some (mkThread kid true None (match name with [] => $"UNKNOW" | _ => name end) 0) /\
     Thread_GetThis tid (st_world s) = Some p /\
     GetName tid (st_world s) = match name with [] => $"UNKNOW" | _ => name end /\
     kernel_names (st_world s) !! tid =
       Some (c_str (take 15 (match name with [] => $"UNKNOW" | _ => name end)))) /\
  (called (st_world s) = called w0 \/
   exists f, func = Some f /\ called (st_world s) = called w0 ++ [f]).
Proof.
  split.
  { intros rt Hrt Hp. unfold ctor_create. unfold_M. apply Z.eqb_neq in Hrt. rewrite Hrt. eexists.
    f_equal. unfold free_obj, set_obj. simpl. rewrite delete_insert_id by done. by destruct w0. }
  eexists. split; [reflexivity|]. intros n s Hr.
  destruct (start_runs_inv p tid func kid name w0 _ _ _ (started_inv p tid func kid name w0) Hr)
    as [Hi _]. split; [|split; [|split]].
  - destruct s as [w cpc rpc]. simpl. destruct (decide (stage rpc < last_stage func)) as [Hlt|Hge].
    + right. left. destruct (Thread_run_inv p tid func kid name w0 _ _ _ Hi Hlt) as (r & w' & H & _). by eexists _, _.
    + destruct (Thread_run_stops p tid func kid name w0 _ _ _ Hi) as [[-> _]|(-> & -> & _)]; [lia|by left|]. auto.
  - intros e He. destruct Hi as ((v & _ & Hv) & _). rewrite He in Hv.
    destruct (decide _); naive_solver.
  - intros Hp. destruct Hi as ((v & Ho & Hv) & Ht & Hn & Hk & _). rewrite Hp in Hv.
    destruct (decide (6 <= stage (st_run s))) as [H6|]; [|by destruct Hv].
    destruct Hv as [[? _] | [_ ->]]; [done|]. rewrite !decide_True in Ho by lia.
    split; [done|]. split; [apply Ht; lia|]. split; [apply Hn; lia|apply Hk; lia].
  - destruct Hi as (_ & _ & _ & _ & _ & Hsome & Hc). rewrite Hc. case_decide as H7; [|left; apply app_nil_r].
    destruct (Hsome H7) as [f ->]. right. by exists f.
Qed.

Definition no_threads : threads := mkThreads ∅ ∅ ∅ [].

(** The new thread runs up to [notify], then the constructor returns. *)
Definition sample_start : start_state :=
  mkStart (mkThreads {[ 0 := mkThread 4711 true None $"UNKNOW" 0 ]} {[ 1 := mkLocal (Some 0) $"UNKNOW" ]}
             {[ 1 := $"UNKNOW" ]} []) PReturned (RTask (Some 9)).

Lemma sample_start_runs : start_runs false 0 1 4711 7 (started_state 0 (Some 9) [] no_threads) sample_start.
Proof.
  do 6 (eapply start_more; [apply step_run; [done|by vm_compute]|]).
  eapply start_more; [eapply (step_ctor _ _ _ _ _ _ false); [done|by vm_compute]|]. apply start_stop.
Qed.

Lemma thread_start_handshake_witness :
  objs (st_world sample_start) !! 0 = Some (mkThread 4711 true None $"UNKNOW" 0) /\
  GetName 1 (st_world sample_start) = $"UNKNOW".
Proof.
  destruct (thread_start_handshake 0 1 (Some 9) 4711 [] no_threads) as (_ & w1 & E & H).
  injection E as <-. destruct (H 7 sample_start sample_start_runs) as (_ & _ & H' & _).
  destruct (H' eq_refl) as (Ho & _ & Hn & _). split; [exact Ho|exact Hn].
Defined.

(** C23.  Every start of a thread completes: without signals, from any point of any
    interleaving at most eight steps are possible in all, and where no step is
    possible the constructor has returned, and [run] has come to its end with the function
    called exactly once, or, for an empty function, to the call that terminates the
    program; so no interleaving deadlocks or runs forever. *)
Theorem thread_start_completes p tid func kid name w0 n s :
  start_runs false p tid kid n (started_state p func name w0) s ->
  n <= 8 /\
  ((forall s', ~ start_step false p tid kid s s') ->
   st_ctor s = PReturned /\
   match func with
   | Some f => n = 8 /\ st_run s = RDone /\ called (st_world s) = called w0 ++ [f]
   | None => n = 7 /\ st_run s = RTask None /\ called (st_world s) = called w0 /\
             exists why w', Thread_run p tid kid (RTask None) (st_world s) = (Abort why, w')
   end).
Proof.
  intros Hr. destruct (start_runs_inv p tid func kid name w0 _ _ _ (started_inv p tid func kid name w0) Hr)
    as [Hi Hn]. change (steps_left func (started_state p func name w0)) with (last_stage func - 0 + 1) in Hn.
  split; [unfold last_stage in Hn; destruct func; lia|]. intros Hstuck.
  destruct (start_progress p tid func kid name w0 s Hi) as [(H0 & Hc & Hd) | [s' Hs]]; [|by destruct (Hstuck s')].
  split; [done|]. destruct Hi as (_ & _ & _ & _ & _ & _ & Hcalled). unfold last_stage in Hn.
  destruct Hd as [[Hd [f ->]]|(Hd & -> & why & Hab)]; rewrite Hd in Hcalled; simpl in Hcalled;
    (split; [lia|]; split; [done|]); [exact Hcalled|]. rewrite app_nil_r in Hcalled. split; [exact Hcalled|]. by exists why, (st_world s).
Qed.

(** The end of [sample_start], with a function and without. *)
Definition sample_end : start_state :=
  mkStart (mkThreads {[ 0 := mkThread 4711 true None $"UNKNOW" 0 ]} {[ 1 := mkLocal (Some 0) $"UNKNOW" ]}
             {[ 1 := $"UNKNOW" ]} [9]) PReturned RDone.

Lemma sample_end_runs : start_runs false 0 1 4711 8 (started_state 0 (Some 9) [] no_threads) sample_end.
Proof.
  do 7 (eapply start_more; [apply step_run; [done|by vm_compute]|]).
  eapply start_more; [eapply (step_ctor _ _ _ _ _ _ false); [done|by vm_compute]|]. apply start_stop.
Qed.

Lemma thread_start_completes_witness :
  (forall s', ~ start_step false 0 1 4711 sample_end s') /\ called (st_world sample_end) = [9].
Proof.
  assert (forall s', ~ start_step false 0 1 4711 sample_end s') as Hstuck by (intros s' Hs; by inversion Hs).
  split; [exact Hstuck|].
  exact (proj2 (proj2 (proj2 (proj2 (thread_start_completes 0 1 (Some 9) 4711 [] no_threads 8 sample_end sample_end_runs) Hstuck)))).
Defined.

(** A signal during the constructor's wait is fatal: [sem_wait] fails with EINTR,
    the constructor throws and the object is destroyed, and the new thread, which is
    not stopped, uses it all the same. *)
Theorem interrupted_start_dangles p tid func kid name w0 :
  exists s r w', start_runs true p tid kid 1 (started_state p func name w0) s /\
    st_ctor s = PThrown $"sem_wait error" /\
    Thread_run p tid kid (st_run s) (st_world s) = (Ret r, w') /\
    exists why, fst (Thread_run p tid kid r w') = UB why.
Proof.
  eexists _, _, _. split.
  { eapply start_more; [|apply start_stop]. eapply (step_ctor _ _ _ _ _ _ true); [done|].
    unfold ctor_wait. simpl. rewrite lookup_insert_eq. done. }
  split; [done|]. split; [done|]. simpl. unfold_M. unfold deref_thread. simpl.
  rewrite lookup_delete_eq. by eexists.
Qed.

(** [Thread::SetName] follows [t_thread] without knowing whether the object still
    exists: [~Thread] detaches a running thread and leaves its [t_thread] behind, and
    from then on a call of [SetName] with a name on that thread is undefined. *)
Theorem SetName_after_destructor_ub p tid name o (w : threads) :
  name <> [] -> objs w !! p = Some o -> Thread_GetThis tid w = Some p ->
  (exists w1, SetName tid name w = (Ret tt, w1) /\ GetName tid w1 = name /\
     objs w1 !! p = Some (with_name name o)) /\
  exists detached w2 why, destroy_thread p w = (Ret detached, w2) /\ detached = th_thread o /\
    fst (SetName tid name w2) = UB why.
Proof.
  intros Hne Ho Ht. destruct name as [|c name]; [done|]. split.
  - eexists. split; [|split].
    + unfold SetName. unfold_M. rewrite Ht. unfold deref_thread. by rewrite Ho.
    + unfold GetName, local_of. simpl. by rewrite lookup_insert_eq.
    + simpl. by rewrite lookup_insert_eq.
  - eexists _, _, _. split; [unfold destroy_thread; unfold_M; unfold deref_thread; by rewrite Ho|].
    split; [done|]. unfold SetName. unfold_M.
    assert (Thread_GetThis tid (free_obj p w) = Some p) as Ht' by done. rewrite Ht'.
    unfold deref_thread. simpl. by rewrite lookup_delete_eq.
Qed.

Lemma SetName_after_destructor_ub_witness :
  exists detached w2 why, destroy_thread 0 (st_world sample_start) = (Ret detached, w2) /\
    detached = true /\ fst (SetName 1 $"net" w2) = UB why.
Proof.
  exact (proj2 (SetName_after_destructor_ub 0 1 $"net" (mkThread 4711 true None $"UNKNOW" 0)
                  (st_world sample_start) ltac:(discriminate) eq_refl eq_refl)).
Defined.
