(* ===== verification/Fiber.v ===== *)
(** * Fibers (fiber.h, fiber.cc)

    A fiber is a heap object with a state, a context slot ([m_ctx]) and a stack.
    The operations are modelled on the heap of all fibers together with the
    thread-local variables of the thread that executes them; [cur_flow] is the
    flow of control that thread is on, which is what [swapcontext] exchanges.
    A context slot says what resuming it would continue, so that resuming an
    unset slot, or one whose flow is already running, is visible as undefined
    behaviour. *)
From stdpp Require Import base gmap list strings.
From Stdlib Require Import Ascii.
From S2P Require Import Prelude.

(** ** Data *)

(** [Fiber::State]. *)
Inductive State : Type := INIT | HOLD | EXEC | TERM | READY | EXCEPT.

#[export] Instance State_eq_dec : EqDecision State.
Proof. solve_decision. Defined.

(** The code a fiber runs, as its interactions with the library.  [PStep] stands
    for any effect of the user's code outside the library; each other
    constructor is one call of the public interface. *)
Inductive prog : Type :=
| PReturn
| PThrow (e : str)
| PStep (n : nat) (k : prog)
| PYieldToReady (k : prog)
| PYieldToHold (k : prog)
| PSwapOut (k : prog)
| PSchedule (func : prog) (thread : Z) (k : prog)
| PScheduleFiber (fiber : nat) (thread : Z) (k : prog)
| PSwitchTo (thread : Z) (k : prog).

(** What a [std::function<void()>] of the library holds: user code, or one of the
    two members the scheduler binds. *)
Inductive func : Type :=
| FUser (p : prog)
| FIdle
| FRun.

(** The two entry functions [makecontext] is given. *)
Inductive Entry : Type := MainFunc | CallerMainFunc.

#[export] Instance Entry_eq_dec : EqDecision Entry.
Proof. solve_decision. Defined.

(** A flow of control: the original stack of a thread, or the stack of a fiber. *)
Inductive flow : Type := Native (thread : nat) | OnFiber (f : nat).

#[export] Instance flow_eq_dec : EqDecision flow.
Proof. solve_decision. Defined.

(** The contents of a [ucontext_t]: not set; filled by [getcontext] in the main
    fiber's constructor (never to be resumed as such); prepared by [makecontext]
    with the size of its stack; saved by [swapcontext]; or already resumed, its
    flow being on a processor. *)
Inductive ctx : Type :=
| CtxUnset
| CtxGot
| CtxMade (entry : Entry) (ss_size : Z)
| CtxSaved (fl : flow)
| CtxStale.

(** The pointer [m_stack]: never written, null, or a block of the given size. *)
Inductive stackptr : Type :=
| StackUninit
| StackNull
| StackAt (size : Z).

(** What is on a fiber's stack: the entry function about to run, the call of
    [cur->m_func()] inside it with the code that is left, or the end of the entry
    function, which must not be resumed. *)
Inductive code : Type :=
| CEntry (entry : Entry)
| CBody (entry : Entry) (cur : nat) (rest : func)
| CNever (entry : Entry).

(** The class [Fiber]; [stk] is the contents of the stack. *)
Record Fiber := mkFiber {
  m_id : Z;
  m_stacksize : Z;
  m_state : State;
  m_ctx : ctx;
  m_stack : stackptr;
  m_func : option func;
  stk : option code
}.

Definition set_state (s : State) (x : Fiber) : Fiber :=
  mkFiber (m_id x) (m_stacksize x) s (m_ctx x) (m_stack x) (m_func x) (stk x).
Definition set_ctx (c : ctx) (x : Fiber) : Fiber :=
  mkFiber (m_id x) (m_stacksize x) (m_state x) c (m_stack x) (m_func x) (stk x).
Definition set_func (f : option func) (x : Fiber) : Fiber :=
  mkFiber (m_id x) (m_stacksize x) (m_state x) (m_ctx x) (m_stack x) f (stk x).
Definition set_stk (c : option code) (x : Fiber) : Fiber :=
  mkFiber (m_id x) (m_stacksize x) (m_state x) (m_ctx x) (m_stack x) (m_func x) c.

(** The thread-local variables of fiber.cc and scheduler.cc, and the flow the
    thread is on. *)
Record tls := mkTls {
  t_fiber : option nat;
  t_threadFiber : option nat;
  t_scheduler_fiber : option nat;
  cur_flow : flow
}.

(** The fibers of the process, its counters, the value of the configuration
    variable fiber.stack_size, and the executing thread. *)
Record fworld := mkFworld {
  fibers : gmap nat Fiber;
  next_ptr : nat;
  s_fiber_id : Z;
  s_fiber_count : Z;
  g_fiber_stack_size : Z;
  loc : tls
}.

Definition set_fibers (m : gmap nat Fiber) (w : fworld) : fworld :=
  mkFworld m (next_ptr w) (s_fiber_id w) (s_fiber_count w) (g_fiber_stack_size w) (loc w).
Definition set_count (c : Z) (w : fworld) : fworld :=
  mkFworld (fibers w) (next_ptr w) (s_fiber_id w) c (g_fiber_stack_size w) (loc w).
Definition set_loc (l : tls) (w : fworld) : fworld :=
  mkFworld (fibers w) (next_ptr w) (s_fiber_id w) (s_fiber_count w) (g_fiber_stack_size w) l.
Definition put_t_fiber (f : option nat) (l : tls) : tls :=
  mkTls f (t_threadFiber l) (t_scheduler_fiber l) (cur_flow l).
Definition put_t_threadFiber (f : option nat) (l : tls) : tls :=
  mkTls (t_fiber l) f (t_scheduler_fiber l) (cur_flow l).
Definition put_t_scheduler_fiber (f : option nat) (l : tls) : tls :=
  mkTls (t_fiber l) (t_threadFiber l) f (cur_flow l).
Definition put_flow (fl : flow) (l : tls) : tls :=
  mkTls (t_fiber l) (t_threadFiber l) (t_scheduler_fiber l) fl.

(** ** Access to fibers *)
Definition deref (f : nat) : M fworld Fiber := fun w =>
  match fibers w !! f with
  | Some x => (Ret x, w)
  | None => (UB $"dangling fiber", w)
  end.

Definition update (f : nat) (g : Fiber -> Fiber) : M fworld unit :=
  x ← deref f;
  modify (fun w => set_fibers (<[f := g x]> (fibers w)) w).

(** A pointer that must not be null to be dereferenced. *)
Definition nonnull (p : option nat) : M fworld nat :=
  match p with Some f => mret f | None => ub $"null fiber" end.

Definition getState (f : nat) : M fworld State := x ← deref f; mret (m_state x).

(** ** Thread-local variables *)
Definition SetThis (f : option nat) : M fworld unit :=
  modify (fun w => set_loc (put_t_fiber f (loc w)) w).

(** [Scheduler::GetMainFiber()]. *)
Definition GetMainFiber : M fworld (option nat) := w ← get; mret (t_scheduler_fiber (loc w)).

Definition GetFiberId : M fworld Z :=
  w ← get;
  match t_fiber (loc w) with
  | Some f => x ← deref f; mret (m_id x)
  | None => mret 0%Z
  end.

(** [LioNet::GetFiberId()] of util.cc narrows the id to [uint32_t]. *)
Definition util_GetFiberId : M fworld Z := i ← GetFiberId; mret (u32 i).

Definition TotalFibers (w : fworld) : Z := s_fiber_count w.

(** ** Construction and destruction *)

(** [new Fiber()] of either kind: a new object under the next free address. *)
Definition allocate (mk : Z -> Fiber) : M fworld nat := fun w =>
  let id := u64 (s_fiber_id w + 1) in
  let p := next_ptr w in
  (Ret p, mkFworld (<[p := mk id]> (fibers w)) (S p) id (u64 (s_fiber_count w + 1))
            (g_fiber_stack_size w) (loc w)).

(** The private constructor [Fiber()] of the main fiber of a thread: it leaves
    [m_stacksize] and [m_stack] unwritten. *)
Definition new_main_fiber : M fworld nat :=
  p ← allocate (fun id => mkFiber id 0 EXEC CtxGot StackUninit None None);
  SetThis (Some p);;
  mret p.

(** [Fiber(func, stacksize, use_caller)]. *)
Definition new_fiber (f : option func) (stacksize : Z) (use_caller : bool) : M fworld nat :=
  w ← get;
  let size := u32 (if Z.eqb stacksize 0 then g_fiber_stack_size w else stacksize) in
  let entry := if use_caller then CallerMainFunc else MainFunc in
  allocate (fun id => mkFiber id size INIT (CtxMade entry size) (StackAt size) f None).

Definition finished (s : State) : bool :=
  match s with TERM | EXCEPT | INIT => true | _ => false end.

(** [~Fiber()], the object being freed at the end. *)
Definition destroy (f : nat) : M fworld unit :=
  x ← deref f;
  modify (fun w => set_count (u64 (s_fiber_count w - 1)) w);;
  match m_stack x with
  | StackUninit => ub $"m_stack is read uninitialised"
  | StackAt _ =>
      assert_that (finished (m_state x)) $"m_state == TERM || EXCEPT || INIT"
  | StackNull =>
      assert_that (match m_func x with None => true | Some _ => false end) $"!m_func";;
      assert_that (bool_decide (m_state x = EXEC)) $"m_state == EXEC";;
      w ← get;
      if decide (t_fiber (loc w) = Some f) then SetThis None else mret tt
  end;;
  modify (fun w => set_fibers (delete f (fibers w)) w).

(** [Fiber::reset(func)]. *)
Definition reset (f : nat) (fn : option func) : M fworld unit :=
  x ← deref f;
  match m_stack x with
  | StackUninit => ub $"m_stack is read uninitialised"
  | StackNull => assert_that false $"m_stack"
  | StackAt _ => mret tt
  end;;
  assert_that (finished (m_state x)) $"m_state == TERM || EXCEPT || INIT";;
  update f (fun x => mkFiber (m_id x) (m_stacksize x) INIT (CtxMade MainFunc (m_stacksize x))
                       (m_stack x) fn None).

(** ** Switching *)

(** [swapcontext(&from->m_ctx, &to->m_ctx)]: the flow of the thread is saved in
    the first slot, and the thread continues with what the second one holds.
    Resuming a slot marks it: its flow runs, and the registers it holds no longer
    describe that flow. *)
Definition swapcontext (from to : nat) : M fworld unit :=
  w ← get;
  update from (set_ctx (CtxSaved (cur_flow (loc w))));;
  x ← deref to;
  match m_ctx x with
  | CtxSaved fl =>
      update to (set_ctx CtxStale);;
      modify (fun w => set_loc (put_flow fl (loc w)) w)
  | CtxMade entry _ =>
      update to (fun x => set_stk (Some (CEntry entry)) (set_ctx CtxStale x));;
      modify (fun w => set_loc (put_flow (OnFiber to) (loc w)) w)
  | CtxUnset | CtxGot => ub $"context without a flow"
  | CtxStale => ub $"context of a running flow"
  end.

Definition call (f : nat) : M fworld unit :=
  SetThis (Some f);;
  update f (set_state EXEC);;
  w ← get;
  main ← nonnull (t_threadFiber (loc w));
  swapcontext main f.

Definition back (f : nat) : M fworld unit :=
  w ← get;
  SetThis (t_threadFiber (loc w));;
  main ← nonnull (t_threadFiber (loc w));
  swapcontext f main.

Definition swapIn (f : nat) : M fworld unit :=
  SetThis (Some f);;
  update f (set_state EXEC);;
  m ← GetMainFiber;
  main ← nonnull m;
  swapcontext main f.

Definition swapOut (f : nat) : M fworld unit :=
  m ← GetMainFiber;
  SetThis m;;
  main ← nonnull m;
  swapcontext f main.

(** [Fiber::GetThis()]: creates the main fiber of the thread when there is no
    current fiber. *)
Definition GetThis : M fworld nat :=
  w ← get;
  match t_fiber (loc w) with
  | Some f => deref f;; mret f
  | None =>
      main_fiber ← new_main_fiber;
      w' ← get;
      assert_that (bool_decide (t_fiber (loc w') = Some main_fiber))
        $"t_fiber == main_fiber.get()";;
      modify (fun w => set_loc (put_t_threadFiber (Some main_fiber) (loc w)) w);;
      mret main_fiber
  end.

(** The two yields: the new state is visible to other threads before [swapOut] has
    saved the context. *)
Definition yield_mark (s : State) : M fworld nat :=
  cur ← GetThis;
  st ← getState cur;
  assert_that (bool_decide (st = EXEC)) $"cur->m_state == EXEC";;
  update cur (set_state s);;
  mret cur.

Definition yield_with (s : State) : M fworld unit := cur ← yield_mark s; swapOut cur.

Definition YieldToReady : M fworld unit := yield_with READY.
Definition YieldToHold : M fworld unit := yield_with HOLD.

(** ** The entry functions *)

(** From the start of [MainFunc] or [CallerMainFunc], running on the stack of
    [f], to the call of [cur->m_func()]: the answer is [cur] and whether there is
    a function to call (calling an empty one throws std::bad_function_call). *)
Definition entry_begin (f : nat) (entry : Entry) : M fworld (nat * bool) :=
  cur ← GetThis;
  x ← deref cur;
  match m_func x with
  | Some fn => update f (set_stk (Some (CBody entry cur fn)));; mret (cur, true)
  | None => mret (cur, false)
  end.

(** The last lines: [cur.reset(); raw_ptr->swapOut()], or [back()]. *)
Definition entry_leave (f : nat) (entry : Entry) (cur : nat) : M fworld unit :=
  update f (set_stk (Some (CNever entry)));;
  match entry with
  | MainFunc => swapOut cur
  | CallerMainFunc => back cur
  end.

(** After [cur->m_func()] has returned. *)
Definition entry_return (f : nat) (entry : Entry) (cur : nat) : M fworld unit :=
  update cur (set_func None);;
  update cur (set_state TERM);;
  entry_leave f entry cur.

(** After it has thrown. *)
Definition entry_except (f : nat) (entry : Entry) (cur : nat) : M fworld unit :=
  update cur (set_state EXCEPT);;
  entry_leave f entry cur.

(** ** Well-formed worlds

    Addresses are never reused; the counters count; an id is the number of the
    allocation; a prepared context describes exactly the block that was allocated
    for the fiber. *)
Record wf (w : fworld) : Prop := mkWf {
  wf_fresh : forall f, is_Some (fibers w !! f) -> (f < next_ptr w)%nat;
  wf_count : s_fiber_count w = u64 (Z.of_nat (size (fibers w)));
  wf_next_id : s_fiber_id w = u64 (Z.of_nat (next_ptr w));
  wf_id : forall f x, fibers w !! f = Some x -> m_id x = u64 (Z.of_nat f + 1);
  wf_stack : forall f x sz, fibers w !! f = Some x -> m_stack x = StackAt sz ->
    m_stacksize x = sz /\ (0 <= sz < 2 ^ 32)%Z;
  wf_ctx : forall f x entry sz, fibers w !! f = Some x -> m_ctx x = CtxMade entry sz ->
    m_stack x = StackAt sz
}.

(** The process before any fiber exists, and a thread entering it. *)
Definition empty_fworld (stack_size : Z) (l : tls) : fworld := mkFworld ∅ 0 0 0 stack_size l.
Definition empty_tls (thread : nat) : tls := mkTls None None None (Native thread).

(** The public operations. *)
Inductive fiber_op : Type :=
| OpGetThis
| OpNew (f : option func) (stacksize : Z) (use_caller : bool)
| OpDestroy (f : nat)
| OpReset (f : nat) (fn : option func)
| OpCall (f : nat)
| OpBack (f : nat)
| OpSwapIn (f : nat)
| OpSwapOut (f : nat)
| OpYieldToReady
| OpYieldToHold.

Definition run_op (o : fiber_op) : M fworld unit :=
  match o with
  | OpGetThis => GetThis;; mret tt
  | OpNew f n c => new_fiber f n c;; mret tt
  | OpDestroy f => destroy f
  | OpReset f fn => reset f fn
  | OpCall f => call f
  | OpBack f => back f
  | OpSwapIn f => swapIn f
  | OpSwapOut f => swapOut f
  | OpYieldToReady => YieldToReady
  | OpYieldToHold => YieldToHold
  end.

(** A sequence of operations, by whatever threads: between two of them another
    thread, with its own variables, may take over. *)
Inductive fiber_trace : fworld -> fworld -> Prop :=
| trace_done w : fiber_trace w w
| trace_op w o w1 w2 :
    run_op o w = (Ret tt, w1) -> fiber_trace w1 w2 -> fiber_trace w w2
| trace_thread w l w2 : fiber_trace (set_loc l w) w2 -> fiber_trace w w2.

(** *** Every operation keeps worlds well-formed *)

(** An update that leaves the identity and the stack of a fiber alone. *)
Definition tame (x y : Fiber) : Prop :=
  m_id y = m_id x /\ m_stack y = m_stack x /\ m_stacksize y = m_stacksize x /\
  forall entry sz, m_ctx y = CtxMade entry sz ->
    m_ctx x = CtxMade entry sz \/ (m_stack x = StackAt sz).

Lemma deref_keeps I f : keeps I (deref f).
Proof. intros w x w' Hw. unfold deref. case_match; naive_solver. Qed.

Lemma wf_set_loc w l : wf w -> wf (set_loc l w).
Proof. intros []; constructor; assumption. Qed.

Lemma wf_update w f x y :
  wf w -> fibers w !! f = Some x -> tame x y -> wf (set_fibers (<[f := y]> (fibers w)) w).
Proof.
  intros [H1 H2 H3 H4 H5 H6] Hx (Hid & Hst & Hsz & Hc). constructor; simpl.
  - intros g. rewrite lookup_insert. case_decide; subst; [eauto|auto].
  - by rewrite map_size_insert, Hx.
  - done.
  - intros g z. rewrite lookup_insert. case_decide; subst; [intros [= <-]; rewrite Hid|]; eauto.
  - intros g z sz. rewrite lookup_insert. case_decide; subst; [intros [= <-]|eauto].
    rewrite Hst, Hsz. eauto.
  - intros g z entry sz. rewrite lookup_insert. case_decide; subst; [intros [= <-]|eauto].
    rewrite Hst. intros [?|?]%Hc; eauto.
Qed.

Lemma update_keeps_wf f g : (forall x, tame x (g x)) -> keeps wf (update f g).
Proof.
  intros Hg w a w' Hw. unfold update, deref. unfold_M.
  destruct (fibers w !! f) as [x|] eqn:E; [|done]. intros [= _ <-].
  by apply (wf_update _ _ x).
Qed.

Lemma nonnull_keeps I p : keeps I (nonnull p).
Proof. destruct p; [apply keeps_ret|apply keeps_lift]. Qed.

Lemma set_loc_keeps_wf (f : fworld -> tls) : keeps wf (modify (fun w => set_loc (f w) w)).
Proof. apply keeps_modify. intros; by apply wf_set_loc. Qed.

Lemma SetThis_keeps_wf f : keeps wf (SetThis f).
Proof. apply set_loc_keeps_wf. Qed.

#[export] Hint Resolve deref_keeps nonnull_keeps set_loc_keeps_wf SetThis_keeps_wf : lio.
#[export] Hint Extern 2 (keeps wf (update _ _)) =>
  apply update_keeps_wf; intros ?; repeat split; simpl; intros; simplify_eq; tauto : lio.
#[export] Hint Extern 1 (keeps _ (match ?x with _ => _ end)) => destruct x : lio.

Lemma swapcontext_keeps_wf from to : keeps wf (swapcontext from to).
Proof. unfold swapcontext. eauto 20 with lio. Qed.

Lemma GetMainFiber_keeps I : keeps I GetMainFiber.
Proof. unfold GetMainFiber. eauto with lio. Qed.

#[export] Hint Resolve swapcontext_keeps_wf GetMainFiber_keeps : lio.

Lemma wf_allocate w mk :
  wf w ->
  (forall id, m_id (mk id) = id) ->
  (forall id sz, m_stack (mk id) = StackAt sz ->
     m_stacksize (mk id) = sz /\ (0 <= sz < 2 ^ 32)%Z) ->
  (forall id e sz, m_ctx (mk id) = CtxMade e sz -> m_stack (mk id) = StackAt sz) ->
  wf (snd (allocate mk w)).
Proof.
  intros [H1 H2 H3 H4 H5 H6] Hid Hst Hc.
  assert (fibers w !! next_ptr w = None) as Hnone.
  { apply eq_None_not_Some. intros H. apply H1 in H. lia. }
  assert (u64 (s_fiber_id w + 1) = u64 (Z.of_nat (next_ptr w) + 1)) as Hnew.
  { rewrite H3. unfold u64. by rewrite Zplus_mod_idemp_l. }
  constructor; simpl.
  - intros g. rewrite lookup_insert. case_decide; subst; [lia|].
    intros Hg%H1. lia.
  - rewrite map_size_insert_None by done. rewrite H2. unfold u64.
    rewrite Zplus_mod_idemp_l. f_equal. lia.
  - rewrite Hnew. f_equal. lia.
  - intros g z. rewrite lookup_insert. case_decide; subst; [intros [= <-]|eauto].
    by rewrite Hid.
  - intros g z sz. rewrite lookup_insert. case_decide; subst; [intros [= <-]; apply Hst|eauto].
  - intros g z e sz. rewrite lookup_insert. case_decide; subst; [intros [= <-]; apply Hc|eauto].
Qed.

Lemma new_main_fiber_keeps_wf : keeps wf new_main_fiber.
Proof.
  unfold new_main_fiber. apply keeps_bind; [|eauto with lio].
  intros w p w' Hw H. replace w' with (snd (allocate
    (fun id => mkFiber id 0 EXEC CtxGot StackUninit None None) w)) by by rewrite H.
  by apply wf_allocate.
Qed.

Lemma new_fiber_keeps_wf f n c : keeps wf (new_fiber f n c).
Proof.
  intros w p w' Hw H. unfold new_fiber in H. unfold_M. simpl in H.
  match type of H with allocate ?mk _ = _ =>
    replace w' with (snd (allocate mk w)) by by rewrite H end.
  apply wf_allocate; try done; simpl.
  - intros id sz [= <-]. split; [done|]. apply Z.mod_pos_bound. lia.
  - intros id e sz [= _ <-]. done.
Qed.

#[export] Hint Resolve new_main_fiber_keeps_wf new_fiber_keeps_wf : lio.

Lemma GetThis_keeps_wf : keeps wf GetThis.
Proof. unfold GetThis. eauto 20 with lio. Qed.

#[export] Hint Resolve GetThis_keeps_wf : lio.

Lemma getState_keeps I f : keeps I (getState f).
Proof. unfold getState. eauto with lio. Qed.

#[export] Hint Resolve getState_keeps : lio.

Lemma swapOut_keeps_wf f : keeps wf (swapOut f).
Proof. unfold swapOut. eauto 20 with lio. Qed.

#[export] Hint Resolve swapOut_keeps_wf : lio.

Lemma reset_keeps_wf f fn : keeps wf (reset f fn).
Proof.
  intros w a w' Hw H. unfold reset, update, deref in H. unfold_M.
  destruct (fibers w !! f) as [x|] eqn:Hx; simpl in H; [|done].
  destruct (m_stack x) as [| |sz] eqn:Hst; simpl in H; try done.
  destruct (finished (m_state x)); simpl in H; [|done]. rewrite Hx in H.
  injection H as _ <-. eapply wf_update; [done..|].
  repeat split; simpl. intros e sz' [= _ <-]. right.
  destruct (wf_stack w Hw f x sz Hx Hst) as [-> _]. done.
Qed.

Lemma destroy_keeps_wf f : keeps wf (destroy f).
Proof.
  intros w a w' [H1 H2 H3 H4 H5 H6] H. unfold destroy, deref in H. unfold_M.
  destruct (fibers w !! f) as [x|] eqn:Hx; simpl in H; [|done].
  assert (exists l, w' = set_loc l (set_fibers (delete f (fibers w))
            (set_count (u64 (s_fiber_count w - 1)) w))) as [l ->].
  { destruct (m_stack x); simpl in H; [done| |].
    - destruct (m_func x); simpl in H; [done|].
      destruct (bool_decide (m_state x = EXEC)); simpl in H; [|done].
      case_decide; simpl in H; injection H as _ <-; [by eexists|].
      exists (loc w). by destruct w.
    - destruct (finished (m_state x)); simpl in H; [|done].
      injection H as _ <-. exists (loc w). by destruct w. }
  apply wf_set_loc. constructor; simpl; try setoid_rewrite lookup_delete_Some.
  - intros g [y Hy%lookup_delete_Some]. apply H1. naive_solver.
  - rewrite map_size_delete, Hx, H2. unfold u64.
    assert (size (fibers w) <> 0) by (apply map_size_ne_0_lookup; eauto).
    rewrite Zminus_mod_idemp_l. f_equal. lia.
  - done.
  - naive_solver.
  - naive_solver.
  - naive_solver.
Qed.

Lemma run_op_keeps_wf o : keeps wf (run_op o).
Proof.
  destruct o; unfold run_op, call, back, swapIn, YieldToReady, YieldToHold, yield_with, yield_mark;
    eauto 20 using reset_keeps_wf, destroy_keeps_wf with lio.
Qed.

Lemma fiber_trace_wf w w' : fiber_trace w w' -> wf w -> wf w'.
Proof.
  induction 1 as [w | w o w1 w2 Ho _ IH | w l w2 _ IH]; intros Hw; [done| |].
  - apply IH. by eapply (run_op_keeps_wf o).
  - by apply IH, wf_set_loc.
Qed.

Lemma empty_fworld_wf n l : wf (empty_fworld n l).
Proof. by constructor; simpl; [intros f [??]|..]. Qed.

(** *** Switching between a fiber and its scheduler *)

(** A fiber that can be resumed: its slot holds its own flow, or its entry. *)
Definition runnable (f : nat) (x : Fiber) : Prop :=
  m_ctx x = CtxSaved (OnFiber f) \/ exists entry sz, m_ctx x = CtxMade entry sz.

(** The fiber after it has been resumed. *)
Definition resumed (x : Fiber) : Fiber :=
  let stack := match m_ctx x with
               | CtxMade entry _ => Some (CEntry entry)
               | _ => stk x
               end in
  set_stk stack (set_ctx CtxStale (set_state EXEC x)).

(** The world in which [f] has been entered from [m]. *)
Definition entered (m f : nat) (xm xf : Fiber) (w : fworld) : fworld :=
  set_loc (put_flow (OnFiber f) (put_t_fiber (Some f) (loc w)))
    (set_fibers (<[f := resumed xf]> (<[m := set_ctx (CtxSaved (cur_flow (loc w))) xm]>
                   (fibers w))) w).

(** The world in which [f] has been left for the flow [fl] saved in [m]. *)
Definition left_for (m f : nat) (xm xf : Fiber) (s : State) (fl : flow) (w : fworld) : fworld :=
  set_loc (put_flow fl (put_t_fiber (Some m) (loc w)))
    (set_fibers (<[m := set_ctx CtxStale xm]>
       (<[f := set_ctx (CtxSaved (cur_flow (loc w))) (set_state s xf)]> (fibers w))) w).

(** Steps through the accesses of an operation, using the lookups at hand. *)
Ltac run_fiber :=
  repeat first
    [ progress unfold deref, update, getState, nonnull, GetMainFiber, SetThis
    | progress unfold_M
    | progress cbn
    | progress simplify_map_eq
    | rewrite insert_insert_eq
    | rewrite decide_True by done
    | rewrite bool_decide_eq_true_2 by done ].

(** Equal maps, key by key. *)
Ltac solve_map_eq :=
  apply map_eq; intros ?; rewrite !lookup_insert; repeat case_decide; by simplify_eq.

Lemma swapIn_spec w m f xm xf :
  t_scheduler_fiber (loc w) = Some m -> m <> f ->
  fibers w !! m = Some xm -> fibers w !! f = Some xf -> runnable f xf ->
  swapIn f w = (Ret tt, entered m f xm xf w).
Proof.
  intros Hm Hne Hxm Hxf Hrun. unfold swapIn, swapcontext, entered, resumed.
  destruct w as [fs np i c g [tf tt sf fl]]. simpl in *. subst.
  destruct xf as [fi fsz fst fctx fstk ffn fcode].
  destruct Hrun as [Hc | (entry & sz & Hc)]; simpl in Hc; subst fctx;
    run_fiber; unfold set_loc, set_fibers; simpl; do 2 f_equal; solve_map_eq.
Qed.

Lemma yield_spec w m f xm xf s fl :
  t_scheduler_fiber (loc w) = Some m -> t_fiber (loc w) = Some f -> m <> f ->
  fibers w !! m = Some xm -> m_ctx xm = CtxSaved fl ->
  fibers w !! f = Some xf -> m_state xf = EXEC ->
  yield_with s w = (Ret tt, left_for m f xm xf s fl w).
Proof.
  intros Hm Hf Hne Hxm Hc Hxf Hs. unfold yield_with, yield_mark, GetThis, swapOut, swapcontext, left_for.
  destruct w as [fs np i c g [tf tt sf fl']]. simpl in *. subst.
  run_fiber. rewrite Hc. run_fiber. done.
Qed.

Lemma call_spec w m f xm xf :
  t_threadFiber (loc w) = Some m -> m <> f ->
  fibers w !! m = Some xm -> fibers w !! f = Some xf -> runnable f xf ->
  call f w = (Ret tt, entered m f xm xf w).
Proof.
  intros Hm Hne Hxm Hxf Hrun. unfold call, swapcontext, entered, resumed.
  destruct w as [fs np i c g [tf tt sf fl]]. simpl in *. subst.
  destruct xf as [fi fsz fst fctx fstk ffn fcode].
  destruct Hrun as [Hc | (entry & sz & Hc)]; simpl in Hc; subst fctx;
    run_fiber; unfold set_loc, set_fibers; simpl; do 2 f_equal; solve_map_eq.
Qed.

(** Leaving the entry function without a scheduler. *)
Lemma swapOut_no_scheduler w f :
  t_scheduler_fiber (loc w) = None -> is_ub (fst (swapOut f w)) = true.
Proof. intros H. unfold swapOut. destruct w as [fs np i c g [tf tt sf fl]]. simpl in *. by subst. Qed.

(** ** The claims *)

(** C8.  Switching is a round trip.  Resuming a fiber from its scheduler puts the
    thread on the fiber's flow with the fiber EXEC and current; when the code on
    the fiber, whatever it did to the rest of the heap, yields with state [s], the
    thread is back on the flow it came from, the scheduler's fiber is current,
    and the fiber has state [s], its own flow saved (so that it can be resumed
    again), its identity and its stack contents unchanged; no third fiber is
    touched. *)
Theorem switch_roundtrip w m f xm xf w1 xf1 s :
  t_scheduler_fiber (loc w) = Some m -> m <> f ->
  fibers w !! m = Some xm -> fibers w !! f = Some xf -> runnable f xf ->
  (* the code on the fiber takes the world to [w1] *)
  loc w1 = loc (entered m f xm xf w) ->
  fibers w1 !! m = fibers (entered m f xm xf w) !! m ->
  fibers w1 !! f = Some xf1 -> m_state xf1 = EXEC ->
  swapIn f w = (Ret tt, entered m f xm xf w) /\
  t_fiber (loc (entered m f xm xf w)) = Some f /\
  cur_flow (loc (entered m f xm xf w)) = OnFiber f /\
  (m_state <$> fibers (entered m f xm xf w) !! f) = Some EXEC /\
  exists w2 yf, yield_with s w1 = (Ret tt, w2) /\
    loc w2 = put_t_fiber (Some m) (loc w) /\
    fibers w2 !! f = Some yf /\ m_state yf = s /\ runnable f yf /\
    m_id yf = m_id xf1 /\ stk yf = stk xf1 /\
    (forall g, g <> f -> g <> m -> fibers w2 !! g = fibers w1 !! g).
Proof.
  intros Hm Hne Hxm Hxf Hrun Hloc Hm1 Hf1 Hs.
  split; [by apply swapIn_spec|]. split; [done|]. split; [done|].
  assert (fibers w1 !! m = Some (set_ctx (CtxSaved (cur_flow (loc w))) xm)) as Hm1'.
  { rewrite Hm1. simpl. by simplify_map_eq. }
  split; [simpl; by simplify_map_eq|].
  exists (left_for m f (set_ctx (CtxSaved (cur_flow (loc w))) xm) xf1 s (cur_flow (loc w)) w1).
  exists (set_ctx (CtxSaved (cur_flow (loc w1))) (set_state s xf1)).
  split; [apply yield_spec; rewrite ?Hloc; done|].
  split; [simpl; by rewrite Hloc|].
  simpl. split; [by simplify_map_eq|]. split; [done|]. split; [|split; [done|split; [done|]]].
  - left. simpl. by rewrite Hloc.
  - intros g Hgf Hgm. by rewrite !lookup_insert_ne.
Qed.

(** A thread with a scheduler fiber 0 and a fresh fiber 1. *)
Definition sample_world : fworld :=
  snd ((m ← GetThis;
        modify (fun w => set_loc (put_t_scheduler_fiber (Some m) (loc w)) w);;
        new_fiber (Some (FUser (PYieldToHold PReturn))) 0 false)
       (empty_fworld 131072 (empty_tls 0))).

Definition fiber_of (w : fworld) (f : nat) : Fiber :=
  default (mkFiber 0 0 INIT CtxUnset StackNull None None) (fibers w !! f).

Lemma switch_roundtrip_witness :
  let w1 := entered 0 1 (fiber_of sample_world 0) (fiber_of sample_world 1) sample_world in
  swapIn 1 sample_world = (Ret tt, w1) /\
  exists w2 yf, yield_with HOLD w1 = (Ret tt, w2) /\ fibers w2 !! 1 = Some yf /\
    m_state yf = HOLD /\ runnable 1 yf.
Proof.
  destruct (switch_roundtrip sample_world 0 1
    (fiber_of sample_world 0) (fiber_of sample_world 1)
    (entered 0 1 (fiber_of sample_world 0) (fiber_of sample_world 1) sample_world)
    (resumed (fiber_of sample_world 1)) HOLD)
    as (Hin & _ & _ & _ & w2 & yf & Hy & _ & Hf & Hs & Hr & _).
  - reflexivity.
  - discriminate.
  - reflexivity.
  - reflexivity.
  - right. by exists MainFunc, 131072%Z.
  - reflexivity.
  - reflexivity.
  - reflexivity.
  - reflexivity.
  - split; [exact Hin|]. by exists w2, yf.
Defined.

(** C9.  In every world the public operations can reach from an empty process, by
    any threads: no address is used twice, [TotalFibers] is the number of live
    fibers, a fiber's id is the number of its allocation (so ids are distinct
    until the 64-bit counter wraps), and a context prepared by [makecontext]
    describes exactly the block allocated for that fiber. *)
Theorem reachable_worlds_wf stack_size l w :
  fiber_trace (empty_fworld stack_size l) w ->
  wf w /\ TotalFibers w = u64 (Z.of_nat (size (fibers w))) /\
  ((Z.of_nat (next_ptr w) < 2 ^ 64)%Z ->
   forall f g x y, fibers w !! f = Some x -> fibers w !! g = Some y ->
     m_id x = m_id y -> f = g).
Proof.
  intros Ht. pose proof (fiber_trace_wf _ _ Ht (empty_fworld_wf stack_size l)) as Hw.
  split; [done|]. split; [apply Hw|]. intros Hn f g x y Hx Hy Hid.
  rewrite (wf_id w Hw f x Hx), (wf_id w Hw g y Hy) in Hid.
  pose proof (wf_fresh w Hw f (mk_is_Some _ _ Hx)).
  pose proof (wf_fresh w Hw g (mk_is_Some _ _ Hy)).
  rewrite !u64_small in Hid by lia. lia.
Qed.

Lemma reachable_worlds_wf_witness : wf sample_world /\ TotalFibers sample_world = 2%Z.
Proof.
  destruct (reachable_worlds_wf 131072 (empty_tls 0) sample_world) as (Hw & Hc & _).
  - apply (trace_op _ OpGetThis (snd (run_op OpGetThis (empty_fworld 131072 (empty_tls 0)))));
      [reflexivity|].
    apply (trace_thread _ (mkTls (Some 0) (Some 0) (Some 0) (Native 0))).
    eapply (trace_op _ (OpNew (Some (FUser (PYieldToHold PReturn))) 0 false));
      [cbn; reflexivity|]. apply trace_done.
  - split; [exact Hw|exact Hc].
Defined.

(** Yielding needs a scheduler: on a thread whose scheduler fiber is not set,
    [YieldToHold] and [YieldToReady] of a running fiber dereference a null
    pointer (the way test_fiber.cc uses them after [call]). *)
Theorem yield_without_scheduler_ub w f x s :
  t_scheduler_fiber (loc w) = None -> t_fiber (loc w) = Some f ->
  fibers w !! f = Some x -> m_state x = EXEC ->
  is_ub (fst (yield_with s w)) = true.
Proof.
  intros Hm Hf Hx Hs. unfold yield_with, yield_mark, GetThis, swapOut.
  destruct w as [fs np i c g [tf tt sf fl]]. simpl in *. subst.
  run_fiber. done.
Qed.

(** The program of test_fiber.cc up to its first [YieldToHold]: [GetThis], a fiber
    made with [use_caller], [call], and the entry function. *)
Definition test_fiber_world : fworld :=
  snd ((GetThis;;
        f ← new_fiber (Some (FUser (PYieldToHold (PYieldToHold PReturn)))) 0 true;
        call f;;
        entry_begin f CallerMainFunc)
       (empty_fworld 131072 (empty_tls 0))).

Lemma yield_without_scheduler_ub_witness :
  is_ub (fst (YieldToHold test_fiber_world)) = true.
Proof.
  apply (yield_without_scheduler_ub test_fiber_world 1 (fiber_of test_fiber_world 1) HOLD);
    reflexivity.
Defined.

(** [reset] forgets that a fiber was made with [use_caller]: whatever its
    entry was, it is now [MainFunc], so a fiber that is reset and called again on
    a thread without scheduler cannot return to its caller: the end of its
    function dereferences a null pointer. *)
Theorem reset_caller_fiber_ub w m f xm xf fn sz :
  t_scheduler_fiber (loc w) = None -> t_threadFiber (loc w) = Some m -> m <> f ->
  fibers w !! m = Some xm -> fibers w !! f = Some xf ->
  m_stack xf = StackAt sz -> finished (m_state xf) = true ->
  exists w1, reset f (Some fn) w = (Ret tt, w1) /\
    (m_ctx <$> fibers w1 !! f) = Some (CtxMade MainFunc (m_stacksize xf)) /\
    is_ub (fst ((call f;; entry_begin f MainFunc;; entry_return f MainFunc f) w1)) = true.
Proof.
  intros Hs Ht Hne Hxm Hxf Hst Hfin.
  destruct w as [fs np i c g [tf tt sf fl]]. simpl in *. subst.
  unfold reset. run_fiber. rewrite Hst. run_fiber. rewrite Hfin. run_fiber.
  eexists. split; [reflexivity|]. split; [by simplify_map_eq|].
  unfold call, swapcontext, entry_begin, GetThis, entry_return, entry_leave, swapOut.
  run_fiber. done.
Qed.

(** The fiber of [test_fiber_world] run to the end of its function by [call]. *)
Definition called_world : fworld :=
  snd ((GetThis;;
        f ← new_fiber (Some (FUser PReturn)) 0 true;
        call f;;
        entry_begin f CallerMainFunc;;
        entry_return f CallerMainFunc f)
       (empty_fworld 131072 (empty_tls 0))).

Lemma reset_caller_fiber_ub_witness :
  cur_flow (loc called_world) = Native 0 /\
  exists w1, reset 1 (Some (FUser PReturn)) called_world = (Ret tt, w1) /\
    is_ub (fst ((call 1;; entry_begin 1 MainFunc;; entry_return 1 MainFunc 1) w1)) = true.
Proof.
  split; [reflexivity|].
  destruct (reset_caller_fiber_ub called_world 0 1 (fiber_of called_world 0)
    (fiber_of called_world 1) (FUser PReturn) 131072) as (w1 & H1 & _ & H2);
    [by vm_compute|by vm_compute|discriminate|by vm_compute..|].
  exists w1. by split.
Defined.

(** The main fiber of a thread cannot be destroyed safely: its constructor
    leaves [m_stack] unwritten and the destructor branches on it. *)
Theorem destroy_main_fiber_ub w p w' :
  new_main_fiber w = (Ret p, w') -> is_ub (fst (destroy p w')) = true.
Proof.
  unfold new_main_fiber, allocate. run_fiber. intros [= <- <-].
  unfold destroy. run_fiber. done.
Qed.

Lemma destroy_main_fiber_ub_witness :
  let w' := snd (new_main_fiber (empty_fworld 131072 (empty_tls 0))) in
  is_ub (fst (destroy 0 w')) = true.
Proof.
  apply (destroy_main_fiber_ub (empty_fworld 131072 (empty_tls 0))). reflexivity.
Defined.
