(* ===== verification/Scheduler.v ===== *)
(** * The scheduler (scheduler.h, scheduler.cc)

    A scheduler with its task queue and counters, the heap of fibers, and the
    threads that execute [Scheduler::run], each with its thread-local variables
    and its place in the loop.  [thread_step i] executes the next portion of code
    of thread [i] between two accesses to what threads share: a locked section, a
    counter, a switch, or one call of the library by the user's code.  Any
    interleaving of threads is a sequence of such steps ([sched_step]). *)
From stdpp Require Import base gmap list strings.
From Stdlib Require Import Ascii.
From S2P Require Import Prelude Fiber.

(** ** Data *)

(** [Scheduler::FiberAndThread]. *)
Record FiberAndThread := mkFT {
  ft_fiber : option nat;
  ft_func : option func;
  ft_thread : Z
}.

(** [FiberAndThread::reset] and the constructor without arguments. *)
Definition ft_empty : FiberAndThread := mkFT None None (-1).

(** The fields of class [Scheduler].  No constructor of the class writes [m_stopping] and
    [m_autoStop]: they hold a value only once something has been assigned to them. *)
Record Scheduler := mkScheduler {
  m_name : str;
  m_fibers : list FiberAndThread;
  m_rootFiber : option nat;
  m_threads : list nat;
  m_threadIds : list Z;
  m_threadCount : Z;
  m_activeThreadCount : Z;
  m_idleThreadCount : Z;
  m_stopping : option bool;
  m_autoStop : option bool;
  m_rootThread : Z
}.

(** Where a thread is: outside [run] (the code that uses the scheduler); at the
    start of [run]; at the head of its loop; past the locked section, with [ft]
    and [is_active]; inside the [swapIn] of a fiber, of [func_fiber] or of
    [idle_fiber]; after the decrement that follows it; or done. *)
Inductive pc : Type :=
| PcOutside
| PcStart
| PcTop
| PcDispatch (ft : FiberAndThread) (is_active : bool)
| PcInFiber (f : nat)
| PcAfterFiber (f : nat)
| PcInFunc
| PcAfterFunc
| PcInIdle
| PcDone.

(** A thread: its id, its thread-local variables, whether [t_scheduler] points to
    this scheduler, its place, and the locals [idle_fiber] and [func_fiber]. *)
Record thr := mkThr {
  th_id : Z;
  th_tls : tls;
  th_scheduler : bool;
  th_pc : pc;
  th_idle : option nat;
  th_func : option nat
}.

(** The process: fibers, scheduler, threads, the number of calls of [tickle] and
    the effects of user code in order. *)
Record world := mkWorld {
  w_heap : fworld;
  w_sched : Scheduler;
  w_threads : list thr;
  w_tickles : nat;
  w_log : list (nat * nat)
}.

(** *** Field updates *)
Definition set_queue (q : list FiberAndThread) (s : Scheduler) : Scheduler :=
  mkScheduler (m_name s) q (m_rootFiber s) (m_threads s) (m_threadIds s) (m_threadCount s)
    (m_activeThreadCount s) (m_idleThreadCount s) (m_stopping s) (m_autoStop s) (m_rootThread s).
Definition set_active (n : Z) (s : Scheduler) : Scheduler :=
  mkScheduler (m_name s) (m_fibers s) (m_rootFiber s) (m_threads s) (m_threadIds s)
    (m_threadCount s) n (m_idleThreadCount s) (m_stopping s) (m_autoStop s) (m_rootThread s).
Definition set_idle (n : Z) (s : Scheduler) : Scheduler :=
  mkScheduler (m_name s) (m_fibers s) (m_rootFiber s) (m_threads s) (m_threadIds s)
    (m_threadCount s) (m_activeThreadCount s) n (m_stopping s) (m_autoStop s) (m_rootThread s).
Definition set_stopping (b : bool) (s : Scheduler) : Scheduler :=
  mkScheduler (m_name s) (m_fibers s) (m_rootFiber s) (m_threads s) (m_threadIds s)
    (m_threadCount s) (m_activeThreadCount s) (m_idleThreadCount s) (Some b) (m_autoStop s)
    (m_rootThread s).
Definition set_autoStop (b : bool) (s : Scheduler) : Scheduler :=
  mkScheduler (m_name s) (m_fibers s) (m_rootFiber s) (m_threads s) (m_threadIds s)
    (m_threadCount s) (m_activeThreadCount s) (m_idleThreadCount s) (m_stopping s) (Some b)
    (m_rootThread s).
Definition set_pool (ts : list nat) (ids : list Z) (s : Scheduler) : Scheduler :=
  mkScheduler (m_name s) (m_fibers s) (m_rootFiber s) ts ids
    (m_threadCount s) (m_activeThreadCount s) (m_idleThreadCount s) (m_stopping s)
    (m_autoStop s) (m_rootThread s).

Definition put_tls (l : tls) (t : thr) : thr :=
  mkThr (th_id t) l (th_scheduler t) (th_pc t) (th_idle t) (th_func t).
Definition put_pc (p : pc) (t : thr) : thr :=
  mkThr (th_id t) (th_tls t) (th_scheduler t) p (th_idle t) (th_func t).
Definition put_scheduler (b : bool) (t : thr) : thr :=
  mkThr (th_id t) (th_tls t) b (th_pc t) (th_idle t) (th_func t).
Definition put_idle (f : option nat) (t : thr) : thr :=
  mkThr (th_id t) (th_tls t) (th_scheduler t) (th_pc t) f (th_func t).
Definition put_func (f : option nat) (t : thr) : thr :=
  mkThr (th_id t) (th_tls t) (th_scheduler t) (th_pc t) (th_idle t) f.

(** *** Access *)
Definition get_thr (i : nat) : M world thr := fun w =>
  match w_threads w !! i with
  | Some t => (Ret t, w)
  | None => (UB $"no such thread", w)
  end.

Definition mod_thr (i : nat) (g : thr -> thr) : M world unit :=
  t ← get_thr i;
  modify (fun w => mkWorld (w_heap w) (w_sched w) (<[i := g t]> (w_threads w))
                     (w_tickles w) (w_log w)).

Definition sched : M world Scheduler := w ← get; mret (w_sched w).

Definition mod_sched (g : Scheduler -> Scheduler) : M world unit :=
  modify (fun w => mkWorld (w_heap w) (g (w_sched w)) (w_threads w) (w_tickles w) (w_log w)).

(** A fiber operation executed by thread [i]: on the heap, with its variables. *)
Definition on_thread {A} (i : nat) (m : M fworld A) : M world A := fun w =>
  match w_threads w !! i with
  | None => (UB $"no such thread", w)
  | Some t =>
      let '(r, h) := m (set_loc (th_tls t) (w_heap w)) in
      (r, mkWorld h (w_sched w) (<[i := put_tls (loc h) t]> (w_threads w))
            (w_tickles w) (w_log w))
  end.

(** An effect of the user's code. *)
Definition emit (i n : nat) : M world unit :=
  modify (fun w => mkWorld (w_heap w) (w_sched w) (w_threads w) (w_tickles w)
                     (w_log w ++ [(i, n)])).

(** ** The virtual members of the base class *)

(** [tickle] only writes a log line; its calls are counted. *)
Definition tickle : M world unit :=
  modify (fun w => mkWorld (w_heap w) (w_sched w) (w_threads w) (S (w_tickles w)) (w_log w)).

Definition tickle_if (b : bool) : M world unit := if b then tickle else mret tt.

(** Reading one of the two flags: undefined before anything was assigned to it. *)
Definition read_flag (o : option bool) : M world bool :=
  match o with Some b => mret b | None => ub $"uninitialised field" end.

Definition stopping : M world bool :=
  s ← sched;
  autoStop ← read_flag (m_autoStop s);
  if (autoStop : bool) then
    b ← read_flag (m_stopping s);
    mret (b && match m_fibers s with [] => true | _ => false end && Z.eqb (m_activeThreadCount s) 0)
  else mret false.

(** The condition it evaluates under the lock. *)
Definition stopping_cond (s : Scheduler) : bool :=
  bool_decide (m_autoStop s = Some true) && bool_decide (m_stopping s = Some true) &&
  match m_fibers s with [] => true | _ => false end && Z.eqb (m_activeThreadCount s) 0.

(** Both flags have been assigned to. *)
Definition flags_set (s : Scheduler) : Prop := is_Some (m_stopping s) /\ is_Some (m_autoStop s).

Lemma stopping_cond_flags s :
  stopping_cond s = true -> m_autoStop s = Some true /\ m_stopping s = Some true /\ m_fibers s = [].
Proof.
  unfold stopping_cond. rewrite !andb_true_iff, !bool_decide_eq_true. by destruct (m_fibers s) as [|]; intros [[[? ?] ?] _].
Qed.

Lemma stopping_cond_set s : stopping_cond s = true -> flags_set s.
Proof. intros (H1 & H2 & _)%stopping_cond_flags. split; by eexists. Qed.

Lemma stopping_spec w :
  flags_set (w_sched w) -> stopping w = (Ret (stopping_cond (w_sched w)), w).
Proof.
  intros [[b Hb] [a Ha]]. unfold stopping, stopping_cond. unfold_M. simpl. rewrite Ha, Hb. by destruct a, b.
Qed.

Definition hasIdleThreads (s : Scheduler) : bool := Z.ltb 0 (m_idleThreadCount s).

Lemma stopping_inv w b w' : stopping w = (Ret b, w') -> w' = w /\ b = stopping_cond (w_sched w).
Proof.
  unfold stopping, stopping_cond. unfold_M. simpl. destruct (m_autoStop (w_sched w)) as [[]|]; simpl; [| |done].
  - destruct (m_stopping (w_sched w)) as [[]|]; simpl; [| |done]; by intros [= <- <-].
  - by intros [= <- <-].
Qed.

(** ** Scheduling *)

(** [scheduleNonLock]: the answer says whether the queue was empty. *)
Definition scheduleNonLock (ft : FiberAndThread) : M world bool :=
  s ← sched;
  let need_tickle := match m_fibers s with [] => true | _ => false end in
  match ft_fiber ft, ft_func ft with
  | None, None => mret tt
  | _, _ => mod_sched (set_queue (m_fibers s ++ [ft]))
  end;;
  mret need_tickle.

Definition schedule (ft : FiberAndThread) : M world unit :=
  need_tickle ← scheduleNonLock ft;
  tickle_if need_tickle.

Definition schedule_fiber (f : nat) (thread : Z) : M world unit :=
  schedule (mkFT (Some f) None thread).
Definition schedule_func (fn : option func) (thread : Z) : M world unit :=
  schedule (mkFT None fn thread).

(** The batch overload. *)
Fixpoint schedule_loop (fts : list FiberAndThread) (need_tickle : bool) : M world bool :=
  match fts with
  | [] => mret need_tickle
  | ft :: rest => b ← scheduleNonLock ft; schedule_loop rest (b || need_tickle)
  end.

Definition schedule_range (fts : list FiberAndThread) : M world unit :=
  need_tickle ← schedule_loop fts false;
  tickle_if need_tickle.

(** ** Construction, start and stop *)

(** The constructor, executed by thread [i]. *)
Definition construct (i : nat) (threads : Z) (use_caller : bool) (name : str) : M world unit :=
  assert_that (Z.ltb 0 threads) $"threads > 0";;
  mod_sched (fun _ => mkScheduler name [] None [] [] 0 0 0 None None 0);;
  if use_caller then
    on_thread i GetThis;;
    t ← get_thr i;
    assert_that (negb (th_scheduler t)) $"GetThis() == nullptr";;
    mod_thr i (put_scheduler true);;
    root ← on_thread i (new_fiber (Some FRun) 0 true);
    on_thread i (modify (fun w => set_loc (put_t_scheduler_fiber (Some root) (loc w)) w));;
    mod_sched (fun s => mkScheduler name [] (Some root) [] [th_id t] (threads - 1) 0 0
                          None None (th_id t))
  else
    mod_sched (fun s => mkScheduler name [] None [] [] threads 0 0 None None (-1)).

(** Both flags are protected members: a derived class can assign to them. *)
Definition assign_flags (stopping autoStop : bool) : M world unit :=
  mod_sched (set_stopping stopping);;
  mod_sched (set_autoStop autoStop).

(** [~Scheduler()]. *)
Definition destruct_scheduler (i : nat) : M world unit :=
  s ← sched;
  b ← read_flag (m_stopping s);
  assert_that b $"m_stopping";;
  t ← get_thr i;
  if th_scheduler t then mod_thr i (put_scheduler false) else mret tt.

(** A thread as [Thread] starts it: nothing is set in its variables. *)
Definition new_thr (index : nat) (tid : Z) : thr :=
  mkThr tid (empty_tls index) false PcStart None None.

(** The loop of [start] over the ids the new threads get. *)
Fixpoint start_loop (tids : list Z) : M world unit :=
  match tids with
  | [] => mret tt
  | tid :: rest =>
      w ← get;
      let index := length (w_threads w) in
      modify (fun w => mkWorld (w_heap w) (w_sched w) (w_threads w ++ [new_thr index tid])
                         (w_tickles w) (w_log w));;
      mod_sched (fun s => set_pool (m_threads s ++ [index]) (m_threadIds s ++ [tid]) s);;
      start_loop rest
  end.

(** [start]: [tids] are the ids the operating system gives to the threads, one for
    each of the [m_threadCount]. *)
Definition start (tids : list Z) : M world unit :=
  s ← sched;
  b ← read_flag (m_stopping s);
  if negb b then mret tt
  else
    mod_sched (set_stopping false);;
    assert_that (match m_threads s with [] => true | _ => false end) $"m_threads.empty()";;
    start_loop (take (Z.to_nat (m_threadCount s)) tids).

Fixpoint tickle_times (n : nat) : M world unit :=
  match n with O => mret tt | S n' => tickle;; tickle_times n' end.

(** [stop] up to its calls of [tickle], executed by thread [i]: the two flags are set,
    and it goes on to [stop_call] unless it returns at once (true). *)
Definition stop_flags (i : nat) : M world bool :=
  mod_sched (set_autoStop true);;
  s ← sched;
  early ←
    match m_rootFiber s with
    | Some root =>
        st ← on_thread i (getState root);
        if Z.eqb (m_threadCount s) 0 && (bool_decide (st = TERM) || bool_decide (st = INIT)) then
          mod_sched (set_stopping true);;
          stopping
        else mret false
    | None => mret false
    end;
  if (early : bool) then mret true
  else
    t ← get_thr i;
    (if Z.eqb (m_rootThread s) (-1)
     then assert_that (negb (th_scheduler t)) $"GetThis() != this"
     else assert_that (th_scheduler t) $"GetThis() == this");;
    mod_sched (set_stopping true);;
    tickle_times (Z.to_nat (m_threadCount s));;
    (match m_rootFiber s with Some _ => tickle | None => mret tt end);;
    mret false.

(** Then it asks [stopping()] again, and enters the root fiber, when there is one and
    work is left, before it goes on to the joins. *)
Definition stop_call (i : nat) : M world unit :=
  s ← sched;
  match m_rootFiber s with
  | Some root =>
      b ← stopping;
      if (b : bool) then mret tt
      else mod_thr i (put_pc PcStart);; on_thread i (call root)
  | None => mret tt
  end.

(** The rest of [stop]: the pool is moved out of the object, and the joins wait
    until every thread of it has returned from [run]. *)
Definition stop_swap : M world (list nat) :=
  s ← sched;
  mod_sched (set_pool [] (m_threadIds s));;
  mret (m_threads s).

Definition joined (thrs : list nat) (w : world) : bool :=
  forallb (fun j => match w_threads w !! j with
                    | Some t => match th_pc t with PcDone => true | _ => false end
                    | None => false
                    end) thrs.

(** ** [run] *)

(** The locked scan over the queue: [pre] has been passed over, [tickle_me] is the
    flag so far.  The answer is the entry taken, the queue after it, and the flag
    after the final [tickle_me |= it != m_fibers.end()]. *)
Fixpoint scan_queue (id : Z) (state_of : nat -> option State)
    (pre q : list FiberAndThread) (tickle_me : bool)
    : res (option FiberAndThread * list FiberAndThread * bool) :=
  match q with
  | [] => Ret (None, pre, tickle_me)
  | ft :: rest =>
      if negb (Z.eqb (ft_thread ft) (-1)) && negb (Z.eqb (ft_thread ft) id) then
        scan_queue id state_of (pre ++ [ft]) rest true
      else
        let take := Ret (Some ft, pre ++ rest,
                         tickle_me || match rest with [] => false | _ => true end) in
        match ft_fiber ft with
        | Some f =>
            match state_of f with
            | None => UB $"dangling fiber"
            | Some EXEC => scan_queue id state_of (pre ++ [ft]) rest tickle_me
            | Some _ => take
            end
        | None =>
            match ft_func ft with
            | Some _ => take
            | None => Abort $"it->fiber || it->func"
            end
        end
  end.

Definition add_active (d : Z) : M world unit :=
  mod_sched (fun s => set_active (u64 (m_activeThreadCount s + d)) s).
Definition add_idle (d : Z) : M world unit :=
  mod_sched (fun s => set_idle (u64 (m_idleThreadCount s + d)) s).

(** Before the loop: [setThis], the main fiber of the thread, [idle_fiber]. *)
Definition run_start (i : nat) : M world unit :=
  mod_thr i (put_scheduler true);;
  s ← sched;
  t ← get_thr i;
  (if Z.eqb (th_id t) (m_rootThread s) then mret tt
   else
     main ← on_thread i GetThis;
     on_thread i (modify (fun w => set_loc (put_t_scheduler_fiber (Some main) (loc w)) w)));;
  idle ← on_thread i (new_fiber (Some FIdle) 0 false);
  mod_thr i (fun t => put_pc PcTop (put_func None (put_idle (Some idle) t))).

(** [ft.reset()], the locked section and the tickle after it. *)
Definition run_take (i : nat) : M world unit :=
  t ← get_thr i;
  s ← sched;
  w ← get;
  r ← lift_res (scan_queue (th_id t) (fun f => m_state <$> fibers (w_heap w) !! f)
                  [] (m_fibers s) false);
  let '(found, q, tickle_me) := r in
  mod_sched (set_queue q);;
  match found with
  | Some ft => add_active 1;; mod_thr i (put_pc (PcDispatch ft true))
  | None => mod_thr i (put_pc (PcDispatch ft_empty false))
  end;;
  tickle_if tickle_me.

(** The thread function returns; in the root fiber, [CallerMainFunc] ends. *)
Definition run_finish (i : nat) : M world unit :=
  mod_thr i (put_pc PcDone);;
  t ← get_thr i;
  match cur_flow (th_tls t) with
  | Native _ => mret tt
  | OnFiber f => on_thread i (entry_return f CallerMainFunc f)
  end.

(** The branch without task. *)
Definition run_no_task (i : nat) (is_active : bool) : M world unit :=
  if is_active then add_active (-1);; mod_thr i (put_pc PcTop)
  else
    t ← get_thr i;
    idle ← on_thread i (nonnull (th_idle t));
    st ← on_thread i (getState idle);
    if decide (st = TERM) then run_finish i
    else
      add_idle 1;;
      mod_thr i (put_pc PcInIdle);;
      on_thread i (swapIn idle).

(** The branch of a function: [func_fiber] is reused or created. *)
Definition run_func (i : nat) (fn : func) : M world unit :=
  t ← get_thr i;
  f ← match th_func t with
      | Some f => on_thread i (Fiber.reset f (Some fn));; mret f
      | None =>
          f ← on_thread i (new_fiber (Some fn) 0 false);
          mod_thr i (put_func (Some f));;
          mret f
      end;
  mod_thr i (put_pc PcInFunc);;
  on_thread i (swapIn f).

(** The dispatch on the entry taken. *)
Definition run_dispatch (i : nat) (ft : FiberAndThread) (is_active : bool) : M world unit :=
  let otherwise :=
    match ft_func ft with
    | Some fn => run_func i fn
    | None => run_no_task i is_active
    end in
  match ft_fiber ft with
  | Some f =>
      st ← on_thread i (getState f);
      if bool_decide (st <> TERM) && bool_decide (st <> EXCEPT) then
        mod_thr i (put_pc (PcInFiber f));;
        on_thread i (swapIn f)
      else otherwise
  | None => otherwise
  end.

(** After the [swapIn] of a fiber from the queue and the decrement. *)
Definition run_after_fiber (i f : nat) : M world unit :=
  st ← on_thread i (getState f);
  match st with
  | READY | HOLD => schedule_fiber f (-1)
  | TERM | EXCEPT => mret tt
  | INIT | EXEC => on_thread i (update f (set_state HOLD))
  end;;
  mod_thr i (put_pc PcTop).

(** After the [swapIn] of [func_fiber] and the decrement. *)
Definition run_after_func (i : nat) : M world unit :=
  t ← get_thr i;
  f ← on_thread i (nonnull (th_func t));
  st ← on_thread i (getState f);
  match st with
  | READY | HOLD => schedule_fiber f (-1);; mod_thr i (put_func None)
  | TERM | EXCEPT => on_thread i (Fiber.reset f None)
  | INIT | EXEC =>
      on_thread i (update f (set_state HOLD));; mod_thr i (put_func None)
  end;;
  mod_thr i (put_pc PcTop).

(** After the [swapIn] of [idle_fiber]. *)
Definition run_after_idle (i : nat) : M world unit :=
  add_idle (-1);;
  t ← get_thr i;
  idle ← on_thread i (nonnull (th_idle t));
  st ← on_thread i (getState idle);
  (if bool_decide (st <> TERM) && bool_decide (st <> EXCEPT)
   then on_thread i (update idle (set_state HOLD))
   else mret tt);;
  mod_thr i (put_pc PcTop).

(** One step of [run] at the thread's place. *)
Definition run_step (i : nat) : M world unit :=
  t ← get_thr i;
  match th_pc t with
  | PcOutside | PcDone => ub $"not in run"
  | PcStart => run_start i
  | PcTop => run_take i
  | PcDispatch ft is_active => run_dispatch i ft is_active
  | PcInFiber f => add_active (-1);; mod_thr i (put_pc (PcAfterFiber f))
  | PcAfterFiber f => run_after_fiber i f
  | PcInFunc => add_active (-1);; mod_thr i (put_pc PcAfterFunc)
  | PcAfterFunc => run_after_func i
  | PcInIdle => run_after_idle i
  end.

(** ** Code on fibers *)

(** [switchTo(thread)] up to the yield: whether the fiber has to yield. *)
Definition switchTo (i : nat) (thread : Z) : M world bool :=
  t ← get_thr i;
  assert_that (th_scheduler t) $"Scheduler::GetThis() != nullptr";;
  if Z.eqb thread (-1) || Z.eqb thread (th_id t) then mret false
  else
    f ← on_thread i GetThis;
    schedule_fiber f thread;;
    mret true.

(** What is left of the function called by the entry function. *)
Definition continue_with (i f : nat) (entry : Entry) (cur : nat) (fn : func) : M world unit :=
  on_thread i (update f (set_stk (Some (CBody entry cur fn)))).

(** A yield is two steps: the state is written first, and what is left is
    [cur->swapOut()]. *)
Definition user_yield (i f : nat) (entry : Entry) (cur : nat) (s : State) (k : prog)
    : M world unit :=
  continue_with i f entry cur (FUser (PSwapOut k));;
  on_thread i (yield_mark s);;
  mret tt.

(** One step of user code. *)
Definition user_step (i f : nat) (entry : Entry) (cur : nat) (p : prog) : M world unit :=
  match p with
  | PReturn => on_thread i (entry_return f entry cur)
  | PThrow _ => on_thread i (entry_except f entry cur)
  | PStep n k => continue_with i f entry cur (FUser k);; emit i n
  | PYieldToReady k => user_yield i f entry cur READY k
  | PYieldToHold k => user_yield i f entry cur HOLD k
  | PSwapOut k =>
      continue_with i f entry cur (FUser k);;
      on_thread i (this ← GetThis; swapOut this)
  | PSchedule fn thread k =>
      continue_with i f entry cur (FUser k);; schedule_func (Some (FUser fn)) thread
  | PScheduleFiber g thread k =>
      continue_with i f entry cur (FUser k);; schedule_fiber g thread
  | PSwitchTo thread k =>
      b ← switchTo i thread;
      continue_with i f entry cur (FUser (if (b : bool) then PYieldToHold k else k))
  end.

(** One turn of [Scheduler::idle]. *)
Definition idle_step (i f : nat) (entry : Entry) (cur : nat) : M world unit :=
  b ← stopping;
  if (b : bool) then on_thread i (entry_return f entry cur)
  else on_thread i YieldToHold.

(** One step on the stack of fiber [f]. *)
Definition fiber_step (i f : nat) : M world unit :=
  x ← on_thread i (deref f);
  match stk x with
  | Some (CEntry entry) =>
      r ← on_thread i (entry_begin f entry);
      if (snd r : bool) then mret tt else on_thread i (entry_except f entry (fst r))
  | Some (CBody entry cur (FUser p)) => user_step i f entry cur p
  | Some (CBody entry cur FIdle) => idle_step i f entry cur
  | Some (CBody entry cur FRun) => run_step i
  | Some (CNever _) => lift_res (Abort $"never reach")
  | None => ub $"no code on the stack"
  end.

(** The next step of thread [i]. *)
Definition thread_step (i : nat) : M world unit :=
  t ← get_thr i;
  match cur_flow (th_tls t) with
  | Native _ => run_step i
  | OnFiber f => fiber_step i f
  end.

(** A thread has something to do unless it is outside or done with [run]. *)
Definition enabled (i : nat) (w : world) : bool :=
  match w_threads w !! i with
  | None => false
  | Some t =>
      match cur_flow (th_tls t), th_pc t with
      | Native _, (PcOutside | PcDone) => false
      | _, _ => true
      end
  end.

(** ** Executions *)

(** What happens to a scheduler: a thread's step; a call of [schedule] by code
    outside the scheduler; the two parts of [stop] before the joins, by a thread that is
    outside [run] and has not been in it.  Any interleaving of the threads is a sequence
    of these.  (The second part may come long after the first, and again, as if [stop]
    were called again.  For the creator's [stop] after its [run] has ended see
    [second_stop_aborts].) *)
Inductive sched_step : world -> world -> Prop :=
| sched_step_thread w i w' :
    enabled i w = true -> thread_step i w = (Ret tt, w') -> sched_step w w'
| sched_step_schedule w fn thread w' :
    schedule_func fn thread w = (Ret tt, w') -> sched_step w w'
| sched_step_stop w i t b w' :
    w_threads w !! i = Some t -> th_pc t = PcOutside ->
    stop_flags i w = (Ret b, w') -> sched_step w w'
| sched_step_call w i t w' :
    w_threads w !! i = Some t -> th_pc t = PcOutside ->
    stop_call i w = (Ret tt, w') -> sched_step w w'.

Definition sched_steps : world -> world -> Prop := rtc sched_step.

(** Running a given interleaving, as far as its steps return. *)
Fixpoint run_threads (order : list nat) : M world unit :=
  match order with
  | [] => mret tt
  | i :: rest =>
      w ← get;
      (if enabled i w then thread_step i else mret tt);;
      run_threads rest
  end.

(** The process as it starts: one thread, outside the scheduler. *)
Definition main_thr (tid : Z) : thr :=
  mkThr tid (empty_tls 0) false PcOutside None None.
Definition initial_world (tid : Z) : world :=
  mkWorld (empty_fworld 131072 (empty_tls 0)) (mkScheduler [] [] None [] [] 0 0 0 None None 0)
    [main_thr tid] 0 [].

(** [Scheduler::dump]. *)
Definition dump (s : Scheduler) : M world str :=
  b ← read_flag (m_stopping s);
  mret ($"[Scheduler name=" ++ m_name s ++ $" size=" ++ show_Z (m_threadCount s) ++
  $" active_count=" ++ show_Z (m_activeThreadCount s) ++
  $" idle_count=" ++ show_Z (m_idleThreadCount s) ++
  $" stopping=" ++ (if (b : bool) then $"1" else $"0") ++ $" ]" ++ nl ++ $"    " ++
  match m_threadIds s with
  | [] => []
  | id :: ids => show_Z id ++ concat (map (fun id => $", " ++ show_Z id) ids)
  end).

(** ** The counters *)

(** A thread is counted as active from the taking of an entry to the decrement
    after the switch, as idle inside its idle fiber. *)
Definition active_pc (p : pc) : bool :=
  match p with PcDispatch _ true | PcInFiber _ | PcInFunc => true | _ => false end.
Definition idle_pc (p : pc) : bool :=
  match p with PcInIdle => true | _ => false end.

Definition tally (P : pc -> bool) (ps : list pc) : Z :=
  Z.of_nat (length (filter (fun p => P p = true) ps)).

Definition places (w : world) : list pc := th_pc <$> w_threads w.

(** What the counters depend on. *)
Definition counters (w : world) : Z * Z * list pc :=
  (m_activeThreadCount (w_sched w), m_idleThreadCount (w_sched w), places w).

(** The counters agree with the places, and a thread that took nothing holds
    nothing. *)
Record counts_ok (c : Z * Z * list pc) : Prop := mkCounts {
  counts_active : fst (fst c) = u64 (tally active_pc (snd c));
  counts_idle : snd (fst c) = u64 (tally idle_pc (snd c));
  counts_empty : forall i ft, snd c !! i = Some (PcDispatch ft false) -> ft = ft_empty
}.

Lemma tally_insert P ps i c c' :
  ps !! i = Some c ->
  tally P (<[i := c']> ps) = (tally P ps - Z.b2z (P c) + Z.b2z (P c'))%Z.
Proof.
  unfold tally. revert i. induction ps as [|a ps IH]; intros i Hi; [done|].
  destruct i as [|i]; simpl in *; simplify_eq.
  - rewrite !filter_cons. destruct (P c), (P c'); simpl; lia.
  - rewrite !filter_cons. specialize (IH _ Hi). destruct (P a); simpl; lia.
Qed.

Lemma u64_add x d : u64 (u64 x + d) = u64 (x + d).
Proof. unfold u64. by rewrite Zplus_mod_idemp_l. Qed.

(** [moves c c' m]: [m] takes worlds with counters [c] to worlds with counters [c']. *)
Definition moves {A} (c c' : Z * Z * list pc) (m : M world A) : Prop :=
  forall w a w', counters w = c -> m w = (Ret a, w') -> counters w' = c'.

Lemma moves_bind {A B} c c' c'' (m : M world A) (f : A -> M world B) :
  moves c c' m -> (forall a, moves c' c'' (f a)) -> moves c c'' (m ≫= f).
Proof.
  intros Hm Hf w b w' Hw. unfold mbind, M_bind.
  destruct (m w) as [[a|?|?|?] w1] eqn:E; try done. intros H.
  eapply Hf; [|exact H]. by eapply Hm.
Qed.

Lemma moves_ret {A} c (a : A) : moves c c (mret a).
Proof. by intros w b w' Hw [= _ <-]. Qed.
Lemma moves_get c : moves c c get.
Proof. by intros w b w' Hw [= _ <-]. Qed.
Lemma moves_lift {A} c (r : res A) : moves c c (lift_res r).
Proof. by intros w b w' Hw [= _ <-]. Qed.
Lemma moves_read_flag c o : moves c c (read_flag o).
Proof. destruct o; by intros w x w' Hw [= _ <-]. Qed.
Lemma moves_sched c : moves c c sched.
Proof. by intros w b w' Hw [= _ <-]. Qed.
Lemma moves_get_thr c i : moves c c (get_thr i).
Proof. intros w b w' Hw. unfold get_thr. case_match; naive_solver. Qed.
Lemma moves_tickle_if c b : moves c c (tickle_if b).
Proof. destruct b; by intros w a w' Hw [= _ <-]. Qed.
Lemma moves_emit c i n : moves c c (emit i n).
Proof. by intros w a w' Hw [= _ <-]. Qed.

Lemma moves_on_thread {A} c i (m : M fworld A) : moves c c (on_thread i m).
Proof.
  intros w a w' Hw. unfold on_thread. case_match eqn:Hi; [|done].
  case_match. intros [= _ <-]. rewrite <- Hw. unfold counters, places; simpl. f_equal.
  rewrite list_fmap_insert. apply list_insert_id. by rewrite list_lookup_fmap, Hi.
Qed.

Lemma moves_mod_thr a d ps i g c :
  (forall t, th_pc (g t) = c) -> moves (a, d, ps) (a, d, <[i := c]> ps) (mod_thr i g).
Proof.
  intros Hg w b w' Hw. unfold mod_thr, get_thr. unfold_M.
  destruct (w_threads w !! i) as [t|] eqn:Ht; [|done]. simpl. intros [= _ <-].
  unfold counters, places. simpl. rewrite list_fmap_insert, Hg. unfold counters, places in Hw. by simplify_eq.
Qed.

Lemma moves_mod_thr_same c i g :
  (forall t, th_pc (g t) = th_pc t) -> moves c c (mod_thr i g).
Proof.
  intros Hg w b w' Hw. unfold mod_thr, get_thr. unfold_M.
  destruct (w_threads w !! i) as [t|] eqn:Ht; [|done]. simpl. intros [= _ <-].
  unfold counters, places. simpl. rewrite list_fmap_insert, Hg, list_insert_id; [done|].
  by rewrite list_lookup_fmap, Ht.
Qed.

Lemma moves_mod_sched c g :
  (forall s, m_activeThreadCount (g s) = m_activeThreadCount s /\
             m_idleThreadCount (g s) = m_idleThreadCount s) ->
  moves c c (mod_sched g).
Proof.
  intros Hg w b w' Hw [= _ <-]. rewrite <- Hw. unfold counters. simpl.
  by destruct (Hg (w_sched w)) as [-> ->].
Qed.

Lemma moves_add_active a d ps k : moves (a, d, ps) (u64 (a + k), d, ps) (add_active k).
Proof. intros w b w' [= <- <- <-] [= _ <-]. done. Qed.
Lemma moves_add_idle a d ps k : moves (a, d, ps) (a, u64 (d + k), ps) (add_idle k).
Proof. intros w b w' [= <- <- <-] [= _ <-]. done. Qed.

(** Code that leaves the counters alone. *)
Ltac still := repeat
  (cbv zeta;
   lazymatch goal with
   | |- moves ?c ?c (_ ≫= _) => apply (moves_bind c c c); [|intros ?]
   | |- moves ?c ?c (match ?x with _ => _ end) => destruct x
   | |- moves ?c ?c (mod_sched _) => apply moves_mod_sched; by intros []
   | |- moves ?c ?c (mod_thr _ _) => by apply moves_mod_thr_same
   | |- moves ?c ?c tickle => apply (moves_tickle_if c true)
   | |- moves ?c ?c (ub _) => apply moves_lift
   | |- moves ?c ?c (assert_that _ _) => apply moves_lift
   | |- moves ?c ?c (raise _) => apply moves_lift
   | |- _ => solve [eauto using moves_ret, moves_get, moves_lift, moves_read_flag, moves_sched,
               moves_get_thr, moves_tickle_if, moves_emit, moves_on_thread with lio]
   end).

Lemma moves_schedule c ft : moves c c (schedule ft).
Proof. unfold schedule, scheduleNonLock. still. Qed.

Lemma moves_schedule_fiber c f thread : moves c c (schedule_fiber f thread).
Proof. apply moves_schedule. Qed.
Lemma moves_schedule_func c fn thread : moves c c (schedule_func fn thread).
Proof. apply moves_schedule. Qed.

Lemma moves_tickle_times c n : moves c c (tickle_times n).
Proof. induction n; simpl; still. Qed.

#[local] Hint Resolve moves_schedule_fiber moves_schedule_func moves_tickle_times : lio.

Lemma moves_user_step c i f entry cur p : moves c c (user_step i f entry cur p).
Proof. destruct p; unfold user_step, user_yield, continue_with, switchTo; still. Qed.

Lemma moves_idle_step c i f entry cur : moves c c (idle_step i f entry cur).
Proof. unfold idle_step, stopping. still. Qed.

(** [leads c m]: [m] takes worlds with counters [c] to worlds whose counters are right. *)
Definition leads {A} (c : Z * Z * list pc) (m : M world A) : Prop :=
  forall w a w', counters w = c -> m w = (Ret a, w') -> counts_ok (counters w').

Lemma leads_bind {A B} c c' (m : M world A) (f : A -> M world B) :
  moves c c' m -> (forall a, leads c' (f a)) -> leads c (m ≫= f).
Proof.
  intros Hm Hf w b w' Hw. unfold mbind, M_bind.
  destruct (m w) as [[a|?|?|?] w1] eqn:E; try done. intros H.
  eapply Hf; [|exact H]. by eapply Hm.
Qed.

Lemma leads_assoc {A B C} c (m : M world A) (f : A -> M world B) (g : B -> M world C) :
  leads c (m ≫= (fun a => f a ≫= g)) -> leads c ((m ≫= f) ≫= g).
Proof.
  intros H w a w' Hw E. apply (H w a w' Hw). revert E. unfold mbind, M_bind.
  by destruct (m w) as [[?|?|?|?] ?].
Qed.

Lemma leads_moves {A} c c' (m : M world A) : moves c c' m -> counts_ok c' -> leads c m.
Proof. intros Hm Hc w a w' Hw H. by rewrite (Hm w a w' Hw H). Qed.

Lemma counts_same a d ps : counts_ok (a, d, ps) -> a = u64 (a + 0) /\ d = u64 (d + 0).
Proof. intros [Ha Hd _]. simpl in *. subst. by rewrite !u64_add, !Z.add_0_r. Qed.

(** A thread changes its place from [c] to [c']. *)
Lemma counts_place a d a' d' ps i c c' :
  counts_ok (a, d, ps) -> ps !! i = Some c ->
  (forall ft, c' = PcDispatch ft false -> ft = ft_empty) ->
  a' = u64 (a + (Z.b2z (active_pc c') - Z.b2z (active_pc c))) ->
  d' = u64 (d + (Z.b2z (idle_pc c') - Z.b2z (idle_pc c))) ->
  counts_ok (a', d', <[i := c']> ps).
Proof.
  intros [Ha Hd He] Hi Hc -> ->. simpl in *. subst. constructor; simpl.
  - rewrite (tally_insert _ _ _ c) by done. rewrite u64_add. f_equal. lia.
  - rewrite (tally_insert _ _ _ c) by done. rewrite u64_add. f_equal. lia.
  - intros j ft. rewrite list_lookup_insert. case_decide; naive_solver.
Qed.

(** One statement of a step: it leaves the counters alone, moves the thread, or
    changes a counter. *)
Ltac lead :=
  cbv zeta;
  lazymatch goal with
  | |- leads ?c (_ ≫= _) =>
      first
        [ apply (leads_bind c c); [solve [still]|intros ?]
        | eapply leads_bind; [apply moves_mod_thr; intros []; simpl; reflexivity|intros ?]
        | eapply leads_bind; [apply moves_add_active|intros ?]
        | eapply leads_bind; [apply moves_add_idle|intros ?]
        | match goal with |- leads _ ((match ?x with _ => _ end) ≫= _) => destruct x end
        | apply leads_assoc ]
  | |- leads ?c (match ?x with _ => _ end) =>
      first [ apply (leads_moves c c); [solve [still]|] | destruct x ]
  | |- leads ?c _ =>
      first [ apply (leads_moves c c); [solve [still]|]
            | eapply leads_moves; [apply moves_mod_thr; intros []; simpl; reflexivity|] ]
  end.

Section run_counts.
Context (i : nat) (a d : Z) (ps : list pc).
Context (Hok : counts_ok (a, d, ps)).

(** The last obligation of a case: [c'] is where the thread is now. *)
Ltac placed :=
  first
    [ done
    | eapply (counts_place a d);
      [ exact Hok | eassumption | naive_solver
      | first [reflexivity | apply (counts_same a d ps Hok)]
      | first [reflexivity | apply (counts_same a d ps Hok)] ] ].

Lemma run_start_counts : ps !! i = Some PcStart -> leads (a, d, ps) (run_start i).
Proof using Hok. intros Hi. unfold run_start. repeat lead; placed. Qed.

Lemma run_take_counts : ps !! i = Some PcTop -> leads (a, d, ps) (run_take i).
Proof using Hok.
  intros Hi. unfold run_take. do 4 lead.
  destruct a3 as [[found q] tickle_me]. lead. destruct found as [ft|].
  - eapply leads_bind.
    + eapply moves_bind; [apply moves_add_active|intros ?].
      apply moves_mod_thr. intros []. simpl. reflexivity.
    + intros ?. repeat lead; placed.
  - eapply leads_bind.
    + apply moves_mod_thr. intros []. simpl. reflexivity.
    + intros ?. repeat lead; placed.
Qed.

Lemma run_func_counts ft fn :
  ps !! i = Some (PcDispatch ft true) -> leads (a, d, ps) (run_func i fn).
Proof using Hok. intros Hi. unfold run_func. repeat lead; placed. Qed.

Lemma run_no_task_counts ft b :
  ps !! i = Some (PcDispatch ft b) -> leads (a, d, ps) (run_no_task i b).
Proof using Hok. intros Hi. unfold run_no_task, run_finish. repeat lead; placed. Qed.

Lemma run_dispatch_counts ft b :
  ps !! i = Some (PcDispatch ft b) -> leads (a, d, ps) (run_dispatch i ft b).
Proof using Hok.
  intros Hi. unfold run_dispatch. destruct b.
  - repeat first [eapply run_func_counts; eassumption | eapply run_no_task_counts; eassumption
                 | lead]; placed.
  - rewrite (counts_empty _ Hok i ft Hi) in *.
    change (leads (a, d, ps) (run_no_task i false)). eapply run_no_task_counts, Hi.
Qed.

Lemma run_step_counts t :
  ps !! i = Some (th_pc t) ->
  leads (a, d, ps)
    (match th_pc t with
     | PcOutside | PcDone => ub $"not in run"
     | PcStart => run_start i
     | PcTop => run_take i
     | PcDispatch ft is_active => run_dispatch i ft is_active
     | PcInFiber f => add_active (-1);; mod_thr i (put_pc (PcAfterFiber f))
     | PcAfterFiber f => run_after_fiber i f
     | PcInFunc => add_active (-1);; mod_thr i (put_pc PcAfterFunc)
     | PcAfterFunc => run_after_func i
     | PcInIdle => run_after_idle i
     end).
Proof using Hok.
  intros Hi. destruct (th_pc t) eqn:Hpc.
  - eapply leads_moves; [apply moves_lift|done].
  - by apply run_start_counts.
  - by apply run_take_counts.
  - by apply run_dispatch_counts.
  - repeat lead; placed.
  - unfold run_after_fiber. repeat lead; placed.
  - repeat lead; placed.
  - unfold run_after_func. repeat lead; placed.
  - unfold run_after_idle. repeat lead; placed.
  - eapply leads_moves; [apply moves_lift|done].
Qed.
End run_counts.

Lemma get_thr_bind {A} i t w (f : thr -> M world A) :
  w_threads w !! i = Some t -> (get_thr i ≫= f) w = f t w.
Proof. intros H. unfold mbind, M_bind, get_thr. by rewrite H. Qed.

Lemma get_thr_None {A} i w (f : thr -> M world A) a w' :
  w_threads w !! i = None -> (get_thr i ≫= f) w <> (Ret a, w').
Proof. intros H. unfold mbind, M_bind, get_thr. by rewrite H. Qed.

Lemma run_step_keeps_counts i w a w' :
  counts_ok (counters w) -> run_step i w = (Ret a, w') -> counts_ok (counters w').
Proof.
  intros Hok H. unfold run_step in H. destruct (w_threads w !! i) as [t|] eqn:Ht.
  - rewrite (get_thr_bind _ t) in H by done.
    destruct (counters w) as [[ac d] ps] eqn:Hw.
    eapply run_step_counts; [exact Hok| |exact Hw|exact H].
    unfold counters, places in Hw. simplify_eq. by rewrite list_lookup_fmap, Ht.
  - by apply get_thr_None in H.
Qed.

Lemma thread_step_keeps_counts i w a w' :
  counts_ok (counters w) -> thread_step i w = (Ret a, w') -> counts_ok (counters w').
Proof.
  intros Hok H. unfold thread_step in H. destruct (w_threads w !! i) as [t|] eqn:Ht;
    [|by apply get_thr_None in H].
  rewrite (get_thr_bind _ t) in H by done.
  destruct (cur_flow (th_tls t)) as [k|f]; [by eapply run_step_keeps_counts|].
  unfold fiber_step in H. apply bind_inv in H as (x & w1 & Hx & H).
  apply (moves_on_thread (counters w)) in Hx; [|done]. rewrite <- Hx in Hok.
  destruct (stk x) as [[entry|entry cur [p| |]|entry]|] eqn:Hstk; try done.
  - revert H. apply (leads_moves (counters w1) (counters w1)); [still|done|done].
  - by rewrite (moves_user_step (counters w1) _ _ _ _ _ w1 a w' eq_refl H).
  - by rewrite (moves_idle_step (counters w1) _ _ _ _ w1 a w' eq_refl H).
  - by eapply run_step_keeps_counts.
Qed.

Lemma moves_stop_flags c i : moves c c (stop_flags i).
Proof. unfold stop_flags, stopping. still. Qed.

Lemma stop_call_counts a d ps i :
  ps !! i = Some PcOutside -> counts_ok (a, d, ps) -> leads (a, d, ps) (stop_call i).
Proof.
  intros Hi Hok. unfold stop_call, stopping. repeat lead;
    first [done | eapply (counts_place a d); [exact Hok|exact Hi|done|..];
                  by apply (counts_same a d ps)].
Qed.

Lemma sched_step_keeps_counts w w' :
  sched_step w w' -> counts_ok (counters w) -> counts_ok (counters w').
Proof.
  intros [w0 i w1 _ H | w0 fn thread w1 H | w0 i t b w1 _ _ H | w0 i t w1 Ht Hpc H] Hok.
  - by eapply thread_step_keeps_counts.
  - by rewrite (moves_schedule_func (counters w0) _ _ w0 tt w1 eq_refl H).
  - by rewrite (moves_stop_flags (counters w0) i w0 b w1 eq_refl H).
  - destruct (counters w0) as [[a d] ps] eqn:Hw.
    eapply stop_call_counts; [| |exact Hw|exact H]; [|done].
    unfold counters, places in Hw. simplify_eq. by rewrite list_lookup_fmap, Ht, <- Hpc.
Qed.

Lemma sched_steps_keep_counts w w' :
  sched_steps w w' -> counts_ok (counters w) -> counts_ok (counters w').
Proof. induction 1; eauto using sched_step_keeps_counts. Qed.

(** *** Construction and start *)

(** A scheduler made by the first thread of a process and started, its flags assigned
    to in between, as by the constructor of a derived class. *)
Definition launch (tid n : Z) (use_caller : bool) (name : str) (stopping autoStop : bool) (tids : list Z)
    : res unit * world :=
  (construct 0 n use_caller name;; assign_flags stopping autoStop;; start tids) (initial_world tid).

Lemma construct_spec tid n use_caller name w :
  construct 0 n use_caller name (initial_world tid) = (Ret tt, w) ->
  (0 < n)%Z /\
  m_fibers (w_sched w) = [] /\ m_threads (w_sched w) = [] /\
  m_activeThreadCount (w_sched w) = 0%Z /\ m_idleThreadCount (w_sched w) = 0%Z /\
  m_threadCount (w_sched w) = (if use_caller then n - 1 else n)%Z /\
  m_stopping (w_sched w) = None /\ m_autoStop (w_sched w) = None /\
  m_rootThread (w_sched w) = (if use_caller then tid else -1)%Z /\
  exists t, w_threads w = [t] /\ th_id t = tid /\ th_pc t = PcOutside /\
    cur_flow (th_tls t) = Native 0.
Proof.
  unfold construct. unfold_M. destruct (Z.ltb 0 n) eqn:Hn; [|done].
  destruct use_caller; intros [= <-]; simpl;
    (split; [lia|]); repeat (split; [done|]); by eexists.
Qed.

Lemma start_loop_spec tids w :
  exists ts, start_loop tids w =
    (Ret tt, mkWorld (w_heap w)
       (set_pool (m_threads (w_sched w) ++ seq (length (w_threads w)) (length tids))
          (m_threadIds (w_sched w) ++ tids) (w_sched w))
       (w_threads w ++ ts) (w_tickles w) (w_log w)) /\
    th_pc <$> ts = replicate (length tids) PcStart /\ th_id <$> ts = tids /\
    Forall (fun t => exists index, t = new_thr index (th_id t)) ts.
Proof.
  revert w. induction tids as [|tid tids IH]; intros w; simpl.
  - exists []. rewrite !app_nil_r. by destruct w as [? [] ? ? ?].
  - unfold_M. simpl.
    match goal with |- context [start_loop tids ?w1] => destruct (IH w1) as (ts & Hs & Hp & Hi & Hn) end.
    exists (new_thr (length (w_threads w)) tid :: ts).
    rewrite Hs. simpl. rewrite length_app. simpl. rewrite Nat.add_1_r, <- !app_assoc. simpl.
    split; [done|]. simpl. split; [by f_equal|]. split; [by f_equal|].
    constructor; [by eexists|done].
Qed.

(** [start] reads [m_stopping], to which the constructor has assigned nothing: on a
    scheduler that is just made, [start] is undefined, and so are [dump] and the
    destructor. *)
Theorem start_reads_unassigned tid n use_caller name tids w :
  construct 0 n use_caller name (initial_world tid) = (Ret tt, w) ->
  is_ub (fst (start tids w)) = true /\ is_ub (fst (dump (w_sched w) w)) = true /\
  is_ub (fst (destruct_scheduler 0 w)) = true.
Proof.
  intros H. apply construct_spec in H as (_ & _ & _ & _ & _ & _ & Hg & _).
  unfold start, dump, destruct_scheduler. unfold_M. simpl. by rewrite Hg.
Qed.

Lemma start_reads_unassigned_witness :
  is_ub (fst (start [8%Z] (snd (construct 0 2 true $"test" (initial_world 7))))) = true.
Proof.
  by destruct (start_reads_unassigned 7 2 true $"test" [8%Z] (snd (construct 0 2 true $"test" (initial_world 7))))
    as [H _]; [by vm_compute|].
Defined.

(** [start] after the flags have been assigned to.  When [m_stopping] is false, it
    returns without creating a thread; when it is true, [start] creates the
    [m_threadCount] threads, records their ids after the caller's, and each begins at
    [run]. *)
Theorem start_follows_flag tid n use_caller name stopping autoStop tids w :
  (construct 0 n use_caller name;; assign_flags stopping autoStop) (initial_world tid) = (Ret tt, w) ->
  length tids = Z.to_nat (m_threadCount (w_sched w)) ->
  exists w', start tids w = (Ret tt, w') /\
    if stopping then
      exists ts, w_threads w' = w_threads w ++ ts /\ th_id <$> ts = tids /\
        th_pc <$> ts = replicate (length tids) PcStart /\
        m_threads (w_sched w') = seq 1 (length tids) /\
        m_threadIds (w_sched w') = m_threadIds (w_sched w) ++ tids /\
        m_stopping (w_sched w') = Some false
    else w' = w.
Proof.
  intros ([] & w1 & H & [= <-])%bind_inv Hlen.
  apply construct_spec in H as (_ & _ & Hp & _ & _ & _ & _ & _ & _ & t & Ht & _).
  unfold start. unfold_M. simpl. destruct stopping; simpl; [|by eexists].
  rewrite Hp, take_ge by (simpl in Hlen; lia).
  match goal with |- context [start_loop tids ?w1] =>
    destruct (start_loop_spec tids w1) as (ts & Hs & Hpc & Hi & _) end.
  rewrite Hs. eexists. split; [done|]. exists ts. simpl. rewrite Hp, Ht. by repeat split.
Qed.

Lemma start_follows_flag_witness :
  let w := snd ((construct 0 2 true $"test";; assign_flags true false) (initial_world 7)) in
  exists w', start [8%Z] w = (Ret tt, w') /\ m_threadIds (w_sched w') = [7%Z; 8%Z] /\
    length (w_threads w') = 2.
Proof.
  destruct (start_follows_flag 7 2 true $"test" true false [8%Z]
    (snd ((construct 0 2 true $"test";; assign_flags true false) (initial_world 7))))
    as (w' & Hs & ts & Ht & Hid & _ & _ & Hids & _); [by vm_compute|by vm_compute|].
  exists w'. split; [exact Hs|]. split; [rewrite Hids; by vm_compute|].
  rewrite Ht. apply (f_equal length) in Hid. rewrite length_fmap in Hid.
  rewrite length_app, Hid. by vm_compute.
Defined.

Lemma launch_counts tid n use_caller name g1 g2 tids w :
  launch tid n use_caller name g1 g2 tids = (Ret tt, w) -> counts_ok (counters w).
Proof.
  unfold launch. intros H. apply bind_inv in H as ([] & w1 & Hc & H).
  apply bind_inv in H as ([] & w2 & [= <-] & H). apply construct_spec in Hc as (_ & _ & _ & Ha & Hd & _ & _ & _ & _ & t & Ht & _ & Hpc & _).
  assert (forall ts s', m_activeThreadCount s' = 0%Z -> m_idleThreadCount s' = 0%Z ->
    (exists k, th_pc <$> ts = PcOutside :: replicate k PcStart) ->
    counts_ok (m_activeThreadCount s', m_idleThreadCount s', th_pc <$> ts)) as Hgen.
  { intros ts s' -> -> [k ->].
    assert (forall P, P PcOutside = false -> P PcStart = false ->
      tally P (PcOutside :: replicate k PcStart) = 0%Z) as Htal.
    { intros P H1 H2. unfold tally. rewrite filter_cons_False by congruence.
      induction k; [done|]. simpl. rewrite filter_cons_False by congruence. done. }
    constructor; simpl; [by rewrite Htal..|].
    intros [|j] ft; [done|]. simpl. rewrite lookup_replicate. naive_solver. }
  unfold start in H. unfold_M. simpl in H. destruct (negb _) eqn:Hg; simpl in H.
  - injection H as <-. apply Hgen; [done..|]. exists 0. by rewrite Ht, <- Hpc.
  - destruct (m_threads (w_sched w1)) eqn:Hm; simpl in H; [|done].
    match type of H with start_loop ?l ?w2 = _ =>
      destruct (start_loop_spec l w2) as (ts & Hs & Hp & _) end.
    rewrite Hs in H. injection H as <-. apply Hgen; [done..|].
    eexists. simpl. by rewrite Ht, fmap_app, Hp, <- Hpc.
Qed.

(** C7.  The counters are exact.  In every execution of a launched scheduler, for
    any number of threads and any interleaving, whatever code the fibers run:
    [m_activeThreadCount] is the number of threads between the taking of an entry
    and the decrement after its switch, [m_idleThreadCount] the number of threads
    inside their idle fiber, so that [hasIdleThreads] says whether there is one. *)
Theorem counters_exact tid n use_caller name g1 g2 tids w0 w :
  launch tid n use_caller name g1 g2 tids = (Ret tt, w0) -> sched_steps w0 w ->
  m_activeThreadCount (w_sched w) = u64 (tally active_pc (places w)) /\
  m_idleThreadCount (w_sched w) = u64 (tally idle_pc (places w)) /\
  ((Z.of_nat (length (w_threads w)) < 2 ^ 64)%Z ->
   m_activeThreadCount (w_sched w) = tally active_pc (places w) /\
   (hasIdleThreads (w_sched w) = true <-> exists i, places w !! i = Some PcInIdle)).
Proof.
  intros Hl Hs. apply launch_counts in Hl. apply (sched_steps_keep_counts _ _ Hs) in Hl.
  destruct Hl as [Ha Hd _]. simpl in *. split; [done|]. split; [done|]. intros Hlen.
  assert (forall P, (0 <= tally P (places w) < 2 ^ 64)%Z) as Hb.
  { intros P. unfold tally.
    pose proof (length_filter (fun p => P p = true) (places w)) as Hf.
    unfold places in Hf at 2. rewrite length_fmap in Hf. lia. }
  rewrite u64_small in Ha, Hd by done. split; [done|].
  unfold hasIdleThreads. rewrite Hd. unfold tally. split.
  - intros H%Z.ltb_lt. destruct (filter _ _) as [|p ps] eqn:Hf; [done|].
    assert (p ∈ filter (fun p => idle_pc p = true) (places w)) as Hp by (rewrite Hf; left).
    apply list_elem_of_filter in Hp as [Hi [i Hp]%list_elem_of_lookup].
    exists i. by destruct p.
  - intros [i Hi]. apply Z.ltb_lt.
    assert (PcInIdle ∈ filter (fun p => idle_pc p = true) (places w)) as Hp.
    { apply list_elem_of_filter. split; [done|]. by eapply list_elem_of_lookup_2. }
    destruct (filter _ _); [by apply not_elem_of_nil in Hp|simpl; lia].
Qed.

Lemma counters_exact_witness :
  let w := snd (launch 0 2 false $"test" true false [1%Z; 2%Z]) in
  m_activeThreadCount (w_sched (snd (thread_step 1 w))) =
    u64 (tally active_pc (places (snd (thread_step 1 w)))).
Proof.
  cbv zeta.
  destruct (counters_exact 0 2 false $"test" true false [1%Z; 2%Z]
    (snd (launch 0 2 false $"test" true false [1%Z; 2%Z]))
    (snd (thread_step 1 (snd (launch 0 2 false $"test" true false [1%Z; 2%Z]))))) as [H _].
  - by vm_compute.
  - apply rtc_once, (sched_step_thread _ 1); by vm_compute.
  - exact H.
Defined.

(** ** The scan of the queue *)

Definition pinned_elsewhere (id : Z) (ft : FiberAndThread) : bool :=
  negb (Z.eqb (ft_thread ft) (-1)) && negb (Z.eqb (ft_thread ft) id).

(** Whether thread [id] passes over an entry: it is pinned to another thread, or its
    fiber is still running. *)
Definition passes_over (id : Z) (state_of : nat -> option State) (ft : FiberAndThread) : bool :=
  pinned_elsewhere id ft ||
  match ft_fiber ft with
  | Some f => bool_decide (state_of f = Some EXEC)
  | None => false
  end.

(** An entry that can be in the queue: not empty, its fiber alive. *)
Definition sound_entry (state_of : nat -> option State) (ft : FiberAndThread) : Prop :=
  match ft_fiber ft with
  | Some f => is_Some (state_of f)
  | None => is_Some (ft_func ft)
  end.

Lemma scan_queue_spec id state_of pre q tickle_me :
  Forall (sound_entry state_of) q ->
  (Forall (fun ft => passes_over id state_of ft = true) q /\
   scan_queue id state_of pre q tickle_me =
     Ret (None, pre ++ q, tickle_me || existsb (pinned_elsewhere id) q)) \/
  exists a ft b, q = a ++ ft :: b /\
    Forall (fun ft => passes_over id state_of ft = true) a /\
    passes_over id state_of ft = false /\
    scan_queue id state_of pre q tickle_me =
      Ret (Some ft, pre ++ a ++ b,
           tickle_me || existsb (pinned_elsewhere id) a ||
             match b with [] => false | _ => true end).
Proof.
  intros Hq. revert pre tickle_me. induction Hq as [|ft q Hft Hq IH]; intros pre tm; simpl.
  { left. split; [done|]. by rewrite app_nil_r, orb_false_r. }
  fold (pinned_elsewhere id ft). destruct (pinned_elsewhere id ft) eqn:Hpin.
  { destruct (IH (pre ++ [ft]) true) as [[Ha ->] | (a & ft' & b & -> & Ha & Hp & ->)].
    - left. split; [constructor; [|done]; unfold passes_over; by rewrite Hpin|].
      rewrite <- app_assoc. by rewrite orb_true_r.
    - right. exists (ft :: a), ft', b. split; [done|].
      split; [constructor; [|done]; unfold passes_over; by rewrite Hpin|]. split; [done|].
      rewrite <- app_assoc. simpl. rewrite Hpin. simpl. by rewrite orb_true_r. }
  unfold sound_entry in Hft. destruct (ft_fiber ft) as [f|] eqn:Hf.
  - destruct Hft as [st Hst]. rewrite Hst. destruct (decide (st = EXEC)) as [->|Hne].
    + assert (passes_over id state_of ft = true) as Hpass
        by (unfold passes_over; by rewrite Hf, Hst, orb_true_r).
      destruct (IH (pre ++ [ft]) tm) as [[Ha ->] | (a & ft' & b & -> & Ha & Hp & ->)].
      * left. split; [by constructor|]. by rewrite <- app_assoc.
      * right. exists (ft :: a), ft', b. split; [done|]. split; [by constructor|].
        split; [done|]. simpl. by rewrite Hpin, <- app_assoc.
    + right. exists [], ft, q. split; [done|]. split; [done|]. split.
      * unfold passes_over. rewrite Hpin, Hf, Hst. simpl. apply bool_decide_eq_false. congruence.
      * simpl. rewrite orb_false_r. by destruct st.
  - destruct Hft as [fn Hfn]. rewrite Hfn.
    right. exists [], ft, q. split; [done|]. split; [done|]. split.
    + unfold passes_over. by rewrite Hpin, Hf.
    + simpl. by rewrite orb_false_r.
Qed.

(** What the scan removes, without assumptions on the queue. *)
Lemma scan_removes id state_of pre q tm found q' tm' :
  scan_queue id state_of pre q tm = Ret (found, q', tm') ->
  q' = pre ++ q \/
  exists x a b, found = Some x /\ q = a ++ x :: b /\ q' = pre ++ a ++ b /\
    (ft_thread x = (-1)%Z \/ ft_thread x = id).
Proof.
  revert pre tm. induction q as [|ft q IH]; intros pre tm; simpl.
  { intros [= <- <- <-]. left. by rewrite app_nil_r. }
  assert (forall tm1, scan_queue id state_of (pre ++ [ft]) q tm1 = Ret (found, q', tm') ->
    q' = pre ++ ft :: q \/
    exists x a b, found = Some x /\ ft :: q = a ++ x :: b /\ q' = pre ++ a ++ b /\
      (ft_thread x = (-1)%Z \/ ft_thread x = id)) as Hskip.
  { intros tm1 [->|(x & a & b & -> & -> & -> & Hx)]%IH; rewrite <- app_assoc; [by left|].
    right. by exists x, (ft :: a), b. }
  case_match eqn:Hpin; [apply Hskip|].
  assert (forall tm1, Ret (Some ft, pre ++ q, tm1) = Ret (found, q', tm') ->
    q' = pre ++ ft :: q \/
    exists x a b, found = Some x /\ ft :: q = a ++ x :: b /\ q' = pre ++ a ++ b /\
      (ft_thread x = (-1)%Z \/ ft_thread x = id)) as Htake.
  { intros tm1 [= <- <- _]. right. exists ft, [], q. repeat split; lia. }
  destruct (ft_fiber ft) as [f|].
  - destruct (state_of f) as [[]|]; try done; eauto.
  - destruct (ft_func ft); [eauto|done].
Qed.

(** C25.  The scan of [run] takes the first entry of the queue this thread may run:
    everything before it is pinned to another thread or is a fiber still
    running, the entry itself is unpinned or pinned to this thread and does not
    run, the rest keeps its order; and another thread is tickled exactly when an
    entry for another thread was passed over or entries are left behind. *)
Theorem scan_takes_first_eligible id state_of q :
  Forall (sound_entry state_of) q ->
  exists found q' tickle_me, scan_queue id state_of [] q false = Ret (found, q', tickle_me) /\
    match found with
    | None => q' = q /\ Forall (fun ft => passes_over id state_of ft = true) q /\
        tickle_me = existsb (pinned_elsewhere id) q
    | Some ft => exists a b, q = a ++ ft :: b /\ q' = a ++ b /\
        Forall (fun ft => passes_over id state_of ft = true) a /\
        (ft_thread ft = (-1)%Z \/ ft_thread ft = id) /\
        (forall f, ft_fiber ft = Some f -> state_of f <> Some EXEC) /\
        (tickle_me = true <-> b <> [] \/ exists x, x ∈ a /\ pinned_elsewhere id x = true)
    end.
Proof.
  intros Hq. destruct (scan_queue_spec id state_of [] q false Hq)
    as [[Ha ->] | (a & ft & b & -> & Ha & Hp & ->)].
  - by exists None, q, (existsb (pinned_elsewhere id) q).
  - eexists (Some ft), (a ++ b), _. split; [done|]. exists a, b. split; [done|]. split; [done|].
    split; [done|]. unfold passes_over in Hp. apply orb_false_iff in Hp as [H1 H2].
    split; [unfold pinned_elsewhere in H1; lia|]. split.
    { intros f Hf. rewrite Hf in H2. by apply bool_decide_eq_false in H2. }
    simpl. rewrite orb_true_iff, existsb_exists. setoid_rewrite list_elem_of_In.
    destruct b; naive_solver.
Qed.

Lemma scan_takes_first_eligible_witness :
  let q := [mkFT (Some 0) None (-1); mkFT None (Some FIdle) 5; mkFT None (Some FRun) 9] in
  Forall (sound_entry (fun _ => Some EXEC)) q /\
  exists found q' tickle_me, scan_queue 9 (fun _ => Some EXEC) [] q false =
    Ret (found, q', tickle_me).
Proof.
  assert (Forall (sound_entry (fun _ => Some EXEC))
    [mkFT (Some 0) None (-1); mkFT None (Some FIdle) 5; mkFT None (Some FRun) 9]) as Hq
    by (repeat constructor; by eexists).
  split; [exact Hq|].
  destruct (scan_takes_first_eligible 9 (fun _ => Some EXEC) _ Hq)
    as (found & q' & tm & H & _). by exists found, q', tm.
Defined.

(** ** Entries for a thread that is gone *)

Definition finished_thread (t : thr) : Prop :=
  th_pc t = PcDone /\ exists k, cur_flow (th_tls t) = Native k.

(** [ft] is in the queue and every thread with its id is finished. *)
Definition stranded (ft : FiberAndThread) (w : world) : Prop :=
  ft ∈ m_fibers (w_sched w) /\
  forall j t, w_threads w !! j = Some t -> th_id t = ft_thread ft -> finished_thread t.

(** The same, and thread [i], which is about to do something, is none of them. *)
Definition stranded_for (i : nat) (ft : FiberAndThread) (w : world) : Prop :=
  ft ∈ m_fibers (w_sched w) /\
  forall j t, w_threads w !! j = Some t -> th_id t = ft_thread ft ->
    j <> i /\ finished_thread t.

Lemma stranded_for_stranded i ft w : stranded_for i ft w -> stranded ft w.
Proof. intros [H1 H2]. split; [done|]. intros j t Ht Hid. by eapply H2. Qed.

Lemma stranded_stranded_for i ft w t :
  stranded ft w -> w_threads w !! i = Some t -> ~ finished_thread t -> stranded_for i ft w.
Proof.
  intros [H1 H2] Ht Hf. split; [done|]. intros j t' Ht' Hid. split; [|by eapply H2].
  intros ->. simplify_eq. eauto.
Qed.

Section stranded_keeps.
Context (i : nat) (ft : FiberAndThread).

Lemma on_thread_stranded {A} (m : M fworld A) : keeps (stranded_for i ft) (on_thread i m).
Proof.
  intros w a w' [Hq Hi]. unfold on_thread. case_match eqn:Ht; [|done].
  case_match. intros [= _ <-]. split; [done|]. simpl. intros j t'.
  rewrite list_lookup_insert. case_decide as Hj; [|eauto].
  destruct Hj as [<- _]. intros [= <-] Hid. by edestruct Hi as [? _].
Qed.

Lemma mod_thr_stranded g :
  (forall t, th_id (g t) = th_id t) -> keeps (stranded_for i ft) (mod_thr i g).
Proof.
  intros Hg w a w' [Hq Hi]. unfold mod_thr, get_thr. unfold_M.
  destruct (w_threads w !! i) as [t|] eqn:Ht; [|done]. simpl. intros [= _ <-].
  split; [done|]. simpl. intros j t'.
  rewrite list_lookup_insert. case_decide as Hj; [|eauto].
  destruct Hj as [<- _]. intros [= <-]. rewrite Hg. intros Hid. by edestruct Hi as [? _].
Qed.

Lemma mod_sched_stranded g :
  (forall s, ft ∈ m_fibers s -> ft ∈ m_fibers (g s)) -> keeps (stranded_for i ft) (mod_sched g).
Proof. intros Hg w a w' [Hq Hi] [= _ <-]. split; [by apply Hg|done]. Qed.

Lemma get_thr_stranded : keeps (stranded_for i ft) (get_thr i).
Proof. intros w a w' Hw. unfold get_thr. case_match; naive_solver. Qed.
Lemma sched_stranded : keeps (stranded_for i ft) sched.
Proof. by intros w a w' Hw [= _ <-]. Qed.
Lemma read_flag_stranded o : keeps (stranded_for i ft) (read_flag o).
Proof. destruct o; by intros w a w' Hw [= _ <-]. Qed.
Lemma tickle_stranded : keeps (stranded_for i ft) tickle.
Proof. by intros w a w' Hw [= _ <-]. Qed.
Lemma emit_stranded n : keeps (stranded_for i ft) (emit i n).
Proof. by intros w a w' Hw [= _ <-]. Qed.

#[local] Hint Resolve get_thr_stranded sched_stranded read_flag_stranded tickle_stranded emit_stranded
  on_thread_stranded : lio.

Ltac stays := repeat
  (cbv zeta;
   lazymatch goal with
   | |- keeps _ (_ ≫= _) => apply keeps_bind; [|intros ?]
   | |- keeps _ (match ?x with _ => _ end) => destruct x
   | |- keeps _ (mod_sched _) => apply mod_sched_stranded; intros []; simpl; set_solver
   | |- keeps _ (mod_thr _ _) => by apply mod_thr_stranded
   | |- keeps _ (schedule_fiber _ _) => unfold schedule_fiber
   | |- keeps _ (schedule_func _ _) => unfold schedule_func
   | |- keeps _ _ => solve [auto with lio]
   end).

Lemma tickle_if_stranded b : keeps (stranded_for i ft) (tickle_if b).
Proof. unfold tickle_if. stays. Qed.
Lemma tickle_times_stranded n : keeps (stranded_for i ft) (tickle_times n).
Proof. induction n; simpl; stays. Qed.
Lemma schedule_stranded e : keeps (stranded_for i ft) (schedule e).
Proof.
  unfold schedule. apply keeps_bind; [|intros b; apply tickle_if_stranded].
  intros w a w' [Hq Hi]. unfold scheduleNonLock. unfold_M. simpl. intros H.
  assert (w_threads w' = w_threads w /\
    (m_fibers (w_sched w') = m_fibers (w_sched w) \/
     m_fibers (w_sched w') = m_fibers (w_sched w) ++ [e])) as [Ht Hq'].
  { destruct (ft_fiber e); [|destruct (ft_func e)]; injection H as _ <-; auto. }
  split; [destruct Hq' as [-> | ->]; set_solver|by rewrite Ht].
Qed.

#[local] Hint Resolve tickle_if_stranded tickle_times_stranded schedule_stranded : lio.

(** The scan leaves an entry for another thread where it is. *)
Lemma run_take_stranded : ft_thread ft <> (-1)%Z -> keeps (stranded_for i ft) (run_take i).
Proof.
  intros Hne w a w' [Hq Hi] H. unfold run_take in H.
  destruct (w_threads w !! i) as [t|] eqn:Ht; [|by apply get_thr_None in H].
  rewrite (get_thr_bind _ t) in H by done.
  apply bind_inv in H as (s & w1 & [= <- <-] & H).
  apply bind_inv in H as (w2 & w3 & [= <- <-] & H).
  apply bind_inv in H as ([[found q] tm] & w1 & [= Hscan <-] & H).
  assert (th_id t <> ft_thread ft) as Hid by (intros Hid; by edestruct Hi).
  assert (ft ∈ q) as Hin.
  { destruct (scan_removes (th_id t) (fun f => m_state <$> fibers (w_heap w) !! f) []
      (m_fibers (w_sched w)) false found q tm Hscan) as [-> | (x & l & r & Hf & Hl & -> & Hx)];
      [done|]. simpl in Hl. rewrite Hl in Hq. set_unfold. naive_solver lia. }
  assert (keeps (stranded_for i ft)
    (match found with
     | Some e => add_active 1;; mod_thr i (put_pc (PcDispatch e true))
     | None => mod_thr i (put_pc (PcDispatch ft_empty false))
     end;; tickle_if tm)) as Hk.
  { unfold add_active. stays. }
  apply bind_inv in H as ([] & w1 & [= <-] & H). eapply Hk; [|exact H]. by split.
Qed.

Lemma run_step_stranded : ft_thread ft <> (-1)%Z -> keeps (stranded_for i ft) (run_step i).
Proof.
  intros Hne. unfold run_step. apply keeps_bind; [apply get_thr_stranded|intros t].
  destruct (th_pc t); try (by apply run_take_stranded);
    unfold run_start, run_dispatch, run_no_task, run_finish, run_func, run_after_fiber,
      run_after_func, run_after_idle, add_active, add_idle; stays.
Qed.

Lemma user_step_stranded f entry cur p : keeps (stranded_for i ft) (user_step i f entry cur p).
Proof.
  destruct p; unfold user_step, user_yield, continue_with, switchTo; stays.
Qed.

Lemma thread_step_stranded : ft_thread ft <> (-1)%Z -> keeps (stranded_for i ft) (thread_step i).
Proof.
  intros Hne. unfold thread_step, fiber_step, idle_step, stopping.
  apply keeps_bind; [apply get_thr_stranded|intros t].
  destruct (cur_flow _); [by apply run_step_stranded|].
  apply keeps_bind; [apply on_thread_stranded|intros x].
  destruct (stk x) as [[entry|entry cur [p| |]|entry]|];
    try (by (apply run_step_stranded || apply user_step_stranded)); stays.
Qed.

Lemma stop_flags_stranded : keeps (stranded_for i ft) (stop_flags i).
Proof. unfold stop_flags, stopping. stays. Qed.
Lemma stop_call_stranded : keeps (stranded_for i ft) (stop_call i).
Proof. unfold stop_call, stopping. stays. Qed.
End stranded_keeps.

Lemma enabled_not_finished i w t :
  enabled i w = true -> w_threads w !! i = Some t -> ~ finished_thread t.
Proof.
  unfold enabled. intros H Ht [Hpc [k Hk]]. rewrite Ht, Hk, Hpc in H. done.
Qed.

Lemma sched_step_stranded ft w w' :
  ft_thread ft <> (-1)%Z -> sched_step w w' -> stranded ft w -> stranded ft w'.
Proof.
  intros Hne [w0 i w1 He H | w0 fn thread w1 H | w0 i t b w1 Ht Hpc H | w0 i t w1 Ht Hpc H] Hs.
  - destruct (w_threads w0 !! i) as [t|] eqn:Ht; [|unfold enabled in He; by rewrite Ht in He].
    apply (stranded_for_stranded i).
    eapply thread_step_stranded; [exact Hne| |exact H].
    eapply stranded_stranded_for; [done|exact Ht|by eapply enabled_not_finished].
  - apply (stranded_for_stranded (length (w_threads w0))).
    eapply schedule_stranded; [|exact H]. destruct Hs as [Hq Hi].
    split; [done|]. intros j t Ht Hid. split; [|by eapply Hi].
    apply lookup_lt_Some in Ht. lia.
  - apply (stranded_for_stranded i). eapply stop_flags_stranded; [|exact H].
    eapply stranded_stranded_for; [done|exact Ht|]. intros [? _]. congruence.
  - apply (stranded_for_stranded i). eapply stop_call_stranded; [|exact H].
    eapply stranded_stranded_for; [done|exact Ht|]. intros [? _]. congruence.
Qed.

Lemma sched_steps_stranded ft w w' :
  ft_thread ft <> (-1)%Z -> sched_steps w w' -> stranded ft w -> stranded ft w'.
Proof. intros Hne. induction 1; eauto using sched_step_stranded. Qed.

(** C38.  A task pinned to a thread that does not exist, or has left [run], is never
    run: in every execution of the threads there are, with anything scheduled and
    stopped, it stays in the queue, so [stopping] never holds and the threads that
    are left never finish (and [stop] never returns). *)
Theorem pinned_to_nobody_never_runs ft w w' :
  ft_thread ft <> (-1)%Z -> ft ∈ m_fibers (w_sched w) ->
  (forall j t, w_threads w !! j = Some t -> th_id t = ft_thread ft -> finished_thread t) ->
  sched_steps w w' ->
  ft ∈ m_fibers (w_sched w') /\ stopping_cond (w_sched w') = false.
Proof.
  intros Hne Hq Hi Hs. destruct (sched_steps_stranded ft w w' Hne Hs (conj Hq Hi)) as [Hq' _].
  split; [done|]. unfold stopping_cond.
  destruct (m_fibers (w_sched w')); [by apply not_elem_of_nil in Hq'|].
  by rewrite andb_false_r.
Qed.

(** Two threads with ids 1 and 2 and a task for a thread 3. *)
Definition world_with (tasks : list FiberAndThread) : world :=
  snd ((construct 0 2 false $"test";; assign_flags true false;; start [1%Z; 2%Z];; schedule_range tasks)
         (initial_world 0)).

Lemma pinned_to_nobody_never_runs_witness :
  let ft := mkFT None (Some (FUser PReturn)) 3 in
  ft ∈ m_fibers (w_sched (world_with [ft])) /\
  forall w', sched_steps (world_with [ft]) w' -> stopping_cond (w_sched w') = false.
Proof.
  assert (mkFT None (Some (FUser PReturn)) 3 ∈
    m_fibers (w_sched (world_with [mkFT None (Some (FUser PReturn)) 3]))) as Hin.
  { vm_compute. left. }
  split; [exact Hin|]. intros w' Hs.
  apply (pinned_to_nobody_never_runs (mkFT None (Some (FUser PReturn)) 3)
    (world_with [mkFT None (Some (FUser PReturn)) 3]) w');
    [discriminate|exact Hin| |exact Hs].
  intros [|[|[|j]]] t; vm_compute; [by intros [= <-]..|discriminate].
Defined.

Lemma run_threads_steps order w w' :
  run_threads order w = (Ret tt, w') -> sched_steps w w'.
Proof.
  revert w. induction order as [|i order IH]; intros w; simpl.
  - intros [= <-]. apply rtc_refl.
  - intros H. apply bind_inv in H as (w0 & w1 & [= <- <-] & H).
    apply bind_inv in H as ([] & w1 & H1 & H). destruct (enabled i w) eqn:He.
    + eapply rtc_l; [by econstructor|]. by apply IH.
    + injection H1 as <-. by apply IH.
Qed.

(** Where an interleaving leads from a world. *)
Definition after (order : list nat) (w : world) : world := snd (run_threads order w).

Lemma after_steps order w :
  is_ret (fst (run_threads order w)) = true -> sched_steps w (after order w).
Proof.
  intros H. apply (run_threads_steps order). unfold after.
  destruct (run_threads order w) as [[[]|?|?|?] w']; by try discriminate.
Qed.

(** *** A worker that leaves too early *)

(** A task yields and then schedules work for thread 2; [stop] has been called. *)
Definition early_task : prog := PYieldToHold (PSchedule (PStep 5 PReturn) 2 PReturn).
Definition early_world : world :=
  snd ((stop_flags 0;; stop_call 0) (world_with [mkFT None (Some (FUser early_task)) (-1)])).

(** Thread 1 runs the task up to its first yield and decrements the counter; thread
    2 goes through its loop and out of it; thread 1 goes on. *)
Definition early_order : list nat := repeat 1 7 ++ repeat 2 8 ++ repeat 1 4.

(** A worker can leave [run] while work is in hand: between the decrement of
    [m_activeThreadCount] and the [schedule] of the fiber that yielded, [stopping]
    holds.  Here thread 2 leaves that way; the fiber then schedules a task for
    thread 2, which stays in the queue in every continuation, so that thread 1
    never finishes. *)
Theorem worker_leaves_early :
  sched_steps early_world (after early_order early_world) /\
  places (after early_order early_world) !! 2 = Some PcDone /\
  forall w', sched_steps (after early_order early_world) w' ->
    mkFT None (Some (FUser (PStep 5 PReturn))) 2 ∈ m_fibers (w_sched w') /\
    stopping_cond (w_sched w') = false.
Proof.
  split; [apply after_steps; by vm_compute|]. split; [by vm_compute|].
  intros w' Hs.
  assert (stranded (mkFT None (Some (FUser (PStep 5 PReturn))) 2)
    (after early_order early_world)) as Hst.
  { split; [vm_compute; left|].
    intros [|[|[|j]]] t; vm_compute; [by intros [= <-]..| |done].
    intros [= <-] _. split; [done|by eexists]. }
  apply (sched_steps_stranded _ _ w') in Hst as [Hq _]; [|done|done].
  split; [done|]. unfold stopping_cond.
  destruct (m_fibers (w_sched w')); [by apply not_elem_of_nil in Hq|].
  by rewrite andb_false_r.
Qed.

(** *** [switchTo] *)

Definition switching_task : prog := PSwitchTo 2 (PStep 5 PReturn).
Definition switching_world : world := world_with [mkFT None (Some (FUser switching_task)) 1].

(** [switchTo] puts its fiber into the queue twice: once itself, pinned to the
    target, and once more when the run loop finds the fiber in state HOLD.  On its
    own, the thread that called [switchTo(2)] takes the second entry and goes on
    with the code that was to run on thread 2; when thread 2 takes the first entry
    at the same time, both threads enter the same fiber, the second one resuming
    a context whose flow is running. *)
Theorem switchTo_enters_twice :
  let alone := after (repeat 1 13) switching_world in
  let both := after (repeat 1 10 ++ repeat 2 3) switching_world in
  sched_steps switching_world alone /\ w_log alone = [(1, 5)] /\
  mkFT (Some 2) None 2 ∈ m_fibers (w_sched alone) /\
  sched_steps switching_world both /\
  places both = [PcOutside; PcDispatch (mkFT (Some 2) None (-1)) true; PcInFiber 2] /\
  enabled 1 both = true /\ is_ub (fst (thread_step 1 both)) = true.
Proof.
  cbv zeta. split; [apply after_steps; by vm_compute|]. split; [by vm_compute|].
  split; [vm_compute; left|]. split; [apply after_steps; by vm_compute|].
  by vm_compute.
Qed.
