(* ===== verification/SchedulerSteps.v ===== *)
(** * The steps of a thread in the scheduler

    A thread executes [Scheduler::run] either on its own stack, as the threads of the
    pool do, or on the root fiber, as the creator does inside [stop].  [seat] says
    which, and with it what the thread-local variables are at home and away (on a
    task's fiber or the idle fiber).  For both, this file computes what each step of
    the thread does to the heap, the thread and the scheduler. *)
From stdpp Require Import base gmap list strings.
From S2P Require Import Prelude Fiber Scheduler.

(** ** Where a thread executes [run] *)

(** A pool thread [k] with main fiber [m]; the creator, its main fiber [m] left at the
    [call] in [stop], on root fiber [r]. *)
Inductive seat : Type :=
| Pool (k m : nat)
| Caller (k m r : nat).

(** The fiber that [Scheduler::GetMainFiber()] answers; the main fiber of the
    thread; the flow [run] is executed on. *)
Definition seat_fiber (σ : seat) : nat := match σ with Pool _ m => m | Caller _ _ r => r end.
Definition seat_main (σ : seat) : nat := match σ with Pool _ m | Caller _ m _ => m end.
Definition seat_flow (σ : seat) : flow :=
  match σ with Pool k _ => Native k | Caller _ _ r => OnFiber r end.

(** The variables of a thread in [run], and on fiber [f]. *)
Definition home (σ : seat) : tls :=
  mkTls (Some (seat_fiber σ)) (Some (seat_main σ)) (Some (seat_fiber σ)) (seat_flow σ).
Definition away (σ : seat) (f : nat) : tls :=
  mkTls (Some f) (Some (seat_main σ)) (Some (seat_fiber σ)) (OnFiber f).

(** The stack of the root fiber is in [run]. *)
Definition seat_code (σ : seat) (x : Fiber) : Prop :=
  match σ with
  | Pool _ _ => True
  | Caller _ _ r => stk x = Some (CBody CallerMainFunc r FRun)
  end.

(** The fiber whose context waits for [run] to end, and that it does. *)
Definition seat_rest (σ : seat) : list nat :=
  match σ with Pool _ _ => [] | Caller _ m _ => [m] end.
Definition seat_left (h : fworld) (σ : seat) : Prop :=
  match σ with
  | Pool _ _ => True
  | Caller k m _ => exists x, fibers h !! m = Some x /\ m_ctx x = CtxSaved (Native k)
  end.

(** What happens to the heap's own copy of the variables when the thread looks where
    it is: on a fiber they are written back. *)
Definition seat_loc (σ : seat) (l : tls) : tls :=
  match σ with Pool _ _ => l | Caller _ _ _ => home σ end.

(** A fiber with a stack of its own. *)
Definition sized (x : Fiber) : Prop := exists sz, m_stack x = StackAt sz.

(** The root thread and its fiber, which a pool without the caller does not have, and
    the two flags. *)
Definition roots (s : Scheduler) : Z * option nat * (option bool * option bool) :=
  (m_rootThread s, m_rootFiber s, (m_stopping s, m_autoStop s)).

(** ** The fiber operations on well-placed fibers *)

Section heap_specs.
Context (F : gmap nat Fiber) (np : nat) (id ct g : Z) (σ : seat).
Abbreviation heap F l := (mkFworld F np id ct g l).
Abbreviation m := (seat_fiber σ).

Lemma deref_spec f x l : F !! f = Some x -> deref f (heap F l) = (Ret x, heap F l).
Proof using Type. intros H. unfold deref. simpl. by rewrite H. Qed.

Lemma update_spec f u x l :
  F !! f = Some x -> update f u (heap F l) = (Ret tt, heap (<[f := u x]> F) l).
Proof using Type. intros H. unfold update. unfold_M. by rewrite (deref_spec f x). Qed.

Lemma getState_spec f x l :
  F !! f = Some x -> getState f (heap F l) = (Ret (m_state x), heap F l).
Proof using Type. intros H. unfold getState. unfold_M. by rewrite (deref_spec f x). Qed.

Lemma swapIn_home f xm x :
  m <> f -> F !! m = Some xm -> F !! f = Some x -> runnable f x ->
  swapIn f (heap F (home σ)) =
    (Ret tt, heap (<[f := resumed x]> (<[m := set_ctx (CtxSaved (seat_flow σ)) xm]> F)) (away σ f)).
Proof using Type. intros Hne Hm Hf Hr. by rewrite (swapIn_spec _ m f xm x). Qed.

Lemma swapOut_away f xm x :
  m <> f -> F !! m = Some xm -> m_ctx xm = CtxSaved (seat_flow σ) -> F !! f = Some x ->
  swapOut f (heap F (away σ f)) =
    (Ret tt, heap (<[m := set_ctx CtxStale xm]>
                     (<[f := set_ctx (CtxSaved (OnFiber f)) x]> F)) (home σ)).
Proof using Type.
  intros Hne Hm Hc Hf. unfold swapOut, swapcontext. run_fiber. rewrite Hc. by run_fiber.
Qed.

Lemma yield_mark_away f s x :
  F !! f = Some x -> m_state x = EXEC ->
  yield_mark s (heap F (away σ f)) = (Ret f, heap (<[f := set_state s x]> F) (away σ f)).
Proof using Type. intros Hf Hs. unfold yield_mark, GetThis. by run_fiber. Qed.

Lemma GetThis_away f x :
  F !! f = Some x -> GetThis (heap F (away σ f)) = (Ret f, heap F (away σ f)).
Proof using Type. intros Hf. unfold GetThis. by run_fiber. Qed.

Lemma entry_begin_away f entry x fn :
  F !! f = Some x -> m_func x = Some fn ->
  entry_begin f entry (heap F (away σ f)) =
    (Ret (f, true), heap (<[f := set_stk (Some (CBody entry f fn)) x]> F) (away σ f)).
Proof using Type.
  intros Hf Hfn. unfold entry_begin, GetThis. by run_fiber.
Qed.

(** The fiber after its entry function has left it for good. *)
Definition ended (f : nat) (s : State) (fn : option func) (x : Fiber) : Fiber :=
  set_ctx (CtxSaved (OnFiber f)) (set_stk (Some (CNever MainFunc)) (set_state s (set_func fn x))).

Lemma entry_return_away f xm x :
  m <> f -> F !! m = Some xm -> m_ctx xm = CtxSaved (seat_flow σ) -> F !! f = Some x ->
  entry_return f MainFunc f (heap F (away σ f)) =
    (Ret tt, heap (<[m := set_ctx CtxStale xm]> (<[f := ended f TERM None x]> F)) (home σ)).
Proof using Type.
  intros Hne Hm Hc Hf. unfold entry_return, entry_leave, swapOut, swapcontext.
  run_fiber. rewrite Hc. by run_fiber.
Qed.

(** The end of [run] on the root fiber. *)
Lemma entry_return_root k m0 rt xm x :
  m0 <> rt -> F !! m0 = Some xm -> m_ctx xm = CtxSaved (Native k) -> F !! rt = Some x ->
  exists y, entry_return rt CallerMainFunc rt (heap F (home (Caller k m0 rt))) =
    (Ret tt, heap (<[m0 := set_ctx CtxStale xm]> (<[rt := y]> F))
               (mkTls (Some m0) (Some m0) (Some rt) (Native k))).
Proof using Type.
  intros Hne Hm Hc Hf. eexists. unfold entry_return, entry_leave, back, swapcontext.
  run_fiber. rewrite Hc. by run_fiber.
Qed.

Lemma entry_except_away f xm x :
  m <> f -> F !! m = Some xm -> m_ctx xm = CtxSaved (seat_flow σ) -> F !! f = Some x ->
  entry_except f MainFunc f (heap F (away σ f)) =
    (Ret tt, heap (<[m := set_ctx CtxStale xm]> (<[f := ended f EXCEPT (m_func x) x]> F))
               (home σ)).
Proof using Type.
  intros Hne Hm Hc Hf. unfold entry_except, entry_leave, swapOut, swapcontext.
  run_fiber. rewrite Hc. by run_fiber.
Qed.

Lemma reset_spec f fn x sz l :
  F !! f = Some x -> m_stack x = StackAt sz -> finished (m_state x) = true ->
  reset f fn (heap F l) =
    (Ret tt, heap (<[f := mkFiber (m_id x) (m_stacksize x) INIT
                            (CtxMade MainFunc (m_stacksize x)) (m_stack x) fn None]> F) l).
Proof using Type.
  intros Hf Hst Hfin. unfold reset. run_fiber. rewrite Hst. run_fiber. rewrite Hfin. run_fiber. unfold set_fibers. simpl. by rewrite <- Hst.
Qed.

Lemma new_fiber_spec fn l : exists x,
  new_fiber (Some fn) 0 false (heap F l) =
    (Ret np, mkFworld (<[np := x]> F) (S np) (u64 (id + 1)) (u64 (ct + 1)) g l) /\
  sized x /\ m_state x = INIT /\ m_func x = Some fn /\ exists sz, m_ctx x = CtxMade MainFunc sz.
Proof using Type.
  exists (mkFiber (u64 (id + 1)) (u32 g) INIT (CtxMade MainFunc (u32 g)) (StackAt (u32 g))
            (Some fn) None).
  split; [reflexivity|]. by repeat (split || eexists).
Qed.

(** The first two statements of [run] on a new thread. *)
Lemma first_GetThis k : exists x,
  GetThis (heap F (empty_tls k)) =
    (Ret np, mkFworld (<[np := x]> F) (S np) (u64 (id + 1)) (u64 (ct + 1)) g
               (mkTls (Some np) (Some np) None (Native k))).
Proof using Type.
  exists (mkFiber (u64 (id + 1)) 0 EXEC CtxGot StackUninit None None).
  unfold GetThis, new_main_fiber, allocate. by run_fiber.
Qed.
End heap_specs.

(** ** Statements of a thread

    The world while thread [i] executes: its record is [t], the others are those of
    [ts]. *)
Section statements.
Context (i : nat) (ts : list thr) (Hi : (i < length ts)%nat).

Definition at_work (t : thr) (h : fworld) (s : Scheduler) (tk : nat) (lg : list (nat * nat))
    : world := mkWorld h s (<[i := t]> ts) tk lg.

Lemma at_work_lookup t h s tk lg : w_threads (at_work t h s tk lg) !! i = Some t.
Proof using Hi. simpl. by apply list_lookup_insert_eq. Qed.

Lemma do_get_thr t h s tk lg : get_thr i (at_work t h s tk lg) = (Ret t, at_work t h s tk lg).
Proof using Hi. unfold get_thr. by rewrite at_work_lookup. Qed.

Lemma do_mod_thr u t h s tk lg :
  mod_thr i u (at_work t h s tk lg) = (Ret tt, at_work (u t) h s tk lg).
Proof using Hi.
  unfold mod_thr. unfold_M. rewrite do_get_thr. unfold at_work. simpl.
  by rewrite list_insert_insert_eq.
Qed.

Lemma do_on_thread {A} (m : M fworld A) t h s tk lg (a : A) h' :
  m (set_loc (th_tls t) h) = (Ret a, h') ->
  on_thread i m (at_work t h s tk lg) = (Ret a, at_work (put_tls (loc h') t) h' s tk lg).
Proof using Hi.
  intros H. unfold on_thread. rewrite at_work_lookup. simpl. rewrite H.
  unfold at_work. simpl. by rewrite list_insert_insert_eq.
Qed.

Lemma do_sched t h s tk lg : sched (at_work t h s tk lg) = (Ret s, at_work t h s tk lg).
Proof using Type. done. Qed.
Lemma do_stopping t h s tk lg :
  flags_set s -> stopping (at_work t h s tk lg) = (Ret (stopping_cond s), at_work t h s tk lg).
Proof using Type. apply (stopping_spec (at_work t h s tk lg)). Qed.
Lemma do_mod_sched u t h s tk lg :
  mod_sched u (at_work t h s tk lg) = (Ret tt, at_work t h (u s) tk lg).
Proof using Type. done. Qed.
Lemma do_get t h s tk lg : get (at_work t h s tk lg) = (Ret (at_work t h s tk lg), at_work t h s tk lg).
Proof using Type. done. Qed.
Lemma do_tickle t h s tk lg : tickle (at_work t h s tk lg) = (Ret tt, at_work t h s (S tk) lg).
Proof using Type. done. Qed.
Lemma do_tickle_if b t h s tk lg :
  tickle_if b (at_work t h s tk lg) = (Ret tt, at_work t h s (if b then S tk else tk) lg).
Proof using Type. by destruct b. Qed.
Lemma do_emit n t h s tk lg :
  emit i n (at_work t h s tk lg) = (Ret tt, at_work t h s tk (lg ++ [(i, n)])).
Proof using Type. done. Qed.

Lemma do_schedule ft t h s tk lg : is_Some (ft_fiber ft) \/ is_Some (ft_func ft) ->
  exists tk', schedule ft (at_work t h s tk lg) =
    (Ret tt, at_work t h (set_queue (m_fibers s ++ [ft]) s) tk' lg).
Proof using Type.
  intros H. unfold schedule, scheduleNonLock. unfold_M. simpl.
  destruct (ft_fiber ft); [|destruct (ft_func ft); [|by destruct H as [[? ?]|[? ?]]]];
    simpl; destruct (m_fibers s); by eexists.
Qed.
End statements.

(** ** What each step does *)

(** Computes field accesses. *)
Ltac norm := cbv beta zeta;
  cbn [th_pc th_id th_tls th_idle th_func th_scheduler cur_flow put_tls put_pc
    put_idle put_func put_scheduler fibers next_ptr s_fiber_id s_fiber_count
    g_fiber_stack_size loc set_loc set_fibers fst snd].

(** Runs the statements that do not involve fibers. *)
Ltac exec := norm; repeat
  (lazymatch goal with
   | |- ((_ ≫= _) ≫= _) _ = _ => rewrite bind_assoc
   | |- (get_thr _ ≫= _) _ = _ => erewrite bind_ret; [|by apply do_get_thr]
   | |- (mod_thr _ _ ≫= _) _ = _ => erewrite bind_ret; [|by apply do_mod_thr]
   | |- (sched ≫= _) _ = _ => erewrite bind_ret; [|by apply do_sched]
   | |- (mod_sched _ ≫= _) _ = _ => erewrite bind_ret; [|by apply do_mod_sched]
   | |- (get ≫= _) _ = _ => erewrite bind_ret; [|by apply do_get]
   | |- (tickle ≫= _) _ = _ => erewrite bind_ret; [|by apply do_tickle]
   | |- (mret _ ≫= _) _ = _ => erewrite bind_ret; [|reflexivity]
   | |- mod_thr _ _ _ = _ => by apply do_mod_thr
   | |- tickle_if _ _ = _ => by apply do_tickle_if
   | |- emit _ _ _ = _ => by apply do_emit
   | |- mret _ _ = _ => reflexivity
   end; norm).

(** A fiber operation with the given result. *)
Ltac on_fiber H :=
  lazymatch goal with
  | |- (on_thread _ _ ≫= _) _ = _ => erewrite bind_ret; [|eapply do_on_thread; [done|]; eapply H; eauto]
  | |- on_thread _ _ _ = _ => eapply do_on_thread; [done|]; eapply H; eauto
  end; exec.

Section executions.
Context (i : nat) (ts : list thr) (Hi : (i < length ts)%nat).
Context (F : gmap nat Fiber) (np : nat) (fid ct g : Z).
Context (s : Scheduler) (tk : nat) (lg : list (nat * nat)) (l0 : tls).
Context (id : Z) (σ : seat) (e : option nat) (p : pc) (fo : option nat).

Abbreviation heap F l := (mkFworld F np fid ct g l).
Abbreviation m := (seat_fiber σ).
Abbreviation on f h := (at_work i ts (mkThr id (away σ f) true p e fo) h).
Abbreviation off h := (at_work i ts (mkThr id (home σ) true p e fo) h).

Section away.
Context (f : nat) (x : Fiber) (Hx : F !! f = Some x).

Lemma fiber_step_at :
  thread_step i (on f (heap F l0) s tk lg) = fiber_step i f (on f (heap F l0) s tk lg).
Proof using Hi. unfold thread_step. erewrite bind_ret; [|by apply do_get_thr]. done. Qed.

Lemma step_entry entry fn :
  stk x = Some (CEntry entry) -> m_func x = Some fn ->
  thread_step i (on f (heap F l0) s tk lg) =
    (Ret tt, on f (heap (<[f := set_stk (Some (CBody entry f fn)) x]> F) (away σ f)) s tk lg).
Proof using Hi Hx.
  intros Hs Hfn. rewrite fiber_step_at. unfold fiber_step. on_fiber @deref_spec.
  rewrite Hs. on_fiber @entry_begin_away.
Qed.

(** The end of a function, and leaving the fiber in the middle of a yield. *)
Section leaving.
Context (xm : Fiber) (Hne : m <> f).
Context (Hm : F !! m = Some xm) (Hc : m_ctx xm = CtxSaved (seat_flow σ)).

Lemma step_return :
  stk x = Some (CBody MainFunc f (FUser PReturn)) ->
  thread_step i (on f (heap F l0) s tk lg) =
    (Ret tt, off (heap (<[m := set_ctx CtxStale xm]> (<[f := ended f TERM None x]> F))
                    (home σ)) s tk lg).
Proof using Hi Hx Hne Hm Hc.
  intros Hs. rewrite fiber_step_at. unfold fiber_step. on_fiber @deref_spec.
  rewrite Hs. unfold user_step. on_fiber @entry_return_away.
Qed.

Lemma step_throw msg :
  stk x = Some (CBody MainFunc f (FUser (PThrow msg))) ->
  thread_step i (on f (heap F l0) s tk lg) =
    (Ret tt, off (heap (<[m := set_ctx CtxStale xm]>
                         (<[f := ended f EXCEPT (m_func x) x]> F)) (home σ)) s tk lg).
Proof using Hi Hx Hne Hm Hc.
  intros Hs. rewrite fiber_step_at. unfold fiber_step. on_fiber @deref_spec.
  rewrite Hs. unfold user_step. on_fiber @entry_except_away.
Qed.

Lemma step_idle_return :
  stk x = Some (CBody MainFunc f FIdle) -> stopping_cond s = true ->
  thread_step i (on f (heap F l0) s tk lg) =
    (Ret tt, off (heap (<[m := set_ctx CtxStale xm]> (<[f := ended f TERM None x]> F))
                    (home σ)) s tk lg).
Proof using Hi Hx Hne Hm Hc.
  intros Hs Hst. rewrite fiber_step_at. unfold fiber_step. on_fiber @deref_spec.
  rewrite Hs. unfold idle_step. erewrite bind_ret by (by apply do_stopping, stopping_cond_set).
  rewrite Hst. on_fiber @entry_return_away.
Qed.

Lemma step_idle_yield :
  stk x = Some (CBody MainFunc f FIdle) -> flags_set s -> stopping_cond s = false -> m_state x = EXEC ->
  thread_step i (on f (heap F l0) s tk lg) =
    (Ret tt, off (heap (<[m := set_ctx CtxStale xm]>
                         (<[f := set_ctx (CtxSaved (OnFiber f)) (set_state HOLD x)]> F))
                    (home σ)) s tk lg).
Proof using Hi Hx Hne Hm Hc.
  intros Hs Hset Hst Hex. rewrite fiber_step_at. unfold fiber_step. on_fiber @deref_spec.
  rewrite Hs. unfold idle_step. erewrite bind_ret by (by apply do_stopping).
  rewrite Hst.
  eapply do_on_thread; [done|]. norm.
  unfold YieldToHold, yield_with. erewrite bind_ret by (eapply yield_mark_away; done).
  etrans; [eapply swapOut_away; [done|simpl; by rewrite lookup_insert_ne|exact Hc|
    simpl; by rewrite lookup_insert_eq]|].
  simpl. by rewrite insert_insert_eq.
Qed.

Lemma step_swap_out q :
  stk x = Some (CBody MainFunc f (FUser (PSwapOut q))) ->
  thread_step i (on f (heap F l0) s tk lg) =
    (Ret tt, off (heap (<[m := set_ctx CtxStale xm]>
                         (<[f := set_ctx (CtxSaved (OnFiber f))
                                   (set_stk (Some (CBody MainFunc f (FUser q))) x)]> F))
                    (home σ)) s tk lg).
Proof using Hi Hx Hne Hm Hc.
  intros Hs. rewrite fiber_step_at. unfold fiber_step. on_fiber @deref_spec.
  rewrite Hs. unfold user_step, continue_with. on_fiber @update_spec.
  eapply do_on_thread; [done|]. norm.
  erewrite bind_ret by (eapply GetThis_away, lookup_insert_eq).
  etrans; [eapply swapOut_away; [done|simpl; by rewrite lookup_insert_ne|exact Hc|
    simpl; by rewrite lookup_insert_eq]|].
  simpl. by rewrite insert_insert_eq.
Qed.
End leaving.

(** The other statements stay on the fiber. *)
Lemma step_effect n q :
  stk x = Some (CBody MainFunc f (FUser (PStep n q))) ->
  thread_step i (on f (heap F l0) s tk lg) =
    (Ret tt, on f (heap (<[f := set_stk (Some (CBody MainFunc f (FUser q))) x]> F) (away σ f))
               s tk (lg ++ [(i, n)])).
Proof using Hi Hx.
  intros Hs. rewrite fiber_step_at. unfold fiber_step. on_fiber @deref_spec.
  rewrite Hs. unfold user_step, continue_with. on_fiber @update_spec.
Qed.

Lemma step_yield st q pr :
  pr = PYieldToReady q /\ st = READY \/ pr = PYieldToHold q /\ st = HOLD ->
  stk x = Some (CBody MainFunc f (FUser pr)) -> m_state x = EXEC ->
  thread_step i (on f (heap F l0) s tk lg) =
    (Ret tt, on f (heap (<[f := set_state st
                             (set_stk (Some (CBody MainFunc f (FUser (PSwapOut q)))) x)]> F)
                     (away σ f)) s tk lg).
Proof using Hi Hx.
  intros Hpr Hs Hex. rewrite fiber_step_at. unfold fiber_step. on_fiber @deref_spec.
  rewrite Hs. unfold user_step.
  assert (user_yield i f MainFunc f st q (at_work i ts (mkThr id (away σ f) true p e fo)
      (heap F (away σ f)) s tk lg) =
    (Ret tt, on f (heap (<[f := set_state st
                             (set_stk (Some (CBody MainFunc f (FUser (PSwapOut q)))) x)]> F)
                     (away σ f)) s tk lg)) as Hy.
  { unfold user_yield, continue_with. on_fiber @update_spec.
    erewrite bind_ret.
    2:{ eapply do_on_thread; [done|]. norm.
        eapply yield_mark_away; [apply lookup_insert_eq|done]. }
    norm. by rewrite insert_insert_eq. }
  destruct Hpr as [[-> ->] | [-> ->]]; exact Hy.
Qed.

Lemma step_schedule fn thread q :
  stk x = Some (CBody MainFunc f (FUser (PSchedule fn thread q))) ->
  exists tk', thread_step i (on f (heap F l0) s tk lg) =
    (Ret tt, on f (heap (<[f := set_stk (Some (CBody MainFunc f (FUser q))) x]> F) (away σ f))
               (set_queue (m_fibers s ++ [mkFT None (Some (FUser fn)) thread]) s) tk' lg).
Proof using Hi Hx.
  intros Hs.
  destruct (do_schedule i ts (mkFT None (Some (FUser fn)) thread)
    (mkThr id (away σ f) true p e fo)
    (heap (<[f := set_stk (Some (CBody MainFunc f (FUser q))) x]> F) (away σ f)) s tk lg)
    as [tk' Htk]; [right; by eexists|].
  exists tk'. rewrite fiber_step_at. unfold fiber_step. on_fiber @deref_spec.
  rewrite Hs. unfold user_step, continue_with, schedule_func. on_fiber @update_spec. exact Htk.
Qed.
End away.

(** *** On the thread's own stack *)
Lemma run_step_native t h :
  (exists k', cur_flow (th_tls t) = Native k') ->
  thread_step i (at_work i ts t h s tk lg) =
    (match th_pc t with
     | PcOutside | PcDone => ub $"not in run"
     | PcStart => run_start i
     | PcTop => run_take i
     | PcDispatch ft is_active => run_dispatch i ft is_active
     | PcInFiber f => add_active (-1);; mod_thr i (put_pc (PcAfterFiber f))
     | PcAfterFiber f => run_after_fiber i f
     | PcInFunc => add_active (-1);; mod_thr i (put_pc PcAfterFunc)
     | PcAfterFunc => run_after_func i
     | PcInIdle => run_after_idle i
     end) (at_work i ts t h s tk lg).
Proof using Hi.
  intros [k' Hk]. unfold thread_step. erewrite bind_ret; [|by apply do_get_thr]. cbv beta.
  rewrite Hk. unfold run_step. erewrite bind_ret; [|by apply do_get_thr]. done.
Qed.
End executions.

(** A pool thread's first step. *)
Lemma step_start i ts (Hi : (i < length ts)%nat) F np fid ct g s tk lg l0 id k b e0 fo :
  m_rootThread s <> id ->
  exists x y id' ct', thread_step i
      (at_work i ts (mkThr id (empty_tls k) b PcStart e0 fo) (mkFworld F np fid ct g l0) s tk lg) =
    (Ret tt, at_work i ts (mkThr id (home (Pool k np)) true PcTop (Some (S np)) None)
       (mkFworld (<[S np := y]> (<[np := x]> F)) (S (S np)) id' ct' g (home (Pool k np))) s tk lg) /\
    sized y /\ m_state y = INIT /\ m_func y = Some FIdle /\ exists sz, m_ctx y = CtxMade MainFunc sz.
Proof.
  intros Hr. destruct (first_GetThis F np fid ct g k) as [x Hx].
  destruct (new_fiber_spec (<[np := x]> F) (S np) (u64 (fid + 1)) (u64 (ct + 1)) g FIdle
    (home (Pool k np))) as (y & Hy & Hrest).
  exists x, y. do 2 eexists. split; [|exact Hrest].
  rewrite run_step_native by (done || by eexists). norm. unfold run_start. exec.
  assert (Z.eqb id (m_rootThread s) = false) as -> by lia. exec.
  erewrite bind_ret; [|eapply do_on_thread; [done|]; norm; exact Hx]. exec.
  erewrite bind_ret; [|eapply do_on_thread; [done|]; reflexivity]. exec.
  erewrite bind_ret; [|eapply do_on_thread; [done|]; norm; exact Hy]. by exec.
Qed.

Section home_executions.
Context (i : nat) (ts : list thr) (Hi : (i < length ts)%nat).
Context (F : gmap nat Fiber) (np : nat) (fid ct g : Z).
Context (s : Scheduler) (tk : nat) (lg : list (nat * nat)) (l0 : tls).
Context (id : Z) (σ : seat) (e : nat) (fo : option nat).

Abbreviation heap F l := (mkFworld F np fid ct g l).
Abbreviation m := (seat_fiber σ).
Abbreviation off p fo h := (at_work i ts (mkThr id (home σ) true p (Some e) fo) h).
Abbreviation on p fo f h := (at_work i ts (mkThr id (away σ f) true p (Some e) fo) h).

Context (xm : Fiber) (Hm : F !! m = Some xm) (Hcode : seat_code σ xm).

(** What the thread executes, on either seat. *)
Lemma run_step_home p e' fo' :
  thread_step i (at_work i ts (mkThr id (home σ) true p e' fo') (heap F l0) s tk lg) =
    (match p with
     | PcOutside | PcDone => ub $"not in run"
     | PcStart => run_start i
     | PcTop => run_take i
     | PcDispatch ft is_active => run_dispatch i ft is_active
     | PcInFiber f => add_active (-1);; mod_thr i (put_pc (PcAfterFiber f))
     | PcAfterFiber f => run_after_fiber i f
     | PcInFunc => add_active (-1);; mod_thr i (put_pc PcAfterFunc)
     | PcAfterFunc => run_after_func i
     | PcInIdle => run_after_idle i
     end) (at_work i ts (mkThr id (home σ) true p e' fo') (heap F (seat_loc σ l0)) s tk lg).
Proof using Hi Hm Hcode.
  destruct σ as [k m0|k m0 rt]; [by apply run_step_native; [|by eexists]|].
  unfold thread_step. erewrite bind_ret; [|by apply do_get_thr]. cbv beta.
  change (cur_flow _) with (OnFiber rt). simpl in Hcode. unfold fiber_step.
  on_fiber @deref_spec. rewrite Hcode. unfold run_step.
  erewrite bind_ret; [|by apply do_get_thr]. done.
Qed.

Lemma step_enter_fiber ft f x :
  ft_fiber ft = Some f -> m <> f -> F !! f = Some x -> runnable f x ->
  m_state x <> TERM -> m_state x <> EXCEPT ->
  thread_step i (off (PcDispatch ft true) fo (heap F l0) s tk lg) =
    (Ret tt, on (PcInFiber f) fo f
      (heap (<[f := resumed x]> (<[m := set_ctx (CtxSaved (seat_flow σ)) xm]> F)) (away σ f)) s tk lg).
Proof using Hi Hm Hcode.
  intros Hft Hne Hf Hr H1 H2. rewrite run_step_home. norm.
  unfold run_dispatch. rewrite Hft. on_fiber @getState_spec.
  rewrite !bool_decide_eq_true_2 by done. simpl. exec.
  eapply do_on_thread; [done|]. norm. by eapply swapIn_home.
Qed.

(** Unfolds the step at the thread's place. *)
Ltac at_place := rewrite run_step_home; norm.

(** The creator's [run] on the root fiber: [GetThreadId() == m_rootThread]. *)
Lemma step_start_root e0 :
  m_rootThread s = id ->
  exists y id' ct', thread_step i
      (at_work i ts (mkThr id (home σ) true PcStart e0 fo) (heap F l0) s tk lg) =
    (Ret tt, at_work i ts (mkThr id (home σ) true PcTop (Some np) None)
       (mkFworld (<[np := y]> F) (S np) id' ct' g (home σ)) s tk lg) /\
    sized y /\ m_state y = INIT /\ m_func y = Some FIdle /\ exists sz, m_ctx y = CtxMade MainFunc sz.
Proof using Hi Hm Hcode.
  intros Hr. destruct (new_fiber_spec F np fid ct g FIdle (home σ)) as (y & Hy & Hrest).
  exists y. do 2 eexists. split; [|exact Hrest]. at_place. unfold run_start. exec.
  rewrite Hr, Z.eqb_refl. exec.
  erewrite bind_ret; [|eapply do_on_thread; [done|]; norm; exact Hy]. by exec.
Qed.

Lemma step_take found q' tm :
  scan_queue id (fun f => m_state <$> F !! f) [] (m_fibers s) false = Ret (found, q', tm) ->
  thread_step i (off PcTop fo (heap F l0) s tk lg) =
    (Ret tt, off (match found with
                  | Some ft => PcDispatch ft true
                  | None => PcDispatch ft_empty false
                  end) fo (heap F (seat_loc σ l0))
      (match found with
       | Some _ => set_active (u64 (m_activeThreadCount s + 1)) (set_queue q' s)
       | None => set_queue q' s
       end) (if tm then S tk else tk) lg).
Proof using Hi Hm Hcode.
  intros Hscan. at_place. unfold run_take. exec.
  erewrite bind_ret; [|unfold lift_res; simpl; by rewrite Hscan]. exec.
  destruct found as [ft|]; unfold add_active; exec.
Qed.

Lemma step_new_func fn thread :
  m <> np ->
  exists x id' ct', thread_step i
      (off (PcDispatch (mkFT None (Some fn) thread) true) None (heap F l0) s tk lg) =
    (Ret tt, on PcInFunc (Some np) np
       (mkFworld (<[np := resumed x]> (<[m := set_ctx (CtxSaved (seat_flow σ)) xm]> (<[np := x]> F)))
          (S np) id' ct' g (away σ np)) s tk lg) /\
    sized x /\ m_func x = Some fn /\ exists sz, m_ctx x = CtxMade MainFunc sz.
Proof using Hi Hm Hcode.
  intros Hne. destruct (new_fiber_spec F np fid ct g fn (home σ)) as (x & Hx & Hsz & _ & Hfn & Hc).
  exists x. do 2 eexists. split; [|done]. at_place. unfold run_dispatch, run_func. simpl. exec.
  erewrite bind_ret; [|eapply do_on_thread; [done|]; norm; exact Hx]. exec.
  eapply do_on_thread; [done|]. norm.
  eapply swapIn_home; [done|by rewrite lookup_insert_ne|by rewrite lookup_insert_eq|].
  right. destruct Hc as [sz Hc]. by exists MainFunc, sz.
Qed.

Lemma step_reuse_func f fn thread x sz :
  m <> f -> F !! f = Some x -> m_stack x = StackAt sz -> m_state x = INIT ->
  exists y, thread_step i
      (off (PcDispatch (mkFT None (Some fn) thread) true) (Some f) (heap F l0) s tk lg) =
    (Ret tt, on PcInFunc (Some f) f
       (heap (<[f := resumed y]> (<[m := set_ctx (CtxSaved (seat_flow σ)) xm]> (<[f := y]> F)))
          (away σ f)) s tk lg) /\
    sized y /\ m_func y = Some fn /\ exists sz, m_ctx y = CtxMade MainFunc sz.
Proof using Hi Hm Hcode.
  intros Hne Hf Hst Hin.
  exists (mkFiber (m_id x) (m_stacksize x) INIT (CtxMade MainFunc (m_stacksize x)) (m_stack x)
            (Some fn) None).
  split; [|by split; [exists sz|split; [done|by eexists]]].
  at_place. unfold run_dispatch, run_func. simpl. exec.
  erewrite bind_ret; [|eapply do_on_thread; [done|]; norm; eapply reset_spec; [done..|by rewrite Hin]].
  exec. eapply do_on_thread; [done|]. norm.
  eapply swapIn_home; [done|by rewrite lookup_insert_ne|by rewrite lookup_insert_eq|].
  right. by eexists MainFunc, _.
Qed.

Lemma step_enter_idle x :
  m <> e -> F !! e = Some x -> runnable e x -> m_state x <> TERM ->
  thread_step i (off (PcDispatch ft_empty false) fo (heap F l0) s tk lg) =
    (Ret tt, on PcInIdle fo e
      (heap (<[e := resumed x]> (<[m := set_ctx (CtxSaved (seat_flow σ)) xm]> F)) (away σ e))
      (set_idle (u64 (m_idleThreadCount s + 1)) s) tk lg).
Proof using Hi Hm Hcode.
  intros Hne He Hr Hst.
  at_place. unfold run_dispatch, run_no_task, nonnull. simpl. exec.
  erewrite bind_ret; [|eapply do_on_thread; [done|]; reflexivity]. exec.
  on_fiber @getState_spec. rewrite decide_False by done. unfold add_idle. exec.
  eapply do_on_thread; [done|]. norm. by eapply swapIn_home.
Qed.

(** The end of [run]: a pool thread's function returns; the root fiber goes back to
    [stop]. *)
Lemma step_finish x :
  (forall a, a ∈ seat_rest σ -> a <> m) -> seat_left (heap F l0) σ ->
  F !! e = Some x -> m_state x = TERM ->
  exists F' l', thread_step i (off (PcDispatch ft_empty false) fo (heap F l0) s tk lg) =
      (Ret tt, at_work i ts (mkThr id l' true PcDone (Some e) fo) (heap F' l') s tk lg) /\
    (exists k, cur_flow l' = Native k) /\
    forall a, a <> m -> a ∉ seat_rest σ -> F' !! a = F !! a.
Proof using Hi Hm Hcode.
  intros Hrest Hleft He Hst.
  assert (thread_step i (off (PcDispatch ft_empty false) fo (heap F l0) s tk lg) =
    run_finish i (off (PcDispatch ft_empty false) fo (heap F (home σ)) s tk lg)) as ->.
  { at_place. unfold run_dispatch, run_no_task, nonnull. simpl. exec.
    erewrite bind_ret; [|eapply do_on_thread; [done|]; reflexivity]. exec.
    on_fiber @getState_spec. by rewrite decide_True by done. }
  unfold run_finish. destruct σ as [k m0|k m0 rt].
  - exists F, (home (Pool k m0)). split; [by exec|]. split; [by exists k|done].
  - simpl in *. destruct Hleft as (y & Hy & Hc).
    destruct (entry_return_root F np fid ct g k m0 rt y xm) as [z Hz];
      [apply Hrest; left|exact Hy|exact Hc|exact Hm|].
    do 2 eexists. split; [exec; eapply do_on_thread; [done|]; norm; exact Hz|].
    split; [by eexists|]. intros a Ha1 Ha2. rewrite !lookup_insert_ne; [done|done|set_solver].
Qed.

Lemma step_decrement p p' :
  (exists f, p = PcInFiber f /\ p' = PcAfterFiber f) \/ (p = PcInFunc /\ p' = PcAfterFunc) ->
  exists s', thread_step i (off p fo (heap F l0) s tk lg) = (Ret tt, off p' fo (heap F (seat_loc σ l0)) s' tk lg) /\
    m_fibers s' = m_fibers s /\ roots s' = roots s.
Proof using Hi Hm Hcode.
  intros Hp. exists (set_active (u64 (m_activeThreadCount s + -1)) s). split; [|done].
  at_place. destruct Hp as [(f & -> & ->) | [-> ->]]; unfold add_active; by exec.
Qed.

Lemma step_after_parked f x :
  F !! f = Some x -> m_state x = READY \/ m_state x = HOLD ->
  exists tk', thread_step i (off (PcAfterFiber f) fo (heap F l0) s tk lg) =
    (Ret tt, off PcTop fo (heap F (home σ))
       (set_queue (m_fibers s ++ [mkFT (Some f) None (-1)]) s) tk' lg).
Proof using Hi Hm Hcode.
  intros Hf Hst.
  destruct (do_schedule i ts (mkFT (Some f) None (-1))
    (mkThr id (home σ) true (PcAfterFiber f) (Some e) fo) (heap F (home σ)) s tk lg)
    as [tk' Htk]; [left; by eexists|].
  exists tk'. at_place. unfold run_after_fiber, schedule_fiber. on_fiber @getState_spec.
  destruct Hst as [-> | ->]; (erewrite bind_ret; [|exact Htk]); by exec.
Qed.

Lemma step_after_over f x :
  F !! f = Some x -> m_state x = TERM \/ m_state x = EXCEPT ->
  thread_step i (off (PcAfterFiber f) fo (heap F l0) s tk lg) =
    (Ret tt, off PcTop fo (heap F (home σ)) s tk lg).
Proof using Hi Hm Hcode.
  intros Hf Hst. at_place. unfold run_after_fiber. on_fiber @getState_spec.
  destruct Hst as [-> | ->]; by exec.
Qed.

Lemma step_after_func_parked f x :
  F !! f = Some x -> m_state x = READY \/ m_state x = HOLD ->
  exists tk', thread_step i (off PcAfterFunc (Some f) (heap F l0) s tk lg) =
    (Ret tt, off PcTop None (heap F (home σ))
       (set_queue (m_fibers s ++ [mkFT (Some f) None (-1)]) s) tk' lg).
Proof using Hi Hm Hcode.
  intros Hf Hst.
  destruct (do_schedule i ts (mkFT (Some f) None (-1))
    (mkThr id (home σ) true PcAfterFunc (Some e) (Some f)) (heap F (home σ)) s tk lg)
    as [tk' Htk]; [left; by eexists|].
  exists tk'. at_place. unfold run_after_func, schedule_fiber, nonnull. exec.
  erewrite bind_ret; [|eapply do_on_thread; [done|]; reflexivity]. exec.
  on_fiber @getState_spec.
  destruct Hst as [-> | ->]; rewrite bind_assoc; (erewrite bind_ret; [|exact Htk]); by exec.
Qed.

Lemma step_after_func_over f x sz :
  F !! f = Some x -> m_stack x = StackAt sz -> m_state x = TERM \/ m_state x = EXCEPT ->
  exists y, thread_step i (off PcAfterFunc (Some f) (heap F l0) s tk lg) =
    (Ret tt, off PcTop (Some f) (heap (<[f := y]> F) (home σ)) s tk lg) /\
    sized y /\ m_state y = INIT.
Proof using Hi Hm Hcode.
  intros Hf Hsz Hst.
  exists (mkFiber (m_id x) (m_stacksize x) INIT (CtxMade MainFunc (m_stacksize x)) (m_stack x)
            None None).
  split; [|split; [by exists sz|done]].
  at_place. unfold run_after_func, nonnull. exec.
  erewrite bind_ret; [|eapply do_on_thread; [done|]; reflexivity]. exec.
  on_fiber @getState_spec.
  assert (finished (m_state x) = true) as Hfin by (by destruct Hst as [-> | ->]).
  destruct Hst as [-> | ->];
    (erewrite bind_ret; [|eapply do_on_thread; [done|]; norm; by eapply reset_spec]); by exec.
Qed.

Lemma step_after_idle x :
  F !! e = Some x -> m_state x <> EXCEPT ->
  thread_step i (off PcInIdle fo (heap F l0) s tk lg) =
    (Ret tt, off PcTop fo (heap (if decide (m_state x = TERM) then F
                                 else <[e := set_state HOLD x]> F) (home σ))
       (set_idle (u64 (m_idleThreadCount s + -1)) s) tk lg).
Proof using Hi Hm Hcode.
  intros He Hst.
  at_place. unfold run_after_idle, add_idle, nonnull. exec.
  erewrite bind_ret; [|eapply do_on_thread; [done|]; reflexivity]. exec.
  on_fiber @getState_spec. case_decide as Ht.
  - rewrite Ht. simpl. by exec.
  - rewrite !bool_decide_eq_true_2 by done. simpl. on_fiber @update_spec.
Qed.
End home_executions.


(** ** What [stop] does before it joins the threads *)

Lemma tickle_times_keeps n w :
  exists tk, tickle_times n w = (Ret tt, mkWorld (w_heap w) (w_sched w) (w_threads w) tk (w_log w)).
Proof.
  revert w. induction n as [|n IH]; intros w; simpl.
  - exists (w_tickles w). by destruct w.
  - exact (IH (mkWorld (w_heap w) (w_sched w) (w_threads w) (S (w_tickles w)) (w_log w))).
Qed.

Lemma getState_same i f w t st w' :
  w_threads w !! i = Some t -> on_thread i (getState f) w = (Ret st, w') ->
  w' = mkWorld (set_loc (th_tls t) (w_heap w)) (w_sched w) (w_threads w) (w_tickles w) (w_log w).
Proof.
  intros Ht. unfold on_thread, getState, deref. unfold_M. rewrite Ht. simpl.
  destruct (fibers (w_heap w) !! f); [|done]. intros [= _ <-]. simpl.
  rewrite list_insert_id; [done|]. rewrite Ht. by destruct t.
Qed.

(** Both flags are true. *)
Definition told_to_stop (s : Scheduler) : Scheduler := set_stopping true (set_autoStop true s).

(** The first part sets the two flags. *)
Lemma stop_flags_cases i w t b w' :
  w_threads w !! i = Some t -> stop_flags i w = (Ret b, w') ->
  exists l tk,
    w' = mkWorld (set_loc l (w_heap w)) (told_to_stop (w_sched w)) (w_threads w) tk (w_log w) /\
    (b = true -> stopping_cond (told_to_stop (w_sched w)) = true).
Proof.
  intros Ht H. destruct w as [h s ts tk lg]. simpl in *. unfold stop_flags in H.
  apply bind_inv in H as ([] & w1 & [= <-] & H). apply bind_inv in H as (s0 & w1 & [= <- <-] & H).
  apply bind_inv in H as (early & w1 & He & H). simpl in He, H.
  assert (exists l s1, w1 = mkWorld (set_loc l h) s1 ts tk lg /\
    (s1 = set_autoStop true s \/ s1 = told_to_stop s) /\
    (early = true -> s1 = told_to_stop s /\ stopping_cond s1 = true))
    as (l & s1 & -> & Hs1 & Hearly).
  { destruct (m_rootFiber s) as [r|].
    - apply bind_inv in He as (st & w2 & Hst & He). apply (getState_same _ _ _ t) in Hst; [|done].
      subst w2. exists (th_tls t). destruct (_ && _) in He.
      + apply bind_inv in He as ([] & w2 & [= <-] & [-> ->]%stopping_inv). eexists. split; [done|]. split; [by right|done].
      + injection He as <- <-. eexists. split; [done|]. split; [by left|done].
    - injection He as <- <-. exists (loc h), (set_autoStop true s). split; [by destruct h|].
      split; [by left|done]. }
  destruct early.
  { injection H as <- <-. destruct Hearly as [-> Hc]; [done|]. exists l, tk. by split. }
  apply bind_inv in H as (t1 & w2 & Ht1 & H). unfold get_thr in Ht1. simpl in Ht1. rewrite Ht in Ht1.
  injection Ht1 as <- <-. apply bind_inv in H as ([] & w2 & Ha & H).
  assert (w2 = mkWorld (set_loc l h) s1 ts tk lg) as ->.
  { unfold assert_that, lift_res in Ha.
    destruct (m_rootThread s =? -1)%Z, (th_scheduler t); simpl in Ha; try done; by injection Ha as <-. }
  apply bind_inv in H as ([] & w2 & [= <-] & H). apply bind_inv in H as ([] & w2 & Htk & H).
  match type of Htk with tickle_times ?n ?w = _ =>
    destruct (tickle_times_keeps n w) as [tk' Htk'] end.
  rewrite Htk' in Htk. injection Htk as <-. simpl in H.
  assert (set_stopping true s1 = told_to_stop s) as Hs by (by destruct Hs1 as [-> | ->]).
  rewrite Hs in H. apply bind_inv in H as ([] & w3 & H3 & [= <- <-]).
  destruct (m_rootFiber s); injection H3 as <-; exists l; by eexists.
Qed.

Lemma stop_flags_returns i w t :
  w_threads w !! i = Some t -> th_scheduler t = negb (m_rootThread (w_sched w) =? -1)%Z ->
  (forall r, m_rootFiber (w_sched w) = Some r -> is_Some (fibers (w_heap w) !! r)) ->
  exists b w', stop_flags i w = (Ret b, w').
Proof.
  intros Ht Hb Hr. pose proof (lookup_lt_Some _ _ _ Ht) as Hi.
  assert (w = at_work i (w_threads w) t (w_heap w) (w_sched w) (w_tickles w) (w_log w)) as ->
    by (unfold at_work; rewrite list_insert_id by done; by destruct w).
  destruct w as [[F np fid ct g l0] s ts tk lg]. simpl in *.
  assert (forall s1 l1, exists b w',
    (t ← get_thr i;
     (if (m_rootThread s =? -1)%Z
      then assert_that (negb (th_scheduler t)) $"GetThis() != this"
      else assert_that (th_scheduler t) $"GetThis() == this");;
     mod_sched (set_stopping true);;
     tickle_times (Z.to_nat (m_threadCount s));;
     (match m_rootFiber s with Some _ => tickle | None => mret tt end);;
     mret false) (at_work i ts t (mkFworld F np fid ct g l1) s1 tk lg) = (Ret b, w')) as Hrest.
  { intros s1 l1. erewrite bind_ret; [|by apply do_get_thr].
    erewrite bind_ret.
    2:{ destruct (m_rootThread s =? -1)%Z; rewrite Hb; reflexivity. }
    erewrite bind_ret; [|apply do_mod_sched].
    match goal with |- context [(tickle_times ?n ≫= _) ?w] =>
      destruct (tickle_times_keeps n w) as [tk' Htk] end.
    erewrite bind_ret; [|exact Htk]. clear Htk. simpl. destruct (m_rootFiber s); do 2 eexists; by exec. }
  unfold stop_flags. erewrite bind_ret; [|apply do_mod_sched].
  erewrite bind_ret; [|by apply do_sched]. simpl. destruct (m_rootFiber s) as [r|] eqn:Hroot.
  - destruct (Hr r) as [x Hx]; [done|].
    match goal with |- context [(?early ≫= _) ?w1] =>
      assert (exists b s1, early w1 = (Ret b, at_work i ts t (mkFworld F np fid ct g (th_tls t)) s1 tk lg))
        as (b & s1 & Hearly) end.
    { assert (put_tls (th_tls t) t = t) as Hput by by destruct t.
      destruct ((m_threadCount s =? 0)%Z && (bool_decide (m_state x = TERM) || bool_decide (m_state x = INIT)))
        eqn:E; do 2 eexists;
        (erewrite bind_ret; [|eapply do_on_thread; [exact Hi|by eapply getState_spec]]);
        simpl; rewrite E, Hput; [|reflexivity].
      erewrite bind_ret; [|apply do_mod_sched]. by apply stopping_spec; split; eexists. }
    erewrite bind_ret; [|exact Hearly]. destruct b; [by do 2 eexists|apply Hrest].
  - erewrite bind_ret; [|reflexivity]. apply Hrest.
Qed.

(** The second part enters the root fiber if there is one and work is left. *)
Lemma stop_call_cases i w t w' :
  w_threads w !! i = Some t -> stop_call i w = (Ret tt, w') ->
  (w' = w /\ (m_rootFiber (w_sched w) = None \/ stopping_cond (w_sched w) = true)) \/
  exists r h', m_rootFiber (w_sched w) = Some r /\
    call r (set_loc (th_tls t) (w_heap w)) = (Ret tt, h') /\
    w' = mkWorld h' (w_sched w) (<[i := put_tls (loc h') (put_pc PcStart t)]> (w_threads w)) (w_tickles w) (w_log w).
Proof.
  intros Ht H. unfold stop_call in H. apply bind_inv in H as (s0 & w1 & [= <- <-] & H).
  destruct (m_rootFiber (w_sched w)) as [r|]; [|injection H as <-; left; by split; [|left]].
  apply bind_inv in H as (b & w1 & [-> ->]%stopping_inv & H). destruct (stopping_cond (w_sched w)).
  { injection H as <-. left. by split; [|right]. }
  right. apply bind_inv in H as ([] & w1 & H1 & H). unfold mod_thr, get_thr in H1. revert H1. unfold_M. rewrite Ht.
  simpl. intros [= <-]. unfold on_thread in H. simpl in H.
  rewrite list_lookup_insert_eq in H by by eapply lookup_lt_Some. simpl in H.
  destruct (call r _) as [[[]|?|?|?] h'] eqn:Hcall; try done. injection H as <-.
  exists r, h'. rewrite list_insert_insert_eq. by repeat split.
Qed.

Lemma stop_call_returns i w t :
  w_threads w !! i = Some t -> flags_set (w_sched w) ->
  (forall r, m_rootFiber (w_sched w) = Some r ->
     exists h', call r (set_loc (th_tls t) (w_heap w)) = (Ret tt, h')) ->
  exists w', stop_call i w = (Ret tt, w').
Proof.
  intros Ht Hset Hr. unfold stop_call. erewrite bind_ret by done.
  destruct (m_rootFiber (w_sched w)) as [r|]; [|by eexists].
  rewrite (bind_ret _ _ _ _ _ (stopping_spec w Hset)). destruct (stopping_cond (w_sched w)); [by eexists|].
  destruct (Hr r eq_refl) as [h' Hcall]. unfold mod_thr. rewrite bind_assoc, (get_thr_bind i t) by done.
  erewrite bind_ret by done. unfold on_thread. simpl.
  rewrite list_lookup_insert_eq by by eapply lookup_lt_Some. simpl. rewrite Hcall. by eexists.
Qed.

(** ** Construction with [use_caller] *)

(** The creator gets a main fiber and the root fiber, which will execute [run]. *)
Lemma construct_caller tid n name :
  (0 < n)%Z -> exists h x sz,
    construct 0 n true name (initial_world tid) =
      (Ret tt, mkWorld h (mkScheduler name [] (Some 1) [] [tid] (n - 1) 0 0 None None tid)
         [mkThr tid (mkTls (Some 0) (Some 0) (Some 1) (Native 0)) true PcOutside None None] 0 []) /\
    next_ptr h = 2 /\ is_Some (fibers h !! 0) /\ fibers h !! 1 = Some x /\
    m_ctx x = CtxMade CallerMainFunc sz /\ m_func x = Some FRun /\ m_state x = INIT.
Proof.
  intros Hn. assert (0 < length [main_thr tid]) as Hi by (simpl; lia).
  destruct (first_GetThis ∅ 0 0 0 131072 0) as [y Hy].
  set (l := mkTls (Some 0) (Some 0) None (Native 0)).
  set (x := mkFiber (u64 (u64 (0 + 1) + 1)) (u32 131072) INIT (CtxMade CallerMainFunc (u32 131072))
              (StackAt (u32 131072)) (Some FRun) None).
  assert (new_fiber (Some FRun) 0 true (mkFworld (<[0 := y]> ∅) 1 (u64 (0 + 1)) (u64 (0 + 1)) 131072 l) =
    (Ret 1, mkFworld (<[1 := x]> (<[0 := y]> ∅)) 2 (u64 (u64 (0 + 1) + 1)) (u64 (u64 (0 + 1) + 1)) 131072 l))
    as Hx by reflexivity.
  do 2 eexists. exists (u32 131072). split.
  - change (initial_world tid) with (at_work 0 [main_thr tid] (main_thr tid)
      (empty_fworld 131072 (empty_tls 0)) (mkScheduler [] [] None [] [] 0 0 0 None None 0) 0 []).
    unfold construct. erewrite bind_ret; [|apply Z.ltb_lt in Hn; rewrite Hn; reflexivity].
    exec. erewrite bind_ret; [|eapply do_on_thread; [exact Hi|exact Hy]]. exec.
    erewrite bind_ret; [|reflexivity]. exec.
    erewrite bind_ret; [|eapply do_on_thread; [exact Hi|exact Hx]]. exec.
    erewrite bind_ret; [|eapply do_on_thread; [exact Hi|reflexivity]]. exec. reflexivity.
  - simpl. split; [done|]. split; [|split; [apply lookup_insert_eq|done]].
    rewrite lookup_insert_ne by done. rewrite lookup_insert_eq. by eexists.
Qed.
