(* ===== verification/SchedulerJobs.v ===== *)
(** * What the scheduler promises

    The abstract specification of the scheduler is a bag of jobs (the code that is
    left of every task) and the effects so far; its only step is that some job
    goes on.  This file shows that a scheduler whose tasks use the scheduler by
    [schedule(func)] and the two yields implements it: under every interleaving of
    any number of threads, the creator taking part or not, no step is undefined or
    fails an assertion, and each step is a step of the specification or changes
    nothing the specification sees.  The invariant says which fibers each thread and
    each queue entry owns; all of them are distinct.  Each step also brings its
    thread nearer to the head of its loop ([progress]), unless the thread polls the
    queue in vain; SchedulerDrains.v builds on that. *)
From stdpp Require Import base gmap list strings.
From S2P Require Import Prelude Fiber Scheduler SchedulerSteps.

(** ** The specification *)

(** One step of a job: the jobs it becomes and its effect. *)
Definition step_job (p : prog) : list prog * list nat :=
  match p with
  | PStep n k => ([k], [n])
  | PYieldToReady k | PYieldToHold k => ([k], [])
  | PSchedule fn _ k => ([k; fn], [])
  | _ => ([], [])
  end.

(** A bag of jobs and the effects so far. *)
Definition spec_state : Type := list prog * list nat.

Inductive job_step : spec_state -> spec_state -> Prop :=
| job_step_one p r js js' out :
    js ≡ₚ p :: r -> js' ≡ₚ fst (step_job p) ++ r ->
    job_step (js, out) (js', out ++ snd (step_job p)).

(** A step of the specification, or none. *)
Definition advance (a b : spec_state) : Prop :=
  (fst a ≡ₚ fst b /\ snd a = snd b) \/ job_step a b.

(** All the effects of a job, those of the jobs it schedules included. *)
Fixpoint effects (p : prog) : list nat :=
  match p with
  | PStep n k => n :: effects k
  | PYieldToReady k | PYieldToHold k => effects k
  | PSchedule fn _ k => effects fn ++ effects k
  | _ => []
  end.

Definition all_effects (a : spec_state) : list nat := snd a ++ concat (effects <$> fst a).

Lemma step_job_effects p :
  effects p ≡ₚ snd (step_job p) ++ concat (effects <$> fst (step_job p)).
Proof. destruct p; simpl; rewrite ?app_nil_r; try done. apply Permutation_app_comm. Qed.

Lemma concat_Permutation {A} (l1 l2 : list (list A)) : l1 ≡ₚ l2 -> concat l1 ≡ₚ concat l2.
Proof. intros H. induction H; simpl; [done|by f_equiv| |by etrans]. by rewrite !app_assoc, (Permutation_app_comm y x). Qed.

Lemma advance_effects a b : advance a b -> all_effects a ≡ₚ all_effects b.
Proof.
  unfold all_effects. intros [[H1 H2] | H].
  - rewrite H2. f_equiv. by apply concat_Permutation, fmap_Permutation.
  - destruct H as [p r js js' out Hjs Hjs']. simpl.
    rewrite (concat_Permutation _ _ (fmap_Permutation effects _ _ Hjs)).
    rewrite (concat_Permutation _ _ (fmap_Permutation effects _ _ Hjs')).
    rewrite fmap_cons, fmap_app, concat_app. simpl.
    rewrite (step_job_effects p). by rewrite <- !app_assoc.
Qed.

(** The steps a bag of jobs can still take. *)
Fixpoint job_size (p : prog) : nat :=
  match p with
  | PStep _ k | PYieldToReady k | PYieldToHold k => S (job_size k)
  | PSchedule fn _ k => S (job_size fn + job_size k)
  | _ => 1
  end.

(** The threads tasks may ask for: any, or none in particular. *)
Definition anywhere (thread : Z) : Prop := True.
Definition unpinned (thread : Z) : Prop := thread = (-1)%Z.

Section pinned.
Context (pin : Z -> Prop).

(** Whether [stop] may have been called: before, no idle fiber ends and no thread
    leaves [run]. *)
Context (closed : bool).

(** The thread and the fiber that [use_caller] gives a part in [run], if any. *)
Context (root : Z * option nat).

(** Tasks that yield and schedule functions (on threads that are allowed), and
    otherwise leave the scheduler alone. *)
Fixpoint plain (p : prog) : Prop :=
  match p with
  | PReturn | PThrow _ => True
  | PStep _ k | PYieldToReady k | PYieldToHold k => plain k
  | PSchedule fn thread k => pin thread /\ plain fn /\ plain k
  | PSwapOut _ | PScheduleFiber _ _ _ | PSwitchTo _ _ => False
  end.

(** The steps a bag of jobs can still take. *)
Definition work (js : list prog) : nat := sum_list (job_size <$> js).

Lemma work_app l k : work (l ++ k) = work l + work k.
Proof using Type. unfold work. by rewrite fmap_app, sum_list_with_app. Qed.

Lemma work_Permutation l k : l ≡ₚ k -> work l = work k.
Proof using Type. unfold work. intros H. induction H; csimpl; lia. Qed.

(** How far a thread is from the head of its loop with nothing in hand, between two
    steps of its job: on its own stack, and on a fiber. *)
Definition rank_home (p : pc) : nat :=
  match p with
  | PcOutside | PcDone => 0
  | PcDispatch _ true => 2
  | PcTop => 3
  | PcStart | PcAfterFiber _ | PcAfterFunc | PcInIdle => 4
  | PcInFiber _ | PcInFunc => 5
  | PcDispatch _ false => 7
  end.
Definition rank_on (p : pc) (c : option code) : nat :=
  match c with
  | Some (CEntry _) => match p with PcInIdle => 6 | PcStart => 5 | _ => 1 end
  | Some (CBody _ _ FRun) => rank_home p
  | Some (CBody _ _ FIdle) => 5
  | Some (CBody _ _ (FUser (PSwapOut _))) => 6
  | _ => 0
  end.
Definition rank (h : fworld) (t : thr) : nat :=
  match cur_flow (th_tls t) with
  | Native _ => rank_home (th_pc t)
  | OnFiber f => rank_on (th_pc t) (fibers h !! f ≫= stk)
  end.

Lemma rank_on_bound p c : rank_on p c <= 7.
Proof using Type. destruct c as [[?|? ? [[]| |]|?]|]; simpl; try lia; destruct p as [| | |? []| | | | | |]; simpl; lia. Qed.

Lemma rank_on_plain p entry cur q : plain q -> rank_on p (Some (CBody entry cur (FUser q))) = 0.
Proof using Type. by destruct q. Qed.

Lemma rank_on_entry p entry : p <> PcInIdle -> p <> PcStart -> rank_on p (Some (CEntry entry)) = 1.
Proof using Type. by destruct p. Qed.

Lemma rank_on_leaving p entry cur q : rank_on p (Some (CBody entry cur (FUser (PSwapOut q)))) = 6.
Proof using Type. done. Qed.

Lemma rank_at_home F np fid ct g l id σ b p e fo xm :
  F !! seat_fiber σ = Some xm -> seat_code σ xm ->
  rank (mkFworld F np fid ct g l) (mkThr id (home σ) b p e fo) = rank_home p.
Proof using Type.
  intros Hm Hcode. destruct σ as [k m|k m r]; [done|]. unfold rank. simpl in *. rewrite Hm. simpl.
  by rewrite Hcode.
Qed.

(** A thread that comes back to the head of its loop before it waits or leaves. *)
Definition busy (t : thr) : bool :=
  match th_pc t with PcOutside | PcDone | PcDispatch _ false => false | _ => true end.

(** A step of a thread that brings it on, with the work before and after it. *)
Definition progress (h h' : fworld) (t t' : thr) (n n' : nat) : Prop :=
  8 * n' + rank h' t' < 8 * n + rank h t /\ (busy t = true -> busy t' = true).

(** A thread that is about to look at the queue and to find nothing for it. *)
Definition polls (w : world) (t : thr) : Prop :=
  th_pc t = PcTop /\
  Forall (fun ft => passes_over (th_id t) (fun f => m_state <$> fibers (w_heap w) !! f) ft = true)
    (m_fibers (w_sched w)).

(** ** The fibers of a running scheduler *)

Definition holds (h : fworld) (f : nat) (P : Fiber -> Prop) : Prop :=
  exists x, fibers h !! f = Some x /\ P x.

(** A fiber that yielded inside job [p]. *)
Record parked (f : nat) (p : prog) (x : Fiber) : Prop := mkParked {
  parked_sized : sized x;
  parked_ctx : m_ctx x = CtxSaved (OnFiber f);
  parked_stk : stk x = Some (CBody MainFunc f (FUser p));
  parked_state : m_state x = READY \/ m_state x = HOLD;
  parked_plain : plain p
}.

(** A fiber whose function has ended; a fiber that was reset. *)
Definition over (x : Fiber) : Prop := sized x /\ (m_state x = TERM \/ m_state x = EXCEPT).
Definition spare (x : Fiber) : Prop := sized x /\ m_state x = INIT.

(** A fiber on which job [p] is running: about to enter its function, inside it, or
    between the two halves of a yield. *)
Record running (f : nat) (p : prog) (x : Fiber) : Prop := mkRunning {
  running_sized : sized x;
  running_ctx : m_ctx x = CtxStale;
  running_plain : plain p;
  running_at :
    (stk x = Some (CEntry MainFunc) /\ m_func x = Some (FUser p) /\ m_state x = EXEC) \/
    (stk x = Some (CBody MainFunc f (FUser p)) /\ m_state x = EXEC) \/
    (stk x = Some (CBody MainFunc f (FUser (PSwapOut p))) /\
     (m_state x = READY \/ m_state x = HOLD))
}.

(** The idle fiber when its thread is not on it, and when it is. *)
Record idle_off (f : nat) (x : Fiber) : Prop := mkIdleOff {
  idle_off_sized : sized x;
  idle_off_at :
    ((exists sz, m_ctx x = CtxMade MainFunc sz) /\ m_func x = Some FIdle /\
     (m_state x = INIT \/ m_state x = HOLD)) \/
    (m_ctx x = CtxSaved (OnFiber f) /\ stk x = Some (CBody MainFunc f FIdle) /\ m_state x = HOLD) \/
    (m_state x = TERM /\ closed = true)
}.

Record idle_on (f : nat) (x : Fiber) : Prop := mkIdleOn {
  idle_on_sized : sized x;
  idle_on_ctx : m_ctx x = CtxStale;
  idle_on_state : m_state x = EXEC;
  idle_on_at : (stk x = Some (CEntry MainFunc) /\ m_func x = Some FIdle) \/
               stk x = Some (CBody MainFunc f FIdle)
}.

(** What a queue entry owns: its fibers and its jobs. *)
Inductive entry_ok (h : fworld) : FiberAndThread -> list nat * list prog -> Prop :=
| entry_fiber f p thread :
    holds h f (parked f p) -> pin thread -> entry_ok h (mkFT (Some f) None thread) ([f], [p])
| entry_func p thread : plain p -> pin thread -> entry_ok h (mkFT None (Some (FUser p)) thread) ([], [p]).

(** The slot [func_fiber]. *)
Inductive slot_ok (h : fworld) : option nat -> list nat -> Prop :=
| slot_none : slot_ok h None []
| slot_some f : holds h f spare -> slot_ok h (Some f) [f].

(** A fiber that has come back from a switch. *)
Inductive back_ok (h : fworld) (f : nat) : list prog -> Prop :=
| back_parked p : holds h f (parked f p) -> back_ok h f [p]
| back_over : holds h f over -> back_ok h f [].

(** What a thread in [run] owns besides its main and idle fibers. *)
Inductive home_ok (h : fworld) : pc -> option nat -> list nat -> list prog -> Prop :=
| home_top fo o : slot_ok h fo o -> home_ok h PcTop fo o []
| home_dispatch ft fo o v : slot_ok h fo o -> entry_ok h ft v ->
    home_ok h (PcDispatch ft true) fo (o ++ fst v) (snd v)
| home_no_task fo o : slot_ok h fo o -> home_ok h (PcDispatch ft_empty false) fo o []
| home_in_fiber f fo o js : slot_ok h fo o -> back_ok h f js ->
    home_ok h (PcInFiber f) fo (o ++ [f]) js
| home_after_fiber f fo o js : slot_ok h fo o -> back_ok h f js ->
    home_ok h (PcAfterFiber f) fo (o ++ [f]) js
| home_in_func f js : back_ok h f js -> home_ok h PcInFunc (Some f) [f] js
| home_after_func f js : back_ok h f js -> home_ok h PcAfterFunc (Some f) [f] js
| home_in_idle fo o : slot_ok h fo o -> home_ok h PcInIdle fo o [].

(** What a thread on fiber [f] owns besides its main fiber; [e] is its idle fiber. *)
Inductive away_ok (h : fworld) (f e : nat) : pc -> option nat -> list nat -> list prog -> Prop :=
| away_fiber fo o p : holds h e (idle_off e) -> slot_ok h fo o -> holds h f (running f p) ->
    away_ok h f e (PcInFiber f) fo (e :: o ++ [f]) [p]
| away_func p : holds h e (idle_off e) -> holds h f (running f p) ->
    away_ok h f e PcInFunc (Some f) [e; f] [p]
| away_idle fo o : f = e -> slot_ok h fo o -> holds h e (idle_on e) ->
    away_ok h f e PcInIdle fo (e :: o) [].

(** The root fiber before [run]: made for it; entered by [call] in [stop]. *)
Record root_made (x : Fiber) : Prop := mkRootMade {
  root_made_ctx : exists sz, m_ctx x = CtxMade CallerMainFunc sz;
  root_made_func : m_func x = Some FRun;
  root_made_state : m_state x = INIT
}.
Definition root_entered (r : nat) (x : Fiber) : Prop :=
  (stk x = Some (CEntry CallerMainFunc) /\ m_func x = Some FRun) \/
  stk x = Some (CBody CallerMainFunc r FRun).

(** What a thread owns: outside the scheduler or done; the creator with its root
    fiber, and entering it; a pool thread about to start; a thread in [run], and on
    a fiber. *)
Inductive thread_ok (h : fworld) : thr -> list nat * list prog -> Prop :=
| thread_out id l k b p e fo : cur_flow l = Native k ->
    (p = PcOutside /\ b = false /\ snd root = None) \/ (p = PcDone /\ closed = true) ->
    thread_ok h (mkThr id l b p e fo) ([], [])
| thread_creator id k m r e fo :
    root = (id, Some r) -> holds h m (fun _ => True) -> holds h r root_made ->
    thread_ok h (mkThr id (mkTls (Some m) (Some m) (Some r) (Native k)) true PcOutside e fo)
      ([r; m], [])
| thread_entering id k m r e fo :
    fst root = id -> holds h r (root_entered r) -> seat_left h (Caller k m r) ->
    thread_ok h (mkThr id (home (Caller k m r)) true PcStart e fo) ([r; m], [])
| thread_start id k b e fo :
    fst root <> id -> thread_ok h (mkThr id (empty_tls k) b PcStart e fo) ([], [])
| thread_home id σ e p fo o js :
    holds h (seat_fiber σ) (seat_code σ) -> seat_left h σ ->
    holds h e (idle_off e) -> home_ok h p fo o js ->
    thread_ok h (mkThr id (home σ) true p (Some e) fo) (seat_fiber σ :: e :: o ++ seat_rest σ, js)
| thread_away id σ f e p fo o js :
    holds h (seat_fiber σ) (fun x => m_ctx x = CtxSaved (seat_flow σ) /\ seat_code σ x) ->
    seat_left h σ -> away_ok h f e p fo o js ->
    thread_ok h (mkThr id (away σ f) true p (Some e) fo) (seat_fiber σ :: o ++ seat_rest σ, js).

(** The world implements a bag of jobs: [qv] and [tv] say what each queue entry and
    each thread owns. *)
Record implements_with (w : world) (qv tv : list (list nat * list prog)) : Prop := mkImpl {
  impl_queue : Forall2 (entry_ok (w_heap w)) (m_fibers (w_sched w)) qv;
  impl_threads : Forall2 (thread_ok (w_heap w)) (w_threads w) tv;
  impl_distinct : NoDup (concat (fst <$> qv) ++ concat (fst <$> tv));
  impl_fresh : Forall (fun f => (f < next_ptr (w_heap w))%nat)
                 (concat (fst <$> qv) ++ concat (fst <$> tv));
  impl_root : fst (roots (w_sched w)) = root;
  impl_closed : m_stopping (w_sched w) = Some true -> closed = true;
  impl_flags : flags_set (w_sched w)
}.

Definition implements (w : world) (js : list prog) : Prop :=
  exists qv tv, implements_with w qv tv /\ js ≡ₚ concat (snd <$> qv) ++ concat (snd <$> tv).

(** The world as the specification sees it. *)
Definition seen (w : world) (js : list prog) : spec_state := (js, snd <$> w_log w).

(** ** From one thread to the world *)

Lemma advance_frame r js out js' out' l l' :
  advance (js, out) (js', out') -> l ≡ₚ js ++ r -> l' ≡ₚ js' ++ r ->
  advance (l, out) (l', out').
Proof.
  intros [[H1 H2] | H] Hl Hl'; simpl in *.
  - left. split; [|done]. simpl. by rewrite Hl, Hl', H1.
  - right. inversion H as [p r0 js0 js1 out0 Hjs Hjs']; subst.
    apply (job_step_one p (r0 ++ r)).
    + by rewrite Hl, Hjs.
    + by rewrite Hl', Hjs', app_assoc.
Qed.

Lemma NoDup_submseteq {A} (l k : list A) : l ⊆+ k -> NoDup k -> NoDup l.
Proof. intros (k' & ->)%submseteq_Permutation Hk. by apply NoDup_app in Hk as [? _]. Qed.

Lemma Forall_submseteq {A} (P : A -> Prop) (l k : list A) : l ⊆+ k -> Forall P k -> Forall P l.
Proof. intros (k' & ->)%submseteq_Permutation Hk. by apply Forall_app in Hk as [? _]. Qed.

(** A thread keeps what it owns when nobody else touches it. *)
Lemma holds_frame h h' f P : fibers h' !! f = fibers h !! f -> holds h f P -> holds h' f P.
Proof. intros H (x & Hx & HP). exists x. by rewrite H. Qed.

Lemma entry_frame h h' ft v :
  (forall f, f ∈ fst v -> fibers h' !! f = fibers h !! f) -> entry_ok h ft v -> entry_ok h' ft v.
Proof.
  intros Hf H. destruct H; constructor; try done. eapply holds_frame; [|done]. apply Hf. simpl.
  set_solver.
Qed.

Lemma slot_frame h h' fo o :
  (forall f, f ∈ o -> fibers h' !! f = fibers h !! f) -> slot_ok h fo o -> slot_ok h' fo o.
Proof.
  intros Hf H. destruct H; constructor. eapply holds_frame; [|done]. apply Hf. set_solver.
Qed.

Lemma back_frame h h' f js :
  fibers h' !! f = fibers h !! f -> back_ok h f js -> back_ok h' f js.
Proof. intros Hf H. destruct H; constructor; eapply holds_frame; eauto. Qed.

Lemma home_frame h h' p fo o js :
  (forall f, f ∈ o -> fibers h' !! f = fibers h !! f) -> home_ok h p fo o js -> home_ok h' p fo o js.
Proof.
  intros Hf H. destruct H; constructor;
    first [eapply slot_frame; [|done] | eapply back_frame; [|done] | eapply entry_frame; [|done]];
    intros; apply Hf; set_solver.
Qed.

Lemma away_frame h h' f e p fo o js :
  (forall g, g ∈ o -> fibers h' !! g = fibers h !! g) ->
  away_ok h f e p fo o js -> away_ok h' f e p fo o js.
Proof.
  intros Hf H. destruct H; constructor; try done;
    first [eapply slot_frame; [|done] | eapply holds_frame; [|done]];
    intros; apply Hf; set_solver.
Qed.

Lemma left_frame h h' σ :
  (forall f, f ∈ seat_rest σ -> fibers h' !! f = fibers h !! f) -> seat_left h σ -> seat_left h' σ.
Proof. intros Hf H. destruct σ; [done|]. simpl in *. rewrite Hf; [done|left]. Qed.

Lemma thread_frame h h' t v :
  (forall f, f ∈ fst v -> fibers h' !! f = fibers h !! f) -> thread_ok h t v -> thread_ok h' t v.
Proof.
  intros Hf H. destruct H; econstructor; try done;
    first [eapply home_frame; [|done] | eapply away_frame; [|done] | eapply holds_frame; [|done]
          | eapply left_frame; [|done]];
    intros; apply Hf; simpl; set_solver.
Qed.

Lemma split_at {A} (l : list A) i x :
  l !! i = Some x -> exists l1 l2, l = l1 ++ x :: l2 /\ length l1 = i.
Proof.
  intros H. exists (take i l), (drop (S i) l). split; [by rewrite take_drop_middle|].
  apply length_take_le, Nat.lt_le_incl, (lookup_lt_Some _ _ _ H).
Qed.

Lemma insert_middle {A} (l1 l2 : list A) x y : <[length l1 := y]> (l1 ++ x :: l2) = l1 ++ y :: l2.
Proof. rewrite insert_app_r_alt by lia. by rewrite Nat.sub_diag. Qed.

(** The step of a thread in terms of what it owned and owns: it touched its own
    fibers only, and gained none but new ones and those of the queue. *)
Section finish.
Context (i : nat) (w : world) (qv tv : list (list nat * list prog)).
Context (t : thr) (own : list nat) (js : list prog).
Context (Hw : implements_with w qv tv).
Context (Ht : w_threads w !! i = Some t) (Hv : tv !! i = Some (own, js)).
Context (t' : thr) (h' : fworld) (s' : Scheduler) (tk' : nat) (lg' : list (nat * nat)).
Context (own' : list nat) (js' : list prog) (qv' : list (list nat * list prog)).
Let w' := at_work i (w_threads w) t' h' s' tk' lg'.

Lemma finish_step :
  Forall2 (entry_ok h') (m_fibers s') qv' ->
  thread_ok h' t' (own', js') ->
  roots s' = roots (w_sched w) ->
  (forall f, f ∉ own -> (f < next_ptr (w_heap w))%nat ->
     fibers h' !! f = fibers (w_heap w) !! f) ->
  (next_ptr (w_heap w) <= next_ptr h')%nat ->
  own' ++ concat (fst <$> qv') ⊆+
    seq (next_ptr (w_heap w)) (next_ptr h' - next_ptr (w_heap w)) ++
    own ++ concat (fst <$> qv) ->
  advance (js ++ concat (snd <$> qv), snd <$> w_log w)
    (js' ++ concat (snd <$> qv'), snd <$> lg') ->
  exists tv', implements_with w' qv' tv' /\
    advance (seen w (concat (snd <$> qv) ++ concat (snd <$> tv)))
      (seen w' (concat (snd <$> qv') ++ concat (snd <$> tv'))) /\
    work (concat (snd <$> qv') ++ concat (snd <$> tv')) + work (js ++ concat (snd <$> qv)) =
      work (concat (snd <$> qv) ++ concat (snd <$> tv)) + work (js' ++ concat (snd <$> qv')) /\
    tv' = <[i := (own', js')]> tv.
Proof using All.
  intros Hq Hok Hroot Hfr Hnp Hown Hadv.
  destruct Hw as [Hq0 Hts Hnd Hlt Hr Hcl Hfl].
  destruct (split_at _ _ _ Hv) as (t1 & t2 & -> & Hlen).
  destruct (split_at _ _ _ Ht) as (u1 & u2 & Hu & Hlen').
  exists (t1 ++ (own', js') :: t2). split.
  2:{ unfold seen. simpl. rewrite !fmap_app, !fmap_cons, !concat_app. simpl.
      split; [|split; [rewrite !work_app; lia|by rewrite <- Hlen, insert_middle]].
      eapply (advance_frame (concat (snd <$> t1) ++ concat (snd <$> t2)));
        [exact Hadv| |]; solve_Permutation. }
  rewrite fmap_app, fmap_cons, concat_app in Hnd, Hlt. simpl in Hnd, Hlt.
  assert (own' ++ concat (fst <$> qv') ++ concat (fst <$> t1) ++ concat (fst <$> t2) ⊆+
    seq (next_ptr (w_heap w)) (next_ptr h' - next_ptr (w_heap w)) ++
    (concat (fst <$> qv) ++ concat (fst <$> t1) ++ own ++ concat (fst <$> t2))) as Hall.
  { trans ((own' ++ concat (fst <$> qv')) ++ concat (fst <$> t1) ++ concat (fst <$> t2));
      [solve_submseteq|]. etrans; [apply submseteq_skips_r, Hown|]. solve_submseteq. }
  constructor; simpl.
  - exact Hq.
  - rewrite Hu in Hts |- *. rewrite <- Hlen', insert_middle.
    apply Forall2_app_inv in Hts as [Hts1 Hts2]; [|congruence].
    inversion Hts2 as [|? ? ? ? Hhd Htl]; subst.
    assert (forall us vs, Forall2 (thread_ok (w_heap w)) us vs ->
      (forall f, f ∈ concat (fst <$> vs) -> (f ∉ own) /\ (f < next_ptr (w_heap w))%nat) ->
      Forall2 (thread_ok h') us vs) as Hframe.
    { intros us vs H Hin. induction H as [|u v us vs Huv _ IH]; constructor.
      - eapply thread_frame; [|exact Huv]. intros f Hf. apply Hfr; apply Hin; set_solver.
      - apply IH. intros f Hf. apply Hin. clear -Hf. set_solver. }
    assert (forall f, f ∈ concat (fst <$> t1) \/ f ∈ concat (fst <$> t2) ->
      (f ∉ own) /\ (f < next_ptr (w_heap w))%nat) as Hother.
    { intros f Hf. split.
      - intros Hfo. apply NoDup_app in Hnd as (_ & _ & Hnd).
        apply NoDup_app in Hnd as (_ & Hd1 & Hnd).
        apply NoDup_app in Hnd as (_ & Hd2 & _). clear -Hf Hfo Hd1 Hd2. set_solver.
      - rewrite Forall_forall in Hlt. apply Hlt. clear -Hf. set_solver. }
    apply Forall2_app; [|constructor]; [|done|]; apply Hframe; auto.
  - rewrite fmap_app, fmap_cons, concat_app. simpl.
    eapply NoDup_submseteq; [etrans; [|exact Hall]; solve_submseteq|].
    apply NoDup_app. split; [apply NoDup_seq|]. split; [|done].
    intros f Hf%elem_of_seq Hf'. rewrite Forall_forall in Hlt. apply Hlt in Hf'. lia.
  - rewrite fmap_app, fmap_cons, concat_app. simpl.
    eapply Forall_submseteq; [etrans; [|exact Hall]; solve_submseteq|].
    apply Forall_app. split.
    + apply Forall_seq. lia.
    + eapply Forall_impl; [exact Hlt|]. simpl. lia.
  - exact (eq_trans (f_equal fst Hroot) Hr).
  - intros H. apply Hcl. exact (eq_trans (eq_sym (f_equal (fun r => fst (snd r)) Hroot)) H).
  - unfold roots in Hroot. injection Hroot as _ _ H1 H2. unfold flags_set. by rewrite H1, H2.
Qed.
End finish.

(** ** Every step implements the specification *)

Definition jobs_of (qv tv : list (list nat * list prog)) : list prog :=
  concat (snd <$> qv) ++ concat (snd <$> tv).

(** Thread [i] can step; its step is one of the specification or none; it brings
    the thread on unless the thread polls the queue in vain; and it touches fibers
    of the thread only. *)
Definition goes (i : nat) (w : world) (qv tv : list (list nat * list prog)) : Prop :=
  exists w' qv' tv', thread_step i w = (Ret tt, w') /\ implements_with w' qv' tv' /\
    advance (seen w (jobs_of qv tv)) (seen w' (jobs_of qv' tv')) /\
    (forall t, w_threads w !! i = Some t -> exists t', w_threads w' !! i = Some t' /\
       (progress (w_heap w) (w_heap w') t t' (work (jobs_of qv tv)) (work (jobs_of qv' tv')) \/
        (polls w t /\ m_fibers (w_sched w') = m_fibers (w_sched w)))) /\
    (forall v f, tv !! i = Some v -> f ∉ fst v -> (f < next_ptr (w_heap w))%nat ->
       fibers (w_heap w') !! f = fibers (w_heap w) !! f).

Section cases.
Context (i : nat) (w : world) (qv tv : list (list nat * list prog)).
Context (t : thr) (own : list nat) (js : list prog).
Context (Hw : implements_with w qv tv).
Context (Ht : w_threads w !! i = Some t) (Hv : tv !! i = Some (own, js)).

Lemma thread_in_range : (i < length (w_threads w))%nat.
Proof using Ht. exact (lookup_lt_Some _ _ _ Ht). Qed.

Lemma world_at_work :
  w = at_work i (w_threads w) t (w_heap w) (w_sched w) (w_tickles w) (w_log w).
Proof using Ht. unfold at_work. rewrite list_insert_id by exact Ht. clear. by destruct w. Qed.

Lemma own_in_tv f : f ∈ own -> f ∈ concat (fst <$> tv).
Proof using All.
  intros Hf. destruct (split_at _ _ _ Hv) as (t1 & t2 & -> & _).
  rewrite fmap_app, concat_app. simpl. set_solver.
Qed.

Lemma own_old f : f ∈ own -> (f < next_ptr (w_heap w))%nat.
Proof using All.
  intros Hf%own_in_tv. pose proof (impl_fresh _ _ _ Hw) as H.
  rewrite Forall_forall in H. apply H. set_solver.
Qed.

Lemma own_NoDup : NoDup own.
Proof using All.
  pose proof (impl_distinct _ _ _ Hw) as H. destruct (split_at _ _ _ Hv) as (t1 & t2 & -> & _).
  rewrite fmap_app, fmap_cons, concat_app in H. simpl in H.
  eapply NoDup_submseteq; [|exact H]. solve_submseteq.
Qed.

Lemma queue_apart f : f ∈ concat (fst <$> qv) -> (f ∉ own) /\ (f < next_ptr (w_heap w))%nat.
Proof using All.
  intros Hf. split.
  - intros Ho%own_in_tv. pose proof (impl_distinct _ _ _ Hw) as H.
    apply NoDup_app in H as (_ & H & _). by eapply H.
  - pose proof (impl_fresh _ _ _ Hw) as H. rewrite Forall_forall in H. apply H. set_solver.
Qed.

Lemma queue_keeps h' q vs :
  (forall f, f ∉ own -> (f < next_ptr (w_heap w))%nat ->
     fibers h' !! f = fibers (w_heap w) !! f) ->
  (forall f, f ∈ concat (fst <$> vs) -> f ∈ concat (fst <$> qv)) ->
  Forall2 (entry_ok (w_heap w)) q vs -> Forall2 (entry_ok h') q vs.
Proof using All.
  intros Hfr Hin H. induction H as [|ft v q vs Hft _ IH]; constructor.
  - eapply entry_frame; [|done]. intros f Hf. apply Hfr; apply queue_apart, Hin; set_solver.
  - apply IH. intros f Hf. apply Hin. set_solver.
Qed.

(** A step that may add to the queue. *)
Lemma goes_by t' h' s' tk' lg' own' js' qnew vnew :
  thread_step i (at_work i (w_threads w) t (w_heap w) (w_sched w) (w_tickles w) (w_log w)) =
    (Ret tt, at_work i (w_threads w) t' h' s' tk' lg') ->
  m_fibers s' = m_fibers (w_sched w) ++ qnew -> Forall2 (entry_ok h') qnew vnew ->
  thread_ok h' t' (own', js') ->
  roots s' = roots (w_sched w) ->
  (forall f, f ∉ own -> (f < next_ptr (w_heap w))%nat ->
     fibers h' !! f = fibers (w_heap w) !! f) ->
  (next_ptr (w_heap w) <= next_ptr h')%nat ->
  own' ++ concat (fst <$> vnew) ⊆+
    seq (next_ptr (w_heap w)) (next_ptr h' - next_ptr (w_heap w)) ++ own ->
  advance (js, snd <$> w_log w) (js' ++ concat (snd <$> vnew), snd <$> lg') ->
  progress (w_heap w) h' t t' (work js) (work js' + work (concat (snd <$> vnew))) \/
    (polls w t /\ qnew = []) ->
  goes i w qv tv.
Proof using All.
  intros Hstep Hq Hnew Hok Hr Hfr Hnp Hown Hadv Hprog.
  destruct (finish_step i w qv tv t own js Hw Ht Hv t' h' s' tk' lg' own' js' (qv ++ vnew))
    as (tv' & Hw' & Hadv' & Hwork & _); try done.
  - rewrite Hq. apply Forall2_app; [|done]. eapply queue_keeps; [done|done|apply Hw].
  - rewrite fmap_app, concat_app. trans ((own' ++ concat (fst <$> vnew)) ++ concat (fst <$> qv));
      [solve_submseteq|]. etrans; [apply submseteq_skips_r, Hown|]. solve_submseteq.
  - rewrite fmap_app, concat_app. eapply (advance_frame (concat (snd <$> qv)));
      [exact Hadv| |]; solve_Permutation.
  - do 3 eexists. split; [rewrite world_at_work at 1; exact Hstep|].
    split; [exact Hw'|]. split; [exact Hadv'|]. split.
    + intros t1 Ht1. simpl. rewrite Ht in Ht1. injection Ht1 as <-. exists t'.
      split; [apply list_lookup_insert_eq, thread_in_range|].
      destruct Hprog as [[Hlt Hb]|[Hp ->]]; [left|right; by rewrite Hq, app_nil_r]. split; [|exact Hb].
      unfold jobs_of. rewrite !fmap_app, !concat_app, !work_app in *. lia.
    + intros v f Hv1. rewrite Hv in Hv1. injection Hv1 as <-. apply Hfr.
Qed.
End cases.

Lemma advance_refl a : advance a a.
Proof. by left. Qed.

(** The step of a single job, its effects recorded in the log of the threads. *)
Lemma advance_one p (lg lg' : list (nat * nat)) l :
  snd <$> lg' = (snd <$> lg) ++ snd (step_job p) -> l ≡ₚ fst (step_job p) ->
  advance ([p], snd <$> lg) (l, snd <$> lg').
Proof.
  intros -> Hl. right. apply (job_step_one p []); [done|]. by rewrite app_nil_r.
Qed.

(** *** Steps on a fiber *)

Lemma away_user_fiber h f e pc fo o js :
  away_ok h f e pc fo o js -> pc <> PcInIdle -> exists p, js = [p] /\ holds h f (running f p).
Proof. intros H Hpc. destruct H; [eauto..|done]. Qed.

Lemma away_user_stay h h' f e pc fo o js p' :
  away_ok h f e pc fo o js -> pc <> PcInIdle -> NoDup o ->
  (forall g, g ∈ o -> g <> f -> fibers h' !! g = fibers h !! g) ->
  holds h' f (running f p') -> away_ok h' f e pc fo o [p'].
Proof.
  intros H Hpc Hnd Hfr Hrun. destruct H as [fo o p He Ho Hf | p He Hf |]; [| |done].
  - apply NoDup_cons in Hnd as [Hef Hnd]. apply NoDup_app in Hnd as (_ & Hof & _).
    constructor; [| |done].
    + eapply holds_frame; [|exact He]. apply Hfr; [left|set_solver].
    + eapply slot_frame; [|exact Ho]. intros g Hg. apply Hfr; [set_solver|].
      intros ->. by apply (Hof f Hg), list_elem_of_singleton.
  - apply NoDup_cons in Hnd as [Hef _]. constructor; [|done].
    eapply holds_frame; [|exact He]. apply Hfr; [left|set_solver].
Qed.

Lemma away_user_leave h h' f e pc fo o js js' :
  away_ok h f e pc fo o js -> pc <> PcInIdle -> NoDup o ->
  (forall g, g ∈ o -> g <> f -> fibers h' !! g = fibers h !! g) ->
  back_ok h' f js' ->
  exists o', o = e :: o' /\ holds h' e (idle_off e) /\ home_ok h' pc fo o' js'.
Proof.
  intros H Hpc Hnd Hfr Hback. destruct H as [fo o p He Ho Hf | p He Hf |]; [| |done].
  - apply NoDup_cons in Hnd as [Hef Hnd]. apply NoDup_app in Hnd as (_ & Hof & _).
    eexists. split; [done|]. split.
    + eapply holds_frame; [|exact He]. apply Hfr; [left|set_solver].
    + constructor; [|done]. eapply slot_frame; [|exact Ho]. intros g Hg. apply Hfr; [set_solver|].
      intros ->. by apply (Hof f Hg), list_elem_of_singleton.
  - apply NoDup_cons in Hnd as [Hef _]. eexists. split; [done|].
    split; [|by constructor]. eapply holds_frame; [|exact He]. apply Hfr; [left|set_solver].
Qed.

Section user_steps.
Context (i : nat) (F : gmap nat Fiber) (np : nat) (fid ct g : Z) (l0 : tls).
Context (s : Scheduler) (ts : list thr) (tk : nat) (lg : list (nat * nat)).
Context (qv tv : list (list nat * list prog)).
Context (id : Z) (σ : seat) (f e : nat) (pc : pc) (fo : option nat) (o : list nat) (js : list prog).
Abbreviation heap F l := (mkFworld F np fid ct g l).
Abbreviation m := (seat_fiber σ).
Abbreviation w := (mkWorld (heap F l0) s ts tk lg).
Context (Hw : implements_with w qv tv).
Context (Ht : ts !! i = Some (mkThr id (away σ f) true pc (Some e) fo)).
Context (Hv : tv !! i = Some (m :: o ++ seat_rest σ, js)).
Context (Ha : away_ok (heap F l0) f e pc fo o js) (Hpc : pc <> PcInIdle).
Context (xm : Fiber) (Hm : F !! m = Some xm) (Hc : m_ctx xm = CtxSaved (seat_flow σ)).
Context (Hcode : seat_code σ xm) (Hleft : seat_left (heap F l0) σ).

Lemma user_own : m <> f /\ NoDup o /\ f ∈ o /\ (m ∉ o) /\ forall a, a ∈ seat_rest σ -> a <> m /\ a <> f.
Proof using All.
  pose proof (own_NoDup i w qv tv _ _ _ Hw Ht Hv) as [Hmo Hnd]%NoDup_cons.
  apply NoDup_app in Hnd as (Hnd & Hor & _).
  assert (f ∈ o) as Hfo by (clear -Ha; destruct Ha; set_solver). clear -Hmo Hnd Hor Hfo. set_solver.
Qed.

(** The fiber [seat_rest] is not touched. *)
Lemma user_left F' l : (forall a, a <> m -> a <> f -> F' !! a = F !! a) -> seat_left (heap F' l) σ.
Proof using All.
  destruct user_own as (_ & _ & _ & _ & Hr). intros HF. eapply left_frame; [|exact Hleft].
  intros a Ha'. simpl. apply HF; by apply Hr.
Qed.

Lemma user_busy : busy (mkThr id (away σ f) true pc (Some e) fo) = true /\ rank_home pc = 5.
Proof using All. by destruct Ha. Qed.

(** The fiber goes on with [p'], having scheduled [qnew]. *)
Lemma user_stays x x' p' s' tk' lg' qnew vnew :
  F !! f = Some x ->
  thread_step i (at_work i ts (mkThr id (away σ f) true pc (Some e) fo) (heap F l0) s tk lg) =
    (Ret tt, at_work i ts (mkThr id (away σ f) true pc (Some e) fo)
               (heap (<[f := x']> F) (away σ f)) s' tk' lg') ->
  m_fibers s' = m_fibers s ++ qnew -> roots s' = roots s ->
  Forall2 (entry_ok (heap (<[f := x']> F) (away σ f))) qnew vnew ->
  concat (fst <$> vnew) = [] ->
  running f p' x' ->
  advance (js, snd <$> lg) ([p'] ++ concat (snd <$> vnew), snd <$> lg') ->
  8 * work ([p'] ++ concat (snd <$> vnew)) + rank_on pc (stk x') < 8 * work js + rank_on pc (stk x) ->
  goes i w qv tv.
Proof using All.
  destruct user_own as (Hmf & Hnd & Hfo & Hmo & Hrest). intros Hx Hstep Hq Hr Hnew Hvnew Hrun Hadv Hlt.
  eapply (goes_by i w qv tv _ _ _ Hw Ht Hv _ _ _ _ _ (m :: o ++ seat_rest σ) [p'] qnew vnew);
    [exact Hstep|exact Hq|exact Hnew| |exact Hr| |done| |exact Hadv|left].
  - apply thread_away.
    + exists xm. simpl. by rewrite lookup_insert_ne.
    + apply user_left. intros a _ Haf. by rewrite lookup_insert_ne.
    + eapply away_user_stay; [exact Ha|done|done| |].
      * intros a _ Hne. simpl. by rewrite lookup_insert_ne.
      * exists x'. simpl. by rewrite lookup_insert_eq.
  - intros a Ha' _. simpl. rewrite lookup_insert_ne; [done|]. set_solver.
  - rewrite Hvnew. solve_submseteq.
  - split; [|done]. unfold rank. simpl. rewrite lookup_insert_eq, Hx. simpl.
    by rewrite <- work_app.
Qed.

(** The thread leaves the fiber. *)
Lemma user_leaves x x' js' :
  F !! f = Some x ->
  thread_step i (at_work i ts (mkThr id (away σ f) true pc (Some e) fo) (heap F l0) s tk lg) =
    (Ret tt, at_work i ts (mkThr id (home σ) true pc (Some e) fo)
               (heap (<[m := set_ctx CtxStale xm]> (<[f := x']> F)) (home σ)) s tk lg) ->
  back_ok (heap (<[m := set_ctx CtxStale xm]> (<[f := x']> F)) (home σ)) f js' ->
  advance (js, snd <$> lg) (js', snd <$> lg) ->
  8 * work js' + 5 < 8 * work js + rank_on pc (stk x) ->
  goes i w qv tv.
Proof using All.
  destruct user_own as (Hmf & Hnd & Hfo & Hmo & Hrest). destruct user_busy as [Hbusy Hrank].
  intros Hx Hstep Hback Hadv Hlt.
  pose proof user_left as Hul.
  assert (forall a, a ∈ o -> a <> f ->
    fibers (heap (<[m := set_ctx CtxStale xm]> (<[f := x']> F)) (home σ)) !! a =
    fibers (heap F l0) !! a) as Hfr.
  { intros a Ha' Hne. simpl. rewrite !lookup_insert_ne; [done|done|set_solver]. }
  destruct (away_user_leave _ _ f e pc fo o js js' Ha Hpc Hnd Hfr Hback) as (o' & Ho & He & Hhome).
  rewrite Ho in *.
  eapply (goes_by i w qv tv _ _ _ Hw Ht Hv _ _ _ _ _ (m :: e :: o' ++ seat_rest σ) js' [] []);
    [exact Hstep|by rewrite app_nil_r|constructor| |done| |done| | |left].
  - apply thread_home; [| |done|done].
    + eexists. simpl. rewrite lookup_insert_eq. split; [done|]. by destruct σ.
    + apply Hul. intros a Ham Haf. by rewrite !lookup_insert_ne.
  - intros a Ha' _. simpl. rewrite !lookup_insert_ne; [done|set_solver..].
  - solve_submseteq.
  - by rewrite app_nil_r.
  - split; [|intros _; exact Hbusy]. rewrite (rank_at_home _ _ _ _ _ _ _ _ _ _ _ _ (set_ctx CtxStale xm)), Hrank;
      [|apply lookup_insert_eq|by destruct σ].
    unfold rank. simpl. rewrite Hx. simpl. change (work []) with 0. lia.
Qed.

(** Compares the ranks before and after a statement. *)
Ltac rank_drops :=
  repeat match goal with H : stk ?x = _ |- context [stk ?x] => rewrite H end;
  repeat match goal with H : ?js = [_] |- context [work ?js] => rewrite H end;
  rewrite ?work_app; cbn -[rank_on];
  repeat match goal with |- context [rank_on ?p ?c] =>
    first [rewrite (rank_on_plain p) by done | rewrite (rank_on_entry p) by done |
           rewrite (rank_on_leaving p) |
           let H := fresh in pose proof (rank_on_bound p c) as H; revert H;
           generalize (rank_on p c); intros ? H] end;
  try lia.

Lemma user_goes x p : F !! f = Some x -> js = [p] -> running f p x -> goes i w qv tv.
Proof using All.
  intros Hx Hjs [Hsz Hcx Hplain Hat]. destruct user_own as (Hmf & _).
  assert (pc <> PcStart) as Hps by (destruct user_busy as [_ Hr]; intros E; by rewrite E in Hr).
  pose proof (lookup_lt_Some _ _ _ Ht) as Hi.
  destruct Hat as [(Hs & Hfn & Hst) | [(Hs & Hst) | (Hs & Hst)]].
  - (* the entry function *)
    eapply (user_stays x _ p s tk lg [] []);
      [exact Hx|by eapply step_entry|by rewrite app_nil_r|done|constructor|done| | |rank_drops].
    + split; [done|done|done|]. right; left. done.
    + rewrite Hjs. apply advance_refl.
  - destruct p as [|msg|n q|q|q|q|fn thread q|f' thread q|thread q]; try done.
    + eapply (user_leaves x _ []); [exact Hx|by eapply step_return| | |rank_drops].
      * apply back_over. eexists. split; [simpl; rewrite lookup_insert_ne by done; apply lookup_insert_eq|].
        split; [done|by left].
      * rewrite Hjs. by apply advance_one; [rewrite app_nil_r|].
    + eapply (user_leaves x _ []); [exact Hx|by eapply step_throw| | |rank_drops].
      * apply back_over. eexists. split; [simpl; rewrite lookup_insert_ne by done; apply lookup_insert_eq|].
        split; [done|by right].
      * rewrite Hjs. by apply advance_one; [rewrite app_nil_r|].
    + eapply (user_stays x _ q s tk (lg ++ [(i, n)]) [] []);
        [exact Hx|by eapply step_effect|by rewrite app_nil_r|done|constructor|done| | |rank_drops].
      * split; [done|done|done|]. by right; left.
      * rewrite Hjs. apply (advance_one (PStep n q)); [by rewrite fmap_app|done].
    + eapply (user_stays x _ q s tk lg [] []);
        [exact Hx|eapply step_yield; [done|done|by left|done|done]|by rewrite app_nil_r|done|constructor|done| | |rank_drops].
      * split; [done|done|done|]. right; right. by split; [|left].
      * rewrite Hjs. by apply (advance_one (PYieldToReady q)); [rewrite app_nil_r|].
    + eapply (user_stays x _ q s tk lg [] []);
        [exact Hx|eapply step_yield; [done|done|by right|done|done]|by rewrite app_nil_r|done|constructor|done| | |rank_drops].
      * split; [done|done|done|]. right; right. by split; [|right].
      * rewrite Hjs. by apply (advance_one (PYieldToHold q)); [rewrite app_nil_r|].
    + destruct (step_schedule i ts Hi F np fid ct g s tk lg l0 id σ (Some e) pc fo f x Hx fn thread q Hs)
        as [tk' Hstep].
      destruct Hplain as (Hthread & Hfn & Hq).
      eapply (user_stays x _ q _ tk' lg [mkFT None (Some (FUser fn)) thread] [([], [fn])]);
        [exact Hx|exact Hstep|done|done| |done| | |rank_drops].
      * constructor; [by constructor|constructor].
      * split; [done|done|done|]. by right; left.
      * rewrite Hjs. by apply (advance_one (PSchedule fn thread q)); [rewrite app_nil_r|].
  - (* the second half of a yield *)
    eapply (user_leaves x _ [p]); [exact Hx|by eapply step_swap_out| | |rank_drops].
    + apply back_parked. eexists.
      split; [simpl; rewrite lookup_insert_ne by done; apply lookup_insert_eq|]. by split.
    + rewrite Hjs. apply advance_refl.
Qed.
End user_steps.

(** What the fibers of a thread being distinct comes to. *)
Lemma seat_apart (m e : nat) (o r : list nat) :
  NoDup (m :: e :: o ++ r) ->
  m <> e /\ (m ∉ o) /\ (e ∉ o) /\ NoDup o /\ forall a, a ∈ r -> a <> m /\ a <> e /\ a ∉ o.
Proof.
  intros [Hm [He (Ho & Hor & _)%NoDup_app]%NoDup_cons]%NoDup_cons. clear pin closed root. set_solver.
Qed.

Section idle_steps.
Context (i : nat) (F : gmap nat Fiber) (np : nat) (fid ct g : Z) (l0 : tls).
Context (s : Scheduler) (ts : list thr) (tk : nat) (lg : list (nat * nat)).
Context (qv tv : list (list nat * list prog)).
Context (id : Z) (σ : seat) (e : nat) (fo : option nat) (o : list nat).
Abbreviation heap F l := (mkFworld F np fid ct g l).
Abbreviation m := (seat_fiber σ).
Abbreviation w := (mkWorld (heap F l0) s ts tk lg).
Context (Hw : implements_with w qv tv).
Context (Ht : ts !! i = Some (mkThr id (away σ e) true PcInIdle (Some e) fo)).
Context (Hv : tv !! i = Some (m :: e :: o ++ seat_rest σ, [])).
Context (Ho : slot_ok (heap F l0) fo o).
Context (xm : Fiber) (Hm : F !! m = Some xm) (Hc : m_ctx xm = CtxSaved (seat_flow σ)).
Context (Hcode : seat_code σ xm) (Hleft : seat_left (heap F l0) σ).

Lemma idle_leaves x x' :
  F !! e = Some x -> stk x = Some (CBody MainFunc e FIdle) ->
  thread_step i (at_work i ts (mkThr id (away σ e) true PcInIdle (Some e) fo) (heap F l0) s tk lg) =
    (Ret tt, at_work i ts (mkThr id (home σ) true PcInIdle (Some e) fo)
               (heap (<[m := set_ctx CtxStale xm]> (<[e := x']> F)) (home σ)) s tk lg) ->
  idle_off e x' -> goes i w qv tv.
Proof using All.
  destruct (seat_apart _ _ _ _ (own_NoDup i w qv tv _ _ _ Hw Ht Hv)) as (Hne & Hmo & Heo & _ & Hrest).
  intros Hx Hs Hstep Hoff.
  eapply (goes_by i w qv tv _ _ _ Hw Ht Hv _ _ _ _ _ (m :: e :: o ++ seat_rest σ) [] [] []);
    [exact Hstep|by rewrite app_nil_r|constructor| |done| |done| | |left].
  - apply thread_home.
    + eexists. simpl. rewrite lookup_insert_eq. split; [done|]. by destruct σ.
    + eapply left_frame; [|exact Hleft]. intros a Ha. apply Hrest in Ha as (? & ? & _). simpl.
      by rewrite !lookup_insert_ne.
    + exists x'. simpl. rewrite lookup_insert_ne by done. by rewrite lookup_insert_eq.
    + constructor. eapply slot_frame; [|exact Ho]. intros a Ha. simpl.
      rewrite !lookup_insert_ne; [done|set_solver..].
  - intros a Ha _. simpl. rewrite !lookup_insert_ne; [done|set_solver..].
  - solve_submseteq.
  - apply advance_refl.
  - split; [|done]. rewrite (rank_at_home _ _ _ _ _ _ _ _ _ _ _ _ (set_ctx CtxStale xm));
      [|apply lookup_insert_eq|by destruct σ].
    unfold rank. simpl. rewrite Hx. simpl. rewrite Hs. simpl. lia.
Qed.

Lemma idle_goes x : F !! e = Some x -> idle_on e x -> goes i w qv tv.
Proof using All.
  intros Hx [Hsz Hcx Hst Hat].
  destruct (seat_apart _ _ _ _ (own_NoDup i w qv tv _ _ _ Hw Ht Hv)) as (Hne & Hmo & Heo & _ & Hrest).
  pose proof (lookup_lt_Some _ _ _ Ht) as Hi.
  destruct Hat as [[Hs Hfn] | Hs].
  - eapply (goes_by i w qv tv _ _ _ Hw Ht Hv _ _ _ _ _ (m :: e :: o ++ seat_rest σ) [] [] []);
      [by eapply step_entry|by rewrite app_nil_r|constructor| |done| |done| | |left].
    + apply (thread_away _ id σ e e PcInIdle fo (e :: o) []).
      * exists xm. simpl. by rewrite lookup_insert_ne.
      * eapply left_frame; [|exact Hleft]. intros a Ha. apply Hrest in Ha as (_ & ? & _). simpl.
        by rewrite lookup_insert_ne.
      * constructor; [done| |].
        { eapply slot_frame; [|exact Ho]. intros a Ha. simpl.
          rewrite lookup_insert_ne; [done|set_solver]. }
        eexists. split; [simpl; by rewrite lookup_insert_eq|]. split; [done|done|done|by right].
    + intros a Ha _. simpl. rewrite lookup_insert_ne; [done|set_solver].
    + solve_submseteq.
    + apply advance_refl.
    + split; [|done]. unfold rank. simpl. rewrite lookup_insert_eq, Hx. simpl. rewrite Hs. simpl. lia.
  - destruct (stopping_cond s) eqn:Hstop.
    + eapply idle_leaves; [exact Hx|exact Hs|by eapply step_idle_return|]. split; [done|]. right; right.
      split; [done|]. apply (impl_closed _ _ _ Hw). by apply stopping_cond_flags in Hstop as (_ & ? & _).
    + eapply idle_leaves; [exact Hx|exact Hs|eapply step_idle_yield; [done..|apply (impl_flags _ _ _ Hw)|done|done]|]. split; [done|]. by right; left.
Qed.
End idle_steps.

(** *** Steps on the thread's own stack *)

Lemma parked_runnable f p x : parked f p x -> runnable f x.
Proof. intros []. by left. Qed.

Lemma resumed_parked f p x : parked f p x -> running f p (resumed x).
Proof.
  intros [Hsz Hc Hs Hst Hp]. split; [done|done|done|]. right; left. unfold resumed.
  rewrite Hc. by simpl.
Qed.

Lemma resumed_made f p x sz :
  sized x -> plain p -> m_func x = Some (FUser p) -> m_ctx x = CtxMade MainFunc sz ->
  running f p (resumed x).
Proof.
  intros Hsz Hp Hfn Hc. split; [done|done|done|]. left. unfold resumed. rewrite Hc. by simpl.
Qed.

Lemma idle_off_enter e x :
  idle_off e x -> m_state x <> TERM -> runnable e x /\ idle_on e (resumed x).
Proof.
  intros [Hsz [([sz Hc] & Hfn & Hst) | [(Hc & Hs & Hst) | [Hst _]]]] Hne; [| |done].
  - split; [right; by eexists _, _|]. split; [done|done|done|]. left. unfold resumed. by rewrite Hc.
  - split; [by left|]. split; [done|done|done|]. right. unfold resumed. by rewrite Hc.
Qed.

(** The fibers of queue entries are not running. *)
Lemma entries_sound h q vs :
  Forall2 (entry_ok h) q vs -> Forall (sound_entry (fun f => m_state <$> fibers h !! f)) q.
Proof.
  induction 1 as [|ft v q vs Hft _ IH]; constructor; [|done].
  destruct Hft as [f p thread (x & Hx & _) _|p thread _ _]; unfold sound_entry; simpl.
  - rewrite Hx. by eexists.
  - by eexists.
Qed.

Lemma slot_inv h fo o :
  slot_ok h fo o ->
  (fo = None /\ o = []) \/
  exists f x sz, fo = Some f /\ o = [f] /\ fibers h !! f = Some x /\ m_stack x = StackAt sz /\
    m_state x = INIT.
Proof. intros [|f (x & Hx & [sz Hsz] & Hst)]; [by left|]. right. by exists f, x, sz. Qed.

(** What [run] schedules itself goes to no thread in particular. *)
Context (Hpin : pin (-1)%Z).

Section home_steps.
Context (i : nat) (F : gmap nat Fiber) (np : nat) (fid ct g : Z) (l0 : tls).
Context (s : Scheduler) (ts : list thr) (tk : nat) (lg : list (nat * nat)).
Context (qv tv : list (list nat * list prog)).
Context (id : Z) (σ : seat) (e : nat) (p : pc) (fo : option nat) (o : list nat) (js : list prog).
Abbreviation heap F l := (mkFworld F np fid ct g l).
Abbreviation m := (seat_fiber σ).
Abbreviation w := (mkWorld (heap F l0) s ts tk lg).
Context (Hw : implements_with w qv tv).
Context (Ht : ts !! i = Some (mkThr id (home σ) true p (Some e) fo)).
Context (Hv : tv !! i = Some (m :: e :: o ++ seat_rest σ, js)).
Context (xm : Fiber) (Hm : F !! m = Some xm) (Hcode : seat_code σ xm).
Context (Hleft : seat_left (heap F l0) σ).
Context (xe : Fiber) (He : F !! e = Some xe) (Hidle : idle_off e xe).

Lemma home_own :
  m <> e /\ (m ∉ o) /\ (e ∉ o) /\ NoDup o /\ (m < np)%nat /\ (e < np)%nat.
Proof using All.
  destruct (seat_apart _ _ _ _ (own_NoDup i w qv tv _ _ _ Hw Ht Hv)) as (H1 & H2 & H3 & H4 & _).
  repeat split; [done..| |]; apply (own_old i w qv tv _ _ _ Hw Ht Hv); set_solver.
Qed.

Lemma home_rest a : a ∈ seat_rest σ -> a <> m /\ a <> e /\ (a ∉ o) /\ (a < np)%nat.
Proof using All.
  destruct (seat_apart _ _ _ _ (own_NoDup i w qv tv _ _ _ Hw Ht Hv)) as (_ & _ & _ & _ & H).
  intros Ha. destruct (H a Ha) as (H1 & H2 & H3). repeat split; [done..|].
  apply (own_old i w qv tv _ _ _ Hw Ht Hv). clear -Ha. set_solver.
Qed.

(** The thread stays on its own stack and may touch one of the fibers in [o]. *)
Lemma home_stays F' p' fo' o' js' s' tk' qnew vnew :
  thread_step i (at_work i ts (mkThr id (home σ) true p (Some e) fo) (heap F l0) s tk lg) =
    (Ret tt, at_work i ts (mkThr id (home σ) true p' (Some e) fo') (heap F' (home σ)) s' tk' lg) ->
  m_fibers s' = m_fibers s ++ qnew -> roots s' = roots s ->
  (forall a, a ∉ o -> F' !! a = F !! a) ->
  Forall2 (entry_ok (heap F' (home σ))) qnew vnew ->
  home_ok (heap F' (home σ)) p' fo' o' js' ->
  o' ++ concat (fst <$> vnew) ⊆+ o ->
  js ≡ₚ js' ++ concat (snd <$> vnew) ->
  p' = PcTop -> rank_home p = 4 ->
  goes i w qv tv.
Proof using All.
  destruct home_own as (Hme & Hmo & Heo & Hnd & _).
  intros Hstep Hq Hr Hfr Hnew Hhome Hown Hjs Hp' Hp.
  eapply (goes_by i w qv tv _ _ _ Hw Ht Hv _ _ _ _ _ (m :: e :: o' ++ seat_rest σ) js' qnew vnew);
    [exact Hstep|exact Hq|exact Hnew| |exact Hr| |done| | |left].
  - apply thread_home; [| | |done].
    + exists xm. simpl. by rewrite Hfr.
    + eapply left_frame; [|exact Hleft]. intros a Ha. apply Hfr, home_rest, Ha.
    + exists xe. simpl. by rewrite Hfr.
  - intros a Ha _. simpl. apply Hfr. set_solver.
  - rewrite Nat.sub_diag. simpl. apply submseteq_skip, submseteq_skip.
    trans ((o' ++ concat (fst <$> vnew)) ++ seat_rest σ); [solve_submseteq|].
    by apply submseteq_skips_r.
  - by left.
  - split; [|by rewrite Hp']. cbn [w_heap]. rewrite !(rank_at_home _ _ _ _ _ _ _ _ _ _ _ _ xm) by (done || by rewrite Hfr).
    rewrite Hp, Hp', (work_Permutation _ _ Hjs), work_app. simpl. lia.
Qed.

(** The thread enters fiber [f]. *)
Lemma home_enters F' np' fid' ct' f p' fo' o' js' s' :
  thread_step i (at_work i ts (mkThr id (home σ) true p (Some e) fo) (heap F l0) s tk lg) =
    (Ret tt, at_work i ts (mkThr id (away σ f) true p' (Some e) fo')
               (mkFworld (<[f := resumed F']> (<[m := set_ctx (CtxSaved (seat_flow σ)) xm]> F))
                  np' fid' ct' g (away σ f)) s' tk lg) ->
  m_fibers s' = m_fibers s -> roots s' = roots s ->
  m <> f -> f ∈ e :: o \/ (f = np /\ np' = S np) -> (np <= np')%nat ->
  away_ok (mkFworld (<[f := resumed F']> (<[m := set_ctx (CtxSaved (seat_flow σ)) xm]> F))
             np' fid' ct' g (away σ f)) f e p' fo' o' js' ->
  o' ⊆+ seq np (np' - np) ++ e :: o ->
  js ≡ₚ js' ->
  rank_on p' (stk (resumed F')) < rank_home p ->
  goes i w qv tv.
Proof using All.
  intros Hstep Hq Hr Hmf Hf Hnp Haway Hown Hjs Hrank.
  eapply (goes_by i w qv tv _ _ _ Hw Ht Hv _ _ _ _ _ (m :: o' ++ seat_rest σ) js' [] []);
    [exact Hstep|by rewrite app_nil_r|constructor| |exact Hr| |done| | |left].
  - apply thread_away; [| |done].
    + eexists. simpl. rewrite lookup_insert_ne by done. rewrite lookup_insert_eq.
      split; [done|]. split; [done|]. by destruct σ.
    + eapply left_frame; [|exact Hleft]. intros a Ha. apply home_rest in Ha as (Ham & Hae & Hao & Hlt).
      simpl in *. rewrite !lookup_insert_ne; [done|done|].
      intros ->. destruct Hf as [Hf | [-> _]]; [set_solver|lia].
  - intros a Ha Hlt. simpl. simpl in Hlt. rewrite !lookup_insert_ne; [done|set_solver|].
    destruct Hf as [Hf | [-> _]]; [set_solver|lia].
  - simpl. rewrite app_nil_r. etrans; [apply submseteq_skip, submseteq_skips_r, Hown|]. solve_submseteq.
  - left. simpl. by rewrite app_nil_r.
  - split; [|by destruct Haway]. cbn [w_heap]. rewrite (rank_at_home _ _ _ _ _ _ _ _ _ _ _ _ xm) by done.
    unfold rank. simpl. rewrite lookup_insert_eq.
    rewrite (work_Permutation _ _ Hjs). change (work []) with 0. simpl in *. lia.
Qed.

(** The head of the loop. *)
Lemma take_goes : p = PcTop -> slot_ok (heap F l0) fo o -> js = [] -> goes i w qv tv.
Proof using All.
  destruct home_own as (Hme & Hmo & Heo & Hnd & _).
  intros -> Hslot ->. pose proof (lookup_lt_Some _ _ _ Ht) as Hi.
  pose proof (impl_queue _ _ _ Hw) as Hq. simpl in Hq.
  destruct (scan_queue_spec id (fun f => m_state <$> F !! f) [] (m_fibers s) false
    (entries_sound _ _ _ Hq)) as [[Hnone Hscan] | (a & ft & b & Hab & _ & _ & Hscan)].
  - pose proof (step_take i ts Hi F np fid ct g s tk lg l0 id σ e fo xm Hm Hcode _ _ _ Hscan) as Hstep.
    simpl in Hstep.
    eapply (goes_by i w qv tv _ _ _ Hw Ht Hv _ _ _ _ _ (m :: e :: o ++ seat_rest σ) [] [] []);
      [exact Hstep|by rewrite app_nil_r|constructor| |done|done|done| | |].
    + apply thread_home; [by exists xm|eapply left_frame; [|exact Hleft]; done|by exists xe|].
      constructor. eapply slot_frame; [|exact Hslot]. done.
    + solve_submseteq.
    + apply advance_refl.
    + right. by repeat split.
  - pose proof (step_take i ts Hi F np fid ct g s tk lg l0 id σ e fo xm Hm Hcode _ _ _ Hscan) as Hstep.
    simpl in Hstep. rewrite Hab in Hq.
    apply Forall2_app_inv_l in Hq as (va & vb' & Hqa & Hqb & ->).
    apply Forall2_cons_inv_l in Hqb as (v & vb & Hft & Hqb & ->).
    edestruct (finish_step i w (va ++ v :: vb) tv _ _ _ Hw Ht Hv) with
      (own' := m :: e :: (o ++ fst v) ++ seat_rest σ) (js' := snd v) (qv' := va ++ vb)
      (t' := mkThr id (home σ) true (PcDispatch ft true) (Some e) fo)
      (h' := heap F (seat_loc σ l0)) (s' := set_active (u64 (m_activeThreadCount s + 1)) (set_queue (a ++ b) s))
      (tk' := if false || existsb (pinned_elsewhere id) a || match b with [] => false | _ => true end then S tk else tk) (lg' := lg) as (tv' & Hw' & Hadv & Hwork & _);
      [eapply (queue_keeps i w _ tv _ _ _ Hw Ht Hv); [done| |by apply Forall2_app]| |done|done|done| | |].
    + intros f. rewrite !fmap_app, fmap_cons, !concat_app. simpl. clear. set_solver.
    + apply thread_home; [by exists xm|eapply left_frame; [|exact Hleft]; done|by exists xe|].
      constructor; [eapply slot_frame; [|exact Hslot]; done|eapply entry_frame; [|exact Hft]; done].
    + simpl. rewrite Nat.sub_diag, !fmap_app, fmap_cons, !concat_app. simpl. solve_submseteq.
    + left. simpl. split; [|done]. rewrite !fmap_app, fmap_cons, !concat_app. simpl. solve_Permutation.
    + do 3 eexists. split; [etrans; [exact (f_equal (thread_step i) (world_at_work i w _ Ht))|exact Hstep]|].
      split; [exact Hw'|]. split; [exact Hadv|]. split; [|done].
      intros t1 Ht1. simpl in *. rewrite Ht in Ht1. injection Ht1 as <-. eexists.
      split; [by apply list_lookup_insert_eq|]. left. split; [|done].
      rewrite !(rank_at_home _ _ _ _ _ _ _ _ _ _ _ _ xm) by done. unfold jobs_of. cbn [rank_home].
      rewrite !fmap_app, !fmap_cons, !concat_app in *. simpl in *. rewrite !work_app in *. lia.
Qed.

(** The dispatch on what was taken. *)
Lemma dispatch_goes ft so v :
  p = PcDispatch ft true -> o = so ++ fst v -> js = snd v ->
  slot_ok (heap F l0) fo so -> entry_ok (heap F l0) ft v -> goes i w qv tv.
Proof using All.
  intros Hp Ho Hjs Hslot Hft. pose proof (lookup_lt_Some _ _ _ Ht) as Hi.
  destruct home_own as (Hme & Hmo & Heo & Hnd & Hmnp & Henp).
  destruct Hft as [f q thread (x & Hx & Hpark) _ | q thread Hplain _]; simpl in Ho, Hjs.
  - (* a fiber *)
    assert (m <> f /\ e <> f /\ f ∉ so) as (Hmf & Hef & Hfs).
    { rewrite Ho in Hnd. apply NoDup_app in Hnd as (_ & Hnd & _). set_solver. }
    simpl in Hx. pose proof (parked_runnable _ _ _ Hpark) as Hrun.
    eapply (home_enters x np fid ct f (PcInFiber f) fo (e :: so ++ [f]) [q] s);
      [rewrite Hp; eapply (step_enter_fiber i ts Hi); try done; by destruct Hpark as [_ _ _ [-> | ->] _]
      |done|done|done|left; set_solver|done| |by rewrite Ho; solve_submseteq|by rewrite Hjs|].
    { constructor.
      + exists xe. simpl. by rewrite !lookup_insert_ne.
      + eapply slot_frame; [|exact Hslot]. intros a Ha. simpl.
        rewrite !lookup_insert_ne; [done|set_solver..].
      + eexists. split; [apply lookup_insert_eq|]. by apply resumed_parked. }
    destruct Hpark as [_ Hc Hs _ Hplain]. unfold resumed. rewrite Hc, Hs, Hp. cbn [stk set_stk].
    rewrite rank_on_plain by done. simpl. lia.
  - (* a function *)
    rewrite app_nil_r in Ho.
    destruct (slot_inv _ _ _ Hslot) as [[Hfo Hso] | (f & x & sz & Hfo & Hso & Hx & Hsz & Hst)];
      rewrite Hso in Ho.
    + destruct (step_new_func i ts Hi F np fid ct g s tk lg l0 id σ e xm Hm Hcode (FUser q) thread)
        as (x & id' & ct' & Hstep & Hsx & Hfn & sz & Hc); [lia|].
      eapply (home_enters x (S np) id' ct' np PcInFunc (Some np) [e; np] [q] s);
        [|done|done|lia|by right|lia| | |by rewrite Hjs|].
      * rewrite Hp, Hfo, Hstep. rewrite (insert_insert_ne _ m np) by lia. by rewrite insert_insert_eq.
      * constructor.
        { exists xe. simpl. rewrite !lookup_insert_ne; [done|done|lia]. }
        eexists. split; [apply lookup_insert_eq|]. by eapply resumed_made.
      * rewrite Ho, Nat.sub_succ_l, Nat.sub_diag by lia. simpl. solve_submseteq.
      * unfold resumed. rewrite Hc, Hp. simpl. lia.
    + assert (m <> f /\ e <> f) as [Hmf Hef] by (rewrite Ho in Hmo, Heo; set_solver).
      destruct (step_reuse_func i ts Hi F np fid ct g s tk lg l0 id σ e xm Hm Hcode f (FUser q) thread x sz)
        as (y & Hstep & Hsy & Hfn & sz' & Hc); [done..|].
      eapply (home_enters y np fid ct f PcInFunc (Some f) [e; f] [q] s);
        [|done|done|done|left; rewrite Ho; set_solver|done| | |by rewrite Hjs|].
      * rewrite Hp, Hfo, Hstep. rewrite (insert_insert_ne _ m f) by done. by rewrite insert_insert_eq.
      * constructor.
        { exists xe. simpl. by rewrite !lookup_insert_ne. }
        eexists. split; [apply lookup_insert_eq|]. by eapply resumed_made.
      * rewrite Ho. solve_submseteq.
      * unfold resumed. rewrite Hc, Hp. simpl. lia.
Qed.

(** No task: the idle fiber, or the end of [run]. *)
Lemma no_task_goes :
  p = PcDispatch ft_empty false -> slot_ok (heap F l0) fo o -> js = [] -> goes i w qv tv.
Proof using All.
  intros Hp Hslot Hjs. pose proof (lookup_lt_Some _ _ _ Ht) as Hi.
  destruct home_own as (Hme & Hmo & Heo & Hnd & Hmnp & Henp).
  destruct (decide (m_state xe = TERM)) as [Hst|Hst].
  - destruct (step_finish i ts Hi F np fid ct g s tk lg l0 id σ e fo xm Hm Hcode xe)
      as (F' & l' & Hstep & [k Hk] & Hfr); [by intros a (? & _)%home_rest|exact Hleft|exact He|exact Hst|].
    eapply (goes_by i w qv tv _ _ _ Hw Ht Hv _ _ _ _ _ [] [] [] []);
      [rewrite Hp; exact Hstep|by rewrite app_nil_r|constructor| |done| |done| | |left].
    + eapply thread_out; [exact Hk|right]. split; [done|].
      destruct Hidle as [_ [(_ & _ & [H|H]) | [(_ & _ & H) | [_ H]]]]; [by rewrite Hst in H..|exact H].
    + intros a Ha _. simpl. apply Hfr; set_solver.
    + solve_submseteq.
    + rewrite Hjs. apply advance_refl.
    + rewrite Hp, Hjs. split; [|done]. cbn [w_heap].
      rewrite (rank_at_home _ _ _ _ _ _ _ _ _ _ _ _ xm) by done. unfold rank. simpl. rewrite Hk. simpl. lia.
  - destruct (idle_off_enter e xe Hidle Hst) as [Hrun Hon].
    eapply (home_enters xe np fid ct e PcInIdle fo (e :: o) []);
      [rewrite Hp; by apply (step_enter_idle i ts Hi)|done|done|done|left; left|done| |by rewrite Nat.sub_diag|by rewrite Hjs|].
    { constructor; [done| |].
      + eapply slot_frame; [|exact Hslot]. intros a Ha. simpl.
        rewrite !lookup_insert_ne; [done|set_solver..].
      + eexists. split; [apply lookup_insert_eq|done]. }
    rewrite Hp. destruct Hon as [_ _ _ [[-> _] | ->]]; simpl; lia.
Qed.

(** Back from a switch: the decrement, then the fiber is scheduled or dropped. *)
Lemma decrement_goes p' :
  (exists f, p = PcInFiber f /\ p' = PcAfterFiber f) \/ (p = PcInFunc /\ p' = PcAfterFunc) ->
  home_ok (heap F l0) p' fo o js -> goes i w qv tv.
Proof using All.
  intros Hp Hhome. pose proof (lookup_lt_Some _ _ _ Ht) as Hi.
  destruct (step_decrement i ts Hi F np fid ct g s tk lg l0 id σ e fo xm Hm Hcode p p' Hp)
    as (s' & Hstep & Hq & Hr).
  eapply (goes_by i w qv tv _ _ _ Hw Ht Hv _ (heap F (seat_loc σ l0)) _ _ _ (m :: e :: o ++ seat_rest σ) js [] []);
    [exact Hstep|by rewrite app_nil_r|constructor| |done|done|done| | |left].
  - apply thread_home; [by exists xm|eapply left_frame; [|exact Hleft]; done|by exists xe|].
    eapply home_frame; [|exact Hhome]. done.
  - solve_submseteq.
  - rewrite app_nil_r. apply advance_refl.
  - change (work (concat _)) with 0.
    destruct Hp as [(f & -> & ->) | [-> ->]]; (split; [cbn [w_heap]; rewrite !(rank_at_home _ _ _ _ _ _ _ _ _ _ _ _ xm) by done; cbn [rank_home]|done]); lia.
Qed.

Lemma after_fiber_goes f so :
  p = PcAfterFiber f -> o = so ++ [f] -> slot_ok (heap F l0) fo so -> back_ok (heap F l0) f js ->
  goes i w qv tv.
Proof using All.
  intros Hp Ho Hslot Hback. pose proof (lookup_lt_Some _ _ _ Ht) as Hi.
  assert (exists x, F !! f = Some x /\
    ((exists q, js = [q] /\ parked f q x) \/ (js = [] /\ over x))) as (x & Hx & Hcase).
  { clear -Hback. destruct Hback as [q (x & Hx & H)|(x & Hx & H)]; exists x; eauto. }
  destruct Hcase as [(q & Hjs & Hpark) | [Hjs Hover]].
  - destruct (step_after_parked i ts Hi F np fid ct g s tk lg l0 id σ e fo xm Hm Hcode f x Hx)
      as [tk' Hstep]; [apply Hpark|].
    eapply (home_stays F PcTop fo so [] _ tk' [mkFT (Some f) None (-1)] [([f], [q])]);
      [rewrite Hp; exact Hstep|done|done|done| | |by rewrite Ho|by rewrite Hjs|done|by rewrite Hp].
    + constructor; [|constructor]. constructor; [|done]. by exists x.
    + constructor. eapply slot_frame; [|exact Hslot]. done.
  - eapply (home_stays F PcTop fo so [] s tk [] []);
      [rewrite Hp; eapply (step_after_over i ts Hi); [exact Hm|exact Hcode|exact Hx|apply Hover]
      |by rewrite app_nil_r|done|done|constructor| |rewrite Ho; solve_submseteq|by rewrite Hjs|done|by rewrite Hp].
    constructor. eapply slot_frame; [|exact Hslot]. done.
Qed.

Lemma after_func_goes f :
  p = PcAfterFunc -> fo = Some f -> o = [f] -> back_ok (heap F l0) f js -> goes i w qv tv.
Proof using All.
  intros Hp Hfo Ho Hback. pose proof (lookup_lt_Some _ _ _ Ht) as Hi.
  assert (exists x, F !! f = Some x /\
    ((exists q, js = [q] /\ parked f q x) \/ (js = [] /\ over x))) as (x & Hx & Hcase).
  { clear -Hback. destruct Hback as [q (x & Hx & H)|(x & Hx & H)]; exists x; eauto. }
  destruct Hcase as [(q & Hjs & Hpark) | [Hjs [[sz Hsz] Hst]]].
  - destruct (step_after_func_parked i ts Hi F np fid ct g s tk lg l0 id σ e xm Hm Hcode f x Hx)
      as [tk' Hstep]; [apply Hpark|].
    eapply (home_stays F PcTop None [] [] _ tk' [mkFT (Some f) None (-1)] [([f], [q])]);
      [rewrite Hp, Hfo; exact Hstep|by rewrite Hfo|done|done| | |by rewrite Ho|by rewrite Hjs|done|by rewrite Hp].
    + constructor; [|constructor]. constructor; [|done]. by exists x.
    + constructor. constructor.
  - destruct (step_after_func_over i ts Hi F np fid ct g s tk lg l0 id σ e xm Hm Hcode f x sz Hx Hsz Hst)
      as (y & Hstep & Hy & Hsy).
    eapply (home_stays (<[f := y]> F) PcTop (Some f) [f] [] s tk [] []);
      [rewrite Hp, Hfo; exact Hstep|by rewrite app_nil_r|done| |constructor| |by rewrite Ho
      |by rewrite Hjs|done|by rewrite Hp].
    + intros a Ha. rewrite lookup_insert_ne; [done|]. rewrite Ho in Ha. set_solver.
    + constructor. constructor. exists y. split; [apply lookup_insert_eq|done].
Qed.

Lemma after_idle_goes :
  p = PcInIdle -> slot_ok (heap F l0) fo o -> js = [] -> goes i w qv tv.
Proof using All.
  destruct home_own as (Hme & Hmo & Heo & Hnd & Hmnp & Henp).
  intros Hp Hslot Hjs. pose proof (lookup_lt_Some _ _ _ Ht) as Hi.
  assert (m_state xe <> EXCEPT) as Hne by (destruct Hidle as [_ [(_ & _ & [-> | ->]) | [(_ & _ & ->) | [-> _]]]]; done).
  pose proof (step_after_idle i ts Hi F np fid ct g s tk lg l0 id σ e fo xm Hm Hcode xe He Hne) as Hstep.
  set (F' := if decide (m_state xe = TERM) then F else <[e := set_state HOLD xe]> F) in *.
  assert (forall a, a <> e -> F' !! a = F !! a) as Hfr.
  { intros a Ha. subst F'. case_decide; [done|]. by rewrite lookup_insert_ne. }
  eapply (goes_by i w qv tv _ _ _ Hw Ht Hv _ _ _ _ _ (m :: e :: o ++ seat_rest σ) [] [] []);
    [rewrite Hp; exact Hstep|by rewrite app_nil_r|constructor| |done| |done| | |left].
  - apply thread_home.
    + exists xm. simpl. by rewrite Hfr.
    + eapply left_frame; [|exact Hleft]. intros a Ha. apply Hfr. by apply home_rest in Ha as (_ & ? & _).
    + subst F'. case_decide as Hst; [by exists xe|].
      eexists. split; [apply lookup_insert_eq|].
      destruct Hidle as [Hsz [(Hc & Hfn & _) | [(Hc & Hs & _) | [Hte _]]]]; [| |done].
      * split; [done|]. left. by split; [|split; [|right]].
      * split; [done|]. by right; left.
    + constructor. eapply slot_frame; [|exact Hslot]. intros a Ha. simpl. apply Hfr. set_solver.
  - intros a Ha _. simpl. apply Hfr. set_solver.
  - solve_submseteq.
  - rewrite Hjs. apply advance_refl.
  - rewrite Hp, Hjs. split; [|done]. cbn [w_heap].
    rewrite !(rank_at_home _ _ _ _ _ _ _ _ _ _ _ _ xm) by (done || by rewrite Hfr). cbn. lia.
Qed.
End home_steps.

(** A new thread. *)
Lemma start_goes i F np fid ct g l0 s ts tk lg qv tv id k b e fo :
  implements_with (mkWorld (mkFworld F np fid ct g l0) s ts tk lg) qv tv ->
  ts !! i = Some (mkThr id (empty_tls k) b PcStart e fo) -> tv !! i = Some ([], []) ->
  fst root <> id ->
  goes i (mkWorld (mkFworld F np fid ct g l0) s ts tk lg) qv tv.
Proof.
  intros Hw Ht Hv Hroot. pose proof (lookup_lt_Some _ _ _ Ht) as Hi.
  destruct (step_start i ts Hi F np fid ct g s tk lg l0 id k b e fo)
    as (x & y & id' & ct' & Hstep & Hsy & Hst & Hfn & Hc).
  { intros H. apply Hroot. rewrite <- H, <- (impl_root _ _ _ Hw). done. }
  eapply (goes_by i _ qv tv _ _ _ Hw Ht Hv _ _ _ _ _ [np; S np] [] [] []);
    [exact Hstep|by rewrite app_nil_r|constructor| |done| |simpl; lia| | |left].
  - apply (thread_home _ id (Pool k np) (S np) PcTop None [] []).
    + exists x. simpl. rewrite lookup_insert_ne by lia. by rewrite lookup_insert_eq.
    + done.
    + exists y. split; [apply lookup_insert_eq|]. split; [done|]. left. by split; [|split; [|left]].
    + constructor. constructor.
  - intros a _ Ha. simpl in *. rewrite !lookup_insert_ne; [done|lia..].
  - simpl. replace (S (S np) - np) with 2 by lia. done.
  - apply advance_refl.
  - split; [cbn; lia|done].
Qed.

(** The creator, on its root fiber. *)
Lemma entering_goes i F np fid ct g l0 s ts tk lg qv tv id k m r e fo :
  implements_with (mkWorld (mkFworld F np fid ct g l0) s ts tk lg) qv tv ->
  ts !! i = Some (mkThr id (home (Caller k m r)) true PcStart e fo) ->
  tv !! i = Some ([r; m], []) -> fst root = id ->
  holds (mkFworld F np fid ct g l0) r (root_entered r) ->
  seat_left (mkFworld F np fid ct g l0) (Caller k m r) ->
  goes i (mkWorld (mkFworld F np fid ct g l0) s ts tk lg) qv tv.
Proof using Hpin.
  intros Hw Ht Hv Hroot (x & Hx & Hent) Hleft. pose proof (lookup_lt_Some _ _ _ Ht) as Hi.
  pose proof (own_NoDup i _ qv tv _ _ _ Hw Ht Hv) as Hnd.
  assert (r <> m) as Hrm by (apply NoDup_cons in Hnd as [H _]; set_solver).
  assert (r < np /\ m < np) as [Hrnp Hmnp]
    by (split; apply (own_old i _ qv tv _ _ _ Hw Ht Hv); set_solver).
  simpl in Hx. destruct Hent as [[Hs Hfn] | Hs].
  - eapply (goes_by i _ qv tv _ _ _ Hw Ht Hv _ _ _ _ _ [r; m] [] [] []);
      [eapply (step_entry i ts Hi F np fid ct g s tk lg l0 id (Caller k m r) e PcStart fo r x Hx); done
      |by rewrite app_nil_r|constructor| |done| |done| | |left].
    + apply thread_entering; [done| |].
      * eexists. simpl. rewrite lookup_insert_eq. split; [done|by right].
      * eapply left_frame; [|exact Hleft]. intros a ->%list_elem_of_singleton. simpl.
        by rewrite lookup_insert_ne.
    + intros a Ha _. simpl. rewrite lookup_insert_ne; [done|set_solver].
    + solve_submseteq.
    + apply advance_refl.
    + split; [|done]. unfold rank. simpl. rewrite lookup_insert_eq, Hx. simpl. rewrite Hs. simpl. lia.
  - destruct (step_start_root i ts Hi F np fid ct g s tk lg l0 id (Caller k m r) fo x Hx Hs e)
      as (y & id' & ct' & Hstep & Hsy & Hst & Hfn & Hc);
      [by rewrite <- Hroot, <- (impl_root _ _ _ Hw)|].
    eapply (goes_by i _ qv tv _ _ _ Hw Ht Hv _ _ _ _ _ [r; np; m] [] [] []);
      [exact Hstep|by rewrite app_nil_r|constructor| |done| |simpl; lia| | |left].
    + apply (thread_home _ id (Caller k m r) np PcTop None [] []).
      * exists x. simpl. by rewrite lookup_insert_ne by lia.
      * eapply left_frame; [|exact Hleft]. intros a ->%list_elem_of_singleton. simpl.
        by rewrite lookup_insert_ne by lia.
      * exists y. split; [apply lookup_insert_eq|]. split; [done|]. left. by split; [|split; [|left]].
      * constructor. constructor.
    + intros a _ Ha. simpl in *. rewrite lookup_insert_ne; [done|lia].
    + simpl. replace (S np - np) with 1 by lia. simpl. solve_submseteq.
    + apply advance_refl.
    + split; [|done]. cbn [w_heap].
      rewrite (rank_at_home _ _ _ _ _ _ _ _ _ _ _ _ x) by (done || by apply lookup_insert_ne || by rewrite lookup_insert_ne by (simpl; lia)).
      rewrite (rank_at_home _ _ _ _ _ _ _ _ _ _ _ _ x) by done. cbn. lia.
Qed.

Lemma home_goes i F np fid ct g l0 s ts tk lg qv tv id σ e p fo o js :
  implements_with (mkWorld (mkFworld F np fid ct g l0) s ts tk lg) qv tv ->
  ts !! i = Some (mkThr id (home σ) true p (Some e) fo) -> tv !! i = Some (seat_fiber σ :: e :: o ++ seat_rest σ, js) ->
  holds (mkFworld F np fid ct g l0) (seat_fiber σ) (seat_code σ) ->
  seat_left (mkFworld F np fid ct g l0) σ ->
  holds (mkFworld F np fid ct g l0) e (idle_off e) ->
  home_ok (mkFworld F np fid ct g l0) p fo o js ->
  goes i (mkWorld (mkFworld F np fid ct g l0) s ts tk lg) qv tv.
Proof using Hpin.
  intros Hw Ht Hv (xm & Hm & Hcode) Hleft (xe & He & Hidle) Hhome.
  destruct Hhome as [fo o Hs | ft fo o v Hs Hft | fo o Hs | f fo o js Hs Hb | f fo o js Hs Hb
                    | f js Hb | f js Hb | fo o Hs].
  - by eapply take_goes.
  - by eapply dispatch_goes.
  - by eapply no_task_goes.
  - eapply decrement_goes; [done..|left; by exists f|]. by constructor.
  - by eapply after_fiber_goes.
  - eapply decrement_goes; [done..|by right|]. by constructor.
  - by eapply after_func_goes.
  - by eapply after_idle_goes.
Qed.

Lemma away_goes i F np fid ct g l0 s ts tk lg qv tv id σ f e p fo o js :
  implements_with (mkWorld (mkFworld F np fid ct g l0) s ts tk lg) qv tv ->
  ts !! i = Some (mkThr id (away σ f) true p (Some e) fo) -> tv !! i = Some (seat_fiber σ :: o ++ seat_rest σ, js) ->
  holds (mkFworld F np fid ct g l0) (seat_fiber σ)
    (fun x => m_ctx x = CtxSaved (seat_flow σ) /\ seat_code σ x) ->
  seat_left (mkFworld F np fid ct g l0) σ ->
  away_ok (mkFworld F np fid ct g l0) f e p fo o js ->
  goes i (mkWorld (mkFworld F np fid ct g l0) s ts tk lg) qv tv.
Proof.
  intros Hw Ht Hv (xm & Hm & Hc & Hcode) Hleft Ha.
  assert (p <> PcInIdle \/ p = PcInIdle) as [Hp|Hp] by (destruct p; auto).
  - destruct (away_user_fiber _ _ _ _ _ _ _ Ha Hp) as (q & Hjs & x & Hx & Hrun).
    by eapply user_goes.
  - destruct Ha as [| |fo o -> Hs (x & Hx & Hon)]; [done|done|]. by eapply idle_goes.
Qed.

(** Every thread that has something to do can do it. *)
Lemma enabled_goes i w qv tv :
  implements_with w qv tv -> enabled i w = true -> goes i w qv tv.
Proof using Hpin.
  intros Hw He. destruct (w_threads w !! i) as [t|] eqn:Ht;
    [|unfold enabled in He; by rewrite Ht in He].
  destruct (Forall2_lookup_l _ _ _ _ _ (impl_threads _ _ _ Hw) Ht) as ([own js] & Hv & Hok).
  destruct w as [[F np fid ct g l0] s ts tk lg]. simpl in *.
  inversion Hok as [id l k b p e fo Hcur Hp | id k m r e fo | id k m r e fo | id k b e fo
                   | id σ e p fo o js' Hm Hl Hidle Hhome | id σ f e p fo o js' Hm Hl Haway]; subst.
  - unfold enabled in He. simpl in He. rewrite Ht in He. simpl in He. rewrite Hcur in He.
    by destruct Hp as [[-> _] | [-> _]].
  - unfold enabled in He. simpl in He. by rewrite Ht in He.
  - by eapply entering_goes.
  - by eapply start_goes.
  - by eapply home_goes.
  - by eapply away_goes.
Qed.

Lemma implements_step w js i :
  implements w js -> enabled i w = true ->
  exists w' js', thread_step i w = (Ret tt, w') /\ implements w' js' /\
    advance (seen w js) (seen w' js').
Proof using Hpin.
  intros (qv & tv & Hw & Hjs) He.
  destruct (enabled_goes i w qv tv Hw He) as (w' & qv' & tv' & Hstep & Hw' & Hadv & _).
  exists w', (jobs_of qv' tv'). split; [done|]. split; [by exists qv', tv'|].
  eapply (advance_frame []); [exact Hadv| |]; by rewrite app_nil_r.
Qed.

(** *** The public operations *)

Lemma implements_schedule w js p thread w' :
  implements w js -> plain p -> pin thread -> schedule_func (Some (FUser p)) thread w = (Ret tt, w') ->
  implements w' (p :: js) /\ w_log w' = w_log w.
Proof.
  intros (qv & tv & [Hq Ht Hnd Hlt Hr Hcl Hfl] & Hjs) Hp Hthread H.
  unfold schedule_func, schedule, scheduleNonLock, tickle_if, tickle in H. unfold_M. simpl in H.
  assert (w_heap w' = w_heap w /\ w_threads w' = w_threads w /\ w_log w' = w_log w /\
    w_sched w' = set_queue (m_fibers (w_sched w) ++ [mkFT None (Some (FUser p)) thread]) (w_sched w))
    as (Hh & Hth & Hlg & Hs).
  { destruct (m_fibers (w_sched w)); by injection H as <-. }
  split; [|done]. exists (qv ++ [([], [p])]), tv. split.
  - constructor; rewrite ?Hh, ?Hth, ?Hs; simpl; try done.
    + apply Forall2_app; [done|]. constructor; [by constructor|constructor].
    + rewrite fmap_app, concat_app. simpl. by rewrite app_nil_r.
    + rewrite fmap_app, concat_app. simpl. by rewrite app_nil_r.
  - rewrite fmap_app, concat_app, Hjs. simpl. solve_Permutation.
Qed.

(** The creator's part, or nobody's. *)
Definition root_of (tid : Z) (use_caller : bool) : Z * option nat :=
  if use_caller then (tid, Some 1) else ((-1)%Z, None).

(** A change of what the invariant does not look at. *)
Lemma implements_same w w' js :
  fibers (w_heap w') = fibers (w_heap w) -> next_ptr (w_heap w') = next_ptr (w_heap w) ->
  w_threads w' = w_threads w -> m_fibers (w_sched w') = m_fibers (w_sched w) ->
  fst (roots (w_sched w')) = fst (roots (w_sched w)) ->
  (m_stopping (w_sched w') = Some true -> closed = true) -> flags_set (w_sched w') ->
  implements w js -> implements w' js.
Proof using Type.
  intros H1 H2 H3 H4 H5 H6 H7 (qv & tv & [Hq Ht Hnd Hlt Hr _ _] & Hjs). exists qv, tv. split; [|exact Hjs].
  constructor; [| |exact Hnd|by rewrite H2|by rewrite H5|exact H6|exact H7].
  - rewrite H4. eapply Forall2_impl; [exact Hq|]. intros ft v. apply entry_frame. by rewrite H1.
  - rewrite H3. eapply Forall2_impl; [exact Ht|]. intros t v. apply thread_frame. by rewrite H1.
Qed.

Lemma implements_flags i t w js b w' :
  closed = true -> implements w js -> w_threads w !! i = Some t -> stop_flags i w = (Ret b, w') ->
  implements w' js /\ w_log w' = w_log w.
Proof using Type.
  intros Hclosed Hw Ht H. destruct (stop_flags_cases i w t b w' Ht H) as (l & tk & -> & _).
  split; [|done]. apply (implements_same w); try done.
Qed.

Lemma implements_call tid c i t w js w' :
  root = root_of tid c -> implements w js ->
  w_threads w !! i = Some t -> th_pc t = PcOutside -> stop_call i w = (Ret tt, w') ->
  implements w' js /\ w_log w' = w_log w.
Proof using Type.
  intros Hroot Hw Ht Hpc H.
  destruct (stop_call_cases i w t w' Ht H) as [[-> _] | (r & h' & Hr & Hcall & ->)]; [done|].
  split; [|done]. destruct Hw as (qv & tv & Hw & Hjs).
  pose proof (impl_root _ _ _ Hw) as Hrt. unfold roots in Hrt. simpl in Hrt. rewrite Hr, Hroot in Hrt.
  destruct c; [|done]. injection Hrt as Hid ->.
  destruct (Forall2_lookup_l _ _ _ _ _ (impl_threads _ _ _ Hw) Ht) as ([own js1] & Hv & Hok).
  inversion Hok as [id l0 k b0 p e fo Hcur Hp | id k m r e fo Hrt Hm Hmade | id k m r e fo | id k b0 e fo
    | id σ e p fo o js' _ _ _ Hh | id σ f e p fo o js' _ _ Ha]; subst; try done; simpl in Hpc.
  - destruct Hp as [(_ & _ & Hn) | [-> _]]; [by rewrite Hroot in Hn|done].
  - simpl in *. rewrite Hroot in Hrt. injection Hrt as <- <-.
    destruct w as [[F np fid ct g l0] s ts tk0 lg]. simpl in *.
    destruct Hm as (xm & Hxm & _), Hmade as (xr & Hxr & [[sz Hctx] Hfn Hst]). simpl in Hxm, Hxr.
    pose proof (own_NoDup i _ qv tv _ _ _ Hw Ht Hv) as [Hne _]%NoDup_cons.
    assert (m <> 1) as Hm1 by (intros ->; apply Hne; left).
    rewrite (call_spec _ m 1 xm xr) in Hcall by (done || (right; by exists CallerMainFunc, sz)).
    injection Hcall as <-.
    assert (forall f, f ∉ [1; m] -> f < np ->
      fibers (entered m 1 xm xr (set_loc (mkTls (Some m) (Some m) (Some 1) (Native k))
        (mkFworld F np fid ct g l0))) !! f = F !! f) as Hfr.
    { intros f [H1 [Hfm _]%not_elem_of_cons]%not_elem_of_cons _. simpl. by rewrite !lookup_insert_ne. }
    edestruct (finish_step i _ qv tv _ _ _ Hw Ht Hv) with (own' := [1; m]) (js' := @nil prog) (qv' := qv)
      (s' := s) (tk' := tk0) (lg' := lg) as (tv' & Hw' & _ & _ & ->).
    8: { do 2 eexists. split; [exact Hw'|]. rewrite list_fmap_insert, list_insert_id; [done|].
      by rewrite list_lookup_fmap, Hv. }
    + eapply (queue_keeps i _ qv tv _ _ _ Hw Ht Hv); [exact Hfr|done|apply Hw].
    + apply (thread_entering _ (m_rootThread s) k m 1 e fo); [by rewrite Hroot| |].
      * eexists. simpl. rewrite lookup_insert_eq. split; [done|]. left. unfold resumed.
        by rewrite Hctx.
      * eexists. simpl. rewrite lookup_insert_ne by done. by rewrite lookup_insert_eq.
    + done.
    + exact Hfr.
    + done.
    + rewrite Nat.sub_diag. done.
    + apply advance_refl.
  - by destruct Hh.
  - by destruct Ha.
Qed.

(** A thread outside [run] can stop the pool at any time. *)
Lemma stop_returns tid c i t w js :
  root = root_of tid c -> (0 <= tid)%Z -> implements w js ->
  w_threads w !! i = Some t -> th_pc t = PcOutside ->
  (exists b w', stop_flags i w = (Ret b, w')) /\ exists w', stop_call i w = (Ret tt, w').
Proof using Type.
  intros Hroot Htid (qv & tv & Hw & _) Ht Hpc.
  pose proof (impl_root _ _ _ Hw) as Hrt. unfold roots in Hrt. simpl in Hrt. rewrite Hroot in Hrt.
  pose proof (impl_flags _ _ _ Hw) as Hset.
  destruct (Forall2_lookup_l _ _ _ _ _ (impl_threads _ _ _ Hw) Ht) as ([own js1] & Hv & Hok).
  inversion Hok as [id l0 k b0 p e fo Hcur Hp | id k m r e fo Hrt' Hm Hmade | id k m r e fo | id k b0 e fo
    | id σ e p fo o js' _ _ _ Hh | id σ f e p fo o js' _ _ Ha]; subst; try done; simpl in Hpc.
  - destruct Hp as [(_ & -> & Hn) | [-> _]]; [|done]. rewrite Hroot in Hn. destruct c; [done|].
    injection Hrt as H1 H2. split; [apply (stop_flags_returns i w _ Ht)|apply (stop_call_returns i w _ Ht)];
      simpl; rewrite ?H1, ?H2; done.
  - rewrite Hroot in Hrt'. destruct c; [|done]. injection Hrt' as <- <-. injection Hrt as H1 H2.
    destruct Hm as (xm & Hxm & _), Hmade as (xr & Hxr & [[sz Hctx] _ _]).
    pose proof (own_NoDup i _ qv tv _ _ _ Hw Ht Hv) as [Hne _]%NoDup_cons.
    assert (m <> 1) as Hm1 by (intros ->; apply Hne; left).
    split; [apply (stop_flags_returns i w _ Ht)|apply (stop_call_returns i w _ Ht)]; simpl; rewrite ?H1, ?H2.
    + by destruct (Z.eqb_spec tid (-1)); [lia|].
    + intros r [= <-]. by eexists.
    + done.
    + intros r [= <-]. eexists. apply (call_spec _ m 1 xm xr); try done. right. by exists CallerMainFunc, sz.
  - by destruct Hh.
  - by destruct Ha.
Qed.

(** A pool, launched. *)
Lemma launch_spec tid n c name g1 g2 tids w :
  launch tid n c name g1 g2 tids = (Ret tt, w) ->
  (0 < n)%Z /\ exists h s t us,
    w = mkWorld h s (t :: us) 0 [] /\
    roots s = (root_of tid c, (Some false, Some g2)) /\ m_fibers s = [] /\ m_threads s = seq 1 (length us) /\
    th_id <$> us = (if g1 then take (Z.to_nat (if c then n - 1 else n)) tids else []) /\
    Forall (fun t => exists k, t = new_thr k (th_id t)) us /\
    (if c then
       t = mkThr tid (mkTls (Some 0) (Some 0) (Some 1) (Native 0)) true PcOutside None None /\
       next_ptr h = 2 /\ holds h 0 (fun _ => True) /\ holds h 1 root_made
     else t = main_thr tid).
Proof using Type.
  unfold launch. intros H. apply bind_inv in H as ([] & w1 & Hc & H). apply bind_inv in H as ([] & w2 & [= <-] & H).
  assert ((0 < n)%Z /\ exists h s t, w1 = mkWorld h s [t] 0 [] /\
    s = mkScheduler name [] (snd (root_of tid c)) [] (if c then [tid] else []) (if c then n - 1 else n) 0 0 None None
          (fst (root_of tid c)) /\
    (if c then
       t = mkThr tid (mkTls (Some 0) (Some 0) (Some 1) (Native 0)) true PcOutside None None /\
       next_ptr h = 2 /\ holds h 0 (fun _ => True) /\ holds h 1 root_made
     else t = main_thr tid)) as (Hn & h & s & t & -> & -> & Ht).
  { assert (0 < n)%Z as Hn.
    { unfold construct in Hc. apply bind_inv in Hc as ([] & w2 & Ha & _).
      unfold assert_that, lift_res in Ha. by destruct (Z.ltb_spec 0 n). }
    split; [exact Hn|]. destruct c.
    - destruct (construct_caller tid n name Hn)
        as (h & x & sz & Hc' & Hnp & [y Hy] & Hx & Hctx & Hfn & Hst).
      rewrite Hc in Hc'. injection Hc' as ->. do 3 eexists. split; [reflexivity|]. split; [done|].
      split; [done|]. split; [exact Hnp|]. split; [by exists y|]. exists x. split; [exact Hx|].
      split; [by exists sz|exact Hfn|exact Hst].
    - unfold construct in Hc. apply bind_inv in Hc as ([] & w2 & Ha & Hc).
      unfold assert_that, lift_res in Ha. destruct (Z.ltb_spec 0 n); [|done]. injection Ha as <-.
      injection Hc as <-. by do 3 eexists. }
  split; [exact Hn|]. unfold start in H. unfold_M. simpl in H. destruct g1; simpl in H.
  - match type of H with start_loop ?l ?w2 = _ =>
      destruct (start_loop_spec l w2) as (us & Hs & _ & Hi & Hts) end.
    rewrite Hs in H. injection H as <-. do 4 eexists. simpl.
    split; [reflexivity|]. split; [by destruct c|]. split; [done|]. split; [|by repeat split].
    by rewrite <- Hi, length_fmap.
  - injection H as <-. do 3 eexists. exists []. split; [reflexivity|]. by destruct c.
Qed.



Lemma launch_implements tid n c name g1 g2 tids w :
  root = root_of tid c -> launch tid n c name g1 g2 tids = (Ret tt, w) ->
  Forall (fun id => (0 <= id)%Z) (tid :: tids) -> NoDup (tid :: tids) ->
  implements w [] /\ w_log w = [].
Proof using Type.
  intros Hroot (_ & h & s & t & us & -> & Hr & Hf & _ & Hi & Hus & Ht)%launch_spec
    [Htid Hids]%Forall_cons [Hnew _]%NoDup_cons.
  split; [|done]. set (own := if c then [1; 0] else []).
  exists [], ((own, []) :: replicate (length us) ([], [])).
  assert (forall k, concat (fst <$> replicate k (@nil nat, @nil prog)) = []) as Hc1
    by (induction k; done).
  assert (forall k, concat (snd <$> replicate k (@nil nat, @nil prog)) = []) as Hc2
    by (induction k; done).
  split; [|simpl; by rewrite Hc2].
  constructor; simpl; rewrite ?Hf, ?Hc1, ?app_nil_r; [constructor| | | | | |].
  - constructor.
    + destruct c; [destruct Ht as (-> & _ & H0 & H1); by apply thread_creator|].
      subst t. eapply thread_out; [done|left]. split; [done|]. split; [done|by rewrite Hroot].
    + assert (Forall (fun t => fst root <> th_id t) us) as Hne.
      { apply Forall_forall. intros u Hu%(list_elem_of_fmap_2 th_id). rewrite Hi in Hu.
        assert (th_id u ∈ tids) as Hin.
        { destruct g1; [|by inversion Hu]. apply elem_of_take in Hu as (j & Hj & _).
          by eapply list_elem_of_lookup_2. }
        rewrite Forall_forall in Hids. specialize (Hids _ Hin). rewrite Hroot.
        destruct c; simpl; [by intros ->|lia]. }
      clear -Hus Hne. induction Hus as [|u us (k & Hu) _ IH]; [constructor|].
      apply Forall_cons in Hne as [Hne Hne']. constructor; [|by apply IH].
      rewrite Hu. by apply thread_start.
  - destruct c; [|constructor]. subst own. apply NoDup_cons. split; [|apply NoDup_singleton].
    by intros ?%list_elem_of_singleton.
  - destruct c; [|constructor]. destruct Ht as (_ & Hnp & _). rewrite Hnp. repeat constructor.
  - rewrite Hroot. exact (f_equal fst Hr).
  - by injection Hr as _ -> _.
  - injection Hr as _ H1 H2. unfold flags_set. rewrite H1, H2. by split; eexists.
Qed.

(** ** The claims *)

(** The executions of a launched pool, with the tasks handed to it so far: a
    thread's step, [schedule] of a plain task from outside, the two parts of [stop]
    before the joins, by a thread that is outside [run] and has not been in it. *)
Inductive pool_run (w0 : world) : list prog -> world -> Prop :=
| pool_init : pool_run w0 [] w0
| pool_thread sub w i w' :
    pool_run w0 sub w -> enabled i w = true -> thread_step i w = (Ret tt, w') ->
    pool_run w0 sub w'
| pool_schedule sub w p thread w' :
    pool_run w0 sub w -> plain p -> pin thread -> schedule_func (Some (FUser p)) thread w = (Ret tt, w') ->
    pool_run w0 (p :: sub) w'
| pool_stop sub w i t b w' :
    pool_run w0 sub w -> w_threads w !! i = Some t -> th_pc t = PcOutside -> stop_flags i w = (Ret b, w') ->
    pool_run w0 sub w'
| pool_call sub w i t w' :
    pool_run w0 sub w -> w_threads w !! i = Some t -> th_pc t = PcOutside -> stop_call i w = (Ret tt, w') ->
    pool_run w0 sub w'.

(** The executions of the specification. *)
Inductive spec_run : list prog -> spec_state -> Prop :=
| spec_init : spec_run [] ([], [])
| spec_submit sub p js out : spec_run sub (js, out) -> spec_run (p :: sub) (p :: js, out)
| spec_advance sub a b : spec_run sub a -> advance a b -> spec_run sub b.

Lemma spec_run_effects sub a : spec_run sub a -> all_effects a ≡ₚ concat (effects <$> sub).
Proof.
  induction 1 as [|sub p js out _ IH|sub a b _ IH Hadv]; [done| |].
  - unfold all_effects in *. simpl in *. rewrite <- IH. solve_Permutation.
  - by rewrite <- (advance_effects a b Hadv).
Qed.

Section pool.
Context (tid n : Z) (c : bool) (name : str) (g1 g2 : bool) (tids : list Z) (w0 : world).
Context (Hroot : root = root_of tid c).
Context (Hl : launch tid n c name g1 g2 tids = (Ret tt, w0)).
Context (Hids : Forall (fun id => (0 <= id)%Z) (tid :: tids)) (Hnd : NoDup (tid :: tids)).
Context (Hclosed : closed = true).

Lemma pool_run_implements sub w :
  pool_run w0 sub w -> exists js, implements w js /\ spec_run sub (seen w js).
Proof using All.
  induction 1 as [|sub w i w' _ (js & Hw & Hr) He H|sub w p thread w' _ (js & Hw & Hr) Hp Hthread H
                 |sub w i t b w' _ (js & Hw & Hr) Ht Hpc H|sub w i t w' _ (js & Hw & Hr) Ht Hpc H].
  - destruct (launch_implements _ _ _ _ _ _ _ _ Hroot Hl Hids Hnd) as [Hw Hlog]. exists [].
    split; [done|]. unfold seen. rewrite Hlog. constructor.
  - destruct (implements_step w js i Hw He) as (w1 & js1 & H1 & Hw1 & Hadv).
    rewrite H in H1. injection H1 as <-. exists js1. split; [done|]. by eapply spec_advance.
  - destruct (implements_schedule w js p thread w' Hw Hp Hthread H) as [Hw' Hlog].
    exists (p :: js). split; [done|]. unfold seen. rewrite Hlog. by constructor.
  - destruct (implements_flags i t w js b w' Hclosed Hw Ht H) as [Hw' Hlog].
    exists js. split; [done|]. unfold seen. by rewrite Hlog.
  - destruct (implements_call tid c i t w js w' Hroot Hw Ht Hpc H) as [Hw' Hlog].
    exists js. split; [done|]. unfold seen. by rewrite Hlog.
Qed.
End pool.

Lemma pool_run_threads w0 sub order w w' :
  pool_run w0 sub w -> run_threads order w = (Ret tt, w') -> pool_run w0 sub w'.
Proof.
  revert w. induction order as [|i order IH]; intros w Hr H; simpl in H.
  - by injection H as <-.
  - apply bind_inv in H as (w1 & w2 & [= <- <-] & H). apply bind_inv in H as ([] & w1 & H1 & H).
    destruct (enabled i w) eqn:He.
    + eapply IH; [|exact H]. by eapply pool_thread.
    + injection H1 as <-. by eapply IH.
Qed.

Lemma pool_run_after w0 sub order w :
  pool_run w0 sub w -> is_ret (fst (run_threads order w)) = true -> pool_run w0 sub (after order w).
Proof.
  intros Hr H. apply (pool_run_threads w0 sub order w); [done|]. unfold after.
  destruct (run_threads order w) as [[[]|?|?|?] w']; by try discriminate.
Qed.

(** Nothing is in hand: the queue is empty and no thread holds a task. *)
Definition empty_handed (p : pc) : bool :=
  match p with
  | PcOutside | PcStart | PcTop | PcDispatch _ false | PcInIdle | PcDone => true
  | _ => false
  end.
Definition quiet (w : world) : bool :=
  match m_fibers (w_sched w) with [] => true | _ => false end &&
  forallb (fun t => empty_handed (th_pc t)) (w_threads w).

Lemma thread_ok_empty_handed h t v : thread_ok h t v -> empty_handed (th_pc t) = true -> snd v = [].
Proof.
  intros [| | | |id σ e p fo o js _ _ _ Hhome|id σ f e p fo o js _ _ Ha]; simpl; try done.
  - by destruct Hhome.
  - by destruct Ha.
Qed.

Lemma quiet_no_jobs w js : implements w js -> quiet w = true -> js = [].
Proof.
  intros (qv & tv & Hw & Hjs) [Hq Ht]%andb_true_iff.
  apply Permutation_nil. symmetry. rewrite Hjs.
  pose proof (impl_queue _ _ _ Hw) as Hqv. destruct (m_fibers (w_sched w)); [|done].
  inversion Hqv; subst. simpl. clear -Hw Ht.
  pose proof (impl_threads _ _ _ Hw) as H. clear Hw. revert Ht. induction H as [|t v ts tv Hv _ IH]; [done|].
  simpl. intros [Ht Hts]%andb_true_iff. rewrite (thread_ok_empty_handed _ _ _ Hv Ht). by apply IH.
Qed.

End pinned.

(** Two threads, and a task that yields and schedules another one; the same work for
    the creator and one thread. *)
Definition sample_task : prog := PStep 1 (PYieldToHold (PSchedule (PStep 2 PReturn) (-1) (PStep 3 PReturn))).
Definition sample_pool (use_caller : bool) : world :=
  snd (launch 0 2 use_caller $"test" true false [1%Z; 2%Z]).
Definition sample_started (use_caller : bool) : world :=
  snd (schedule_func (Some (FUser sample_task)) (-1) (sample_pool use_caller)).

Lemma sample_run (pin : Z -> Prop) c order :
  pin (-1)%Z -> is_ret (fst (run_threads order (sample_started c))) = true ->
  pool_run pin (sample_pool c) [sample_task] (after order (sample_started c)).
Proof.
  intros Hpin H. apply pool_run_after; [|exact H].
  apply (pool_schedule pin _ [] (sample_pool c) sample_task (-1));
    [constructor|by repeat split|done|by destruct c; vm_compute].
Qed.

(** The sample with the creator, after [stop] has entered the root fiber. *)
Definition sample_told : world := snd (stop_flags 0 (after [1; 1; 1; 1; 1] (sample_started true))).
Definition sample_caller : world := snd (stop_call 0 sample_told).

Lemma sample_caller_run (pin : Z -> Prop) order :
  pin (-1)%Z -> is_ret (fst (run_threads order sample_caller)) = true ->
  pool_run pin (sample_pool true) [sample_task] (after order sample_caller).
Proof.
  intros Hpin H. apply pool_run_after; [|exact H].
  eapply (pool_call pin _ _ sample_told 0); [|by vm_compute..].
  eapply (pool_stop pin _ _ (after [1; 1; 1; 1; 1] (sample_started true)) 0 _ false);
    [apply sample_run; [done|by vm_compute]|by vm_compute..].
Qed.



(** C2.  The scheduler refines its specification on plain tasks: every execution of a
    launched pool as in [pool_never_goes_wrong] is an execution of the bag of jobs on
    the same tasks, with the same effects in the same order; every job left in the bag
    is owned by exactly one queue entry or thread ([implements]).  (On a task that calls
    [switchTo] it is not, see [switchTo_enters_twice].) *)
Theorem pool_refines_jobs tid n use_caller name g1 g2 tids w0 sub w :
  launch tid n use_caller name g1 g2 tids = (Ret tt, w0) ->
  Forall (fun id => (0 <= id)%Z) (tid :: tids) -> NoDup (tid :: tids) ->
  pool_run anywhere w0 sub w ->
  exists js, implements anywhere true (root_of tid use_caller) w js /\ spec_run sub (js, snd <$> w_log w).
Proof.
  intros Hl Hids Hnd Hr.
  exact (pool_run_implements anywhere true _ I _ _ _ _ _ _ _ _ eq_refl Hl Hids Hnd eq_refl sub w Hr).
Qed.

Lemma pool_refines_jobs_witness :
  exists js, implements anywhere true ((-1)%Z, None) (after [1; 2; 1; 1; 1; 1] (sample_started false)) js /\
    spec_run [sample_task] (js, [1]).
Proof.
  destruct (pool_refines_jobs 0 2 false $"test" true false [1%Z; 2%Z] (sample_pool false) [sample_task]
    (after [1; 2; 1; 1; 1; 1] (sample_started false))) as (js & Hi & Hs).
  - by vm_compute.
  - by repeat constructor.
  - by apply (bool_decide_unpack _).
  - apply sample_run; [done|by vm_compute].
  - exists js. split; [exact Hi|exact Hs].
Defined.

(** C3.  No work of plain tasks is lost or done twice.  In every execution of a launched
    pool as in [pool_never_goes_wrong], the effects so far are among those of the
    tasks that were scheduled, and when the queue is empty and no thread holds a
    task, they are exactly those: every statement of every task, and of every
    function they scheduled in turn, was executed once. *)
Theorem work_is_done_once tid n use_caller name g1 g2 tids w0 sub w :
  launch tid n use_caller name g1 g2 tids = (Ret tt, w0) ->
  Forall (fun id => (0 <= id)%Z) (tid :: tids) -> NoDup (tid :: tids) ->
  pool_run anywhere w0 sub w ->
  snd <$> w_log w ⊆+ concat (effects <$> sub) /\
  (quiet w = true -> snd <$> w_log w ≡ₚ concat (effects <$> sub)).
Proof.
  intros Hl Hids Hnd Hr.
  destruct (pool_run_implements anywhere true _ I _ _ _ _ _ _ _ _ eq_refl Hl Hids Hnd eq_refl sub w Hr)
    as (js & Hw & Hs).
  apply spec_run_effects in Hs. unfold all_effects, seen in Hs. simpl in Hs. split.
  - rewrite <- Hs. by apply submseteq_inserts_r.
  - intros Hq. rewrite (quiet_no_jobs anywhere true _ w js Hw Hq) in Hs. simpl in Hs.
    by rewrite app_nil_r in Hs.
Qed.

Lemma work_is_done_once_witness :
  let w := after (repeat 1 14 ++ repeat 2 12 ++ repeat 1 6) (sample_started false) in
  quiet w = true /\ snd <$> w_log w ≡ₚ [1; 2; 3].
Proof.
  cbv zeta.
  assert (quiet (after (repeat 1 14 ++ repeat 2 12 ++ repeat 1 6) (sample_started false)) = true) as Hq
    by (by vm_compute).
  split; [exact Hq|].
  destruct (work_is_done_once 0 2 false $"test" true false [1%Z; 2%Z] (sample_pool false) [sample_task]
    (after (repeat 1 14 ++ repeat 2 12 ++ repeat 1 6) (sample_started false))) as [_ H].
  - by vm_compute.
  - by repeat constructor.
  - by apply (bool_decide_unpack _).
  - apply sample_run; [done|by vm_compute].
  - exact (H Hq).
Defined.

(** ** A second [stop] *)

(** A thread that takes part in a scheduler with a root fiber that has ended: where the
    creator is when its [stop] has returned. *)
Record after_run (w : world) (t : thr) (m r k : nat) : Prop := mkAfterRun {
  after_this : th_scheduler t = true;
  after_tls : th_tls t = mkTls (Some m) (Some m) (Some r) (Native k);
  after_apart : m <> r;
  after_main : is_Some (fibers (w_heap w) !! m);
  after_root : exists x, fibers (w_heap w) !! r = Some x /\ m_state x = TERM /\
    m_ctx x = CtxSaved (OnFiber r) /\ stk x = Some (CNever CallerMainFunc);
  after_sched : m_rootFiber (w_sched w) = Some r /\ m_rootThread (w_sched w) <> (-1)%Z
}.

(** C37.  [stop] cannot be called again once its creator has left [run], if in the
    meantime something was scheduled: it enters the root fiber, whose function has
    ended, a second time, and the thread's next step is the failing assertion at the
    end of the fiber's entry function.  (The same holds with other threads still at
    work, when [stopping] does not hold.) *)
Theorem second_stop_aborts i w t m r k :
  w_threads w !! i = Some t -> after_run w t m r k ->
  stopping_cond (told_to_stop (w_sched w)) = false ->
  exists w1 w2, stop_flags i w = (Ret false, w1) /\ stop_call i w1 = (Ret tt, w2) /\
    fst (thread_step i w2) = Abort $"never reach".
Proof.
  intros Ht [Hthis Htls Hne [xm Hm] (x & Hx & Hst & Hctx & Hstk) [Hr Hrt]] Hcond.
  destruct (stop_flags_returns i w t Ht) as (b & w1 & H1).
  { rewrite Hthis. by destruct (Z.eqb_spec (m_rootThread (w_sched w)) (-1)). }
  { intros r' Hr'. rewrite Hr in Hr'. injection Hr' as <-. by eexists. }
  destruct (stop_flags_cases i w t b w1 Ht H1) as (l & tk & -> & Hb).
  assert (b = false) as -> by (destruct b; [by rewrite Hb in Hcond|done]).
  set (w1 := mkWorld _ _ _ _ _) in *.
  assert (call r (set_loc (th_tls t) (w_heap w1)) =
    (Ret tt, entered m r xm x (set_loc (th_tls t) (w_heap w1)))) as Hcall.
  { apply call_spec; [by rewrite Htls|done|exact Hm|exact Hx|by left]. }
  destruct (stop_call_returns i w1 t Ht) as [w2 H2]; [by split; eexists|..].
  { intros r' Hr'. simpl in Hr'. rewrite Hr in Hr'. injection Hr' as <-. by eexists. }
  exists w1, w2. split; [exact H1|]. split; [exact H2|].
  destruct (stop_call_cases i w1 t w2 Ht H2) as [[_ [Hn|Hc]]|(r' & h' & Hr' & Hc & ->)].
  - simpl in Hn. congruence.
  - simpl in Hc. by rewrite Hcond in Hc.
  - simpl in Hr'. rewrite Hr in Hr'. injection Hr' as <-. rewrite Hcall in Hc. injection Hc as <-.
    assert (i < length (w_threads w)) as Hi by (by eapply lookup_lt_Some).
    unfold thread_step. rewrite (get_thr_bind i _) by (simpl; by rewrite list_lookup_insert_eq). simpl.
    unfold fiber_step, on_thread. unfold_M. simpl. rewrite list_lookup_insert_eq by done. simpl.
    unfold deref. simpl. rewrite lookup_insert_eq. simpl. unfold resumed. by rewrite Hctx, Hstk.
Qed.

Lemma second_stop_aborts_witness :
  let w := snd (schedule_func (Some (FUser PReturn)) (-1)
                  (after (repeat 0 40 ++ repeat 1 40 ++ repeat 0 30) sample_caller)) in
  exists w1 w2, stop_flags 0 w = (Ret false, w1) /\ stop_call 0 w1 = (Ret tt, w2) /\
    fst (thread_step 0 w2) = Abort $"never reach".
Proof.
  cbv zeta. set (w := snd _). eassert (w_threads w !! 0 = Some _) as Ht by (vm_compute; reflexivity).
  apply (second_stop_aborts 0 w _ 0 1 0 Ht); [|by vm_compute].
  split; [done|done|done|by eexists; vm_compute; reflexivity| |by split; vm_compute].
  eexists. split; [vm_compute; reflexivity|]. by repeat split.
Defined.
