(* ===== verification/SchedulerDrains.v ===== *)
(** * A stopping pool finishes its work

    After [stop] has been called and no more tasks come from outside, the threads
    of a pool can always bring it to an end: from every state they get into, some
    continuation of their steps runs every task to its end, empties the queue and
    lets every thread return from [run], so that the joins of [stop] return.  The
    tasks are plain and ask for no thread in particular (a task that does can stay
    in the queue forever, see [pinned_to_nobody_never_runs]). *)
From stdpp Require Import base gmap list strings.
From S2P Require Import Prelude Fiber Scheduler SchedulerSteps SchedulerJobs.

(** ** What a step leaves alone *)

(** What the steps of thread [i] do not change: the other threads, the pool, and the
    flags of [stop]. *)
Definition outside (i : nat) (w : world) : option bool * option bool * list nat * list thr :=
  (m_stopping (w_sched w), m_autoStop (w_sched w), m_threads (w_sched w),
   <[i := main_thr 0]> (w_threads w)).

Definition in_run (i : nat) (w : world) : Prop :=
  exists t, w_threads w !! i = Some t /\ th_pc t <> PcOutside.

(** [m] is executed by thread [i] inside [run]. *)
Definition within {A} (i : nat) (m : M world A) : Prop :=
  forall w a w', m w = (Ret a, w') -> outside i w' = outside i w /\ (in_run i w -> in_run i w').

Section within.
Context (i : nat).

Lemma within_bind {A B} (m : M world A) (f : A -> M world B) :
  within i m -> (forall a, within i (f a)) -> within i (m ≫= f).
Proof.
  intros Hm Hf w b w' (a & w1 & H1 & H2)%bind_inv.
  apply Hm in H1 as [H1 H1']. apply Hf in H2 as [H2 H2']. split; [by rewrite H2|auto].
Qed.

Lemma within_ret {A} (a : A) : within i (mret a).
Proof. by intros w b w' [= _ <-]. Qed.
Lemma within_get : within i get.
Proof. by intros w b w' [= _ <-]. Qed.
Lemma within_lift {A} (r : res A) : within i (lift_res r).
Proof. by intros w b w' [= _ <-]. Qed.
Lemma within_read_flag o : within i (read_flag o).
Proof. destruct o; by intros w x w' [= _ <-]. Qed.
Lemma within_sched : within i sched.
Proof. by intros w b w' [= _ <-]. Qed.
Lemma within_get_thr : within i (get_thr i).
Proof. intros w b w'. unfold get_thr. case_match; naive_solver. Qed.
Lemma within_tickle_if b : within i (tickle_if b).
Proof. destruct b; by intros w a w' [= _ <-]. Qed.
Lemma within_emit n : within i (emit i n).
Proof. by intros w a w' [= _ <-]. Qed.

Lemma within_mod_sched g :
  (forall s, m_stopping (g s) = m_stopping s /\ m_autoStop (g s) = m_autoStop s /\
             m_threads (g s) = m_threads s) ->
  within i (mod_sched g).
Proof.
  intros Hg w a w' [= _ <-]. unfold outside. simpl. by destruct (Hg (w_sched w)) as (-> & -> & ->).
Qed.

Lemma within_mod_thr g :
  (forall t, th_pc t <> PcOutside -> th_pc (g t) <> PcOutside) -> within i (mod_thr i g).
Proof.
  intros Hg w a w'. unfold mod_thr, get_thr. unfold_M.
  destruct (w_threads w !! i) as [t|] eqn:Ht; [|done]. simpl. intros [= _ <-].
  split; [unfold outside; simpl; by rewrite list_insert_insert_eq|].
  intros (t0 & Ht0 & Hpc). exists (g t). simpl. rewrite Ht in Ht0. injection Ht0 as <-.
  split; [|auto]. apply list_lookup_insert_eq, (lookup_lt_Some _ _ _ Ht).
Qed.

Lemma within_on_thread {A} (m : M fworld A) : within i (on_thread i m).
Proof.
  intros w a w'. unfold on_thread. destruct (w_threads w !! i) as [t|] eqn:Ht; [|done].
  destruct (m _) as [r h]. intros [= _ <-].
  split; [unfold outside; simpl; by rewrite list_insert_insert_eq|].
  intros (t0 & Ht0 & Hpc). rewrite Ht in Ht0. injection Ht0 as <-. eexists. simpl.
  split; [apply list_lookup_insert_eq, (lookup_lt_Some _ _ _ Ht)|exact Hpc].
Qed.

(** Goes through the statements of a definition. *)
Ltac inside := repeat
  (cbv zeta;
   lazymatch goal with
   | |- within _ (_ ≫= _) => apply within_bind; [|intros ?]
   | |- within _ (match ?x with _ => _ end) => destruct x
   | |- within _ (mod_sched _) => apply within_mod_sched; by intros []
   | |- within _ (mod_thr _ _) => apply within_mod_thr; done
   | |- within _ tickle => apply (within_tickle_if true)
   | |- within _ (ub _) => apply within_lift
   | |- within _ (assert_that _ _) => apply within_lift
   | |- within _ (raise _) => apply within_lift
   | |- _ => solve [eauto using within_ret, within_get, within_lift, within_sched,
               within_read_flag, within_get_thr, within_tickle_if, within_emit, within_on_thread]
   end).

Lemma within_schedule ft : within i (schedule ft).
Proof. unfold schedule, scheduleNonLock. inside. Qed.

Lemma within_user_step f entry cur p : within i (user_step i f entry cur p).
Proof.
  destruct p; unfold user_step, user_yield, continue_with, switchTo, schedule_func, schedule_fiber;
    inside; apply within_schedule.
Qed.

Lemma within_run_step : within i (run_step i).
Proof.
  apply within_bind; [apply within_get_thr|]. intros t.
  destruct (th_pc t); unfold run_start, run_take, run_dispatch, run_func, run_no_task, run_finish,
    run_after_fiber, run_after_func, run_after_idle, add_active, add_idle, schedule_fiber;
    inside; apply within_schedule.
Qed.

Lemma within_thread_step : within i (thread_step i).
Proof.
  apply within_bind; [apply within_get_thr|]. intros t.
  destruct (cur_flow (th_tls t)) as [k|f]; [apply within_run_step|].
  apply within_bind; [apply within_on_thread|]. intros x.
  destruct (stk x) as [[entry|entry cur [p| |]|entry]|]; [inside|..|inside|inside].
  - apply within_user_step.
  - unfold idle_step, stopping. inside.
  - apply within_run_step.
Qed.
End within.

Lemma outside_lookup i j w w' :
  outside i w' = outside i w -> j <> i -> w_threads w' !! j = w_threads w !! j.
Proof.
  intros H Hne. apply (f_equal snd) in H. simpl in H.
  by rewrite <- (list_lookup_insert_ne (w_threads w') i j (main_thr 0)), H,
    list_lookup_insert_ne by done.
Qed.

Lemma outside_flags i w w' :
  outside i w' = outside i w ->
  m_stopping (w_sched w') = m_stopping (w_sched w) /\
  m_autoStop (w_sched w') = m_autoStop (w_sched w) /\
  m_threads (w_sched w') = m_threads (w_sched w).
Proof. by intros [= -> -> ->]. Qed.

(** ** Executions without new tasks *)

(** Steps of one thread; steps of any threads. *)
Definition step_of (i : nat) (w w' : world) : Prop :=
  enabled i w = true /\ thread_step i w = (Ret tt, w').
Definition alone (i : nat) : world -> world -> Prop := rtc (step_of i).
Definition thread_steps : world -> world -> Prop := rtc (fun w w' => exists i, step_of i w w').

Lemma alone_steps i w w' : alone i w w' -> thread_steps w w'.
Proof. intros H. eapply rtc_subrel; [|exact H]. intros x y Hxy. by exists i. Qed.

Lemma alone_outside i w w' : alone i w w' -> outside i w' = outside i w.
Proof.
  induction 1 as [w|w w1 w2 [_ H] _ IH]; [done|]. rewrite IH. by apply within_thread_step in H as [H _].
Qed.

Lemma thread_steps_flags w w' :
  thread_steps w w' ->
  m_stopping (w_sched w') = m_stopping (w_sched w) /\
  m_autoStop (w_sched w') = m_autoStop (w_sched w) /\
  m_threads (w_sched w') = m_threads (w_sched w).
Proof.
  induction 1 as [w|w w1 w2 (i & _ & H) _ IH]; [done|].
  apply within_thread_step in H as [(H1 & H2 & H3)%outside_flags _]. by rewrite <- H1, <- H2, <- H3.
Qed.

Lemma steps_length w w' : thread_steps w w' -> length (w_threads w') = length (w_threads w).
Proof.
  induction 1 as [w|w w1 w2 (i & _ & H) _ IH]; [done|]. rewrite IH.
  apply within_thread_step in H as [H _]. apply (f_equal snd), (f_equal length) in H. simpl in H.
  by rewrite !length_insert in H.
Qed.

Lemma thread_steps_counts w w' :
  thread_steps w w' -> counts_ok (counters w) -> counts_ok (counters w').
Proof. induction 1 as [w|w w1 w2 (i & _ & H) _ IH]; eauto using thread_step_keeps_counts. Qed.

Lemma enabled_in_run i w t :
  w_threads w !! i = Some t -> th_pc t <> PcOutside -> th_pc t <> PcDone -> enabled i w = true.
Proof.
  intros Ht H1 H2. unfold enabled. rewrite Ht.
  destruct (cur_flow (th_tls t)); [|done]. by destruct (th_pc t).
Qed.

Lemma busy_enabled i w t : w_threads w !! i = Some t -> busy t = true -> enabled i w = true.
Proof.
  intros Ht Hb. apply (enabled_in_run i w t Ht); intros H; unfold busy in Hb; by rewrite H in Hb.
Qed.

Section progress.
Context (pin : Z -> Prop) (closed : bool) (root : Z * option nat) (Hpin : pin (-1)%Z).

(** A step of an enabled thread brings it on, or finds nothing in the queue. *)
Lemma implements_progress i w js t :
  implements pin closed root w js -> enabled i w = true -> w_threads w !! i = Some t ->
  exists w' js' t', step_of i w w' /\ implements pin closed root w' js' /\
    w_threads w' !! i = Some t' /\
    (progress (w_heap w) (w_heap w') t t' (work js) (work js') \/
     (polls w t /\ m_fibers (w_sched w') = m_fibers (w_sched w))).
Proof using Hpin.
  intros (qv & tv & Hw & Hjs) He Ht.
  destruct (enabled_goes pin closed root Hpin i w qv tv Hw He)
    as (w' & qv' & tv' & Hstep & Hw' & _ & Hprog & _).
  destruct (Hprog t Ht) as (t' & Ht' & Hp). exists w', (jobs_of qv' tv'), t'.
  split; [by split|]. split; [by exists qv', tv'|]. split; [exact Ht'|].
  by rewrite (work_Permutation _ _ Hjs).
Qed.

Lemma steps_implement w js w' :
  implements pin closed root w js -> thread_steps w w' -> exists js', implements pin closed root w' js'.
Proof using Hpin.
  intros Hw H. revert js Hw. induction H as [w|w w1 w2 (i & He & Hstep) _ IH]; intros js Hw; [eauto|].
  destruct (implements_step pin closed root Hpin w js i Hw He) as (w3 & js3 & H3 & Hw3 & _).
  rewrite Hstep in H3. injection H3 as <-. by eapply IH.
Qed.
End progress.

(** ** One thread empties the queue *)

Section drains.
Context (root : Z * option nat).
Abbreviation pool w js := (implements unpinned true root w js).

(** When nothing is pinned, a thread that finds nothing has seen an empty queue. *)
Lemma polls_empty w js t : pool w js -> polls w t -> m_fibers (w_sched w) = [].
Proof.
  intros (qv & tv & Hw & _) [_ Hp]. pose proof (impl_queue _ _ _ _ _ _ Hw) as Hq.
  destruct Hq as [|ft v q qv Hft _]; [done|]. apply Forall_cons in Hp as [Hp _].
  unfold passes_over, pinned_elsewhere in Hp.
  destruct Hft as [f p thread (x & Hx & []) -> | p thread _ ->]; simpl in Hp; [|done].
  rewrite Hx in Hp. apply bool_decide_eq_true in Hp. simpl in Hp. by destruct parked_state as [H|H]; rewrite H in Hp.
Qed.

(** Alone, a busy thread comes to the head of its loop with the queue empty: every
    other step of it brings it on. *)
Lemma drain i n : forall w js t,
  8 * work js + rank (w_heap w) t < n ->
  pool w js -> w_threads w !! i = Some t -> busy t = true ->
  exists w' js' t', alone i w w' /\ pool w' js' /\ w_threads w' !! i = Some t' /\
    th_pc t' = PcTop /\ m_fibers (w_sched w') = [].
Proof.
  induction n as [|n IH]; intros w js t Hn Hw Ht Hb; [lia|].
  destruct (implements_progress unpinned true root eq_refl i w js t Hw (busy_enabled i w t Ht Hb) Ht)
    as (w1 & js1 & t1 & Hstep & Hw1 & Ht1 & [[Hlt Hb1] | [Hp Hq]]).
  - destruct (IH w1 js1 t1) as (w' & js' & t' & Ha & Hrest); [lia|done|done|by apply Hb1|].
    exists w', js', t'. split; [by eapply rtc_l|exact Hrest].
  - exists w, js, t. split; [apply rtc_refl|]. split; [exact Hw|]. split; [exact Ht|].
    split; [apply Hp|by eapply polls_empty].
Qed.

(** A thread that has not made up its mind to leave: not outside or done, nor past an
    empty queue with its idle fiber ended. *)
Definition live (h : fworld) (t : thr) : bool :=
  match th_pc t with
  | PcOutside | PcDone => false
  | PcDispatch _ false =>
      match th_idle t ≫= (fun e => fibers h !! e) with
      | Some x => bool_decide (m_state x <> TERM)
      | None => false
      end
  | _ => true
  end.

Lemma busy_live h t : busy t = true -> live h t = true.
Proof. unfold busy, live. by destruct (th_pc t) as [| | |? []| | | | | |]. Qed.

Lemma concat_apart {A} (ls : list (list A)) i j a b x :
  NoDup (concat ls) -> ls !! i = Some a -> ls !! j = Some b -> i <> j -> x ∈ a -> x ∉ b.
Proof using Type.
  intros Hnd Hi Hj Hij Hxa Hxb. revert i j Hi Hj Hij. induction ls as [|l ls IH]; intros i j Hi Hj Hij;
    [done|]. simpl in Hnd. apply NoDup_app in Hnd as (_ & Hl & Hnd).
  destruct i as [|i], j as [|j]; simpl in *; simplify_eq.
  - apply (Hl x Hxa), list_elem_of_In, in_concat. exists b.
    split; apply list_elem_of_In; [by eapply list_elem_of_lookup_2|done].
  - apply (Hl x Hxb), list_elem_of_In, in_concat. exists a.
    split; apply list_elem_of_In; [by eapply list_elem_of_lookup_2|done].
  - apply (IH Hnd i j); [done|done|]. by intros ->.
Qed.

(** What another thread does to its own fibers does not change whether a thread is
    live. *)
Lemma live_frame i j w qv tv v h' tj :
  implements_with unpinned true root w qv tv -> tv !! i = Some v -> j <> i ->
  w_threads w !! j = Some tj ->
  (forall f, f ∉ fst v -> (f < next_ptr (w_heap w))%nat ->
     fibers h' !! f = fibers (w_heap w) !! f) ->
  live h' tj = live (w_heap w) tj.
Proof.
  intros Hw Hv Hj Htj Hfr.
  destruct (Forall2_lookup_l _ _ _ _ _ (impl_threads _ _ _ _ _ _ Hw) Htj) as ([own js1] & Hvj & Hok).
  destruct Hok as [id l k b p e fo _ [[-> _] | [-> _]]| | | |id σ e p fo o js _ _ _ _
                  |id σ f e p fo o js _ _ Ha]; try done; [|by destruct Ha].
  unfold live. simpl. destruct p as [| | |? []| | | | | |]; try done. rewrite Hfr; [done| |].
  - pose proof (impl_distinct _ _ _ _ _ _ Hw) as (_ & _ & Hnd)%NoDup_app.
    eapply (concat_apart (fst <$> tv) j i); [exact Hnd|by rewrite list_lookup_fmap, Hvj|
      by rewrite list_lookup_fmap, Hv|exact Hj|]. simpl. right. left.
  - apply (own_old unpinned true root j w qv tv _ _ _ Hw Htj Hvj). right. left.
Qed.

(** A thread that found nothing goes to its idle fiber, or leaves. *)
Lemma no_task_step i w js t ft :
  pool w js -> w_threads w !! i = Some t -> th_pc t = PcDispatch ft false ->
  exists w' js' t', step_of i w w' /\ pool w' js' /\ w_threads w' !! i = Some t' /\
    m_fibers (w_sched w') = m_fibers (w_sched w) /\
    (if live (w_heap w) t then busy t' = true
     else th_pc t' = PcDone /\ forall j tj, j <> i -> w_threads w !! j = Some tj ->
       live (w_heap w') tj = live (w_heap w) tj).
Proof.
  intros Himp Ht Hpc. pose proof (lookup_lt_Some _ _ _ Ht) as Hi.
  assert (enabled i w = true) as He by (eapply enabled_in_run; [exact Ht|by rewrite Hpc..]).
  assert (exists w' t', thread_step i w = (Ret tt, w') /\ w_threads w' !! i = Some t' /\
    m_fibers (w_sched w') = m_fibers (w_sched w) /\
    (if live (w_heap w) t then busy t' = true
     else th_pc t' = PcDone /\ forall j tj, j <> i -> w_threads w !! j = Some tj ->
       live (w_heap w') tj = live (w_heap w) tj))
    as (w' & t' & Hstep & Ht' & Hq & Hl).
  - destruct Himp as (qv & tv & Hw & _).
    destruct (Forall2_lookup_l _ _ _ _ _ (impl_threads _ _ _ _ _ _ Hw) Ht) as ([own js1] & Hv & Hok).
    destruct Hok as [id l k b p e fo _ [[-> _] | [-> _]]| | |
                    |id σ e p fo o js' Hm Hleft Hidle Hhome|id σ f e p fo o js' Hm _ Ha];
      try done; simpl in Hpc; subst p; [|by inversion Ha].
    inversion Hhome; subst. rewrite (world_at_work i w _ Ht).
    destruct w as [[F np fid ct g l0] s ts tk lg]. simpl in *.
    destruct Hm as (xm & Hm & Hcode), Hidle as (xe & Hxe & Hidle).
    simpl in Hm, Hxe. unfold live. simpl. rewrite Hxe. simpl.
    destruct (seat_apart _ _ _ _ (own_NoDup unpinned true root i _ qv tv _ _ _ Hw Ht Hv))
      as (Hne & _ & _ & _ & Hrest).
    case_bool_decide as Hst.
    + do 2 eexists. split; [apply (step_enter_idle i ts Hi); [exact Hm|exact Hcode|done|exact Hxe| |exact Hst]|].
      * by destruct (idle_off_enter true e xe Hidle Hst).
      * simpl. rewrite list_lookup_insert_eq by done. done.
    + destruct (step_finish i ts Hi F np fid ct g s tk lg l0 id σ e fo xm Hm Hcode xe)
        as (F' & l' & Hstep & _ & Hfr); [by intros a (? & _)%Hrest|exact Hleft|exact Hxe|by destruct (m_state xe)|].
      do 2 eexists. split; [exact Hstep|]. simpl. rewrite list_lookup_insert_eq by done.
      split; [done|]. split; [done|]. split; [done|]. intros j tj Hj Htj.
      rewrite list_lookup_insert_ne in Htj by done. refine (live_frame i j _ qv tv _ (mkFworld F' np fid ct g l') tj Hw Hv Hj Htj _). intros f Hf _. simpl. apply Hfr; set_solver.
  - destruct (implements_step unpinned true root eq_refl w js i Himp He) as (w1 & js1 & H1 & Hw1 & _).
    rewrite Hstep in H1. injection H1 as <-. exists w', js1, t'. done.
Qed.

(** ** All threads come to rest *)

Definition settled (t : thr) : bool :=
  match th_pc t with PcTop | PcOutside | PcDone => true | _ => false end.

Lemma settle i w js t :
  pool w js -> w_threads w !! i = Some t ->
  exists w' js' t', alone i w w' /\ pool w' js' /\ w_threads w' !! i = Some t' /\
    settled t' = true /\
    m_fibers (w_sched w') = (if live (w_heap w) t then [] else m_fibers (w_sched w)).
Proof.
  intros Hw Ht. destruct (busy t) eqn:Hb.
  - rewrite (busy_live _ _ Hb).
    destruct (drain i _ w js t (Nat.lt_succ_diag_r _) Hw Ht Hb) as (w' & js' & t' & Ha & Hw' & Ht' & Hpc & Hq).
    exists w', js', t'. do 3 (split; [done|]). split; [|done]. unfold settled. by rewrite Hpc.
  - unfold busy in Hb. destruct (th_pc t) as [| | |ft []| | | | | |] eqn:Hpc; try done.
    + exists w, js, t. split; [apply rtc_refl|]. unfold settled, live. by rewrite Hpc.
    + destruct (no_task_step i w js t ft Hw Ht Hpc) as (w1 & js1 & t1 & Hs & Hw1 & Ht1 & Hq1 & Hl).
      destruct (live (w_heap w) t).
      * destruct (drain i _ w1 js1 t1 (Nat.lt_succ_diag_r _) Hw1 Ht1 Hl)
          as (w' & js' & t' & Ha & Hw' & Ht' & Hpc' & Hq).
        exists w', js', t'. split; [by eapply rtc_l|]. do 2 (split; [done|]). split; [|done].
        unfold settled. by rewrite Hpc'.
      * exists w1, js1, t1. split; [by apply rtc_once|]. do 2 (split; [done|]). split; [|done].
        unfold settled. by rewrite (proj1 Hl).
    + exists w, js, t. split; [apply rtc_refl|]. unfold settled, live. by rewrite Hpc.
Qed.

(** [P] holds of each of the first [n] threads. *)
Definition first_threads (n : nat) (P : thr -> bool) (w : world) : Prop :=
  forall j t, j < n -> w_threads w !! j = Some t -> P t = true.

(** A property that each thread can reach on its own, all of them can reach. *)
Lemma all_threads (P : thr -> bool) (K : world -> Prop) n :
  (forall i w js t, pool w js -> K w -> w_threads w !! i = Some t ->
    exists w' t', alone i w w' /\ K w' /\ w_threads w' !! i = Some t' /\ P t' = true) ->
  forall w js, pool w js -> K w -> exists w', thread_steps w w' /\ K w' /\ first_threads n P w'.
Proof.
  intros Hone w js Hw HK. induction n as [|n IH].
  - exists w. split; [apply rtc_refl|]. split; [done|]. intros j t Hj. lia.
  - destruct IH as (w1 & Hs & HK1 & H1).
    destruct (steps_implement unpinned true root eq_refl w js w1 Hw Hs) as [js1 Hw1].
    destruct (w_threads w1 !! n) as [t|] eqn:Ht.
    + destruct (Hone n w1 js1 t Hw1 HK1 Ht) as (w' & t' & Ha & HK' & Ht' & HP).
      exists w'. split; [by etrans; [exact Hs|by eapply alone_steps]|]. split; [exact HK'|].
      intros j tj Hj Htj. destruct (decide (j = n)) as [->|Hne]; [naive_solver|].
      rewrite (outside_lookup n j w1 w') in Htj; [|by apply alone_outside|done].
      apply (H1 j); [lia|exact Htj].
    + exists w1. split; [done|]. split; [done|]. intros j t Hj Htj.
      destruct (decide (j = n)) as [->|Hne]; [by rewrite Ht in Htj|]. apply (H1 j); [lia|exact Htj].
Qed.

(** Unless tasks wait and every thread is leaving, all threads come to rest with
    the queue empty. *)
Lemma settle_all w js :
  pool w js ->
  (m_fibers (w_sched w) <> [] -> exists i t, w_threads w !! i = Some t /\ live (w_heap w) t = true) ->
  exists w', thread_steps w w' /\ m_fibers (w_sched w') = [] /\
    forall j t, w_threads w' !! j = Some t -> settled t = true.
Proof.
  intros Hw Hlive.
  assert (exists w1, thread_steps w w1 /\ m_fibers (w_sched w1) = []) as (w1 & Hs & Hq).
  { destruct (m_fibers (w_sched w)) as [|ft q] eqn:Hq.
    - exists w. split; [apply rtc_refl|done].
    - destruct Hlive as (i & t & Ht & Hl); [done|].
      destruct (settle i w js t Hw Ht) as (w1 & js1 & t1 & Ha & _ & _ & _ & Hq1).
      rewrite Hl in Hq1. exists w1. split; [by eapply alone_steps|done]. }
  destruct (steps_implement unpinned true root eq_refl w js w1 Hw Hs) as [js1 Hw1].
  destruct (all_threads settled (fun w => m_fibers (w_sched w) = []) (length (w_threads w1)))
    with (w := w1) (js := js1) as (w' & Hs' & Hq' & H); [|done|done|].
  - intros i w2 js2 t Hw2 Hq2 Ht.
    destruct (settle i w2 js2 t Hw2 Ht) as (w3 & js3 & t3 & Ha & Hw3 & Ht3 & Hset & Hq3).
    exists w3, t3. split; [done|]. split; [|done]. rewrite Hq3. by case_match.
  - exists w'. split; [by etrans|]. split; [done|]. intros j t Ht. apply (H j t); [|exact Ht].
    rewrite <- (steps_length w1 w' Hs'). by apply lookup_lt_Some in Ht.
Qed.

(** When no thread has a task, [m_activeThreadCount] is zero, and [stopping] holds. *)
Lemma idle_stopping w :
  counts_ok (counters w) -> m_autoStop (w_sched w) = Some true -> m_stopping (w_sched w) = Some true ->
  m_fibers (w_sched w) = [] -> (forall j t, w_threads w !! j = Some t -> active_pc (th_pc t) = false) ->
  stopping_cond (w_sched w) = true.
Proof.
  intros [Ha _ _] H1 H2 H3 Hidle. simpl in Ha. unfold stopping_cond. rewrite H1, H2, H3, Ha, !bool_decide_eq_true_2 by done. simpl.
  assert (filter (fun p => active_pc p = true) (places w) = []) as Hf.
  { unfold places.
    assert (Forall (fun p => active_pc p = false) (th_pc <$> w_threads w)) as H
      by (by apply Forall_fmap, Forall_lookup).
    induction H as [|p ps Hp _ IH]; [done|]. rewrite filter_cons_False; [done|by rewrite Hp]. }
  unfold tally. by rewrite Hf.
Qed.

(** ** All threads leave *)

Section leave.
Context (i : nat) (ts : list thr) (Hi : i < length ts).
Context (np : nat) (fid ct g : Z) (lg : list (nat * nat)).
Context (id : Z) (σ : seat) (e : nat) (fo : option nat).
Abbreviation m := (seat_fiber σ).
Context (Hne : m <> e) (Hapart : forall a, a ∈ seat_rest σ -> a <> m /\ a <> e).

Abbreviation heap F l := (mkFworld F np fid ct g l).
Abbreviation off p h := (at_work i ts (mkThr id (home σ) true p (Some e) fo) h).
Abbreviation on h := (at_work i ts (mkThr id (away σ e) true PcInIdle (Some e) fo) h).

(** From [w] the thread can run to its end, with [stopping] still true. *)
Definition leaves (w : world) : Prop :=
  exists w' t', alone i w w' /\ stopping_cond (w_sched w') = true /\
    w_threads w' !! i = Some t' /\ th_pc t' = PcDone.

Lemma leaves_step t h s tk w :
  th_pc t <> PcOutside -> th_pc t <> PcDone ->
  thread_step i (at_work i ts t h s tk lg) = (Ret tt, w) -> leaves w -> leaves (at_work i ts t h s tk lg).
Proof using Hi.
  intros H1 H2 Hs (w' & t' & Ha & Hrest). exists w', t'. split; [|exact Hrest].
  eapply rtc_l; [|exact Ha]. split; [|exact Hs]. eapply enabled_in_run; [|exact H1|exact H2].
  by apply at_work_lookup.
Qed.

(** The thread is at home, its idle fiber is [x]. *)
Record settled_heap (F : gmap nat Fiber) (x : Fiber) : Prop := mkSettledHeap {
  settled_seat : exists xm, F !! m = Some xm /\ seat_code σ xm;
  settled_left : seat_left (heap F (home σ)) σ;
  settled_idle : F !! e = Some x
}.

Lemma leave_dispatch F l s tk x :
  stopping_cond s = true -> settled_heap F x -> m_state x = TERM ->
  leaves (off (PcDispatch ft_empty false) (heap F l) s tk lg).
Proof using Hi Hapart.
  intros Hs [(xm & Hm & Hcode) Hleft Hx] Hst.
  destruct (step_finish i ts Hi F np fid ct g s tk lg l id σ e fo xm Hm Hcode x)
    as (F' & l' & Hstep & _); [by intros a (? & _)%Hapart|eapply left_frame; [|exact Hleft]; done|done|done|].
  eapply leaves_step; [done|done|exact Hstep|].
  do 2 eexists. split; [apply rtc_refl|]. split; [exact Hs|].
  split; [by apply at_work_lookup|done].
Qed.

Lemma leave_top F l s tk x :
  stopping_cond s = true -> settled_heap F x ->
  (forall l s' tk', stopping_cond s' = true ->
    leaves (off (PcDispatch ft_empty false) (heap F l) s' tk' lg)) ->
  leaves (off PcTop (heap F l) s tk lg).
Proof using Hi.
  intros Hs [(xm & Hm & Hcode) _ _] Hl. assert (m_fibers s = []) as Hq.
  { unfold stopping_cond in Hs. destruct (m_fibers s); [done|]. by rewrite andb_false_r in Hs. }
  eapply leaves_step; [done|done| |apply Hl].
  - eapply (step_take i ts Hi F np fid ct g s tk lg l id σ e fo xm Hm Hcode None []). by rewrite Hq.
  - destruct s. simpl in *. by subst.
Qed.

Lemma leave_after_idle F l s tk x :
  stopping_cond s = true -> settled_heap F x -> m_state x = TERM ->
  leaves (off PcInIdle (heap F l) s tk lg).
Proof using Hi Hapart.
  intros Hs Hh Hst. pose proof Hh as [(xm & Hm & Hcode) _ Hx].
  eapply leaves_step; [done|done|eapply (step_after_idle i ts Hi); [exact Hm|exact Hcode|exact Hx|]|].
  { intros H. by rewrite Hst in H. }
  rewrite decide_True by exact Hst. eapply leave_top; [by destruct s|exact Hh|].
  intros. by eapply leave_dispatch.
Qed.

Lemma leave_idle F l s tk xm x :
  stopping_cond s = true -> F !! m = Some xm -> m_ctx xm = CtxSaved (seat_flow σ) ->
  seat_code σ xm -> seat_left (heap F (home σ)) σ -> F !! e = Some x -> stk x = Some (CBody MainFunc e FIdle) ->
  leaves (on (heap F l) s tk lg).
Proof using Hi Hne Hapart.
  intros Hs Hm Hc Hcode Hleft Hx Hstk. eapply leaves_step; [done|done|by eapply step_idle_return|].
  eapply (leave_after_idle _ _ _ _ (ended e TERM None x)); [done| |done]. constructor.
  - eexists. rewrite lookup_insert_eq. split; [done|]. by destruct σ.
  - eapply left_frame; [|exact Hleft]. intros a (? & ?)%Hapart. simpl. by rewrite !lookup_insert_ne.
  - rewrite lookup_insert_ne by done. apply lookup_insert_eq.
Qed.

Lemma leave_enter_idle F l s tk x :
  stopping_cond s = true -> settled_heap F x -> idle_off true e x -> m_state x <> TERM ->
  leaves (off (PcDispatch ft_empty false) (heap F l) s tk lg).
Proof using Hi Hne Hapart.
  intros Hs [(xm & Hm & Hcode) Hleft Hx] Hoff Hst.
  destruct (idle_off_enter true e x Hoff Hst) as [Hrun [_ _ Hex Hat]].
  eapply leaves_step; [done|done|by eapply (step_enter_idle i ts Hi)|].
  set (F' := <[e := resumed x]> _).
  assert (F' !! m = Some (set_ctx (CtxSaved (seat_flow σ)) xm)) as Hm'
    by (subst F'; rewrite lookup_insert_ne by done; apply lookup_insert_eq).
  assert (F' !! e = Some (resumed x)) as Hx' by apply lookup_insert_eq.
  assert (seat_left (heap F' (home σ)) σ) as Hleft'.
  { eapply left_frame; [|exact Hleft]. intros a (? & ?)%Hapart. subst F'. simpl.
    by rewrite !lookup_insert_ne. }
  destruct Hat as [[Hstk Hfn] | Hstk].
  - eapply leaves_step; [done|done|by eapply step_entry|].
    eapply leave_idle; [by destruct s|by rewrite lookup_insert_ne|done|by destruct σ| |
      apply lookup_insert_eq|done].
    eapply left_frame; [|exact Hleft']. intros a (? & ?)%Hapart. simpl. by rewrite lookup_insert_ne.
  - eapply leave_idle; [by destruct s|exact Hm'|done|by destruct σ|exact Hleft'|exact Hx'|exact Hstk].
Qed.

Lemma leave F l s tk x :
  stopping_cond s = true -> settled_heap F x -> idle_off true e x ->
  leaves (off PcTop (heap F l) s tk lg).
Proof using Hi Hne Hapart.
  intros Hs Hh Hoff. eapply leave_top; [exact Hs|exact Hh|]. intros l' s' tk' Hs'.
  destruct (decide (m_state x = TERM)) as [Hst|Hst].
  - by eapply leave_dispatch.
  - by eapply leave_enter_idle.
Qed.
End leave.

Definition gone (t : thr) : bool := match th_pc t with PcOutside | PcDone => true | _ => false end.
Definition at_rest (w : world) : Prop :=
  stopping_cond (w_sched w) = true /\ forall j t, w_threads w !! j = Some t -> settled t = true.

(** A thread at rest leaves and disturbs nobody. *)
Lemma rest_leave i w js t :
  pool w js -> at_rest w -> w_threads w !! i = Some t ->
  exists w' t', alone i w w' /\ at_rest w' /\ w_threads w' !! i = Some t' /\ gone t' = true.
Proof.
  intros (qv & tv & Hw & _) [Hs Hset] Ht. destruct (gone t) eqn:Hg.
  { exists w, t. split; [apply rtc_refl|done]. }
  assert (th_pc t = PcTop) as Hpc.
  { pose proof (Hset i t Ht) as H. unfold settled in H. unfold gone in Hg. by destruct (th_pc t). }
  assert (leaves i w) as (w' & t' & Ha & Hs' & Ht' & Hpc').
  { destruct (Forall2_lookup_l _ _ _ _ _ (impl_threads _ _ _ _ _ _ Hw) Ht) as ([own js1] & Hv & Hok).
    destruct Hok as [id l k b p e fo _ [[-> _] | [-> _]]| | |
                    |id σ e p fo o js' Hm Hleft Hidle Hhome|id σ f e p fo o js' Hm _ Ha];
      try done; simpl in Hpc; subst p; [|by inversion Ha].
    destruct (seat_apart _ _ _ _ (own_NoDup unpinned true root i _ qv tv _ _ _ Hw Ht Hv))
      as (Hne & _ & _ & _ & Hrest).
    rewrite (world_at_work i w _ Ht). pose proof (lookup_lt_Some _ _ _ Ht) as Hi.
    destruct w as [[F np fid ct g l0] s ts tk lg]. simpl in *.
    destruct Hm as (xm & Hm & Hcode), Hidle as (xe & Hxe & Hidle).
    apply (leave i ts Hi np fid ct g lg id σ e fo) with (x := xe); [done| |done| |done].
    - intros a (? & ? & _)%Hrest. done.
    - constructor; [by exists xm| |exact Hxe]. eapply left_frame; [|exact Hleft]. done. }
  exists w', t'. split; [exact Ha|]. split; [|split; [exact Ht'|unfold gone; by rewrite Hpc']].
  split; [exact Hs'|]. intros j tj Hj. destruct (decide (j = i)) as [->|Hne].
  - rewrite Ht' in Hj. injection Hj as <-. unfold settled. by rewrite Hpc'.
  - rewrite (outside_lookup i j w w') in Hj; [by eapply Hset|by apply alone_outside|done].
Qed.

(** From a state in which no task is stranded, the pool can finish. *)
Lemma can_finish w js :
  pool w js -> counts_ok (counters w) ->
  m_autoStop (w_sched w) = Some true -> m_stopping (w_sched w) = Some true ->
  (m_fibers (w_sched w) <> [] -> exists i t, w_threads w !! i = Some t /\ live (w_heap w) t = true) ->
  exists w', thread_steps w w' /\ m_fibers (w_sched w') = [] /\
    forall j t, w_threads w' !! j = Some t -> gone t = true.
Proof.
  intros Hw Hc Ha Hst Hlive.
  destruct (settle_all w js Hw Hlive) as (w1 & Hs1 & Hq1 & Hset).
  destruct (steps_implement unpinned true root eq_refl w js w1 Hw Hs1) as [js1 Hw1].
  destruct (thread_steps_flags w w1 Hs1) as (H1 & H2 & _).
  assert (at_rest w1) as Hrest.
  { split; [|exact Hset]. apply idle_stopping; try done; [by eapply thread_steps_counts|congruence..|].
    intros j t Ht%Hset. unfold settled in Ht. by destruct (th_pc t). }
  destruct (all_threads gone at_rest (length (w_threads w1)) rest_leave w1 js1 Hw1 Hrest)
    as (w' & Hs' & [Hcond _] & H).
  exists w'. split; [by etrans|]. split.
  - unfold stopping_cond in Hcond. destruct (m_fibers (w_sched w')); [done|].
    by rewrite andb_false_r in Hcond.
  - intros j t Ht. apply (H j t); [|exact Ht].
    rewrite <- (steps_length w1 w' Hs'). by apply lookup_lt_Some in Ht.
Qed.

(** ** No task is stranded *)

(** While tasks wait, some thread has not made up its mind to leave. *)
Definition unstranded (w : world) : Prop :=
  m_fibers (w_sched w) <> [] ->
  exists i t, w_threads w !! i = Some t /\ live (w_heap w) t = true.

Lemma enabled_place i w js t :
  pool w js -> enabled i w = true -> w_threads w !! i = Some t ->
  busy t = true \/ exists ft, th_pc t = PcDispatch ft false.
Proof.
  intros (qv & tv & Hw & _) He Ht. unfold enabled in He. rewrite Ht in He.
  destruct (Forall2_lookup_l _ _ _ _ _ (impl_threads _ _ _ _ _ _ Hw) Ht) as (v & _ & Hok).
  destruct Hok as [id l k b p e fo Hf [[-> _] | [-> _]]| | | |id σ e p fo o js' _ _ _ Hhome
                  |id σ f e p fo o js' _ _ Ha]; unfold busy; simpl in *; try done; [..|by left|by left| |].
  - by rewrite Hf in He.
  - by rewrite Hf in He.
  - destruct Hhome; eauto.
  - destruct Ha; eauto.
Qed.

Lemma unstranded_step i w js w' :
  pool w js -> step_of i w w' -> unstranded w -> unstranded w'.
Proof.
  intros Hw Hstep Hun Hq. pose proof Hstep as [He Hs].
  destruct (w_threads w !! i) as [t|] eqn:Ht; [|unfold enabled in He; by rewrite Ht in He].
  destruct (enabled_place i w js t Hw He Ht) as [Hb | [ft Hpc]].
  - destruct (implements_progress unpinned true root eq_refl i w js t Hw He Ht)
      as (w1 & js1 & t1 & [_ Hs1] & _ & Ht1 & Hp).
    rewrite Hs in Hs1. injection Hs1 as <-. destruct Hp as [[_ Hb1] | [Hp Hsame]].
    + exists i, t1. split; [exact Ht1|by apply busy_live, Hb1].
    + rewrite Hsame, (polls_empty w js t Hw Hp) in Hq. done.
  - destruct (no_task_step i w js t ft Hw Ht Hpc) as (w1 & js1 & t1 & [_ Hs1] & _ & Ht1 & Hsame & Hl).
    rewrite Hs in Hs1. injection Hs1 as <-. destruct (live (w_heap w) t) eqn:Hlive.
    + exists i, t1. split; [exact Ht1|by apply busy_live].
    + rewrite Hsame in Hq. destruct (Hun Hq) as (j & tj & Hj & Hlj).
      assert (j <> i) as Hne by (intros ->; rewrite Ht in Hj; injection Hj as <-; by rewrite Hlj in Hlive).
      exists j, tj. split.
      * rewrite (outside_lookup i j w w'); [exact Hj| |exact Hne]. by apply within_thread_step in Hs as [? _].
      * by rewrite (proj2 Hl j tj Hne Hj).
Qed.
End drains.

(** Before [stop], every thread of the pool is at work. *)
Lemma open_live root w js i t :
  implements unpinned false root w js -> w_threads w !! i = Some t -> th_pc t <> PcOutside ->
  live (w_heap w) t = true.
Proof.
  intros (qv & tv & Hw & _) Ht Hpc.
  destruct (Forall2_lookup_l _ _ _ _ _ (impl_threads _ _ _ _ _ _ Hw) Ht) as (v & _ & Hok).
  destruct Hok as [id l k b p e fo _ [[Hp _] | [_ Hp]]| | | |id σ e p fo o js' _ _ Hidle Hhome
                  |id σ f e p fo o js' _ _ Ha]; try done.
  - destruct Hhome as [| |fo o _| | | | |]; try done.
    destruct Hidle as (x & Hx & Hoff). unfold live. simpl. rewrite Hx. simpl.
    apply bool_decide_eq_true. destruct Hoff as [_ [(_ & _ & [H|H]) | [(_ & _ & H) | [_ H]]]];
      [by rewrite H..|done].
  - by destruct Ha.
Qed.

(** The executions of a launched pool between the two parts of the first [stop]; nothing
    is scheduled from outside any more. *)
Inductive told_run (w0 : world) : list prog -> world -> Prop :=
| told_now sub w i t w' :
    pool_run unpinned w0 sub w -> m_stopping (w_sched w) = Some false ->
    w_threads w !! i = Some t -> th_pc t = PcOutside -> stop_flags i w = (Ret false, w') ->
    told_run w0 sub w'
| told_step sub w i w' : told_run w0 sub w -> step_of i w w' -> told_run w0 sub w'.

(** And after them: [stop] has returned at once, or gone on to the joins or into the root
    fiber. *)
Inductive stopped_run (w0 : world) : list prog -> world -> Prop :=
| stopped_at_once sub w i t w' :
    pool_run unpinned w0 sub w -> m_stopping (w_sched w) = Some false ->
    w_threads w !! i = Some t -> th_pc t = PcOutside -> stop_flags i w = (Ret true, w') ->
    stopped_run w0 sub w'
| stopped_now sub w i t w' :
    told_run w0 sub w -> w_threads w !! i = Some t -> th_pc t = PcOutside ->
    stop_call i w = (Ret tt, w') -> stopped_run w0 sub w'
| stopped_step sub w i w' : stopped_run w0 sub w -> step_of i w w' -> stopped_run w0 sub w'.

(** The threads of the pool are in [run] and the counters right. *)
Record pool_ok (n : nat) (w : world) : Prop := mkPoolOk {
  pool_counts : counts_ok (counters w);
  pool_threads : m_threads (w_sched w) = seq 1 n;
  pool_in_run : forall j, j ∈ seq 1 n -> in_run j w
}.

Lemma pool_ok_step n i w w' : pool_ok n w -> thread_step i w = (Ret tt, w') -> pool_ok n w'.
Proof.
  intros [Hc Hth Hin] H. pose proof (within_thread_step i w tt w' H) as [Hout Hrun]. constructor.
  - by eapply thread_step_keeps_counts.
  - by destruct (outside_flags i w w' Hout) as (_ & _ & ->).
  - intros j Hj. destruct (decide (j = i)) as [->|Hne]; [by apply Hrun, Hin|].
    unfold in_run. rewrite (outside_lookup i j w w' Hout Hne). by apply Hin.
Qed.

Lemma pool_ok_same n w w' :
  counters w' = counters w -> w_threads w' = w_threads w ->
  m_threads (w_sched w') = m_threads (w_sched w) -> pool_ok n w -> pool_ok n w'.
Proof.
  intros H1 H2 H3 [Hc Hth Hin]. constructor; [by rewrite H1|by rewrite H3|].
  intros j Hj. unfold in_run. rewrite H2. by apply Hin.
Qed.

Lemma pool_ok_flags n i w t b w' :
  pool_ok n w -> w_threads w !! i = Some t -> stop_flags i w = (Ret b, w') -> pool_ok n w'.
Proof.
  intros Hp Ht H. pose proof (moves_stop_flags (counters w) i w b w' eq_refl H) as Hc.
  destruct (stop_flags_cases i w t b w' Ht H) as (l & tk & -> & _). by eapply (pool_ok_same n w).
Qed.

Lemma pool_ok_call n i w t w' :
  pool_ok n w -> w_threads w !! i = Some t -> th_pc t = PcOutside -> stop_call i w = (Ret tt, w') ->
  pool_ok n w'.
Proof.
  intros [Hc Hth Hin] Ht Hpc H.
  assert (counts_ok (counters w')) as Hc'
    by (eapply sched_step_keeps_counts; [by eapply sched_step_call|exact Hc]).
  destruct (stop_call_cases i w t w' Ht H) as [[-> _] | (r & h' & _ & _ & ->)].
  - by constructor.
  - constructor; [exact Hc'|exact Hth|]. intros j Hj. destruct (Hin j Hj) as (tj & Htj & Hpcj).
    assert (j <> i) as Hne by (intros ->; rewrite Ht in Htj; injection Htj as <-; done).
    exists tj. simpl. by rewrite list_lookup_insert_ne.
Qed.

Lemma schedule_func_keeps fn thread w w' :
  schedule_func fn thread w = (Ret tt, w') ->
  w_threads w' = w_threads w /\ m_threads (w_sched w') = m_threads (w_sched w) /\
  m_stopping (w_sched w') = m_stopping (w_sched w).
Proof.
  unfold schedule_func, schedule, scheduleNonLock. unfold_M. simpl.
  destruct fn, (m_fibers (w_sched w)); simpl; intros [= <-]; done.
Qed.

Section stopped.
Context (tid n : Z) (c : bool) (name : str) (g2 : bool) (tids : list Z) (w0 : world).
Context (Hl : launch tid n c name true g2 tids = (Ret tt, w0)).
Context (Hids : Forall (fun id => (0 <= id)%Z) (tid :: tids)) (Hnd : NoDup (tid :: tids)).
Context (Hlen : ((if c then n - 1 else n) <= Z.of_nat (length tids))%Z).
Let k := Z.to_nat (if c then n - 1 else n).

(** What is known of every world of the pool. *)
Lemma pool_run_pool sub w :
  pool_run unpinned w0 sub w ->
  exists js, implements unpinned true (root_of tid c) w js /\ spec_run sub (seen w js).
Proof using Hl Hids Hnd.
  intros Hr.
  exact (pool_run_implements unpinned true _ eq_refl _ _ _ _ _ _ _ _ eq_refl Hl Hids Hnd eq_refl sub w Hr).
Qed.

Lemma pool_run_ok sub w : pool_run unpinned w0 sub w -> pool_ok k w.
Proof using Hl Hlen.
  induction 1 as [|sub w i w' _ IH _ H|sub w p thread w' _ IH _ _ H|sub w i t b w' Hr IH Ht Hpc H
                 |sub w i t w' Hr IH Ht Hpc H].
  - constructor; [by eapply launch_counts|..];
      destruct (launch_spec _ _ _ _ _ _ _ _ Hl) as (Hn & h & s & t & us & -> & _ & _ & Hth & Hi & Hus & _);
      simpl; assert (length us = k) as Hlu
        by (rewrite <- (length_fmap th_id us), Hi, length_take; subst k; destruct c; lia).
    + by rewrite Hth, Hlu.
    + intros j [Hj1 Hj2]%elem_of_seq. destruct j as [|j]; [lia|].
      destruct (lookup_lt_is_Some_2 us j) as [u Hu]; [lia|]. exists u. split; [exact Hu|].
      rewrite Forall_lookup in Hus. by destruct (Hus j u Hu) as [k' ->].
  - by eapply pool_ok_step.
  - destruct (schedule_func_keeps _ _ _ _ H) as (H1 & H2 & _).
    eapply pool_ok_same; [|exact H1|exact H2|exact IH].
    exact (moves_schedule_func (counters w) _ _ w tt w' eq_refl H).
  - by eapply pool_ok_flags.
  - by eapply pool_ok_call.
Qed.

Lemma pool_run_open sub w :
  pool_run unpinned w0 sub w -> m_stopping (w_sched w) = Some false ->
  exists js, implements unpinned false (root_of tid c) w js.
Proof using Hl Hids Hnd.
  induction 1 as [|sub w i w' _ IH He H|sub w p thread w' _ IH Hp Hpin H|sub w i t b w' _ _ Ht _ H
                 |sub w i t w' _ IH Ht Hpc H]; intros Hst.
  - exists []. by eapply launch_implements.
  - pose proof (within_thread_step i w tt w' H) as [(Hf & _)%outside_flags _].
    destruct IH as [js Hw]; [congruence|].
    destruct (implements_step unpinned false _ eq_refl w js i Hw He) as (w1 & js1 & H1 & Hw1 & _).
    rewrite H in H1. injection H1 as <-. by exists js1.
  - destruct (schedule_func_keeps _ _ _ _ H) as (_ & _ & H3).
    destruct IH as [js Hw]; [congruence|]. exists (p :: js). by eapply implements_schedule.
  - by destruct (stop_flags_cases i w t b w' Ht H) as (l & tk & -> & _).
  - assert (m_stopping (w_sched w) = Some false) as Hst0
      by (by destruct (stop_call_cases i w t w' Ht H) as [[-> _] | (r & h' & _ & _ & ->)]).
    destruct (IH Hst0) as [js Hw]. exists js. by eapply implements_call.
Qed.

Lemma told_pool_run sub w : told_run w0 sub w -> pool_run unpinned w0 sub w.
Proof using Type.
  induction 1 as [sub w i t w' Hr _ Ht Hpc H|sub w i w' _ IH [He H]]; [by eapply pool_stop|by eapply pool_thread].
Qed.

Lemma stopped_pool_run sub w : stopped_run w0 sub w -> pool_run unpinned w0 sub w.
Proof using Type.
  induction 1 as [sub w i t w' Hr _ Ht Hpc H|sub w i t w' Hr Ht Hpc H|sub w i w' _ IH [He H]];
    [by eapply pool_stop|eapply pool_call; [by apply told_pool_run|done..]|by eapply pool_thread].
Qed.

Lemma told_flags sub w :
  told_run w0 sub w -> m_autoStop (w_sched w) = Some true /\ m_stopping (w_sched w) = Some true.
Proof using Type.
  induction 1 as [sub w i t w' _ _ Ht _ H|sub w i w' _ IH [_ H]].
  - by destruct (stop_flags_cases i w t false w' Ht H) as (l & tk & -> & _).
  - apply within_thread_step in H as [(-> & -> & _)%outside_flags _]. by destruct IH.
Qed.

Lemma stopped_flags sub w :
  stopped_run w0 sub w -> m_autoStop (w_sched w) = Some true /\ m_stopping (w_sched w) = Some true.
Proof using Type.
  induction 1 as [sub w i t w' _ _ Ht _ H|sub w i t w' Hr Ht _ H|sub w i w' _ IH [_ H]].
  - by destruct (stop_flags_cases i w t true w' Ht H) as (l & tk & -> & _).
  - destruct (stop_call_cases i w t w' Ht H) as [[-> _] | (r & h' & _ & _ & ->)]; exact (told_flags sub w Hr).
  - apply within_thread_step in H as [(-> & -> & _)%outside_flags _]. by destruct IH.
Qed.

(** Without the creator, threads of the pool are at work when [stop] is called. *)
Lemma pool_unstranded sub w :
  pool_run unpinned w0 sub w -> m_stopping (w_sched w) = Some false -> c = false ->
  exists i t, w_threads w !! i = Some t /\ live (w_heap w) t = true.
Proof using Hl Hids Hnd Hlen.
  intros Hr Hst Hc. destruct (pool_run_open sub w Hr Hst) as [js Hw]. destruct (pool_run_ok sub w Hr) as [_ _ Hin].
  destruct (launch_spec _ _ _ _ _ _ _ _ Hl) as (Hn & _).
  destruct (Hin 1) as (t1 & Ht1 & Hpc1); [apply elem_of_seq; subst k; rewrite Hc; lia|].
  exists 1, t1. split; [exact Ht1|]. exact (open_live _ w js 1 t1 Hw Ht1 Hpc1).
Qed.

Lemma told_unstranded sub w : told_run w0 sub w -> c = false -> unstranded w.
Proof using Hl Hids Hnd Hlen.
  intros Hr Hc. induction Hr as [sub w i t w' Hr Hst Ht Hpc H|sub w i w' Hr IH Hstep].
  - destruct (pool_unstranded sub w Hr Hst Hc) as (j & tj & Hj & Hlj).
    destruct (stop_flags_cases i w t false w' Ht H) as (l & tk & -> & _). intros _. by exists j, tj.
  - destruct (pool_run_pool sub w (told_pool_run sub w Hr)) as (js & Hw & _). by eapply unstranded_step.
Qed.

Lemma stopped_unstranded sub w : stopped_run w0 sub w -> unstranded w.
Proof using Hl Hids Hnd Hlen.
  induction 1 as [sub w i t w' Hr Hst Ht Hpc H|sub w i t w' Hr Ht Hpc H|sub w i w' Hr IH Hstep].
  - destruct (stop_flags_cases i w t true w' Ht H) as (l & tk & -> & Hcond). intros Hq. exfalso. apply Hq.
    by destruct (stopping_cond_flags _ (Hcond eq_refl)) as (_ & _ & ?).
  - destruct (stop_call_cases i w t w' Ht H) as [[-> [Hroot | Hcond]] | (r & h' & _ & _ & ->)].
    + apply (told_unstranded sub); [done|].
      destruct (pool_run_pool sub w (told_pool_run sub w Hr)) as (js & (qv & tv & Hw & _) & _).
      pose proof (impl_root _ _ _ _ _ _ Hw) as Hrt. unfold roots in Hrt. simpl in Hrt. rewrite Hroot in Hrt.
      by destruct c.
    + intros Hq. exfalso. apply Hq. by apply stopping_cond_flags in Hcond as (_ & _ & ?).
    + intros _. eexists i, _. split; [apply list_lookup_insert_eq, (lookup_lt_Some _ _ _ Ht)|done].
  - destruct (pool_run_pool sub w (stopped_pool_run sub w Hr)) as (js & Hw & _).
    by eapply unstranded_step.
Qed.

(** What has come about when the queue is empty and every thread is gone. *)
Lemma gone_finished sub w :
  pool_run unpinned w0 sub w -> m_fibers (w_sched w) = [] ->
  (forall j t, w_threads w !! j = Some t -> gone t = true) ->
  joined (m_threads (w_sched w)) w = true /\
  (forall j t, w_threads w !! j = Some t -> th_pc t = PcDone \/ th_pc t = PcOutside) /\
  snd <$> w_log w ≡ₚ concat (effects <$> sub).
Proof using Hl Hids Hnd Hlen.
  intros Hr Hq Hgone.
  assert (forall j t, w_threads w !! j = Some t -> th_pc t = PcDone \/ th_pc t = PcOutside) as Hend.
  { intros j t Ht%Hgone. unfold gone in Ht. destruct (th_pc t); auto; done. }
  split; [|split; [exact Hend|]].
  - destruct (pool_run_ok sub w Hr) as [_ Hth Hin].
    rewrite Hth. apply forallb_forall. intros j Hj%list_elem_of_In.
    destruct (Hin j Hj) as (t & Ht & Hpc). rewrite Ht. by destruct (Hend j t Ht) as [-> | ?].
  - destruct (pool_run_pool sub w Hr) as (js & Hw & He%spec_run_effects).
    assert (quiet w = true) as Hquiet.
    { unfold quiet. rewrite Hq. simpl. apply forallb_forall. intros t Ht%list_elem_of_In.
      apply list_elem_of_lookup in Ht as [j Ht]. by destruct (Hend j t Ht) as [-> | ->]. }
    rewrite (quiet_no_jobs unpinned true _ w js Hw Hquiet) in He. unfold all_effects, seen in He.
    simpl in He. by rewrite app_nil_r in He.
Qed.
End stopped.

Lemma pool_run_steps w0 sub w w' :
  pool_run unpinned w0 sub w -> thread_steps w w' -> pool_run unpinned w0 sub w'.
Proof.
  intros Hr H. revert Hr. induction H as [w|w w1 w2 (i & He & H) _ IH]; intros Hr; [done|].
  apply IH. by eapply pool_thread.
Qed.

(** C5.  A stopping pool can always finish.  In every execution of a pool launched with
    [m_stopping] true, with enough different thread ids, with or without the creator, with
    any number of threads and any interleaving, in which all tasks are plain and pinned to
    no thread, [stop] has been called once and no task was scheduled from outside since:
    whatever the threads have done so far, they have a continuation at whose end the
    queue is empty, every thread of the pool has returned from [run] and the creator
    is not on its root fiber (so that [stop] goes on to the joins, and these return),
    and exactly the effects of all tasks have happened, each once.  No execution can
    lead into a state from which the pool cannot get out. *)
Theorem stopping_pool_drains tid n use_caller name g2 tids w0 sub w :
  launch tid n use_caller name true g2 tids = (Ret tt, w0) ->
  Forall (fun id => (0 <= id)%Z) (tid :: tids) -> NoDup (tid :: tids) ->
  ((if use_caller then n - 1 else n) <= Z.of_nat (length tids))%Z ->
  stopped_run w0 sub w ->
  exists w', thread_steps w w' /\ m_fibers (w_sched w') = [] /\
    joined (m_threads (w_sched w')) w' = true /\
    (forall j t, w_threads w' !! j = Some t -> th_pc t = PcDone \/ th_pc t = PcOutside) /\
    snd <$> w_log w' ≡ₚ concat (effects <$> sub).
Proof.
  intros Hl Hids Hnd Hlen Hr. pose proof (stopped_pool_run w0 sub w Hr) as Hpool.
  destruct (pool_run_pool _ _ _ _ _ _ _ Hl Hids Hnd sub w Hpool) as (js & Hw & _).
  destruct (stopped_flags w0 sub w Hr) as [Ha Hst].
  destruct (can_finish _ w js Hw) as (w' & Hs & Hq & Hgone); [|done|done| |].
  { apply (pool_run_ok _ _ _ _ _ _ _ Hl Hlen sub w Hpool). }
  { by eapply stopped_unstranded. }
  exists w'. split; [exact Hs|]. split; [exact Hq|].
  apply (gone_finished _ _ _ _ _ _ _ Hl Hids Hnd Hlen sub w'); [by eapply pool_run_steps|done|done].
Qed.

Lemma stopped_run_after w0 sub order w :
  stopped_run w0 sub w -> is_ret (fst (run_threads order w)) = true ->
  stopped_run w0 sub (after order w).
Proof.
  unfold after. revert w. induction order as [|i order IH]; intros w Hr H; [done|].
  destruct (run_threads (i :: order) w) as [[[]|?|?|?] w'] eqn:E; try done. simpl in E.
  apply bind_inv in E as (w1 & w2 & [= <- <-] & E). apply bind_inv in E as ([] & w1 & E1 & E).
  assert (stopped_run w0 sub w1) as Hr1.
  { destruct (enabled i w) eqn:He; [by apply (stopped_step w0 sub w i)|by injection E1 as <-]. }
  specialize (IH w1 Hr1). rewrite E in IH. by apply IH.
Qed.

Lemma sample_stopped : stopped_run (sample_pool true) [sample_task] sample_caller.
Proof.
  eapply (stopped_now _ _ sample_told 0); [|by vm_compute..].
  eapply (told_now (sample_pool true) [sample_task] (after [1; 1; 1; 1; 1] (sample_started true)) 0);
    [apply sample_run; [done|by vm_compute]|by vm_compute..].
Qed.

(** The sample in which the creator and one thread share the work, after some steps
    of both. *)
Lemma stopping_pool_drains_witness :
  exists w', thread_steps (after [0; 1; 0; 0; 1; 0] sample_caller) w' /\
    joined [1] w' = true /\ snd <$> w_log w' ≡ₚ [1; 2; 3].
Proof.
  destruct (stopping_pool_drains 0 2 true $"test" false [1%Z; 2%Z] (sample_pool true) [sample_task]
    (after [0; 1; 0; 0; 1; 0] sample_caller)) as (w' & Hs & _ & Hj & _ & Hlog).
  - by vm_compute.
  - by repeat constructor.
  - by apply (bool_decide_unpack _).
  - done.
  - apply stopped_run_after; [|by vm_compute].
    exact sample_stopped.
  - exists w'. split; [exact Hs|]. split; [|exact Hlog].
    destruct (thread_steps_flags _ _ Hs) as (_ & _ & Hth). rewrite Hth in Hj. exact Hj.
Defined.
