(* ===== verification/SchedulerFair.v ===== *)
(** * Every fair execution of a stopping pool comes to its end

    SchedulerDrains.v shows that a stopping pool can finish from every state it gets
    into.  Here is the stronger statement: it does finish, whatever the operating
    system's scheduler does, as long as it lets every thread step again and again.
    The proof follows the threads through an infinite execution: a busy thread comes
    to an empty queue; while work is left it gets less; without work all threads
    calm down, [stopping] holds, and each of them leaves. *)
From stdpp Require Import base gmap list strings.
From S2P Require Import Prelude Fiber Scheduler SchedulerSteps SchedulerJobs SchedulerDrains.

(** ** What one step does *)

(** A step of the specification does work, or none is done. *)
Lemma advance_work a b :
  advance a b -> (fst a ≡ₚ fst b /\ work (fst b) = work (fst a)) \/ work (fst b) < work (fst a).
Proof.
  intros [[H _] | H]; [left; split; [done|by apply work_Permutation]|right].
  destruct H as [p r js js' out Hjs Hjs']. simpl.
  rewrite (work_Permutation _ _ Hjs), (work_Permutation _ _ Hjs'), work_app.
  change (p :: r) with ([p] ++ r). rewrite work_app. unfold work. destruct p; simpl; lia.
Qed.

(** The fibers that a thread's place depends on: the one it is on, and its idle fiber. *)
Definition view (t : thr) : list nat :=
  match cur_flow (th_tls t) with OnFiber f => [f] | Native _ => [] end ++
  match th_pc t with
  | PcOutside | PcDone | PcStart => []
  | _ => match th_idle t with Some e => [e] | None => [] end
  end.

Definition same_view (h h' : fworld) (t : thr) : Prop :=
  forall f, f ∈ view t -> fibers h' !! f = fibers h !! f.

Lemma view_rank h h' t : same_view h h' t -> rank h' t = rank h t.
Proof.
  intros Hv. unfold rank. unfold same_view, view in Hv. destruct (cur_flow (th_tls t)) as [k|f]; [done|].
  rewrite Hv; [done|by left].
Qed.

Lemma view_live h h' t : same_view h h' t -> live h' t = live h t.
Proof.
  intros Hv. unfold live. unfold same_view, view in Hv. destruct (th_pc t) as [| | |? []| | | | | |]; try done.
  destruct (th_idle t) as [e|]; [|done]. simpl. rewrite Hv; [done|]. apply elem_of_app. right. by left.
Qed.

Section pool.
Context (root : Z * option nat).
Abbreviation pool w js := (implements unpinned true root w js).

Lemma view_owned h t v : thread_ok unpinned true root h t v -> forall f, f ∈ view t -> f ∈ fst v.
Proof.
  intros H f. unfold view. destruct H as [id l k b p e fo Hf [[-> _] | [-> _]]| | | |id σ e p fo o js _ _ _ Hhome
                  |id σ g e p fo o js _ _ Ha]; simpl; rewrite ?Hf; try set_solver.
  - destruct σ as [k m|k m r], p; simpl; set_solver.
  - destruct Ha; set_solver.
Qed.

(** The step of one thread as the others and the specification see it. *)
Lemma pool_step i w js w' :
  pool w js -> step_of i w w' ->
  exists js', pool w' js' /\ work js' <= work js /\
    (forall t, w_threads w !! i = Some t -> exists t', w_threads w' !! i = Some t' /\
       (progress (w_heap w) (w_heap w') t t' (work js) (work js') \/ polls w t)) /\
    (forall j t, j <> i -> w_threads w !! j = Some t ->
       w_threads w' !! j = Some t /\ same_view (w_heap w) (w_heap w') t).
Proof.
  intros (qv & tv & Hw & Hjs) [He Hs].
  destruct (enabled_goes unpinned true root eq_refl i w qv tv Hw He)
    as (w1 & qv' & tv' & Hs1 & Hw' & Hadv & Hprog & Hfr).
  rewrite Hs in Hs1. injection Hs1 as <-. exists (jobs_of qv' tv').
  assert (work (jobs_of qv tv) = work js) as Hwork by (symmetry; by apply work_Permutation).
  split; [by exists qv', tv'|]. split.
  { apply advance_work in Hadv. simpl in Hadv. unfold jobs_of in *. destruct Hadv as [[_ H]|H]; lia. }
  split.
  - intros t Ht. destruct (Hprog t Ht) as (t' & Ht' & H). exists t'. split; [exact Ht'|].
    rewrite Hwork in H. tauto.
  - intros j t Hj Ht. apply within_thread_step in Hs as [Hout _].
    split; [by rewrite (outside_lookup i j w w' Hout Hj)|]. intros f Hf.
    destruct (Forall2_lookup_l _ _ _ _ _ (impl_threads _ _ _ _ _ _ Hw) Ht) as (vj & Hvj & Hok).
    pose proof (view_owned _ _ _ Hok f Hf) as Hown.
    assert (is_Some (w_threads w !! i)) as [ti Hti].
    { unfold enabled in He. destruct (w_threads w !! i); [by eexists|done]. }
    destruct (Forall2_lookup_l _ _ _ _ _ (impl_threads _ _ _ _ _ _ Hw) Hti) as (vi & Hvi & _).
    apply (Hfr vi f Hvi).
    + pose proof (impl_distinct _ _ _ _ _ _ Hw) as (_ & _ & Hnd)%NoDup_app.
      eapply (concat_apart (fst <$> tv) j i); [exact Hnd|by rewrite list_lookup_fmap, Hvj|
        by rewrite list_lookup_fmap, Hvi|done|exact Hown].
    + destruct vj as [own jsj]. eapply (own_old unpinned true root j w qv tv _ _ _ Hw Ht Hvj). exact Hown.
Qed.
End pool.

(** ** Where a step can lead *)

(** [m] takes nothing from the queue. *)
Definition grows {A} (m : M world A) : Prop :=
  forall w a w', m w = (Ret a, w') -> exists q, m_fibers (w_sched w') = m_fibers (w_sched w) ++ q.

(** [m] gives thread [i] nothing to do when it has nothing. *)
Definition calm_at (i : nat) (w : world) : Prop :=
  exists t, w_threads w !! i = Some t /\ empty_handed (th_pc t) = true.
Definition calms {A} (i : nat) (m : M world A) : Prop :=
  forall w a w', m w = (Ret a, w') -> calm_at i w -> calm_at i w'.

Section walk.
Context (i : nat).

Lemma grows_bind {A B} (m : M world A) (f : A -> M world B) :
  grows m -> (forall a, grows (f a)) -> grows (m ≫= f).
Proof.
  intros Hm Hf w b w' (a & w1 & H1 & H2)%bind_inv. destruct (Hm _ _ _ H1) as [q1 E1], (Hf _ _ _ _ H2) as [q2 E2].
  exists (q1 ++ q2). by rewrite E2, E1, app_assoc.
Qed.

Lemma grows_same {A} (m : M world A) :
  (forall w a w', m w = (Ret a, w') -> m_fibers (w_sched w') = m_fibers (w_sched w)) -> grows m.
Proof. intros Hm w a w' H. exists []. by rewrite (Hm w a w' H), app_nil_r. Qed.

Lemma grows_ret {A} (a : A) : grows (mret a).
Proof. apply grows_same. by intros w b w' [= _ <-]. Qed.
Lemma grows_lift {A} (r : res A) : grows (lift_res r).
Proof. apply grows_same. by intros w b w' [= _ <-]. Qed.
Lemma grows_get : grows get.
Proof. apply grows_same. by intros w b w' [= _ <-]. Qed.
Lemma grows_sched : grows sched.
Proof. apply grows_same. by intros w b w' [= _ <-]. Qed.
Lemma grows_read_flag o : grows (read_flag o).
Proof. apply grows_same. destruct o; by intros w x w' [= _ <-]. Qed.
Lemma grows_get_thr : grows (get_thr i).
Proof. apply grows_same. intros w b w'. unfold get_thr. case_match; naive_solver. Qed.
Lemma grows_tickle_if b : grows (tickle_if b).
Proof. apply grows_same. destruct b; by intros w a w' [= _ <-]. Qed.
Lemma grows_emit n : grows (emit i n).
Proof. apply grows_same. by intros w a w' [= _ <-]. Qed.
Lemma grows_mod_sched g : (forall s, exists q, m_fibers (g s) = m_fibers s ++ q) -> grows (mod_sched g).
Proof. intros Hg w a w' [= _ <-]. apply Hg. Qed.
Lemma grows_mod_thr g : grows (mod_thr i g).
Proof.
  apply grows_same. intros w a w'. unfold mod_thr, get_thr. unfold_M. by destruct (w_threads w !! i); intros [= _ <-].
Qed.
Lemma grows_on_thread {A} (m : M fworld A) : grows (on_thread i m).
Proof.
  apply grows_same. intros w a w'. unfold on_thread. destruct (w_threads w !! i); [|done].
  by destruct (m _) as [r h]; intros [= _ <-].
Qed.

Lemma calms_bind {A B} (m : M world A) (f : A -> M world B) :
  calms i m -> (forall a, calms i (f a)) -> calms i (m ≫= f).
Proof. intros Hm Hf w b w' (a & w1 & H1 & H2)%bind_inv Hc. eapply Hf, Hm; eassumption. Qed.

Lemma calms_same {A} (m : M world A) :
  (forall w a w', m w = (Ret a, w') -> w_threads w' = w_threads w) -> calms i m.
Proof. intros Hm w a w' H Hc. unfold calm_at. by rewrite (Hm w a w' H). Qed.

Lemma calms_ret {A} (a : A) : calms i (mret a).
Proof. apply calms_same. by intros w b w' [= _ <-]. Qed.
Lemma calms_lift {A} (r : res A) : calms i (lift_res r).
Proof. apply calms_same. by intros w b w' [= _ <-]. Qed.
Lemma calms_get : calms i get.
Proof. apply calms_same. by intros w b w' [= _ <-]. Qed.
Lemma calms_sched : calms i sched.
Proof. apply calms_same. by intros w b w' [= _ <-]. Qed.
Lemma calms_read_flag o : calms i (read_flag o).
Proof. apply calms_same. destruct o; by intros w x w' [= _ <-]. Qed.
Lemma calms_get_thr : calms i (get_thr i).
Proof. apply calms_same. intros w b w'. unfold get_thr. case_match; naive_solver. Qed.
Lemma calms_tickle_if b : calms i (tickle_if b).
Proof. apply calms_same. destruct b; by intros w a w' [= _ <-]. Qed.
Lemma calms_emit n : calms i (emit i n).
Proof. apply calms_same. by intros w a w' [= _ <-]. Qed.
Lemma calms_mod_sched g : calms i (mod_sched g).
Proof. apply calms_same. by intros w a w' [= _ <-]. Qed.
Lemma calms_mod_thr g :
  (forall t, empty_handed (th_pc t) = true -> empty_handed (th_pc (g t)) = true) -> calms i (mod_thr i g).
Proof.
  intros Hg w a w'. unfold mod_thr, get_thr. unfold_M.
  destruct (w_threads w !! i) as [t|] eqn:Ht; [|done]. simpl. intros [= _ <-] (t0 & Ht0 & Hc).
  rewrite Ht in Ht0. injection Ht0 as <-. exists (g t). simpl.
  split; [apply list_lookup_insert_eq, (lookup_lt_Some _ _ _ Ht)|auto].
Qed.
Lemma calms_on_thread {A} (m : M fworld A) : calms i (on_thread i m).
Proof.
  intros w a w'. unfold on_thread. destruct (w_threads w !! i) as [t|] eqn:Ht; [|done].
  destruct (m _) as [r h]. intros [= _ <-] (t0 & Ht0 & Hc). rewrite Ht in Ht0. injection Ht0 as <-.
  eexists. simpl. split; [apply list_lookup_insert_eq, (lookup_lt_Some _ _ _ Ht)|exact Hc].
Qed.
End walk.

(** Goes through the statements of a definition. *)
Ltac walk := repeat
  (cbv zeta;
   lazymatch goal with
   | |- grows (_ ≫= _) => apply grows_bind; [|intros ?]
   | |- calms _ (_ ≫= _) => apply calms_bind; [|intros ?]
   | |- grows (match ?x with _ => _ end) => destruct x
   | |- calms _ (match ?x with _ => _ end) => destruct x
   | |- grows (mod_sched _) => apply grows_mod_sched; intros []; simpl; try (by exists []; rewrite app_nil_r); by eexists
   | |- calms _ (mod_thr _ _) => apply calms_mod_thr; done
   | |- grows tickle => apply (grows_tickle_if true)
   | |- calms _ tickle => apply (calms_tickle_if _ true)
   | |- _ => solve [eauto using grows_ret, grows_lift, grows_get, grows_sched, grows_read_flag, grows_get_thr, grows_tickle_if,
               grows_emit, grows_mod_thr, grows_on_thread, calms_ret, calms_lift, calms_get, calms_sched, calms_read_flag,
               calms_get_thr, calms_tickle_if, calms_emit, calms_mod_sched, calms_on_thread]
   end).

Lemma grows_schedule ft : grows (schedule ft).
Proof.
  apply grows_bind; [|intros b; apply grows_tickle_if]. intros w a w'. unfold scheduleNonLock. unfold_M. simpl.
  destruct (ft_fiber ft), (ft_func ft); intros [= _ <-]; simpl; try by eexists.
  exists []. by rewrite app_nil_r.
Qed.
Lemma calms_schedule i ft : calms i (schedule ft).
Proof. unfold schedule, scheduleNonLock. walk. Qed.

Lemma grows_user_step i f entry cur p : grows (user_step i f entry cur p).
Proof.
  destruct p; unfold user_step, user_yield, continue_with, switchTo, schedule_func, schedule_fiber;
    walk; apply grows_schedule.
Qed.
Lemma calms_user_step i f entry cur p : calms i (user_step i f entry cur p).
Proof.
  destruct p; unfold user_step, user_yield, continue_with, switchTo, schedule_func, schedule_fiber;
    walk; apply calms_schedule.
Qed.

(** A step is one of [run], or of the code on a fiber that is not [run]. *)
Lemma step_inv i w t w' :
  w_threads w !! i = Some t -> thread_step i w = (Ret tt, w') ->
  exists v t', w_threads v !! i = Some t' /\ th_pc t' = th_pc t /\
    m_fibers (w_sched v) = m_fibers (w_sched w) /\
    (run_step i v = (Ret tt, w') \/
     exists m : M world unit, m v = (Ret tt, w') /\ grows m /\ calms i m).
Proof.
  intros Ht. unfold thread_step. rewrite (bind_ret (get_thr i) _ w t w) by (unfold get_thr; by rewrite Ht).
  destruct (cur_flow (th_tls t)) as [k|f]; [intros Hs; exists w, t; eauto|].
  intros (x & v & Hx & Hs)%bind_inv. unfold on_thread in Hx. rewrite Ht in Hx.
  destruct (deref f _) as [r h]. injection Hx as -> <-.
  exists (mkWorld h (w_sched w) (<[i := put_tls (loc h) t]> (w_threads w)) (w_tickles w) (w_log w)), (put_tls (loc h) t).
  split; [simpl; apply list_lookup_insert_eq, (lookup_lt_Some _ _ _ Ht)|]. split; [done|].
  split; [done|]. destruct (stk x) as [[entry|entry cur [p| |]|entry]|]; [right|right|right|by left|done|done].
  - eexists. split; [exact Hs|]. split; walk.
  - eexists. split; [exact Hs|]. split; [apply grows_user_step|apply calms_user_step].
  - eexists. split; [exact Hs|]. split; unfold idle_step, stopping; walk.
Qed.

(** Only the locked scan of [run] takes entries from the queue. *)
Lemma run_step_grows i w t w' :
  w_threads w !! i = Some t -> th_pc t <> PcTop -> run_step i w = (Ret tt, w') ->
  exists q, m_fibers (w_sched w') = m_fibers (w_sched w) ++ q.
Proof.
  intros Ht Hpc. unfold run_step. rewrite (bind_ret (get_thr i) _ w t w) by (unfold get_thr; by rewrite Ht).
  assert (forall m : M world unit, grows m -> m w = (Ret tt, w') ->
    exists q, m_fibers (w_sched w') = m_fibers (w_sched w) ++ q) as Hm by (intros m Hg; apply Hg).
  destruct (th_pc t) as [| | |ft b|f|f| | | |]; try done; apply Hm;
    unfold run_start, run_dispatch, run_func, run_no_task, run_finish, run_after_fiber, run_after_func,
      run_after_idle, add_active, add_idle, schedule_fiber; walk; apply grows_schedule.
Qed.

Lemma step_grows i w t w' :
  w_threads w !! i = Some t -> th_pc t <> PcTop -> thread_step i w = (Ret tt, w') ->
  exists q, m_fibers (w_sched w') = m_fibers (w_sched w) ++ q.
Proof.
  intros Ht Hpc Hs. destruct (step_inv i w t w' Ht Hs) as (v & t' & Ht' & Hp & <- & [Hr | (m & Hm & Hg & _)]).
  - eapply run_step_grows; [exact Ht'|by rewrite Hp|exact Hr].
  - by eapply Hg.
Qed.

(** A thread with nothing to do that finds the queue empty gets nothing to do. *)
Lemma run_step_calm i w t w' :
  w_threads w !! i = Some t -> (th_pc t = PcTop -> m_fibers (w_sched w) = []) ->
  (forall ft, th_pc t = PcDispatch ft false -> ft = ft_empty) ->
  run_step i w = (Ret tt, w') -> empty_handed (th_pc t) = true -> calm_at i w'.
Proof.
  intros Ht Hq Hft. unfold run_step. rewrite (bind_ret (get_thr i) _ w t w) by (unfold get_thr; by rewrite Ht).
  assert (forall m : M world unit, calms i m -> m w = (Ret tt, w') -> empty_handed (th_pc t) = true -> calm_at i w')
    as Hm by (intros m Hc Hr He; eapply Hc; [exact Hr|by exists t]).
  destruct (th_pc t) as [| | |ft []|f|f| | | |] eqn:Hpc; try done.
  - apply Hm. unfold run_start. walk.
  - intros Hr _. specialize (Hq eq_refl). unfold run_take in Hr.
    rewrite (bind_ret (get_thr i) _ w t w) in Hr by (unfold get_thr; by rewrite Ht).
    unfold sched, get, lift_res, mod_sched, modify, mod_thr, get_thr in Hr. unfold mbind, M_bind in Hr. simpl in Hr.
    rewrite Hq in Hr. simpl in Hr. rewrite Ht in Hr. injection Hr as <-.
    eexists. simpl. split; [apply list_lookup_insert_eq, (lookup_lt_Some _ _ _ Ht)|done].
  - apply Hm. rewrite (Hft ft eq_refl). unfold run_dispatch, run_no_task, run_finish, add_idle. simpl. walk.
  - apply Hm. unfold run_after_idle, add_idle. walk.
Qed.

Lemma step_calm i w t w' :
  w_threads w !! i = Some t -> (th_pc t = PcTop -> m_fibers (w_sched w) = []) ->
  (forall ft, th_pc t = PcDispatch ft false -> ft = ft_empty) ->
  thread_step i w = (Ret tt, w') -> empty_handed (th_pc t) = true -> calm_at i w'.
Proof.
  intros Ht Hq Hft Hs He. destruct (step_inv i w t w' Ht Hs) as (v & t' & Ht' & Hp & Hsame & [Hr | (m & Hm & _ & Hc)]).
  - eapply run_step_calm; [exact Ht'|by rewrite Hp, Hsame|by rewrite Hp|exact Hr|by rewrite Hp].
  - eapply Hc; [exact Hm|]. exists t'. by rewrite Hp.
Qed.

Section pool_steps.
Context (root : Z * option nat).
Abbreviation pool w js := (implements unpinned true root w js).

(** A thread at the head of its loop is on its own stack, or in [run] on the root fiber. *)
Lemma top_home w js i t :
  pool w js -> w_threads w !! i = Some t -> th_pc t = PcTop -> rank (w_heap w) t = 3.
Proof.
  intros (qv & tv & Hw & _) Ht Hpc.
  destruct (Forall2_lookup_l _ _ _ _ _ (impl_threads _ _ _ _ _ _ Hw) Ht) as ([own js1] & _ & Hok).
  destruct Hok as [id l k b p e fo _ [[-> _] | [-> _]]| | | |id σ e p fo o js' (xm & Hm & Hcode) _ _ _
                  |id σ f e p fo o js' _ _ Ha]; try done; simpl in Hpc; subst p; [|by inversion Ha].
  destruct (w_heap w) as [F np fid ct g l0]. exact (rank_at_home F np fid ct g l0 id σ true PcTop (Some e) fo xm Hm Hcode).
Qed.

(** The scan takes an entry, or none, upon which the thread has nothing to do. *)
Lemma top_step w js i t w' :
  pool w js -> w_threads w !! i = Some t -> th_pc t = PcTop -> thread_step i w = (Ret tt, w') ->
  exists t', w_threads w' !! i = Some t' /\
    ((exists ft, th_pc t' = PcDispatch ft true /\ rank (w_heap w') t' = 2) \/
     (th_pc t' = PcDispatch ft_empty false /\ rank (w_heap w') t' = 7)).
Proof.
  intros (qv & tv & Hw & _) Ht Hpc Hs.
  destruct (Forall2_lookup_l _ _ _ _ _ (impl_threads _ _ _ _ _ _ Hw) Ht) as ([own js1] & Hv & Hok).
  destruct Hok as [id l k b p e fo _ [[-> _] | [-> _]]| | | |id σ e p fo o js' (xm & Hm & Hcode) Hleft Hidle Hhome
                  |id σ f e p fo o js' _ _ Ha]; try done; simpl in Hpc; subst p; [|by inversion Ha].
  pose proof (lookup_lt_Some _ _ _ Ht) as Hi. pose proof (impl_queue _ _ _ _ _ _ Hw) as Hq.
  rewrite (world_at_work i w _ Ht) in Hs. destruct w as [[F np fid ct g l0] s ts tk lg]. simpl in *.
  assert (exists found q' tm, scan_queue id (fun f => m_state <$> F !! f) [] (m_fibers s) false = Ret (found, q', tm))
    as (found & q' & tm & Hscan).
  { destruct (scan_queue_spec id (fun f => m_state <$> F !! f) [] (m_fibers s) false (entries_sound _ _ _ _ Hq))
      as [[_ H] | (a & ft & b & _ & _ & _ & H)]; rewrite H; by do 3 eexists. }
  rewrite (step_take i ts Hi F np fid ct g s tk lg l0 id σ e fo xm Hm Hcode _ _ _ Hscan) in Hs.
  injection Hs as <-. eexists. split; [simpl; by apply list_lookup_insert_eq|]. simpl.
  destruct found as [ft|]; [left; exists ft|right]; (split; [done|]);
    by rewrite (rank_at_home F np fid ct g _ id σ true _ (Some e) fo xm Hm Hcode).
Qed.

(** ** A thread that leaves *)

Definition idle_ended (h : fworld) (t : thr) : Prop :=
  exists e x, th_idle t = Some e /\ fibers h !! e = Some x /\ m_state x = TERM.
Definition on_idle (h : fworld) (t : thr) (c : code) : Prop :=
  exists e x, th_idle t = Some e /\ cur_flow (th_tls t) = OnFiber e /\ fibers h !! e = Some x /\
    stk x = Some c /\ (c = CEntry MainFunc \/ c = CBody MainFunc e FIdle).

(** The places of a thread that leaves, with the number of steps it still takes: about to
    enter the function of its idle fiber, in it, back from it, at the head of the
    loop, past the scan, done. *)
Definition leaving (k : nat) (h : fworld) (t : thr) : Prop :=
  match k with
  | 0 => th_pc t = PcDone
  | 1 => th_pc t = PcDispatch ft_empty false /\ idle_ended h t
  | 2 => th_pc t = PcTop /\ idle_ended h t
  | 3 => th_pc t = PcInIdle /\ idle_ended h t
  | 4 => th_pc t = PcInIdle /\ exists e, th_idle t = Some e /\ on_idle h t (CBody MainFunc e FIdle)
  | 5 => th_pc t = PcInIdle /\ on_idle h t (CEntry MainFunc)
  | _ => False
  end.

Lemma idle_ended_view h h' t :
  same_view h h' t -> th_pc t <> PcOutside -> th_pc t <> PcStart -> th_pc t <> PcDone -> idle_ended h t -> idle_ended h' t.
Proof.
  intros Hv H1 H2 H3 (e & x & He & Hx & Hst). exists e, x. split; [done|]. split; [|done].
  rewrite Hv; [done|]. unfold view. apply elem_of_app. right. rewrite He. destruct (th_pc t); try done; by left.
Qed.

Lemma on_idle_view h h' t c : same_view h h' t -> on_idle h t c -> on_idle h' t c.
Proof.
  intros Hv (e & x & He & Hc & Hx & Hst). exists e, x. do 2 (split; [done|]). split; [|done].
  rewrite Hv; [done|]. unfold view. rewrite Hc. by left.
Qed.

Lemma leaving_view k h h' t : same_view h h' t -> leaving k h t -> leaving k h' t.
Proof.
  intros Hv. destruct k as [|[|[|[|[|[|k]]]]]]; simpl; try done.
  - intros [Hpc H]. split; [done|]. eapply idle_ended_view; [exact Hv|by rewrite Hpc..|done].
  - intros [Hpc H]. split; [done|]. eapply idle_ended_view; [exact Hv|by rewrite Hpc..|done].
  - intros [Hpc H]. split; [done|]. eapply idle_ended_view; [exact Hv|by rewrite Hpc..|done].
  - intros [Hpc (e & He & H)]. split; [done|]. exists e. split; [done|]. by eapply on_idle_view.
  - intros [Hpc H]. split; [done|]. by eapply on_idle_view.
Qed.

(** The places of a thread in [run] that is on its own stack. *)
Lemma at_home w js i t :
  pool w js -> w_threads w !! i = Some t ->
  th_pc t = PcTop \/ th_pc t = PcDispatch ft_empty false \/ (th_pc t = PcInIdle /\ idle_ended (w_heap w) t) ->
  exists id σ e fo xm xe, t = mkThr id (home σ) true (th_pc t) (Some e) fo /\
    fibers (w_heap w) !! seat_fiber σ = Some xm /\ seat_code σ xm /\ seat_left (w_heap w) σ /\
    fibers (w_heap w) !! e = Some xe /\ idle_off true e xe /\ seat_fiber σ <> e /\
    (forall a, a ∈ seat_rest σ -> a <> seat_fiber σ /\ a <> e).
Proof.
  intros (qv & tv & Hw & _) Ht Hpc.
  destruct (Forall2_lookup_l _ _ _ _ _ (impl_threads _ _ _ _ _ _ Hw) Ht) as ([own js1] & Hv & Hok).
  destruct Hok as [id l k b p e fo _ [[-> _] | [-> _]]| | |
                  |id σ e p fo o js' (xm & Hm & Hcode) Hleft (xe & Hxe & Hidle) Hhome
                  |id σ f e p fo o js' _ _ Ha]; simpl in Hpc; try (by destruct Hpc as [?|[?|[? _]]]).
  - destruct (seat_apart _ _ _ _ (own_NoDup unpinned true root i w qv tv _ _ _ Hw Ht Hv))
      as (Hne & _ & _ & _ & Hrest).
    exists id, σ, e, fo, xm, xe. do 7 (split; [done|]). intros a (? & ? & _)%Hrest. done.
  - exfalso. destruct Ha as [? ? ? _ _ _|? _ _|? ? -> _ (x & Hx & Hon)];
      try (by destruct Hpc as [?|[?|[? _]]]).
    destruct Hpc as [?|[?|[_ (e' & x' & [= <-] & Hx' & Hst)]]]; [done|done|]. simpl in Hx'.
    rewrite Hx in Hx'. injection Hx' as <-. by rewrite (idle_on_state _ _ Hon) in Hst.
Qed.

(** The idle fiber while its thread is on it. *)
Lemma on_idle_away w js i t c :
  pool w js -> w_threads w !! i = Some t -> th_pc t = PcInIdle -> on_idle (w_heap w) t c ->
  exists id σ e fo xm x, t = mkThr id (away σ e) true PcInIdle (Some e) fo /\
    fibers (w_heap w) !! seat_fiber σ = Some xm /\ m_ctx xm = CtxSaved (seat_flow σ) /\ seat_code σ xm /\
    fibers (w_heap w) !! e = Some x /\ stk x = Some c /\ idle_on e x /\ seat_fiber σ <> e.
Proof.
  intros (qv & tv & Hw & _) Ht Hpc (e0 & x0 & He0 & Hcur & Hx0 & Hstk & _).
  destruct (Forall2_lookup_l _ _ _ _ _ (impl_threads _ _ _ _ _ _ Hw) Ht) as ([own js1] & Hv & Hok).
  destruct Hok as [id l k b p e fo _ [[-> _] | [-> _]]| | |
                  |id σ e p fo o js' (xm & Hm & Hcode) Hleft (xe & Hxe & Hidle) Hhome
                  |id σ f e p fo o js' (xm & Hm & Hc & Hcode) _ Ha]; simpl in *; subst; try done.
  - exfalso. injection He0 as <-. destruct σ as [k m|k m r]; [done|]. simpl in *. injection Hcur as ->.
    destruct (seat_apart e e o [m] (own_NoDup unpinned true root i w qv tv _ _ _ Hw Ht Hv)) as (Hne & _).
    by apply Hne.
  - injection He0 as <-. injection Hcur as ->. inversion Ha as [| |fo' o' _ _ (x & Hx & Hon)]; subst.
    rewrite Hx in Hx0. injection Hx0 as <-.
    exists id, σ, e, fo, xm, x. do 7 (split; [done|]).
    pose proof (own_NoDup unpinned true root i w qv tv _ _ _ Hw Ht Hv) as Hnd. simpl in Hnd.
    apply NoDup_cons in Hnd as [Hn _]. intros Heq. apply Hn. rewrite Heq. by left.
Qed.

(** What a thread that leaves does next, when [stopping] holds. *)
Lemma leaving_step w js i t w' k :
  pool w js -> w_threads w !! i = Some t -> stopping_cond (w_sched w) = true ->
  leaving (S k) (w_heap w) t -> thread_step i w = (Ret tt, w') ->
  exists t', w_threads w' !! i = Some t' /\ leaving k (w_heap w') t'.
Proof.
  intros Hw Ht Hstop Hl Hs. pose proof (lookup_lt_Some _ _ _ Ht) as Hi.
  assert (m_fibers (w_sched w) = []) as Hq.
  { by apply stopping_cond_flags in Hstop as (_ & _ & ?). }
  destruct k as [|[|[|[|[|k]]]]]; cbn [leaving] in Hl.
  - destruct Hl as [Hpc (e0 & x0 & He0 & Hx0 & Hst)].
    destruct (at_home w js i t Hw Ht) as (id & σ & e & fo & xm & xe & Et & Hm & Hcode & Hleft & Hxe & _ & Hne & Hrest);
      [by right; left|].
    rewrite Hpc in Et. subst t. simpl in He0. injection He0 as <-. rewrite Hxe in Hx0. injection Hx0 as <-.
    rewrite (world_at_work i w _ Ht) in Hs. destruct w as [[F np fid ct g l0] s ts tk lg]. simpl in *.
    destruct (step_finish i ts Hi F np fid ct g s tk lg l0 id σ e fo xm Hm Hcode xe) as (F' & l' & Hstep & _);
      [by intros a (? & _)%Hrest|exact Hleft|exact Hxe|exact Hst|].
    rewrite Hstep in Hs. injection Hs as <-. eexists. split; [simpl; by apply list_lookup_insert_eq|done].
  - destruct Hl as [Hpc Hended].
    destruct (at_home w js i t Hw Ht) as (id & σ & e & fo & xm & xe & Et & Hm & Hcode & Hleft & Hxe & _ & Hne & Hrest);
      [by left|].
    rewrite Hpc in Et. subst t. rewrite (world_at_work i w _ Ht) in Hs.
    destruct w as [[F np fid ct g l0] s ts tk lg]. simpl in *.
    rewrite (step_take i ts Hi F np fid ct g s tk lg l0 id σ e fo xm Hm Hcode None [] false) in Hs by (by rewrite Hq).
    injection Hs as <-. eexists. split; [simpl; by apply list_lookup_insert_eq|]. split; [done|exact Hended].
  - destruct Hl as [Hpc Hended].
    destruct (at_home w js i t Hw Ht) as (id & σ & e & fo & xm & xe & Et & Hm & Hcode & Hleft & Hxe & _ & Hne & Hrest);
      [by right; right|].
    rewrite Hpc in Et. subst t. destruct Hended as (e0 & x0 & He0 & Hx0 & Hst). simpl in He0. injection He0 as <-.
    rewrite Hxe in Hx0. injection Hx0 as <-.
    rewrite (world_at_work i w _ Ht) in Hs. destruct w as [[F np fid ct g l0] s ts tk lg]. simpl in *.
    rewrite (step_after_idle i ts Hi F np fid ct g s tk lg l0 id σ e fo xm Hm Hcode xe) in Hs
      by (exact Hxe || by rewrite Hst).
    injection Hs as <-. eexists. split; [simpl; by apply list_lookup_insert_eq|]. split; [done|].
    exists e, xe. rewrite decide_True by done. done.
  - destruct Hl as [Hpc (e0 & He0 & Hon)].
    destruct (on_idle_away w js i t _ Hw Ht Hpc Hon) as (id & σ & e & fo & xm & x & -> & Hm & Hc & Hcode & Hx & Hstk & _ & Hne).
    simpl in He0. injection He0 as <-.
    rewrite (world_at_work i w _ Ht) in Hs. destruct w as [[F np fid ct g l0] s ts tk lg]. simpl in *.
    erewrite (step_idle_return i ts Hi) in Hs by done. injection Hs as <-.
    eexists. split; [simpl; by apply list_lookup_insert_eq|]. split; [done|].
    exists e, (ended e TERM None x). split; [done|]. simpl. rewrite lookup_insert_ne by done.
    by rewrite lookup_insert_eq.
  - destruct Hl as [Hpc Hon].
    destruct (on_idle_away w js i t _ Hw Ht Hpc Hon) as (id & σ & e & fo & xm & x & -> & Hm & Hc & Hcode & Hx & Hstk & [_ _ _ Hat] & Hne).
    destruct Hat as [[_ Hfn] | Hat]; [|congruence].
    rewrite (world_at_work i w _ Ht) in Hs. destruct w as [[F np fid ct g l0] s ts tk lg]. simpl in *.
    erewrite (step_entry i ts Hi) in Hs by done. injection Hs as <-.
    eexists. split; [simpl; by apply list_lookup_insert_eq|]. split; [done|]. exists e. split; [done|].
    exists e, (set_stk (Some (CBody MainFunc e FIdle)) x). do 2 (split; [done|]). simpl. rewrite lookup_insert_eq.
    do 2 (split; [done|]). by right.
  - done.
Qed.

(** A thread that found nothing enters its idle fiber, or leaves. *)
Lemma no_task_leaves w js i t w' :
  pool w js -> w_threads w !! i = Some t -> th_pc t = PcDispatch ft_empty false -> thread_step i w = (Ret tt, w') ->
  exists t' k, w_threads w' !! i = Some t' /\ leaving k (w_heap w') t'.
Proof.
  intros Hw Ht Hpc Hs. pose proof (lookup_lt_Some _ _ _ Ht) as Hi.
  destruct (at_home w js i t Hw Ht) as (id & σ & e & fo & xm & xe & Et & Hm & Hcode & Hleft & Hxe & Hoff & Hne & Hrest);
    [by right; left|].
  rewrite Hpc in Et. subst t. rewrite (world_at_work i w _ Ht) in Hs.
  destruct w as [[F np fid ct g l0] s ts tk lg]. simpl in *.
  destruct (decide (m_state xe = TERM)) as [Hst|Hst].
  - destruct (step_finish i ts Hi F np fid ct g s tk lg l0 id σ e fo xm Hm Hcode xe) as (F' & l' & Hstep & _);
      [by intros a (? & _)%Hrest|exact Hleft|exact Hxe|exact Hst|].
    rewrite Hstep in Hs. injection Hs as <-. eexists _, 0. split; [simpl; by apply list_lookup_insert_eq|done].
  - destruct (idle_off_enter true e xe Hoff Hst) as [Hrun [_ _ _ Hat]].
    rewrite (step_enter_idle i ts Hi F np fid ct g s tk lg l0 id σ e fo xm Hm Hcode xe Hne Hxe Hrun Hst) in Hs.
    injection Hs as <-. destruct Hat as [[Hstk _] | Hstk].
    + eexists _, 5. split; [simpl; by apply list_lookup_insert_eq|]. split; [done|].
      exists e, (resumed xe). do 2 (split; [done|]). simpl. rewrite lookup_insert_eq. do 2 (split; [done|]). by left.
    + eexists _, 4. split; [simpl; by apply list_lookup_insert_eq|]. split; [done|]. exists e. split; [done|].
      exists e, (resumed xe). do 2 (split; [done|]). simpl. rewrite lookup_insert_eq. do 2 (split; [done|]). by right.
Qed.
End pool_steps.

(** A thread that found nothing holds nothing. *)
Lemma empty_dispatch i w t ft :
  counts_ok (counters w) -> w_threads w !! i = Some t -> th_pc t = PcDispatch ft false -> ft = ft_empty.
Proof.
  intros Hc Ht Hpc. apply (counts_empty _ Hc i). simpl. unfold places. rewrite list_lookup_fmap, Ht. simpl.
  by rewrite Hpc.
Qed.

(** ** How much is in hand *)

(** How far a thread with something in hand is from having nothing. *)
Definition haste (h : fworld) (t : thr) : nat := if empty_handed (th_pc t) then 0 else rank h t.
Definition total_haste (w : world) : nat := sum_list (haste (w_heap w) <$> w_threads w).

Lemma view_haste h h' t : same_view h h' t -> haste h' t = haste h t.
Proof. intros Hv. unfold haste. by rewrite (view_rank _ _ _ Hv). Qed.

Lemma sum_list_insert (l : list nat) i x y : l !! i = Some x -> sum_list (<[i := y]> l) + x = sum_list l + y.
Proof.
  revert i. induction l as [|z l IH]; intros [|i] Hi; simplify_eq/=; [lia|]. specialize (IH i Hi). lia.
Qed.

Lemma total_haste_step i w w' t t' :
  w_threads w !! i = Some t -> w_threads w' !! i = Some t' -> length (w_threads w') = length (w_threads w) ->
  (forall j tj, j <> i -> w_threads w !! j = Some tj ->
     w_threads w' !! j = Some tj /\ same_view (w_heap w) (w_heap w') tj) ->
  total_haste w' + haste (w_heap w) t = total_haste w + haste (w_heap w') t'.
Proof.
  intros Ht Ht' Hlen Hothers. unfold total_haste.
  assert (haste (w_heap w') <$> w_threads w' = <[i := haste (w_heap w') t']> (haste (w_heap w) <$> w_threads w)) as ->.
  { apply list_eq. intros j. rewrite list_lookup_fmap. destruct (decide (j = i)) as [->|Hne].
    - rewrite Ht'. simpl. symmetry. apply list_lookup_insert_eq. rewrite length_fmap. by eapply lookup_lt_Some.
    - rewrite list_lookup_insert_ne by done. rewrite list_lookup_fmap. destruct (w_threads w !! j) as [tj|] eqn:Hj.
      + destruct (Hothers j tj Hne Hj) as [-> Hv]. simpl. f_equal. by apply view_haste.
      + apply lookup_ge_None in Hj. rewrite (lookup_ge_None_2 (w_threads w')); [done|lia]. }
  apply sum_list_insert. by rewrite list_lookup_fmap, Ht.
Qed.

(** ** Fair executions *)

(** An infinite execution: at each moment one thread steps, or nothing happens when it
    cannot; every thread comes again and again. *)
Record fair_execution (e : nat -> world) (s : nat -> nat) : Prop := mkFairExecution {
  fair_step n : if enabled (s n) (e n) then thread_step (s n) (e n) = (Ret tt, e (S n)) else e (S n) = e n;
  fair_turn i n : i < length (w_threads (e n)) -> exists m, n <= m /\ s m = i
}.

Section fair.
Context (root : Z * option nat) (e : nat -> world) (s : nat -> nat) (Hfair : fair_execution e s).
Abbreviation pool w js := (implements unpinned true root w js).
Context (Hun : forall n, unstranded (e n)) (Hcounts : forall n, counts_ok (counters (e n))).

Lemma next_step n : step_of (s n) (e n) (e (S n)) \/ e (S n) = e n.
Proof using Hfair.
  pose proof (fair_step _ _ Hfair n) as H. destruct (enabled (s n) (e n)) eqn:He; [by left|by right].
Qed.

(** The next moment, as the work and the threads that do not step see it. *)
Lemma next_pool n js :
  pool (e n) js -> exists js', pool (e (S n)) js' /\ work js' <= work js /\
    forall j t, j <> s n -> w_threads (e n) !! j = Some t ->
      w_threads (e (S n)) !! j = Some t /\ same_view (w_heap (e n)) (w_heap (e (S n))) t.
Proof using Hfair.
  intros Hw. destruct (next_step n) as [Hs | ->]; [|by exists js].
  destruct (pool_step root _ _ _ _ Hw Hs) as (js' & Hw' & Hle & _ & Hothers). by exists js'.
Qed.

Lemma later_pool n m js : n <= m -> pool (e n) js -> exists js', pool (e m) js' /\ work js' <= work js.
Proof using Hfair.
  induction 1 as [|m _ IH]; intros Hw; [by exists js|].
  destruct (IH Hw) as (js1 & Hw1 & H1). destruct (next_pool m js1 Hw1) as (js2 & Hw2 & H2 & _).
  exists js2. split; [done|lia].
Qed.

(** A thread in [run] stays where it is until its turn, and then steps. *)
Lemma own_step i n js t :
  pool (e n) js -> w_threads (e n) !! i = Some t -> th_pc t <> PcOutside -> th_pc t <> PcDone ->
  exists m js', n <= m /\ pool (e m) js' /\ work js' <= work js /\ w_threads (e m) !! i = Some t /\
    same_view (w_heap (e n)) (w_heap (e m)) t /\ step_of i (e m) (e (S m)).
Proof using Hfair.
  intros Hw Ht H1 H2. destruct (fair_turn _ _ Hfair i n (lookup_lt_Some _ _ _ Ht)) as (m0 & Hm & Hs0).
  remember (m0 - n) as d eqn:Hd. revert n js Hw Ht Hm Hd. induction d as [|d IH]; intros n js Hw Ht Hm Hd.
  - assert (m0 = n) as -> by lia. exists n, js. do 4 (split; [done|]). split; [done|].
    pose proof (fair_step _ _ Hfair n) as Hstep. rewrite Hs0, (enabled_in_run i (e n) t Ht H1 H2) in Hstep.
    split; [by eapply enabled_in_run|done].
  - destruct (decide (s n = i)) as [<-|Hne].
    { exists n, js. do 4 (split; [done|]). split; [done|].
      pose proof (fair_step _ _ Hfair n) as Hstep. rewrite (enabled_in_run _ _ t Ht H1 H2) in Hstep.
      split; [by eapply enabled_in_run|done]. }
    destruct (next_pool n js Hw) as (js1 & Hw1 & Hle1 & Hothers).
    destruct (Hothers i t) as [Ht1 Hv1]; [done|done|].
    destruct (IH (S n) js1 Hw1 Ht1) as (m & js' & Hnm & Hw' & Hle' & Ht' & Hv' & Hst); [lia|lia|].
    exists m, js'. split; [lia|]. split; [done|]. split; [lia|]. split; [done|]. split; [|done].
    intros f Hf. by rewrite (Hv' f Hf), (Hv1 f Hf).
Qed.

Lemma busy_places t : busy t = true -> th_pc t <> PcOutside /\ th_pc t <> PcDone.
Proof using Type. unfold busy. by destruct (th_pc t). Qed.

(** A busy thread comes to the head of its loop with the queue empty. *)
Lemma comes_to_empty i k : forall n js t,
  8 * work js + rank (w_heap (e n)) t < k -> pool (e n) js -> w_threads (e n) !! i = Some t -> busy t = true ->
  exists m js' t', n <= m /\ pool (e m) js' /\ work js' <= work js /\ w_threads (e m) !! i = Some t' /\
    th_pc t' = PcTop /\ m_fibers (w_sched (e m)) = [] /\ step_of i (e m) (e (S m)).
Proof using Hfair.
  induction k as [|k IH]; intros n js t Hk Hw Ht Hb; [lia|]. destruct (busy_places t Hb) as [H1 H2].
  destruct (own_step i n js t Hw Ht H1 H2) as (m & js1 & Hnm & Hw1 & Hle1 & Ht1 & Hv1 & Hs).
  destruct (pool_step root _ _ _ _ Hw1 Hs) as (js2 & Hw2 & Hle2 & Hown & _).
  destruct (Hown t Ht1) as (t2 & Ht2 & [[Hlt Hb2] | Hp]).
  - rewrite (view_rank _ _ _ Hv1) in Hlt.
    destruct (IH (S m) js2 t2) as (m' & js' & t' & Hm' & Hw' & Hle' & Hrest); [lia|done|done|by apply Hb2|].
    exists m', js', t'. split; [lia|]. split; [done|]. split; [lia|exact Hrest].
  - exists m, js1, t. do 4 (split; [done|]). split; [apply Hp|]. split; [by eapply polls_empty|done].
Qed.

(** A thread that has taken a task and not come to work on it yet does some work. *)
Lemma task_worked_on i r : forall n js t,
  rank (w_heap (e n)) t < r -> r <= 3 -> pool (e n) js -> w_threads (e n) !! i = Some t -> busy t = true ->
  exists m js', n <= m /\ pool (e m) js' /\ work js' < work js.
Proof using Hfair.
  induction r as [|r IH]; intros n js t Hr Hr3 Hw Ht Hb; [lia|]. destruct (busy_places t Hb) as [H1 H2].
  destruct (own_step i n js t Hw Ht H1 H2) as (m & js1 & Hnm & Hw1 & Hle1 & Ht1 & Hv1 & Hs).
  pose proof (view_rank _ _ _ Hv1) as Hrank.
  destruct (pool_step root _ _ _ _ Hw1 Hs) as (js2 & Hw2 & Hle2 & Hown & _).
  destruct (Hown t Ht1) as (t2 & Ht2 & [[Hlt Hb2] | Hp]).
  - destruct (decide (work js2 < work js)) as [Hless|Hsame]; [by exists (S m), js2; split; [lia|]|].
    destruct (IH (S m) js2 t2) as (m' & js' & Hm' & Hw' & Hlt'); [lia|lia|done|done|by apply Hb2|].
    exists m', js'. split; [lia|]. split; [done|lia].
  - pose proof (top_home root _ _ _ _ Hw1 Ht1 (proj1 Hp)). lia.
Qed.

(** Once a waiting task is gone from the queue some work is done. *)
Lemma taken_worked_on n m js :
  n <= m -> pool (e n) js -> m_fibers (w_sched (e n)) <> [] -> m_fibers (w_sched (e m)) = [] ->
  exists m' js', n <= m' /\ pool (e m') js' /\ work js' < work js.
Proof using Hfair.
  intros Hnm. remember (m - n) as d eqn:Hd. revert n js Hnm Hd. induction d as [|d IH]; intros n js Hnm Hd Hw Hq Hempty.
  { assert (m = n) as -> by lia. done. }
  destruct (decide (m_fibers (w_sched (e (S n))) = [])) as [Hq1|Hq1].
  - destruct (next_step n) as [Hs | Heq]; [|by rewrite Heq in Hq1].
    destruct (pool_step root _ _ _ _ Hw Hs) as (js1 & Hw1 & Hle1 & Hown & _). pose proof Hs as [He Hstep].
    destruct (w_threads (e n) !! s n) as [t|] eqn:Ht; [|unfold enabled in He; by rewrite Ht in He].
    destruct (Hown t eq_refl) as (t1 & Ht1 & Hprog).
    assert (th_pc t = PcTop \/ th_pc t <> PcTop) as [Hpc|Hpc] by (destruct (th_pc t); auto).
    2: { destruct (step_grows _ _ _ _ Ht Hpc Hstep) as [q Hg]. rewrite Hq1 in Hg. symmetry in Hg.
         apply app_nil in Hg as [Hg _]. done. }
    destruct Hprog as [[Hlt _] | Hp]; [|by destruct Hq; eapply polls_empty].
    destruct (top_step root _ _ _ _ _ Hw Ht Hpc Hstep) as (t1' & Ht1' & [(ft & Hpc1 & Hrank) | [_ Hrank]]);
      rewrite Ht1 in Ht1'; injection Ht1' as <-.
    + destruct (task_worked_on (s n) 3 (S n) js1 t1) as (m' & js' & Hm' & Hw' & Hlt');
        [lia|lia|done|done|by unfold busy; rewrite Hpc1|].
      exists m', js'. split; [lia|]. split; [done|lia].
    + pose proof (top_home root _ _ _ _ Hw Ht Hpc). exists (S n), js1. split; [lia|]. split; [done|lia].
  - destruct (next_pool n js Hw) as (js1 & Hw1 & Hle1 & _).
    assert (m <> n) as Hne by lia.
    destruct (IH (S n) js1) as (m' & js' & Hm' & Hw' & Hlt'); [lia|lia|done|done|done|].
    exists m', js'. split; [lia|]. split; [done|lia].
Qed.

(** While a task waits, some work gets done. *)
Lemma waiting_worked_on n js :
  pool (e n) js -> m_fibers (w_sched (e n)) <> [] -> exists m js', n <= m /\ pool (e m) js' /\ work js' < work js.
Proof using Hfair Hun.
  intros Hw Hq. destruct (Hun n Hq) as (i & t & Ht & Hl).
  assert (exists m, n <= m /\ m_fibers (w_sched (e m)) = []) as (m & Hm & Hempty); [|by eapply taken_worked_on].
  destruct (busy t) eqn:Hb.
  - destruct (comes_to_empty i _ n js t (Nat.lt_succ_diag_r _) Hw Ht Hb) as (m & _ & _ & Hm & _ & _ & _ & _ & H & _).
    by exists m.
  - assert (exists ft, th_pc t = PcDispatch ft false) as [ft Hpc].
    { unfold busy, live in *. destruct (th_pc t) as [| | |ft []| | | | | |]; try done. by exists ft. }
    assert (th_pc t <> PcOutside /\ th_pc t <> PcDone) as [H1 H2] by (by rewrite Hpc).
    destruct (own_step i n js t Hw Ht H1 H2) as (m1 & js1 & Hm1 & Hw1 & _ & Ht1 & Hv1 & Hs).
    destruct (no_task_step root i (e m1) js1 t ft Hw1 Ht1 Hpc) as (w2 & js2 & t2 & [_ Hs2] & Hw2 & Ht2 & _ & Hl2).
    rewrite (proj2 Hs) in Hs2. injection Hs2 as <-. rewrite (view_live _ _ _ Hv1), Hl in Hl2.
    destruct (comes_to_empty i _ (S m1) js2 t2 (Nat.lt_succ_diag_r _) Hw2 Ht2 Hl2)
      as (m & _ & _ & Hm & _ & _ & _ & _ & H & _).
    exists m. split; [lia|done].
Qed.

Lemma steps_length_next n : length (w_threads (e (S n))) = length (w_threads (e n)).
Proof using Hfair.
  destruct (next_step n) as [Hs | ->]; [|done]. apply steps_length. eapply rtc_once. by exists (s n).
Qed.

(** With the queue empty, a step does some work, or puts a task into the queue, or
    leaves no more in hand. *)
Lemma haste_step i n js :
  pool (e n) js -> m_fibers (w_sched (e n)) = [] -> step_of i (e n) (e (S n)) ->
  exists js', pool (e (S n)) js' /\ work js' <= work js /\
    (work js' < work js \/
     total_haste (e (S n)) <= total_haste (e n) /\
     (forall t, w_threads (e n) !! i = Some t ->
        if empty_handed (th_pc t) then calm_at i (e (S n)) else total_haste (e (S n)) < total_haste (e n))).
Proof using Hfair Hcounts.
  intros Hw Hq Hs. destruct (pool_step root _ _ _ _ Hw Hs) as (js' & Hw' & Hle & Hown & Hothers).
  exists js'. do 2 (split; [done|]). destruct (decide (work js' < work js)) as [|Hsame]; [by left|right].
  destruct (w_threads (e n) !! i) as [t|] eqn:Ht; [|by destruct Hs as [He _]; unfold enabled in He; rewrite Ht in He].
  destruct (Hown t eq_refl) as (t' & Ht' & Hprog).
  pose proof (total_haste_step i (e n) (e (S n)) t t' Ht Ht' (steps_length_next n) Hothers) as Htotal.
  destruct (empty_handed (th_pc t)) eqn:Hcalm.
  - destruct (step_calm i (e n) t (e (S n)) Ht) as (t0 & Ht0 & Hc); [done| |apply Hs|done|].
    { intros ft. by apply (empty_dispatch i (e n) t ft). }
    rewrite Ht' in Ht0. injection Ht0 as <-. unfold haste in Htotal. rewrite Hcalm, Hc in Htotal.
    split; [lia|]. intros t0 [= <-]. rewrite Hcalm. by exists t'.
  - destruct Hprog as [[Hlt _] | [Hpc _]]; [|by rewrite Hpc in Hcalm].
    assert (haste (w_heap (e (S n))) t' < haste (w_heap (e n)) t) as Hless.
    { unfold haste. rewrite Hcalm. destruct (empty_handed (th_pc t')); lia. }
    split; [lia|]. intros t0 [= <-]. rewrite Hcalm. lia.
Qed.

(** While a thread has something in hand, things go on. *)
Lemma haste_falls i n js t :
  pool (e n) js -> m_fibers (w_sched (e n)) = [] -> w_threads (e n) !! i = Some t -> empty_handed (th_pc t) = false ->
  exists m js', n <= m /\ pool (e m) js' /\ work js' <= work js /\
    (work js' < work js \/ m_fibers (w_sched (e m)) <> [] \/ total_haste (e m) < total_haste (e n)).
Proof using Hfair Hcounts.
  intros Hw Hq Ht Hcalm. destruct (fair_turn _ _ Hfair i n (lookup_lt_Some _ _ _ Ht)) as (m0 & Hm & Hs0).
  remember (m0 - n) as d eqn:Hd. revert n js Hw Hq Ht Hm Hd. induction d as [|d IH]; intros n js Hw Hq Ht Hm Hd.
  all: assert (s n = i -> step_of i (e n) (e (S n))) as Hturn.
  1, 3: intros Hsn; pose proof (fair_step _ _ Hfair n) as Hstep; rewrite Hsn in Hstep;
    assert (enabled i (e n) = true) as He by (eapply enabled_in_run; [exact Ht|by intros E; rewrite E in Hcalm..]);
    rewrite He in Hstep; by split.
  all: assert (s n = i -> exists m js', n <= m /\ pool (e m) js' /\ work js' <= work js /\
    (work js' < work js \/ m_fibers (w_sched (e m)) <> [] \/ total_haste (e m) < total_haste (e n))) as Hdone.
  1, 3: intros Hsn; destruct (haste_step i n js Hw Hq (Hturn Hsn)) as (js' & Hw' & Hle & Hcase);
    exists (S n), js'; split; [lia|]; do 2 (split; [done|]);
    destruct Hcase as [|[_ Hless]]; [by left|right; right]; specialize (Hless t Ht); by rewrite Hcalm in Hless.
  - apply Hdone. assert (m0 = n) as -> by lia. done.
  - destruct (decide (s n = i)) as [Hsn|Hne]; [by apply Hdone|].
    destruct (next_step n) as [Hs | Heq].
    + destruct (haste_step (s n) n js Hw Hq Hs) as (js1 & Hw1 & Hle1 & [Hless|[Htot _]]);
        [exists (S n), js1; split; [lia|]; do 2 (split; [done|]); by left|].
      destruct (decide (m_fibers (w_sched (e (S n))) = [])) as [Hq1|Hq1];
        [|exists (S n), js1; split; [lia|]; do 2 (split; [done|]); by right; left].
      destruct (next_pool n js Hw) as (_ & _ & _ & Hothers).
      destruct (Hothers i t) as [Ht1 _]; [done|done|].
      destruct (IH (S n) js1 Hw1 Hq1 Ht1) as (m & js' & Hnm & Hw' & Hle' & Hcase); [lia|lia|].
      exists m, js'. split; [lia|]. split; [done|]. split; [lia|].
      destruct Hcase as [?|[?|?]]; [left; lia|by right; left|right; right; lia].
    + assert (m0 <> n) as Hmn by (intros ->; done).
      destruct (IH (S n) js) as (m & js' & Hnm & Hrest); [by rewrite Heq..|lia|lia|].
      exists m, js'. rewrite Heq in Hrest. split; [lia|exact Hrest].
Qed.

(** ** The pool calms down *)

Definition all_calm (w : world) : Prop :=
  forall j t, w_threads w !! j = Some t -> empty_handed (th_pc t) = true.

Lemma calms_or_works k : forall n js,
  total_haste (e n) < k -> pool (e n) js ->
  exists m js', n <= m /\ pool (e m) js' /\
    (work js' < work js \/ m_fibers (w_sched (e m)) = [] /\ all_calm (e m)).
Proof using Hfair Hun Hcounts.
  induction k as [|k IH]; intros n js Hk Hw; [lia|].
  assert (forall m js1, n <= m -> pool (e m) js1 -> work js1 <= work js -> m_fibers (w_sched (e m)) <> [] ->
    exists m js', n <= m /\ pool (e m) js' /\
      (work js' < work js \/ m_fibers (w_sched (e m)) = [] /\ all_calm (e m))) as Hwaiting.
  { intros m js1 Hm Hw1 Hle Hq. destruct (waiting_worked_on m js1 Hw1 Hq) as (m' & js' & Hm' & Hw' & Hlt).
    exists m', js'. split; [lia|]. split; [done|left; lia]. }
  destruct (decide (m_fibers (w_sched (e n)) = [])) as [Hq|Hq]; [|by eapply Hwaiting].
  destruct (decide (Exists (fun t => empty_handed (th_pc t) = false) (w_threads (e n)))) as [Hex|Hno].
  - apply Exists_exists in Hex as (t & [i Ht]%list_elem_of_lookup & Hcalm).
    destruct (haste_falls i n js t Hw Hq Ht Hcalm) as (m & js1 & Hm & Hw1 & Hle & [Hlt|[Hq1|Hlt]]).
    + exists m, js1. split; [done|]. split; [done|by left].
    + by eapply Hwaiting.
    + destruct (IH m js1) as (m' & js' & Hm' & Hw' & Hcase); [lia|done|].
      exists m', js'. split; [lia|]. split; [done|]. destruct Hcase; [left; lia|by right].
  - exists n, js. split; [done|]. split; [done|]. right. split; [done|]. intros j t Ht.
    apply not_Exists_Forall in Hno; [|intros ?; apply _]. rewrite Forall_lookup in Hno. specialize (Hno j t Ht).
    simpl in Hno. by destruct (empty_handed (th_pc t)).
Qed.

Lemma calms_down n js :
  pool (e n) js -> exists m js', n <= m /\ pool (e m) js' /\ m_fibers (w_sched (e m)) = [] /\ all_calm (e m).
Proof using Hfair Hun Hcounts.
  remember (work js) as k eqn:Hk. revert n js Hk. induction (lt_wf k) as [k _ IH]; intros n js -> Hw.
  destruct (calms_or_works _ n js (Nat.lt_succ_diag_r _) Hw) as (m & js1 & Hm & Hw1 & [Hlt | [Hq Hc]]).
  - destruct (IH (work js1) Hlt m js1 eq_refl Hw1) as (m' & js' & Hm' & Hrest). exists m', js'. split; [lia|exact Hrest].
  - by exists m, js1.
Qed.

(** ** Nothing is left to do *)

Lemma quiet_spec w : quiet w = true <-> m_fibers (w_sched w) = [] /\ all_calm w.
Proof using Type.
  unfold quiet, all_calm. rewrite andb_true_iff, forallb_forall. split; intros [Hq Hc].
  - split; [by destruct (m_fibers (w_sched w))|]. intros j t Ht. apply Hc, list_elem_of_In. by eapply list_elem_of_lookup_2.
  - split; [by rewrite Hq|]. intros t Ht%list_elem_of_In. apply list_elem_of_lookup in Ht as [j Ht]. by eapply Hc.
Qed.

(** Without jobs the queue is empty. *)
Lemma no_jobs_queue w : pool w [] -> m_fibers (w_sched w) = [].
Proof using Type.
  intros (qv & tv & Hw & Hjs%Permutation_nil_l). pose proof (impl_queue _ _ _ _ _ _ Hw) as Hq.
  destruct Hq as [|ft v q qv Hent _]; [done|]. by destruct Hent.
Qed.

Lemma quiet_next n : pool (e n) [] -> quiet (e n) = true -> pool (e (S n)) [] /\ quiet (e (S n)) = true.
Proof using Hfair Hcounts.
  intros Hw Hquiet. destruct (next_step n) as [Hs | ->]; [|done].
  destruct (pool_step root _ _ _ _ Hw Hs) as (js' & Hw' & Hle & _ & Hothers).
  assert (js' = []) as ->.
  { destruct js' as [|p js']; [done|]. exfalso. unfold work in Hle. destruct p; simpl in Hle; lia. }
  split; [done|]. apply quiet_spec in Hquiet as [Hq Hc]. apply quiet_spec. split; [by apply no_jobs_queue|].
  intros j t' Ht'. destruct (decide (j = s n)) as [->|Hne].
  - destruct (w_threads (e n) !! s n) as [t|] eqn:Ht; [|by destruct Hs as [He _]; unfold enabled in He; rewrite Ht in He].
    destruct (step_calm (s n) (e n) t (e (S n)) Ht) as (t0 & Ht0 & H0);
      [done|intros ft; by apply (empty_dispatch (s n) (e n) t ft)|apply Hs|by eapply Hc|].
    rewrite Ht' in Ht0. by injection Ht0 as ->.
  - assert (is_Some (w_threads (e n) !! j)) as [t Ht].
    { apply lookup_lt_is_Some_2. rewrite <- steps_length_next. by eapply lookup_lt_Some. }
    destruct (Hothers j t Hne Ht) as [Ht1 _]. rewrite Ht' in Ht1. injection Ht1 as ->. by eapply Hc.
Qed.

Lemma quiet_later n m : n <= m -> pool (e n) [] -> quiet (e n) = true -> pool (e m) [] /\ quiet (e m) = true.
Proof using Hfair Hcounts. induction 1; [done|]. intros. apply quiet_next; tauto. Qed.

Lemma becomes_quiet n js : pool (e n) js -> exists m, n <= m /\ pool (e m) [] /\ quiet (e m) = true.
Proof using Hfair Hun Hcounts.
  intros Hw. destruct (calms_down n js Hw) as (m & js' & Hm & Hw' & Hcalm).
  assert (quiet (e m) = true) as Hq by by apply quiet_spec.
  exists m. split; [done|]. split; [|done]. by rewrite <- (quiet_no_jobs unpinned true root (e m) js' Hw' Hq).
Qed.

(** ** The threads leave *)

Section leaving.
Context (N : nat) (Hpool : pool (e N) []) (Hquiet : quiet (e N) = true).
Context (Hflags : forall n, m_autoStop (w_sched (e n)) = Some true /\ m_stopping (w_sched (e n)) = Some true).

Lemma stopping_holds n : N <= n -> stopping_cond (w_sched (e n)) = true.
Proof using Hfair Hcounts Hpool Hquiet Hflags.
  intros Hn. destruct (quiet_later N n Hn Hpool Hquiet) as [_ [Hq Hc]%quiet_spec]. destruct (Hflags n) as [H1 H2].
  apply idle_stopping; [done|done|done|done|]. intros j t Ht%Hc. by destruct (th_pc t) as [| | |? []| | | | | |].
Qed.

Lemma leaving_in_run k h t : leaving (S k) h t -> th_pc t <> PcOutside /\ th_pc t <> PcDone.
Proof using Type. destruct k as [|[|[|[|[|k]]]]]; simpl; [..|done]; intros [-> _]; done. Qed.

Definition goes i n : Prop := exists m t, n <= m /\ w_threads (e m) !! i = Some t /\ gone t = true.

Lemma leaves_fair i k : forall n t,
  N <= n -> w_threads (e n) !! i = Some t -> leaving k (w_heap (e n)) t -> goes i n.
Proof using Hfair Hcounts Hpool Hquiet Hflags.
  induction k as [|k IH]; intros n t Hn Ht Hl.
  { exists n, t. split; [done|]. split; [done|]. unfold gone. by rewrite Hl. }
  destruct (quiet_later N n Hn Hpool Hquiet) as [Hw _]. destruct (leaving_in_run _ _ _ Hl) as [H1 H2].
  destruct (own_step i n [] t Hw Ht H1 H2) as (m & js' & Hm & Hw' & _ & Ht' & Hv & _ & Hs).
  destruct (leaving_step root (e m) js' i t (e (S m)) k Hw' Ht') as (t' & Ht2 & Hl');
    [apply stopping_holds; lia|by eapply leaving_view|done|].
  destruct (IH (S m) t') as (m' & t'' & Hm' & Hrest); [lia|done|done|]. exists m', t''. split; [lia|done].
Qed.

(** A thread that finds nothing goes. *)
Lemma nothing_found_goes i n t ft :
  N <= n -> w_threads (e n) !! i = Some t -> th_pc t = PcDispatch ft false -> goes i n.
Proof using Hfair Hcounts Hpool Hquiet Hflags.
  intros Hn Ht Hpc. pose proof (empty_dispatch i (e n) t ft (Hcounts n) Ht Hpc) as ->.
  destruct (quiet_later N n Hn Hpool Hquiet) as [Hw _].
  assert (th_pc t <> PcOutside /\ th_pc t <> PcDone) as [H1 H2] by (by rewrite Hpc).
  destruct (own_step i n [] t Hw Ht H1 H2) as (m & js' & Hm & Hw' & _ & Ht' & _ & _ & Hs).
  destruct (no_task_leaves root (e m) js' i t (e (S m)) Hw' Ht' Hpc Hs) as (t' & k & Ht2 & Hl).
  destruct (leaves_fair i k (S m) t') as (m' & t'' & Hm' & Hrest); [lia|done|done|]. exists m', t''. split; [lia|done].
Qed.

Lemma every_thread_goes i n t : N <= n -> w_threads (e n) !! i = Some t -> goes i n.
Proof using Hfair Hcounts Hpool Hquiet Hflags.
  intros Hn Ht. destruct (busy t) eqn:Hb.
  - destruct (quiet_later N n Hn Hpool Hquiet) as [Hw _].
    destruct (comes_to_empty i _ n [] t (Nat.lt_succ_diag_r _) Hw Ht Hb)
      as (m & js' & t' & Hm & Hw' & _ & Ht' & Hpc & _ & Hs).
    destruct (top_step root (e m) js' i t' (e (S m)) Hw' Ht' Hpc (proj2 Hs))
      as (t2 & Ht2 & [(ft & Hpc2 & _) | [Hpc2 _]]).
    + destruct (quiet_later N (S m)) as [_ [_ Hc]%quiet_spec]; [lia|done|done|].
      specialize (Hc i t2 Ht2). by rewrite Hpc2 in Hc.
    + destruct (nothing_found_goes i (S m) t2 ft_empty) as (m' & t'' & Hm' & Hrest); [lia|done|done|].
      exists m', t''. split; [lia|done].
  - unfold busy in Hb. destruct (th_pc t) as [| | |ft []| | | | | |] eqn:Hpc; try done;
      [exists n, t|by eapply nothing_found_goes|exists n, t]; unfold gone; by rewrite Hpc.
Qed.

Lemma gone_disabled i n t :
  N <= n -> w_threads (e n) !! i = Some t -> gone t = true -> enabled i (e n) = false.
Proof using Hfair Hcounts Hpool Hquiet.
  intros Hn Ht Hg. destruct (quiet_later N n Hn Hpool Hquiet) as [Hw _].
  destruct (enabled i (e n)) eqn:He; [|done].
  destruct (enabled_place root i (e n) [] t Hw He Ht) as [Hb | [ft Hpc]]; unfold busy, gone in *;
    [by destruct (th_pc t)|by rewrite Hpc in Hg].
Qed.

Lemma gone_stays i n m t :
  N <= n -> n <= m -> w_threads (e n) !! i = Some t -> gone t = true -> w_threads (e m) !! i = Some t.
Proof using Hfair Hcounts Hpool Hquiet.
  intros Hn Hm Ht Hg. induction Hm as [|m Hm IH]; [done|]. pose proof (fair_step _ _ Hfair m) as Hs.
  destruct (quiet_later N m) as [Hw _]; [lia|done|done|].
  destruct (decide (i = s m)) as [->|Hne].
  - rewrite (gone_disabled (s m) m t) in Hs by (done || lia). by rewrite Hs.
  - destruct (next_pool m [] Hw) as (_ & _ & _ & Hothers). by apply Hothers.
Qed.

Definition all_gone (k m : nat) : Prop := forall j t, j < k -> w_threads (e m) !! j = Some t -> gone t = true.

Lemma all_go k : exists m, N <= m /\ all_gone k m.
Proof using Hfair Hcounts Hpool Hquiet Hflags.
  induction k as [|k (m & Hm & Hk)]; [by exists N; split; [|intros j t Hj; lia]|].
  destruct (w_threads (e m) !! k) as [t|] eqn:Ht.
  - destruct (every_thread_goes k m t Hm Ht) as (m' & t' & Hm' & Ht' & Hg). exists m'. split; [lia|].
    intros j tj Hj Htj. destruct (decide (j = k)) as [->|Hne]; [congruence|].
    assert (is_Some (w_threads (e m) !! j)) as [t0 Ht0].
    { apply lookup_lt_is_Some_2. pose proof (lookup_lt_Some _ _ _ Ht). lia. }
    assert (gone t0 = true) as Hg0 by (by apply (Hk j); [lia|]).
    rewrite (gone_stays j m m' t0) in Htj by done. by injection Htj as <-.
  - exists m. split; [done|]. intros j t Hj Htj. apply (Hk j t); [|done].
    pose proof (lookup_lt_Some _ _ _ Htj). apply lookup_ge_None in Ht. lia.
Qed.

(** From some moment on every thread is gone and nothing happens. *)
Lemma comes_to_rest :
  exists m, N <= m /\ (forall j t, w_threads (e m) !! j = Some t -> gone t = true) /\ forall m', m <= m' -> e m' = e m.
Proof using Hfair Hcounts Hpool Hquiet Hflags.
  assert (forall m, length (w_threads (e m)) = length (w_threads (e 0))) as Hlen.
  { induction m as [|m IH]; [done|]. by rewrite steps_length_next. }
  destruct (all_go (length (w_threads (e 0)))) as (m & Hm & Hg).
  assert (forall j t, w_threads (e m) !! j = Some t -> gone t = true) as Hall.
  { intros j t Ht. apply (Hg j t); [|done]. rewrite <- (Hlen m). by eapply lookup_lt_Some. }
  exists m. split; [done|]. split; [done|]. induction 1 as [|m' Hm' IH]; [done|].
  pose proof (fair_step _ _ Hfair m') as Hs.
  assert (enabled (s m') (e m') = false) as He; [|rewrite He in Hs; by rewrite Hs].
  destruct (w_threads (e m') !! s m') as [t|] eqn:Ht; [|unfold enabled; by rewrite Ht].
  apply (gone_disabled _ _ t); [lia|done|]. rewrite IH in Ht. by eapply Hall.
Qed.
End leaving.
End fair.

(** ** Stopping pools *)

(** The execution from [w] in which the threads have their turns as [s] says. *)
Fixpoint execution (w : world) (s : nat -> nat) (n : nat) : world :=
  match n with
  | 0 => w
  | S n => let v := execution w s n in if enabled (s n) v then snd (thread_step (s n) v) else v
  end.

Section stopping.
Context (tid n : Z) (c : bool) (name : str) (g2 : bool) (tids : list Z) (w0 : world) (sub : list prog).
Context (Hl : launch tid n c name true g2 tids = (Ret tt, w0)).
Context (Hids : Forall (fun id => (0 <= id)%Z) (tid :: tids)) (Hnd : NoDup (tid :: tids)).

(** The next step of a thread returns, with the pool as it should be. *)
Lemma stopped_run_next i w :
  stopped_run w0 sub w -> enabled i w = true ->
  thread_step i w = (Ret tt, snd (thread_step i w)) /\ stopped_run w0 sub (snd (thread_step i w)).
Proof using Hl Hids Hnd.
  intros Hr He. destruct (pool_run_pool _ _ _ _ _ _ _ Hl Hids Hnd sub w (stopped_pool_run w0 sub w Hr)) as (js & Hw & _).
  destruct (implements_step unpinned true _ eq_refl w js i Hw He) as (w' & _ & Hs & _).
  rewrite Hs. simpl. split; [done|]. by apply (stopped_step w0 sub w i).
Qed.

Lemma stopped_throughout e s : stopped_run w0 sub (e 0) -> fair_execution e s -> forall m, stopped_run w0 sub (e m).
Proof using Type.
  intros H0 Hfair m. induction m as [|m IH]; [done|]. pose proof (fair_step _ _ Hfair m) as Hs.
  destruct (enabled (s m) (e m)) eqn:He; [by apply (stopped_step w0 sub (e m) (s m))|by rewrite Hs].
Qed.

(** Every fair order of turns gives a fair execution: no step goes wrong. *)
Lemma execution_fair w s :
  stopped_run w0 sub w -> (forall i m, i < length (w_threads w) -> exists m', m <= m' /\ s m' = i) ->
  fair_execution (execution w s) s.
Proof using Hl Hids Hnd.
  intros Hw Hturns.
  assert (forall m, stopped_run w0 sub (execution w s m) /\ length (w_threads (execution w s m)) = length (w_threads w)) as H.
  { induction m as [|m [IH Hlen]]; [done|]. simpl. destruct (enabled (s m) (execution w s m)) eqn:He; [|done].
    destruct (stopped_run_next (s m) _ IH He) as [Hs Hr]. split; [done|]. rewrite <- Hlen.
    apply steps_length. eapply rtc_once. by exists (s m). }
  constructor.
  - intros m. destruct (H m) as [Hr _]. simpl. destruct (enabled (s m) (execution w s m)) eqn:He; [|done].
    by apply stopped_run_next.
  - intros i m. rewrite (proj2 (H m)). apply Hturns.
Qed.
End stopping.

(** C4.  A stopping pool of plain tasks finishes.  The executions are those of a
    scheduler whose derived class sets [m_stopping] to true before [start], which gets
    at least as many thread ids as it makes threads, all of them different from each
    other and from the creator's; whose tasks are plain and pinned to no thread; on
    which [stop] has been called once and has returned, gone on to the joins, or
    switched to the root fiber; and which gets no task from outside since [stop] told
    it to stop.  With or without the creator, with any number of threads: whatever the
    threads have done so far, and in whatever order the operating system lets them go
    on, if only it lets each of them step again and again, there is a moment from
    which on nothing happens any more; then the queue is empty, every thread of the
    pool has returned from [run] and the creator is not on its root fiber (so that
    [stop] goes on to the joins, and these return), and exactly the effects of all
    tasks have happened, each once.  For tasks that are pinned, or that switch
    schedulers, it need not be so: see [pinned_to_nobody_never_runs],
    [worker_leaves_early] and [switchTo_enters_twice]. *)
Theorem fair_pool_finishes tid n use_caller name g2 tids w0 sub e s :
  launch tid n use_caller name true g2 tids = (Ret tt, w0) ->
  Forall (fun id => (0 <= id)%Z) (tid :: tids) -> NoDup (tid :: tids) ->
  ((if use_caller then n - 1 else n) <= Z.of_nat (length tids))%Z ->
  stopped_run w0 sub (e 0) -> fair_execution e s ->
  exists m, (forall m', m <= m' -> e m' = e m) /\ m_fibers (w_sched (e m)) = [] /\
    joined (m_threads (w_sched (e m))) (e m) = true /\
    (forall j t, w_threads (e m) !! j = Some t -> th_pc t = PcDone \/ th_pc t = PcOutside) /\
    snd <$> w_log (e m) ≡ₚ concat (effects <$> sub).
Proof.
  intros Hl Hids Hnd Hlen H0 Hfair.
  pose proof (stopped_throughout w0 sub e s H0 Hfair) as Hr.
  pose proof (fun m => stopped_pool_run w0 sub (e m) (Hr m)) as Hpool.
  pose proof (fun m => stopped_unstranded _ _ _ _ _ _ _ Hl Hids Hnd Hlen sub (e m) (Hr m)) as Hun.
  pose proof (fun m => pool_counts _ _ (pool_run_ok _ _ _ _ _ _ _ Hl Hlen sub (e m) (Hpool m))) as Hcounts.
  destruct (pool_run_pool _ _ _ _ _ _ _ Hl Hids Hnd sub (e 0) (Hpool 0)) as (js & Hw & _).
  destruct (becomes_quiet _ e s Hfair Hun Hcounts 0 js Hw) as (N & _ & HN & Hquiet).
  destruct (comes_to_rest _ e s Hfair Hcounts N HN Hquiet (fun m => stopped_flags w0 sub (e m) (Hr m)))
    as (m & Hm & Hgone & Hrest).
  destruct (quiet_later _ e s Hfair Hcounts N m Hm HN Hquiet) as [_ [Hq _]%quiet_spec].
  exists m. split; [done|]. split; [done|]. by apply (gone_finished _ _ _ _ _ _ _ Hl Hids Hnd Hlen).
Qed.

Lemma alternate_fair i m : i < 2 -> exists m', m <= m' /\ m' mod 2 = i.
Proof.
  intros Hi. exists (2 * m + i). split; [lia|]. rewrite Nat.add_comm, Nat.mul_comm, Nat.Div0.mod_add.
  by apply Nat.mod_small.
Qed.

(** The sample in which the creator and one thread share the work; from where [stop]
    has entered the root fiber on, the two take turns. *)
Lemma fair_pool_finishes_witness :
  exists m, joined [1] (execution sample_caller (fun k => k mod 2) m) = true /\
    snd <$> w_log (execution sample_caller (fun k => k mod 2) m) ≡ₚ [1; 2; 3].
Proof.
  pose proof sample_stopped as Hr.
  set (e := execution sample_caller (fun k => k mod 2)).
  assert (launch 0 2 true $"test" true false [1%Z; 2%Z] = (Ret tt, sample_pool true)) as Hl by by vm_compute.
  assert (Forall (fun id => (0 <= id)%Z) [0%Z; 1%Z; 2%Z]) as Hids by by repeat constructor.
  assert (NoDup [0%Z; 1%Z; 2%Z]) as Hnd by by apply (bool_decide_unpack _).
  assert (fair_execution e (fun k => k mod 2)) as Hfair.
  { apply (execution_fair _ _ _ _ _ _ _ _ Hl Hids Hnd _ _ Hr). intros i m Hi. by apply alternate_fair. }
  destruct (fair_pool_finishes 0 2 true $"test" false [1%Z; 2%Z] (sample_pool true) [sample_task] e (fun k => k mod 2))
    as (m & _ & _ & Hj & _ & Hlog); [exact Hl|exact Hids|exact Hnd|done|exact Hr|exact Hfair|].
  exists m. split; [|exact Hlog].
  pose proof (stopped_pool_run _ _ _ (stopped_throughout _ _ e _ Hr Hfair m)) as Hpool.
  assert (2 - 1 <= Z.of_nat (length [1%Z; 2%Z]))%Z as Hlen by done.
  by rewrite (pool_threads _ _ (pool_run_ok _ _ true _ _ _ _ Hl Hlen _ _ Hpool)) in Hj.
Defined.
