(* ===== verification/Schedulers.v ===== *)
(** * Several schedulers in one process (scheduler.h, scheduler.cc)

    A process with any number of schedulers: each thread has its [t_scheduler], and the
    scheduler whose [run] it executes.  An operation of Scheduler.v takes place in the
    view of its scheduler ([view]), in which the threads of the others are outside [run],
    and what it did there is put back ([put_back]).  [switchTo] and [SchedulerSwitcher]
    take a fiber from one scheduler to another. *)
From stdpp Require Import base gmap list strings.
From Stdlib Require Import Ascii.
From S2P Require Import Prelude Fiber Scheduler SchedulerSteps SchedulerDrains.

(** ** Data *)

(** A thread: as in Scheduler.v, with what [t_scheduler] points to and the scheduler
    whose [run] it executes, or executed last. *)
Record pthread := mkPthread {
  pt_id : Z;
  pt_tls : tls;
  pt_scheduler : option nat;
  pt_run : option nat;
  pt_pc : pc;
  pt_idle : option nat;
  pt_func : option nat
}.

Record process := mkProcess {
  pr_heap : fworld;
  pr_scheds : list Scheduler;
  pr_threads : list pthread;
  pr_tickles : nat;
  pr_log : list (nat * nat)
}.

(** ** The view of one scheduler *)
Definition view_thr (k : nat) (t : pthread) : thr :=
  mkThr (pt_id t) (pt_tls t) (bool_decide (pt_scheduler t = Some k))
    (if decide (pt_run t = Some k) then pt_pc t else PcOutside) (pt_idle t) (pt_func t).

Definition view (k : nat) (s : Scheduler) (p : process) : world :=
  mkWorld (pr_heap p) s (view_thr k <$> pr_threads p) (pr_tickles p) (pr_log p).

Definition put_thr (k : nat) (t : pthread) (x : thr) : pthread :=
  mkPthread (th_id x) (th_tls x)
    (if th_scheduler x then Some k else if decide (pt_scheduler t = Some k) then None else pt_scheduler t)
    (pt_run t) (if decide (pt_run t = Some k) then th_pc x else pt_pc t) (th_idle x) (th_func x).

(** A thread that [start] has made executes [run] of the scheduler. *)
Definition made_thr (k : nat) (x : thr) : pthread :=
  mkPthread (th_id x) (th_tls x) (if th_scheduler x then Some k else None) (Some k) (th_pc x) (th_idle x) (th_func x).

Fixpoint put_threads (k : nat) (ts : list pthread) (xs : list thr) : list pthread :=
  match ts, xs with
  | t :: ts', x :: xs' => put_thr k t x :: put_threads k ts' xs'
  | [], _ => made_thr k <$> xs
  | _, [] => []
  end.

Definition put_back (k : nat) (w : world) (p : process) : process :=
  mkProcess (w_heap w) (<[k := w_sched w]> (pr_scheds p)) (put_threads k (pr_threads p) (w_threads w))
    (w_tickles w) (w_log w).

(** An operation of the scheduler [k]. *)
Definition on_scheduler {A} (k : nat) (m : M world A) : M process A := fun p =>
  match pr_scheds p !! k with
  | None => (UB $"no such scheduler", p)
  | Some s => let '(r, w) := m (view k s p) in (r, put_back k w p)
  end.

Definition get_pthread (i : nat) : M process pthread := fun p =>
  match pr_threads p !! i with
  | Some t => (Ret t, p)
  | None => (UB $"no such thread", p)
  end.

(** ** The operations *)

(** [Scheduler::GetThis()] on thread [i]. *)
Definition Scheduler_GetThis (i : nat) : M process (option nat) := t ← get_pthread i; mret (pt_scheduler t).

(** [this->setThis()]. *)
Definition setThis (i k : nat) : M process unit := on_scheduler k (mod_thr i (put_scheduler true)).

(** The thread [i] is to execute [run] of [k], or code of [k] that may enter it. *)
Definition set_run (i k : nat) : M process unit :=
  t ← get_pthread i;
  modify (fun p => mkProcess (pr_heap p) (pr_scheds p)
    (<[i := mkPthread (pt_id t) (pt_tls t) (pt_scheduler t) (Some k) PcOutside (pt_idle t) (pt_func t)]> (pr_threads p))
    (pr_tickles p) (pr_log p)).

Definition no_scheduler : Scheduler := mkScheduler [] [] None [] [] 0 0 0 None None 0.

(** The constructor, called on thread [i]; it answers the new scheduler. *)
Definition construct_on (i : nat) (threads : Z) (use_caller : bool) (name : str) : M process nat :=
  assert_that (Z.ltb 0 threads) $"threads > 0";;
  this ← Scheduler_GetThis i;
  (if use_caller then assert_that (bool_decide (this = None)) $"GetThis() == nullptr" else mret tt);;
  p ← get;
  let k := length (pr_scheds p) in
  modify (fun p => mkProcess (pr_heap p) (pr_scheds p ++ [no_scheduler]) (pr_threads p) (pr_tickles p) (pr_log p));;
  set_run i k;;
  on_scheduler k (construct i threads use_caller name);;
  mret k.

(** The second part of [stop], on thread [i], which may enter the root fiber. *)
Definition stop_call_on (k i : nat) : M process unit :=
  set_run i k;;
  on_scheduler k (stop_call i).

(** [k->switchTo(thread)] on thread [i]: whether the fiber has to yield. *)
Definition switchTo_on (k i : nat) (thread : Z) : M process bool :=
  this ← Scheduler_GetThis i;
  assert_that (bool_decide (this <> None)) $"Scheduler::GetThis() != nullptr";;
  t ← get_pthread i;
  if bool_decide (this = Some k) && (Z.eqb thread (-1) || Z.eqb thread (pt_id t)) then mret false
  else
    on_scheduler k (f ← on_thread i GetThis; schedule_fiber f thread);;
    mret true.

(** [SchedulerSwitcher::SchedulerSwitcher(target)] up to the [YieldToHold] that may end
    its [switchTo]: [m_caller], and whether the fiber has to yield.  The whole constructor,
    with the yield, is [enter_scope]. *)
Definition SchedulerSwitcher (i : nat) (target : option nat) : M process (option nat * bool) :=
  m_caller ← Scheduler_GetThis i;
  match target with
  | Some k => b ← switchTo_on k i (-1); mret (m_caller, b)
  | None => mret (m_caller, false)
  end.

(** [SchedulerSwitcher::~SchedulerSwitcher()] up to the yield; the whole is [leave_scope]. *)
Definition destroy_switcher (i : nat) (m_caller : option nat) : M process bool :=
  match m_caller with Some k => switchTo_on k i (-1) | None => mret false end.

(** The code on fiber [f], which thread [i] executes for the scheduler [r], makes such a
    call and goes on with [k]: it yields to HOLD if it has to. *)
Definition after_switch (r i f : nat) (entry : Entry) (cur : nat) (k : prog) (yields : bool) : M process unit :=
  on_scheduler r (continue_with i f entry cur (FUser (if yields then PYieldToHold k else k))).

Definition enter_scope (r i f : nat) (entry : Entry) (cur : nat) (target : option nat) (k : prog)
    : M process (option nat) :=
  c ← SchedulerSwitcher i target;
  after_switch r i f entry cur k (snd c);;
  mret (fst c).

Definition leave_scope (r i f : nat) (entry : Entry) (cur : nat) (m_caller : option nat) (k : prog)
    : M process unit :=
  b ← destroy_switcher i m_caller;
  after_switch r i f entry cur k b.

(** ** Executions *)

(** The code of a user that thread [i] executes on a fiber, for the scheduler [r]. *)
Definition user_code (p : process) (i r f : nat) (entry : Entry) (cur : nat) (k : prog) : Prop :=
  exists t x, pr_threads p !! i = Some t /\ pt_run t = Some r /\ cur_flow (pt_tls t) = OnFiber f /\
    pt_pc t <> PcOutside /\
    fibers (pr_heap p) !! f = Some x /\ stk x = Some (CBody entry cur (FUser k)).

(** A thread outside [run]. *)
Definition is_outside (p : process) (i : nat) : Prop :=
  exists t, pr_threads p !! i = Some t /\ (pt_pc t = PcOutside \/ pt_pc t = PcDone).

(** Code outside [run] makes, starts, stops and destroys schedulers and gives them
    tasks; a thread takes its next step in [run] of its scheduler or in the code on a
    fiber; code on a fiber enters or leaves the scope of a [SchedulerSwitcher]. *)
Inductive process_step : process -> process -> Prop :=
| step_construct p i threads use_caller name k p' :
    is_outside p i -> construct_on i threads use_caller name p = (Ret k, p') -> process_step p p'
| step_assign p k a b p' : on_scheduler k (assign_flags a b) p = (Ret tt, p') -> process_step p p'
| step_start_on p k tids p' : on_scheduler k (start tids) p = (Ret tt, p') -> process_step p p'
| step_thread p i k s t p' :
    pr_threads p !! i = Some t -> pt_run t = Some k -> pr_scheds p !! k = Some s ->
    enabled i (view k s p) = true -> on_scheduler k (thread_step i) p = (Ret tt, p') -> process_step p p'
| step_schedule_on p k fn thread p' : on_scheduler k (schedule_func fn thread) p = (Ret tt, p') -> process_step p p'
| step_stop p k i b p' : is_outside p i -> on_scheduler k (stop_flags i) p = (Ret b, p') -> process_step p p'
| step_stop_call p k i p' : is_outside p i -> stop_call_on k i p = (Ret tt, p') -> process_step p p'
| step_stop_swap p k ts p' : on_scheduler k stop_swap p = (Ret ts, p') -> process_step p p'
| step_destroy p k i p' : is_outside p i -> on_scheduler k (destruct_scheduler i) p = (Ret tt, p') -> process_step p p'
| step_enter p i r f entry cur target k c p' :
    user_code p i r f entry cur k -> enter_scope r i f entry cur target k p = (Ret c, p') -> process_step p p'
| step_leave p i r f entry cur m_caller k p' :
    user_code p i r f entry cur k -> leave_scope r i f entry cur m_caller k p = (Ret tt, p') -> process_step p p'.

Definition process_steps : process -> process -> Prop := rtc process_step.

(** The process as it starts: one thread. *)
Definition initial_process (tid : Z) : process :=
  mkProcess (empty_fworld 131072 (empty_tls 0)) [] [mkPthread tid (empty_tls 0) None None PcOutside None None] 0 [].

(** ** Places and [t_scheduler] *)

(** Past the start of [run] and not out of it. *)
Definition in_loop (c : pc) : bool := match c with PcOutside | PcStart | PcDone => false | _ => true end.

Definition seat_of (t : thr) : pc * bool := (th_pc t, th_scheduler t).

(** [P] holds of place and pointer of thread [i]. *)
Definition at_seat (P : pc * bool -> Prop) (i : nat) (w : world) : Prop :=
  forall t, w_threads w !! i = Some t -> P (seat_of t).

Section seats.
Context (P : pc * bool -> Prop) (i : nat).

Lemma seat_get_thr j : keeps (at_seat P i) (get_thr j).
Proof. intros w a w' Hw. unfold get_thr. case_match; by intros [= _ <-]. Qed.

Lemma seat_mod_sched g : keeps (at_seat P i) (mod_sched g).
Proof. apply keeps_modify. intros w Hw. exact Hw. Qed.

Lemma seat_tickle_if b : keeps (at_seat P i) (tickle_if b).
Proof. destruct b; [|apply keeps_ret]. apply keeps_modify. intros w Hw. exact Hw. Qed.

Lemma seat_emit n : keeps (at_seat P i) (emit i n).
Proof. apply keeps_modify. intros w Hw. exact Hw. Qed.

Lemma seat_on_thread {A} (m : M fworld A) : keeps (at_seat P i) (on_thread i m).
Proof.
  intros w a w' Hw. unfold on_thread. destruct (w_threads w !! i) as [t|] eqn:Ht; [|done].
  destruct (m _) as [r h]. intros [= _ <-] t'. simpl. intros Ht'.
  rewrite list_lookup_insert_eq in Ht' by (by eapply lookup_lt_Some). injection Ht' as <-. by apply (Hw t).
Qed.

Lemma seat_mod_thr g : (forall t, P (seat_of t) -> P (seat_of (g t))) -> keeps (at_seat P i) (mod_thr i g).
Proof.
  intros Hg w a w' Hw. unfold mod_thr, get_thr. unfold_M. destruct (w_threads w !! i) as [t|] eqn:Ht; [|done].
  simpl. intros [= _ <-] t'. simpl. rewrite list_lookup_insert_eq by (by eapply lookup_lt_Some).
  intros [= <-]. apply Hg, Hw, Ht.
Qed.

(** Goes through the statements of a definition. *)
Ltac seated := repeat
  (cbv zeta;
   lazymatch goal with
   | |- keeps _ (_ ≫= _) => apply keeps_bind; [|intros ?]
   | |- keeps _ (match ?x with _ => _ end) => destruct x
   | |- keeps _ (mod_sched _) => apply seat_mod_sched
   | |- keeps _ (mod_thr _ _) => apply seat_mod_thr; by intros []
   | |- keeps _ (on_thread _ _) => apply seat_on_thread
   | |- keeps _ (get_thr _) => apply seat_get_thr
   | |- keeps _ sched => apply keeps_bind; [apply keeps_get|intros ?; apply keeps_ret]
   | |- keeps _ (read_flag _) => unfold read_flag
   | |- keeps _ tickle => apply (seat_tickle_if true)
   | |- keeps _ (tickle_if _) => apply seat_tickle_if
   | |- keeps _ (emit _ _) => apply seat_emit
   | |- keeps _ _ => first [apply keeps_ret | apply keeps_get | apply keeps_lift]
   end).

Lemma seat_schedule ft : keeps (at_seat P i) (schedule ft).
Proof. unfold schedule, scheduleNonLock. seated. Qed.

Lemma seat_user_step f entry cur p : keeps (at_seat P i) (user_step i f entry cur p).
Proof.
  destruct p; unfold user_step, user_yield, continue_with, switchTo, schedule_func, schedule_fiber;
    seated; apply seat_schedule.
Qed.

Lemma seat_idle_step f entry cur : keeps (at_seat P i) (idle_step i f entry cur).
Proof. unfold idle_step, stopping. seated. Qed.
End seats.

(** In the loop [t_scheduler] points to the scheduler. *)
Definition settled_seat (x : pc * bool) : Prop := in_loop (fst x) = true -> snd x = true.

Lemma run_loop_seat i (m : M world unit) :
  keeps (at_seat (fun x => snd x = true) i) m -> forall w w', at_seat (fun x => snd x = true) i w ->
  m w = (Ret tt, w') -> at_seat settled_seat i w'.
Proof. intros Hm w w' Hw H t Ht _. exact (Hm w tt w' Hw H t Ht). Qed.

Ltac seated := repeat
  (cbv zeta;
   lazymatch goal with
   | |- keeps _ (_ ≫= _) => apply keeps_bind; [|intros ?]
   | |- keeps _ (match ?x with _ => _ end) => destruct x
   | |- keeps _ (mod_sched _) => apply seat_mod_sched
   | |- keeps _ (mod_thr _ _) => apply seat_mod_thr; by intros []
   | |- keeps _ (on_thread _ _) => apply seat_on_thread
   | |- keeps _ (get_thr _) => apply seat_get_thr
   | |- keeps _ sched => apply keeps_bind; [apply keeps_get|intros ?; apply keeps_ret]
   | |- keeps _ (read_flag _) => unfold read_flag
   | |- keeps _ tickle => apply (seat_tickle_if _ _ true)
   | |- keeps _ (tickle_if _) => apply seat_tickle_if
   | |- keeps _ (emit _ _) => apply seat_emit
   | |- keeps _ (schedule _) => apply seat_schedule
   | |- keeps _ _ => first [apply keeps_ret | apply keeps_get | apply keeps_lift]
   end).

Lemma run_step_seat i w w' :
  at_seat settled_seat i w -> run_step i w = (Ret tt, w') -> at_seat settled_seat i w'.
Proof.
  intros Hs H. unfold run_step in H. destruct (w_threads w !! i) as [t|] eqn:Ht; [|by apply get_thr_None in H].
  rewrite (get_thr_bind _ t) in H by done. pose proof (Hs t Ht) as Hseat. unfold settled_seat, seat_of in Hseat. simpl in Hseat.
  assert (in_loop (th_pc t) = true -> at_seat (fun x => snd x = true) i w) as Hin.
  { intros Hp t' Ht'. rewrite Ht in Ht'. injection Ht' as <-. by apply Hseat. }
  destruct (th_pc t); try done.
  - unfold run_start in H. apply bind_inv in H as ([] & w1 & H1 & H).
    eapply (run_loop_seat i _); [|..|exact H].
    + unfold put_idle. seated.
    + intros t1 Ht1. unfold mod_thr, get_thr in H1. revert H1. unfold_M. rewrite Ht. simpl. intros [= <-].
      simpl in Ht1. rewrite list_lookup_insert_eq in Ht1 by (by eapply lookup_lt_Some). by injection Ht1 as <-.
  - eapply (run_loop_seat i (run_take i)); [unfold run_take, add_active; seated|by apply Hin|exact H].
  - eapply (run_loop_seat i (run_dispatch i ft is_active)); [|by apply Hin|exact H].
    unfold run_dispatch, run_func, run_no_task, run_finish, add_active, add_idle. seated.
  - eapply run_loop_seat; [|by apply Hin|exact H]. unfold add_active. seated.
  - eapply (run_loop_seat i (run_after_fiber i f)); [|by apply Hin|exact H].
    unfold run_after_fiber, schedule_fiber. seated.
  - eapply run_loop_seat; [|by apply Hin|exact H]. unfold add_active. seated.
  - eapply (run_loop_seat i (run_after_func i)); [|by apply Hin|exact H].
    unfold run_after_func, schedule_fiber. seated.
  - eapply (run_loop_seat i (run_after_idle i)); [|by apply Hin|exact H]. unfold run_after_idle, add_idle. seated.
Qed.

Lemma thread_step_seat i w w' :
  at_seat settled_seat i w -> thread_step i w = (Ret tt, w') -> at_seat settled_seat i w'.
Proof.
  intros Hs H. unfold thread_step in H. destruct (w_threads w !! i) as [t|] eqn:Ht; [|by apply get_thr_None in H].
  rewrite (get_thr_bind _ t) in H by done.
  destruct (cur_flow (th_tls t)) as [k|f]; [by eapply run_step_seat|].
  unfold fiber_step in H. apply bind_inv in H as (x & w1 & Hx & H).
  apply (seat_on_thread settled_seat i) in Hx; [|done].
  destruct (stk x) as [[entry|entry cur [p| |]|entry]|]; try done.
  - refine ((_ : keeps (at_seat settled_seat i) _) w1 tt w' Hx H). seated.
  - revert H. by apply (seat_user_step settled_seat i f entry cur p w1 tt w').
  - revert H. by apply (seat_idle_step settled_seat i f entry cur w1 tt w').
  - by eapply run_step_seat.
Qed.

(** ** The invariant *)

(** The places of the threads, as the scheduler [k] sees them. *)
Definition places_of (k : nat) (p : process) : list pc := th_pc <$> (view_thr k <$> pr_threads p).

Definition counts_of (k : nat) (s : Scheduler) (p : process) : Z * Z * list pc :=
  (m_activeThreadCount s, m_idleThreadCount s, places_of k p).

Record process_ok (p : process) : Prop := mkProcessOk {
  po_run : forall i t k, pr_threads p !! i = Some t -> pt_run t = Some k -> k < length (pr_scheds p);
  po_this : forall i t, pr_threads p !! i = Some t -> in_loop (pt_pc t) = true ->
    pt_scheduler t = pt_run t /\ is_Some (pt_run t);
  po_counts : forall k s, pr_scheds p !! k = Some s -> counts_ok (counts_of k s p)
}.

(** What an operation of the scheduler [k] may have done to its view. *)
Record view_ok (k : nat) (p : process) (w : world) : Prop := mkViewOk {
  vo_length : length (pr_threads p) <= length (w_threads w);
  vo_counts : counts_ok (counters w);
  vo_others : forall j t x, pr_threads p !! j = Some t -> w_threads w !! j = Some x -> pt_run t <> Some k ->
    th_pc x = PcOutside /\ (in_loop (pt_pc t) = true -> th_scheduler x = false);
  vo_own : forall j t x, pr_threads p !! j = Some t -> w_threads w !! j = Some x -> pt_run t = Some k ->
    settled_seat (seat_of x);
  vo_new : forall j x, pr_threads p !! j = None -> w_threads w !! j = Some x -> in_loop (th_pc x) = false
}.

Lemma put_threads_lookup k ts xs j :
  put_threads k ts xs !! j =
    match xs !! j with
    | Some x => Some (match ts !! j with Some t => put_thr k t x | None => made_thr k x end)
    | None => None
    end.
Proof.
  revert xs j. induction ts as [|t ts IH]; intros xs j; simpl.
  - rewrite list_lookup_fmap. by destruct (xs !! j).
  - destruct xs as [|x xs]; [done|]. destruct j as [|j]; [done|]. exact (IH xs j).
Qed.

(** Threads outside [run] or at its start do not count. *)
Lemma counts_append a d ps cs :
  Forall (fun c => c = PcOutside \/ c = PcStart) cs -> counts_ok (a, d, ps) -> counts_ok (a, d, ps ++ cs).
Proof.
  intros Hcs [Ha Hd He]. simpl in *.
  assert (forall P, P PcOutside = false -> P PcStart = false -> tally P (ps ++ cs) = tally P ps) as Ht.
  { intros P H1 H2. unfold tally. rewrite filter_app. assert (filter (fun c => P c = true) cs = []) as ->.
    { clear -Hcs H1 H2. induction Hcs as [|c cs Hc _ IH]; [done|]. rewrite filter_cons_False; [done|]. destruct Hc; congruence. }
    by rewrite app_nil_r. }
  constructor; simpl; [by rewrite Ht..|]. intros i ft. rewrite lookup_app. destruct (ps !! i) eqn:E.
  - intros [= ->]. by eapply He.
  - intros Hin%list_elem_of_lookup_2. rewrite Forall_forall in Hcs. by destruct (Hcs _ Hin).
Qed.

Lemma places_of_lookup k p j :
  places_of k p !! j = (fun t => if decide (pt_run t = Some k) then pt_pc t else PcOutside) <$> pr_threads p !! j.
Proof. unfold places_of. rewrite !list_lookup_fmap. by destruct (pr_threads p !! j). Qed.

Lemma length_places_of k p : length (places_of k p) = length (pr_threads p).
Proof. unfold places_of. by rewrite !length_fmap. Qed.

Lemma length_put_threads k ts xs : length ts <= length xs -> length (put_threads k ts xs) = length xs.
Proof.
  revert xs. induction ts as [|t ts IH]; intros xs Hl; simpl; [by rewrite length_fmap|].
  destruct xs as [|x xs]; simpl in *; [lia|]. f_equal. apply IH. lia.
Qed.

(** The scheduler's own view is as the operation left it. *)
Lemma own_places k p w : view_ok k p w -> places_of k (put_back k w p) = places w.
Proof.
  intros [Hlen _ Hothers _ _]. apply list_eq. intros j. rewrite places_of_lookup. simpl. rewrite put_threads_lookup.
  unfold places. rewrite list_lookup_fmap. destruct (w_threads w !! j) as [x|] eqn:Hx; [|done]. simpl. f_equal.
  destruct (pr_threads p !! j) as [t|] eqn:Ht; simpl; [|by rewrite decide_True].
  destruct (decide (pt_run t = Some k)) as [|Hne]; [done|]. symmetry. by apply (Hothers j t x).
Qed.

(** The others see at most new threads outside. *)
Lemma other_places k k' p w :
  view_ok k p w -> k' <> k ->
  exists n, places_of k' (put_back k w p) = places_of k' p ++ replicate n PcOutside.
Proof.
  intros [Hlen _ _ _ _] Hne. exists (length (w_threads w) - length (pr_threads p)).
  apply list_eq. intros j. rewrite places_of_lookup. simpl. rewrite put_threads_lookup, lookup_app, places_of_lookup.
  destruct (pr_threads p !! j) as [t|] eqn:Ht; simpl.
  - destruct (lookup_lt_is_Some_2 (w_threads w) j) as [x Hx]; [apply lookup_lt_Some in Ht; lia|]. rewrite Hx. simpl.
    f_equal. destruct (decide (pt_run t = Some k')) as [Hk'|]; [|done]. rewrite decide_False; [done|congruence].
  - apply lookup_ge_None in Ht. rewrite length_places_of. destruct (w_threads w !! j) as [x|] eqn:Hx; simpl.
    + rewrite decide_False by congruence. symmetry. apply lookup_replicate_2. apply lookup_lt_Some in Hx. lia.
    + apply lookup_ge_None in Hx. symmetry. apply lookup_ge_None_2. rewrite length_replicate. lia.
Qed.

Lemma put_back_ok k s p w :
  process_ok p -> pr_scheds p !! k = Some s -> view_ok k p w -> process_ok (put_back k w p).
Proof.
  intros [Hrun Hthis Hcounts] Hk Hv. pose proof Hv as [Hlen Hc Hothers Hown Hnew].
  assert (k < length (pr_scheds p)) as Hlt by (by eapply lookup_lt_Some).
  split.
  - intros i t' k' Ht' Hk'. simpl in *. rewrite length_insert. rewrite put_threads_lookup in Ht'.
    destruct (w_threads w !! i) as [x|]; [|done]. injection Ht' as <-.
    destruct (pr_threads p !! i) as [t|] eqn:Ht; simpl in Hk'; [by eapply Hrun|by injection Hk' as <-].
  - intros i t' Ht' Hin. simpl in *. rewrite put_threads_lookup in Ht'.
    destruct (w_threads w !! i) as [x|] eqn:Hx; [|done]. injection Ht' as <-.
    destruct (pr_threads p !! i) as [t|] eqn:Ht; simpl in *; [|by rewrite (Hnew i x) in Hin].
    destruct (decide (pt_run t = Some k)) as [Hr|Hr].
    + pose proof (Hown i t x Ht Hx Hr Hin) as Hb. simpl in Hb. rewrite Hb. by rewrite Hr.
    + destruct (Hothers i t x Ht Hx Hr) as [_ Hf]. rewrite (Hf Hin). destruct (Hthis i t Ht Hin) as [-> Hsome].
      by rewrite decide_False.
  - intros k' s' Hk'. simpl in Hk'. unfold counts_of. destruct (decide (k' = k)) as [->|Hne].
    + rewrite list_lookup_insert_eq in Hk' by done. injection Hk' as <-. rewrite (own_places k p w Hv). exact Hc.
    + rewrite list_lookup_insert_ne in Hk' by done. destruct (other_places k k' p w Hv Hne) as [n ->].
      apply counts_append; [|by apply Hcounts]. apply Forall_replicate. by left.
Qed.

(** ** Every step keeps it *)

Lemma on_scheduler_inv {A} k (m : M world A) p a p' :
  on_scheduler k m p = (Ret a, p') ->
  exists s w, pr_scheds p !! k = Some s /\ m (view k s p) = (Ret a, w) /\ p' = put_back k w p.
Proof.
  unfold on_scheduler. destruct (pr_scheds p !! k) as [s|]; [|done]. destruct (m (view k s p)) as [r w] eqn:E.
  intros [= -> <-]. by exists s, w.
Qed.

Section views.
Context (k : nat) (s : Scheduler) (p : process) (Hp : process_ok p) (Hs : pr_scheds p !! k = Some s).

Lemma view_lookup j : w_threads (view k s p) !! j = view_thr k <$> pr_threads p !! j.
Proof. simpl. apply list_lookup_fmap. Qed.

Lemma view_hidden j t : pr_threads p !! j = Some t -> pt_run t <> Some k ->
  th_pc (view_thr k t) = PcOutside /\ (in_loop (pt_pc t) = true -> th_scheduler (view_thr k t) = false).
Proof using Hp.
  intros Ht Hne. split; [by apply decide_False|]. intros Hin. destruct (po_this _ Hp j t Ht Hin) as [E _].
  simpl. apply bool_decide_eq_false. congruence.
Qed.

Lemma view_settled j t : pr_threads p !! j = Some t -> pt_run t = Some k -> settled_seat (seat_of (view_thr k t)).
Proof using Hp.
  intros Ht Hr Hin. simpl in *. rewrite decide_True in Hin by done. apply bool_decide_eq_true.
  destruct (po_this _ Hp j t Ht Hin) as [E _]. congruence.
Qed.

(** An operation that leaves the seats of all threads but [i] alone, and [i] a good one. *)
Lemma view_ok_thread i w :
  <[i := main_thr 0]> (w_threads w) = <[i := main_thr 0]> (w_threads (view k s p)) ->
  counts_ok (counters w) ->
  (forall t x, pr_threads p !! i = Some t -> w_threads w !! i = Some x ->
     (pt_run t <> Some k -> th_pc x = PcOutside /\ (in_loop (pt_pc t) = true -> th_scheduler x = false)) /\
     (pt_run t = Some k -> settled_seat (seat_of x))) ->
  view_ok k p w.
Proof using Hp.
  intros Hout Hc Hi. assert (length (w_threads w) = length (pr_threads p)) as Hlen.
  { apply (f_equal length) in Hout. rewrite !length_insert in Hout. simpl in Hout. by rewrite length_fmap in Hout. }
  assert (forall j, j <> i -> w_threads w !! j = view_thr k <$> pr_threads p !! j) as Hj.
  { intros j Hne. rewrite <- view_lookup, <- (list_lookup_insert_ne (w_threads w) i j (main_thr 0)), Hout by done.
    by rewrite list_lookup_insert_ne. }
  split; [lia|exact Hc|..].
  - intros j t x Ht Hx Hne. destruct (decide (j = i)) as [->|Hji].
    + by apply (Hi t x).
    + rewrite Hj, Ht in Hx by done. injection Hx as <-. by eapply view_hidden.
  - intros j t x Ht Hx Hr. destruct (decide (j = i)) as [->|Hji]; [by apply (Hi t x)|].
    rewrite Hj, Ht in Hx by done. injection Hx as <-. by eapply view_settled.
  - intros j x Hnone Hx. apply lookup_ge_None in Hnone. apply lookup_lt_Some in Hx. lia.
Qed.

(** All threads are where they were. *)
Lemma view_ok_same w : w_threads w = w_threads (view k s p) -> counts_ok (counters w) -> view_ok k p w.
Proof using Hp.
  intros Hw Hc. apply (view_ok_thread (length (pr_threads p))); [by rewrite Hw|exact Hc|].
  intros t x Ht. apply lookup_lt_Some in Ht. lia.
Qed.
End views.

(** What leaves places and pointers alone. *)
Lemma bystander_ok {A} k i (m : M world A) p a p' :
  within i m -> (forall P, keeps (at_seat P i) m) -> (forall c, moves c c m) ->
  process_ok p -> on_scheduler k m p = (Ret a, p') -> process_ok p'.
Proof.
  intros Hin Hseat Hmoves Hp (s & w & Hs & Hm & ->)%on_scheduler_inv. apply (put_back_ok k s); [done|done|].
  destruct (Hin _ _ _ Hm) as [Hout _]. apply (f_equal snd) in Hout. simpl in Hout.
  apply (view_ok_thread k s p Hp i); [exact Hout| |].
  - rewrite (Hmoves (counters (view k s p)) (view k s p) a w eq_refl Hm). exact (po_counts _ Hp k s Hs).
  - intros t x Ht Hx.
    assert (seat_of x = seat_of (view_thr k t)) as E.
    { apply (Hseat (fun y => y = seat_of (view_thr k t)) (view k s p) a w); [|exact Hm|exact Hx].
      intros y Hy. rewrite view_lookup, Ht in Hy. by injection Hy as <-. }
    rewrite E. unfold seat_of in E. injection E as -> ->. split; intros Hr; [by eapply view_hidden|by eapply view_settled].
Qed.

Lemma schedule_ok k fn thread p p' :
  process_ok p -> on_scheduler k (schedule_func fn thread) p = (Ret tt, p') -> process_ok p'.
Proof.
  apply (bystander_ok k 0); [apply within_schedule|intros P; apply seat_schedule|intros c; apply moves_schedule].
Qed.

Lemma thread_ok k i t p p' :
  pr_threads p !! i = Some t -> pt_run t = Some k ->
  process_ok p -> on_scheduler k (thread_step i) p = (Ret tt, p') -> process_ok p'.
Proof.
  intros Ht Hr Hp (s & w & Hs & Hm & ->)%on_scheduler_inv. apply (put_back_ok k s); [done|done|].
  destruct (within_thread_step i _ _ _ Hm) as [Hout _]. apply (f_equal snd) in Hout. simpl in Hout.
  apply (view_ok_thread k s p Hp i); [exact Hout| |].
  - eapply thread_step_keeps_counts; [|exact Hm]. exact (po_counts _ Hp k s Hs).
  - intros t' x Ht' Hx. rewrite Ht in Ht'. injection Ht' as <-. split; [done|intros _].
    eapply (thread_step_seat i); [|exact Hm|exact Hx]. intros y Hy. rewrite view_lookup, Ht in Hy.
    injection Hy as <-. by eapply view_settled.
Qed.

Lemma starts_ok k tids p p' : process_ok p -> on_scheduler k (start tids) p = (Ret tt, p') -> process_ok p'.
Proof.
  intros Hp (s & w & Hs & Hm & ->)%on_scheduler_inv. apply (put_back_ok k s); [done|done|].
  pose proof (po_counts _ Hp k s Hs) as Hc. unfold start in Hm. apply bind_inv in Hm as (s0 & w0 & [= <- <-] & Hm).
  apply bind_inv in Hm as (b & w1 & Hb & Hm). simpl in Hb.
  destruct (m_stopping s) as [b'|]; [injection Hb as -> <-|done].
  destruct b; simpl in Hm; [|injection Hm as <-; by apply (view_ok_same k s p Hp)].
  apply bind_inv in Hm as ([] & w1 & [= <-] & Hm). apply bind_inv in Hm as ([] & w1 & Ha & Hm).
  destruct (m_threads s) eqn:Hm0; simpl in Ha; [|done]. injection Ha as <-.
  match type of Hm with start_loop ?l ?w2 = _ => destruct (start_loop_spec l w2) as (ts & Hl & Hpc & _ & Hnew) end.
  rewrite Hl in Hm. injection Hm as <-. simpl.
  assert (forall j x, pr_threads p !! j = None -> ((view_thr k <$> pr_threads p) ++ ts) !! j = Some x ->
    th_pc x = PcStart) as Hstart.
  { intros j x Hj Hx. rewrite lookup_app, list_lookup_fmap, Hj in Hx. simpl in Hx. apply list_elem_of_lookup_2 in Hx.
    rewrite Forall_forall in Hnew. by destruct (Hnew x Hx) as [index ->]. }
  assert (forall j t x, pr_threads p !! j = Some t -> ((view_thr k <$> pr_threads p) ++ ts) !! j = Some x ->
    x = view_thr k t) as Hold.
  { intros j t x Hj Hx. rewrite lookup_app, list_lookup_fmap, Hj in Hx. by injection Hx as <-. }
  split; simpl.
  - rewrite length_app, length_fmap. lia.
  - unfold counters, places. simpl. rewrite fmap_app, Hpc. apply counts_append; [|exact Hc].
    apply Forall_replicate. by right.
  - intros j t x Ht Hx Hne. rewrite (Hold j t x Ht Hx). by eapply view_hidden.
  - intros j t x Ht Hx Hr. rewrite (Hold j t x Ht Hx). by eapply view_settled.
  - intros j x Hj Hx. by rewrite (Hstart j x Hj Hx).
Qed.

Lemma stop_swap_ok k ts p p' : process_ok p -> on_scheduler k stop_swap p = (Ret ts, p') -> process_ok p'.
Proof.
  intros Hp (s & w & Hs & Hm & ->)%on_scheduler_inv. apply (put_back_ok k s); [done|done|]. injection Hm as _ <-.
  apply (view_ok_same k s p Hp); [done|]. exact (po_counts _ Hp k s Hs).
Qed.

Lemma destroy_ok k i p p' :
  is_outside p i -> process_ok p -> on_scheduler k (destruct_scheduler i) p = (Ret tt, p') -> process_ok p'.
Proof.
  intros (t & Ht & Hpc) Hp (s & w & Hs & Hm & ->)%on_scheduler_inv. apply (put_back_ok k s); [done|done|].
  unfold destruct_scheduler in Hm. apply bind_inv in Hm as (s0 & w0 & [= <- <-] & Hm).
  apply bind_inv in Hm as (b & w0 & Hb & Hm). assert (w0 = view k s p) as ->.
  { unfold read_flag in Hb. simpl in Hb. by destruct (m_stopping s); injection Hb. }
  apply bind_inv in Hm as ([] & w1 & Ha & Hm). assert (w1 = view k s p) as ->.
  { unfold assert_that, lift_res in Ha. by destruct b; injection Ha. }
  rewrite (get_thr_bind i (view_thr k t)) in Hm by (by rewrite view_lookup, Ht).
  pose proof (po_counts _ Hp k s Hs) as Hc. destruct (th_scheduler (view_thr k t));
    [|injection Hm as <-; by apply (view_ok_same k s p Hp)].
  pose proof Hm as Hm'. apply (moves_mod_thr_same (counters (view k s p))) in Hm; [|done|done].
  unfold mod_thr in Hm'. rewrite (get_thr_bind i (view_thr k t)) in Hm' by (by rewrite view_lookup, Ht).
  injection Hm' as <-. apply (view_ok_thread k s p Hp i); [simpl; by rewrite list_insert_insert_eq|by rewrite Hm|].
  intros t' x Ht' Hx. rewrite Ht in Ht'. injection Ht' as <-. simpl in Hx.
  rewrite list_lookup_insert_eq in Hx by (rewrite length_fmap; by eapply lookup_lt_Some). injection Hx as <-.
  split; [intros Hne; split; [by apply decide_False|done]|intros Hr Hin]. simpl in Hin. rewrite decide_True in Hin by done.
  by destruct Hpc as [Hpc|Hpc]; rewrite Hpc in Hin.
Qed.

(** Outside, a thread may turn to another scheduler. *)
Lemma set_run_ok i k p p' :
  is_outside p i -> k < length (pr_scheds p) -> process_ok p -> set_run i k p = (Ret tt, p') ->
  process_ok p' /\ exists t, pr_threads p' !! i = Some t /\ pt_pc t = PcOutside /\ pt_run t = Some k.
Proof.
  intros (t & Ht & Hpc) Hk [Hrun Hthis Hcounts] H. unfold set_run, get_pthread in H. revert H. unfold_M. rewrite Ht.
  intros [= <-]. pose proof (lookup_lt_Some _ _ _ Ht) as Hi. simpl. split.
  - split; simpl.
    + intros j t' k' Ht'. destruct (decide (j = i)) as [->|Hne].
      * rewrite list_lookup_insert_eq in Ht' by done. injection Ht' as <-. by intros [= <-].
      * rewrite list_lookup_insert_ne in Ht' by done. by apply (Hrun j t' k').
    + intros j t' Ht'. destruct (decide (j = i)) as [->|Hne].
      * rewrite list_lookup_insert_eq in Ht' by done. by injection Ht' as <-.
      * rewrite list_lookup_insert_ne in Ht' by done. by apply (Hthis j).
    + intros k' s Hs. specialize (Hcounts k' s Hs). unfold counts_of in *.
      assert (forall q, places_of k' (mkProcess (pr_heap p) (pr_scheds p) (<[i := q]> (pr_threads p)) (pr_tickles p) (pr_log p)) =
        <[i := th_pc (view_thr k' q)]> (places_of k' p)) as E.
      { intros q. unfold places_of. simpl. by rewrite !list_fmap_insert. }
      rewrite E. eapply (counts_place (m_activeThreadCount s) (m_idleThreadCount s) _ _ _ i
        (if decide (pt_run t = Some k') then pt_pc t else PcOutside) _ Hcounts).
      * by rewrite places_of_lookup, Ht.
      * intros ft. simpl. by case_decide.
      * destruct (counts_same _ _ _ Hcounts) as [Ha _]. rewrite Ha at 1. f_equal. f_equal. simpl.
        destruct Hpc as [Hpc | Hpc]; rewrite Hpc; repeat case_decide; done.
      * destruct (counts_same _ _ _ Hcounts) as [_ Hd]. rewrite Hd at 1. f_equal. f_equal. simpl.
        destruct Hpc as [Hpc | Hpc]; rewrite Hpc; repeat case_decide; done.
  - eexists. split; [by apply list_lookup_insert_eq|done].
Qed.

Lemma assign_ok k a b p p' : process_ok p -> on_scheduler k (assign_flags a b) p = (Ret tt, p') -> process_ok p'.
Proof.
  intros Hp (s & w & Hs & Hm & ->)%on_scheduler_inv. apply (put_back_ok k s); [done|done|]. injection Hm as <-.
  apply (view_ok_same k s p Hp); [done|]. exact (po_counts _ Hp k s Hs).
Qed.

Lemma stop_ok k i b p p' :
  is_outside p i -> process_ok p -> on_scheduler k (stop_flags i) p = (Ret b, p') -> process_ok p'.
Proof.
  intros (t & Ht & _) Hp (s & w & Hs & Hm & ->)%on_scheduler_inv. apply (put_back_ok k s); [done|done|].
  pose proof (moves_stop_flags (counters (view k s p)) i _ b w eq_refl Hm) as Hc.
  destruct (stop_flags_cases i _ (view_thr k t) b w ltac:(by rewrite view_lookup, Ht) Hm) as (l & tk & -> & _).
  apply (view_ok_same k s p Hp); [done|]. rewrite Hc. exact (po_counts _ Hp k s Hs).
Qed.

Lemma stop_call_ok k i p p' :
  is_outside p i -> process_ok p -> stop_call_on k i p = (Ret tt, p') -> process_ok p'.
Proof.
  intros Hi Hp ([] & p1 & H1 & H2)%bind_inv. apply on_scheduler_inv in H2 as (s & w & Hs & Hm & ->).
  assert (pr_scheds p1 = pr_scheds p) as Hsame.
  { unfold set_run, get_pthread in H1. revert H1. unfold_M. destruct (pr_threads p !! i); [|done]. by intros [= <-]. }
  destruct (set_run_ok i k p p1 Hi) as [Hp1 (t & Ht & Hpc & Hr)]; [rewrite <- Hsame; by eapply lookup_lt_Some|done|done|].
  clear H1. apply (put_back_ok k s); [done|done|].
  assert (w_threads (view k s p1) !! i = Some (view_thr k t)) as Hv by (by rewrite view_lookup, Ht).
  assert (counts_ok (counters w)) as Hc.
  { apply (sched_step_keeps_counts (view k s p1)); [|exact (po_counts _ Hp1 k s Hs)].
    eapply sched_step_call; [exact Hv|simpl; by rewrite decide_True|exact Hm]. }
  destruct (stop_call_cases i _ _ _ Hv Hm) as [[-> _]|(r & h' & _ & _ & ->)].
  - by apply (view_ok_same k s p1 Hp1).
  - apply (view_ok_thread k s p1 Hp1 i); [simpl; by rewrite list_insert_insert_eq|exact Hc|].
    intros t' x Ht' Hx. rewrite Ht in Ht'. injection Ht' as <-. simpl in Hx.
    rewrite list_lookup_insert_eq in Hx by (rewrite length_fmap; by eapply lookup_lt_Some). injection Hx as <-. by split.
Qed.

(** *** Switching *)

Lemma GetThis_same i p r p' : Scheduler_GetThis i p = (r, p') -> p' = p.
Proof. unfold Scheduler_GetThis, get_pthread. unfold_M. destruct (pr_threads p !! i); by intros [= _ <-]. Qed.

Lemma switchTo_ok k i thread b p p' : process_ok p -> switchTo_on k i thread p = (Ret b, p') -> process_ok p'.
Proof.
  intros Hp (this & p0 & ->%GetThis_same & ([] & p1 & Ha & (t & p2 & Ht & H)%bind_inv)%bind_inv)%bind_inv.
  assert (p1 = p) as -> by (unfold assert_that, lift_res in Ha; by destruct (bool_decide _); injection Ha).
  assert (p2 = p) as -> by (unfold get_pthread in Ht; destruct (pr_threads p !! i); by injection Ht).
  destruct (_ && _); [by injection H as _ <-|]. apply bind_inv in H as ([] & p3 & H & [= _ <-]).
  revert Hp H. apply (bystander_ok k i).
  - apply within_bind; [apply within_on_thread|]. intros f. apply within_schedule.
  - intros P. apply keeps_bind; [apply seat_on_thread|]. intros f. apply seat_schedule.
  - intros c. apply (moves_bind c c c); [apply moves_on_thread|]. intros f. apply moves_schedule.
Qed.

Lemma after_switch_ok r i f entry cur k yields p p' :
  process_ok p -> after_switch r i f entry cur k yields p = (Ret tt, p') -> process_ok p'.
Proof.
  apply (bystander_ok r i); [apply within_on_thread|intros P; apply seat_on_thread|intros c; apply moves_on_thread].
Qed.

Lemma enter_ok r i f entry cur target k c p p' :
  process_ok p -> enter_scope r i f entry cur target k p = (Ret c, p') -> process_ok p'.
Proof.
  intros Hp (d & p1 & H1 & ([] & p2 & H2 & [= _ <-])%bind_inv)%bind_inv.
  eapply after_switch_ok; [|exact H2]. unfold SchedulerSwitcher in H1.
  apply bind_inv in H1 as (m & p3 & ->%GetThis_same & H1). destruct target as [b|]; [|by injection H1 as _ <-].
  apply bind_inv in H1 as (y & p4 & H1 & [= _ <-]). by eapply switchTo_ok.
Qed.

Lemma leave_ok r i f entry cur m_caller k p p' :
  process_ok p -> leave_scope r i f entry cur m_caller k p = (Ret tt, p') -> process_ok p'.
Proof.
  intros Hp (b & p1 & H1 & H2)%bind_inv. eapply after_switch_ok; [|exact H2].
  destruct m_caller as [a|]; [by eapply switchTo_ok|by injection H1 as _ <-].
Qed.

(** *** The constructor *)

(** The constructor at work on thread [i], in the view [w0] of a new scheduler. *)
Record built (i : nat) (w0 w : world) : Prop := mkBuilt {
  bu_active : m_activeThreadCount (w_sched w) = 0%Z;
  bu_idle : m_idleThreadCount (w_sched w) = 0%Z;
  bu_threads : <[i := main_thr 0]> (w_threads w) = <[i := main_thr 0]> (w_threads w0);
  bu_place : forall x, w_threads w !! i = Some x -> th_pc x = PcOutside
}.

Lemma built_mod_sched i w0 g :
  (forall s, m_activeThreadCount (g s) = 0%Z /\ m_idleThreadCount (g s) = 0%Z) -> keeps (built i w0) (mod_sched g).
Proof. intros Hg. apply keeps_modify. intros w [_ _ Ht Hp]. destruct (Hg (w_sched w)). by split. Qed.

Lemma built_thread {A} i w0 (m : M world A) :
  (forall w a w', m w = (Ret a, w') -> w_sched w' = w_sched w /\
     (w' = w \/ exists t x, w_threads w !! i = Some t /\ w_threads w' = <[i := x]> (w_threads w) /\ th_pc x = th_pc t)) ->
  keeps (built i w0) m.
Proof.
  intros Hm w a w' [Ha Hd Ht Hp] H. destruct (Hm w a w' H) as [Hs [->|(t & x & Hti & Hx & Hpc)]]; [done|].
  split; [by rewrite Hs..|rewrite Hx; by rewrite list_insert_insert_eq|]. intros y Hy.
  rewrite Hx, list_lookup_insert_eq in Hy by (by eapply lookup_lt_Some). injection Hy as <-. rewrite Hpc. by apply Hp.
Qed.

Lemma construct_built i threads use_caller name w0 : keeps (built i w0) (construct i threads use_caller name).
Proof.
  unfold construct. apply keeps_bind; [apply keeps_lift|intros _].
  apply keeps_bind; [by apply built_mod_sched|intros _]. destruct use_caller; [|by apply built_mod_sched].
  assert (forall A (m : M fworld A), keeps (built i w0) (on_thread i m)) as Hon.
  { intros A m. apply built_thread. intros w a w' H. unfold on_thread in H.
    destruct (w_threads w !! i) as [t|] eqn:Ht; [|done]. destruct (m _) as [r h]. injection H as _ <-.
    split; [done|]. right. by do 2 eexists. }
  assert (forall c : bool, keeps (built i w0) (mod_thr i (put_scheduler c))) as Hmod.
  { intros c. apply built_thread. intros w a w' H. unfold mod_thr, get_thr in H. revert H. unfold_M.
    destruct (w_threads w !! i) as [t|] eqn:Ht; [|done]. intros [= _ <-]. split; [done|]. right. by do 2 eexists. }
  repeat (apply keeps_bind; [first [apply Hon|apply Hmod|apply keeps_lift|idtac]|intros ?]);
    [|by apply built_mod_sched].
  intros v x v' Hv. unfold get_thr. case_match; by intros [= _ <-].
Qed.

(** A place for one more scheduler. *)
Lemma no_scheduler_ok p :
  process_ok p -> process_ok (mkProcess (pr_heap p) (pr_scheds p ++ [no_scheduler]) (pr_threads p) (pr_tickles p) (pr_log p)).
Proof.
  intros [Hrun Hthis Hcounts]. split; simpl; [|exact Hthis|].
  - intros i t k Ht Hk. rewrite length_app. pose proof (Hrun i t k Ht Hk). lia.
  - intros k s Hs. apply lookup_app_Some in Hs as [Hs|[Hk Hs]]; [by apply Hcounts|].
    apply list_lookup_singleton_Some in Hs as [Hk' <-]. unfold counts_of. simpl.
    assert (counts_ok (0%Z, 0%Z, [])) as Hnil by (by constructor; simpl; [..|intros i ft]).
    apply (counts_append 0 0 []); [|exact Hnil]. apply Forall_lookup. intros j c Hc. left.
    change (places_of k p !! j = Some c) in Hc. rewrite places_of_lookup in Hc.
    destruct (pr_threads p !! j) as [t|] eqn:Ht; [|done]. injection Hc as <-. apply decide_False.
    intros Hr. pose proof (Hrun j t k Ht Hr). lia.
Qed.

Lemma construct_ok i threads use_caller name k p p' :
  is_outside p i -> process_ok p -> construct_on i threads use_caller name p = (Ret k, p') -> process_ok p'.
Proof.
  intros Hi Hp ([] & p0 & Ha & (this & p1 & H1 & ([] & p2 & H2 & H)%bind_inv)%bind_inv)%bind_inv.
  assert (p0 = p) as -> by (unfold assert_that, lift_res in Ha; by destruct (Z.ltb _ _); injection Ha).
  apply GetThis_same in H1 as ->.
  assert (p2 = p) as ->.
  { destruct use_caller; [|by injection H2]. unfold assert_that, lift_res in H2. by destruct (bool_decide _); injection H2. }
  apply bind_inv in H as (q & q' & [= <- <-] & H).
  apply bind_inv in H as ([] & p1 & [= <-] & H). apply bind_inv in H as ([] & p2 & H2' & H).
  apply bind_inv in H as ([] & p3 & H & [= _ <-]). apply on_scheduler_inv in H as (s & w & Hs & Hm & ->).
  apply set_run_ok in H2' as Hset; [|exact Hi|simpl; rewrite length_app; simpl; lia|by apply no_scheduler_ok].
  destruct Hset as [Hp2 (t & Ht & Hpc & Hr)]. apply (put_back_ok _ s); [done|done|].
  set (k0 := length (pr_scheds p)) in *.
  assert (s = no_scheduler) as ->.
  { unfold set_run, get_pthread in H2'. revert H2'. unfold_M. simpl. destruct (pr_threads p !! i); [|done].
    intros [= <-]. simpl in Hs. rewrite list_lookup_middle in Hs by done. by injection Hs. }
  assert (built i (view k0 no_scheduler p2) (view k0 no_scheduler p2)) as Hb.
  { split; [done..|]. intros x Hx. rewrite view_lookup, Ht in Hx. injection Hx as <-. simpl. by rewrite decide_True. }
  destruct (construct_built i threads use_caller name _ _ _ _ Hb Hm) as [Hact Hidle Hth Hplace].
  apply (view_ok_thread k0 no_scheduler p2 Hp2 i); [exact Hth|..].
  - pose proof (po_counts _ Hp2 k0 no_scheduler Hs) as Hc. unfold counters. rewrite Hact, Hidle.
    assert (places w = places_of k0 p2) as ->; [|exact Hc]. apply list_eq. intros j.
    unfold places. rewrite list_lookup_fmap. destruct (decide (j = i)) as [->|Hne].
    + rewrite places_of_lookup, Ht. simpl. rewrite decide_True by done.
      assert (length (w_threads w) = length (pr_threads p2)) as Hlen.
      { apply (f_equal length) in Hth. rewrite !length_insert in Hth. simpl in Hth. by rewrite length_fmap in Hth. }
      destruct (lookup_lt_is_Some_2 (w_threads w) i) as [x Hx]; [apply lookup_lt_Some in Ht; lia|].
      rewrite Hx. simpl. by rewrite (Hplace x Hx), Hpc.
    + unfold places_of. rewrite list_lookup_fmap. f_equal. apply (f_equal (fun l => l !! j)) in Hth.
      by rewrite !list_lookup_insert_ne in Hth by done.
  - intros t' x Ht' Hx. rewrite Ht in Ht'. injection Ht' as <-. split; [done|].
    intros _ Hin. simpl in Hin. by rewrite (Hplace x Hx) in Hin.
Qed.

(** *** Together *)
Lemma process_step_ok p p' : process_ok p -> process_step p p' -> process_ok p'.
Proof.
  intros Hp H. destruct H; [by eapply construct_ok|by eapply assign_ok|by eapply starts_ok|by eapply thread_ok|by eapply schedule_ok
    |by eapply stop_ok|by eapply stop_call_ok|by eapply stop_swap_ok|by eapply destroy_ok|by eapply enter_ok|by eapply leave_ok].
Qed.

Lemma process_steps_ok p p' : process_ok p -> process_steps p p' -> process_ok p'.
Proof. intros Hp H. induction H; eauto using process_step_ok. Qed.

Lemma initial_process_ok tid : process_ok (initial_process tid).
Proof.
  split; simpl; [intros [|i] t k|intros [|i] t|by intros []]; try done; by intros [= <-].
Qed.

(** ** What one operation answers *)

(** What is seen and put back unchanged is unchanged. *)
Lemma put_thr_view k t : put_thr k t (view_thr k t) = t.
Proof.
  destruct t as [id l this run c idle fn]. unfold put_thr. simpl. f_equal.
  - destruct (decide (this = Some k)) as [->|Hne]; [by rewrite bool_decide_eq_true_2|by rewrite bool_decide_eq_false_2].
  - by destruct (decide (run = Some k)).
Qed.

Lemma put_threads_view k ts : put_threads k ts (view_thr k <$> ts) = ts.
Proof.
  induction ts as [|t ts IH]; [done|]. rewrite fmap_cons.
  change (put_thr k t (view_thr k t) :: put_threads k ts (view_thr k <$> ts) = t :: ts). by rewrite put_thr_view, IH.
Qed.

(** What thread [i] does on the heap alone, and what it then appends to the queue. *)
Lemma schedule_this_spec k i f thread p s t :
  pr_scheds p !! k = Some s -> pr_threads p !! i = Some t ->
  t_fiber (pt_tls t) = Some f -> is_Some (fibers (pr_heap p) !! f) ->
  on_scheduler k (g ← on_thread i GetThis; schedule_fiber g thread) p =
    (Ret tt, mkProcess (set_loc (pt_tls t) (pr_heap p))
       (<[k := set_queue (m_fibers s ++ [mkFT (Some f) None thread]) s]> (pr_scheds p)) (pr_threads p)
       (match m_fibers s with [] => S (pr_tickles p) | _ => pr_tickles p end) (pr_log p)).
Proof.
  intros Hs Ht Hf [x Hx]. unfold on_scheduler. rewrite Hs.
  assert (on_thread i GetThis (view k s p) =
    (Ret f, mkWorld (set_loc (pt_tls t) (pr_heap p)) s (view_thr k <$> pr_threads p) (pr_tickles p) (pr_log p))) as E.
  { unfold on_thread. rewrite view_lookup, Ht. unfold GetThis, deref. unfold_M. simpl. rewrite Hf. simpl. rewrite Hx. simpl.
    f_equal. f_equal. apply list_insert_id. rewrite list_lookup_fmap, Ht. by destruct t. }
  unfold mbind at 1, M_bind. simpl. rewrite E. unfold schedule_fiber, schedule, scheduleNonLock. unfold_M. simpl.
  unfold put_back. destruct (m_fibers s); simpl; by rewrite put_threads_view.
Qed.

Lemma GetThis_spec i p t : pr_threads p !! i = Some t -> Scheduler_GetThis i p = (Ret (pt_scheduler t), p).
Proof. intros Ht. unfold Scheduler_GetThis, get_pthread. unfold_M. by rewrite Ht. Qed.

(** C6.  In every execution of a process with any number of schedulers and threads,
    whatever is scheduled, stopped, destroyed and switched, each scheduler's
    [m_activeThreadCount] and [m_idleThreadCount] are the numbers of its own threads
    that work on an entry and that are in their idle fiber; and on a thread in the loop
    of a scheduler's [run], [Scheduler::GetThis()] answers that scheduler. *)
Theorem schedulers_keep_apart tid p :
  process_steps (initial_process tid) p ->
  (forall k s, pr_scheds p !! k = Some s ->
     m_activeThreadCount s = u64 (tally active_pc (places_of k p)) /\
     m_idleThreadCount s = u64 (tally idle_pc (places_of k p))) /\
  (forall i t, pr_threads p !! i = Some t -> in_loop (pt_pc t) = true ->
     exists k s, pt_run t = Some k /\ pr_scheds p !! k = Some s /\ Scheduler_GetThis i p = (Ret (Some k), p)).
Proof.
  intros H. destruct (process_steps_ok _ _ (initial_process_ok tid) H) as [Hrun Hthis Hcounts]. split.
  - intros k s Hs. by destruct (Hcounts k s Hs) as [Ha Hd _].
  - intros i t Ht Hin. destruct (Hthis i t Ht Hin) as [Hsame [k Hk]].
    destruct (lookup_lt_is_Some_2 (pr_scheds p) k (Hrun i t k Ht Hk)) as [s Hs]. exists k, s.
    split; [done|]. split; [done|]. rewrite (GetThis_spec i p t Ht). by rewrite Hsame, Hk.
Qed.

(** C26.  [SchedulerSwitcher]'s constructor, on a fiber [f] of a thread whose
    [t_scheduler] is [this]: without a target nothing happens; without a scheduler a
    target is an assertion failure; the scheduler itself as the target is left at that;
    another scheduler gets the fiber at the end of its queue, for any thread, with a
    [tickle] if the queue was empty, and the fiber has to yield.  [m_caller] is what
    [t_scheduler] was, and only the target's queue has changed. *)
Theorem switcher_spec i f target p t :
  pr_threads p !! i = Some t -> t_fiber (pt_tls t) = Some f -> is_Some (fibers (pr_heap p) !! f) ->
  (forall b, target = Some b -> b < length (pr_scheds p)) ->
  match target with
  | None => SchedulerSwitcher i target p = (Ret (pt_scheduler t, false), p)
  | Some b =>
      if decide (pt_scheduler t = None) then
        SchedulerSwitcher i target p = (Abort $"Scheduler::GetThis() != nullptr", p)
      else if decide (pt_scheduler t = Some b) then
        SchedulerSwitcher i target p = (Ret (pt_scheduler t, false), p)
      else exists s p', pr_scheds p !! b = Some s /\ SchedulerSwitcher i target p = (Ret (pt_scheduler t, true), p') /\
        pr_scheds p' = <[b := set_queue (m_fibers s ++ [mkFT (Some f) None (-1)]) s]> (pr_scheds p) /\
        pr_threads p' = pr_threads p /\ fibers (pr_heap p') = fibers (pr_heap p) /\ pr_log p' = pr_log p /\
        pr_tickles p' = pr_tickles p + (if decide (m_fibers s = []) then 1 else 0)
  end.
Proof.
  intros Ht Hf Hlive Hb. unfold SchedulerSwitcher.
  destruct target as [b|]; [|by rewrite (bind_ret _ _ _ _ _ (GetThis_spec i p t Ht))].
  assert (get_pthread i p = (Ret t, p)) as Hget by (unfold get_pthread; by rewrite Ht).
  destruct (lookup_lt_is_Some_2 (pr_scheds p) b (Hb b eq_refl)) as [s Hs].
  rewrite !(bind_ret _ _ _ _ _ (GetThis_spec i p t Ht)). unfold switchTo_on.
  destruct (decide (pt_scheduler t = None)) as [Hnone|Hsome].
  { unfold mbind, M_bind. rewrite (GetThis_spec i p t Ht), Hnone. done. }
  assert (forall A (m : M process A) , (assert_that (bool_decide (pt_scheduler t <> None)) $"Scheduler::GetThis() != nullptr";; m) p = m p) as Hpass.
  { intros A m. by rewrite bool_decide_eq_true_2. }
  destruct (decide (pt_scheduler t = Some b)) as [Hown|Hother].
  - unfold mbind at 1, M_bind. rewrite (bind_ret _ _ _ _ _ (GetThis_spec i p t Ht)), Hpass, (bind_ret _ _ _ _ _ Hget).
    by rewrite bool_decide_eq_true_2.
  - pose proof (schedule_this_spec b i f (-1) p s t Hs Ht Hf Hlive) as E. exists s, (snd (on_scheduler b (g ← on_thread i GetThis; schedule_fiber g (-1)) p)).
    rewrite E. split; [done|]. split; [|destruct (m_fibers s); repeat split; simpl; lia].
    unfold mbind at 1, M_bind. rewrite (bind_ret _ _ _ _ _ (GetThis_spec i p t Ht)), Hpass, (bind_ret _ _ _ _ _ Hget).
    rewrite bool_decide_eq_false_2 by done. simpl. by rewrite (bind_ret _ _ _ _ _ E).
Qed.

(** *** Interleavings *)

(** The threads take steps in the given order, where they can. *)
Fixpoint advance (order : list nat) : M process unit :=
  match order with
  | [] => mret tt
  | i :: order' =>
      p ← get;
      t ← get_pthread i;
      match pt_run t with
      | Some k =>
          match pr_scheds p !! k with
          | Some s => if enabled i (view k s p) then on_scheduler k (thread_step i);; advance order' else mret tt
          | None => mret tt
          end
      | None => mret tt
      end
  end.

Lemma advance_steps order p p' : advance order p = (Ret tt, p') -> process_steps p p'.
Proof.
  revert p. induction order as [|i order IH]; intros p; [intros [= <-]; apply rtc_refl|].
  intros (p1 & p2 & [= <- <-] & (t & p3 & Hget & H)%bind_inv)%bind_inv.
  unfold get_pthread in Hget. destruct (pr_threads p !! i) as [x|] eqn:Ht; [|done]. injection Hget as -> <-.
  destruct (pt_run t) as [k|] eqn:Hk; [|injection H as <-; apply rtc_refl].
  destruct (pr_scheds p !! k) as [s|] eqn:Hs; [|injection H as <-; apply rtc_refl].
  destruct (enabled i (view k s p)) eqn:He; [|injection H as <-; apply rtc_refl].
  apply bind_inv in H as ([] & p1 & H1 & H). eapply rtc_l; [by eapply step_thread|by apply IH].
Qed.

Definition advanced (order : list nat) (p : process) : process := snd (advance order p).

Lemma advanced_steps order p :
  is_ret (fst (advance order p)) = true -> process_steps p (advanced order p).
Proof.
  intros H. apply (advance_steps order). unfold advanced. destruct (advance order p) as [[[]|?|?|?] p']; done.
Qed.

(** Two schedulers of one thread each, with the ids 1 and 2, and a task for the first. *)
Definition two_schedulers (task : prog) : M process unit :=
  a ← construct_on 0 1 false $"a";
  b ← construct_on 0 1 false $"b";
  on_scheduler a (assign_flags true false);;
  on_scheduler b (assign_flags true false);;
  on_scheduler a (start [1%Z]);;
  on_scheduler b (start [2%Z]);;
  on_scheduler a (schedule_func (Some (FUser task)) (-1)).

Lemma two_schedulers_steps task p :
  two_schedulers task (initial_process 0) = (Ret tt, p) -> process_steps (initial_process 0) p.
Proof.
  unfold two_schedulers. intros (a & p1 & H1 & (b & p2 & H2 & H)%bind_inv)%bind_inv.
  apply bind_inv in H as ([] & p3 & H3 & ([] & p4 & H4 & H)%bind_inv).
  apply bind_inv in H as ([] & p5 & H5 & ([] & p6 & H6 & H7)%bind_inv).
  assert (is_outside (initial_process 0) 0) as Hi by (by eexists; split; [|left]).
  assert (is_outside p1 0) as Hi1.
  { apply (f_equal snd) in H1. change p1 with (snd (Ret a, p1)). rewrite <- H1.
    eexists. split; [vm_compute; reflexivity|by left]. }
  eapply rtc_l; [by eapply step_construct|]. eapply rtc_l; [by eapply step_construct|].
  eapply rtc_l; [by eapply step_assign|]. eapply rtc_l; [by eapply step_assign|].
  eapply rtc_l; [by eapply step_start_on|]. eapply rtc_l; [by eapply step_start_on|].
  eapply rtc_l; [by eapply step_schedule_on|]. apply rtc_refl.
Qed.

(** The task is on its fiber, about to do its work [PStep 5 ...]. *)
Definition scoped_task : prog := PStep 5 PReturn.
Definition before_scope : process := advanced (repeat 1 4) (snd (two_schedulers scoped_task (initial_process 0))).

(** The task has entered the scope of a [SchedulerSwitcher] of the second scheduler. *)
Definition inside_scope : process := snd (enter_scope 0 1 2 MainFunc 2 (Some 1) scoped_task before_scope).

Lemma inside_scope_steps : process_steps (initial_process 0) inside_scope.
Proof.
  transitivity before_scope.
  - transitivity (snd (two_schedulers scoped_task (initial_process 0))).
    + apply (two_schedulers_steps scoped_task). vm_compute. reflexivity.
    + apply advanced_steps. vm_compute. reflexivity.
  - apply rtc_once. eapply (step_enter _ 1 0 2 MainFunc 2 (Some 1) scoped_task (Some 0)).
    + eexists. eexists. split; [vm_compute; reflexivity|]. split; [reflexivity|]. split; [reflexivity|].
      split; [discriminate|]. split; [vm_compute; reflexivity|]. reflexivity.
    + unfold inside_scope. set (x := enter_scope _ _ _ _ _ _ _ _). assert (fst x = Ret (Some 0)) as E by (by vm_compute).
      clearbody x. destruct x as [r q]. simpl in E. by rewrite E.
Qed.

(** The code in the scope of a [SchedulerSwitcher] need not run on the scheduler
    it asked for.  The fiber goes into the target's queue and, once its thread finds it
    in state HOLD, back into the queue it came from.  When the caller's thread is the
    first to take it, the work of the scope is done by that thread, whose [GetThis()]
    is the caller, the destructor then leaves it there, and the target still has the
    entry; when both take it, the second one resumes a context that is running. *)
Theorem switcher_enters_twice :
  let home := advanced (repeat 1 7) inside_scope in
  let both := advanced (repeat 1 5 ++ repeat 2 3) inside_scope in
  process_steps (initial_process 0) home /\ pr_log home = [(1, 5)] /\
  Scheduler_GetThis 1 home = (Ret (Some 0), home) /\ destroy_switcher 1 (Some 0) home = (Ret false, home) /\
  m_fibers <$> pr_scheds home = [[]; [mkFT (Some 2) None (-1)]] /\
  process_steps (initial_process 0) both /\
  pt_pc <$> pr_threads both = [PcOutside; PcDispatch (mkFT (Some 2) None (-1)) true; PcInFiber 2] /\
  pt_scheduler <$> pr_threads both = [None; Some 0; Some 1] /\
  (exists s, pr_scheds both !! 0 = Some s /\ enabled 1 (view 0 s both) = true) /\
  is_ub (fst (on_scheduler 0 (thread_step 1) both)) = true.
Proof.
  cbv zeta. split; [etransitivity; [apply inside_scope_steps|apply advanced_steps; by vm_compute]|].
  split; [by vm_compute|]. split; [by vm_compute|]. split; [by vm_compute|]. split; [by vm_compute|].
  split; [etransitivity; [apply inside_scope_steps|apply advanced_steps; by vm_compute]|].
  split; [by vm_compute|]. split; [by vm_compute|].
  split; [eexists; split; by vm_compute|by vm_compute].
Qed.

(** ** Witnesses *)

Lemma schedulers_keep_apart_witness :
  process_steps (initial_process 0) inside_scope /\
  exists s, pr_scheds inside_scope !! 0 = Some s /\ m_activeThreadCount s = 1%Z /\
    m_activeThreadCount s = u64 (tally active_pc (places_of 0 inside_scope)) /\
    exists t k, pr_threads inside_scope !! 1 = Some t /\ pt_run t = Some k /\
      Scheduler_GetThis 1 inside_scope = (Ret (Some k), inside_scope).
Proof.
  split; [exact inside_scope_steps|].
  destruct (schedulers_keep_apart 0 inside_scope inside_scope_steps) as [Hc Ht].
  eexists. split; [vm_compute; reflexivity|]. split; [by vm_compute|]. split.
  - apply (proj1 (Hc 0 _ ltac:(vm_compute; reflexivity))).
  - edestruct (Ht 1) as (k & _ & Hk & _ & Hg); [vm_compute; reflexivity|by vm_compute|].
    eexists. exists k. split; [vm_compute; reflexivity|]. by split.
Defined.

Lemma switcher_spec_witness :
  exists s p', pr_scheds before_scope !! 1 = Some s /\
    SchedulerSwitcher 1 (Some 1) before_scope = (Ret (Some 0, true), p') /\
    m_fibers <$> pr_scheds p' = [[]; [mkFT (Some 2) None (-1)]] /\ pr_tickles p' = pr_tickles before_scope + 1.
Proof.
  eassert (pr_threads before_scope !! 1 = Some _) as Ht by (vm_compute; reflexivity).
  assert (is_Some (fibers (pr_heap before_scope) !! 2)) as Hlive by (eexists; vm_compute; reflexivity).
  assert (length (pr_scheds before_scope) = 2) as Hlen by (vm_compute; reflexivity).
  pose proof (switcher_spec 1 2 (Some 1) before_scope _ Ht eq_refl Hlive
    ltac:(intros b [= <-]; rewrite Hlen; lia)) as H.
  cbv beta iota in H. rewrite !decide_False in H by done.
  destruct H as (s & p' & Hs & Hsw & Hq & _ & _ & _ & Htk).
  exists s, p'. split; [exact Hs|]. split; [exact Hsw|].
  assert (m_fibers s = []) as Hnil by (revert Hs; vm_compute; by intros [= <-]). rewrite Hnil in Hq, Htk.
  split; [rewrite Hq; by vm_compute|exact Htk].
Defined.
